(* ===== verification/_CoqProject ===== *)
-Q . S2P
Prelude.v
Bytes.v
Io.v
Sha256.v
CipherState.v
Noise.v
NoiseFacts.v
NoiseTheorems.v
Message.v
Encode.v
Decode.v
WireFormat.v
DecodeField.v
DecodeFacts.v
Codec.v
Record.v
RecordFacts.v
RecordReader.v
RecordTheorems.v
GoStrings.v
Pool.v
PoolFacts.v
PoolSystem.v
PoolTheorems.v
Register.v
SessionPool.v
Queue.v
Conn.v
ConnTheorems.v
Conf.v
ConfParse.v
ConfSpec.v
ConfBuild.v
ConfTheorems.v
Endpoint.v
Announce.v
Interact.v
Session.v
ClientSpec.v
SessionSpec.v
ServerSpec.v
Daemon.v
DaemonSpec.v
JobProtocol.v
Headers.v
Calls.v
Job.v
Server.v
RelaySpec.v
Deadline.v
Provide.v
ProvideSpec.v
Consume.v
ConsumeSpec.v
EndToEnd.v
StaleProvider.v
LogState.v
