(* ===== verification/Prelude.v ===== *)
(** * HttpPooler: a verification library

    HttpPooler pools HTTP services between trusted peers.  One peer, the server,
    holds a pool; every peer, the server included, may provide upstreams to it
    ([provide] sections of its configuration) and open ports on which its
    applications consume the pooled services ([consume] sections).  Peers keep
    one encrypted connection each to the server.  A request of an application
    becomes a job: the consumer sends it to the server, the server queues it,
    leases a slot of a provider and relays it, and the answer comes back the
    same way.  This library models the program under src/ and proves what its
    parts promise, one layer on top of the other.

    ** The parts, from the wire up

    - Bytes, strings, machine integers, readers and writers: Bytes.v, Io.v, and
      GoStrings.v for what is used of strings, strconv, net/textproto,
      encoding/hex and net.SplitHostPort.  The standard library is defined, not
      assumed.
    - internal/wire/message.go, encode.go, decode.go: Message.v, Encode.v,
      Decode.v.  WireFormat.v states the format of PROTOCOL.md; DecodeField.v
      and DecodeFacts.v relate each decoder method to it through the class
      [Field]; Codec.v has the theorems about both directions.
    - internal/noise/state.go and noise.go: Sha256.v (SHA-256, HMAC and HKDF),
      CipherState.v, Noise.v; NoiseFacts.v and NoiseTheorems.v.
    - internal/wire/wire.go and record.go: Record.v (preamble, handshake framing,
      the two record streams); RecordFacts.v, RecordReader.v, RecordTheorems.v.
    - internal/pool/pool.go: Pool.v (one function per lock region), PoolFacts.v
      (the invariant), PoolSystem.v (any number of concurrent callers as a step
      relation), PoolTheorems.v.
    - internal/peer/queue.go: Queue.v.  internal/peer/conn.go: Conn.v (the
      connection, its job table, its read loop and the step relation of the
      goroutines that share it), ConnTheorems.v.
    - internal/conf: Conf.v (the data of conf.go), ConfParse.v (parse.go),
      ConfBuild.v (build.go, and Parse and Load of conf.go).  ConfSpec.v states
      the grammar, ConfTheorems.v what an accepted and a refused file are.
    - internal/peer/endpoint.go: Endpoint.v (state, HELLO, the slots in use);
      register of server.go: Register.v, interleaved with other sessions and
      with jobs, one provider at a time, in SessionPool.v; Announce.v follows a configuration file to the HELLO made of
      it and on to the pool.
    - Interact.v: interaction trees, traces, monitors and runs, which everything
      below is built on.
    - The life of a session: Session.v has Run, session, jitter and sleep of
      client.go; Run, serveSelf, accept and handle of server.go; Start, Close and
      Serve of endpoint.go; run, ping and pong of conn.go.  ClientSpec.v,
      SessionSpec.v and ServerSpec.v have their contracts.
    - cmd/httppooler/main.go: Daemon.v, with its contract in DaemonSpec.v.
    - A job: JobProtocol.v (the message order PROTOCOL.md states), Headers.v
      (headers.go), Calls.v (what a job's goroutine calls), Job.v (job.go and
      sendBodyEnd), Server.v (relay, dispatch and answer of server.go), Provide.v
      (provide.go), Consume.v (consume.go), with the contracts in RelaySpec.v,
      ProvideSpec.v and ConsumeSpec.v.  Deadline.v joins relay's contract to the
      pool's timer.
    - EndToEnd.v composes the three job handlers; StaleProvider.v runs relay on
      the pool that a refused HELLO leaves, under any clock and context; LogState.v is what SIGUSR1 logs.

    ** How code is represented

    A Go function that may fail returns a [result]; one that changes its
    receiver and may fail is an [ST] computation (both below).  A uint of w bytes
    is an [N] below [width w], with its wrap-around written out where the code
    can reach it; int and time.Duration are [Z].  Pointers that are shared are
    addresses into stores ([gmap]).  Code under a lock is one function; code that
    waits is cut at its lock regions and channel operations and interleaved by a
    step relation ([PoolSystem.step], [qstep], [conn_step]).  A goroutine that
    mostly calls others - a job's handler, a session, the daemon - is an
    interaction tree of its calls, and a call may answer anything its type
    allows.  A contract is an automaton over the calls with their answers; the
    theorem is that every trace of the handler, stopped anywhere, is one the
    automaton accepts, and that a trace that ends leaves a good state.

    ** What the theorems show

    - Codec: encoding and decoding are inverse on exactly the well-formed
      messages, every message has one encoding, refusals are final and a cut
      input is told from a finished one.
    - Security of a connection: both sides of a handshake derive the same keys,
      an accepted handshake message is one an honest peer writes, nothing inside
      can fail, each refusal is final or leaves everything as it was, no nonce is
      used twice, a responder is silent until its peer has proved itself; the records carry the byte stream, and messages written at one end of
      a connection are read at the other.
    - The pool: slots are never oversubscribed or lost, no job waits beside a
      free slot, the oldest job goes first, no wake-up is lost, and an Acquire
      that gives up returns and leaves no slot taken; a job's deadline counts
      from its first arrival, however often it is queued again.
    - Connections: job ids are fresh and tell the sides apart, messages reach
      their job's inbox once and in order, and no inbox is left open.
    - Configuration: [split] is the grammar; what is accepted is valid; what is
      refused is refused at one of its lines; what is accepted is announced,
      carried and registered section by section (up to the 255 the wire counts).
    - Sessions: a client keeps one session at a time and bounded waits between
      them; what a session registers it takes out, and it runs jobs only in
      between; at every moment, in the middle of a registration too, the pool
      holds the providers its sessions added and have not taken out, and no
      others (but those a refused HELLO left); the server closes all it opened; the daemon outlives its
      configuration, and genkey prints secrets a configuration takes.
    - Jobs: relay, provide and consume keep their contracts whatever the rest of
      the world answers; each acts only on a whole request and passes it on whole;
      headers survive the way; and when nothing goes wrong the three together
      terminate and are transparent: the upstream is asked with the application's
      method, target, headers and body, and the application is shown the
      upstream's status, headers, body and trailers.
    - Where the code departs from what it means to do, the theorem says so:
      [announced_from_conf] (more than 255 sections), [register_spec] and
      [refused_hello_spins] (a refused HELLO leaves a provider for which relay
      then loops without end), [relay_keeps_contract] (no FAIL after a CANCEL).

    ** Fuel and bounds

    Loops over data take their fuel from the data and cannot run out: the
    record writer's and [pieces] the length of the body (each turn takes at
    least a byte), the trimming of strings their length, [Next_all] and [drain]
    one more than the bytes still to come (each message or record has at least
    one).  The loops of goroutines are [ITree.iter] and need none.  [exec] takes
    fuel to evaluate a tree on a concrete input; [runs] says that it returns
    whatever fuel is enough, [spins] that no fuel ever is.

    ** What is a parameter

    ChaCha20-Poly1305 ([AEAD], with the laws [AEADLaws]) and X25519 ([Curve],
    [CurveLaws]) are outside the repository or the part of the standard library
    defined here; each is instantiated by a concrete function in the witnesses.
    [Environment] is the machine's name and time.ParseDuration, [Texts] the
    texts of %q, durations and foreign errors; no law is assumed of either.
    Sockets, the HTTP client and server, files, signals, the flag package,
    timers, exec and random numbers are calls with any answer.

    ** What is not modelled

    Log lines other than those of SIGUSR1, and the logger's format; the usage
    text; the text of a refusal (it is a constructor with what the text is made
    of); [Options], which choose the operating system's sockets or a test's; the
    settings of the HTTP client, which are Go's to honour; tests.  Time is what
    timers and deadlines answer: a deadline is an error a read or write may
    give. *)

From stdpp Require Export base tactics list gmap strings fin_maps pretty sorting.
From Stdlib Require Export NArith ZArith Lia ZifyBool ZifyN ZifyNat.

(** ** Results

    A Go function that returns a value and an error is a function into
    [result]. *)
Inductive result (E A : Type) : Type :=
  | Ok (a : A)
  | Err (e : E).
Arguments Ok {E A} a.
Arguments Err {E A} e.

Definition rbind {E A B} (c : result E A) (k : A -> result E B) : result E B :=
  match c with
  | Ok a => k a
  | Err e => Err e
  end.

Declare Scope go_scope.
Delimit Scope go_scope with go.
Notation "'let!' x ':=' c 'in' k" := (rbind c (fun x => k))
  (at level 10, x pattern, c at level 100, k at level 200) : go_scope.
Notation "'check!' c 'in' k" := (rbind c (fun _ => k))
  (at level 10, c at level 100, k at level 200) : go_scope.

Lemma rbind_Ok {E A B} (c : result E A) (k : A -> result E B) b :
  rbind c k = Ok b -> exists a, c = Ok a /\ k a = Ok b.
Proof. destruct c; simpl; [eauto | discriminate]. Qed.

Lemma rbind_Err {E A B} (c : result E A) (k : A -> result E B) e :
  rbind c k = Err e -> c = Err e \/ exists a, c = Ok a /\ k a = Err e.
Proof. destruct c; simpl; [eauto | left; congruence]. Qed.

(** ** State and errors

    A Go method that changes its receiver and may return an error: the changes
    made before the error stay. *)
Definition ST (S E A : Type) : Type := S -> result E A * S.

Section ST.
Context {S E A B : Type}.

Definition st_ret (a : A) : ST S E A := fun s => (Ok a, s).
Definition st_err (e : E) : ST S E A := fun s => (Err e, s).
Definition st_bind (m : ST S E A) (k : A -> ST S E B) : ST S E B :=
  fun s => match m s with
           | (Ok a, s) => k a s
           | (Err e, s) => (Err e, s)
           end.
(** A step that cannot fail, and one that changes nothing. *)
Definition st_mod (f : S -> S) : ST S E unit := fun s => (Ok tt, f s).
Definition st_get (f : S -> A) : ST S E A := fun s => (Ok (f s), s).
Definition st_lift (c : result E A) : ST S E A := fun s => (c, s).
Definition st_check (bad : bool) (e : E) : ST S E unit :=
  fun s => (if bad then Err e else Ok tt, s).

Lemma st_bind_Ok (m : ST S E A) (k : A -> ST S E B) s b s' :
  st_bind m k s = (Ok b, s') -> exists a s1, m s = (Ok a, s1) /\ k a s1 = (Ok b, s').
Proof. unfold st_bind. destruct (m s) as [[a|e] s1]; [eauto | discriminate]. Qed.
End ST.

(** A method of a part of the state, as a method of the whole. *)
Definition st_zoom {S T E A} (get : S -> T) (set : T -> S -> S) (m : ST T E A) : ST S E A :=
  fun s => let '(r, t) := m (get s) in (r, set t s).

Declare Scope st_scope.
Delimit Scope st_scope with st.
Notation "'bind!' x ':=' m 'in' k" := (st_bind m (fun x => k))
  (at level 10, x pattern, m at level 100, k at level 200) : st_scope.
Notation "'then!' m 'in' k" := (st_bind m (fun _ => k))
  (at level 10, m at level 100, k at level 200) : st_scope.

(** [st_run H] reads an equation about [st_bind] from left to right. *)
Ltac st_run :=
  repeat match goal with
    | H : st_bind _ _ _ = (Ok _, _) |- _ =>
        let a := fresh "a" in let s := fresh "s" in let E := fresh "E" in
        apply st_bind_Ok in H as (a & s & E & H)
    end.

(** ** Go's [len]

    Lengths are compared against machine constants, so they live in [N]. *)
Definition len {A} (l : list A) : N := N.of_nat (length l).

Section Len.
Context {A : Type}.
Implicit Types l : list A.

Lemma len_nil : len (@nil A) = 0%N.
Proof. reflexivity. Qed.

Lemma len_cons x l : len (x :: l) = N.succ (len l).
Proof. unfold len. simpl. lia. Qed.

Lemma len_app l k : len (l ++ k) = (len l + len k)%N.
Proof. unfold len. rewrite length_app. lia. Qed.

Lemma len_0 l : len l = 0%N <-> l = [].
Proof. unfold len. destruct l; simpl; split; intros; try done; lia. Qed.

Lemma len_pos l : l <> [] <-> (0 < len l)%N.
Proof. rewrite <- len_0. lia. Qed.

Lemma len_take n l : len (take (N.to_nat n) l) = N.min n (len l).
Proof. unfold len. rewrite length_take. lia. Qed.

Lemma len_drop n l : len (drop (N.to_nat n) l) = (len l - n)%N.
Proof. unfold len. rewrite length_drop. lia. Qed.

Lemma len_to_nat l : N.to_nat (len l) = length l.
Proof. unfold len. lia. Qed.
End Len.

Lemma len_map {A B} (f : A -> B) (l : list A) : len (map f l) = len l.
Proof. unfold len. by rewrite length_map. Qed.

(** ** Hint databases

    [golen] normalises lengths; [go] resolves the side conditions the
    components share. *)
Create Rewrite HintDb golen.
Create HintDb go.
#[export] Hint Rewrite @len_nil @len_cons @len_app @len_take @len_drop @len_map @len_to_nat : golen.
#[export] Hint Extern 4 (_ < _)%N => lia : go.
#[export] Hint Extern 4 (_ <= _)%N => lia : go.
#[export] Hint Extern 4 (_ < _)%nat => lia : go.
#[export] Hint Extern 4 (_ <= _)%nat => lia : go.

(** [len_solve] is linear arithmetic after normalising lengths. *)
Ltac len_solve :=
  autorewrite with golen in *; unfold len in *;
  autorewrite with golen in *; lia.

(** [split_res] reads an equation about [rbind] from left to right. *)
Ltac split_res :=
  repeat match goal with
    | H : rbind ?c _ = Ok _ |- _ =>
        let a := fresh "a" in let E := fresh "E" in
        apply rbind_Ok in H as (a & E & H)
    | H : Ok _ = Ok _ |- _ => injection H as H; subst
    | H : Err _ = Err _ |- _ => injection H as H; subst
    | H : Ok _ = Err _ |- _ => discriminate H
    | H : Err _ = Ok _ |- _ => discriminate H
    end.

(** ** [sort.Strings]: the order of the bytes *)
Definition string_le (a b : string) : Prop := String.leb a b = true.
#[export] Instance string_le_dec a b : Decision (string_le a b).
Proof. unfold string_le. apply _. Defined.

#[export] Instance string_le_total : Total string_le.
Proof.
  intros a b. unfold string_le, String.leb. rewrite (String.compare_antisym a b).
  destruct (String.compare b a); simpl; auto.
Qed.

#[export] Instance string_le_antisymm : AntiSymm eq string_le.
Proof. intros a b Ha Hb. by apply String.leb_antisym. Qed.

#[export] Instance string_le_transitive : Transitive string_le.
Proof.
  unfold string_le. intros a. induction a as [|x a IH]; intros [|y b] [|z c]; try done.
  unfold String.leb. simpl. unfold Ascii.compare.
  destruct (N.compare_spec (Ascii.N_of_ascii x) (Ascii.N_of_ascii y)) as [E|E|E]; [| |done].
  - rewrite E. destruct (N.compare_spec (Ascii.N_of_ascii y) (Ascii.N_of_ascii z)) as [E'|E'|E']; try done.
    intros Hab Hbc. by apply (IH b c).
  - intros _ Hbc. destruct (N.compare_spec (Ascii.N_of_ascii y) (Ascii.N_of_ascii z)) as [E'|E'|E']; [| |done].
    + rewrite <- E'. by rewrite (proj2 (N.compare_lt_iff _ _) E).
    + by rewrite (proj2 (N.compare_lt_iff _ _) (N.lt_trans _ _ _ E E')).
Qed.

Definition sort_strings (l : list string) : list string := merge_sort string_le l.

Lemma sort_strings_sorted l : Sorted string_le (sort_strings l).
Proof. apply (Sorted_merge_sort string_le). Qed.

Lemma sort_strings_perm l : sort_strings l ≡ₚ l.
Proof. apply merge_sort_Permutation. Qed.

(** ** Cutting a list into pieces

    Both the record writer and the body sender cut a byte string into pieces
    of at most [n] elements; [pieces] is what their loops compute. *)
Fixpoint pieces_fuel {A} (fuel n : nat) (l : list A) : list (list A) :=
  match fuel, l with
  | S fuel, _ :: _ => take n l :: pieces_fuel fuel n (drop n l)
  | _, _ => []
  end.

Definition pieces {A} (n : N) (l : list A) : list (list A) :=
  pieces_fuel (length l) (N.to_nat n) l.

Section Pieces.
Context {A : Type}.
Implicit Types l : list A.

Lemma pieces_fuel_enough f1 f2 n l :
  (0 < n)%nat -> (length l <= f1)%nat -> (length l <= f2)%nat ->
  pieces_fuel f1 n l = pieces_fuel f2 n l.
Proof.
  intros Hn. revert f2 l. induction f1 as [|f1 IH]; intros f2 l H1 H2.
  - destruct l; simpl in *; [by destruct f2 | lia].
  - destruct l as [|x l]; [by destruct f2|].
    destruct f2 as [|f2]; [simpl in *; lia|]. cbn [pieces_fuel].
    f_equal. apply IH; rewrite length_drop; simpl in *; lia.
Qed.

Lemma pieces_nil n : pieces n (@nil A) = [].
Proof. reflexivity. Qed.

Lemma pieces_step n l :
  (0 < n)%N -> l <> [] ->
  pieces n l = take (N.to_nat n) l :: pieces n (drop (N.to_nat n) l).
Proof.
  intros Hn Hl. unfold pieces at 1. destruct l as [|x l]; [done|].
  cbn [length pieces_fuel]. f_equal. unfold pieces.
  apply pieces_fuel_enough; rewrite ?length_drop; simpl; lia.
Qed.

Lemma pieces_ind n (P : list A -> list (list A) -> Prop) :
  (0 < n)%N -> P [] [] ->
  (forall l, l <> [] -> P (drop (N.to_nat n) l) (pieces n (drop (N.to_nat n) l)) ->
     P l (take (N.to_nat n) l :: pieces n (drop (N.to_nat n) l))) ->
  forall l, P l (pieces n l).
Proof.
  intros Hn H0 HS l. remember (length l) as k eqn:Hk. revert l Hk.
  induction (lt_wf k) as [k _ IH]. intros l ->.
  destruct l as [|x l]; [by rewrite pieces_nil|].
  rewrite pieces_step by done. apply HS; [done|].
  eapply IH; [|reflexivity]. rewrite length_drop. simpl. lia.
Qed.

Lemma concat_pieces n l : (0 < n)%N -> concat (pieces n l) = l.
Proof.
  intros Hn. apply (pieces_ind n (fun l p => concat p = l)); [done..|].
  intros l' _ IH. simpl. rewrite IH. apply take_drop.
Qed.

Lemma pieces_bounds n l :
  (0 < n)%N -> Forall (fun p => 0 < len p <= n)%N (pieces n l).
Proof.
  intros Hn. apply (pieces_ind n (fun _ p => Forall _ p)); [done|constructor|].
  intros l' Hl IH. constructor; [|done].
  apply len_pos in Hl. rewrite len_take. lia.
Qed.

Lemma pieces_count n l :
  (0 < n)%N -> len (pieces n l) = ((len l + n - 1) / n)%N.
Proof.
  intros Hn. apply (pieces_ind n (fun l p => len p = (len l + n - 1) / n)%N); [done| |].
  - rewrite len_nil. symmetry. apply N.div_small. rewrite len_nil. lia.
  - intros l' Hl IH. apply len_pos in Hl. rewrite len_cons, IH, len_drop.
    destruct (N.le_gt_cases (len l') n).
    + replace (len l' - n)%N with 0%N by lia.
      rewrite (N.div_small (0 + n - 1)) by lia.
      replace (len l' + n - 1)%N with ((len l' - 1) + 1 * n)%N by lia.
      rewrite N.div_add by lia. rewrite N.div_small by lia. lia.
    + replace (len l' + n - 1)%N with ((len l' - n + n - 1) + 1 * n)%N by lia.
      rewrite N.div_add by lia. lia.
Qed.
End Pieces.
