(* ===== verification/Bytes.v ===== *)
(** Bytes, strings and machine integers as the standard library's
    [encoding/binary], [unicode/utf8] and string conversions treat them.

    A Go byte is [Byte.byte]; a Go string is [String.string], whose bytes are
    [bytes_of]; an unsigned integer is an [N] below its width. *)

From Stdlib Require Export Init.Byte.
From Stdlib Require Strings.Byte.
From S2P Require Import Prelude.
Local Open Scope N_scope.

#[export] Instance byte_eq_dec : EqDecision byte := Byte.byte_eq_dec.

(** ** [uint8] and [byte]

    [byte_of] is Go's conversion [byte(v)]: the low eight bits. *)
Definition byte_val (b : byte) : N := Byte.to_N b.
Definition byte_of (v : N) : byte :=
  match Byte.of_N (v mod 256) with Some b => b | None => x00 end.

Lemma byte_val_lt b : byte_val b < 256.
Proof. pose proof (Byte.to_N_bounded b). unfold byte_val. lia. Qed.

Lemma byte_val_of v : byte_val (byte_of v) = v mod 256.
Proof.
  unfold byte_val, byte_of. destruct (Byte.of_N (v mod 256)) as [b|] eqn:E.
  - by apply Byte.to_of_N.
  - apply Byte.of_N_None_iff in E. pose proof (N.mod_upper_bound v 256). lia.
Qed.

Lemma byte_of_val b : byte_of (byte_val b) = b.
Proof.
  unfold byte_of, byte_val. rewrite N.mod_small by apply byte_val_lt.
  by rewrite Byte.of_to_N.
Qed.

Lemma byte_val_inj a b : byte_val a = byte_val b -> a = b.
Proof. intros E. by rewrite <- (byte_of_val a), E, byte_of_val. Qed.

(** ** [binary.LittleEndian]

    [put_le n v] appends the [n] low bytes of [v], lowest first, each one
    [byte(v >> 8i)]; [get_le] is the or of the bytes shifted back. *)
Fixpoint put_le (n : nat) (v : N) : list byte :=
  match n with
  | O => []
  | S n => byte_of v :: put_le n (N.shiftr v 8)
  end.

Fixpoint get_le (bs : list byte) : N :=
  match bs with
  | [] => 0
  | b :: bs => N.lor (byte_val b) (N.shiftl (get_le bs) 8)
  end.

(** The bound of an [n]-byte integer. *)
Definition width (n : nat) : N := 2 ^ (8 * N.of_nat n).

Lemma length_put_le n v : length (put_le n v) = n.
Proof. revert v. induction n; intros; simpl; auto. Qed.

Lemma width_S n : width (S n) = 256 * width n.
Proof.
  unfold width. replace (8 * N.of_nat (S n)) with (8 + 8 * N.of_nat n) by lia.
  by rewrite N.pow_add_r.
Qed.

Lemma width_pos n : 0 < width n.
Proof. unfold width. pose proof (N.pow_nonzero 2 (8 * N.of_nat n)). lia. Qed.

(** Oring a byte under a shifted value is adding it: the bits are disjoint. *)
Lemma lor_shift_byte b v : N.lor (byte_val b) (N.shiftl v 8) = byte_val b + 256 * v.
Proof.
  rewrite N.shiftl_mul_pow2. change (2 ^ 8) with 256.
  rewrite N.lor_comm, (N.mul_comm v). rewrite N.add_comm.
  replace (256 * v) with (N.shiftl v 8) by (rewrite N.shiftl_mul_pow2; change (2^8) with 256; lia).
  rewrite <- N.lxor_lor.
  - rewrite <- N.add_nocarry_lxor; [done|]. apply N.bits_inj_0. intros k.
    rewrite N.land_spec. destruct (N.lt_ge_cases k 8).
    + by rewrite N.shiftl_spec_low.
    + rewrite <- (N.mod_small (byte_val b) (2 ^ 8)) by apply byte_val_lt.
      rewrite N.mod_pow2_bits_high by done. by rewrite andb_false_r.
  - apply N.bits_inj_0. intros k.
    rewrite N.land_spec. destruct (N.lt_ge_cases k 8).
    + by rewrite N.shiftl_spec_low.
    + rewrite <- (N.mod_small (byte_val b) (2 ^ 8)) by apply byte_val_lt.
      rewrite N.mod_pow2_bits_high by done. by rewrite andb_false_r.
Qed.

Lemma get_le_cons b bs : get_le (b :: bs) = byte_val b + 256 * get_le bs.
Proof. apply lor_shift_byte. Qed.

Lemma get_le_bound bs : get_le bs < width (length bs).
Proof.
  induction bs as [|b bs IH]; [done|].
  rewrite get_le_cons. cbn [length]. rewrite width_S. pose proof (byte_val_lt b). lia.
Qed.

Lemma get_put_le n v : v < width n -> get_le (put_le n v) = v.
Proof.
  revert v. induction n as [|n IH]; intros v Hv.
  - unfold width in Hv. cbn in *. lia.
  - cbn [put_le]. rewrite get_le_cons, byte_val_of, N.shiftr_div_pow2.
    change (2 ^ 8) with 256. rewrite IH.
    + pose proof (N.div_mod v 256). lia.
    + rewrite width_S in Hv. apply N.Div0.div_lt_upper_bound. lia.
Qed.

Lemma put_get_le bs : put_le (length bs) (get_le bs) = bs.
Proof.
  induction bs as [|b bs IH]; [done|].
  cbn [length put_le]. rewrite get_le_cons, N.shiftr_div_pow2. change (2 ^ 8) with 256.
  pose proof (byte_val_lt b). f_equal.
  - apply byte_val_inj. rewrite byte_val_of.
    rewrite (N.mul_comm 256), N.Div0.mod_add. by apply N.mod_small.
  - rewrite (N.mul_comm 256), N.div_add by done.
    rewrite N.div_small by done. simpl. exact IH.
Qed.

Lemma put_get_le' n bs : length bs = n -> put_le n (get_le bs) = bs.
Proof. intros <-. apply put_get_le. Qed.

#[export] Hint Rewrite length_put_le : golen.
Arguments put_le : simpl never.
Arguments get_le : simpl never.

(** ** Strings and their bytes *)
Definition bytes_of (s : string) : list byte := String.list_byte_of_string s.
Definition string_of (bs : list byte) : string := String.string_of_list_byte bs.

Lemma string_of_bytes_of s : string_of (bytes_of s) = s.
Proof. apply String.string_of_list_byte_of_string. Qed.

Lemma bytes_of_string_of bs : bytes_of (string_of bs) = bs.
Proof. apply String.list_byte_of_string_of_list_byte. Qed.

Lemma bytes_of_inj s t : bytes_of s = bytes_of t -> s = t.
Proof. intros E. by rewrite <- (string_of_bytes_of s), E, string_of_bytes_of. Qed.

(** Go's [len] of a string counts bytes. *)
Definition slen (s : string) : N := len (bytes_of s).

#[export] Hint Rewrite bytes_of_string_of string_of_bytes_of : golen.

(** ** [utf8.Valid]

    The accept ranges of the standard library's decoder: the second byte's
    range depends on the first, every later one is a continuation byte. *)
Definition in_range (lo hi : N) (b : byte) : bool :=
  (lo <=? byte_val b) && (byte_val b <=? hi).
Definition continuation : byte -> bool := in_range 0x80 0xBF.

(** What a first byte asks of the bytes after it: their number and the range
    of the first of them; [None] for a byte no sequence starts with. *)
Definition utf8_first (b : byte) : option (nat * N * N) :=
  let c := byte_val b in
  if c <? 0x80 then Some (0%nat, 0x80, 0xBF)
  else if c <? 0xC2 then None
  else if c <? 0xE0 then Some (1%nat, 0x80, 0xBF)
  else if c =? 0xE0 then Some (2%nat, 0xA0, 0xBF)
  else if c =? 0xED then Some (2%nat, 0x80, 0x9F)
  else if c <? 0xF0 then Some (2%nat, 0x80, 0xBF)
  else if c =? 0xF0 then Some (3%nat, 0x90, 0xBF)
  else if c <? 0xF4 then Some (3%nat, 0x80, 0xBF)
  else if c =? 0xF4 then Some (3%nat, 0x80, 0x8F)
  else None.

Fixpoint utf8_valid (bs : list byte) : bool :=
  match bs with
  | [] => true
  | b :: r =>
      match utf8_first b, r with
      | None, _ => false
      | Some (O, _, _), r => utf8_valid r
      | Some (1%nat, lo, hi), b1 :: r => in_range lo hi b1 && utf8_valid r
      | Some (2%nat, lo, hi), b1 :: b2 :: r =>
          in_range lo hi b1 && continuation b2 && utf8_valid r
      | Some (3%nat, lo, hi), b1 :: b2 :: b3 :: r =>
          in_range lo hi b1 && continuation b2 && continuation b3 && utf8_valid r
      | Some _, _ => false
      end
  end.

Definition ValidString (s : string) : bool := utf8_valid (bytes_of s).

Definition is_ascii (b : byte) : bool := byte_val b <? 0x80.

Lemma utf8_valid_ascii bs : forallb is_ascii bs = true -> utf8_valid bs = true.
Proof.
  induction bs as [|b bs IH]; [done|]. simpl. intros [Hb Hbs]%andb_prop.
  unfold is_ascii in Hb. unfold utf8_first. rewrite Hb. auto.
Qed.
