(* ===== verification/Io.v ===== *)
(** The parts of package [io] the program uses: readers and writers.

    A reader is the bytes that will arrive and the error that ends them; a
    writer is a state with a [Write] on it that may fail. *)

From S2P Require Import Prelude Bytes.

Inductive io_error : Type :=
  | EOF
  | ErrUnexpectedEOF
  | OtherIO (what : string).

#[export] Instance io_error_eq_dec : EqDecision io_error.
Proof. solve_decision. Defined.

(** ** Streams *)
Record stream : Type := mkStream {
  s_data : list byte;
  s_end : io_error;
}.

(** [io.ReadFull]: exactly [n] bytes, or the stream's end; an end inside the
    [n] bytes is unexpected. *)
Definition ReadFull (n : nat) (s : stream) : result io_error (list byte) * stream :=
  if (n <=? length (s_data s))%nat then
    (Ok (take n (s_data s)), mkStream (drop n (s_data s)) (s_end s))
  else
    (Err (match s_data s, s_end s with
          | _ :: _, EOF => ErrUnexpectedEOF
          | _, e => e
          end), mkStream [] (s_end s)).

(** [ReadByte] of a buffered reader: the next byte, or the stream's end. *)
Definition ReadByte (s : stream) : result io_error byte * stream :=
  match s_data s with
  | b :: r => (Ok b, mkStream r (s_end s))
  | [] => (Err (s_end s), s)
  end.

Lemma ReadFull_app n bs rest fin :
  length bs = n -> ReadFull n (mkStream (bs ++ rest) fin) = (Ok bs, mkStream rest fin).
Proof.
  intros <-. unfold ReadFull. simpl. rewrite length_app.
  destruct (Nat.leb_spec (length bs) (length bs + length rest)); [|lia].
  by rewrite take_app_length, drop_app_length.
Qed.

Lemma ReadFull_Ok n s bs s' :
  ReadFull n s = (Ok bs, s') ->
  length bs = n /\ s = mkStream (bs ++ s_data s') (s_end s) /\ s_end s' = s_end s.
Proof.
  unfold ReadFull. destruct s as [d e]. simpl.
  destruct (Nat.leb_spec n (length d)); [|discriminate]. intros [= <- <-]. simpl.
  rewrite take_drop. split_and!; [|done..]. rewrite length_take. lia.
Qed.

(** ** Writers *)
Class Writer (W : Type) : Type :=
  write : W -> list byte -> W * option io_error.

(** A writer that never fails: what was written, in order. *)
#[export] Instance buffer_writer : Writer (list byte) :=
  fun w bs => (w ++ bs, None).

(** What a writer has carried so far; a successful [Write] carries its bytes
    too.  A component that writes through another is proved against this. *)
Class Carrier {W} `{Writer W} (carries : W -> list byte -> Prop) : Prop :=
  carry w p bs w' : carries w p -> write w bs = (w', None) -> carries w' (p ++ bs).

#[export] Instance buffer_carrier : Carrier (W := list byte) eq.
Proof. intros w p bs w' -> [= <-]. done. Qed.
