(* ===== verification/Sha256.v ===== *)
(** The standard library's crypto/sha256, crypto/hmac and crypto/hkdf as
    internal/noise/state.go uses them: SHA-256 as FIPS 180-4 defines it, HMAC
    as RFC 2104 and HKDF as RFC 5869.

    A 32-bit word is an [N] and addition wraps. *)

From S2P Require Import Prelude Bytes.
Local Open Scope N_scope.

(** ** Words *)
Definition word (v : N) : N := v mod 2 ^ 32.
Definition add32 (a b : N) : N := word (a + b).
Definition rotr (n x : N) : N := N.lor (N.shiftr x n) (word (N.shiftl x (32 - n))).
Definition not32 (x : N) : N := N.lxor x (2 ^ 32 - 1).

(** Big-endian integers. *)
Definition put_be (n : nat) (v : N) : list byte := rev (put_le n v).
Definition get_be (bs : list byte) : N := get_le (rev bs).

Definition ch (x y z : N) : N := N.lxor (N.land x y) (N.land (not32 x) z).
Definition maj (x y z : N) : N := N.lxor (N.lxor (N.land x y) (N.land x z)) (N.land y z).
Definition bsig0 (x : N) : N := N.lxor (N.lxor (rotr 2 x) (rotr 13 x)) (rotr 22 x).
Definition bsig1 (x : N) : N := N.lxor (N.lxor (rotr 6 x) (rotr 11 x)) (rotr 25 x).
Definition ssig0 (x : N) : N := N.lxor (N.lxor (rotr 7 x) (rotr 18 x)) (N.shiftr x 3).
Definition ssig1 (x : N) : N := N.lxor (N.lxor (rotr 17 x) (rotr 19 x)) (N.shiftr x 10).

Definition K256 : list N := [
  1116352408; 1899447441; 3049323471; 3921009573; 961987163; 1508970993;
  2453635748; 2870763221; 3624381080; 310598401; 607225278; 1426881987;
  1925078388; 2162078206; 2614888103; 3248222580; 3835390401; 4022224774;
  264347078; 604807628; 770255983; 1249150122; 1555081692; 1996064986;
  2554220882; 2821834349; 2952996808; 3210313671; 3336571891; 3584528711;
  113926993; 338241895; 666307205; 773529912; 1294757372; 1396182291;
  1695183700; 1986661051; 2177026350; 2456956037; 2730485921; 2820302411;
  3259730800; 3345764771; 3516065817; 3600352804; 4094571909; 275423344;
  430227734; 506948616; 659060556; 883997877; 958139571; 1322822218;
  1537002063; 1747873779; 1955562222; 2024104815; 2227730452; 2361852424;
  2428436474; 2756734187; 3204031479; 3329325298].

(** ** The compression function *)
Record digest : Type := mkDigest { h0 : N; h1 : N; h2 : N; h3 : N; h4 : N; h5 : N; h6 : N; h7 : N }.

Definition initial : digest :=
  mkDigest 0x6a09e667 0xbb67ae85 0x3c6ef372 0xa54ff53a 0x510e527f 0x9b05688c 0x1f83d9ab 0x5be0cd19.

(** The message schedule, newest word first. *)
Fixpoint schedule (n : nat) (ws : list N) : list N :=
  match n with
  | O => ws
  | S n =>
      let w i := nth i ws 0 in
      schedule n (add32 (add32 (ssig1 (w 1%nat)) (w 6%nat)) (add32 (ssig0 (w 14%nat)) (w 15%nat)) :: ws)
  end.

Definition round (d : digest) (kw : N * N) : digest :=
  let t1 := add32 (add32 (add32 (h7 d) (bsig1 (h4 d))) (ch (h4 d) (h5 d) (h6 d)))
                  (add32 (fst kw) (snd kw)) in
  let t2 := add32 (bsig0 (h0 d)) (maj (h0 d) (h1 d) (h2 d)) in
  mkDigest (add32 t1 t2) (h0 d) (h1 d) (h2 d) (add32 (h3 d) t1) (h4 d) (h5 d) (h6 d).

Definition compress (d : digest) (block : list byte) : digest :=
  let ws := rev (schedule 48 (rev (map get_be (pieces 4 block)))) in
  let r := fold_left round (combine K256 ws) d in
  mkDigest (add32 (h0 d) (h0 r)) (add32 (h1 d) (h1 r)) (add32 (h2 d) (h2 r)) (add32 (h3 d) (h3 r))
           (add32 (h4 d) (h4 r)) (add32 (h5 d) (h5 r)) (add32 (h6 d) (h6 r)) (add32 (h7 d) (h7 r)).

(** The padding: a one bit, zeros, and the length in bits as 64 bits. *)
Definition pad (m : list byte) : list byte :=
  m ++ [byte_of 0x80] ++ repeat x00 (N.to_nat ((119 - len m mod 64) mod 64)) ++ put_be 8 (8 * len m).

(** ** [sha256.Sum256] *)
Definition Size : nat := 32.
Definition BlockSize : nat := 64.

Definition digest_bytes (d : digest) : list byte :=
  concat (map (put_be 4) [h0 d; h1 d; h2 d; h3 d; h4 d; h5 d; h6 d; h7 d]).

Definition Sum256 (m : list byte) : list byte :=
  digest_bytes (fold_left compress (pieces 64 (pad m)) initial).

(** ** HMAC and HKDF *)
Definition xor_byte (v : N) (b : byte) : byte := byte_of (N.lxor (byte_val b) v).

Definition Hmac (key m : list byte) : list byte :=
  let k := if (BlockSize <? length key)%nat then Sum256 key else key in
  let k := k ++ repeat x00 (BlockSize - length k) in
  Sum256 (map (xor_byte 0x5c) k ++ Sum256 (map (xor_byte 0x36) k ++ m)).

(** [hkdf.Extract(sha256.New, secret, salt)]. *)
Definition Extract (secret salt : list byte) : list byte := Hmac salt secret.

(** The output blocks of [hkdf.Expand]: each is the HMAC of the one before,
    the info and a counter byte. *)
Fixpoint expand_blocks (n : nat) (i : N) (prk prev info : list byte) : list byte :=
  match n with
  | O => []
  | S n =>
      let t := Hmac prk (prev ++ info ++ [byte_of i]) in
      t ++ expand_blocks n (i + 1) prk t info
  end.

(** [hkdf.Expand(sha256.New, prk, info, n)]; [None] is its one error, an
    output of more than 255 blocks. *)
Definition Expand (prk info : list byte) (n : nat) : option (list byte) :=
  if (255 * Size <? n)%nat then None
  else Some (take n (expand_blocks ((n + Size - 1) / Size) 1 prk [] info)).

(** ** Lengths *)
Lemma length_put_be n v : length (put_be n v) = n.
Proof. unfold put_be. by rewrite length_rev, length_put_le. Qed.

Lemma length_Sum256 m : length (Sum256 m) = 32%nat.
Proof. unfold Sum256, digest_bytes. cbn [map concat]. by rewrite !length_app, !length_put_be. Qed.

Lemma length_Hmac key m : length (Hmac key m) = 32%nat.
Proof. apply length_Sum256. Qed.

Lemma length_expand_blocks n i prk prev info :
  length (expand_blocks n i prk prev info) = (32 * n)%nat.
Proof.
  revert i prev. induction n as [|n IH]; intros i prev; cbn [expand_blocks]; [done|].
  rewrite length_app, length_Hmac, IH. lia.
Qed.

Lemma Expand_ok prk info n :
  (n <= 255 * 32)%nat -> exists out, Expand prk info n = Some out /\ length out = n.
Proof.
  intros Hn. unfold Expand. destruct (Nat.ltb_spec (255 * Size) n); [unfold Size in *; lia|].
  eexists. split; [done|]. rewrite length_take, length_expand_blocks. unfold Size.
  pose proof (Nat.div_mod (n + 32 - 1) 32). lia.
Qed.

(** The test vectors of FIPS 180-4 for "abc" and of RFC 4231 (case 2). *)
Example Sum256_abc :
  map byte_val (Sum256 (bytes_of "abc")) =
  [0xba; 0x78; 0x16; 0xbf; 0x8f; 0x01; 0xcf; 0xea; 0x41; 0x41; 0x40; 0xde; 0x5d; 0xae; 0x22; 0x23;
   0xb0; 0x03; 0x61; 0xa3; 0x96; 0x17; 0x7a; 0x9c; 0xb4; 0x10; 0xff; 0x61; 0xf2; 0x00; 0x15; 0xad].
Proof. vm_compute. reflexivity. Qed.

Example Hmac_jefe :
  map byte_val (take 4 (Hmac (bytes_of "Jefe") (bytes_of "what do ya want for nothing?"))) =
  [0x5b; 0xdc; 0xc1; 0x46].
Proof. vm_compute. reflexivity. Qed.

(** Nothing else looks inside the hash. *)
#[global] Opaque Sum256 Hmac Expand.
