(* ===== verification/CipherState.v ===== *)
(** One direction of a Noise transport: [CipherState] of
    internal/noise/state.go, and the errors of the noise package.

    ChaCha20-Poly1305 comes from golang.org/x/crypto, which is not part of the
    repository: the class [AEAD] is what the source calls, [AEADLaws] what its
    documentation promises. *)

From S2P Require Import Prelude Bytes Io.
Local Open Scope N_scope.
Local Open Scope st_scope.

(** ** Sizes *)
Definition KeySize : N := 32.
Definition PublicKeySize : N := 32.
Definition TagSize : N := 16.
Definition HandshakeMessageSize : N := PublicKeySize + TagSize.
Definition MaxMessageSize : N := 65535.
Definition MaxPlaintextSize : N := MaxMessageSize - TagSize.
(** [^uint64(0)], the counter value that is never used. *)
Definition nonceReserved : N := 2 ^ 64 - 1.

(** ** Errors

    A constructor per [errors.New] or [fmt.Errorf] of the package.
    [NilDereference] stands for the panic of a use of a missing ephemeral key. *)
Inductive noise_error : Type :=
  | PSKSize (n : N)
  | HandshakeFailed
  | AlreadyComplete
  | NotTurnToWrite
  | NotTurnToRead
  | MessageTooShort (n : N)
  | NotComplete
  | BadEphemeral
  | X25519Failed
  | RandomFailed (e : io_error)
  | BadPrivateKey
  | NotKeyed
  | HKDFFailed
  | BadCipherKey
  | CounterExhausted
  | PlaintextTooLong (n : N)
  | CiphertextSize (n : N)
  | NotAuthentic (counter : N)
  | NilDereference.

#[export] Instance noise_error_eq_dec : EqDecision noise_error.
Proof. solve_decision. Defined.

(** ** [cipher.AEAD]

    Arguments in the order key, nonce, text, additional data. *)
Class AEAD : Type := {
  aead_seal : list byte -> list byte -> list byte -> list byte -> list byte;
  aead_open : list byte -> list byte -> list byte -> list byte -> option (list byte);
}.

(** The largest plaintext [Seal] takes before it panics. *)
Definition aead_limit : N := 2 ^ 38 - 64.

Class AEADLaws {A : AEAD} : Prop := {
  open_seal k n p ad : len k = KeySize -> len n = 12 -> len p <= aead_limit ->
    aead_open k n (aead_seal k n p ad) ad = Some p;
  seal_open k n c p ad : len k = KeySize -> len n = 12 ->
    aead_open k n c ad = Some p -> aead_seal k n p ad = c;
  length_seal k n p ad : len (aead_seal k n p ad) = len p + TagSize;
}.

(** ** The cipher state *)
Record CipherState : Type := mkCipherState {
  cs_key : list byte;
  cs_nonce : N;          (* uint64 *)
}.

Definition newCipherState (key : list byte) : result noise_error CipherState :=
  if len key =? KeySize then Ok (mkCipherState key 0) else Err BadCipherKey.

Definition Nonce (c : CipherState) : N := cs_nonce c.

Definition nonceBytes (c : CipherState) : list byte := repeat x00 4 ++ put_le 8 (cs_nonce c).

(** [c.nonce++], at its width. *)
Definition bump (c : CipherState) : CipherState :=
  mkCipherState (cs_key c) ((cs_nonce c + 1) mod width 8).

Section Cipher.
Context `{A : AEAD}.

Definition seal (out ad plaintext : list byte) : ST CipherState noise_error (list byte) := fun c =>
  if cs_nonce c =? nonceReserved then (Err CounterExhausted, c)
  else if MaxPlaintextSize <? len plaintext then (Err (PlaintextTooLong (len plaintext)), c)
  else (Ok (out ++ aead_seal (cs_key c) (nonceBytes c) plaintext ad), bump c).

Definition open (out ad ciphertext : list byte) : ST CipherState noise_error (list byte) := fun c =>
  if cs_nonce c =? nonceReserved then (Err CounterExhausted, c)
  else if (len ciphertext <? TagSize) || (MaxMessageSize <? len ciphertext)
  then (Err (CiphertextSize (len ciphertext)), c)
  else match aead_open (cs_key c) (nonceBytes c) ciphertext ad with
       | None => (Err (NotAuthentic (cs_nonce c)), c)
       | Some plaintext => (Ok (out ++ plaintext), bump c)
       end.

Definition Encrypt (out plaintext : list byte) : ST CipherState noise_error (list byte) :=
  seal out [] plaintext.
Definition Decrypt (out ciphertext : list byte) : ST CipherState noise_error (list byte) :=
  open out [] ciphertext.

(** ** What one message does *)
Definition valid_cipher (c : CipherState) : Prop :=
  len (cs_key c) = KeySize /\ cs_nonce c <= nonceReserved.

Lemma len_nonceBytes c : len (nonceBytes c) = 12.
Proof. unfold nonceBytes, len. by rewrite length_app, length_put_le. Qed.

(** Different counters give different nonces. *)
Lemma nonceBytes_inj c d :
  cs_nonce c < width 8 -> cs_nonce d < width 8 -> nonceBytes c = nonceBytes d ->
  cs_nonce c = cs_nonce d.
Proof.
  unfold nonceBytes. intros Hc Hd E%app_inv_head. apply (f_equal get_le) in E.
  by rewrite !get_put_le in E.
Qed.

Lemma bump_nonce c : cs_nonce c < nonceReserved -> bump c = mkCipherState (cs_key c) (cs_nonce c + 1).
Proof. intros H. unfold bump. rewrite N.mod_small; [done|]. unfold nonceReserved, width in *. lia. Qed.

Lemma valid_bump c : valid_cipher c -> cs_nonce c < nonceReserved -> valid_cipher (bump c).
Proof. intros [? ?] ?. rewrite bump_nonce by done. split; simpl; [done | lia]. Qed.

(** Whatever it does, an operation keeps the key, and the counter only grows. *)
Lemma seal_Ok out ad p c r c' :
  seal out ad p c = (Ok r, c') ->
  cs_nonce c <> nonceReserved /\ len p <= MaxPlaintextSize /\ c' = bump c /\
  r = out ++ aead_seal (cs_key c) (nonceBytes c) p ad.
Proof.
  unfold seal. destruct (N.eqb_spec (cs_nonce c) nonceReserved); [discriminate|].
  destruct (N.ltb_spec MaxPlaintextSize (len p)); [discriminate|]. intros [= <- <-]. done.
Qed.

Lemma seal_Err out ad p c e c' : seal out ad p c = (Err e, c') -> c' = c.
Proof. unfold seal. repeat case_match; congruence. Qed.

Lemma open_Err out ad m c e c' : open out ad m c = (Err e, c') -> c' = c.
Proof. unfold open. repeat case_match; congruence. Qed.

Lemma seal_succeeds out ad p c :
  cs_nonce c < nonceReserved -> len p <= MaxPlaintextSize ->
  seal out ad p c = (Ok (out ++ aead_seal (cs_key c) (nonceBytes c) p ad), bump c).
Proof.
  intros Hn Hp. unfold seal. destruct (N.eqb_spec (cs_nonce c) nonceReserved); [lia|].
  destruct (N.ltb_spec MaxPlaintextSize (len p)); [lia|done].
Qed.

Lemma open_sealed `{!AEADLaws} out ad p c :
  valid_cipher c -> cs_nonce c < nonceReserved -> len p <= MaxPlaintextSize ->
  open out ad (aead_seal (cs_key c) (nonceBytes c) p ad) c = (Ok (out ++ p), bump c).
Proof.
  intros [Hk _] Hn Hp. unfold open. destruct (N.eqb_spec (cs_nonce c) nonceReserved); [lia|].
  rewrite length_seal. unfold MaxPlaintextSize in Hp. unfold TagSize, MaxMessageSize in *.
  destruct (N.ltb_spec (len p + 16) 16); [lia|]. destruct (N.ltb_spec 65535 (len p + 16)); [lia|].
  simpl. rewrite open_seal; [done | done | apply len_nonceBytes | unfold aead_limit; lia].
Qed.

(** Whatever [open] accepts is what [seal] makes of its answer. *)
Lemma open_Ok `{!AEADLaws} ad m c p c' :
  valid_cipher c -> open [] ad m c = (Ok p, c') ->
  cs_nonce c < nonceReserved /\ seal [] ad p c = (Ok m, c').
Proof.
  intros [Hk Hn] Hopen. unfold open in Hopen.
  destruct (N.eqb_spec (cs_nonce c) nonceReserved) as [|Hne]; [discriminate|].
  destruct (_ || _) eqn:Hs; [discriminate|].
  destruct (aead_open _ _ _ _) as [q|] eqn:Ho; [|discriminate]. injection Hopen as <- <-.
  split; [lia|]. apply seal_open in Ho as Hse; [|done|apply len_nonceBytes].
  pose proof (length_seal (cs_key c) (nonceBytes c) q ad) as Hl. rewrite Hse in Hl.
  unfold MaxMessageSize, TagSize in *. simpl. rewrite seal_succeeds; [by rewrite Hse | lia|].
  unfold MaxPlaintextSize, MaxMessageSize, TagSize. lia.
Qed.

End Cipher.

(** ** A concrete AEAD for the witnesses

    It only shows that the laws can hold: the "tag" is the first bytes of the
    key and nonce, and the text is sent as it is. *)
Definition toy_tag (k n ad : list byte) : list byte := take 16 (take 4 k ++ n ++ repeat x00 16).
Definition toy_aead : AEAD := {|
  aead_seal k n p ad := p ++ toy_tag k n ad;
  aead_open k n c ad :=
    let body := (length c - 16)%nat in
    if decide (drop body c = toy_tag k n ad) then Some (take body c) else None;
|}.

Lemma toy_aead_laws : AEADLaws (A := toy_aead).
Proof.
  assert (forall k n ad, length (toy_tag k n ad) = 16%nat) as Ht.
  { intros. unfold toy_tag. rewrite length_take, !length_app, repeat_length. lia. }
  split; simpl.
  - intros k n p ad _ _ _. rewrite length_app, Ht.
    replace (length p + 16 - 16)%nat with (length p) by lia.
    by rewrite drop_app_length, take_app_length, decide_True.
  - intros k n c p ad _ _. case_decide as E; [|done]. intros [= <-]. rewrite <- E. apply take_drop.
  - intros. rewrite len_app. unfold len at 2. rewrite Ht. unfold TagSize. lia.
Qed.
