(* ===== verification/Noise.v ===== *)
(** The Noise handshake: the symmetric state of internal/noise/state.go and
    the handshake of internal/noise/noise.go.

    A method that changes its receiver and may fail is an [ST] computation, so
    what it changed before an error stays changed, as it does in the source.
    X25519 is the class [Curve]. *)

From S2P Require Import Prelude Bytes Io Sha256 CipherState.
Local Open Scope N_scope.
Local Open Scope st_scope.

(** [crypto/ecdh]'s X25519 on the bytes of its keys: the public key of a
    private one, and the shared secret, which is refused when it is zero. *)
Class Curve : Type := {
  curve_public : list byte -> list byte;
  curve_ecdh : list byte -> list byte -> option (list byte);
}.

Class CurveLaws {C : Curve} : Prop := {
  length_public k : len (curve_public k) = PublicKeySize;
  ecdh_comm a b : curve_ecdh a (curve_public b) = curve_ecdh b (curve_public a);
}.

(** ** The symmetric state *)
Record symmetric : Type := mkSymmetric {
  sym_h : list byte;
  sym_ck : list byte;
  sym_cipher : option CipherState;
}.

Definition protocolName : string := "Noise_NNpsk0_25519_ChaChaPoly_SHA256".

Definition mixHash (data : list byte) (s : symmetric) : symmetric :=
  mkSymmetric (Sum256 (sym_h s ++ data)) (sym_ck s) (sym_cipher s).

Definition newSymmetric (prologue : list byte) : symmetric :=
  let h := Sum256 (bytes_of protocolName) in
  mixHash prologue (mkSymmetric h h None).

(** The slice [stream[i*KeySize : (i+1)*KeySize]]. *)
Definition key_slice (stream : list byte) (i : nat) : list byte :=
  take 32 (drop (i * 32) stream).

Definition hkdfExpand (ck ikm : list byte) (outputs : nat) : result noise_error (list (list byte)) :=
  let temp := Extract ikm ck in
  match Expand temp [] (outputs * N.to_nat KeySize) with
  | None => Err HKDFFailed
  | Some stream => Ok (map (key_slice stream) (seq 0 outputs))
  end.

Local Open Scope go_scope.

Definition mixKey (ikm : list byte) : ST symmetric noise_error unit := fun s =>
  match (let! out := hkdfExpand (sym_ck s) ikm 2 in
         let! cipher := newCipherState (nth 1 out []) in
         Ok (nth 0 out [], cipher)) with
  | Err e => (Err e, s)
  | Ok (ck, cipher) => (Ok tt, mkSymmetric (sym_h s) ck (Some cipher))
  end.

Definition mixKeyAndHash (ikm : list byte) : ST symmetric noise_error unit := fun s =>
  match (let! out := hkdfExpand (sym_ck s) ikm 3 in
         let! cipher := newCipherState (nth 2 out []) in
         Ok (nth 0 out [], nth 1 out [], cipher)) with
  | Err e => (Err e, s)
  | Ok (ck, h, cipher) =>
      let s := mixHash h (mkSymmetric (sym_h s) ck (sym_cipher s)) in
      (Ok tt, mkSymmetric (sym_h s) (sym_ck s) (Some cipher))
  end.

Definition sym_split (s : symmetric) : result noise_error (CipherState * CipherState) :=
  let! out := hkdfExpand (sym_ck s) [] 2 in
  let! initiatorToResponder := newCipherState (nth 0 out []) in
  let! responderToInitiator := newCipherState (nth 1 out []) in
  Ok (initiatorToResponder, responderToInitiator).

Section Payloads.
Context `{A : AEAD}.

Definition encryptAndHash (plaintext : list byte) : ST symmetric noise_error (list byte) := fun s =>
  match sym_cipher s with
  | None => (Err NotKeyed, s)
  | Some c =>
      match seal [] (sym_h s) plaintext c with
      | (Err e, c) => (Err e, mkSymmetric (sym_h s) (sym_ck s) (Some c))
      | (Ok ciphertext, c) =>
          (Ok ciphertext, mixHash ciphertext (mkSymmetric (sym_h s) (sym_ck s) (Some c)))
      end
  end.

Definition decryptAndHash (ciphertext : list byte) : ST symmetric noise_error (list byte) := fun s =>
  match sym_cipher s with
  | None => (Err NotKeyed, s)
  | Some c =>
      match open [] (sym_h s) ciphertext c with
      | (Err e, c) => (Err e, mkSymmetric (sym_h s) (sym_ck s) (Some c))
      | (Ok plaintext, c) =>
          (Ok plaintext, mixHash ciphertext (mkSymmetric (sym_h s) (sym_ck s) (Some c)))
      end
  end.
End Payloads.

(** ** The handshake *)
Definition stepInitiatorMessage : N := 0.
Definition stepResponderMessage : N := 1.
Definition stepComplete : N := 2.

Record Config : Type := mkConfig {
  cfg_Initiator : bool;
  cfg_PSK : list byte;
  cfg_Prologue : list byte;
  cfg_Random : option stream;    (* None is nil *)
}.

Record Handshake : Type := mkHandshake {
  hs_sym : symmetric;
  hs_initiator : bool;
  hs_psk : list byte;
  hs_random : stream;
  hs_e : option (list byte);     (* the private key *)
  hs_re : option (list byte);    (* the peer's public key *)
  hs_step : N;
  hs_failed : bool;
}.

(** [rand_Reader] is what [crypto/rand] will give. *)
Definition NewHandshake (rand_Reader : stream) (cfg : Config) : result noise_error Handshake :=
  if negb (len (cfg_PSK cfg) =? KeySize) then Err (PSKSize (len (cfg_PSK cfg)))
  else
    let random := match cfg_Random cfg with None => rand_Reader | Some r => r end in
    Ok (mkHandshake (newSymmetric (cfg_Prologue cfg)) (cfg_Initiator cfg) (cfg_PSK cfg) random
          None None stepInitiatorMessage false).

Definition set_sym (s : symmetric) (h : Handshake) : Handshake :=
  mkHandshake s (hs_initiator h) (hs_psk h) (hs_random h) (hs_e h) (hs_re h) (hs_step h) (hs_failed h).
Definition set_random (r : stream) (h : Handshake) : Handshake :=
  mkHandshake (hs_sym h) (hs_initiator h) (hs_psk h) r (hs_e h) (hs_re h) (hs_step h) (hs_failed h).
Definition set_e (e : list byte) (h : Handshake) : Handshake :=
  mkHandshake (hs_sym h) (hs_initiator h) (hs_psk h) (hs_random h) (Some e) (hs_re h) (hs_step h) (hs_failed h).
Definition set_re (re : list byte) (h : Handshake) : Handshake :=
  mkHandshake (hs_sym h) (hs_initiator h) (hs_psk h) (hs_random h) (hs_e h) (Some re) (hs_step h) (hs_failed h).
Definition next_step (h : Handshake) : Handshake :=
  mkHandshake (hs_sym h) (hs_initiator h) (hs_psk h) (hs_random h) (hs_e h) (hs_re h) (hs_step h + 1) (hs_failed h).
Definition set_failed (h : Handshake) : Handshake :=
  mkHandshake (hs_sym h) (hs_initiator h) (hs_psk h) (hs_random h) (hs_e h) (hs_re h) (hs_step h) true.

(** The methods below run in [Handshake]; [on_sym] is a call of [h.sym]. *)
Definition HS (R : Type) : Type := ST Handshake noise_error R.
Definition on_sym {R} (m : ST symmetric noise_error R) : HS R := st_zoom hs_sym set_sym m.
Definition when (b : bool) (m : HS unit) : HS unit := if b then m else st_ret tt.

Section Handshake.
Context `{A : AEAD} `{C : Curve}.

(** [generateKeypair(h.random)]: 32 bytes make a private key. *)
Definition generateKeypair : HS (list byte) := fun h =>
  match ReadFull (N.to_nat KeySize) (hs_random h) with
  | (Err e, r) => (Err (RandomFailed e), set_random r h)
  | (Ok key, r) =>
      (if len key =? KeySize then Ok key else Err BadPrivateKey, set_random r h)
  end.

(** [ecdh.X25519().NewPublicKey] refuses any other length than 32. *)
Definition NewPublicKey (key : list byte) : result noise_error (list byte) :=
  if len key =? PublicKeySize then Ok key else Err BadEphemeral.

Definition mixDH : HS unit := fun h =>
  match hs_e h, hs_re h with
  | Some e, Some re =>
      match curve_ecdh e re with
      | None => (Err X25519Failed, h)
      | Some shared => on_sym (mixKey shared) h
      end
  | _, _ => (Err NilDereference, h)
  end.

Definition writeMessage (payload : list byte) : HS (list byte) :=
  bind! step := st_get hs_step in
  bind! psk := st_get hs_psk in
  then! when (step =? stepInitiatorMessage) (on_sym (mixKeyAndHash psk)) in
  bind! e := generateKeypair in
  then! st_mod (set_e e) in
  let public := curve_public e in
  then! on_sym (st_mod (mixHash public)) in
  then! on_sym (mixKey public) in
  then! when (step =? stepResponderMessage) mixDH in
  bind! ciphertext := on_sym (encryptAndHash payload) in
  st_ret (public ++ ciphertext).

Definition readMessage (message : list byte) : HS (list byte) :=
  bind! step := st_get hs_step in
  bind! psk := st_get hs_psk in
  then! when (step =? stepInitiatorMessage) (on_sym (mixKeyAndHash psk)) in
  let public := take (N.to_nat PublicKeySize) message in
  bind! re := st_lift (NewPublicKey public) in
  then! st_mod (set_re re) in
  then! on_sym (st_mod (mixHash public)) in
  then! on_sym (mixKey public) in
  then! when (step =? stepResponderMessage) mixDH in
  on_sym (decryptAndHash (drop (N.to_nat PublicKeySize) message)).

(** A message method after its guards: an error fails the handshake for good. *)
Definition or_fail {R} (m : HS R) : HS R := fun h =>
  match m h with
  | (Err e, h) => (Err e, set_failed h)
  | (Ok r, h) => (Ok r, next_step h)
  end.

Definition WriteMessage (payload : list byte) : HS (list byte) := fun h =>
  if hs_failed h then (Err HandshakeFailed, h)
  else if hs_step h =? stepComplete then (Err AlreadyComplete, h)
  else if negb (Bool.eqb (hs_initiator h) (hs_step h =? stepInitiatorMessage)) then
    (Err NotTurnToWrite, h)
  else or_fail (writeMessage payload) h.

Definition ReadMessage (message : list byte) : HS (list byte) := fun h =>
  if hs_failed h then (Err HandshakeFailed, h)
  else if hs_step h =? stepComplete then (Err AlreadyComplete, h)
  else if Bool.eqb (hs_initiator h) (hs_step h =? stepInitiatorMessage) then
    (Err NotTurnToRead, h)
  else if len message <? HandshakeMessageSize then (Err (MessageTooShort (len message)), h)
  else or_fail (readMessage message) h.

(** [Split]: the cipher states to send and to receive with. *)
Definition Split : HS (CipherState * CipherState) := fun h =>
  if hs_failed h then (Err HandshakeFailed, h)
  else if negb (hs_step h =? stepComplete) then (Err NotComplete, h)
  else match sym_split (hs_sym h) with
       | Err e => (Err e, set_failed h)
       | Ok (initiatorToResponder, responderToInitiator) =>
           (Ok (if hs_initiator h then (initiatorToResponder, responderToInitiator)
                else (responderToInitiator, initiatorToResponder)), h)
       end.

End Handshake.
