(* ===== verification/NoiseFacts.v ===== *)
(** What the handshake's messages do, step by step: the symmetric operations
    never fail on the keys they derive, and writing and reading a message mix
    the same things in the same order. *)

From S2P Require Import Prelude Bytes Io Sha256 CipherState Noise.
Local Open Scope N_scope.
Local Open Scope st_scope.

(** ** Key derivation *)
Lemma hkdfExpand_ok ck ikm k :
  (k <= 255)%nat ->
  exists out, hkdfExpand ck ikm k = Ok out /\ length out = k /\
    forall i, (i < k)%nat -> len (nth i out []) = KeySize.
Proof.
  intros Hk. unfold hkdfExpand. change (N.to_nat KeySize) with 32%nat.
  destruct (Expand_ok (Extract ikm ck) [] (k * 32)) as (stream & -> & Hl); [lia|].
  eexists. split; [reflexivity|]. rewrite length_map, length_seq. split; [done|].
  intros i Hi. rewrite (nth_indep _ [] (key_slice [] 0)) by (by rewrite length_map, length_seq).
  assert (nth i (map (key_slice stream) (seq 0 k)) (key_slice [] 0) = key_slice stream i) as ->.
  { rewrite (nth_indep _ _ (key_slice stream 0)) by (by rewrite length_map, length_seq).
    by rewrite map_nth, seq_nth. }
  unfold key_slice, len. rewrite length_take, length_drop, Hl. unfold KeySize. lia.
Qed.

Lemma newCipherState_ok key :
  len key = KeySize -> newCipherState key = Ok (mkCipherState key 0).
Proof. unfold newCipherState. by intros ->. Qed.

(** A freshly keyed state. *)
Definition fresh (s : symmetric) : Prop :=
  exists k, sym_cipher s = Some (mkCipherState k 0) /\ len k = KeySize.

Lemma mixKey_ok ikm s : exists s', mixKey ikm s = (Ok tt, s') /\ fresh s'.
Proof.
  unfold mixKey. destruct (hkdfExpand_ok (sym_ck s) ikm 2) as (out & -> & _ & Hout); [lia|].
  simpl. rewrite newCipherState_ok by (apply Hout; lia). simpl.
  eexists. split; [done|]. eexists. split; [done|]. apply Hout. lia.
Qed.

Lemma mixKeyAndHash_ok ikm s : exists s', mixKeyAndHash ikm s = (Ok tt, s') /\ fresh s'.
Proof.
  unfold mixKeyAndHash. destruct (hkdfExpand_ok (sym_ck s) ikm 3) as (out & -> & _ & Hout); [lia|].
  simpl. rewrite newCipherState_ok by (apply Hout; lia). simpl.
  eexists. split; [done|]. eexists. split; [done|]. apply Hout. lia.
Qed.

Lemma sym_split_ok s :
  exists k1 k2, sym_split s = Ok (mkCipherState k1 0, mkCipherState k2 0) /\
    len k1 = KeySize /\ len k2 = KeySize.
Proof.
  unfold sym_split. destruct (hkdfExpand_ok (sym_ck s) [] 2) as (out & -> & _ & Hout); [lia|].
  simpl. rewrite !newCipherState_ok by (apply Hout; lia). simpl.
  do 2 eexists. split; [done|]. split; apply Hout; lia.
Qed.

#[global] Opaque mixKey mixKeyAndHash mixHash sym_split.

(** ** Payloads *)
Section Payload.
Context `{A : AEAD} `{L : !AEADLaws}.

Lemma encrypt_ok s p :
  fresh s -> len p <= MaxPlaintextSize ->
  exists ct s', encryptAndHash p s = (Ok ct, s') /\ len ct = len p + TagSize /\
    decryptAndHash ct s = (Ok p, s').
Proof.
  intros (k & Hc & Hk) Hp. unfold encryptAndHash, decryptAndHash. rewrite Hc.
  rewrite seal_succeeds by (simpl; done). cbn [app].
  do 2 eexists. split; [reflexivity|]. split; [apply length_seal|].
  rewrite (open_sealed [] (sym_h s) p (mkCipherState k 0)); [done | by split | done | done].
Qed.

Lemma decrypt_Ok s ct p s' :
  fresh s -> decryptAndHash ct s = (Ok p, s') ->
  encryptAndHash p s = (Ok ct, s') /\ len p <= MaxPlaintextSize.
Proof.
  intros (k & Hc & Hk). unfold encryptAndHash, decryptAndHash. rewrite Hc.
  destruct (open [] (sym_h s) ct (mkCipherState k 0)) as [[q|e] c] eqn:Ho; [|discriminate].
  intros [= -> <-]. apply open_Ok in Ho as [Hn Hs]; [|by split]. rewrite Hs. split; [done|].
  by apply seal_Ok in Hs as (_ & ? & _).
Qed.

Lemma decrypt_fresh_errors s ct e s' :
  fresh s -> decryptAndHash ct s = (Err e, s') -> e = CiphertextSize (len ct) \/ e = NotAuthentic 0.
Proof.
  intros (k & Hc & Hk). unfold decryptAndHash. rewrite Hc. unfold open. simpl.
  repeat case_match; intros [= <- <-]; simplify_eq; auto.
Qed.

Lemma encrypt_fresh_errors s p e s' :
  fresh s -> encryptAndHash p s = (Err e, s') -> e = PlaintextTooLong (len p).
Proof.
  intros (k & Hc & Hk). unfold encryptAndHash. rewrite Hc. unfold seal. simpl.
  repeat case_match; intros [= <- <-]; simplify_eq; auto.
Qed.
End Payload.

(** ** A message's tokens *)
Section Tokens.
Context `{A : AEAD} `{C : Curve}.

(** The symmetric state a message's payload is encrypted under: both sides
    compute it from the same inputs. *)
Definition tokens (step : N) (psk public : list byte) (shared : option (list byte))
    (s : symmetric) : symmetric :=
  let s := if step =? stepInitiatorMessage then (mixKeyAndHash psk s).2 else s in
  let s := (mixKey public (mixHash public s)).2 in
  match shared with Some x => (mixKey x s).2 | None => s end.

Lemma tokens_fresh step psk public shared s : fresh (tokens step psk public shared s).
Proof.
  unfold tokens. destruct shared as [x|].
  - destruct (mixKey_ok x (mixKey public (mixHash public
      (if step =? stepInitiatorMessage then (mixKeyAndHash psk s).2 else s))).2) as (s' & -> & ?). done.
  - destruct (mixKey_ok public (mixHash public
      (if step =? stepInitiatorMessage then (mixKeyAndHash psk s).2 else s))) as (s' & -> & ?). done.
Qed.

(** The ee token's secret, of the message that has one. *)
Definition ee (step : N) (e re : option (list byte)) : option (option (list byte)) :=
  if step =? stepResponderMessage then
    match e, re with
    | Some e, Some re => match curve_ecdh e re with Some x => Some (Some x) | None => None end
    | _, _ => None
    end
  else Some None.

Lemma mixes_ok {R} (k : HS R) step psk public shared sym h :
  ee step (hs_e h) (hs_re h) = Some shared ->
  hs_sym h = (if step =? stepInitiatorMessage then (mixKeyAndHash psk sym).2 else sym) ->
  (then! on_sym (st_mod (mixHash public)) in
   then! on_sym (mixKey public) in
   then! when (step =? stepResponderMessage) mixDH in k) h =
  k (set_sym (tokens step psk public shared sym) h).
Proof.
  intros Hee Hs. unfold st_bind, on_sym, st_zoom, st_mod. simpl. unfold tokens. rewrite Hs.
  set (s0 := if step =? stepInitiatorMessage then (mixKeyAndHash psk sym).2 else sym).
  destruct (mixKey_ok public (mixHash public s0)) as (s1 & -> & _). simpl.
  unfold ee in Hee. unfold when. destruct (step =? stepResponderMessage).
  - unfold mixDH. simpl. destruct (hs_e h) as [e|]; [|done]. destruct (hs_re h) as [re|]; [|done].
    destruct (curve_ecdh e re) as [x|]; [|done]. injection Hee as <-.
    unfold on_sym, st_zoom. simpl. by destruct (mixKey_ok x s1) as (s2 & -> & _).
  - by injection Hee as <-.
Qed.

(** The psk token, where there is one. *)
Lemma psk_ok {R} (k : HS R) step psk h :
  (then! when (step =? stepInitiatorMessage) (on_sym (mixKeyAndHash psk)) in k) h =
  k (set_sym (if step =? stepInitiatorMessage then (mixKeyAndHash psk (hs_sym h)).2 else hs_sym h) h).
Proof.
  unfold st_bind, when, on_sym, st_zoom. destruct (step =? stepInitiatorMessage).
  - by destruct (mixKeyAndHash_ok psk (hs_sym h)) as (s' & -> & _).
  - by destruct h.
Qed.

Definition result_app (pre : list byte) (r : result noise_error (list byte)) : result noise_error (list byte) :=
  match r with Ok x => Ok (pre ++ x) | Err e => Err e end.

Lemma len_take_le {X} (n : nat) (l : list X) : N.of_nat n <= len l -> len (take n l) = N.of_nat n.
Proof. unfold len. rewrite length_take. lia. Qed.

(** The end of a message's tokens, the part both methods share. *)
Definition mixes {R} (step : N) (public : list byte) (k : HS R) : HS R :=
  then! on_sym (st_mod (mixHash public)) in
  then! on_sym (mixKey public) in
  then! when (step =? stepResponderMessage) mixDH in k.

(** The ee token with both keys there fails only where X25519 refuses. *)
Lemma mixes_refused {R} (k : HS R) step public e re h :
  hs_e h = Some e -> hs_re h = Some re -> ee step (Some e) (Some re) = None ->
  exists h', mixes step public k h = (Err X25519Failed, h').
Proof.
  intros He Hre Hee. unfold ee in Hee. unfold mixes, st_bind, on_sym, st_zoom, st_mod, when. simpl.
  destruct (mixKey_ok public (mixHash public (hs_sym h))) as (s1 & -> & _). simpl.
  destruct (step =? stepResponderMessage); [|done]. unfold mixDH. simpl. rewrite He, Hre.
  destruct (curve_ecdh e re); [done|]. eauto.
Qed.

(** The state in which the tokens after psk are mixed. *)
Definition keyed h : Handshake :=
  set_sym (if hs_step h =? stepInitiatorMessage then (mixKeyAndHash (hs_psk h) (hs_sym h)).2
           else hs_sym h) h.

Lemma writeMessage_drawn payload h e r :
  ReadFull 32 (hs_random h) = (Ok e, r) ->
  writeMessage payload h =
    mixes (hs_step h) (curve_public e)
      (bind! ciphertext := on_sym (encryptAndHash payload) in st_ret (curve_public e ++ ciphertext))
      (set_e e (set_random r (keyed h))).
Proof.
  intros Hr. unfold writeMessage, st_get. unfold st_bind at 1 2. cbv beta iota.
  rewrite psk_ok. unfold st_bind at 1, generateKeypair. simpl hs_random.
  change (N.to_nat KeySize) with 32%nat. rewrite Hr. pose proof (ReadFull_Ok _ _ _ _ Hr) as [Hl _].
  unfold len. rewrite Hl. done.
Qed.

Lemma writeMessage_undrawn payload h err r :
  ReadFull 32 (hs_random h) = (Err err, r) ->
  writeMessage payload h = (Err (RandomFailed err), set_random r (keyed h)).
Proof.
  intros Hr. unfold writeMessage, st_get. unfold st_bind at 1 2. cbv beta iota.
  rewrite psk_ok. unfold st_bind at 1, generateKeypair. simpl hs_random.
  change (N.to_nat KeySize) with 32%nat. by rewrite Hr.
Qed.

Lemma readMessage_parsed message h :
  HandshakeMessageSize <= len message ->
  readMessage message h =
    mixes (hs_step h) (take 32 message) (on_sym (decryptAndHash (drop 32 message)))
      (set_re (take 32 message) (keyed h)).
Proof.
  intros Hl. unfold readMessage, st_get. unfold st_bind at 1 2. cbv beta iota zeta.
  change (N.to_nat PublicKeySize) with 32%nat. rewrite psk_ok.
  unfold st_bind at 1, st_lift, NewPublicKey.
  change HandshakeMessageSize with 48 in Hl. by rewrite len_take_le by lia.
Qed.

(** Writing a message: the public key in the clear, then the payload under the
    state the tokens made. *)
Lemma writeMessage_spec payload h e r shared :
  ReadFull 32 (hs_random h) = (Ok e, r) ->
  ee (hs_step h) (Some e) (hs_re h) = Some shared ->
  writeMessage payload h =
    let '(res, s) := encryptAndHash payload
        (tokens (hs_step h) (hs_psk h) (curve_public e) shared (hs_sym h)) in
    (result_app (curve_public e) res, set_sym s (set_e e (set_random r h))).
Proof.
  intros Hr Hee. rewrite (writeMessage_drawn _ _ _ _ Hr). unfold mixes.
  rewrite (mixes_ok _ _ (hs_psk h) _ shared (hs_sym h)) by done.
  unfold st_bind, on_sym, st_zoom. simpl. by destruct (encryptAndHash _ _) as [[?|?] ?].
Qed.

(** Reading one: the same tokens, then the payload is authenticated. *)
Lemma readMessage_spec message h shared :
  HandshakeMessageSize <= len message ->
  ee (hs_step h) (hs_e h) (Some (take 32 message)) = Some shared ->
  readMessage message h =
    let '(res, s) := decryptAndHash (drop 32 message)
        (tokens (hs_step h) (hs_psk h) (take 32 message) shared (hs_sym h)) in
    (res, set_sym s (set_re (take 32 message) h)).
Proof.
  intros Hl Hee. rewrite (readMessage_parsed _ _ Hl). unfold mixes.
  rewrite (mixes_ok _ _ (hs_psk h) _ shared (hs_sym h)) by done.
  unfold on_sym, st_zoom. simpl. by destruct (decryptAndHash _ _) as [[?|?] ?].
Qed.

End Tokens.
