(* ===== verification/NoiseTheorems.v ===== *)
(** What the Noise handshake and its cipher states promise: both sides of a
    handshake agree on the transport keys, a refused handshake stays refused,
    nothing inside it can go wrong, and a counter is never used twice. *)

From S2P Require Import Prelude Bytes Io Sha256 CipherState Noise NoiseFacts.
Local Open Scope N_scope.
Local Open Scope st_scope.

Section Agreement.
Context `{A : AEAD} `{AL : !AEADLaws} `{C : Curve} `{CL : !CurveLaws}.
Implicit Types w r h : Handshake.

(** ** Two sides in step

    [w] is about to write and [r] to read what it writes. *)
Record in_step (w r : Handshake) : Prop := {
  is_sym : hs_sym w = hs_sym r;
  is_psk : hs_psk w = hs_psk r;
  is_step : hs_step w = hs_step r;
  is_roles : hs_initiator r = negb (hs_initiator w);
  is_turn : hs_initiator w = (hs_step w =? stepInitiatorMessage);
  is_open : hs_step w < stepComplete /\ hs_failed w = false /\ hs_failed r = false;
  is_keys : hs_step w = stepResponderMessage ->
    exists e, hs_e r = Some e /\ hs_re w = Some (curve_public e);
}.

(** The ephemeral key a side will draw, and that the exchange it makes is not
    the degenerate one X25519 refuses. *)
Definition draws w r (e : list byte) : Prop :=
  (exists rest, ReadFull 32 (hs_random w) = (Ok e, rest)) /\
  (hs_step w = stepResponderMessage ->
   forall er, hs_e r = Some er -> is_Some (curve_ecdh e (curve_public er))).

Lemma ee_agree w r e :
  in_step w r -> draws w r e ->
  exists shared, ee (hs_step w) (Some e) (hs_re w) = Some shared /\
    ee (hs_step r) (hs_e r) (Some (curve_public e)) = Some shared.
Proof.
  intros S [_ Hd]. unfold ee. rewrite <- (is_step _ _ S).
  destruct (N.eqb_spec (hs_step w) stepResponderMessage) as [Hs|]; [|eauto].
  destruct (is_keys _ _ S Hs) as (er & Her & ->). rewrite Her.
  destruct (Hd Hs er Her) as [x Hx]. rewrite (ecdh_comm er e), Hx. eauto.
Qed.

Lemma WriteMessage_turn w p :
  hs_failed w = false -> hs_step w < stepComplete ->
  hs_initiator w = (hs_step w =? stepInitiatorMessage) ->
  WriteMessage p w = or_fail (writeMessage p) w.
Proof.
  intros Hf Hs Ht. unfold WriteMessage. rewrite Hf, Ht. unfold stepComplete in *.
  destruct (N.eqb_spec (hs_step w) 2); [lia|]. by rewrite eqb_reflx.
Qed.

Lemma ReadMessage_turn r m :
  hs_failed r = false -> hs_step r < stepComplete ->
  hs_initiator r = negb (hs_step r =? stepInitiatorMessage) -> HandshakeMessageSize <= len m ->
  ReadMessage m r = or_fail (readMessage m) r.
Proof.
  intros Hf Hs Ht Hm. unfold ReadMessage. rewrite Hf, Ht. unfold stepComplete in *.
  destruct (N.eqb_spec (hs_step r) 2); [lia|]. destruct (N.ltb_spec (len m) HandshakeMessageSize); [lia|].
  by destruct (hs_step r =? stepInitiatorMessage).
Qed.

(** One message of the handshake: what one side writes the other reads, and
    both end with the same symmetric state. *)
Lemma exchange w r e p :
  in_step w r -> draws w r e -> len p <= MaxPlaintextSize ->
  exists m w' r', WriteMessage p w = (Ok m, w') /\ ReadMessage m r = (Ok p, r') /\
    len m = HandshakeMessageSize + len p /\ hs_sym w' = hs_sym r' /\ take 32 m = curve_public e /\
    hs_e w' = Some e /\ hs_re r' = Some (curve_public e) /\ hs_random r' = hs_random r /\
    hs_psk w' = hs_psk w /\ hs_psk r' = hs_psk r /\ hs_initiator w' = hs_initiator w /\
    hs_initiator r' = hs_initiator r /\ hs_step w' = hs_step w + 1 /\ hs_step r' = hs_step r + 1 /\
    hs_failed w' = false /\ hs_failed r' = false.
Proof.
  intros S Hd Hp. destruct (is_open _ _ S) as (Ho & Hfw & Hfr).
  destruct (ee_agree w r e S Hd) as (shared & Hw & Hr). destruct Hd as [[rest Hrand] _].
  destruct (encrypt_ok (tokens (hs_step w) (hs_psk w) (curve_public e) shared (hs_sym w)) p)
    as (ct & s' & He & Hlct & Hde); [apply tokens_fresh | done|].
  pose proof (length_public e) as Hlp. pose proof Hlp as Hlp'. unfold len, PublicKeySize in Hlp'.
  assert (len (curve_public e ++ ct) = HandshakeMessageSize + len p) as Hlm.
  { rewrite len_app, Hlp, Hlct. unfold HandshakeMessageSize. lia. }
  assert (take 32 (curve_public e ++ ct) = curve_public e /\ drop 32 (curve_public e ++ ct) = ct) as [Ht Hdr].
  { split; [apply take_app_length' | apply drop_app_length']; lia. }
  pose proof (writeMessage_spec p w e rest shared Hrand Hw) as Hwm. rewrite He in Hwm. simpl in Hwm.
  pose proof (readMessage_spec (curve_public e ++ ct) r shared) as Hrm.
  rewrite Ht, Hdr, <- (is_step _ _ S), <- (is_psk _ _ S), <- (is_sym _ _ S), Hde in Hrm.
  rewrite <- (is_step _ _ S) in Hr. specialize (Hrm ltac:(lia) Hr).
  exists (curve_public e ++ ct). do 2 eexists.
  rewrite WriteMessage_turn by (done || apply S). rewrite ReadMessage_turn; cycle 1.
  { done. } { rewrite <- (is_step _ _ S). done. }
  { rewrite (is_roles _ _ S), (is_turn _ _ S), (is_step _ _ S). done. } { lia. }
  unfold or_fail. rewrite Hwm, Hrm. split_and!; (reflexivity || done).
Qed.

(** A new handshake. *)
Definition new_side (initiator : bool) (psk prologue : list byte) (random : stream) : Handshake :=
  mkHandshake (newSymmetric prologue) initiator psk random None None stepInitiatorMessage false.

(** The whole handshake between two new sides. *)
Lemma handshake_run psk prologue ri rr ei er resti restr p1 p2 :
  let hi := new_side true psk prologue ri in
  let hr := new_side false psk prologue rr in
  ReadFull 32 ri = (Ok ei, resti) -> ReadFull 32 rr = (Ok er, restr) ->
  is_Some (curve_ecdh er (curve_public ei)) ->
  len p1 <= MaxPlaintextSize -> len p2 <= MaxPlaintextSize ->
  exists m1 hi1 hr1 m2 hr2 hi2 k1 k2,
    WriteMessage p1 hi = (Ok m1, hi1) /\ ReadMessage m1 hr = (Ok p1, hr1) /\
    WriteMessage p2 hr1 = (Ok m2, hr2) /\ ReadMessage m2 hi1 = (Ok p2, hi2) /\
    len m1 = HandshakeMessageSize + len p1 /\ len m2 = HandshakeMessageSize + len p2 /\
    Split hi2 = (Ok (k1, k2), hi2) /\ Split hr2 = (Ok (k2, k1), hr2) /\
    valid_cipher k1 /\ valid_cipher k2 /\ cs_nonce k1 = 0 /\ cs_nonce k2 = 0.
Proof.
  intros hi hr Hri Hrr Hx Hp1 Hp2.
  destruct (exchange hi hr ei p1) as (m1 & hi1 & hr1 & HW1 & HR1 & Hl1 & Hs1 & _ & He1 & Hre1 & Hrand &
    Hpw & Hpr & Hiw & Hir & Hsw & Hsr & Hfw & Hfr); [by split | split; [by eexists | done] | done|].
  destruct (exchange hr1 hi1 er p2) as (m2 & hr2 & hi2 & HW2 & HR2 & Hl2 & Hs2 & _ & _ & _ & _ &
    _ & _ & Hiw2 & Hir2 & Hsw2 & Hsr2 & Hfw2 & Hfr2).
  { split; rewrite ?Hs1, ?Hpw, ?Hpr, ?Hiw, ?Hir, ?Hsw, ?Hsr, ?He1, ?Hre1; simpl; eauto. done. }
  { split; [rewrite Hrand; by eexists|]. intros _ e'. rewrite He1. by intros [= <-]. }
  { done. }
  destruct (sym_split_ok (hs_sym hr2)) as (k1 & k2 & Hsp & Hk1 & Hk2).
  exists m1, hi1, hr1, m2, hr2, hi2, (mkCipherState k1 0), (mkCipherState k2 0).
  assert (hs_step hi2 = 2 /\ hs_step hr2 = 2) as [E1 E2] by (rewrite Hsr2, Hsw2, Hsw, Hsr; done).
  split_and!; try done; unfold Split.
  - by rewrite Hfr2, E1, <- Hs2, Hsp, Hir2, Hiw.
  - by rewrite Hfw2, E2, Hsp, Hiw2, Hir.
Qed.

(** Both sides of a handshake with the same pre-shared key and prologue
    complete it in two messages, read each other's payloads, and split the
    same two transport keys: what one sends with is what the other receives
    with, and both counters start at zero. *)
Theorem handshake_agrees rand psk prologue ri rr hi hr ei er resti restr p1 p2 :
  NewHandshake rand (mkConfig true psk prologue (Some ri)) = Ok hi ->
  NewHandshake rand (mkConfig false psk prologue (Some rr)) = Ok hr ->
  ReadFull 32 ri = (Ok ei, resti) -> ReadFull 32 rr = (Ok er, restr) ->
  is_Some (curve_ecdh er (curve_public ei)) ->
  len p1 <= MaxPlaintextSize -> len p2 <= MaxPlaintextSize ->
  exists m1 hi1 hr1 m2 hr2 hi2 k1 k2,
    WriteMessage p1 hi = (Ok m1, hi1) /\ ReadMessage m1 hr = (Ok p1, hr1) /\
    WriteMessage p2 hr1 = (Ok m2, hr2) /\ ReadMessage m2 hi1 = (Ok p2, hi2) /\
    len m1 = HandshakeMessageSize + len p1 /\ len m2 = HandshakeMessageSize + len p2 /\
    Split hi2 = (Ok (k1, k2), hi2) /\ Split hr2 = (Ok (k2, k1), hr2) /\
    valid_cipher k1 /\ valid_cipher k2 /\ cs_nonce k1 = 0 /\ cs_nonce k2 = 0.
Proof.
  unfold NewHandshake. simpl. destruct (len psk =? KeySize); [|done]. simpl.
  intros [= <-] [= <-]. apply handshake_run.
Qed.

End Agreement.

Section Refusals.
Context `{A : AEAD} `{AL : !AEADLaws} `{C : Curve} `{CL : !CurveLaws}.
Implicit Types w r h : Handshake.

(** C18. A message is accepted only if it is the one an honest peer in step
    with this side, with the ephemeral key the message carries, writes for
    that payload; and both then hold the same symmetric state. *)
Theorem accepted_is_written w r e m p r' :
  in_step w r -> draws w r e -> take 32 m = curve_public e ->
  ReadMessage m r = (Ok p, r') ->
  exists w', WriteMessage p w = (Ok m, w') /\ hs_sym w' = hs_sym r'.
Proof.
  intros S Hd Ht HR. destruct (is_open _ _ S) as (Ho & Hfw & Hfr).
  assert (HandshakeMessageSize <= len m) as Hm.
  { unfold ReadMessage in HR. repeat case_match; try discriminate. lia. }
  rewrite ReadMessage_turn in HR; [| done | by rewrite <- (is_step _ _ S) | | done].
  2: by rewrite (is_roles _ _ S), (is_turn _ _ S), (is_step _ _ S).
  destruct (ee_agree w r e S Hd) as (shared & Hw & Hr). destruct Hd as [[rest Hrand] _].
  unfold or_fail in HR. rewrite (readMessage_spec m r shared) in HR by (done || by rewrite Ht).
  rewrite Ht, <- (is_step _ _ S), <- (is_psk _ _ S), <- (is_sym _ _ S) in HR.
  destruct (decryptAndHash _ _) as [[q|?] s'] eqn:Hde; [|discriminate]. injection HR as -> <-.
  apply decrypt_Ok in Hde as [He _]; [|apply tokens_fresh].
  rewrite WriteMessage_turn by (done || apply S). unfold or_fail.
  rewrite (writeMessage_spec p w e rest shared Hrand Hw), He. simpl.
  rewrite <- Ht, take_drop. by eexists.
Qed.

(** The errors of a handshake that leave it exactly as it was. *)
Definition guard_error (e : noise_error) : bool :=
  match e with
  | HandshakeFailed | AlreadyComplete | NotTurnToWrite | NotTurnToRead
  | MessageTooShort _ | NotComplete => true
  | _ => false
  end.

(** Errors that no sequence of calls on a new handshake meets. *)
Definition internal (e : noise_error) : bool :=
  match e with
  | BadPrivateKey | NotKeyed | HKDFFailed | BadCipherKey | BadEphemeral | NilDereference
  | CounterExhausted | PSKSize _ => true
  | _ => false
  end.

(** What every call sees: the ephemerals the ee token needs are there. *)
Definition hs_ready h : Prop :=
  hs_step h <= stepComplete /\
  (hs_step h = stepResponderMessage ->
   if hs_initiator h then is_Some (hs_e h) else is_Some (hs_re h)).

Lemma ready_write h :
  hs_ready h -> hs_initiator h = (hs_step h =? stepInitiatorMessage) ->
  hs_step h = stepResponderMessage -> is_Some (hs_re h).
Proof. intros [_ Hk] Ht Hs. specialize (Hk Hs). by rewrite Ht, Hs in Hk. Qed.

Lemma ready_read h :
  hs_ready h -> hs_initiator h = negb (hs_step h =? stepInitiatorMessage) ->
  hs_step h = stepResponderMessage -> is_Some (hs_e h).
Proof. intros [_ Hk] Ht Hs. specialize (Hk Hs). by rewrite Ht, Hs in Hk. Qed.

(** With the keys it needs there, the ee token has a value or X25519 refuses. *)
Lemma ee_cases step e re :
  (step = stepResponderMessage -> is_Some e /\ is_Some re) ->
  (exists shared, ee step e re = Some shared) \/
  (exists e' re', e = Some e' /\ re = Some re' /\ ee step e re = None).
Proof.
  unfold ee. destruct (N.eqb_spec step stepResponderMessage) as [E|]; [|eauto].
  intros H. destruct (H E) as [[e' ->] [re' ->]]. destruct (curve_ecdh e' re'); eauto 6.
Qed.

(** An equation about tokens that X25519 refused. *)
Ltac mixes_fail H :=
  match goal with
  | N : ee ?s (Some ?e) (Some ?re) = None |- _ =>
      match type of H with
      | mixes s ?pub ?k ?h = _ =>
          let E := fresh "E" in
          destruct (mixes_refused k s pub e re h) as (? & E); [done..|];
          rewrite E in H; first [discriminate H | by injection H as <- _]
      end
  end.

Lemma writeMessage_errors p h e h' :
  hs_ready h -> hs_initiator h = (hs_step h =? stepInitiatorMessage) ->
  writeMessage p h = (Err e, h') -> internal e = false /\ guard_error e = false.
Proof.
  intros Hrd Ht HW. destruct (ReadFull 32 (hs_random h)) as [[key|err] rest] eqn:Hrand.
  2: { rewrite (writeMessage_undrawn p h err rest Hrand) in HW. by injection HW as <- _. }
  destruct (ee_cases (hs_step h) (Some key) (hs_re h)) as [[shared Hee]|(e' & re' & [= <-] & Hre & Hee)].
  { intros Hs. split; [eauto | by apply ready_write]. }
  - rewrite (writeMessage_spec p h key rest shared Hrand Hee) in HW.
    destruct (encryptAndHash _ _) as [[?|err] s] eqn:He; [discriminate|]. injection HW as <- _.
    by apply encrypt_fresh_errors in He as ->; [|apply tokens_fresh].
  - rewrite (writeMessage_drawn p h key rest Hrand) in HW. rewrite Hre in Hee.
    mixes_fail HW.
Qed.

Lemma readMessage_errors m h e h' :
  hs_ready h -> hs_initiator h = negb (hs_step h =? stepInitiatorMessage) ->
  HandshakeMessageSize <= len m ->
  readMessage m h = (Err e, h') -> internal e = false /\ guard_error e = false.
Proof.
  intros Hrd Ht Hm HR.
  destruct (ee_cases (hs_step h) (hs_e h) (Some (take 32 m))) as [[shared Hee]|(e' & re' & He & [= <-] & Hee)].
  { intros Hs. split; [by apply ready_read | eauto]. }
  - rewrite (readMessage_spec m h shared Hm Hee) in HR.
    destruct (decryptAndHash _ _) as [[?|err] s] eqn:Hd; [discriminate|]. injection HR as <- _.
    apply decrypt_fresh_errors in Hd as [-> | ->]; [done..|apply tokens_fresh].
  - rewrite (readMessage_parsed m h Hm) in HR. rewrite He in Hee.
    mixes_fail HR.
Qed.

(** ** Sequences of calls *)
Inductive hs_call : Type :=
  | CallWrite (payload : list byte)
  | CallRead (message : list byte)
  | CallSplit.

Definition error_of {R} (r : result noise_error R) : option noise_error :=
  match r with Ok _ => None | Err e => Some e end.

Definition do_call (c : hs_call) h : option noise_error * Handshake :=
  match c with
  | CallWrite p => let '(r, h) := WriteMessage p h in (error_of r, h)
  | CallRead m => let '(r, h) := ReadMessage m h in (error_of r, h)
  | CallSplit => let '(r, h) := Split h in (error_of r, h)
  end.

Fixpoint run_calls (cs : list hs_call) h : list (option noise_error) * Handshake :=
  match cs with
  | [] => ([], h)
  | c :: cs =>
      let '(e, h) := do_call c h in
      let '(es, h) := run_calls cs h in (e :: es, h)
  end.

Lemma hs_step_cases h :
  hs_step h <= stepComplete -> hs_step h <> stepComplete ->
  hs_step h = stepInitiatorMessage \/ hs_step h = stepResponderMessage.
Proof. unfold stepComplete, stepInitiatorMessage, stepResponderMessage. lia. Qed.

Lemma writeMessage_ready p h m h' :
  hs_ready h -> hs_step h <> stepComplete -> hs_initiator h = (hs_step h =? stepInitiatorMessage) ->
  writeMessage p h = (Ok m, h') -> hs_ready (next_step h').
Proof.
  intros Hrd Hne Ht HW. destruct (ReadFull 32 (hs_random h)) as [[key|err] rest] eqn:Hrand.
  2: { by rewrite (writeMessage_undrawn p h err rest Hrand) in HW. }
  destruct (ee_cases (hs_step h) (Some key) (hs_re h)) as [[shared Hee]|(e' & re' & [= <-] & Hre & Hee)].
  { intros Hs. split; [eauto | by apply ready_write]. }
  - rewrite (writeMessage_spec p h key rest shared Hrand Hee) in HW.
    destruct (encryptAndHash _ _) as [[?|err] s]; [|discriminate]. injection HW as _ <-.
    destruct Hrd as [Hle _]. destruct (hs_step_cases h Hle Hne) as [Hs|Hs]; unfold hs_ready; simpl; rewrite Hs.
    + split; [done|]. intros _. rewrite Ht, Hs. simpl. eauto.
    + split; done.
  - rewrite (writeMessage_drawn p h key rest Hrand) in HW. rewrite Hre in Hee. mixes_fail HW.
Qed.

Lemma readMessage_ready m h p h' :
  hs_ready h -> hs_step h <> stepComplete -> hs_initiator h = negb (hs_step h =? stepInitiatorMessage) ->
  HandshakeMessageSize <= len m ->
  readMessage m h = (Ok p, h') -> hs_ready (next_step h').
Proof.
  intros Hrd Hne Ht Hm HR.
  destruct (ee_cases (hs_step h) (hs_e h) (Some (take 32 m))) as [[shared Hee]|(e' & re' & He & [= <-] & Hee)].
  { intros Hs. split; [by apply ready_read | eauto]. }
  - rewrite (readMessage_spec m h shared Hm Hee) in HR.
    destruct (decryptAndHash _ _) as [[?|err] s]; [|discriminate]. injection HR as _ <-.
    destruct Hrd as [Hle _]. destruct (hs_step_cases h Hle Hne) as [Hs|Hs]; unfold hs_ready; simpl; rewrite Hs.
    + split; [done|]. intros _. rewrite Ht, Hs. simpl. eauto.
    + split; done.
  - rewrite (readMessage_parsed m h Hm) in HR. rewrite He in Hee. mixes_fail HR.
Qed.

(** An accepted message is one step on, and nothing has failed. *)
Lemma WriteMessage_steps p h m h' :
  hs_ready h -> WriteMessage p h = (Ok m, h') -> hs_step h' = hs_step h + 1 /\ hs_failed h' = false /\ hs_ready h'.
Proof.
  intros Hrd. unfold WriteMessage, or_fail. destruct (hs_failed h) eqn:Hf; [discriminate|].
  destruct (N.eqb_spec (hs_step h) stepComplete) as [|Hne]; [discriminate|].
  destruct (Bool.eqb _ _) eqn:Ht; [|discriminate]. apply eqb_prop in Ht. simpl.
  destruct (writeMessage p h) as [[r|err] h1] eqn:HW; [|discriminate]. intros [= <- <-].
  pose proof (writeMessage_ready p h r h1 Hrd Hne Ht HW) as Hr1. revert HW.
  destruct (ReadFull 32 (hs_random h)) as [[key|err] rest] eqn:Hrand.
  2: { by rewrite (writeMessage_undrawn p h err rest Hrand). }
  destruct (ee_cases (hs_step h) (Some key) (hs_re h)) as [[shared Hee]|(e' & re' & [= <-] & Hre & Hee)].
  { intros Hs. split; [eauto | by apply ready_write]. }
  - rewrite (writeMessage_spec p h key rest shared Hrand Hee).
    destruct (encryptAndHash _ _) as [[?|err] s]; [|discriminate]. intros [= _ <-]. done.
  - rewrite (writeMessage_drawn p h key rest Hrand). rewrite Hre in Hee. intros HW. mixes_fail HW.
Qed.

Lemma ReadMessage_steps m h p h' :
  hs_ready h -> ReadMessage m h = (Ok p, h') -> hs_step h' = hs_step h + 1 /\ hs_failed h' = false /\ hs_ready h'.
Proof.
  intros Hrd. unfold ReadMessage, or_fail. destruct (hs_failed h) eqn:Hf; [discriminate|].
  destruct (N.eqb_spec (hs_step h) stepComplete) as [|Hne]; [discriminate|].
  destruct (Bool.eqb _ _) eqn:Ht; [discriminate|]. apply eqb_false_iff in Ht.
  assert (hs_initiator h = negb (hs_step h =? stepInitiatorMessage)) as Ht'.
  { by destruct (hs_initiator h), (hs_step h =? stepInitiatorMessage). }
  destruct (N.ltb_spec (len m) HandshakeMessageSize) as [|Hm]; [discriminate|].
  destruct (readMessage m h) as [[r|err] h1] eqn:HR; [|discriminate]. intros [= <- <-].
  pose proof (readMessage_ready m h r h1 Hrd Hne Ht' Hm HR) as Hr1. revert HR.
  destruct (ee_cases (hs_step h) (hs_e h) (Some (take 32 m))) as [[shared Hee]|(e' & re' & He & [= <-] & Hee)].
  { intros Hs. split; [by apply ready_read | eauto]. }
  - rewrite (readMessage_spec m h shared Hm Hee).
    destruct (decryptAndHash _ _) as [[?|err] s]; [|discriminate]. intros [= _ <-]. done.
  - rewrite (readMessage_parsed m h Hm). rewrite He in Hee. intros HR. mixes_fail HR.
Qed.

Definition hs_ok h : Prop := hs_failed h = true \/ hs_ready h.

Lemma do_call_ok c h e h' :
  hs_ok h -> do_call c h = (e, h') ->
  hs_ok h' /\ (forall err, e = Some err -> internal err = false).
Proof.
  intros Hok. destruct (hs_failed h) eqn:Hf.
  { destruct c; simpl; unfold WriteMessage, ReadMessage, Split; rewrite Hf; intros [= <- <-];
      (split; [by left | by intros ? [= <-]]). }
  destruct Hok as [Hok|Hrd]; [congruence|].
  destruct c as [p|m|]; simpl; unfold WriteMessage, ReadMessage, Split; rewrite Hf.
  - destruct (N.eqb_spec (hs_step h) stepComplete) as [|Hne].
    { intros [= <- <-]. split; [by right | by intros ? [= <-]]. }
    destruct (Bool.eqb _ _) eqn:Ht; simpl.
    2: { intros [= <- <-]. split; [by right | by intros ? [= <-]]. }
    apply eqb_prop in Ht. unfold or_fail. destruct (writeMessage p h) as [[r|err] h1] eqn:HW; simpl.
    + intros [= <- <-]. split; [|done]. right. by eapply writeMessage_ready.
    + intros [= <- <-]. split; [by left|]. intros ? [= <-]. by eapply writeMessage_errors.
  - destruct (N.eqb_spec (hs_step h) stepComplete) as [|Hne].
    { intros [= <- <-]. split; [by right | by intros ? [= <-]]. }
    destruct (Bool.eqb _ _) eqn:Ht; simpl.
    { intros [= <- <-]. split; [by right | by intros ? [= <-]]. }
    destruct (N.ltb_spec (len m) HandshakeMessageSize) as [|Hm].
    { intros [= <- <-]. split; [by right | by intros ? [= <-]]. }
    apply eqb_false_iff in Ht. unfold or_fail.
    assert (hs_initiator h = negb (hs_step h =? stepInitiatorMessage)) as Ht'.
    { by destruct (hs_initiator h), (hs_step h =? stepInitiatorMessage). }
    destruct (readMessage m h) as [[r|err] h1] eqn:HR; simpl.
    + intros [= <- <-]. split; [|done]. right. by eapply readMessage_ready.
    + intros [= <- <-]. split; [by left|]. intros ? [= <-]. by eapply readMessage_errors.
  - destruct (N.eqb_spec (hs_step h) stepComplete) as [|Hne]; simpl.
    + destruct (sym_split_ok (hs_sym h)) as (k1 & k2 & -> & _). intros [= <- <-]. split; [by right | done].
    + intros [= <- <-]. split; [by right | by intros ? [= <-]].
Qed.

Lemma new_ok rand cfg h : NewHandshake rand cfg = Ok h -> hs_ok h.
Proof.
  intros HN. unfold NewHandshake in HN. case_match; [discriminate|]. injection HN as <-. right.
  split; simpl; [done|]. discriminate.
Qed.

(** C19. Nothing inside a handshake can go wrong: whatever calls are made on a
    new one, in whatever order and with whatever messages, it never uses a
    missing ephemeral key, an unkeyed state, a key of a wrong length or an
    exhausted counter. *)
Theorem no_internal_error rand cfg h cs e :
  NewHandshake rand cfg = Ok h -> Some e ∈ (run_calls cs h).1 -> internal e = false.
Proof.
  intros Hok%new_ok. revert h Hok. induction cs as [|c cs IH]; intros h Hok; simpl.
  - by intros ?%elem_of_nil.
  - destruct (do_call c h) as [e1 h1] eqn:Hc. destruct (do_call_ok c h e1 h1 Hok Hc) as [Hok1 Hint].
    specialize (IH h1 Hok1). destruct (run_calls cs h1) as [es h2]. simpl in *.
    intros [<-|?]%elem_of_cons; [by apply Hint | by apply IH].
Qed.

(** Why a guard refuses a call. *)
Definition refused_because (c : hs_call) h (e : noise_error) : Prop :=
  match e with
  | HandshakeFailed => hs_failed h = true
  | AlreadyComplete => c <> CallSplit /\ hs_step h = stepComplete
  | NotTurnToWrite => (exists p, c = CallWrite p) /\ hs_step h = if hs_initiator h then 1 else 0
  | NotTurnToRead => (exists m, c = CallRead m) /\ hs_step h = if hs_initiator h then 0 else 1
  | MessageTooShort n => exists m, c = CallRead m /\ n = len m /\ n < HandshakeMessageSize
  | NotComplete => c = CallSplit /\ hs_step h <> stepComplete
  | _ => True
  end.

(** What a call comes to. *)
Definition call_result (c : hs_call) h (r : option noise_error) (h' : Handshake) : Prop :=
  match r with
  | None =>
      hs_failed h = false /\ hs_failed h' = false /\
      hs_step h' = match c with CallSplit => hs_step h | _ => hs_step h + 1 end
  | Some e =>
      refused_because c h e /\
      if guard_error e then h' = h
      else c <> CallSplit /\ hs_failed h = false /\ hs_failed h' = true /\
           forall cs, run_calls cs h' = (repeat (Some HandshakeFailed) (length cs), h')
  end.

Lemma failed_stays cs h : hs_failed h = true -> run_calls cs h = (repeat (Some HandshakeFailed) (length cs), h).
Proof.
  intros Hf. induction cs as [|c cs IH]; [done|]. simpl.
  assert (do_call c h = (Some HandshakeFailed, h)) as ->
    by (destruct c; simpl; unfold WriteMessage, ReadMessage, Split; by rewrite Hf).
  by rewrite IH.
Qed.

(** Whose turn it is, by the step. *)
Lemma turn_step h :
  hs_ready h -> hs_step h <> stepComplete ->
  hs_step h = if Bool.eqb (hs_initiator h) (hs_step h =? stepInitiatorMessage)
              then (if hs_initiator h then 0 else 1) else (if hs_initiator h then 1 else 0).
Proof.
  intros [Hle _] Hne. by destruct (hs_step_cases h Hle Hne) as [-> | ->], (hs_initiator h).
Qed.

Lemma write_outcome p h : hs_ready h -> hs_failed h = false ->
  let '(r, h') := do_call (CallWrite p) h in call_result (CallWrite p) h r h'.
Proof.
  intros Hrd Hf. simpl. destruct (WriteMessage p h) as [[m|e] h'] eqn:HW.
  - destruct (WriteMessage_steps p h m h' Hrd HW) as (? & ? & _). by split_and!.
  - unfold WriteMessage in HW. rewrite Hf in HW.
    destruct (N.eqb_spec (hs_step h) stepComplete) as [|Hne]; [by injection HW as <- <-|].
    pose proof (turn_step h Hrd Hne) as Ht. destruct (Bool.eqb _ _) eqn:Eq; cbn [negb] in HW.
    + apply eqb_prop in Eq. unfold or_fail in HW. destruct (writeMessage p h) as [[r|err] h1] eqn:E; [done|].
      injection HW as <- <-. destruct (writeMessage_errors p h err h1 Hrd Eq E) as [_ Hg].
      simpl. rewrite Hg. split; [by destruct err|]. split_and!; [done..|]. intros cs. by apply failed_stays.
    + injection HW as <- <-. simpl. eauto.
Qed.

Lemma read_outcome m h : hs_ready h -> hs_failed h = false ->
  let '(r, h') := do_call (CallRead m) h in call_result (CallRead m) h r h'.
Proof.
  intros Hrd Hf. simpl. destruct (ReadMessage m h) as [[p|e] h'] eqn:HR.
  - destruct (ReadMessage_steps m h p h' Hrd HR) as (? & ? & _). by split_and!.
  - unfold ReadMessage in HR. rewrite Hf in HR.
    destruct (N.eqb_spec (hs_step h) stepComplete) as [|Hne]; [by injection HR as <- <-|].
    pose proof (turn_step h Hrd Hne) as Ht. destruct (Bool.eqb _ _) eqn:Eq; cbn [negb] in HR.
    { injection HR as <- <-. simpl. eauto. }
    destruct (N.ltb_spec (len m) HandshakeMessageSize) as [|Hm]; [injection HR as <- <-; simpl; eauto|].
    assert (hs_initiator h = negb (hs_step h =? stepInitiatorMessage)) as Ht'.
    { by destruct (hs_initiator h), (hs_step h =? stepInitiatorMessage). }
    unfold or_fail in HR. destruct (readMessage m h) as [[r|err] h1] eqn:E; [done|].
    injection HR as <- <-. destruct (readMessage_errors m h err h1 Hrd Ht' Hm E) as [_ Hg].
    simpl. rewrite Hg. split; [by destruct err|]. split_and!; [done..|]. intros cs. by apply failed_stays.
Qed.

Lemma call_outcome c h : hs_ok h -> let '(r, h') := do_call c h in call_result c h r h'.
Proof.
  intros Hok. destruct (hs_failed h) eqn:Hf.
  { destruct c; simpl; unfold WriteMessage, ReadMessage, Split; by rewrite Hf. }
  destruct Hok as [?|Hrd]; [congruence|]. destruct c as [p|m|]; [by apply write_outcome | by apply read_outcome|].
  simpl. unfold Split. rewrite Hf. destruct (N.eqb_spec (hs_step h) stepComplete) as [|Hne]; [|done]. simpl.
  destruct (sym_split_ok (hs_sym h)) as (k1 & k2 & -> & _). simpl. by split_and!.
Qed.

Lemma run_calls_ok cs h : hs_ok h -> hs_ok (run_calls cs h).2.
Proof.
  revert h. induction cs as [|c cs IH]; intros h Hok; [done|]. simpl.
  destruct (do_call c h) as [e h1] eqn:E. destruct (do_call_ok c h e h1 Hok E) as [H1 _].
  specialize (IH h1 H1). by destruct (run_calls cs h1).
Qed.

(** C20. What each call on a handshake comes to, after any calls on a new one.  A
    call that succeeds moves it one step on, [Split] leaves it where it is.  A call
    a guard refuses, for the reason its error gives - an earlier failure, a
    handshake already complete or not yet, the other side's turn, a message too
    short to be one - leaves the handshake exactly as it was.  Any other error is
    one of reading or writing a message, and sets the handshake failed: every later
    call, [Split] too, is refused.  [Split] has no error of its own. *)
Theorem refusals_final_or_harmless rand cfg h cs c :
  NewHandshake rand cfg = Ok h ->
  let h1 := (run_calls cs h).2 in
  let '(r, h2) := do_call c h1 in call_result c h1 r h2.
Proof. intros HN h1. apply call_outcome, run_calls_ok. by eapply new_ok. Qed.
End Refusals.

(** ** One direction of the transport *)
Section Counter.
Context `{A : AEAD}.

Fixpoint encrypt_all (ps : list (list byte)) (c : CipherState)
    : list (result noise_error (list byte)) * CipherState :=
  match ps with
  | [] => ([], c)
  | p :: ps =>
      let '(r, c) := Encrypt [] p c in
      let '(rs, c) := encrypt_all ps c in (r :: rs, c)
  end.

(** The texts that were encrypted, with what they became. *)
Definition sealed (ps : list (list byte)) (rs : list (result noise_error (list byte)))
    : list (list byte * list byte) :=
  omap (fun pr => match snd pr with Ok ct => Some (fst pr, ct) | Err _ => None end) (combine ps rs).

(** The counters from [n] on. *)
Fixpoint counters (n : N) (k : nat) : list N :=
  match k with O => [] | S k => n :: counters (n + 1) k end.

Lemma elem_of_counters n k x : x ∈ counters n k -> n <= x < n + N.of_nat k.
Proof.
  revert n. induction k as [|k IH]; intros n; simpl; [by intros ?%elem_of_nil|].
  intros [->|Hx]%elem_of_cons; [lia|]. specialize (IH _ Hx). lia.
Qed.

Lemma counters_distinct key n k :
  n + N.of_nat k <= nonceReserved ->
  NoDup (map (fun x => nonceBytes (mkCipherState key x)) (counters n k)).
Proof.
  revert n. induction k as [|k IH]; intros n Hn; simpl; constructor.
  - intros (x & E & Hx)%list_elem_of_fmap. apply elem_of_counters in Hx.
    apply nonceBytes_inj in E; simpl in *; unfold nonceReserved, width in *; lia.
  - apply IH. lia.
Qed.

(** C21. A counter is never used twice: however many messages a direction is
    asked to carry, the ones it encrypts use consecutive counters, each with a
    nonce of its own, up to the reserved value and never past it. *)
Theorem nonce_never_reused ps c rs c' :
  valid_cipher c -> encrypt_all ps c = (rs, c') ->
  exists ns, ns = counters (cs_nonce c) (length (sealed ps rs)) /\
    NoDup (map (fun n => nonceBytes (mkCipherState (cs_key c) n)) ns) /\
    Forall2 (fun n '(p, ct) => ct = aead_seal (cs_key c) (nonceBytes (mkCipherState (cs_key c) n)) p [])
      ns (sealed ps rs) /\
    cs_nonce c' = cs_nonce c + len ns /\ cs_nonce c' <= nonceReserved /\ cs_key c' = cs_key c.
Proof.
  intros Hv. enough (encrypt_all ps c = (rs, c') ->
    Forall2 (fun n '(p, ct) => ct = aead_seal (cs_key c) (nonceBytes (mkCipherState (cs_key c) n)) p [])
      (counters (cs_nonce c) (length (sealed ps rs))) (sealed ps rs) /\
    cs_nonce c' = cs_nonce c + len (sealed ps rs) /\ cs_nonce c' <= nonceReserved /\ cs_key c' = cs_key c) as G.
  { intros E. destruct (G E) as (HF & Hn & Hle & Hk). eexists. split; [done|].
    assert (length (counters (cs_nonce c) (length (sealed ps rs))) = length (sealed ps rs)) as Hl
      by (by apply Forall2_length in HF).
    unfold len in *. split; [apply counters_distinct; lia|]. by rewrite Hl. }
  revert c rs c' Hv. induction ps as [|p ps IH]; intros c rs c' Hv; simpl.
  - intros [= <- <-]. simpl. destruct Hv. split_and!; [constructor | unfold len; simpl; lia | done..].
  - destruct (Encrypt [] p c) as [r c1] eqn:Hs. destruct (encrypt_all ps c1) as [rs1 c2] eqn:Hr.
    intros [= <- <-]. unfold Encrypt in Hs. destruct r as [ct|e].
    + apply seal_Ok in Hs as (Hne & Hp & -> & ->).
      assert (cs_nonce c < nonceReserved) as Hlt by (destruct Hv; lia).
      destruct (IH _ _ _ (valid_bump c Hv Hlt) Hr) as (HF & Hn & Hle & Hk).
      rewrite (bump_nonce c Hlt) in *. cbn [cs_nonce cs_key] in *.
      assert (forall x, sealed (p :: ps) (Ok x :: rs1) = (p, x) :: sealed ps rs1) as -> by done.
      cbn [length counters]. split_and!.
      * constructor; [|done]. by destruct c.
      * rewrite len_cons. lia.
      * done.
      * done.
    + apply seal_Err in Hs as ->. by apply (IH c rs1 c2).
Qed.
End Counter.

(** ** A handshake at work *)
Definition toy_curve : Curve := {|
  curve_public k := take 32 (k ++ repeat x00 32);
  curve_ecdh a p := Some (put_le 32 (get_le (take 32 (a ++ repeat x00 32)) + get_le (take 32 (p ++ repeat x00 32))));
|}.

Lemma toy_curve_laws : CurveLaws (C := toy_curve).
Proof.
  assert (forall l : list byte, length (take 32 (l ++ repeat x00 32)) = 32%nat) as Hl.
  { intros l. rewrite length_take, length_app, repeat_length. lia. }
  split; [intros k | intros a b]; unfold curve_public, curve_ecdh, toy_curve.
  - unfold len. by rewrite Hl.
  - do 2 f_equal. rewrite !(take_app_length' (take 32 _) (repeat x00 32) 32) by (by rewrite Hl). lia.
Qed.

Definition demo_key : list byte := repeat x01 32.
Definition demo_random (b : byte) : stream := mkStream (repeat b 32) EOF.
Definition demo_side (initiator : bool) : Handshake :=
  new_side initiator demo_key (bytes_of "prologue") (demo_random (if initiator then x02 else x03)).

Lemma handshake_agrees_witness :
  exists m1 hi1 hr1 m2 hr2 hi2 k1 k2,
    WriteMessage (A := toy_aead) (C := toy_curve) (bytes_of "hello") (demo_side true) = (Ok m1, hi1) /\
    ReadMessage (A := toy_aead) (C := toy_curve) m1 (demo_side false) = (Ok (bytes_of "hello"), hr1) /\
    WriteMessage (A := toy_aead) (C := toy_curve) [] hr1 = (Ok m2, hr2) /\
    ReadMessage (A := toy_aead) (C := toy_curve) m2 hi1 = (Ok [], hi2) /\
    len m1 = HandshakeMessageSize + 5 /\ len m2 = HandshakeMessageSize + 0 /\
    Split hi2 = (Ok (k1, k2), hi2) /\ Split hr2 = (Ok (k2, k1), hr2) /\
    valid_cipher k1 /\ valid_cipher k2 /\ cs_nonce k1 = 0 /\ cs_nonce k2 = 0.
Proof.
  apply (handshake_agrees (AL := toy_aead_laws) (CL := toy_curve_laws) (mkStream [] EOF) demo_key
    (bytes_of "prologue") (demo_random x02) (demo_random x03) (demo_side true) (demo_side false)
    (repeat x02 32) (repeat x03 32) (mkStream [] EOF) (mkStream [] EOF) (bytes_of "hello") []);
    [reflexivity | reflexivity | reflexivity | reflexivity | by eexists | done | done].
Defined.

Lemma demo_in_step : in_step (C := toy_curve) (demo_side true) (demo_side false).
Proof. by split. Qed.

Lemma demo_draws : draws (C := toy_curve) (demo_side true) (demo_side false) (repeat x02 32).
Proof. split; [by eexists | done]. Qed.

Lemma accepted_is_written_witness :
  exists m r' w',
    ReadMessage (A := toy_aead) (C := toy_curve) m (demo_side false) = (Ok (bytes_of "hello"), r') /\
    WriteMessage (A := toy_aead) (C := toy_curve) (bytes_of "hello") (demo_side true) = (Ok m, w') /\
    hs_sym w' = hs_sym r'.
Proof.
  destruct (exchange (AL := toy_aead_laws) (CL := toy_curve_laws) _ _ _ (bytes_of "hello")
    demo_in_step demo_draws) as (m & w & r & _ & HR & _ & _ & Ht & _); [done|].
  destruct (accepted_is_written (AL := toy_aead_laws) (CL := toy_curve_laws) _ _ _ _ _ _
    demo_in_step demo_draws Ht HR) as (w' & HW & Hs).
  by exists m, r, w'.
Defined.

Lemma no_internal_error_witness :
  NewHandshake (mkStream [] EOF) (mkConfig false demo_key (bytes_of "prologue") (Some (demo_random x03)))
    = Ok (demo_side false) /\
    Some NotTurnToWrite ∈ (run_calls (A := toy_aead) (C := toy_curve)
    [CallSplit; CallRead []; CallWrite []] (demo_side false)).1 /\
    internal NotTurnToWrite = false.
Proof.
  assert (Some NotTurnToWrite ∈ (run_calls (A := toy_aead) (C := toy_curve)
    [CallSplit; CallRead []; CallWrite []] (demo_side false)).1) as H by (right; right; left).
  split; [reflexivity|]. split; [exact H|].
  apply (no_internal_error (A := toy_aead) (C := toy_curve) (mkStream [] EOF)
    (mkConfig false demo_key (bytes_of "prologue") (Some (demo_random x03))) (demo_side false)
    [CallSplit; CallRead []; CallWrite []] NotTurnToWrite eq_refl H).
Defined.

Lemma nonce_never_reused_witness :
  let c := mkCipherState demo_key (nonceReserved - 2) in
  let ps := [bytes_of "a"; bytes_of "b"; bytes_of "c"] in
  let run := encrypt_all (A := toy_aead) ps c in
  len (sealed ps run.1) = 2 /\
    exists ns, ns = counters (cs_nonce c) (length (sealed ps run.1)) /\
    NoDup (map (fun n => nonceBytes (mkCipherState (cs_key c) n)) ns) /\
    Forall2 (fun n '(p, ct) => ct = aead_seal (AEAD := toy_aead) (cs_key c)
      (nonceBytes (mkCipherState (cs_key c) n)) p []) ns (sealed ps run.1) /\
    cs_nonce run.2 = cs_nonce c + len ns /\ cs_nonce run.2 <= nonceReserved /\ cs_key run.2 = cs_key c.
Proof.
  cbv zeta. split; [reflexivity|].
  apply (nonce_never_reused (A := toy_aead)); [split; done | by destruct (encrypt_all _ _)].
Defined.

(** A responder asked for its keys too early is as it was; one given a message
    that does not authenticate refuses everything after it. *)
Definition toy_calls := run_calls (A := toy_aead) (C := toy_curve).
Definition toy_call := do_call (A := toy_aead) (C := toy_curve).

Lemma refusals_final_or_harmless_witness :
  (toy_call CallSplit (demo_side false)).2 = demo_side false /\
  (toy_call (CallRead (repeat x07 48)) (demo_side false)).1 = Some (NotAuthentic 0) /\
  (toy_calls [CallRead (repeat x07 48); CallSplit; CallWrite []] (demo_side false)).1 =
    [Some (NotAuthentic 0); Some HandshakeFailed; Some HandshakeFailed].
Proof.
  assert (NewHandshake (mkStream [] EOF) (mkConfig false demo_key (bytes_of "prologue") (Some (demo_random x03)))
    = Ok (demo_side false)) as HN by reflexivity.
  pose proof (refusals_final_or_harmless (A := toy_aead) (C := toy_curve) (mkStream [] EOF) _ _ [] CallSplit HN) as H1.
  pose proof (refusals_final_or_harmless (A := toy_aead) (C := toy_curve) (mkStream [] EOF) _ _ []
    (CallRead (repeat x07 48)) HN) as H2.
  cbn [run_calls snd] in H1, H2. unfold toy_call, toy_calls. split.
  - exact (proj2 H1).
  - cbn [run_calls]. destruct (do_call (CallRead (repeat x07 48)) (demo_side false)) as [r h2] eqn:E.
    assert (r = Some (NotAuthentic 0)) as -> by (change r with (r, h2).1; rewrite <- E; vm_compute; reflexivity).
    destruct H2 as (_ & _ & _ & _ & Hlater). specialize (Hlater [CallSplit; CallWrite []]). cbn [run_calls] in Hlater.
    split; [reflexivity|].
    destruct (do_call CallSplit h2) as [e3 h3], (do_call (CallWrite []) h3) as [e4 h4]. injection Hlater as -> -> _.
    reflexivity.
Defined.
