(* ===== verification/Message.v ===== *)
(** Layer 3 messages: internal/wire/message.go, the preamble constants of
    internal/wire/wire.go, and the errors the wire package makes.

    A struct is a record with the source's field names behind a prefix, the
    [Message] interface is the sum of its nine implementations, and a fixed
    width integer is an [N] that [typed_message] bounds. *)

From S2P Require Import Prelude Bytes Io CipherState.
Local Open Scope N_scope.

(** ** Kinds *)
Definition KindHello : N := 0x01.
Definition KindPing : N := 0x02.
Definition KindPong : N := 0x03.
Definition KindRequest : N := 0x10.
Definition KindResponse : N := 0x11.
Definition KindBody : N := 0x12.
Definition KindEnd : N := 0x13.
Definition KindCancel : N := 0x14.
Definition KindFail : N := 0x15.

(** [fmt]'s [%02x] of a byte. *)
Definition hex_digit (n : N) : Ascii.ascii :=
  Ascii.ascii_of_N (if n <? 10 then 48 + n else 87 + n).
Definition hex02 (n : N) : string :=
  String (hex_digit (n / 16)) (String (hex_digit (n mod 16)) EmptyString).

Definition Kind_String (k : N) : string :=
  if k =? KindHello then "HELLO"
  else if k =? KindPing then "PING"
  else if k =? KindPong then "PONG"
  else if k =? KindRequest then "REQUEST"
  else if k =? KindResponse then "RESPONSE"
  else if k =? KindBody then "BODY"
  else if k =? KindEnd then "END"
  else if k =? KindCancel then "CANCEL"
  else if k =? KindFail then "FAIL"
  else ("kind 0x" +:+ hex02 k)%string.

(** ** Roles *)
Inductive Role : Type := RoleServer | RoleClient.
#[export] Instance Role_eq_dec : EqDecision Role.
Proof. solve_decision. Defined.

Definition other_side (r : Role) : Role :=
  match r with RoleServer => RoleClient | RoleClient => RoleServer end.

(** ** The messages *)
Record Header : Type := mkHeader {
  header_Name : string;
  header_Value : string;
}.

Record ProviderInfo : Type := mkProviderInfo {
  info_Service : string;
  info_MaxConcurrent : N;  (* uint16 *)
  info_Priority : N;       (* uint16 *)
}.

Record Hello : Type := mkHello {
  hello_Name : string;
  hello_Providers : list ProviderInfo;
}.

Record Request : Type := mkRequest {
  req_Job : N;             (* uint64 *)
  req_Service : string;
  req_Method : string;
  req_Target : string;
  req_Headers : list Header;
}.

Record Response : Type := mkResponse {
  resp_Job : N;            (* uint64 *)
  resp_Status : N;         (* uint16 *)
  resp_Headers : list Header;
}.

Record Body : Type := mkBody {
  body_Job : N;            (* uint64 *)
  body_Bytes : list byte;
}.

Record EndMsg : Type := mkEnd {
  end_Job : N;             (* uint64 *)
  end_Trailers : list Header;
}.

Record CancelMsg : Type := mkCancel {
  cancel_Job : N;          (* uint64 *)
}.

Record FailMsg : Type := mkFail {
  fail_Job : N;            (* uint64 *)
  fail_Reason : string;
}.

Inductive Message : Type :=
  | MHello (m : Hello)
  | MPing
  | MPong
  | MRequest (m : Request)
  | MResponse (m : Response)
  | MBody (m : Body)
  | MEnd (m : EndMsg)
  | MCancel (m : CancelMsg)
  | MFail (m : FailMsg).

#[export] Instance Header_eq_dec : EqDecision Header.
Proof. solve_decision. Defined.
#[export] Instance ProviderInfo_eq_dec : EqDecision ProviderInfo.
Proof. solve_decision. Defined.
#[export] Instance Hello_eq_dec : EqDecision Hello.
Proof. solve_decision. Defined.
#[export] Instance Request_eq_dec : EqDecision Request.
Proof. solve_decision. Defined.
#[export] Instance Response_eq_dec : EqDecision Response.
Proof. solve_decision. Defined.
#[export] Instance Body_eq_dec : EqDecision Body.
Proof. solve_decision. Defined.
#[export] Instance EndMsg_eq_dec : EqDecision EndMsg.
Proof. solve_decision. Defined.
#[export] Instance CancelMsg_eq_dec : EqDecision CancelMsg.
Proof. solve_decision. Defined.
#[export] Instance FailMsg_eq_dec : EqDecision FailMsg.
Proof. solve_decision. Defined.
#[export] Instance Message_eq_dec : EqDecision Message.
Proof. solve_decision. Defined.

(** The [Kind] methods. *)
Definition Kind (m : Message) : N :=
  match m with
  | MHello _ => KindHello
  | MPing => KindPing
  | MPong => KindPong
  | MRequest _ => KindRequest
  | MResponse _ => KindResponse
  | MBody _ => KindBody
  | MEnd _ => KindEnd
  | MCancel _ => KindCancel
  | MFail _ => KindFail
  end.

(** The [Jobbed] interface: the type assertion fails on HELLO, PING and PONG. *)
Definition JobID (m : Message) : option N :=
  match m with
  | MHello _ | MPing | MPong => None
  | MRequest m => Some (req_Job m)
  | MResponse m => Some (resp_Job m)
  | MBody m => Some (body_Job m)
  | MEnd m => Some (end_Job m)
  | MCancel m => Some (cancel_Job m)
  | MFail m => Some (fail_Job m)
  end.

Definition minStatus : N := 100.
Definition maxStatus : N := 599.

(** ** What the Go types already guarantee

    A [uint16] field holds a value below [width 2] and a [uint64] field one
    below [width 8]; strings and slices are unconstrained. *)
Definition typed_info (p : ProviderInfo) : Prop :=
  info_MaxConcurrent p < width 2 /\ info_Priority p < width 2.

Definition typed_message (m : Message) : Prop :=
  match m with
  | MHello m => Forall typed_info (hello_Providers m)
  | MPing | MPong => True
  | MRequest m => req_Job m < width 8
  | MResponse m => resp_Job m < width 8 /\ resp_Status m < width 2
  | MBody m => body_Job m < width 8
  | MEnd m => end_Job m < width 8
  | MCancel m => cancel_Job m < width 8
  | MFail m => fail_Job m < width 8
  end.

(** ** Errors

    The refusals of the wire package: a constructor per [fmt.Errorf] or
    [errors.New] site, with what the text is made of. *)
Inductive wire_error : Type :=
  | IOErr (e : io_error)
  | Str8TooLong (what : string) (n : N)
  | Str16TooLong (what : string) (n : N)
  | NotUTF8 (what : string)
  | JobZero
  | NoSlots
  | BadStatus (s : N)
  | TooMany8 (n : N) (what : string)
  | TooManyHeaders (n : N)
  | EmptyChunk
  | ChunkTooLong (n : N)
  | ServerSaysHello
  | HelloTwice
  | BeforeHello (kind : N)
  | UnknownKind (kind : N)
  | ErrNotPeer
  | VersionError (ours theirs : N)
  | HandshakeTooLong (n : N)
  | HandshakeTooShort (n : N)
  | RecordTooShort (n : N)
  | ReadingPreamble (e : io_error)
  | ReadingHandshake (e : io_error)
  | EncryptingRecord (e : noise_error)
  | DecryptingRecord (e : noise_error)
  | NoiseErr (e : noise_error).

#[export] Instance wire_error_eq_dec : EqDecision wire_error.
Proof. solve_decision. Defined.
