(* ===== verification/Encode.v ===== *)
(** Writing messages: internal/wire/encode.go.

    [builder] is the builder the fields are appended to, each method a
    function from builder to builder; [Encode] is the whole encoder and
    [Encoder] the stateful writer that also keeps the order of HELLO. *)

From S2P Require Import Prelude Bytes Io Message.
Local Open Scope N_scope.

(** ** The builder *)
Record builder : Type := mkBuilder {
  b_buf : list byte;
  b_err : option wire_error;
}.

Definition b_append (bs : list byte) (b : builder) : builder :=
  mkBuilder (b_buf b ++ bs) (b_err b).

Definition b_u8 (v : N) : builder -> builder := b_append (put_le 1 v).
Definition b_u16 (v : N) : builder -> builder := b_append (put_le 2 v).
Definition b_u32 (v : N) : builder -> builder := b_append (put_le 4 v).
Definition b_u64 (v : N) : builder -> builder := b_append (put_le 8 v).

(** [fail] keeps the first refusal. *)
Definition b_fail (e : wire_error) (b : builder) : builder :=
  match b_err b with
  | None => mkBuilder (b_buf b) (Some e)
  | Some _ => b
  end.

Definition b_str8 (what s : string) (b : builder) : builder :=
  if 255 <? slen s then b_fail (Str8TooLong what (slen s)) b
  else b_append (bytes_of s) (b_u8 (slen s) b).

Definition b_str16 (what s : string) (b : builder) : builder :=
  if 65535 <? slen s then b_fail (Str16TooLong what (slen s)) b
  else b_append (bytes_of s) (b_u16 (slen s) b).

Definition b_name8 (what s : string) (b : builder) : builder :=
  if negb (ValidString s) then b_fail (NotUTF8 what) b
  else b_str8 what s b.

Definition b_text16 (what s : string) (b : builder) : builder :=
  if negb (ValidString s) then b_fail (NotUTF8 what) b
  else b_str16 what s b.

Definition b_job (id : N) (b : builder) : builder :=
  if id =? 0 then b_fail JobZero b else b_u64 id b.

Definition b_slots (n : N) (b : builder) : builder :=
  if n <? 1 then b_fail NoSlots b else b_u16 n b.

Definition b_status (s : N) (b : builder) : builder :=
  if (s <? minStatus) || (maxStatus <? s) then b_fail (BadStatus s) b
  else b_u16 s b.

Definition b_count8 (what : string) (n : N) (b : builder) : builder :=
  if 255 <? n then b_fail (TooMany8 n what) b else b_u8 n b.

Definition MaxUint32 : N := 2 ^ 32 - 1.

Definition b_chunk (p : list byte) (b : builder) : builder :=
  if len p <? 1 then b_fail EmptyChunk b
  else if MaxUint32 <? len p then b_fail (ChunkTooLong (len p)) b
  else b_append p (b_u32 (len p) b).

Definition b_header (b : builder) (h : Header) : builder :=
  b_str16 "header value" (header_Value h) (b_str8 "header name" (header_Name h) b).

Definition b_headers (hs : list Header) (b : builder) : builder :=
  if 65535 <? len hs then b_fail (TooManyHeaders (len hs)) b
  else fold_left b_header hs (b_u16 (len hs) b).

(** One announced provider of a HELLO: the body of the loop in [Encode]. *)
Definition b_info (b : builder) (p : ProviderInfo) : builder :=
  b_u16 (info_Priority p)
    (b_slots (info_MaxConcurrent p)
      (b_name8 "service" (info_Service p) b)).

(** ** [Encode]

    The fields of each kind in their order. *)
Definition b_message (m : Message) (b : builder) : builder :=
  match m with
  | MHello m =>
      let b := b_name8 "peer name" (hello_Name m) b in
      let b := b_count8 "providers" (len (hello_Providers m)) b in
      fold_left b_info (hello_Providers m) b
  | MPing | MPong => b
  | MRequest m =>
      let b := b_job (req_Job m) b in
      let b := b_name8 "service" (req_Service m) b in
      let b := b_str8 "method" (req_Method m) b in
      let b := b_str16 "target" (req_Target m) b in
      b_headers (req_Headers m) b
  | MResponse m =>
      let b := b_job (resp_Job m) b in
      let b := b_status (resp_Status m) b in
      b_headers (resp_Headers m) b
  | MBody m =>
      let b := b_job (body_Job m) b in
      b_chunk (body_Bytes m) b
  | MEnd m =>
      let b := b_job (end_Job m) b in
      b_headers (end_Trailers m) b
  | MCancel m => b_job (cancel_Job m) b
  | MFail m =>
      let b := b_job (fail_Job m) b in
      b_text16 "reason" (fail_Reason m) b
  end.

Definition Encode (dst : list byte) (m : Message) : list byte * option wire_error :=
  let b := b_message m (mkBuilder (dst ++ [byte_of (Kind m)]) None) in
  match b_err b with
  | Some e => (dst, Some e)
  | None => (b_buf b, None)
  end.

(** ** [Encoder]

    The writer under an encoder is whatever [io.Writer] it was given. *)
Record Encoder (W : Type) : Type := mkEncoder {
  e_w : W;
  e_role : Role;
  e_sentHello : bool;
}.
Arguments mkEncoder {W}.
Arguments e_w {W}.
Arguments e_role {W}.
Arguments e_sentHello {W}.

Definition NewEncoder {W} (w : W) (role : Role) : Encoder W :=
  mkEncoder w role false.

Definition helloOrder {W} (e : Encoder W) (m : Message) : option wire_error :=
  let hello := Kind m =? KindHello in
  if hello && bool_decide (e_role e = RoleServer) then Some ServerSaysHello
  else if bool_decide (e_role e = RoleClient) && Bool.eqb hello (e_sentHello e) then
    if hello then Some HelloTwice else Some (BeforeHello (Kind m))
  else None.

Definition Encoder_Write {W} `{Writer W} (e : Encoder W) (m : Message)
    : Encoder W * option wire_error :=
  match helloOrder e m with
  | Some err => (e, Some err)
  | None =>
      match Encode [] m with
      | (_, Some err) => (e, Some err)
      | (buf, None) =>
          match write (e_w e) buf with
          | (w, Some err) => (mkEncoder w (e_role e) (e_sentHello e), Some (IOErr err))
          | (w, None) =>
              (mkEncoder w (e_role e) (e_sentHello e || (Kind m =? KindHello)), None)
          end
      end
  end.
