(* ===== verification/Decode.v ===== *)
(** Reading messages: internal/wire/decode.go.

    A decoder's methods are state transformers [D A] over the decoder, which
    carries the stream it reads and the first refusal; once there is one,
    every field reads nothing. *)

From S2P Require Import Prelude Bytes Io Message.
Local Open Scope N_scope.

(** ** The decoder *)
Record Decoder : Type := mkDecoder {
  d_r : stream;
  d_role : Role;
  d_gotHello : bool;
  d_err : option wire_error;
}.

Definition NewDecoder (r : stream) (role : Role) : Decoder :=
  mkDecoder r role false None.

Definition set_r (r : stream) (d : Decoder) : Decoder :=
  mkDecoder r (d_role d) (d_gotHello d) (d_err d).
Definition set_err (e : wire_error) (d : Decoder) : Decoder :=
  mkDecoder (d_r d) (d_role d) (d_gotHello d) (Some e).
Definition set_gotHello (d : Decoder) : Decoder :=
  mkDecoder (d_r d) (d_role d) true (d_err d).

(** The state monad of the decoder's methods. *)
Definition D (A : Type) : Type := Decoder -> A * Decoder.
Definition dret {A} (a : A) : D A := fun d => (a, d).
Definition dbind {A B} (p : D A) (q : A -> D B) : D B :=
  fun d => let '(a, d') := p d in q a d'.
Declare Scope dec_scope.
Delimit Scope dec_scope with dec.
Notation "'get' x ':=' p 'in' k" := (dbind p (fun x => k))
  (at level 10, x name, p at level 100, k at level 200) : dec_scope.
Local Open Scope dec_scope.

(** [if d.err != nil { return dflt }] before the rest of a method. *)
Definition dguard {A} (dflt : A) (p : D A) : D A :=
  fun d => match d_err d with Some _ => (dflt, d) | None => p d end.

(** [if d.err == nil && bad { d.fail(e); return dflt }; return v]. *)
Definition drefuse {A} (bad : bool) (e : wire_error) (dflt v : A) : D A :=
  fun d => match d_err d with
           | None => if bad then (dflt, set_err e d) else (v, d)
           | Some _ => (v, d)
           end.

Definition d_fail (e : wire_error) : D unit :=
  fun d => match d_err d with None => (tt, set_err e d) | Some _ => (tt, d) end.

Definition d_read (n : nat) : D (option (list byte)) := fun d =>
  match d_err d with
  | Some _ => (None, d)
  | None =>
      match ReadFull n (d_r d) with
      | (Ok buf, r) => (Some buf, set_r r d)
      | (Err e, r) =>
          (None, set_err (IOErr (match e with EOF => ErrUnexpectedEOF | e => e end))
                   (set_r r d))
      end
  end.

(** [u8], [u16], [u32] and [u64] are the one-, two-, four- and eight-byte reads. *)
Definition d_uint (n : nat) : D N :=
  get buf := d_read n in
  dret (match buf with Some bs => get_le bs | None => 0 end).
Definition d_u8 : D N := d_uint 1.
Definition d_u16 : D N := d_uint 2.
Definition d_u32 : D N := d_uint 4.
Definition d_u64 : D N := d_uint 8.

Definition d_bytes (n : N) : D (list byte) :=
  dguard []
    (if n =? 0 then dret []
     else get buf := d_read (N.to_nat n) in
          dret (match buf with Some bs => bs | None => [] end)).

Definition d_str8 : D string :=
  get n := d_u8 in get bs := d_bytes n in dret (string_of bs).
Definition d_str16 : D string :=
  get n := d_u16 in get bs := d_bytes n in dret (string_of bs).

Definition d_name8 (what : string) : D string :=
  get s := d_str8 in drefuse (negb (ValidString s)) (NotUTF8 what) ""%string s.
Definition d_text16 (what : string) : D string :=
  get s := d_str16 in drefuse (negb (ValidString s)) (NotUTF8 what) ""%string s.

Definition d_job : D N :=
  get id := d_u64 in drefuse (id =? 0) JobZero 0 id.
Definition d_slots : D N :=
  get n := d_u16 in drefuse (n <? 1) NoSlots 0 n.
Definition d_status : D N :=
  get s := d_u16 in
  drefuse ((s <? minStatus) || (maxStatus <? s)) (BadStatus s) 0 s.

Definition d_chunk : D (list byte) :=
  get n := d_u32 in
  dguard []
    (if n <? 1 then (get _ := d_fail EmptyChunk in dret []) else d_bytes n).

(** The loops over counted items return [nil] as soon as anything is wrong. *)
Fixpoint d_headers_loop (n : nat) (hs : list Header) : D (list Header) :=
  match n with
  | O => dret hs
  | S n =>
      get name := d_str8 in
      get value := d_str16 in
      dguard [] (d_headers_loop n (hs ++ [mkHeader name value]))
  end.

Definition d_headers : D (list Header) :=
  get count := d_u16 in
  dguard []
    (if count =? 0 then dret [] else d_headers_loop (N.to_nat count) []).

Definition d_setHello : D unit := fun d => (tt, set_gotHello d).

(** The provider loop of [hello]; [None] is the early [return nil]. *)
Fixpoint d_infos_loop (n : nat) (ps : list ProviderInfo) : D (option (list ProviderInfo)) :=
  match n with
  | O => dret (Some ps)
  | S n =>
      get service := d_name8 "service" in
      get slots := d_slots in
      get priority := d_u16 in
      dguard None (d_infos_loop n (ps ++ [mkProviderInfo service slots priority]))
  end.

(** [hello] once the two order guards have passed. *)
Definition d_hello_fields : D (option Message) :=
  get name := d_name8 "peer name" in
  get count := d_u8 in
  dguard None
    (if count =? 0 then
       get _ := d_setHello in dret (Some (MHello (mkHello name [])))
     else
       get ps := d_infos_loop (N.to_nat count) [] in
       match ps with
       | None => dret None
       | Some ps =>
           get _ := d_setHello in dret (Some (MHello (mkHello name ps)))
       end).

Definition d_hello : D (option Message) := fun d =>
  if bool_decide (d_role d = RoleClient) then
    (get _ := d_fail ServerSaysHello in dret None) d
  else if d_gotHello d then
    (get _ := d_fail HelloTwice in dret None) d
  else d_hello_fields d.

Definition d_request : D (option Message) :=
  get job := d_job in
  get service := d_name8 "service" in
  get method := d_str8 in
  get target := d_str16 in
  get headers := d_headers in
  dret (Some (MRequest (mkRequest job service method target headers))).

Definition d_response : D (option Message) :=
  get job := d_job in
  get status := d_status in
  get headers := d_headers in
  dret (Some (MResponse (mkResponse job status headers))).

Definition d_body : D (option Message) :=
  get job := d_job in
  get bytes := d_chunk in
  dret (Some (MBody (mkBody job bytes))).

Definition d_end : D (option Message) :=
  get job := d_job in
  get trailers := d_headers in
  dret (Some (MEnd (mkEnd job trailers))).

Definition d_cancel : D (option Message) :=
  get job := d_job in
  dret (Some (MCancel (mkCancel job))).

Definition d_failmsg : D (option Message) :=
  get job := d_job in
  get reason := d_text16 "reason" in
  dret (Some (MFail (mkFail job reason))).

(** The fields of one kind; [None] for a kind there is no case for. *)
Definition d_fields (kind : N) : option (D (option Message)) :=
  if kind =? KindHello then Some d_hello
  else if kind =? KindPing then Some (dret (Some MPing))
  else if kind =? KindPong then Some (dret (Some MPong))
  else if kind =? KindRequest then Some d_request
  else if kind =? KindResponse then Some d_response
  else if kind =? KindBody then Some d_body
  else if kind =? KindEnd then Some d_end
  else if kind =? KindCancel then Some d_cancel
  else if kind =? KindFail then Some d_failmsg
  else None.

(** A Go pair of a message and an error, either of which may be [nil]. *)
Definition answer : Type := option Message * option wire_error.

Definition d_message (kind : N) : D answer := fun d =>
  if bool_decide (d_role d = RoleServer) && negb (d_gotHello d) && negb (kind =? KindHello)
  then ((None, Some (BeforeHello kind)), d)
  else
    match d_fields kind with
    | None => ((None, Some (UnknownKind kind)), d)
    | Some p =>
        let '(m, d) := p d in
        match d_err d with
        | Some e => ((None, Some e), d)
        | None => ((m, None), d)
        end
    end.

Definition Decoder_Next (d : Decoder) : answer * Decoder :=
  match d_err d with
  | Some e => ((None, Some e), d)
  | None =>
      match ReadByte (d_r d) with
      | (Err e, r) =>
          let d := set_r r d in
          ((None, Some (IOErr e)),
           match e with EOF => d | e => set_err (IOErr e) d end)
      | (Ok first, r) =>
          match d_message (byte_val first) (set_r r d) with
          | ((_, Some e), d) => ((None, Some e), set_err e d)
          | ((m, None), d) => ((m, None), d)
          end
      end
  end.
