(* ===== verification/WireFormat.v ===== *)
(** The format PROTOCOL.md describes, as a specification: what the bytes of a
    well-formed message are ([encoding]) and which messages are well-formed
    ([encodable]).  The encoder is shown to append exactly that, and each
    decoder method to read exactly that ([Field]). *)

From S2P Require Import Prelude Bytes Io Message Encode Decode.
Local Open Scope N_scope.
Local Open Scope dec_scope.

(** ** The format *)
Definition fmt_str8 (s : string) : list byte := put_le 1 (slen s) ++ bytes_of s.
Definition fmt_str16 (s : string) : list byte := put_le 2 (slen s) ++ bytes_of s.
Definition fmt_header (h : Header) : list byte :=
  fmt_str8 (header_Name h) ++ fmt_str16 (header_Value h).
Definition fmt_headers (hs : list Header) : list byte :=
  put_le 2 (len hs) ++ flat_map fmt_header hs.
Definition fmt_info (p : ProviderInfo) : list byte :=
  fmt_str8 (info_Service p) ++ put_le 2 (info_MaxConcurrent p) ++ put_le 2 (info_Priority p).

Definition fmt_chunk (p : list byte) : list byte := put_le 4 (len p) ++ p.

Definition fmt_message (m : Message) : list byte :=
  match m with
  | MHello m =>
      fmt_str8 (hello_Name m) ++ put_le 1 (len (hello_Providers m)) ++
      flat_map fmt_info (hello_Providers m)
  | MPing | MPong => []
  | MRequest m =>
      put_le 8 (req_Job m) ++ fmt_str8 (req_Service m) ++ fmt_str8 (req_Method m) ++
      fmt_str16 (req_Target m) ++ fmt_headers (req_Headers m)
  | MResponse m =>
      put_le 8 (resp_Job m) ++ put_le 2 (resp_Status m) ++ fmt_headers (resp_Headers m)
  | MBody m =>
      put_le 8 (body_Job m) ++ fmt_chunk (body_Bytes m)
  | MEnd m => put_le 8 (end_Job m) ++ fmt_headers (end_Trailers m)
  | MCancel m => put_le 8 (cancel_Job m)
  | MFail m => put_le 8 (fail_Job m) ++ fmt_str16 (fail_Reason m)
  end.

Definition encoding (m : Message) : list byte := byte_of (Kind m) :: fmt_message m.

(** ** The ranges PROTOCOL.md states *)
Definition str8_ok (s : string) : bool := slen s <=? 255.
Definition str16_ok (s : string) : bool := slen s <=? 65535.
Definition name8_ok (s : string) : bool := ValidString s && str8_ok s.
Definition text16_ok (s : string) : bool := ValidString s && str16_ok s.
Definition header_ok (h : Header) : bool :=
  str8_ok (header_Name h) && str16_ok (header_Value h).
Definition headers_ok (hs : list Header) : bool :=
  (len hs <=? 65535) && forallb header_ok hs.
Definition info_ok (p : ProviderInfo) : bool :=
  name8_ok (info_Service p) && (1 <=? info_MaxConcurrent p).
Definition job_ok (j : N) : bool := negb (j =? 0).
Definition status_ok (s : N) : bool := (minStatus <=? s) && (s <=? maxStatus).
Definition chunk_ok (p : list byte) : bool := (1 <=? len p) && (len p <=? MaxUint32).

Definition encodable (m : Message) : bool :=
  match m with
  | MHello m =>
      name8_ok (hello_Name m) && (len (hello_Providers m) <=? 255) &&
      forallb info_ok (hello_Providers m)
  | MPing | MPong => true
  | MRequest m =>
      job_ok (req_Job m) && name8_ok (req_Service m) && str8_ok (req_Method m) &&
      str16_ok (req_Target m) && headers_ok (req_Headers m)
  | MResponse m =>
      job_ok (resp_Job m) && status_ok (resp_Status m) && headers_ok (resp_Headers m)
  | MBody m => job_ok (body_Job m) && chunk_ok (body_Bytes m)
  | MEnd m => job_ok (end_Job m) && headers_ok (end_Trailers m)
  | MCancel m => job_ok (cancel_Job m)
  | MFail m => job_ok (fail_Job m) && text16_ok (fail_Reason m)
  end.

(** ** The encoder appends the format

    [emitted b bs ok b'] says what a builder method made of [b]: the bytes
    [bs] appended when [ok], a refusal otherwise, and an earlier refusal kept. *)
Definition emitted (b : builder) (bs : list byte) (ok : bool) (b' : builder) : Prop :=
  (b_err b = None -> if ok then b' = b_append bs b else is_Some (b_err b')) /\
  (is_Some (b_err b) -> b_err b' = b_err b).

Lemma emitted_refl b : emitted b [] true b.
Proof.
  split; [|done]. intros _. destruct b. unfold b_append. simpl. by rewrite app_nil_r.
Qed.

Lemma emitted_trans b bs1 ok1 b1 bs2 ok2 b2 :
  emitted b bs1 ok1 b1 -> emitted b1 bs2 ok2 b2 ->
  emitted b (bs1 ++ bs2) (ok1 && ok2) b2.
Proof.
  intros [H1 K1] [H2 K2]. split.
  - intros Hb. specialize (H1 Hb). destruct ok1; simpl.
    + subst b1. specialize (H2 Hb). destruct ok2; [|done]. subst b2.
      unfold b_append. simpl. by rewrite app_assoc.
    + by rewrite (K2 H1).
  - intros Hb. pose proof (K1 Hb) as E. rewrite <- E. apply K2. by rewrite E.
Qed.

Lemma emitted_append b bs : emitted b bs true (b_append bs b).
Proof. by split. Qed.

Lemma emitted_fail b bs e : emitted b bs false (b_fail e b).
Proof.
  split.
  - intros E. unfold b_fail. rewrite E. by eexists.
  - intros [e' E]. unfold b_fail. by rewrite E.
Qed.

Lemma emitted_ok b bs bs' ok ok' b' :
  emitted b bs ok b' -> bs = bs' -> ok = ok' -> emitted b bs' ok' b'.
Proof. by intros ? -> ->. Qed.

Create HintDb emitted.
#[export] Hint Resolve emitted_refl emitted_append emitted_fail : emitted.

(** Split on the method's guard; each branch appends or refuses. *)
Ltac emit_guard c :=
  destruct c eqn:?; simpl;
  [ eapply emitted_ok; [apply emitted_fail | reflexivity | lia]
  | ].

Lemma emits_str8 what s b : emitted b (fmt_str8 s) (str8_ok s) (b_str8 what s b).
Proof.
  unfold b_str8, str8_ok. emit_guard (255 <? slen s).
  eapply emitted_ok; [eapply emitted_trans; apply emitted_append | done | lia].
Qed.

Lemma emits_str16 what s b : emitted b (fmt_str16 s) (str16_ok s) (b_str16 what s b).
Proof.
  unfold b_str16, str16_ok. emit_guard (65535 <? slen s).
  eapply emitted_ok; [eapply emitted_trans; apply emitted_append | done | lia].
Qed.

Lemma emits_name8 what s b : emitted b (fmt_str8 s) (name8_ok s) (b_name8 what s b).
Proof.
  unfold b_name8, name8_ok. destruct (ValidString s); simpl; auto using emits_str8 with emitted.
Qed.

Lemma emits_text16 what s b : emitted b (fmt_str16 s) (text16_ok s) (b_text16 what s b).
Proof.
  unfold b_text16, text16_ok. destruct (ValidString s); simpl; auto using emits_str16 with emitted.
Qed.

Lemma emits_job j b : emitted b (put_le 8 j) (job_ok j) (b_job j b).
Proof. unfold b_job, job_ok. destruct (j =? 0); simpl; auto with emitted. Qed.

Lemma emits_slots n b : emitted b (put_le 2 n) (1 <=? n) (b_slots n b).
Proof.
  unfold b_slots. emit_guard (n <? 1).
  eapply emitted_ok; [apply emitted_append | done | lia].
Qed.

Lemma emits_status s b : emitted b (put_le 2 s) (status_ok s) (b_status s b).
Proof.
  unfold b_status, status_ok. emit_guard ((s <? minStatus) || (maxStatus <? s)).
  eapply emitted_ok; [apply emitted_append | done | lia].
Qed.

Lemma emits_count8 what n b : emitted b (put_le 1 n) (n <=? 255) (b_count8 what n b).
Proof.
  unfold b_count8. emit_guard (255 <? n).
  eapply emitted_ok; [apply emitted_append | done | lia].
Qed.

Lemma emits_chunk p b :
  emitted b (fmt_chunk p) (chunk_ok p) (b_chunk p b).
Proof.
  unfold b_chunk, chunk_ok. emit_guard (len p <? 1). emit_guard (MaxUint32 <? len p).
  eapply emitted_ok; [eapply emitted_trans; apply emitted_append | done | lia].
Qed.

Lemma emits_fold {A} (f : builder -> A -> builder) (g : A -> list byte) (ok : A -> bool) l b :
  (forall b x, emitted b (g x) (ok x) (f b x)) ->
  emitted b (flat_map g l) (forallb ok l) (fold_left f l b).
Proof.
  intros Hf. revert b. induction l as [|x l IH]; intros b; simpl; [apply emitted_refl|].
  eapply emitted_trans; [apply Hf | apply IH].
Qed.

Lemma emits_header h b : emitted b (fmt_header h) (header_ok h) (b_header b h).
Proof. eapply emitted_trans; [apply emits_str8 | apply emits_str16]. Qed.

Lemma emits_headers hs b : emitted b (fmt_headers hs) (headers_ok hs) (b_headers hs b).
Proof.
  unfold b_headers, headers_ok. emit_guard (65535 <? len hs).
  eapply emitted_ok;
    [eapply emitted_trans; [apply emitted_append | apply emits_fold; intros; apply emits_header] | done |].
  replace (len hs <=? 65535) with true by lia. done.
Qed.

Lemma emits_info p b : emitted b (fmt_info p) (info_ok p) (b_info b p).
Proof.
  eapply emitted_ok;
    [eapply emitted_trans;
      [eapply emitted_trans; [apply emits_name8 | apply emits_slots] | apply emitted_append]
    | unfold fmt_info; by rewrite app_assoc | unfold info_ok; apply andb_true_r].
Qed.

#[export] Hint Resolve emits_str8 emits_str16 emits_name8 emits_text16 emits_job emits_slots
  emits_status emits_count8 emits_chunk emits_headers : emitted.

Lemma emits_infos ps b : emitted b (flat_map fmt_info ps) (forallb info_ok ps) (fold_left b_info ps b).
Proof. apply emits_fold. intros; apply emits_info. Qed.
#[export] Hint Resolve emits_infos : emitted.

Lemma emits_message m b : emitted b (fmt_message m) (encodable m) (b_message m b).
Proof.
  destruct m; cbn [fmt_message encodable b_message]; rewrite ?app_assoc;
    repeat (eapply emitted_trans; [|solve [auto with emitted]]); auto with emitted.
Qed.

(** The encoder writes the format, and refuses what the format has no bytes for. *)
Lemma Encode_spec dst m :
  Encode dst m =
    if encodable m then (dst ++ encoding m, None)
    else (dst, b_err (b_message m (mkBuilder (dst ++ [byte_of (Kind m)]) None))).
Proof.
  unfold Encode.
  destruct (emits_message m (mkBuilder (dst ++ [byte_of (Kind m)]) None)) as [H _].
  specialize (H eq_refl). destruct (encodable m).
  - rewrite H. simpl. by rewrite <- app_assoc.
  - by destruct H as [e ->].
Qed.

Lemma Encode_refuses dst m :
  encodable m = false -> exists e, Encode dst m = (dst, Some e).
Proof.
  intros Hm. rewrite Encode_spec, Hm.
  destruct (emits_message m (mkBuilder (dst ++ [byte_of (Kind m)]) None)) as [H _].
  specialize (H eq_refl). rewrite Hm in H. destruct H as [e ->]. eauto.
Qed.
