(* ===== verification/DecodeField.v ===== *)
(** What it means for a decoder method to read a format: the class [Field],
    its laws for each method of the decoder, and the composition rule. *)

From S2P Require Import Prelude Bytes Io Message Encode Decode WireFormat.
Local Open Scope N_scope.
Local Open Scope dec_scope.

(** [prepend bs d] is [d] with the bytes [bs] still to come before its own. *)
Definition prepend (bs : list byte) (d : Decoder) : Decoder :=
  set_r (mkStream (bs ++ s_data (d_r d)) (s_end (d_r d))) d.

(** The one piece of state a method may change besides the stream. *)
Definition upd (h : bool) (d : Decoder) : Decoder := if h then set_gotHello d else d.

Lemma prepend_nil d : prepend [] d = d.
Proof. by destruct d as [[] ? ? ?]. Qed.

Lemma prepend_app a b d : prepend (a ++ b) d = prepend a (prepend b d).
Proof. destruct d as [[] ? ? ?]. unfold prepend, set_r. simpl. by rewrite app_assoc. Qed.

Lemma prepend_upd h bs d : prepend bs (upd h d) = upd h (prepend bs d).
Proof. by destruct h. Qed.

Lemma upd_orb a b d : upd b (upd a d) = upd (a || b) d.
Proof. by destruct a, b. Qed.

Lemma d_err_prepend bs d : d_err (prepend bs d) = d_err d.
Proof. done. Qed.

Lemma d_err_upd h d : d_err (upd h d) = d_err d.
Proof. by destruct h. Qed.

(** [Field h p R]: the method [p] reads a value [a] off the bytes [bs] exactly
    when [R a bs]; it refuses an input that ends inside them; and it does
    nothing once something was refused.  [h] says whether it records HELLO. *)
Class Field {A} (h : bool) (p : D A) (R : A -> list byte -> Prop) : Prop := {
  field_reads a bs d :
    R a bs -> d_err d = None -> p (prepend bs d) = (a, upd h d);
  field_accepts d a d' :
    p d = (a, d') -> d_err d' = None ->
    d_err d = None /\ exists bs d0, R a bs /\ d = prepend bs d0 /\ d' = upd h d0;
  field_truncated a bs1 bs2 d :
    R a (bs1 ++ bs2) -> bs2 <> [] -> d_err d = None -> d_r d = mkStream bs1 EOF ->
    d_err (p d).2 = Some (IOErr ErrUnexpectedEOF);
  field_sticky d e : d_err d = Some e -> d_err (p d).2 = Some e;
}.

Section Rules.
Context {A B : Type}.

Lemma field_weaken h (p : D A) (R R' : A -> list byte -> Prop) :
  Field h p R -> (forall a bs, R a bs <-> R' a bs) -> Field h p R'.
Proof.
  intros F E. split.
  - intros a bs d Ha%E. by apply F.
  - intros d a d' H1 H2. destruct (field_accepts d a d' H1 H2) as (? & bs & d0 & ?%E & ?).
    eauto 6.
  - intros a bs1 bs2 d Ha%E. by eapply field_truncated.
  - apply F.
Qed.

Lemma field_ret (a : A) : Field false (dret a) (fun x bs => x = a /\ bs = []).
Proof.
  split.
  - intros x bs d [-> ->] Hd. by rewrite prepend_nil.
  - intros d x d' [= <- <-] Hd. split; [done|]. exists [], d. by rewrite prepend_nil.
  - intros x bs1 bs2 d [_ H] Hne. by apply app_eq_nil in H as [_ ->].
  - done.
Qed.

(** The continuation need only be a field for the values [p] can read; for
    the others it must keep an earlier refusal. *)
Lemma field_bind_on h1 h2 (p : D A) (q : A -> D B) R1 R2 :
  Field h1 p R1 -> (forall a bs, R1 a bs -> Field h2 (q a) (R2 a)) ->
  (forall a d e, d_err d = Some e -> d_err (q a d).2 = Some e) ->
  Field (h1 || h2) (dbind p q)
    (fun b bs => exists a bs1 bs2, bs = bs1 ++ bs2 /\ R1 a bs1 /\ R2 a b bs2).
Proof.
  intros F G S. split.
  - intros b bs d (a & bs1 & bs2 & -> & H1 & H2) Hd. unfold dbind.
    rewrite prepend_app, (field_reads (p := p) a) by done. specialize (G a bs1 H1).
    rewrite <- prepend_upd, (field_reads (p := q a) b); [by rewrite upd_orb | done |].
    by rewrite d_err_upd.
  - intros d b d'' H Hd''. unfold dbind in H. destruct (p d) as [a d'] eqn:Hp.
    assert (d_err d' = None) as Hd'.
    { destruct (d_err d') as [e|] eqn:E; [|done].
      apply (S a) in E. rewrite H in E. simpl in E. congruence. }
    destruct (field_accepts d a _ Hp Hd') as (Hd & bs1 & d1 & H1 & -> & E).
    destruct (G a bs1 H1) as [_ GA _ _].
    destruct (GA d' b d'' H Hd'') as (_ & bs2 & d0 & H2 & -> & ->).
    split; [done|]. exists (bs1 ++ bs2), (prepend [] (mkDecoder (d_r d0) (d_role d1) (d_gotHello d1) (d_err d1))).
    destruct d0 as [[] ? ? ?], d1 as [[] ? ? ?], h1; unfold upd, prepend, set_gotHello, set_r in *;
      simpl in *; inv E; (split; [by eauto 7 | split; [by rewrite app_assoc | by destruct h2]]).
  - intros b bs1 bs2 d (a & x1 & x2 & E & H1 & H2) Hne Hd Hs. unfold dbind.
    destruct (decide (length bs1 < length x1)%nat) as [Hlt|Hge].
    + assert (exists z, x1 = bs1 ++ z /\ z <> []) as (z & -> & Hz).
      { exists (drop (length bs1) x1).
        assert (take (length bs1) x1 = bs1) as Et.
        { apply (f_equal (take (length bs1))) in E.
          rewrite take_app_length, take_app_le in E by lia. done. }
        split; [by rewrite <- Et at 1; rewrite take_drop|].
        intros Hn%(f_equal length). rewrite length_drop in Hn. simpl in Hn. lia. }
      pose proof (field_truncated a bs1 z d H1 Hz Hd Hs) as Ht.
      destruct (p d) as [a' d'] eqn:Hp. by apply S.
    + assert (exists z, bs1 = x1 ++ z /\ x2 = z ++ bs2) as (z & -> & ->).
      { exists (drop (length x1) bs1).
        assert (take (length x1) bs1 = x1) as Et.
        { apply (f_equal (take (length x1))) in E.
          rewrite take_app_length, take_app_le in E by lia. done. }
        split; [by rewrite <- Et at 1; rewrite take_drop|].
        apply (f_equal (drop (length x1))) in E.
        rewrite drop_app_length, drop_app_le in E by lia. done. }
      replace d with (prepend x1 (set_r (mkStream z EOF) d))
        by (destruct d as [[] ? ? ?]; unfold prepend, set_r; simpl in *; by inv Hs).
      rewrite (field_reads (p := p) a) by done. destruct (G a x1 H1) as [_ _ GT _]. eapply GT; try done.
      * by rewrite d_err_upd.
      * by destruct h1.
  - intros d e Hd. unfold dbind. pose proof (field_sticky (p := p) d e Hd) as Hs.
    destruct (p d) as [a d']. by apply S.
Qed.

Lemma field_bind h1 h2 (p : D A) (q : A -> D B) R1 R2 :
  Field h1 p R1 -> (forall a, Field h2 (q a) (R2 a)) ->
  Field (h1 || h2) (dbind p q)
    (fun b bs => exists a bs1 bs2, bs = bs1 ++ bs2 /\ R1 a bs1 /\ R2 a b bs2).
Proof. intros F G. apply field_bind_on; [done | by intros | intros a; apply G]. Qed.

Lemma field_seq h (p : D A) (q : A -> D B) R1 R2 :
  Field false p R1 -> (forall a, Field h (q a) (R2 a)) ->
  Field h (dbind p q)
    (fun b bs => exists a bs1 bs2, bs = bs1 ++ bs2 /\ R1 a bs1 /\ R2 a b bs2).
Proof. apply (field_bind false h). Qed.

Lemma field_guard h (dflt : A) p R : Field h p R -> Field h (dguard dflt p) R.
Proof.
  intros F. split; unfold dguard.
  - intros a bs d H Hd. rewrite d_err_prepend, Hd. by apply F.
  - intros d a d'. destruct (d_err d) eqn:E; [intros [= -> ->]; congruence|].
    intros H1 H2. by destruct (field_accepts d a d' H1 H2).
  - intros a bs1 bs2 d H Hn Hd Hs. rewrite Hd. by eapply field_truncated.
  - intros d e E. by rewrite E.
Qed.

Lemma field_refuse bad e (dflt v : A) :
  Field false (drefuse bad e dflt v) (fun x bs => x = v /\ bs = [] /\ bad = false).
Proof.
  split; unfold drefuse.
  - intros a bs d (-> & -> & ->) Hd. by rewrite prepend_nil, Hd.
  - intros d a d'. destruct (d_err d) eqn:E; [intros [= _ <-]; congruence|].
    destruct bad; intros [= <- <-] Hd'; [done|]. split; [done|].
    exists [], d. by rewrite prepend_nil.
  - intros a bs1 bs2 d (_ & H & _) Hne. by apply app_eq_nil in H as [_ ->].
  - intros d e' E. by rewrite E.
Qed.

Lemma field_if (c : bool) h (p q : D A) R1 R2 :
  Field h p R1 -> Field h q R2 ->
  Field h (if c then p else q) (fun a bs => if c then R1 a bs else R2 a bs).
Proof. by destruct c. Qed.

Lemma field_never h e (x : A) : Field h (get _ := d_fail e in dret x) (fun _ _ => False).
Proof.
  split; try done; unfold dbind, d_fail, dret.
  - intros d a d'. destruct (d_err d) eqn:E; intros [= _ <-]; simpl; congruence.
  - intros d e' E. by rewrite E.
Qed.
End Rules.

Lemma field_setHello : Field true d_setHello (fun _ bs => bs = []).
Proof.
  split.
  - intros [] bs d -> Hd. by rewrite prepend_nil.
  - intros d [] d' [= <-] Hd. split; [done|]. exists [], d. by rewrite prepend_nil.
  - intros x bs1 bs2 d H Hne. by apply app_eq_nil in H as [_ ->].
  - done.
Qed.

(** ** The reads *)
Lemma field_read n :
  Field false (d_read n) (fun x bs => x = Some bs /\ length bs = n).
Proof.
  split; unfold d_read.
  - intros a bs d [-> Hl] Hd. rewrite d_err_prepend, Hd. unfold prepend at 1. simpl.
    rewrite ReadFull_app by done. by destruct d as [[] ? ? ?].
  - intros d a d'. destruct (d_err d) eqn:E; [intros [= <- <-]; congruence|].
    unfold ReadFull. destruct (Nat.leb_spec n (length (s_data (d_r d)))) as [Hle|Hgt].
    + intros [= <- <-] Hd'. split; [done|].
      exists (take n (s_data (d_r d))), (set_r (mkStream (drop n (s_data (d_r d))) (s_end (d_r d))) d).
      split; [split; [done|]; rewrite length_take; lia|].
      split; [|done]. destruct d as [[] ? ? ?]. unfold prepend, set_r. simpl. by rewrite take_drop.
    + by intros [= _ <-].
  - intros a bs1 bs2 d [_ Hl] Hne Hd Hs. rewrite Hd, Hs. unfold ReadFull. simpl.
    rewrite length_app in Hl. assert (0 < length bs2)%nat by (destruct bs2; [done | simpl; lia]).
    destruct (Nat.leb_spec n (length bs1)); [lia|]. simpl. by destruct bs1.
  - intros d e E. by rewrite E.
Qed.

Lemma field_uint n :
  Field false (d_uint n) (fun v bs => bs = put_le n v /\ v < width n).
Proof.
  eapply field_weaken; [eapply field_seq; [apply field_read | intros; apply field_ret]|].
  intros v bs. split.
  - intros (x & b1 & b2 & -> & [-> Hl] & -> & ->). rewrite app_nil_r, put_get_le' by done.
    split; [done|]. rewrite <- Hl. apply get_le_bound.
  - intros [-> Hv]. exists (Some (put_le n v)), (put_le n v), [].
    rewrite app_nil_r, length_put_le, get_put_le by done. done.
Qed.

Lemma field_bytes n : Field false (d_bytes n) (fun x bs => x = bs /\ len bs = n).
Proof.
  apply (field_weaken _ _ (fun a bs => if n =? 0 then a = [] /\ bs = [] else
    exists buf b1 b2, bs = b1 ++ b2 /\ (buf = Some b1 /\ length b1 = N.to_nat n) /\
      a = (match buf with Some bs => bs | None => [] end) /\ b2 = [])).
  - apply field_guard, field_if; [apply field_ret|]. apply field_seq; [apply field_read | intros; apply field_ret].
  - intros a bs. destruct (N.eqb_spec n 0) as [->|Hn].
    + rewrite len_0. intuition congruence.
    + split.
      * intros (buf & b1 & b2 & -> & [-> Hl] & -> & ->). rewrite app_nil_r. unfold len. split; [done | lia].
      * intros [-> Hl]. exists (Some bs), bs, []. rewrite app_nil_r. unfold len in Hl. repeat split; lia.
Qed.
