(* ===== verification/DecodeFacts.v ===== *)
(** Every method of the decoder reads its format, up to whole messages. *)

From S2P Require Import Prelude Bytes Io Message Encode Decode WireFormat DecodeField.
Local Open Scope N_scope.
Local Open Scope dec_scope.

(** [reads_as ok fmt] is the relation of a field that carries the values [ok]
    accepts in the format [fmt]. *)
Definition reads_as {A} (ok : A -> Prop) (fmt : A -> list byte) (a : A) (bs : list byte) : Prop :=
  ok a /\ bs = fmt a.

(** Unpack the relation [field_seq] builds. *)
Ltac unseq :=
  repeat match goal with
    | H : exists _, _ |- _ => destruct H
    | H : _ /\ _ |- _ => destruct H
    | H : reads_as _ _ _ _ |- _ => destruct H
    end; subst.

Lemma width_1 : width 1 = 256. Proof. reflexivity. Qed.
Lemma width_2 : width 2 = 65536. Proof. reflexivity. Qed.
Lemma width_4 : width 4 = 4294967296. Proof. reflexivity. Qed.

Section Strings.
Lemma field_str n :
  Field false (get k := d_uint n in get bs := d_bytes k in dret (string_of bs))
    (reads_as (fun s => slen s < width n) (fun s => put_le n (slen s) ++ bytes_of s)).
Proof.
  eapply field_weaken.
  - eapply field_seq; [apply field_uint|]. intros k.
    eapply field_seq; [apply field_bytes|]. intros bs. apply field_ret.
  - intros s bs. unfold reads_as. split.
    + intros. unseq. unfold slen. rewrite bytes_of_string_of, app_nil_r. done.
    + intros [Hs ->]. eexists _, _, _. split; [reflexivity|]. split; [done|].
      exists (bytes_of s), (bytes_of s), []. rewrite app_nil_r, string_of_bytes_of. done.
Qed.

Lemma field_str8 : Field false d_str8 (reads_as (fun s => str8_ok s = true) fmt_str8).
Proof.
  eapply field_weaken; [apply field_str|]. intros s bs. unfold reads_as, str8_ok, fmt_str8.
  rewrite width_1. intuition lia.
Qed.

Lemma field_str16 : Field false d_str16 (reads_as (fun s => str16_ok s = true) fmt_str16).
Proof.
  eapply field_weaken; [apply field_str|]. intros s bs. unfold reads_as, str16_ok, fmt_str16.
  rewrite width_2. intuition lia.
Qed.
End Strings.

(** A method that reads a value and then refuses some of them. *)
Lemma field_checked {A} (p : D A) (ok : A -> Prop) fmt (bad : A -> bool) (e : A -> wire_error) dflt :
  Field false p (reads_as ok fmt) ->
  Field false (get v := p in drefuse (bad v) (e v) dflt v)
    (reads_as (fun v => ok v /\ bad v = false) fmt).
Proof.
  intros F. eapply field_weaken; [eapply field_seq; [apply F | intros; apply field_refuse]|].
  intros v bs. unfold reads_as. split.
  - intros. unseq. by rewrite app_nil_r.
  - intros [[H1 H2] ->]. exists v, (fmt v), []. by rewrite app_nil_r.
Qed.

(** Rephrase what a checked method accepts. *)
Lemma reads_as_iff {A} h (p : D A) (ok ok' : A -> Prop) fmt :
  Field h p (reads_as ok fmt) -> (forall a, ok a <-> ok' a) -> Field h p (reads_as ok' fmt).
Proof.
  intros F E. eapply field_weaken; [apply F|]. intros a bs. unfold reads_as. by rewrite E.
Qed.

Lemma field_uint' n : Field false (d_uint n) (reads_as (fun v => v < width n) (put_le n)).
Proof. eapply field_weaken; [apply field_uint|]. intros v bs. unfold reads_as. tauto. Qed.

Lemma field_name8 what : Field false (d_name8 what) (reads_as (fun s => name8_ok s = true) fmt_str8).
Proof.
  eapply reads_as_iff; [apply (field_checked d_str8), field_str8|].
  intros s. unfold name8_ok. destruct (ValidString s); simpl; intuition congruence.
Qed.

Lemma field_text16 what : Field false (d_text16 what) (reads_as (fun s => text16_ok s = true) fmt_str16).
Proof.
  eapply reads_as_iff; [apply (field_checked d_str16), field_str16|].
  intros s. unfold text16_ok. destruct (ValidString s); simpl; intuition congruence.
Qed.

Lemma field_job : Field false d_job (reads_as (fun j => j < width 8 /\ job_ok j = true) (put_le 8)).
Proof.
  eapply reads_as_iff; [apply (field_checked d_u64), field_uint'|].
  intros j. unfold job_ok. destruct (j =? 0); simpl; intuition congruence.
Qed.

Lemma field_slots : Field false d_slots (reads_as (fun n => n < width 2 /\ (1 <=? n) = true) (put_le 2)).
Proof.
  eapply reads_as_iff; [eapply (field_checked d_u16 (fun v => v < width 2) (put_le 2) (fun n => n <? 1)), field_uint'|].
  intros n. intuition lia.
Qed.

Lemma field_status : Field false d_status (reads_as (fun s => s < width 2 /\ status_ok s = true) (put_le 2)).
Proof.
  eapply reads_as_iff; [apply (field_checked d_u16), field_uint'|].
  intros s. cbv beta. unfold status_ok. intuition lia.
Qed.

Lemma field_chunk : Field false d_chunk (reads_as (fun p => chunk_ok p = true) fmt_chunk).
Proof.
  eapply field_weaken.
  - eapply field_seq; [apply field_uint|]. intros n. apply field_guard.
    apply (field_if (n <? 1)); [apply field_never | apply field_bytes].
  - intros p bs. unfold reads_as, chunk_ok, fmt_chunk, MaxUint32. rewrite width_4. split.
    + intros (n & b1 & b2 & -> & [-> Hn] & H). destruct (n <? 1) eqn:E; [done|].
      destruct H as [-> <-]. split; [lia | done].
    + intros [Hp ->]. exists (len p), (put_le 4 (len p)), p. split; [done|]. split; [split; [done | lia]|].
      destruct (len p <? 1) eqn:E; [lia | done].
Qed.

(** ** Counted items *)
Lemma field_header_loop n acc :
  Field false (d_headers_loop n acc)
    (fun hs bs => exists new, hs = acc ++ new /\ length new = n /\
       forallb header_ok new = true /\ bs = flat_map fmt_header new).
Proof.
  revert acc. induction n as [|n IH]; intros acc; cbn [d_headers_loop].
  - eapply field_weaken; [apply field_ret|]. intros hs bs. split.
    + intros [-> ->]. exists []. by rewrite app_nil_r.
    + intros (new & -> & Hl & _ & ->). destruct new; [|done]. by rewrite app_nil_r.
  - eapply field_weaken.
    + eapply field_seq; [apply field_str8|]. intros name.
      eapply field_seq; [apply field_str16|]. intros value. apply field_guard, IH.
    + intros hs bs. split.
      * intros. unseq. eexists (_ :: _). rewrite <- app_assoc. split; [reflexivity|].
        cbn [length forallb flat_map]. unfold header_ok, fmt_header. simpl. rewrite <- app_assoc.
        repeat match goal with H : _ = true |- _ => rewrite H end. split; [congruence | done].
      * intros (new & -> & Hl & Hok & ->). destruct new as [|[name value] new]; [done|].
        cbn [length forallb flat_map] in *. apply andb_prop in Hok as [[Hn Hv]%andb_prop Hok].
        unfold fmt_header at 1. cbn [header_Name header_Value] in *. rewrite <- app_assoc.
        exists name, (fmt_str8 name), (fmt_str16 value ++ flat_map fmt_header new).
        split; [done|]. split; [done|]. exists value, (fmt_str16 value), (flat_map fmt_header new).
        split; [done|]. split; [done|]. exists new. rewrite <- app_assoc. auto.
Qed.

Lemma field_headers : Field false d_headers (reads_as (fun hs => headers_ok hs = true) fmt_headers).
Proof.
  eapply field_weaken.
  - eapply field_seq; [apply field_uint|]. intros n. apply field_guard.
    apply (field_if (n =? 0)); [apply field_ret | apply field_header_loop].
  - intros hs bs. unfold reads_as, headers_ok, fmt_headers. rewrite width_2. split.
    + intros (n & b1 & b2 & -> & [-> Hn] & H). destruct (n =? 0) eqn:E.
      * destruct H as [-> ->]. apply N.eqb_eq in E as ->. done.
      * destruct H as (new & -> & Hl & Hok & ->). simpl.
        assert (len new = n) as -> by (unfold len; lia). split; [|done].
        rewrite Hok. lia.
    + intros [[Hl Hok]%andb_prop ->]. exists (len hs), (put_le 2 (len hs)), (flat_map fmt_header hs).
      split; [done|]. split; [split; [done | lia]|]. destruct (len hs =? 0) eqn:E.
      * apply N.eqb_eq, len_0 in E as ->. done.
      * exists hs. rewrite len_to_nat. done.
Qed.

Definition info_typed_ok (p : ProviderInfo) : Prop := typed_info p /\ info_ok p = true.

Lemma field_info_loop n acc :
  Field false (d_infos_loop n acc)
    (fun r bs => exists new, r = Some (acc ++ new) /\ length new = n /\
       Forall info_typed_ok new /\ bs = flat_map fmt_info new).
Proof.
  revert acc. induction n as [|n IH]; intros acc; cbn [d_infos_loop].
  - eapply field_weaken; [apply field_ret|]. intros r bs. split.
    + intros [-> ->]. exists []. by rewrite app_nil_r.
    + intros (new & -> & Hl & _ & ->). destruct new; [|done]. by rewrite app_nil_r.
  - eapply field_weaken.
    + eapply field_seq; [apply field_name8|]. intros service.
      eapply field_seq; [apply field_slots|]. intros slots.
      eapply field_seq; [apply field_uint'|]. intros priority. apply field_guard, IH.
    + intros r bs. split.
      * intros. unseq. eexists (_ :: _). rewrite <- app_assoc. split; [reflexivity|].
        cbn [length flat_map]. unfold fmt_info at 2. simpl. rewrite <- !app_assoc.
        split; [congruence|]. split; [|done]. constructor; [|done].
        unfold info_typed_ok, typed_info, info_ok. simpl.
        repeat match goal with H : _ = true |- _ => rewrite H end. done.
      * intros (new & -> & Hl & Hok & ->). destruct new as [|[service slots priority] new]; [done|].
        apply Forall_cons in Hok as [[[Hs Hp] [Hn H1]%andb_prop] Hok].
        cbn [length flat_map] in *. unfold fmt_info at 1.
        cbn [info_Service info_MaxConcurrent info_Priority] in *. rewrite <- !app_assoc.
        eexists service, _, _. split; [reflexivity|]. split; [done|].
        eexists slots, _, _. split; [reflexivity|]. split; [done|].
        eexists priority, _, _. split; [reflexivity|]. split; [done|].
        exists new. rewrite <- app_assoc. auto.
Qed.
