(* ===== verification/Codec.v ===== *)
(** The wire codec as a whole: [Encode] and [Decoder.Next] are inverse on
    exactly the well-formed messages, a cut input is told from a finished
    one, a refusal is final, and a session written by one side's encoder is
    the session the other side's decoder reads. *)

From S2P Require Import Prelude Bytes Io Message Encode Decode WireFormat DecodeField DecodeFacts.
Local Open Scope N_scope.
Local Open Scope dec_scope.

(** ** Fields of whole messages *)
Definition is_hello (m : Message) : bool := Kind m =? KindHello.

Definition well_formed (m : Message) : Prop := typed_message m /\ encodable m = true.

Definition message_rel (k : N) (r : option Message) (bs : list byte) : Prop :=
  exists m, r = Some m /\ Kind m = k /\ well_formed m /\ bs = fmt_message m.

(** Goals [Field false p (message_rel k)]: sequence the fields, then compare. *)
Ltac rewrite_trues :=
  repeat match goal with H : _ = true |- _ => rewrite H end.
Ltac message_forward :=
  intros; unseq; eexists; split; [reflexivity|]; unfold well_formed; simpl;
  rewrite_trues; rewrite ?app_nil_r; by repeat split.
Ltac split_oks :=
  repeat match goal with H : _ && _ = true |- _ => apply andb_prop in H as [? ?] end.
Ltac message_backward :=
  let m := fresh "m" in
  intros (m & -> & Hk & [? ?] & ->);
  destruct m as [[]| | |[]|[]|[]|[]|[]|[]]; try discriminate Hk; clear Hk;
  cbn [fmt_message typed_message encodable
       req_Job req_Service req_Method req_Target req_Headers
       resp_Job resp_Status resp_Headers body_Job body_Bytes end_Job end_Trailers
       cancel_Job fail_Job fail_Reason] in *; unseq; split_oks;
  unfold reads_as;
  repeat (lazymatch goal with
    | |- exists a b c, ?x ++ ?y = b ++ c /\ _ => eexists _, x, y
    | |- exists a b c, ?x = b ++ c /\ _ => eexists _, x, []; rewrite app_nil_r
    end; split; [reflexivity|]; split; [split; [|reflexivity]; by repeat split|]);
  by split.

Lemma field_request : Field false d_request (message_rel KindRequest).
Proof.
  eapply field_weaken.
  - do 5 (eapply field_seq; [first [apply field_job | apply field_name8 | apply field_str8
      | apply field_str16 | apply field_headers]|]; intros ?). apply field_ret.
  - intros r bs. split; [message_forward | message_backward].
Qed.

Lemma field_response : Field false d_response (message_rel KindResponse).
Proof.
  eapply field_weaken.
  - do 3 (eapply field_seq; [first [apply field_job | apply field_status | apply field_headers]|];
      intros ?). apply field_ret.
  - intros r bs. split; [message_forward | message_backward].
Qed.

Lemma field_body : Field false d_body (message_rel KindBody).
Proof.
  eapply field_weaken.
  - do 2 (eapply field_seq; [first [apply field_job | apply field_chunk]|]; intros ?). apply field_ret.
  - intros r bs. split; [message_forward | message_backward].
Qed.

Lemma field_end : Field false d_end (message_rel KindEnd).
Proof.
  eapply field_weaken.
  - do 2 (eapply field_seq; [first [apply field_job | apply field_headers]|]; intros ?). apply field_ret.
  - intros r bs. split; [message_forward | message_backward].
Qed.

Lemma field_cancel : Field false d_cancel (message_rel KindCancel).
Proof.
  eapply field_weaken; [eapply field_seq; [apply field_job|]; intros ?; apply field_ret|].
  intros r bs. split; [message_forward | message_backward].
Qed.

Lemma field_failmsg : Field false d_failmsg (message_rel KindFail).
Proof.
  eapply field_weaken.
  - do 2 (eapply field_seq; [first [apply field_job | apply field_text16]|]; intros ?). apply field_ret.
  - intros r bs. split; [message_forward | message_backward].
Qed.

Lemma field_plain m :
  fmt_message m = [] -> well_formed m -> (forall m', Kind m' = Kind m -> m' = m) ->
  Field false (dret (Some m)) (message_rel (Kind m)).
Proof.
  intros E Hm Hu. eapply field_weaken; [apply field_ret|]. intros r bs. split.
  - intros [-> ->]. by exists m.
  - intros (m' & -> & Hk%Hu & _ & ->). by subst.
Qed.

Lemma field_hello : Field true d_hello_fields (message_rel KindHello).
Proof.
  eapply field_weaken.
  - eapply field_seq; [apply field_name8|]. intros name.
    eapply field_seq; [apply field_uint'|]. intros n. apply field_guard.
    apply (field_if (n =? 0)).
    + eapply (field_bind true false); [apply field_setHello | intros; apply field_ret].
    + eapply (field_bind_on false true); [apply field_info_loop | |].
      * intros ps bs (new & -> & _). instantiate (1 := fun ps b bs =>
          b = (match ps with Some ps => Some (MHello (mkHello name ps)) | None => None end) /\ bs = []).
        eapply field_weaken;
          [eapply (field_bind true false); [apply field_setHello | intros; apply field_ret]|].
        intros b bs'. split; [intros; by unseq | intros [-> ->]; by eexists tt, [], []].
      * intros [ps|] d e E; by simpl.
  - intros r bs. split.
    + intros (name & b1 & b2 & -> & [Hn ->] & n & b3 & b4 & -> & [Hw ->] & H).
      rewrite width_1 in Hw. destruct (N.eqb_spec n 0) as [->|Hne]; unseq.
      * eexists. split; [done|]. unfold well_formed. simpl. rewrite Hn. by repeat split.
      * match goal with H : Forall _ ?l |- _ => rename l into ps; apply Forall_and in H as [HT HO] end.
        eexists. split; [done|]. unfold well_formed. simpl.
        assert (len ps = n) as <- by (unfold len; lia). rewrite Hn, app_nil_r.
        split; [done|]. split; [|done]. split; [done|].
        replace (len ps <=? 255) with true by lia. simpl. apply forallb_forall.
        intros p Hp. rewrite Forall_forall in HO. by apply HO, list_elem_of_In.
    + intros (m & -> & Hk & [HT HO] & ->). destruct m as [[name ps]| | | | | | | |]; try done.
      simpl in *. apply andb_prop in HO as [[Hn Hl]%andb_prop HO].
      exists name, (fmt_str8 name), (put_le 1 (len ps) ++ flat_map fmt_info ps).
      split; [done|]. split; [done|].
      exists (len ps), (put_le 1 (len ps)), (flat_map fmt_info ps). rewrite width_1.
      split; [done|]. split; [split; [lia | done]|].
      destruct (N.eqb_spec (len ps) 0) as [->%len_0|Hne]; [by eexists tt, [], []|].
      exists (Some ps), (flat_map fmt_info ps), []. rewrite app_nil_r. split; [done|]. split; [|done].
      exists ps. rewrite len_to_nat. split_and!; [done..| |done].
      apply Forall_and. split; [done|]. apply Forall_forall. intros p Hp.
      rewrite forallb_forall in HO. by apply HO, list_elem_of_In.
Qed.

(** The reader of a kind, once the order of HELLO has been settled: [d_hello]
    past its guards is [d_hello_fields]. *)
Definition past_order (k : N) : option (D (option Message)) :=
  if k =? KindHello then Some d_hello_fields else d_fields k.

Lemma past_order_field k p :
  past_order k = Some p -> Field (k =? KindHello) p (message_rel k).
Proof.
  unfold past_order. destruct (N.eqb_spec k KindHello) as [->|Hh].
  - intros [= <-]. apply field_hello.
  - unfold d_fields. rewrite (proj2 (N.eqb_neq _ _) Hh).
    repeat (match goal with |- context [k =? ?c] => destruct (N.eqb_spec k c) as [->|_] end;
      [intros [= <-]; first
        [ apply (field_plain MPing); [done..|]; intros []; done
        | apply (field_plain MPong); [done..|]; intros []; done
        | apply field_request | apply field_response | apply field_body
        | apply field_end | apply field_cancel | apply field_failmsg ]|]).
    done.
Qed.

Lemma past_order_Kind m : is_Some (past_order (Kind m)).
Proof. destruct m; eexists; reflexivity. Qed.

(** Which messages the order of HELLO lets a decoder take now. *)
Definition allowed (role : Role) (gotHello : bool) (m : Message) : bool :=
  match role with
  | RoleServer => Bool.eqb gotHello (negb (is_hello m))
  | RoleClient => negb (is_hello m)
  end.

(** The order guards of [d_message] and [d_hello] together. *)
Lemma d_message_spec k d :
  d_err d = None ->
  d_message k d =
    match past_order k with
    | None => if bool_decide (d_role d = RoleServer) && negb (d_gotHello d)
              then ((None, Some (BeforeHello k)), d) else ((None, Some (UnknownKind k)), d)
    | Some p =>
        let ok := match d_role d with
                  | RoleServer => Bool.eqb (d_gotHello d) (negb (k =? KindHello))
                  | RoleClient => negb (k =? KindHello)
                  end in
        if ok then
          let '(m, d') := p d in
          match d_err d' with
          | Some e => ((None, Some e), d')
          | None => ((m, None), d')
          end
        else if k =? KindHello then
          let e := if bool_decide (d_role d = RoleClient) then ServerSaysHello else HelloTwice in
          ((None, Some e), set_err e d)
        else ((None, Some (BeforeHello k)), d)
    end.
Proof.
  intros Hd. unfold d_message, past_order.
  destruct (N.eqb_spec k KindHello) as [->|Hk]; simpl.
  - rewrite andb_false_r. unfold d_hello, dbind, d_fail, dret.
    destruct (d_role d), (d_gotHello d) eqn:G; simpl; rewrite ?Hd; try done.
  - rewrite andb_true_r.
    destruct (d_role d), (d_gotHello d), (d_fields k); simpl; try done.
Qed.

Lemma byte_val_Kind m : byte_val (byte_of (Kind m)) = Kind m.
Proof. rewrite byte_val_of. apply N.mod_small. by destruct m. Qed.

(** ** The decoder reads what the encoder writes *)
Lemma Next_reads m d :
  well_formed m -> allowed (d_role d) (d_gotHello d) m = true -> d_err d = None ->
  Decoder_Next (prepend (encoding m) d) = ((Some m, None), upd (is_hello m) d).
Proof.
  intros Hm Ha Hd. unfold Decoder_Next. rewrite d_err_prepend, Hd.
  unfold prepend, encoding. simpl. rewrite byte_val_Kind.
  change (set_r _ (set_r _ d)) with (prepend (fmt_message m) d).
  rewrite d_message_spec by done. destruct (past_order_Kind m) as [p Hp]. rewrite Hp.
  cbn zeta. fold (allowed (d_role d) (d_gotHello d) m).
  change (d_role (prepend _ d)) with (d_role d). change (d_gotHello (prepend _ d)) with (d_gotHello d).
  unfold allowed, is_hello in Ha. rewrite Ha. apply past_order_field in Hp.
  rewrite (field_reads (p := p) (Some m)) by (done || by exists m).
  by rewrite d_err_upd, Hd.
Qed.

Lemma Next_accepts d m d' :
  Decoder_Next d = ((Some m, None), d') ->
  d_err d = None /\ well_formed m /\ allowed (d_role d) (d_gotHello d) m = true /\
  exists d0, d = prepend (encoding m) d0 /\ d' = upd (is_hello m) d0.
Proof.
  unfold Decoder_Next. destruct (d_err d) eqn:Hd; [done|].
  destruct d as [[data fin] role got err]. simpl in *. subst err.
  destruct data as [|b data]; [done|]. simpl. unfold set_r. simpl.
  rewrite d_message_spec by done. simpl.
  destruct (past_order (byte_val b)) as [p|] eqn:Hp; [|by destruct (_ && _)].
  apply past_order_field in Hp. intros H.
  destruct (match role with RoleServer => _ | RoleClient => _ end) eqn:Hok;
    [|by destruct (byte_val b =? KindHello)].
  destruct (p _) as [r d1] eqn:Er. destruct (d_err d1) eqn:Hd1; [done|].
  injection H as -> <-.
  destruct (field_accepts _ _ _ Er Hd1) as (_ & bs & d0 & (m' & [= <-] & Hk & Hm & ->) & E & ->).
  split; [done|]. split; [done|]. split.
  { unfold allowed, is_hello. by rewrite Hk. }
  exists d0. unfold is_hello. rewrite Hk. split; [|done].
  destruct d0 as [[] ? ? ?]. unfold prepend, set_r, encoding in *. simpl in *. inv E.
  by rewrite Hk, byte_of_val.
Qed.

(** ** Inputs that end early *)
Lemma Next_truncated m d pre post :
  encoding m = pre ++ post -> pre <> [] -> post <> [] ->
  well_formed m -> allowed (d_role d) (d_gotHello d) m = true -> d_err d = None ->
  d_r d = mkStream pre EOF ->
  (Decoder_Next d).1 = (None, Some (IOErr ErrUnexpectedEOF)).
Proof.
  intros E Hpre Hpost Hm Ha Hd Hs. unfold Decoder_Next. rewrite Hd, Hs.
  destruct pre as [|b pre]; [done|]. simpl in E. injection E as <- E.
  cbn [ReadByte s_data s_end]. rewrite byte_val_Kind, d_message_spec by done.
  destruct (past_order_Kind m) as [p Hp]. rewrite Hp. cbn zeta.
  change (d_role (set_r _ d)) with (d_role d). change (d_gotHello (set_r _ d)) with (d_gotHello d).
  unfold allowed, is_hello in Ha. rewrite Ha. apply past_order_field in Hp.
  assert (d_err (p (set_r (mkStream pre EOF) d)).2 = Some (IOErr ErrUnexpectedEOF)) as Ht.
  { eapply field_truncated; [|exact Hpost|done|done]. exists m. by rewrite <- E. }
  destruct (p _) as [r d1]. simpl in Ht. by rewrite Ht.
Qed.

(** ** Whole sessions

    [Write_all] is a writer that stops at the first refusal; [Next_all] is the
    read loop, which ends with the first error [Next] returns.  Every message
    takes at least its kind byte off the stream, so the stream's length bounds
    the loop. *)
Fixpoint Write_all {W} `{Writer W} (e : Encoder W) (ms : list Message)
    : Encoder W * option wire_error :=
  match ms with
  | [] => (e, None)
  | m :: ms =>
      match Encoder_Write e m with
      | (e', None) => Write_all e' ms
      | (e', Some err) => (e', Some err)
      end
  end.

Fixpoint Next_loop (fuel : nat) (d : Decoder) : list Message * option wire_error :=
  match fuel with
  | O => ([], None)
  | S fuel =>
      match Decoder_Next d with
      | ((_, Some e), _) => ([], Some e)
      | ((None, None), _) => ([], None)
      | ((Some m, None), d') => let '(ms, e) := Next_loop fuel d' in (m :: ms, e)
      end
  end.

Definition Next_all (d : Decoder) : list Message * option wire_error :=
  Next_loop (S (length (s_data (d_r d)))) d.

Lemma helloOrder_allowed {W} (e : Encoder W) m :
  helloOrder e m = None <-> allowed (other_side (e_role e)) (e_sentHello e) m = true.
Proof.
  unfold helloOrder, allowed, is_hello.
  destruct (e_role e), (e_sentHello e), (Kind m =? KindHello); simpl; done.
Qed.

Lemma Encoder_Write_Ok {W} `{Writer W} (e : Encoder W) m e' :
  Encoder_Write e m = (e', None) ->
  encodable m = true /\ allowed (other_side (e_role e)) (e_sentHello e) m = true /\
  exists w, write (e_w e) (encoding m) = (w, None) /\
    e' = mkEncoder w (e_role e) (e_sentHello e || is_hello m).
Proof.
  unfold Encoder_Write. destruct (helloOrder e m) eqn:Ho; [done|].
  apply helloOrder_allowed in Ho. destruct (encodable m) eqn:Hm.
  - rewrite Encode_spec, Hm. simpl. destruct (write (e_w e) (encoding m)) as [w [?|]]; [done|].
    intros [= <-]. eauto.
  - by destruct (Encode_refuses [] m Hm) as [err ->].
Qed.

(** The messages a decoder may read one after the other. *)
Fixpoint allowed_all (role : Role) (gotHello : bool) (ms : list Message) : bool :=
  match ms with
  | [] => true
  | m :: ms => encodable m && allowed role gotHello m && allowed_all role (gotHello || is_hello m) ms
  end.

(** What a writer carried after a session without a refusal: the encodings of
    its messages. *)
Lemma Write_all_carried {W} `{Writer W} `{!Carrier carries} ms (e e' : Encoder W) p :
  carries (e_w e) p -> Write_all e ms = (e', None) ->
  carries (e_w e') (p ++ concat (map encoding ms)) /\
  allowed_all (other_side (e_role e)) (e_sentHello e) ms = true.
Proof.
  revert e p. induction ms as [|m ms IH]; intros e p Hp HW; cbn [Write_all] in HW.
  - injection HW as <-. simpl. by rewrite app_nil_r.
  - destruct (Encoder_Write e m) as [e1 [?|]] eqn:E1; [done|].
    apply Encoder_Write_Ok in E1 as (Hok & Ha & w & Hw & ->).
    specialize (IH _ (p ++ encoding m) (carry _ _ _ _ Hp Hw) HW).
    cbn [map concat]. cbn [e_role e_sentHello] in IH. rewrite app_assoc. destruct IH as [? Hall].
    split; [done|]. cbn [allowed_all]. by rewrite Hok, Ha.
Qed.

Lemma length_encoding m : (1 <= length (encoding m))%nat.
Proof. simpl. lia. Qed.

Lemma Next_loop_end fuel d e :
  d_err d = None -> d_r d = mkStream [] e -> (0 < fuel)%nat -> Next_loop fuel d = ([], Some (IOErr e)).
Proof.
  intros Hd Hr ?. destruct fuel; [lia|]. simpl. unfold Decoder_Next. by rewrite Hd, Hr.
Qed.

(** Reading such a session back. *)
Lemma Next_loop_all ms role got fin fuel :
  Forall typed_message ms -> allowed_all role got ms = true ->
  (length (concat (map encoding ms)) < fuel)%nat ->
  Next_loop fuel (mkDecoder (mkStream (concat (map encoding ms)) fin) role got None)
    = (ms, Some (IOErr fin)).
Proof.
  revert got fuel. induction ms as [|m ms IH]; intros got fuel HT Ha Hf.
  - apply Next_loop_end; [done..|]. simpl in Hf. lia.
  - apply Forall_cons in HT as [Hm HT]. cbn [allowed_all] in Ha.
    apply andb_prop in Ha as [[Hok Ha]%andb_prop Hall].
    destruct fuel as [|fuel]; [lia|]. cbn [Next_loop map concat].
    change (mkDecoder _ _ _ _) with
      (prepend (encoding m) (mkDecoder (mkStream (concat (map encoding ms)) fin) role got None)).
    rewrite Next_reads by done.
    replace (upd (is_hello m) _) with
      (mkDecoder (mkStream (concat (map encoding ms)) fin) role (got || is_hello m) None)
      by (destruct (is_hello m); [by rewrite orb_true_r | by rewrite orb_false_r]).
    cbn [map concat] in Hf. rewrite length_app in Hf. pose proof (length_encoding m).
    by rewrite IH by (done || lia).
Qed.

Lemma Next_all_all ms role fin :
  Forall typed_message ms -> allowed_all role false ms = true ->
  Next_all (NewDecoder (mkStream (concat (map encoding ms)) fin) role) = (ms, Some (IOErr fin)).
Proof. intros HT Ha. apply Next_loop_all; [done..|]. simpl. lia. Qed.

(** ** The theorems *)

(** C1. What [Encode] produced for a message, whatever follows it on the
    stream, [Next] reads back as that message, leaving what follows. *)
Theorem codec_roundtrip m bs d :
  typed_message m -> Encode [] m = (bs, None) ->
  allowed (d_role d) (d_gotHello d) m = true -> d_err d = None ->
  Decoder_Next (prepend bs d) = ((Some m, None), upd (is_hello m) d).
Proof.
  intros HT HE Ha Hd. destruct (encodable m) eqn:Hm.
  - rewrite Encode_spec, Hm in HE. injection HE as <-. by apply Next_reads.
  - destruct (Encode_refuses [] m Hm) as [e Hr]. congruence.
Qed.

(** C2. The format is canonical: whatever [Next] accepts is byte for byte what
    [Encode] writes for the message it returned, the message is in the ranges
    PROTOCOL.md states, and exactly those bytes were consumed. *)
Theorem codec_canonical d m d' :
  Decoder_Next d = ((Some m, None), d') ->
  exists bs, Encode [] m = (bs, None) /\ well_formed m /\
    s_data (d_r d) = bs ++ s_data (d_r d') /\ s_end (d_r d) = s_end (d_r d').
Proof.
  intros (_ & Hm & _ & d0 & -> & ->)%Next_accepts. exists (encoding m).
  rewrite Encode_spec. destruct Hm as [HT Hm]. rewrite Hm. split; [done|]. split; [done|].
  by destruct (is_hello m).
Qed.

(** The encoder appends the bytes PROTOCOL.md lays out for a message whose
    fields are in range, and refuses every other message without output. *)
Theorem encode_exact dst m :
  if encodable m then Encode dst m = (dst ++ encoding m, None)
  else exists e, Encode dst m = (dst, Some e).
Proof.
  destruct (encodable m) eqn:Hm; [by rewrite Encode_spec, Hm | by apply Encode_refuses].
Qed.

(** An input that ends inside a message is [ErrUnexpectedEOF], never a
    message and never a clean end, wherever inside the message it ends. *)
Theorem truncated_is_unexpected m d pre post :
  encoding m = pre ++ post -> pre <> [] -> post <> [] ->
  well_formed m -> allowed (d_role d) (d_gotHello d) m = true ->
  d_err d = None -> d_r d = mkStream pre EOF ->
  (Decoder_Next d).1 = (None, Some (IOErr ErrUnexpectedEOF)).
Proof. apply Next_truncated. Qed.

(** A session: the messages one side's encoder wrote without a refusal are
    exactly the messages the other side's decoder reads, in order, followed by
    a clean end of stream; in particular the two ends agree on when HELLO may
    be said. *)
Theorem session_roundtrip role ms e :
  Forall typed_message ms ->
  Write_all (NewEncoder [] role) ms = (e, None) ->
  Next_all (NewDecoder (mkStream (e_w e) EOF) (other_side role)) = (ms, Some (IOErr EOF)).
Proof.
  intros HT HW. destruct (Write_all_carried (carries := eq) ms (NewEncoder [] role) e [] eq_refl HW) as [Hw Ha].
  rewrite Hw. by apply Next_all_all.
Qed.

(** What [Next] can answer: a message, or an error it will repeat for ever.  It
    never returns neither, and never both. *)
Lemma Next_cases d a d' :
  Decoder_Next d = (a, d') ->
  (exists m, a = (Some m, None)) \/ (exists e, a = (None, Some e) /\ Decoder_Next d' = (a, d')).
Proof.
  intros H. unfold Decoder_Next in H. destruct (d_err d) as [e|] eqn:Hd.
  { injection H as <- <-. right. exists e. unfold Decoder_Next. by rewrite Hd. }
  destruct d as [[data fin] role got err]. simpl in *. subst err.
  destruct data as [|b data]; simpl in H.
  { injection H as <- <-. right. eexists. split; [done|]. by destruct fin. }
  rewrite d_message_spec in H by done. simpl in H.
  assert (forall e d1, a = (None, Some e) -> d' = set_err e d1 ->
    exists e, a = (None, Some e) /\ Decoder_Next d' = (a, d')) as Hstop.
  { intros e d1 -> ->. by exists e. }
  destruct (past_order (byte_val b)) as [p|] eqn:Hp.
  2: { right. destruct (_ && _); injection H as <- <-; by eapply Hstop. }
  apply past_order_field in Hp.
  destruct (match role with RoleServer => _ | RoleClient => _ end) eqn:Hok.
  2: { right. destruct (byte_val b =? KindHello); injection H as <- <-; by eapply Hstop. }
  destruct (p _) as [r d1] eqn:Er. destruct (d_err d1) eqn:Hd1.
  { right. injection H as <- <-. by eapply Hstop. }
  injection H as <- <-. left.
  destruct (field_accepts _ _ _ Er Hd1) as (_ & bs & d0 & (m' & -> & _) & _). by exists m'.
Qed.

Lemma prepend_length bs d : length (s_data (d_r (prepend bs d))) = (length bs + length (s_data (d_r d)))%nat.
Proof. simpl. by rewrite length_app. Qed.

Lemma Next_loop_ends fuel d :
  (length (s_data (d_r d)) < fuel)%nat -> is_Some (Next_loop fuel d).2.
Proof.
  revert d. induction fuel as [|fuel IH]; intros d Hf; [lia|]. cbn [Next_loop].
  destruct (Decoder_Next d) as [a d'] eqn:E.
  destruct (Next_cases _ _ _ E) as [[m ->] | (e & -> & _)]; [|by eexists].
  apply Next_accepts in E as (_ & _ & _ & d0 & -> & ->).
  rewrite prepend_length in Hf. pose proof (length_encoding m).
  destruct (Next_loop fuel (upd (is_hello m) d0)) as [ms e] eqn:EL.
  specialize (IH (upd (is_hello m) d0)). rewrite EL in IH. apply IH. destruct (is_hello m); simpl; lia.
Qed.

(** A refusal is final: once [Next] returned an error it returns the same
    error on every later call and its state no longer moves, so nothing after
    malformed input is ever delivered. *)
Theorem refusal_is_final d e d' :
  Decoder_Next d = ((None, Some e), d') -> forall n, Nat.iter n (fun s => (Decoder_Next s).2) d' = d' /\
    (Decoder_Next d').1 = (None, Some e).
Proof.
  intros H n. destruct (Next_cases _ _ _ H) as [[m ?] | (e' & _ & Hd')]; [done|].
  rewrite Hd'. split; [|done].
  induction n as [|n IH]; [done|]. simpl. by rewrite IH, Hd'.
Qed.

(** The read loop over a finite stream ends: every message consumes at
    least one byte, and the loop stops with an error, a clean end included. *)
Theorem read_loop_ends d : exists ms e, Next_all d = (ms, Some e).
Proof.
  destruct (Next_all d) as [ms e] eqn:E. pose proof (Next_loop_ends (S (length (s_data (d_r d)))) d) as H.
  unfold Next_all in E. rewrite E in H. destruct H as [e' He]; [lia|]. simpl in He. subst. eauto.
Qed.

(** ** Instances of the theorems *)
Definition sample_request : Message :=
  MRequest (mkRequest 1 "ollama" "GET" "/api/tags?x=1"
    [mkHeader "Accept" "*/*"; mkHeader "X-Empty" ""]).
Definition sample_hello : Message :=
  MHello (mkHello "kotikone" [mkProviderInfo "ollama" 2 100; mkProviderInfo "whisper" 1 65535]).
Definition server_after_hello : Decoder :=
  mkDecoder (mkStream [x03] EOF) RoleServer true None.
Definition sample_session : list Message :=
  [sample_hello; sample_request; MBody (mkBody 1 [x61; x62]); MEnd (mkEnd 1 []); MPong].

Lemma codec_roundtrip_witness :
  Decoder_Next (prepend (encoding sample_request) server_after_hello)
    = ((Some sample_request, None), server_after_hello).
Proof. apply (codec_roundtrip sample_request); vm_compute; reflexivity. Defined.

Lemma codec_canonical_witness :
  exists bs, Encode [] sample_request = (bs, None) /\ well_formed sample_request /\
    s_data (d_r (prepend (encoding sample_request) server_after_hello)) = bs ++ [x03] /\ EOF = EOF.
Proof.
  apply (codec_canonical (prepend (encoding sample_request) server_after_hello) sample_request
    server_after_hello). vm_compute. reflexivity.
Defined.

Lemma truncated_is_unexpected_witness :
  (Decoder_Next (mkDecoder (mkStream (take 20 (encoding sample_request)) EOF) RoleServer true None)).1
    = (None, Some (IOErr ErrUnexpectedEOF)).
Proof.
  apply (truncated_is_unexpected sample_request _ (take 20 (encoding sample_request))
    (drop 20 (encoding sample_request))); vm_compute; done.
Defined.

Lemma session_roundtrip_witness :
  Next_all (NewDecoder (mkStream (flat_map encoding sample_session) EOF) RoleServer)
    = (sample_session, Some (IOErr EOF)).
Proof.
  apply (session_roundtrip RoleClient sample_session
    (mkEncoder (flat_map encoding sample_session) RoleClient true)).
  - repeat constructor.
  - vm_compute. reflexivity.
Defined.

Lemma refusal_is_final_witness :
  let d := mkDecoder (mkStream [x04; x03] EOF) RoleServer true None in
  Nat.iter 2 (fun s => (Decoder_Next s).2) (Decoder_Next d).2 = (Decoder_Next d).2 /\
    (Decoder_Next (Decoder_Next d).2).1 = (None, Some (UnknownKind 4)).
Proof.
  apply (refusal_is_final (mkDecoder (mkStream [x04; x03] EOF) RoleServer true None) (UnknownKind 4)).
  vm_compute. reflexivity.
Defined.
