(* ===== verification/Record.v ===== *)
(** Layers 0 to 2: the preamble of internal/wire/wire.go and the record
    streams and connection handshake of internal/wire/record.go. *)

From stdpp Require Import pretty.
From S2P Require Import Prelude Bytes Io CipherState Noise Message.
Local Open Scope N_scope.

(** ** The preamble *)
Definition Version0Initial : N := 0.
Definition VersionNewest : N := Version0Initial.
Definition PreambleSize : nat := 5.
Definition magic : list byte := bytes_of "HPOL".

Definition Preamble : list byte := magic ++ [byte_of VersionNewest].

Definition ReadPreamble (s : stream) : result wire_error N * stream :=
  match ReadFull PreambleSize s with
  | (Err e, s) => (Err (ReadingPreamble e), s)
  | (Ok buf, s) =>
      (if decide (take 4 buf = magic) then Ok (byte_val (nth 4 buf x00)) else Err ErrNotPeer, s)
  end.

(** ** Records *)
Definition maxRecordSize : N := MaxMessageSize.
Definition minRecordSize : N := TagSize + 1.
Definition maxRecordPlaintext : N := MaxPlaintextSize.

Record RecordWriter (W : Type) : Type := mkRecordWriter {
  rw_w : W;
  rw_cipher : CipherState;
}.
Arguments mkRecordWriter {W}.
Arguments rw_w {W}.
Arguments rw_cipher {W}.

Definition NewRecordWriter {W} (w : W) (cipher : CipherState) : RecordWriter W :=
  mkRecordWriter w cipher.

Section Records.
Context `{A : AEAD}.

(** [RecordWriter.Write]: a record per piece of at most [maxRecordPlaintext]
    bytes.  The loop takes at least a byte at a time, so the slice's length
    bounds it. *)
Fixpoint record_loop {W} `{Writer W} (fuel : nat) (p : list byte) (written : N) (rw : RecordWriter W)
    : (N * option wire_error) * RecordWriter W :=
  match fuel, p with
  | S fuel, _ :: _ =>
      let chunk := if maxRecordPlaintext <? len p then take (N.to_nat maxRecordPlaintext) p else p in
      match Encrypt [x00; x00] chunk (rw_cipher rw) with
      | (Err e, c) => ((written, Some (EncryptingRecord e)), mkRecordWriter (rw_w rw) c)
      | (Ok record, c) =>
          let record := put_le 2 (len record - 2) ++ drop 2 record in
          match write (rw_w rw) record with
          | (w, Some err) => ((written, Some (IOErr err)), mkRecordWriter w c)
          | (w, None) =>
              record_loop fuel (drop (length chunk) p) (written + len chunk) (mkRecordWriter w c)
          end
      end
  | _, _ => ((written, None), rw)
  end.

Definition RecordWriter_Write {W} `{Writer W} (p : list byte) (rw : RecordWriter W)
    : (N * option wire_error) * RecordWriter W :=
  record_loop (length p) p 0 rw.

Record RecordReader : Type := mkRecordReader {
  rr_r : stream;
  rr_cipher : CipherState;
  rr_plain : list byte;
}.

Definition NewRecordReader (r : stream) (cipher : CipherState) : RecordReader :=
  mkRecordReader r cipher [].

(** [next] reads and decrypts one record. *)
Definition rr_next : ST RecordReader wire_error unit := fun rr =>
  match ReadFull 2 (rr_r rr) with
  | (Err e, r) => (Err (IOErr e), mkRecordReader r (rr_cipher rr) (rr_plain rr))
  | (Ok header, r) =>
      let size := get_le header in
      if size <? minRecordSize
      then (Err (RecordTooShort size), mkRecordReader r (rr_cipher rr) (rr_plain rr))
      else match ReadFull (N.to_nat size) r with
           | (Err e, r) => (Err (IOErr e), mkRecordReader r (rr_cipher rr) (rr_plain rr))
           | (Ok record, r) =>
               match Decrypt [] record (rr_cipher rr) with
               | (Err e, c) => (Err (DecryptingRecord e), mkRecordReader r c (rr_plain rr))
               | (Ok plain, c) => (Ok tt, mkRecordReader r c plain)
               end
           end
  end.

(** [Read] into a buffer of [n] bytes: what it copied there. *)
Definition RecordReader_Read (n : nat) : ST RecordReader wire_error (list byte) := fun rr =>
  match (match rr_plain rr with [] => rr_next rr | _ => (Ok tt, rr) end) with
  | (Err e, rr) => (Err e, rr)
  | (Ok tt, rr) =>
      (Ok (take n (rr_plain rr)), mkRecordReader (rr_r rr) (rr_cipher rr) (drop n (rr_plain rr)))
  end.

(** ** The connection handshake

    A connection is what will arrive on it and a writer for what is sent. *)
Record conn (W : Type) : Type := mkConn {
  c_in : stream;
  c_out : W;
}.
Arguments mkConn {W}.
Arguments c_in {W}.
Arguments c_out {W}.

Definition set_in {W} (s : stream) (c : conn W) : conn W := mkConn s (c_out c).
Definition set_out {W} (w : W) (c : conn W) : conn W := mkConn (c_in c) w.

Definition readVersion (s : stream) : result wire_error unit * stream :=
  match ReadPreamble s with
  | (Err e, s) => (Err e, s)
  | (Ok version, s) =>
      (if version =? VersionNewest then Ok tt else Err (VersionError VersionNewest version), s)
  end.

Definition writeFramed {W} `{Writer W} (prefix message : list byte) (w : W) : result wire_error unit * W :=
  if maxRecordSize <? len message then (Err (HandshakeTooLong (len message)), w)
  else match write w (prefix ++ put_le 2 (len message) ++ message) with
       | (w, Some err) => (Err (IOErr err), w)
       | (w, None) => (Ok tt, w)
       end.

Definition readFramed (s : stream) : result wire_error (list byte) * stream :=
  match ReadFull 2 s with
  | (Err e, s) => (Err (ReadingHandshake e), s)
  | (Ok header, s) =>
      let size := get_le header in
      if size <? HandshakeMessageSize then (Err (HandshakeTooShort size), s)
      else match ReadFull (N.to_nat size) s with
           | (Err e, s) => (Err (ReadingHandshake e), s)
           | (Ok message, s) => (Ok message, s)
           end
  end.

Record Session (W : Type) : Type := mkSession {
  ss_Reader : RecordReader;
  ss_Writer : RecordWriter W;
}.
Arguments mkSession {W}.
Arguments ss_Reader {W}.
Arguments ss_Writer {W}.

Local Open Scope st_scope.
Context `{C : Curve}.

(** [Handshake] runs on the connection and its Noise handshake together. *)
Definition on_conn {W R} (m : ST (conn W) wire_error R) : ST (conn W * Handshake) wire_error R :=
  st_zoom fst (fun c s => (c, snd s)) m.
Definition on_hs {W R} (m : HS R) : ST (conn W * Handshake) wire_error R := fun s =>
  match m (snd s) with
  | (Ok r, h) => (Ok r, (fst s, h))
  | (Err e, h) => (Err (NoiseErr e), (fst s, h))
  end.
Definition on_in {W R} (m : stream -> result wire_error R * stream) : ST (conn W) wire_error R :=
  st_zoom c_in set_in m.
Definition on_out {W R} (m : W -> result wire_error R * W) : ST (conn W) wire_error R :=
  st_zoom c_out set_out m.

Definition initiator_side {W} `{Writer W} : ST (conn W * Handshake) wire_error unit :=
  bind! message := on_hs (WriteMessage []) in
  then! on_conn (on_out (writeFramed Preamble message)) in
  then! on_conn (on_in readVersion) in
  bind! answer := on_conn (on_in readFramed) in
  then! on_hs (ReadMessage answer) in st_ret tt.

Definition responder_side {W} `{Writer W} : ST (conn W * Handshake) wire_error unit :=
  then! on_conn (on_in readVersion) in
  bind! message := on_conn (on_in readFramed) in
  then! on_hs (ReadMessage message) in
  bind! answer := on_hs (WriteMessage []) in
  on_conn (on_out (writeFramed Preamble answer)).

Definition wire_Handshake {W} `{Writer W} (rand_Reader : stream) (psk : list byte) (initiator : bool)
    (rw : conn W) : result wire_error (Session W) * conn W :=
  match NewHandshake rand_Reader (mkConfig initiator psk Preamble None) with
  | Err e => (Err (NoiseErr e), rw)
  | Ok hs =>
      match (then! (if initiator then initiator_side else responder_side) in
             on_hs Split) (rw, hs) with
      | (Err e, (rw, _)) => (Err e, rw)
      | (Ok (send, receive), (rw, _)) =>
          (Ok (mkSession (NewRecordReader (c_in rw) receive) (NewRecordWriter (c_out rw) send)), rw)
      end
  end.

End Records.

Arguments mkConn {W}.
Arguments c_in {W}.
Arguments c_out {W}.
Arguments mkSession {W}.
Arguments ss_Reader {W}.
Arguments ss_Writer {W}.
