(* ===== verification/RecordFacts.v ===== *)
(** The record layer as a pair of streams: what a [RecordWriter] writes, and
    that a [RecordReader] is a reader of the plaintexts, whatever the size of
    the buffers it is read with. *)

From stdpp Require Import pretty.
From S2P Require Import Prelude Bytes Io CipherState Noise Message Record.
Local Open Scope N_scope.

(** The text of a record error, as an [error] of the reader's interface. *)
Definition as_io (e : wire_error) : io_error :=
  match e with
  | IOErr e => e
  | RecordTooShort n =>
      OtherIO ("wire: record is " +:+ pretty n +:+ " bytes, want at least 17")
  | DecryptingRecord (NotAuthentic n) =>
      OtherIO ("wire: noise: message " +:+ pretty n +:+ " does not authenticate")
  | DecryptingRecord CounterExhausted => OtherIO "wire: noise: message counter is exhausted"
  | EncryptingRecord CounterExhausted =>
      OtherIO "wire: encrypting record: noise: message counter is exhausted"
  | _ => OtherIO "wire"
  end.

Section Facts.
Context `{A : AEAD}.

(** ** The writer's records *)
Definition advance (c : CipherState) (n : N) : CipherState :=
  mkCipherState (cs_key c) (cs_nonce c + n).

(** A record: the length and the sealed text. *)
Definition record_of (c : CipherState) (p : list byte) : list byte :=
  let ct := aead_seal (cs_key c) (nonceBytes c) p [] in put_le 2 (len ct) ++ ct.

Fixpoint records (c : CipherState) (ps : list (list byte)) : list byte :=
  match ps with
  | [] => []
  | p :: ps => record_of c p ++ records (advance c 1) ps
  end.

Lemma advance_0 c : advance c 0 = c.
Proof. destruct c. unfold advance. simpl. by rewrite N.add_0_r. Qed.

Lemma advance_add c n m : advance (advance c n) m = advance c (n + m).
Proof. unfold advance. simpl. by rewrite N.add_assoc. Qed.

Lemma bump_advance c : cs_nonce c < nonceReserved -> bump c = advance c 1.
Proof. apply bump_nonce. Qed.

Lemma records_app c ps qs : records c (ps ++ qs) = records c ps ++ records (advance c (len ps)) qs.
Proof.
  revert c. induction ps as [|p ps IH]; intros c; simpl; [by rewrite advance_0|].
  by rewrite IH, advance_add, len_cons, <- app_assoc, <- N.add_1_l.
Qed.

(** A piece of a record's plaintext. *)
Definition piece_ok (p : list byte) : Prop := 0 < len p <= maxRecordPlaintext.

Lemma chunk_take (p : list byte) :
  (if maxRecordPlaintext <? len p then take (N.to_nat maxRecordPlaintext) p else p)
    = take (N.to_nat maxRecordPlaintext) p.
Proof.
  destruct (N.ltb_spec maxRecordPlaintext (len p)); [done|]. symmetry. apply take_ge.
  unfold len in *. lia.
Qed.

Lemma drop_take_length (n : nat) (p : list byte) : drop (length (take n p)) p = drop n p.
Proof.
  rewrite length_take. destruct (Nat.le_ge_cases n (length p)); [by rewrite Nat.min_l|].
  rewrite Nat.min_r by done. by rewrite !drop_ge.
Qed.

(** The writer's loop cuts its slice into [pieces] and sends a record of each,
    in order, or stops at an error. *)
Lemma record_loop_pieces {W} `{Writer W} `{!Carrier carries} fuel p n rw n' rw' q :
  (length p <= fuel)%nat -> record_loop fuel p n rw = ((n', None), rw') ->
  cs_nonce (rw_cipher rw) <= nonceReserved -> carries (rw_w rw) q ->
  let ps := pieces maxRecordPlaintext p in
  n' = n + len p /\ rw_cipher rw' = advance (rw_cipher rw) (len ps) /\
  cs_nonce (rw_cipher rw) + len ps <= nonceReserved /\
  carries (rw_w rw') (q ++ records (rw_cipher rw) ps).
Proof.
  cbv zeta. revert p n rw q. induction fuel as [|fuel IH]; intros p n rw q Hf HW Hn Hq.
  - destruct p; [|simpl in Hf; lia]. injection HW as <- <-. rewrite pieces_nil. simpl.
    rewrite advance_0, app_nil_r. unfold len. simpl. split_and!; done || lia.
  - destruct p as [|b p0].
    { injection HW as <- <-. rewrite pieces_nil. simpl. rewrite advance_0, app_nil_r.
      unfold len. simpl. split_and!; done || lia. }
    remember (b :: p0) as p eqn:Ep. cbn [record_loop] in HW. rewrite Ep in HW at 1. cbv iota in HW.
    rewrite chunk_take in HW. set (chunk := take _ p) in *.
    rewrite pieces_step by (subst p; done || reflexivity). fold chunk.
    destruct (Encrypt [x00; x00] chunk (rw_cipher rw)) as [[record|e] c] eqn:He; [|discriminate].
    unfold Encrypt in He. apply seal_Ok in He as (Hne & Hle & -> & ->).
    assert (cs_nonce (rw_cipher rw) < nonceReserved) as Hlt by lia.
    rewrite (bump_advance _ Hlt) in HW.
    set (ct := aead_seal _ _ chunk []) in *.
    assert (put_le 2 (len ([x00; x00] ++ ct) - 2) ++ drop 2 ([x00; x00] ++ ct) = record_of (rw_cipher rw) chunk) as Er.
    { unfold record_of. fold ct. f_equal. f_equal. rewrite len_app. unfold len at 1. simpl. lia. }
    rewrite Er in HW. destruct (write _ _) as [w [err|]] eqn:Hw; [discriminate|].
    unfold chunk in HW at 1. rewrite drop_take_length in HW.
    assert (0 < length p)%nat as Hp by (rewrite Ep; simpl; lia).
    apply (IH _ _ _ (q ++ record_of (rw_cipher rw) chunk)) in HW as (-> & Hc & Hn' & Hcar);
      [| rewrite length_drop; unfold maxRecordPlaintext, MaxPlaintextSize, MaxMessageSize, TagSize in *; lia
       | simpl; lia | by apply (carry _ _ _ _ Hq Hw)].
    cbn [rw_cipher cs_nonce advance] in *. rewrite len_cons. split_and!.
    + unfold chunk. rewrite len_take, len_drop. lia.
    + rewrite Hc. unfold advance. simpl. f_equal. lia.
    + lia.
    + cbn [records]. by rewrite app_assoc.
Qed.

(** A record writer carries the plaintext its records hold. *)
Definition carries_records {W} (c0 : CipherState) (carries : W -> list byte -> Prop)
    (rw : RecordWriter W) (p : list byte) : Prop :=
  exists ps, p = concat ps /\ Forall piece_ok ps /\ rw_cipher rw = advance c0 (len ps) /\
    cs_nonce c0 + len ps <= nonceReserved /\ carries (rw_w rw) (records c0 ps).

#[global] Instance record_writer {W} `{Writer W} : Writer (RecordWriter W) := fun rw p =>
  let '((_, e), rw) := RecordWriter_Write p rw in (rw, as_io <$> e).

#[global] Instance record_carrier {W} `{Writer W} `{!Carrier carries} c0 :
  Carrier (W := RecordWriter W) (carries_records c0 carries).
Proof.
  intros rw p bs rw' (ps & -> & Hps & Hc & Hn & Hcar). unfold write, record_writer, RecordWriter_Write.
  destruct (record_loop (length bs) bs 0 rw) as [[n [e|]] rw1] eqn:E; simpl; [discriminate|]. intros [= <-].
  eapply record_loop_pieces in E as (_ & Hc' & Hn' & Hcar'); [| done | rewrite Hc; simpl; lia | exact Hcar].
  rewrite Hc in *. cbn [cs_nonce advance] in *.
  exists (ps ++ pieces maxRecordPlaintext bs). split_and!.
  - by rewrite concat_app, concat_pieces.
  - apply Forall_app. split; [done|]. by apply pieces_bounds.
  - by rewrite Hc', advance_add, len_app.
  - rewrite len_app. lia.
  - by rewrite records_app.
Qed.
End Facts.
