(* ===== verification/RecordReader.v ===== *)
(** The record reader as a stream: [plain_stream] is the plaintext of every
    record that will arrive, and [Read] takes its bytes off it in order. *)

From S2P Require Import Prelude Bytes Io CipherState Noise Message Record RecordFacts.
Local Open Scope N_scope.

Section Reader.
Context `{A : AEAD} `{L : !AEADLaws}.
Implicit Types rr : RecordReader.

(** Reading every record until one fails. A record takes bytes off the
    stream, so the stream's length bounds the loop. *)
Fixpoint drain (fuel : nat) rr : list byte * wire_error :=
  match fuel with
  | O => ([], IOErr EOF)
  | S fuel =>
      match rr_next rr with
      | (Err e, _) => ([], e)
      | (Ok _, rr) => let '(d, e) := drain fuel rr in (rr_plain rr ++ d, e)
      end
  end.

Definition left rr : nat := length (s_data (rr_r rr)).

Definition plain_stream rr : stream :=
  let '(d, e) := drain (S (left rr)) rr in mkStream (rr_plain rr ++ d) (as_io e).

(** ** One record *)
Lemma rr_next_Ok rr rr' :
  valid_cipher (rr_cipher rr) -> rr_next rr = (Ok tt, rr') ->
  cs_nonce (rr_cipher rr) < nonceReserved /\ piece_ok (rr_plain rr') /\
  rr_cipher rr' = advance (rr_cipher rr) 1 /\ valid_cipher (rr_cipher rr') /\
  rr_r rr = mkStream (record_of (rr_cipher rr) (rr_plain rr') ++ s_data (rr_r rr')) (s_end (rr_r rr)) /\
  s_end (rr_r rr') = s_end (rr_r rr).
Proof.
  intros Hv. unfold rr_next.
  destruct (ReadFull 2 (rr_r rr)) as [[hd|?] r1] eqn:E1; [|discriminate].
  destruct (N.ltb_spec (get_le hd) minRecordSize) as [|Hsz]; [discriminate|].
  destruct (ReadFull _ r1) as [[rec|?] r2] eqn:E2; [|discriminate].
  destruct (Decrypt [] rec (rr_cipher rr)) as [[pl|?] c] eqn:Ed; [|discriminate].
  intros [= <-]. cbn [rr_plain rr_cipher rr_r app]. apply ReadFull_Ok in E1 as (H1 & Hr1 & He1), E2 as (H2 & Hr2 & He2).
  apply open_Ok in Ed as [Hn Hs]; [|done]. apply seal_Ok in Hs as (_ & Hp & -> & Hrec). simpl in Hrec.
  pose proof (length_seal (cs_key (rr_cipher rr)) (nonceBytes (rr_cipher rr)) pl []) as Hl.
  assert (len rec = get_le hd) as Hlen by (unfold len; lia).
  split; [done|]. split.
  { split; [|done]. rewrite <- Hrec, Hlen in Hl. unfold minRecordSize, TagSize in *. lia. }
  split; [by apply bump_advance|]. split; [by apply valid_bump|]. split; [|congruence].
  rewrite Hr1, Hr2. cbn [s_data]. unfold record_of. rewrite <- Hrec, Hlen.
  by rewrite (put_get_le' 2 hd) by done; rewrite <- app_assoc.
Qed.

Lemma record_of_length c p : (2 < length (record_of c p))%nat.
Proof.
  unfold record_of. rewrite length_app, length_put_le.
  pose proof (length_seal (cs_key c) (nonceBytes c) p []) as Hl. unfold len, TagSize in Hl. lia.
Qed.

Lemma rr_next_shrinks rr rr' :
  valid_cipher (rr_cipher rr) -> rr_next rr = (Ok tt, rr') -> (left rr' < left rr)%nat.
Proof.
  intros Hv H. destruct (rr_next_Ok rr rr' Hv H) as (_ & _ & _ & _ & Hr & _). unfold left.
  rewrite Hr. cbn [s_data]. rewrite length_app.
  pose proof (record_of_length (rr_cipher rr) (rr_plain rr')). lia.
Qed.

Lemma drain_enough f1 f2 rr :
  valid_cipher (rr_cipher rr) -> (left rr < f1)%nat -> (left rr < f2)%nat -> drain f1 rr = drain f2 rr.
Proof.
  revert f2 rr. induction f1 as [|f1 IH]; intros f2 rr Hv H1 H2; [lia|].
  destruct f2 as [|f2]; [lia|]. cbn [drain]. destruct (rr_next rr) as [[[]|e] rr'] eqn:E; [|done].
  pose proof (rr_next_shrinks rr rr' Hv E). destruct (rr_next_Ok rr rr' Hv E) as (_ & _ & _ & Hv' & _).
  by rewrite (IH f2) by (done || lia).
Qed.

Lemma drain_Ok fuel rr rr' :
  rr_next rr = (Ok tt, rr') ->
  drain (S fuel) rr = (rr_plain rr' ++ (drain fuel rr').1, (drain fuel rr').2).
Proof. intros E. cbn [drain]. rewrite E. by destruct (drain fuel rr'). Qed.

(** With nothing left of the last record, the stream is the next record's
    plaintext and what follows it. *)
Lemma plain_stream_next rr rr' :
  valid_cipher (rr_cipher rr) -> rr_plain rr = [] -> rr_next rr = (Ok tt, rr') ->
  plain_stream rr = plain_stream rr'.
Proof.
  intros Hv Hp E. unfold plain_stream. rewrite Hp, (drain_Ok _ _ _ E). cbn [app].
  pose proof (rr_next_shrinks rr rr' Hv E). destruct (rr_next_Ok rr rr' Hv E) as (_ & _ & _ & Hv' & _).
  rewrite (drain_enough (left rr) (S (left rr'))) by (done || lia).
  by destruct (drain (S (left rr')) rr').
Qed.

Lemma plain_stream_fails rr e rr' :
  rr_plain rr = [] -> rr_next rr = (Err e, rr') -> plain_stream rr = mkStream [] (as_io e).
Proof. intros Hp E. unfold plain_stream. cbn [drain]. by rewrite Hp, E. Qed.

Lemma drain_plain fuel r c pl pl' :
  drain fuel (mkRecordReader r c pl) = drain fuel (mkRecordReader r c pl').
Proof.
  destruct fuel; [done|]. cbn [drain]. unfold rr_next. cbn [rr_r rr_cipher rr_plain].
  destruct (ReadFull 2 r) as [[hd|?] r1]; [|done]. destruct (_ <? _); [done|].
  destruct (ReadFull _ r1) as [[rec|?] r2]; [|done]. by destruct (Decrypt [] rec c) as [[?|?] ?].
Qed.

Lemma plain_stream_take n r c pl :
  plain_stream (mkRecordReader r c pl) =
    mkStream (take n pl ++ s_data (plain_stream (mkRecordReader r c (drop n pl))))
      (s_end (plain_stream (mkRecordReader r c (drop n pl)))).
Proof.
  unfold plain_stream, left. cbn [rr_r rr_plain].
  rewrite (drain_plain _ r c (drop n pl) pl). destruct (drain _ _). simpl. by rewrite app_assoc, take_drop.
Qed.

(** ** Reading back what was written *)
Lemma rr_next_record c p rest fin :
  valid_cipher c -> cs_nonce c < nonceReserved -> piece_ok p ->
  rr_next (mkRecordReader (mkStream (record_of c p ++ rest) fin) c [])
    = (Ok tt, mkRecordReader (mkStream rest fin) (advance c 1) p).
Proof.
  intros Hv Hn [Hp1 Hp2]. unfold rr_next, record_of. set (ct := aead_seal _ _ p []).
  assert (len ct = len p + TagSize) as Hl by apply length_seal.
  unfold maxRecordPlaintext, MaxPlaintextSize, MaxMessageSize, TagSize in *. cbn [rr_r]. rewrite <- app_assoc.
  rewrite ReadFull_app by apply length_put_le.
  rewrite get_put_le by (unfold width; simpl; lia). unfold minRecordSize, TagSize.
  destruct (N.ltb_spec (len ct) (16 + 1)); [lia|].
  rewrite ReadFull_app by (unfold len; lia). cbn [rr_cipher]. unfold Decrypt, ct.
  rewrite open_sealed; [by rewrite bump_advance | done | done | done].
Qed.

Lemma valid_advance c n :
  valid_cipher c -> cs_nonce c + n <= nonceReserved -> valid_cipher (advance c n).
Proof. intros [? ?] ?. by split. Qed.

Lemma drain_records ps c fin fuel :
  valid_cipher c -> cs_nonce c + len ps <= nonceReserved -> Forall piece_ok ps ->
  (length (records c ps) < fuel)%nat ->
  drain fuel (mkRecordReader (mkStream (records c ps) fin) c []) = (concat ps, IOErr fin).
Proof.
  revert c fuel. induction ps as [|p ps IH]; intros c fuel Hv Hn Hps Hf; (destruct fuel as [|fuel]; [lia|]).
  - done.
  - apply Forall_cons in Hps as [Hp Hps]. rewrite len_cons in Hn. cbn [drain records].
    rewrite rr_next_record by (done || lia). cbn [records] in Hf. rewrite length_app in Hf.
    pose proof (record_of_length c p).
    rewrite (drain_plain _ _ _ p []), IH; [done | apply valid_advance; [done | lia] | simpl; lia | done | lia].
Qed.

Lemma plain_stream_records ps c fin :
  valid_cipher c -> cs_nonce c + len ps <= nonceReserved -> Forall piece_ok ps ->
  plain_stream (NewRecordReader (mkStream (records c ps) fin) c) = mkStream (concat ps) fin.
Proof.
  intros. unfold plain_stream, NewRecordReader. by rewrite drain_records by (done || unfold left; simpl; lia).
Qed.

End Reader.
