(* ===== verification/RecordTheorems.v ===== *)
(** A connection end to end: the preamble and the handshake establish a
    session, the record layer carries a byte stream each way, and the messages
    one side writes are the messages the other side reads. *)

From S2P Require Import Prelude Bytes Io CipherState Noise NoiseFacts NoiseTheorems Message Encode Decode WireFormat Codec Record RecordFacts RecordReader.
Local Open Scope N_scope.
Local Open Scope st_scope.

Section Connection.
Context `{A : AEAD} `{AL : !AEADLaws}.

(** C29. A record reader is a reader of the plaintext stream: whatever the size
    of the buffer, [Read] gives the next bytes of it, at least one when there
    is room, and fails only at its end, with the error that ends it. *)
Theorem reader_refines_stream n rr r rr' :
  valid_cipher (rr_cipher rr) -> RecordReader_Read n rr = (r, rr') ->
  match r with
  | Ok bs =>
      s_data (plain_stream rr) = bs ++ s_data (plain_stream rr') /\
      s_end (plain_stream rr) = s_end (plain_stream rr') /\
      (length bs <= n)%nat /\ ((0 < n)%nat -> bs <> []) /\ valid_cipher (rr_cipher rr')
  | Err e => plain_stream rr = mkStream [] (as_io e)
  end.
Proof.
  intros Hv. unfold RecordReader_Read. destruct rr as [r0 c pl]. cbn [rr_plain].
  assert (forall rr1, valid_cipher (rr_cipher rr1) -> rr_plain rr1 <> [] ->
    plain_stream (mkRecordReader r0 c pl) = plain_stream rr1 ->
    (Ok (take n (rr_plain rr1)), mkRecordReader (rr_r rr1) (rr_cipher rr1) (drop n (rr_plain rr1))) = (r, rr') ->
    match r with
    | Ok bs =>
        s_data (plain_stream (mkRecordReader r0 c pl)) = bs ++ s_data (plain_stream rr') /\
        s_end (plain_stream (mkRecordReader r0 c pl)) = s_end (plain_stream rr') /\
        (length bs <= n)%nat /\ ((0 < n)%nat -> bs <> []) /\ valid_cipher (rr_cipher rr')
    | Err e => plain_stream (mkRecordReader r0 c pl) = mkStream [] (as_io e)
    end) as Hgo.
  { intros [r1 c1 pl1] Hv1 Hp1 -> [= <- <-]. cbn [rr_plain rr_r rr_cipher] in *.
    rewrite (plain_stream_take n r1 c1 pl1). cbn [s_data s_end]. split_and!; try done.
    - rewrite length_take. lia.
    - intros Hn. destruct n, pl1; done || lia. }
  destruct pl as [|b pl].
  - destruct (rr_next _) as [[[]|e] rr1] eqn:E.
    + destruct (rr_next_Ok _ _ Hv E) as (_ & [Hp1 _] & _ & Hv1 & _). apply Hgo; [done| |].
      * apply len_pos. done.
      * by apply plain_stream_next.
    + intros [= <- <-]. by eapply plain_stream_fails.
  - by apply (Hgo (mkRecordReader r0 c (b :: pl))).
Qed.

(** The records on a stream, as its headers cut it. *)
Fixpoint framed (bs : list byte) (rs : list (list byte)) : Prop :=
  match rs with
  | [] => bs = []
  | r :: rs => exists rest, bs = put_le 2 (len r) ++ r ++ rest /\
      minRecordSize <= len r <= maxRecordSize /\ framed rest rs
  end.

Lemma framed_records c ps :
  Forall piece_ok ps ->
  exists rs, framed (records c ps) rs /\ length rs = length ps.
Proof.
  revert c. induction ps as [|p ps IH]; intros c Hps; [by exists []|].
  apply Forall_cons in Hps as [[Hp1 Hp2] Hps]. destruct (IH (advance c 1) Hps) as (rs & Hf & Hl).
  pose proof (length_seal (cs_key c) (nonceBytes c) p []) as Hs.
  exists (aead_seal (cs_key c) (nonceBytes c) p [] :: rs). split; [|simpl; by rewrite Hl].
  exists (records (advance c 1) ps). split; [cbn [records]; unfold record_of; by rewrite <- app_assoc|].
  split; [|done]. rewrite Hs. unfold minRecordSize, maxRecordSize, maxRecordPlaintext, MaxPlaintextSize in *.
  unfold TagSize, MaxMessageSize in *. lia.
Qed.

(** While the counter lasts, a write to a writer that does not fail succeeds. *)
Lemma record_loop_succeeds fuel p n (rw : RecordWriter (list byte)) :
  (length p <= fuel)%nat ->
  cs_nonce (rw_cipher rw) + len (pieces maxRecordPlaintext p) <= nonceReserved ->
  exists n' rw', record_loop fuel p n rw = ((n', None), rw').
Proof.
  revert p n rw. induction fuel as [|fuel IH]; intros p n rw Hf Hn; [by do 2 eexists|].
  destruct p as [|b p0]; [by do 2 eexists|]. remember (b :: p0) as p eqn:Ep.
  rewrite pieces_step, len_cons in Hn by (subst p; done).
  cbn [record_loop]. assert (forall X (x y : X), match p with [] => x | _ :: _ => y end = y) as -> by (by subst p).
  rewrite chunk_take.
  unfold Encrypt. rewrite seal_succeeds; [| lia | rewrite len_take; unfold maxRecordPlaintext; lia].
  rewrite drop_take_length. unfold write, buffer_writer. apply IH.
  - assert (0 < length p)%nat by (rewrite Ep; simpl; lia).
    rewrite length_drop. unfold maxRecordPlaintext, MaxPlaintextSize, MaxMessageSize, TagSize. lia.
  - rewrite bump_advance by lia. cbn [rw_cipher cs_nonce advance]. lia.
Qed.

(** C30. While the counter lasts, a [Write] of [n] bytes to a writer that does
    not fail succeeds, says so, and puts out the fewest records that hold them, [n] divided by 65519 rounded
    up, every one within the 17 to 65535 bytes the protocol allows; an empty
    slice puts out none. *)
Theorem write_is_minimal_records p (rw : RecordWriter (list byte)) :
  let count := (len p + maxRecordPlaintext - 1) / maxRecordPlaintext in
  cs_nonce (rw_cipher rw) + count <= nonceReserved ->
  exists rw' out rs, RecordWriter_Write p rw = ((len p, None), rw') /\
    rw_w rw' = rw_w rw ++ out /\ framed out rs /\ len rs = count.
Proof.
  cbv zeta. rewrite <- pieces_count by done. intros Hn.
  destruct (record_loop_succeeds (length p) p 0 rw) as (n & rw' & HW); [lia | done|].
  unfold RecordWriter_Write. rewrite HW.
  eapply (record_loop_pieces (carries := eq) _ _ _ _ _ _ (rw_w rw)) in HW as (-> & _ & _ & Hw);
    [|lia|lia|done].
  destruct (framed_records (rw_cipher rw) (pieces maxRecordPlaintext p)) as (rs & Hf & Hl).
  { by apply pieces_bounds. }
  do 3 eexists. split; [done|]. split; [exact Hw|]. split; [exact Hf|]. unfold len. by rewrite Hl.
Qed.

(** A session over records: what an encoder wrote through a record writer is
    what a decoder reads through the record reader with the same key. *)
Lemma records_session role ms (e : Encoder (RecordWriter (list byte))) c pre fin :
  valid_cipher c -> Forall typed_message ms ->
  Write_all (NewEncoder (NewRecordWriter pre c) role) ms = (e, None) ->
  exists out, rw_w (e_w e) = pre ++ out /\
    Next_all (NewDecoder (plain_stream (NewRecordReader (mkStream out fin) c)) (other_side role))
      = (ms, Some (IOErr fin)).
Proof.
  intros Hv HT HW.
  assert (Carrier (W := list byte) (fun w p => w = pre ++ p)) as HC.
  { intros w p bs w' -> [= <-]. by rewrite app_assoc. }
  eapply (Write_all_carried (carries := carries_records c (fun w p => w = pre ++ p)) ms _ _ []) in HW
    as [(ps & Hps & Hok & _ & Hn & Hw) Ha].
  2: { exists []. simpl. rewrite advance_0, app_nil_r. destruct Hv. unfold len. simpl.
       split_and!; [done..|lia|done]. }
  exists (records c ps). split; [done|]. rewrite plain_stream_records by done.
  simpl in Hps. rewrite <- Hps. by apply Next_all_all.
Qed.

(** ** The connection handshake *)
Context `{C : Curve} `{CL : !CurveLaws}.

(** A handshake message behind the preamble and its length. *)
Definition hello_bytes (m : list byte) : list byte := Preamble ++ put_le 2 (len m) ++ m.

Lemma readVersion_hello m rest fin :
  readVersion (mkStream (hello_bytes m ++ rest) fin) = (Ok tt, mkStream (put_le 2 (len m) ++ m ++ rest) fin).
Proof.
  unfold readVersion, ReadPreamble, hello_bytes. rewrite <- !app_assoc. by rewrite (ReadFull_app 5 Preamble).
Qed.

Lemma readFramed_message m rest fin :
  HandshakeMessageSize <= len m <= maxRecordSize ->
  readFramed (mkStream (put_le 2 (len m) ++ m ++ rest) fin) = (Ok m, mkStream rest fin).
Proof.
  intros [H1 H2]. unfold readFramed. rewrite ReadFull_app by apply length_put_le.
  unfold maxRecordSize, MaxMessageSize in H2. rewrite get_put_le by (unfold width; simpl; lia).
  destruct (N.ltb_spec (len m) HandshakeMessageSize); [lia|].
  by rewrite ReadFull_app by (unfold len; lia).
Qed.

Lemma writeFramed_message m (w : list byte) :
  len m <= maxRecordSize -> writeFramed Preamble m w = (Ok tt, w ++ hello_bytes m).
Proof.
  intros H. unfold writeFramed. destruct (N.ltb_spec maxRecordSize (len m)); [lia | done].
Qed.

(** Both sides of [Handshake] over a connection, once the Noise messages are
    known. *)
Lemma initiator_runs psk m1 m2 hi hi1 hi2 k1 k2 rand rest fin (w : list byte) :
  NewHandshake rand (mkConfig true psk Preamble None) = Ok hi ->
  WriteMessage [] hi = (Ok m1, hi1) -> ReadMessage m2 hi1 = (Ok [], hi2) ->
  Split hi2 = (Ok (k1, k2), hi2) -> len m1 = HandshakeMessageSize -> len m2 = HandshakeMessageSize ->
  wire_Handshake rand psk true (mkConn (mkStream (hello_bytes m2 ++ rest) fin) w) =
    (Ok (mkSession (NewRecordReader (mkStream rest fin) k2) (NewRecordWriter (w ++ hello_bytes m1) k1)),
     mkConn (mkStream rest fin) (w ++ hello_bytes m1)).
Proof.
  intros HN HW HR HS H1 H2. unfold wire_Handshake. rewrite HN. unfold initiator_side.
  unfold st_bind, on_hs, on_conn, on_in, on_out, st_zoom, st_ret. cbn [fst snd].
  rewrite HW. cbn [fst snd c_in c_out set_in set_out].
  rewrite writeFramed_message by (rewrite H1; done). cbn [fst snd c_in c_out set_in set_out].
  rewrite readVersion_hello. cbn [fst snd c_in c_out set_in set_out].
  rewrite readFramed_message by (rewrite H2; done). cbn [fst snd c_in c_out set_in set_out].
  rewrite HR. cbn [fst snd c_in c_out set_in set_out]. by rewrite HS.
Qed.

Lemma responder_runs psk m1 m2 hr hr1 hr2 k1 k2 rand rest fin (w : list byte) :
  NewHandshake rand (mkConfig false psk Preamble None) = Ok hr ->
  ReadMessage m1 hr = (Ok [], hr1) -> WriteMessage [] hr1 = (Ok m2, hr2) ->
  Split hr2 = (Ok (k2, k1), hr2) -> len m1 = HandshakeMessageSize -> len m2 = HandshakeMessageSize ->
  wire_Handshake rand psk false (mkConn (mkStream (hello_bytes m1 ++ rest) fin) w) =
    (Ok (mkSession (NewRecordReader (mkStream rest fin) k1) (NewRecordWriter (w ++ hello_bytes m2) k2)),
     mkConn (mkStream rest fin) (w ++ hello_bytes m2)).
Proof.
  intros HN HR HW HS H1 H2. unfold wire_Handshake. rewrite HN. unfold responder_side.
  unfold st_bind, on_hs, on_conn, on_in, on_out, st_zoom, st_ret. cbn [fst snd].
  cbn [fst snd c_in c_out set_in set_out]. rewrite readVersion_hello. cbn [fst snd c_in c_out set_in set_out].
  rewrite readFramed_message by (rewrite H1; done). cbn [fst snd c_in c_out set_in set_out].
  rewrite HR. cbn [fst snd c_in c_out set_in set_out]. rewrite HW. cbn [fst snd c_in c_out set_in set_out].
  rewrite writeFramed_message by (rewrite H2; done).
  cbn [fst snd c_in c_out set_in set_out]. by rewrite HS.
Qed.

(** The random bytes of the two sides, and that their exchange is not the
    degenerate one X25519 refuses. *)
Definition good_randomness (ri rr : stream) : Prop :=
  exists ei er resti restr, ReadFull 32 ri = (Ok ei, resti) /\ ReadFull 32 rr = (Ok er, restr) /\
    is_Some (curve_ecdh er (curve_public ei)).

Lemma NewHandshake_ok psk initiator rand :
  len psk = KeySize ->
  NewHandshake rand (mkConfig initiator psk Preamble None) = Ok (new_side initiator psk Preamble rand).
Proof. intros Hk. unfold NewHandshake. simpl. by rewrite Hk. Qed.

Lemma connection_established psk ri rr :
  len psk = KeySize -> good_randomness ri rr ->
  exists m1 m2 k1 k2, valid_cipher k1 /\ valid_cipher k2 /\
    len (hello_bytes m1) = 55 /\ len (hello_bytes m2) = 55 /\
    forall rest fin (w : list byte),
      wire_Handshake ri psk true (mkConn (mkStream (hello_bytes m2 ++ rest) fin) w) =
        (Ok (mkSession (NewRecordReader (mkStream rest fin) k2) (NewRecordWriter (w ++ hello_bytes m1) k1)),
         mkConn (mkStream rest fin) (w ++ hello_bytes m1)) /\
      wire_Handshake rr psk false (mkConn (mkStream (hello_bytes m1 ++ rest) fin) w) =
        (Ok (mkSession (NewRecordReader (mkStream rest fin) k1) (NewRecordWriter (w ++ hello_bytes m2) k2)),
         mkConn (mkStream rest fin) (w ++ hello_bytes m2)).
Proof.
  intros Hk (ei & er & resti & restr & Hri & Hrr & Hx).
  destruct (handshake_run psk Preamble ri rr ei er resti restr [] [] Hri Hrr Hx)
    as (m1 & hi1 & hr1 & m2 & hr2 & hi2 & k1 & k2 & HW1 & HR1 & HW2 & HR2 & Hl1 & Hl2 & HS1 & HS2 & Hv1 & Hv2 & _);
    [done..|].
  change (len m1 = HandshakeMessageSize) in Hl1. change (len m2 = HandshakeMessageSize) in Hl2.
  assert (forall b r, NewHandshake r (mkConfig b psk Preamble None) = Ok (new_side b psk Preamble r)) as HN
    by (intros; by apply NewHandshake_ok).
  exists m1, m2, k1, k2.
  assert (forall m, len m = HandshakeMessageSize -> len (hello_bytes m) = 55) as Hhb.
  { intros m Hm. unfold hello_bytes, len in *. rewrite !length_app, length_put_le.
    change HandshakeMessageSize with 48 in Hm. change (length Preamble) with 5%nat. lia. }
  split_and!; [done.. | by apply Hhb | by apply Hhb|]. intros rest fin w. split.
  - eapply initiator_runs; eauto.
  - eapply responder_runs; eauto.
Qed.

(** C31. A connection is established in one round trip: each side sends 55
    bytes, the initiator without waiting for any, and from them both sides get
    sessions whose keys match, each direction's counter at zero and everything
    after the 55 bytes left for the record layer. *)
Theorem handshake_establishes_session psk ri rr :
  len psk = KeySize -> good_randomness ri rr ->
  exists hi hr k1 k2, valid_cipher k1 /\ valid_cipher k2 /\ len hi = 55 /\ len hr = 55 /\
    forall rest fin (w : list byte),
      wire_Handshake ri psk true (mkConn (mkStream (hr ++ rest) fin) w) =
        (Ok (mkSession (mkRecordReader (mkStream rest fin) k2 []) (mkRecordWriter (w ++ hi) k1)),
         mkConn (mkStream rest fin) (w ++ hi)) /\
      wire_Handshake rr psk false (mkConn (mkStream (hi ++ rest) fin) w) =
        (Ok (mkSession (mkRecordReader (mkStream rest fin) k1 []) (mkRecordWriter (w ++ hr) k2)),
         mkConn (mkStream rest fin) (w ++ hr)).
Proof.
  intros Hk Hr. destruct (connection_established psk ri rr Hk Hr) as (m1 & m2 & k1 & k2 & ? & ? & ? & ? & H).
  by exists (hello_bytes m1), (hello_bytes m2), k1, k2.
Qed.

(** C32. The whole stack, end to end: whatever messages a client writes on its
    session without a refusal, the server that is given the client's bytes
    establishes a session with it, answers with the bytes the client was given,
    and reads exactly those messages, in order, and then the end. *)
Theorem connection_roundtrip psk ri rr :
  len psk = KeySize -> good_randomness ri rr ->
  exists answer si ci,
    wire_Handshake ri psk true (mkConn (mkStream answer EOF) []) = (Ok si, ci) /\
    forall ms e, Forall typed_message ms ->
      Write_all (NewEncoder (ss_Writer si) RoleClient) ms = (e, None) ->
      exists sr cr,
        wire_Handshake rr psk false (mkConn (mkStream (rw_w (e_w e)) EOF) []) = (Ok sr, cr) /\
        c_out cr = answer /\
        Next_all (NewDecoder (plain_stream (ss_Reader sr)) RoleServer) = (ms, Some (IOErr EOF)).
Proof.
  intros Hk Hr. destruct (connection_established psk ri rr Hk Hr) as (m1 & m2 & k1 & k2 & Hv1 & Hv2 & _ & _ & H).
  exists (hello_bytes m2). destruct (H [] EOF []) as [Hi _]. rewrite app_nil_r in Hi. do 2 eexists.
  split; [exact Hi|]. intros ms e HT HW. cbn [ss_Writer app] in HW.
  eapply (records_session RoleClient ms e k1 _ EOF) in HW as (out & Hout & Hnext); [|done..].
  destruct (H out EOF []) as [_ Hs]. rewrite Hout. do 2 eexists. split; [exact Hs|]. by split.
Qed.

(** ** Refusals *)

(** The peer has proved it knows the secret: what came in is a preamble of this
    version and a framed first message that the Noise handshake [h] accepts, which
    leaves it as [h1]. *)
Definition proved (h h1 : Handshake) (s : stream) : Prop :=
  exists s1 message s2 payload,
    readVersion s = (Ok tt, s1) /\ readFramed s1 = (Ok message, s2) /\ ReadMessage message h = (Ok payload, h1).

(** C33. The server says nothing to a peer that has not proved it knows the
    secret.  Whatever arrives and whatever it writes to, a responder's handshake
    either fails having written nothing, or the peer's first message was
    authenticated under the secret, and then it writes once, the preamble and the
    framed answer: if that write fails, the handshake fails with the writer's
    error, and otherwise it does not fail any more. *)
Theorem responder_silent {W} `{Writer W} rand psk (rw : conn W) :
  let '(r, rw') := wire_Handshake rand psk false rw in
  (c_out rw' = c_out rw /\ exists e, r = Err e) \/
  exists h h1 answer h2,
    NewHandshake rand (mkConfig false psk Preamble None) = Ok h /\ proved h h1 (c_in rw) /\
    WriteMessage [] h1 = (Ok answer, h2) /\
    let '(w, failed) := write (c_out rw) (Preamble ++ put_le 2 (len answer) ++ answer) in
    c_out rw' = w /\
    match failed with
    | Some err => r = Err (IOErr err)
    | None => exists session, r = Ok session
    end.
Proof.
  unfold wire_Handshake. destruct (NewHandshake _ _) as [h|?] eqn:HN; [|by left; eauto].
  assert (hs_ready h /\ hs_step h = 0) as [Hrd Hs].
  { unfold NewHandshake in HN. case_match; [discriminate|]. injection HN as <-. by split. }
  unfold responder_side, st_bind, on_hs, on_conn, on_in, on_out, st_zoom. cbn [fst snd].
  destruct (readVersion (c_in rw)) as [[[]|?] s1] eqn:Ev; cbn [fst snd c_in c_out set_in]; [|by left; eauto].
  destruct (readFramed s1) as [[m|?] s2] eqn:Ef; cbn [fst snd c_in c_out set_in]; [|by left; eauto].
  destruct (ReadMessage m h) as [[payload|?] h1] eqn:HR; cbn [fst snd c_in c_out set_in]; [|by left; eauto].
  destruct (WriteMessage [] h1) as [[answer|?] h2] eqn:HW; cbn [fst snd c_in c_out set_in]; [|by left; eauto].
  pose proof HR as (Hs1 & _ & Hrd1)%ReadMessage_steps; [|done].
  pose proof HW as (Hs2 & Hf & _)%WriteMessage_steps; [|done].
  unfold writeFramed. destruct (maxRecordSize <? len answer); [by left; eauto|].
  destruct (write (c_out rw) _) as [w failed] eqn:Ew; cbn [fst snd c_in c_out set_in set_out].
  destruct failed as [err|]; cbn [fst snd c_in c_out set_in set_out].
  - right. exists h, h1, answer, h2. rewrite Ew. split_and!; try done. by exists s1, m, s2, payload.
  - unfold Split. rewrite Hf, Hs2, Hs1, Hs. change (negb (0 + 1 + 1 =? stepComplete)) with false. cbn iota.
    destruct (sym_split_ok (hs_sym h2)) as (k1 & k2 & -> & _). cbn iota.
    assert (proved h h1 (c_in rw)) as Hp by (by exists s1, m, s2, payload).
    destruct (hs_initiator h2); cbn iota beta; right; exists h, h1, answer, h2; rewrite Ew; split_and!; try done; by eexists.
Qed.

(** The first message of an initiator, which needs only its random bytes. *)
Lemma exchange_first psk rand ei resti :
  ReadFull 32 rand = (Ok ei, resti) ->
  exists m h, WriteMessage [] (new_side true psk Preamble rand) = (Ok m, h) /\ len m = HandshakeMessageSize.
Proof.
  intros Hri.
  destruct (exchange (new_side true psk Preamble rand) (new_side false psk Preamble rand) ei [])
    as (m & h & _ & HW & _ & Hl & _); [by split | split; [by eexists | done] | done|].
  by exists m, h.
Qed.

(** Who is at the other end is settled by the first five bytes: too few of
    them is an error that says so, any other first four are not a peer, and
    the right ones with another version are a peer that speaks it; only then
    is anything else read. *)
Theorem preamble_decides rand psk initiator (w : list byte) bs rest fin :
  len psk = KeySize -> (exists ei resti, ReadFull 32 rand = (Ok ei, resti)) -> len bs = 5 ->
  take 4 bs <> magic \/ nth 4 bs x00 <> x00 ->
  exists e rw', wire_Handshake rand psk initiator (mkConn (mkStream (bs ++ rest) fin) w) = (Err e, rw') /\
    e = (if decide (take 4 bs = magic) then VersionError 0 (byte_val (nth 4 bs x00)) else ErrNotPeer) /\
    c_in rw' = mkStream rest fin.
Proof.
  intros Hk (ei & resti & Hri) Hl Hbad.
  assert (readVersion (mkStream (bs ++ rest) fin) =
    (Err (if decide (take 4 bs = magic) then VersionError 0 (byte_val (nth 4 bs x00)) else ErrNotPeer),
     mkStream rest fin)) as Hrv.
  { unfold readVersion, ReadPreamble. rewrite (ReadFull_app PreambleSize bs) by (unfold len, PreambleSize in *; lia).
    case_decide as Hm; [|done]. destruct Hbad as [?|Hv]; [done|].
    destruct (N.eqb_spec (byte_val (nth 4 bs x00)) VersionNewest) as [E|]; [|done].
    destruct Hv. by apply byte_val_inj. }
  unfold wire_Handshake. rewrite (NewHandshake_ok _ _ _ Hk).
  destruct initiator.
  - destruct (exchange_first psk rand ei resti Hri) as (m & h & HW & Hlm).
    unfold initiator_side, st_bind, on_hs, on_conn, on_in, on_out, st_zoom. cbn [fst snd].
    rewrite HW. cbn [fst snd c_in c_out set_in set_out].
    rewrite writeFramed_message by (rewrite Hlm; done). cbn [fst snd c_in c_out set_in set_out].
    rewrite Hrv. by do 2 eexists.
  - unfold responder_side, st_bind, on_hs, on_conn, on_in, on_out, st_zoom. cbn [fst snd c_in c_out set_in set_out].
    rewrite Hrv. by do 2 eexists.
Qed.

End Connection.

(** ** A connection at work *)
Definition demo_cipher : CipherState := mkCipherState demo_key 7.
Definition demo_reader : RecordReader :=
  NewRecordReader (mkStream (records (A := toy_aead) demo_cipher [bytes_of "hello"; bytes_of "world"]) EOF)
    demo_cipher.

Lemma reader_refines_stream_witness :
  let r := RecordReader_Read (A := toy_aead) 3 demo_reader in
  r.1 = Ok (bytes_of "hel") /\
  (s_data (plain_stream (A := toy_aead) demo_reader) = bytes_of "hel" ++ s_data (plain_stream (A := toy_aead) r.2) /\
   s_end (plain_stream (A := toy_aead) demo_reader) = s_end (plain_stream (A := toy_aead) r.2) /\
   (length (bytes_of "hel") <= 3)%nat /\ ((0 < 3)%nat -> bytes_of "hel" <> []) /\ valid_cipher (rr_cipher r.2)).
Proof.
  split; [vm_compute; reflexivity|].
  apply (reader_refines_stream (AL := toy_aead_laws) 3 demo_reader (Ok (bytes_of "hel")));
    [by split | vm_compute; reflexivity].
Defined.

Lemma write_is_minimal_records_witness :
  exists rw' out rs,
    RecordWriter_Write (A := toy_aead) (bytes_of "hello") (mkRecordWriter [] demo_cipher)
      = ((len (bytes_of "hello"), None), rw') /\
    rw_w rw' = [] ++ out /\ framed out rs /\ len rs = 1.
Proof.
  apply (write_is_minimal_records (AL := toy_aead_laws) (bytes_of "hello") (mkRecordWriter [] demo_cipher)).
  vm_compute. discriminate.
Defined.

Lemma demo_randomness : good_randomness (C := toy_curve) (demo_random x02) (demo_random x03).
Proof. exists (repeat x02 32), (repeat x03 32). do 2 eexists. split_and!; [reflexivity.. | by eexists]. Qed.

Lemma handshake_establishes_session_witness :
  exists hi hr k1 k2, valid_cipher k1 /\ valid_cipher k2 /\ len hi = 55 /\ len hr = 55 /\
    forall rest fin (w : list byte),
      wire_Handshake (A := toy_aead) (C := toy_curve) (demo_random x02) demo_key true
          (mkConn (mkStream (hr ++ rest) fin) w) =
        (Ok (mkSession (mkRecordReader (mkStream rest fin) k2 []) (mkRecordWriter (w ++ hi) k1)),
         mkConn (mkStream rest fin) (w ++ hi)) /\
      wire_Handshake (A := toy_aead) (C := toy_curve) (demo_random x03) demo_key false
          (mkConn (mkStream (hi ++ rest) fin) w) =
        (Ok (mkSession (mkRecordReader (mkStream rest fin) k1 []) (mkRecordWriter (w ++ hr) k2)),
         mkConn (mkStream rest fin) (w ++ hr)).
Proof.
  apply (handshake_establishes_session (AL := toy_aead_laws) (CL := toy_curve_laws));
    [reflexivity | exact demo_randomness].
Defined.

Lemma connection_roundtrip_witness :
  exists answer si ci,
    wire_Handshake (A := toy_aead) (C := toy_curve) (demo_random x02) demo_key true
      (mkConn (mkStream answer EOF) []) = (Ok si, ci) /\
    forall ms e, Forall typed_message ms ->
      Write_all (H := record_writer (A := toy_aead)) (NewEncoder (ss_Writer si) RoleClient) ms = (e, None) ->
      exists sr cr,
        wire_Handshake (A := toy_aead) (C := toy_curve) (demo_random x03) demo_key false
          (mkConn (mkStream (rw_w (e_w e)) EOF) []) = (Ok sr, cr) /\
        c_out cr = answer /\
        Next_all (NewDecoder (plain_stream (A := toy_aead) (ss_Reader sr)) RoleServer) = (ms, Some (IOErr EOF)).
Proof.
  apply (connection_roundtrip (AL := toy_aead_laws) (CL := toy_curve_laws));
    [reflexivity | exact demo_randomness].
Defined.

Lemma responder_silent_witness :
  let run := wire_Handshake (A := toy_aead) (C := toy_curve) (demo_random x03) demo_key false
    (mkConn (mkStream (bytes_of "GET / HTTP/1.1") EOF) (bytes_of "before")) in
  run.1 = Err ErrNotPeer /\ c_out run.2 = bytes_of "before".
Proof.
  cbv zeta. split; [reflexivity|].
  destruct (responder_silent (A := toy_aead) (C := toy_curve) (demo_random x03) demo_key
    (mkConn (mkStream (bytes_of "GET / HTTP/1.1") EOF) (bytes_of "before")))
    as [[E _]|(h & h1 & answer & h2 & _ & (s1 & m & s2 & payload & Hv & _) & _)]; [exact E|].
  vm_compute in Hv. discriminate Hv.
Defined.

Lemma preamble_decides_witness :
  exists e rw', wire_Handshake (A := toy_aead) (C := toy_curve) (demo_random x02) demo_key true
      (mkConn (mkStream (bytes_of "HPOL1" ++ bytes_of "more") EOF) []) = (Err e, rw') /\
    e = VersionError 0 49 /\ c_in rw' = mkStream (bytes_of "more") EOF.
Proof.
  apply (preamble_decides (AL := toy_aead_laws) (CL := toy_curve_laws) (demo_random x02) demo_key true []
    (bytes_of "HPOL1") (bytes_of "more") EOF);
    [reflexivity | by do 2 eexists | reflexivity | by right].
Defined.
