(* ===== verification/GoStrings.v ===== *)
(** The string functions of Go's standard library that the header and
    configuration code uses: trimming, splitting and searching, letter case and
    [textproto.CanonicalMIMEHeaderKey], numbers, hexadecimal and
    [net.SplitHostPort].  They work on the bytes of a string. *)

From S2P Require Import Prelude Bytes.
Local Open Scope N_scope.

Definition map_bytes (f : list byte -> list byte) (s : string) : string := string_of (f (bytes_of s)).

(** ** [strings.HasPrefix] *)
Fixpoint starts_with (p l : list byte) : option (list byte) :=
  match p, l with
  | [], l => Some l
  | x :: p, y :: l => if decide (x = y) then starts_with p l else None
  | _ :: _, [] => None
  end.
Definition HasPrefix (s p : string) : bool :=
  match starts_with (bytes_of p) (bytes_of s) with Some _ => true | None => false end.

(** ** [strings.TrimSpace]: the encodings of the code points [unicode.IsSpace]
    holds of *)
Definition space_after_e2_80 : list N :=
  [0x80; 0x81; 0x82; 0x83; 0x84; 0x85; 0x86; 0x87; 0x88; 0x89; 0x8A; 0xA8; 0xA9; 0xAF].
Definition spaces : list (list byte) :=
  map (map byte_of)
    ([[9]; [10]; [11]; [12]; [13]; [32]; [0xC2; 0x85]; [0xC2; 0xA0]; [0xE1; 0x9A; 0x80];
      [0xE2; 0x81; 0x9F]; [0xE3; 0x80; 0x80]] ++ map (fun b => [0xE2; 0x80; b]) space_after_e2_80).

Definition cut_space (sps : list (list byte)) (l : list byte) : option (list byte) :=
  fold_right (fun sp r => match starts_with sp l with Some l' => Some l' | None => r end) None sps.

(** Each round takes at least a byte. *)
Fixpoint trim_left (fuel : nat) (sps : list (list byte)) (l : list byte) : list byte :=
  match fuel with
  | O => l
  | S fuel => match cut_space sps l with Some l' => trim_left fuel sps l' | None => l end
  end.

Definition trim_bytes (l : list byte) : list byte :=
  let l := trim_left (length l) spaces l in
  rev (trim_left (length l) (map (@rev byte) spaces) (rev l)).
Definition TrimSpace : string -> string := map_bytes trim_bytes.

(** ** [strings.Split] at one byte *)
Fixpoint split_bytes (sep : byte) (l : list byte) : list (list byte) :=
  match l with
  | [] => [[]]
  | b :: l =>
      if decide (b = sep) then [] :: split_bytes sep l
      else match split_bytes sep l with
           | w :: ws => (b :: w) :: ws
           | [] => [[b]]
           end
  end.
Definition Split (s : string) (sep : byte) : list string := map string_of (split_bytes sep (bytes_of s)).

(** ** Searching: [strings.IndexByte], [IndexAny], [LastIndexByte], [Contains]
    of one byte, [Cut] at one byte *)
Fixpoint index_where (P : byte -> bool) (l : list byte) : option nat :=
  match l with
  | [] => None
  | b :: l => if P b then Some O else S <$> index_where P l
  end.
Definition is_byte (b c : byte) : bool := bool_decide (b = c).
Definition index_byte (b : byte) : list byte -> option nat := index_where (is_byte b).
Definition last_index_byte (b : byte) (l : list byte) : option nat :=
  (fun i => (length l - 1 - i)%nat) <$> index_byte b (rev l).
Definition has_byte (b : byte) (l : list byte) : bool := existsb (is_byte b) l.
Definition cut_byte (b : byte) (l : list byte) : option (list byte * list byte) :=
  (fun i => (take i l, drop (S i) l)) <$> index_byte b l.
Definition ends_with (b : byte) (l : list byte) : bool :=
  match last l with Some c => is_byte b c | None => false end.

(** ** Numbers: [strconv.ParseUint] in base 10 and [strconv.Atoi] *)
Definition digit (b : byte) : option N :=
  if in_range 48 57 b then Some (byte_val b - 48) else None.

Fixpoint digits (acc : N) (l : list byte) : option N :=
  match l with
  | [] => Some acc
  | b :: l => match digit b with Some d => digits (10 * acc + d) l | None => None end
  end.

(** A value of at most [bits] bits; more is an error. *)
Definition ParseUint (bits : N) (l : list byte) : option N :=
  match l with
  | [] => None
  | _ => match digits 0 l with
         | Some n => if n <? 2 ^ bits then Some n else None
         | None => None
         end
  end.

Definition Atoi (l : list byte) : option Z :=
  let number neg l :=
    match l with
    | [] => None
    | _ => match digits 0 l with
           | Some n =>
               let z := if neg : bool then (- Z.of_N n)%Z else Z.of_N n in
               if ((- 2 ^ 63 <=? z) && (z <? 2 ^ 63))%Z then Some z else None
           | None => None
           end
    end in
  match l with
  | x2d :: l => number true l
  | x2b :: l => number false l
  | _ => number false l
  end.

(** ** [hex.DecodeString] *)
Definition hex_digit_val (b : byte) : option N :=
  if in_range 48 57 b then Some (byte_val b - 48)
  else if in_range 97 102 b then Some (byte_val b - 87)
  else if in_range 65 70 b then Some (byte_val b - 55)
  else None.

Fixpoint hex_decode (l : list byte) : option (list byte) :=
  match l with
  | [] => Some []
  | hi :: lo :: l =>
      match hex_digit_val hi, hex_digit_val lo, hex_decode l with
      | Some h, Some l, Some bs => Some (byte_of (16 * h + l) :: bs)
      | _, _, _ => None
      end
  | _ => None
  end.

(** ** [hex.EncodeToString] *)
Definition hex_digit (n : N) : byte := byte_of (if n <? 10 then 48 + n else 87 + n).

Definition hex_encode (l : list byte) : list byte :=
  flat_map (fun b => [hex_digit (byte_val b / 16); hex_digit (byte_val b mod 16)]) l.

Lemma hex_decode_encode l : hex_decode (hex_encode l) = Some l.
Proof.
  induction l as [|b l IH]; [done|]. cbn [hex_encode flat_map app hex_decode].
  fold (hex_encode l). rewrite IH. by destruct b.
Qed.

Lemma length_hex_encode l : length (hex_encode l) = (2 * length l)%nat.
Proof. induction l as [|b l IH]; simpl in *; [done|]. rewrite IH. lia. Qed.

(** ** [net.SplitHostPort] *)
Definition colon : byte := x3a.
Definition open_bracket : byte := x5b.
Definition close_bracket : byte := x5d.

Definition SplitHostPort (l : list byte) : option (list byte * list byte) :=
  match last_index_byte colon l with
  | None => None
  | Some i =>
      let port := drop (S i) l in
      if match l with b :: _ => is_byte open_bracket b | [] => false end then
        match index_byte close_bracket l with
        | None => None
        | Some e =>
            if negb (bool_decide (S e = i)) then None
            else if has_byte open_bracket (drop 1 l) || has_byte close_bracket (drop (S e) l) then None
            else Some (take (e - 1) (drop 1 l), port)
        end
      else
        let host := take i l in
        if has_byte colon host || has_byte open_bracket l || has_byte close_bracket l then None
        else Some (host, port)
  end.

(** ** Letter case *)
Definition is_upper (b : byte) : bool := in_range 65 90 b.
Definition is_lower (b : byte) : bool := in_range 97 122 b.
Definition to_lower (b : byte) : byte := if is_upper b then byte_of (byte_val b + 32) else b.
Definition to_upper (b : byte) : byte := if is_lower b then byte_of (byte_val b - 32) else b.

(** [strings.EqualFold] against a word none of whose letters has a case form
    outside ASCII. *)
Definition EqualFold (s t : string) : bool :=
  bool_decide (map to_lower (bytes_of s) = map to_lower (bytes_of t)).

(** ** [textproto.CanonicalMIMEHeaderKey] *)
Definition token_byte (b : byte) : bool :=
  is_upper b || is_lower b || in_range 48 57 b ||
  bool_decide (byte_val b ∈ [33; 35; 36; 37; 38; 39; 42; 43; 45; 46; 94; 95; 96; 124; 126]).

Fixpoint canonical_bytes (upper : bool) (l : list byte) : list byte :=
  match l with
  | [] => []
  | b :: l =>
      let b := if upper then to_upper b else to_lower b in
      b :: canonical_bytes (byte_val b =? 45) l
  end.

Definition CanonicalMIMEHeaderKey (s : string) : string :=
  if forallb token_byte (bytes_of s) then map_bytes (canonical_bytes true) s else s.

(** ** Facts *)
Definition bytes_all (P : byte -> bool) : bool := forallb (fun n => P (byte_of n)) (map N.of_nat (seq 0 256)).

(** A decidable claim about every byte. *)
Lemma all_bytes (P : byte -> bool) b : bytes_all P = true -> P b = true.
Proof.
  unfold bytes_all. rewrite forallb_forall. intros H. rewrite <- (byte_of_val b). apply H.
  apply in_map_iff. exists (N.to_nat (byte_val b)). pose proof (byte_val_lt b).
  split; [lia|]. apply in_seq. lia.
Qed.

Lemma token_case b : token_byte (to_upper b) = token_byte b /\ token_byte (to_lower b) = token_byte b.
Proof.
  split; apply eqb_true_iff;
    [apply (all_bytes (fun b => eqb (token_byte (to_upper b)) (token_byte b)))
    |apply (all_bytes (fun b => eqb (token_byte (to_lower b)) (token_byte b)))]; vm_compute; reflexivity.
Qed.

Lemma all_bytes_eq (f g : byte -> byte) b :
  bytes_all (fun b => bool_decide (f b = g b)) = true -> f b = g b.
Proof. intros H. by apply (all_bytes (fun b => bool_decide (f b = g b)) b), bool_decide_eq_true in H. Qed.

Lemma case_idem b : to_upper (to_upper b) = to_upper b /\ to_lower (to_lower b) = to_lower b.
Proof.
  split; [apply (all_bytes_eq (fun b => to_upper (to_upper b)))
         |apply (all_bytes_eq (fun b => to_lower (to_lower b)))]; vm_compute; reflexivity.
Qed.

Lemma canonical_tokens u l : forallb token_byte (canonical_bytes u l) = forallb token_byte l.
Proof.
  revert u. induction l as [|b l IH]; intros u; [done|]. simpl. rewrite IH.
  destruct (token_case b) as [Hu Hl]. destruct u; by rewrite ?Hu, ?Hl.
Qed.

Lemma canonical_bytes_idem u l : canonical_bytes u (canonical_bytes u l) = canonical_bytes u l.
Proof.
  revert u. induction l as [|b l IH]; intros u; [done|]. simpl.
  destruct (case_idem b) as [Hu Hl]. destruct u; by rewrite ?Hu, ?Hl, IH.
Qed.

Lemma canonical_idem s :
  CanonicalMIMEHeaderKey (CanonicalMIMEHeaderKey s) = CanonicalMIMEHeaderKey s.
Proof.
  unfold CanonicalMIMEHeaderKey at 2 3. destruct (forallb token_byte (bytes_of s)) eqn:E.
  - unfold CanonicalMIMEHeaderKey, map_bytes.
    by rewrite bytes_of_string_of, canonical_tokens, E, canonical_bytes_idem.
  - unfold CanonicalMIMEHeaderKey. by rewrite E.
Qed.

Example canonical_examples :
  map CanonicalMIMEHeaderKey ["content-LENGTH"; "te"; "x-a-b"; "bad name"]%string =
    ["Content-Length"; "Te"; "X-A-B"; "bad name"]%string.
Proof. reflexivity. Qed.

Example trim_examples :
  map TrimSpace ["  a b "; ""; " "; "x"]%string = ["a b"; ""; ""; "x"]%string.
Proof. reflexivity. Qed.

Example address_examples :
  map (fun s => option_map (fun '(h, p) => (string_of h, string_of p)) (SplitHostPort (bytes_of s)))
    ["host:80"; ":80"; "[::1]:80"; "::1:80"; "host"; "[a]b:1"]%string =
  [Some ("host", "80"); Some ("", "80"); Some ("::1", "80"); None; None; None]%string.
Proof. reflexivity. Qed.
