(* ===== verification/Pool.v ===== *)
(** The server's queues and slot accounting: internal/pool/pool.go.

    Providers, leases and waiters are pointers in the source and are shared
    between the pool and its callers, so the model keeps them in stores keyed
    by an address; a service is found by its name, since services are made
    once and never removed.  What a caller put in [Target] is a parameter [T]:
    the pool never looks inside.

    Every operation that holds the pool's lock from beginning to end is one
    function on the pool.  [Acquire], which waits without the lock, is cut at
    its lock regions and channel operations; PoolSystem.v interleaves them. *)

From S2P Require Import Prelude.
Local Open Scope Z_scope.

Section Pool.
Context {T : Type}.

Record Provider : Type := mkProvider {
  pr_Peer : string;
  pr_Service : string;
  pr_Slots : Z;          (* uint16 *)
  pr_Priority : Z;       (* uint16 *)
  pr_Target : T;
  pr_busy : Z;           (* int *)
  pr_gone : bool;
}.

Record service : Type := mkService {
  sv_providers : list nat;   (* addresses of providers *)
  sv_waiters : list nat;     (* addresses of waiters *)
}.

Record Lease : Type := mkLease {
  l_service : string;
  l_provider : nat;
  l_released : bool;
}.

(** The pool with the stores it shares: a waiter is its one-slot channel. *)
Record Pool : Type := mkPool {
  p_timeout : Z;                       (* time.Duration, nanoseconds *)
  p_services : gmap string service;
  p_heap : gmap nat Provider;
  p_leases : gmap nat Lease;
  p_chans : gmap nat (option nat);
  p_next : nat;                        (* the next fresh address *)
}.

Definition New (timeout : Z) : Pool := mkPool timeout ∅ ∅ ∅ ∅ 0.

(** ** Updates of one store *)
Definition set_service (name : string) (s : service) (p : Pool) : Pool :=
  mkPool (p_timeout p) (<[name := s]> (p_services p)) (p_heap p) (p_leases p) (p_chans p) (p_next p).
Definition set_provider (a : nat) (pr : Provider) (p : Pool) : Pool :=
  mkPool (p_timeout p) (p_services p) (<[a := pr]> (p_heap p)) (p_leases p) (p_chans p) (p_next p).
Definition set_lease (a : nat) (l : Lease) (p : Pool) : Pool :=
  mkPool (p_timeout p) (p_services p) (p_heap p) (<[a := l]> (p_leases p)) (p_chans p) (p_next p).
Definition set_chan (a : nat) (c : option nat) (p : Pool) : Pool :=
  mkPool (p_timeout p) (p_services p) (p_heap p) (p_leases p) (<[a := c]> (p_chans p)) (p_next p).
(** Allocation: an address nothing has been stored under. *)
Definition alloc (p : Pool) : nat * Pool :=
  (p_next p,
   mkPool (p_timeout p) (p_services p) (p_heap p) (p_leases p) (p_chans p) (S (p_next p))).

Definition with_busy (n : Z) (pr : Provider) : Provider :=
  mkProvider (pr_Peer pr) (pr_Service pr) (pr_Slots pr) (pr_Priority pr) (pr_Target pr) n (pr_gone pr).
Definition with_gone (pr : Provider) : Provider :=
  mkProvider (pr_Peer pr) (pr_Service pr) (pr_Slots pr) (pr_Priority pr) (pr_Target pr) (pr_busy pr) true.

(** ** Services *)
Definition lookup_service (p : Pool) (name : string) : service :=
  match p_services p !! name with Some s => s | None => mkService [] [] end.

(** [service] finds a service, making it the first time anyone asks. *)
Definition make_service (name : string) (p : Pool) : Pool :=
  match p_services p !! name with
  | Some _ => p
  | None => set_service name (mkService [] []) p
  end.

Definition waiters (p : Pool) (name : string) : list nat := sv_waiters (lookup_service p name).
Definition providers (p : Pool) (name : string) : list nat := sv_providers (lookup_service p name).

Definition set_waiters (name : string) (ws : list nat) (p : Pool) : Pool :=
  set_service name (mkService (providers p name) ws) p.
Definition set_providers (name : string) (ps : list nat) (p : Pool) : Pool :=
  set_service name (mkService ps (waiters p name)) p.

(** ** Choosing a provider *)
Definition free (pr : Provider) : Z := pr_Slots pr - pr_busy pr.

(** The loop body of [best]: skip a provider that is gone or full, keep the
    better of the rest. *)
Definition better (pr best : Provider) : bool :=
  (pr_Priority pr <? pr_Priority best) ||
  ((pr_Priority pr =? pr_Priority best) && (free best <? free pr)).

Definition best_step (heap : gmap nat Provider) (b : option (nat * Provider)) (a : nat)
    : option (nat * Provider) :=
  match heap !! a with
  | None => b
  | Some pr =>
      if pr_gone pr || (pr_Slots pr <=? pr_busy pr) then b
      else match b with
           | None => Some (a, pr)
           | Some (_, best) => if better pr best then Some (a, pr) else b
           end
  end.

Definition best (p : Pool) (name : string) : option (nat * Provider) :=
  fold_left (best_step (p_heap p)) (providers p name) None.

(** [take] marks a slot busy and makes the lease that gives it back. *)
Definition take (name : string) (a : nat) (pr : Provider) (p : Pool) : nat * Pool :=
  let p := set_provider a (with_busy (pr_busy pr + 1) pr) p in
  let '(l, p) := alloc p in
  (l, set_lease l (mkLease name a false) p).

(** Sending on a waiter's one-slot channel; [None] if the send would block. *)
Definition send (w l : nat) (p : Pool) : option Pool :=
  match p_chans p !! w with
  | Some None => Some (set_chan w (Some l) p)
  | _ => None
  end.

(** [dispatch]: the loop over the waiters, oldest first, that stops when no
    provider is free; [None] if it would block with the lock held. *)
Fixpoint dispatch_loop (name : string) (ws : list nat) (p : Pool) : option Pool :=
  match ws with
  | [] => Some p
  | w :: ws =>
      match best p name with
      | None => Some p
      | Some (a, pr) =>
          let p := set_waiters name ws p in
          let '(l, p) := take name a pr p in
          match send w l p with
          | None => None
          | Some p => dispatch_loop name ws p
          end
      end
  end.

Definition dispatch (name : string) (p : Pool) : option Pool :=
  dispatch_loop name (waiters p name) p.

(** ** The operations *)

(** [Add], given the provider at address [a]. *)
Definition Add (a : nat) (p : Pool) : option Pool :=
  match p_heap p !! a with
  | None => None
  | Some pr =>
      let p := make_service (pr_Service pr) p in
      let p := set_providers (pr_Service pr) (providers p (pr_Service pr) ++ [a]) p in
      dispatch (pr_Service pr) p
  end.

(** The removal loops of [Remove] and [abandon]: the first occurrence. *)
Fixpoint remove_first (a : nat) (l : list nat) : list nat :=
  match l with
  | [] => []
  | b :: l => if decide (b = a) then l else b :: remove_first a l
  end.

Definition Remove (a : nat) (p : Pool) : Pool :=
  match p_heap p !! a with
  | None => p
  | Some pr =>
      let p := set_provider a (with_gone pr) p in
      match p_services p !! pr_Service pr with
      | None => p
      | Some s => set_providers (pr_Service pr) (remove_first a (sv_providers s)) p
      end
  end.

(** [Release] of the lease at address [l]. *)
Definition Release (l : nat) (p : Pool) : option Pool :=
  match p_leases p !! l with
  | None => None
  | Some ls =>
      if l_released ls then Some p
      else
        let p := set_lease l (mkLease (l_service ls) (l_provider ls) true) p in
        match p_heap p !! l_provider ls with
        | None => None
        | Some pr =>
            let p := set_provider (l_provider ls) (with_busy (pr_busy pr - 1) pr) p in
            dispatch (l_service ls) p
        end
  end.

(** The first lock region of [Acquire]: a lease at once, or a waiter put in
    the queue. *)
Definition Acquire_enter (name : string) (front : bool) (p : Pool) : (nat + nat) * Pool :=
  let p := make_service name p in
  match (match waiters p name with [] => best p name | _ => None end) with
  | Some (a, pr) => let '(l, p) := take name a pr p in (inl l, p)
  | None =>
      let '(w, p) := alloc p in
      let p := set_chan w None p in
      let ws := waiters p name in
      (inr w, set_waiters name (if front then w :: ws else ws ++ [w]) p)
  end.

(** Receiving from a waiter's channel without waiting. *)
Definition receive (w : nat) (p : Pool) : option (nat * Pool) :=
  match p_chans p !! w with
  | Some (Some l) => Some (l, set_chan w None p)
  | _ => None
  end.

(** The lock region of [abandon]: [true] when the waiter was still queued. *)
Definition abandon_queue (name : string) (w : nat) (p : Pool) : bool * Pool :=
  if bool_decide (w ∈ waiters p name)
  then (true, set_waiters name (remove_first w (waiters p name)) p)
  else (false, p).

(** A new provider, as its owner makes it before [Add]. *)
Definition new_provider (peer name : string) (slots priority : Z) (target : T) (p : Pool)
    : nat * Pool :=
  let '(a, p) := alloc p in
  (a, set_provider a (mkProvider peer name slots priority target 0 false) p).

(** ** [Snapshot] *)
Record ProviderState : Type := mkProviderState {
  ps_Peer : string; ps_Busy : Z; ps_Slots : Z; ps_Priority : Z;
}.
Record ServiceState : Type := mkServiceState {
  ss_Name : string; ss_Waiting : Z; ss_Providers : list ProviderState;
}.

Definition provider_state (pr : Provider) : ProviderState :=
  mkProviderState (pr_Peer pr) (pr_busy pr) (pr_Slots pr) (pr_Priority pr).

Definition service_state (p : Pool) (name : string) : ServiceState :=
  mkServiceState name (Z.of_nat (length (waiters p name)))
    (provider_state <$> omap (fun a => p_heap p !! a) (providers p name)).

Definition Snapshot (p : Pool) : list ServiceState :=
  service_state p <$> sort_strings (map_to_list (p_services p)).*1.

End Pool.

Arguments Provider T : clear implicits.
Arguments Pool T : clear implicits.
