(* ===== verification/PoolFacts.v ===== *)
(** The pool's invariant and the operations that keep it.

    [core] is what holds at every point of the pool's lock regions; [settled]
    is what holds when the lock is free: no job waits while a provider of its
    service has a free slot. *)

From S2P Require Import Prelude Pool.
Local Open Scope Z_scope.

Section Facts.
Context {T : Type}.
Implicit Types (p : Pool T) (pr : Provider T) (name : string) (a w l : nat).

(** ** Reading an updated pool *)
Lemma lookup_set_service p name s name' :
  lookup_service (set_service name s p) name' =
    if decide (name = name') then s else lookup_service p name'.
Proof. unfold lookup_service. simpl. rewrite lookup_insert. by case_decide. Qed.

Lemma waiters_set_waiters p name ws name' :
  waiters (set_waiters name ws p) name' = if decide (name = name') then ws else waiters p name'.
Proof. unfold waiters at 1, set_waiters. rewrite lookup_set_service. by case_decide. Qed.

Lemma providers_set_waiters p name ws name' :
  providers (set_waiters name ws p) name' = providers p name'.
Proof.
  unfold providers at 1, set_waiters. rewrite lookup_set_service.
  case_decide; [by subst | done].
Qed.

Lemma providers_set_providers p name ps name' :
  providers (set_providers name ps p) name' = if decide (name = name') then ps else providers p name'.
Proof. unfold providers at 1, set_providers. rewrite lookup_set_service. by case_decide. Qed.

Lemma waiters_set_providers p name ps name' :
  waiters (set_providers name ps p) name' = waiters p name'.
Proof.
  unfold waiters at 1, set_providers. rewrite lookup_set_service.
  case_decide; [by subst | done].
Qed.

Lemma lookup_make_service p name name' :
  lookup_service (make_service name p) name' = lookup_service p name'.
Proof.
  unfold make_service. destruct (p_services p !! name) eqn:E; [done|].
  rewrite lookup_set_service. case_decide; [|done]. subst. unfold lookup_service. by rewrite E.
Qed.

Lemma make_service_stores p name :
  p_heap (make_service name p) = p_heap p /\ p_leases (make_service name p) = p_leases p /\
  p_chans (make_service name p) = p_chans p /\ p_next (make_service name p) = p_next p /\
  p_timeout (make_service name p) = p_timeout p.
Proof. unfold make_service. by destruct (p_services p !! name). Qed.

Lemma waiters_make_service p name name' : waiters (make_service name p) name' = waiters p name'.
Proof. unfold waiters. by rewrite lookup_make_service. Qed.

Lemma providers_make_service p name name' : providers (make_service name p) name' = providers p name'.
Proof. unfold providers. by rewrite lookup_make_service. Qed.

(** ** [best] *)
Definition available pr : bool := negb (pr_gone pr) && (pr_busy pr <? pr_Slots pr).

(** [pr] is at least as good a choice as [pr']: a smaller priority number, or
    the same one and at least as much room. *)
Definition at_least_as_good pr pr' : Prop :=
  pr_Priority pr < pr_Priority pr' \/
  (pr_Priority pr = pr_Priority pr' /\ free pr' <= free pr).

Lemma at_least_as_good_refl pr : at_least_as_good pr pr.
Proof. right. lia. Qed.

Lemma at_least_as_good_trans pr1 pr2 pr3 :
  at_least_as_good pr1 pr2 -> at_least_as_good pr2 pr3 -> at_least_as_good pr1 pr3.
Proof. unfold at_least_as_good. lia. Qed.

Lemma not_better pr pr' : better pr pr' = false -> at_least_as_good pr' pr.
Proof. unfold better, at_least_as_good. lia. Qed.

Lemma better_at_least pr pr' : better pr pr' = true -> at_least_as_good pr pr'.
Proof. unfold better, at_least_as_good. lia. Qed.

(** What a scan that started from [b] knows about the providers it passed. *)
Definition best_of (heap : gmap nat (Provider T)) (ps : list nat) (b : option (nat * Provider T)) : Prop :=
  match b with
  | None => forall a pr, a ∈ ps -> heap !! a = Some pr -> available pr = false
  | Some (a, pr) =>
      a ∈ ps /\ heap !! a = Some pr /\ available pr = true /\
      forall a' pr', a' ∈ ps -> heap !! a' = Some pr' -> available pr' = true -> at_least_as_good pr pr'
  end.

Lemma elem_of_snoc (b a : nat) ps : b ∈ ps ++ [a] -> b ∈ ps \/ b = a.
Proof. rewrite elem_of_app, list_elem_of_singleton. done. Qed.

Lemma best_step_spec heap ps b a :
  best_of heap ps b -> best_of heap (ps ++ [a]) (best_step heap b a).
Proof.
  unfold best_step. destruct (heap !! a) as [pr|] eqn:Ha.
  2: { destruct b as [[a' pr']|]; simpl; intros H.
       - destruct H as (Hin & Hh & Hav & Hall). split_and!; [set_solver|done..|].
         intros b q [?| ->]%elem_of_snoc ??; [eauto | congruence].
       - intros b q [?| ->]%elem_of_snoc ?; [eauto | congruence]. }
  replace (pr_gone pr || (pr_Slots pr <=? pr_busy pr)) with (negb (available pr))
    by (unfold available; destruct (pr_gone pr); simpl; lia).
  destruct (available pr) eqn:Hav; simpl.
  - destruct b as [[a' pr']|]; simpl.
    + intros (Hin & Hh & Hav' & Hall). destruct (better pr pr') eqn:Hb; simpl.
      * split_and!; [set_solver|done..|].
        intros b q [?| ->]%elem_of_snoc ??.
        -- eapply at_least_as_good_trans; [by apply better_at_least | eauto].
        -- simplify_eq. apply at_least_as_good_refl.
      * split_and!; [set_solver|done..|].
        intros b q [?| ->]%elem_of_snoc ??; [eauto|].
        simplify_eq. by apply not_better.
    + intros Hall. split_and!; [set_solver|done..|].
      intros b q [Hb| ->]%elem_of_snoc ??.
      * by rewrite (Hall b q) in *.
      * simplify_eq. apply at_least_as_good_refl.
  - destruct b as [[a' pr']|]; simpl.
    + intros (Hin & Hh & Hav' & Hall). split_and!; [set_solver|done..|].
      intros b q [?| ->]%elem_of_snoc ??; [eauto | congruence].
    + intros Hall b q [?| ->]%elem_of_snoc ?; [eauto | congruence].
Qed.

Lemma best_scan_spec heap ps qs b :
  best_of heap ps b -> best_of heap (ps ++ qs) (fold_left (best_step heap) qs b).
Proof.
  revert ps b. induction qs as [|a qs IH]; intros ps b H; simpl; [by rewrite app_nil_r|].
  rewrite (app_assoc _ [a] qs). by apply IH, best_step_spec.
Qed.

Lemma best_spec p name : best_of (p_heap p) (providers p name) (best p name).
Proof.
  apply (best_scan_spec (p_heap p) []). simpl. intros a pr Ha. by apply elem_of_nil in Ha.
Qed.

Lemma best_None p name :
  best p name = None <->
  forall a pr, a ∈ providers p name -> p_heap p !! a = Some pr -> available pr = false.
Proof.
  pose proof (best_spec p name) as H. destruct (best p name) as [[a pr]|]; [|done].
  split; [done|]. intros Hall. destruct H as (Hin & Hh & Hav & _).
  by rewrite (Hall a pr) in Hav.
Qed.

(** ** Counting live leases *)
Definition is_live a (x : nat * Lease) : Prop := l_provider x.2 = a /\ l_released x.2 = false.
#[local] Instance is_live_dec a x : Decision (is_live a x).
Proof. unfold is_live. apply _. Defined.

Definition live p a : Z := Z.of_nat (size (filter (is_live a) (p_leases p))).

Lemma size_filter_insert (P : nat * Lease -> Prop) `{!forall x, Decision (P x)}
    (m : gmap nat Lease) k x :
  m !! k = None ->
  size (filter P (<[k := x]> m)) = (size (filter P m) + if decide (P (k, x)) then 1 else 0)%nat.
Proof.
  intros Hk. case_decide as HP.
  - rewrite map_filter_insert_True by done. rewrite map_size_insert_None; [lia|].
    apply map_lookup_filter_None. by left.
  - rewrite map_filter_insert_False by done. rewrite delete_id by done. lia.
Qed.

Lemma live_new p l ls a :
  p_leases p !! l = None ->
  live (set_lease l ls p) a = live p a + if decide (is_live a (l, ls)) then 1 else 0.
Proof.
  intros Hl. unfold live. simpl. rewrite size_filter_insert by done. case_decide; lia.
Qed.

Lemma live_change p l ls ls' a :
  p_leases p !! l = Some ls ->
  live (set_lease l ls' p) a =
    live p a - (if decide (is_live a (l, ls)) then 1 else 0)
             + if decide (is_live a (l, ls')) then 1 else 0.
Proof.
  intros Hl. unfold live. simpl.
  rewrite <- (insert_delete_id _ _ _ Hl) at 2. rewrite <- insert_delete_eq.
  rewrite !size_filter_insert by apply lookup_delete_eq. repeat case_decide; lia.
Qed.

Lemma live_nonneg p a : 0 <= live p a.
Proof. unfold live. lia. Qed.

(** ** The invariant *)
Record core p : Prop := {
  core_fresh a : (p_next p <= a)%nat ->
    p_heap p !! a = None /\ p_leases p !! a = None /\ p_chans p !! a = None;
  core_member name a : a ∈ providers p name ->
    exists pr, p_heap p !! a = Some pr /\ pr_Service pr = name /\ pr_gone pr = false;
  core_nodup name : NoDup (providers p name);
  core_busy a pr : p_heap p !! a = Some pr -> pr_busy pr = live p a /\ live p a <= pr_Slots pr;
  core_lease l ls : p_leases p !! l = Some ls ->
    exists pr, p_heap p !! l_provider ls = Some pr /\ pr_Service pr = l_service ls;
  core_empty name w : w ∈ waiters p name -> p_chans p !! w = Some None;
  core_queue name : NoDup (waiters p name);
  core_one name name' w : w ∈ waiters p name -> w ∈ waiters p name' -> name = name';
}.

(** No job waits while a slot of its service is free. *)
Definition settled_at p name : Prop := waiters p name = [] \/ best p name = None.
Definition settled p : Prop := forall name, settled_at p name.

Definition pool_inv p : Prop := core p /\ settled p.

Lemma core_no_live p a : core p -> p_heap p !! a = None -> live p a = 0.
Proof.
  intros H Ha. unfold live. assert (filter (is_live a) (p_leases p) = ∅) as ->; [|done].
  apply map_empty_filter_2. intros l ls Hl [<- _]. simpl in Ha.
  destruct (core_lease _ H _ _ Hl) as (pr & Hp & _). congruence.
Qed.

Lemma New_inv timeout : pool_inv (New timeout).
Proof.
  split; [split|]; unfold New; simpl.
  - by intros a _; rewrite !lookup_empty.
  - intros name a Ha. by apply elem_of_nil in Ha.
  - intros. constructor.
  - intros a pr. by rewrite lookup_empty.
  - intros a pr. by rewrite lookup_empty.
  - intros name a Ha. by apply elem_of_nil in Ha.
  - intros. constructor.
  - intros name name' a Ha. by apply elem_of_nil in Ha.
  - intros name. by left.
Qed.

(** ** The pieces of the operations keep [core] *)
Lemma core_pop p name w ws :
  core p -> waiters p name = w :: ws -> core (set_waiters name ws p).
Proof.
  intros H Hw. assert (forall n v, v ∈ waiters (set_waiters name ws p) n -> v ∈ waiters p n) as Hsub.
  { intros n v. rewrite waiters_set_waiters. case_decide; [subst; rewrite Hw; set_solver | done]. }
  destruct H. split; try (setoid_rewrite providers_set_waiters); eauto.
  intros n. rewrite waiters_set_waiters. case_decide; [|done]. subst.
  specialize (core_queue0 n). rewrite Hw in core_queue0. by apply NoDup_cons in core_queue0 as [_ ?].
Qed.

Lemma core_take p name a pr :
  core p -> a ∈ providers p name -> p_heap p !! a = Some pr -> available pr = true ->
  core (take name a pr p).2.
Proof.
  intros H Hin Ha Hav. unfold take. simpl.
  destruct (core_member _ H _ _ Hin) as (pr' & Ha' & Hs & Hg). simplify_eq.
  destruct (core_busy _ H _ _ Ha) as [Hb Hle].
  assert (pr_busy pr < pr_Slots pr) by (unfold available in Hav; lia).
  destruct (core_fresh _ H (p_next p)) as (Hf1 & Hf2 & Hf3); [lia|].
  assert (forall b, live (set_lease (p_next p) (mkLease (pr_Service pr) a false) p) b =
    live p b + if decide (a = b) then 1 else 0) as Hlive.
  { intros b. rewrite live_new by done. unfold is_live. simpl.
    destruct (decide (a = b)) as [E|E]; [rewrite decide_True by done | rewrite decide_False by (by intros [? _])]; lia. }
  split; unfold set_lease, set_provider, alloc; simpl.
  - intros b Hb'. destruct (core_fresh _ H b) as (? & ? & ?); [lia|].
    assert (a <> b) by congruence. assert (p_next p <> b) by lia.
    by rewrite !lookup_insert_ne by done.
  - intros n b Hn. destruct (core_member _ H n b Hn) as (q & Hq & ? & ?).
    rewrite lookup_insert. case_decide; [|eauto]. subst b. simplify_eq. by eexists.
  - apply (core_nodup _ H).
  - intros b q. specialize (Hlive b). unfold live in Hlive |- *. simpl in Hlive |- *. rewrite Hlive.
    fold (live p b). rewrite lookup_insert. case_decide.
    + subst b. intros [= <-]. simpl. lia.
    + intros Hq. destruct (core_busy _ H _ _ Hq). lia.
  - intros l ls. rewrite lookup_insert. case_decide.
    + intros [= <-]. simpl. rewrite lookup_insert_eq. by eexists.
    + intros Hl. destruct (core_lease _ H _ _ Hl) as (q & Hq & ?). rewrite lookup_insert.
      case_decide; [|eauto]. subst. rewrite Hq in Ha. simplify_eq. by eexists.
  - apply (core_empty _ H).
  - apply (core_queue _ H).
  - apply (core_one _ H).
Qed.

Lemma core_set_chan p w c :
  core p -> (w < p_next p)%nat -> (forall name, w ∉ waiters p name) -> core (set_chan w c p).
Proof.
  intros H Hw Hq. destruct H. split; simpl; eauto.
  - intros a Ha. destruct (core_fresh0 a Ha) as (? & ? & ?).
    rewrite lookup_insert_ne by lia. done.
  - intros name v Hv. rewrite lookup_insert_ne; [eauto|]. intros ->. by eapply Hq.
Qed.

(** ** [dispatch] is a sequence of grants

    One iteration of the loop: the oldest waiter leaves the queue with a lease
    on the best provider. *)
Definition granted name w (ws : list nat) a pr p : Pool T :=
  set_chan w (Some (p_next p)) (take name a pr (set_waiters name ws p)).2.

Inductive grant name p : Pool T -> Prop :=
  | grant_intro w ws a pr :
      waiters p name = w :: ws -> best p name = Some (a, pr) -> p_chans p !! w = Some None ->
      grant name p (granted name w ws a pr p).

Lemma grant_core name p p' : core p -> grant name p p' -> core p'.
Proof.
  intros H G. destruct G as [w ws a pr Hw Hb Hc].
  pose proof (best_spec p name) as Hs. rewrite Hb in Hs. destruct Hs as (Hin & Ha & Hav & _).
  unfold granted. apply core_set_chan.
  - apply core_take; [by eapply core_pop | by rewrite providers_set_waiters | done..].
  - simpl. destruct (decide (p_next p <= w)%nat) as [Hn|]; [|lia].
    destruct (core_fresh _ H _ Hn) as (_ & _ & ?). congruence.
  - intros n Hn. change (w ∈ waiters (set_waiters name ws p) n) in Hn.
    rewrite waiters_set_waiters in Hn. case_decide.
    + subst. pose proof (core_queue _ H n) as Hq. rewrite Hw in Hq. by apply NoDup_cons in Hq as [? _].
    + assert (name = n) by (apply (core_one _ H _ _ w); [rewrite Hw; set_solver | done]). congruence.
Qed.

(** What a service's queue and providers look like is all [settled_at] reads. *)
Lemma settled_at_same p p' name :
  waiters p' name = waiters p name -> providers p' name = providers p name ->
  (forall a, a ∈ providers p name -> p_heap p' !! a = p_heap p !! a) ->
  settled_at p name -> settled_at p' name.
Proof.
  unfold settled_at. intros -> Hp Hh [?|Hb]; [by left|]. right.
  rewrite best_None in *. rewrite Hp. intros a pr Ha. rewrite Hh by done. eauto.
Qed.

Lemma grant_settled_other name name' p p' :
  core p -> grant name p p' -> name <> name' -> settled_at p name' -> settled_at p' name'.
Proof.
  intros H G Hne. destruct G as [w ws a pr Hw Hb Hc].
  pose proof (best_spec p name) as Hs. rewrite Hb in Hs. destruct Hs as (Hin & Ha & _).
  apply settled_at_same.
  - change (waiters (set_waiters name ws p) name' = waiters p name').
    rewrite waiters_set_waiters. by case_decide.
  - apply (providers_set_waiters p name ws name').
  - intros b Hb'. unfold granted. simpl. rewrite lookup_insert_ne; [done|]. intros <-.
    destruct (core_member _ H _ _ Hin) as (q & ? & ? & _), (core_member _ H _ _ Hb') as (q' & ? & ? & _).
    congruence.
Qed.

Lemma dispatch_spec name p :
  core p ->
  exists p', dispatch name p = Some p' /\ rtc (grant name) p p' /\ settled_at p' name.
Proof.
  unfold dispatch. remember (waiters p name) as ws eqn:Hws. revert p Hws.
  induction ws as [|w ws IH]; intros p Hws H; cbn [dispatch_loop].
  { exists p. split; [done|]. split; [constructor | by left]. }
  destruct (best p name) as [[a pr]|] eqn:Hb.
  2: { exists p. split; [done|]. split; [constructor | by right]. }
  assert (p_chans p !! w = Some None) as Hc by (eapply (core_empty _ H name); rewrite <- Hws; set_solver).
  assert (grant name p (granted name w ws a pr p)) as G by (by constructor).
  destruct (IH (granted name w ws a pr p)) as (p' & Hd & Hr & Hs).
  - change (ws = waiters (set_waiters name ws p) name). rewrite waiters_set_waiters. by case_decide.
  - by eapply grant_core.
  - exists p'. split; [|by split; [eapply rtc_l|]].
    unfold take, send. simpl. rewrite Hc. exact Hd.
Qed.

Lemma dispatch_inv name p :
  core p -> (forall name', name <> name' -> settled_at p name') ->
  exists p', dispatch name p = Some p' /\ rtc (grant name) p p' /\ pool_inv p'.
Proof.
  intros H Hs. destruct (dispatch_spec name p H) as (p' & Hd & Hr & Hn).
  exists p'. split; [done|]. split; [done|]. clear Hd.
  assert (core p' /\ forall name', name <> name' -> settled_at p' name') as [Hc Ho].
  { clear Hn. induction Hr as [|p1 p2 p3 G _ IH]; [done|]. apply IH; [by eapply grant_core|].
    intros n Hne. eapply grant_settled_other; eauto. }
  split; [done|]. intros n. destruct (decide (name = n)) as [<-|]; auto.
Qed.

(** ** The operations keep the invariant *)

(** Two pools with the same stores, queues and providers. *)
Definition same_view p p' : Prop :=
  p_heap p' = p_heap p /\ p_leases p' = p_leases p /\ p_chans p' = p_chans p /\
  p_next p' = p_next p /\
  (forall name, waiters p' name = waiters p name) /\ (forall name, providers p' name = providers p name).

Lemma same_view_make_service p name : same_view p (make_service name p).
Proof.
  destruct (make_service_stores p name) as (? & ? & ? & ? & ?). split_and!; try done.
  - apply waiters_make_service.
  - apply providers_make_service.
Qed.

Lemma core_same_view p p' : same_view p p' -> core p -> core p'.
Proof.
  intros (Hh & Hl & Hc & Hn & Hw & Hp) []. split; unfold live in *; intros *;
    rewrite ?Hh, ?Hl, ?Hc, ?Hn, ?Hw, ?Hp; eauto.
Qed.

Lemma inv_same_view p p' : same_view p p' -> pool_inv p -> pool_inv p'.
Proof.
  intros V [H Hs]. split; [by eapply core_same_view|].
  destruct V as (Hh & _ & _ & _ & Hw & Hp). intros name.
  apply (settled_at_same p); auto. intros. by rewrite Hh.
Qed.

Lemma new_provider_inv peer name slots priority (t : T) p :
  0 <= slots -> pool_inv p -> pool_inv (new_provider peer name slots priority t p).2.
Proof.
  intros Hslots [H Hs]. unfold new_provider. simpl.
  destruct (core_fresh _ H (p_next p)) as (Hf & _); [lia|].
  assert (forall n a, a ∈ providers p n -> a <> p_next p) as Hne.
  { intros n a Ha ->. destruct (core_member _ H _ _ Ha) as (? & ? & _). congruence. }
  split.
  - pose proof (core_no_live _ _ H Hf) as Hz. destruct H. split; simpl; eauto.
    + intros a Ha. destruct (core_fresh0 a) as (? & ? & ?); [lia|]. by rewrite lookup_insert_ne by lia.
    + intros n a Ha. rewrite lookup_insert_ne by (symmetry; eauto). eauto.
    + intros a pr. rewrite lookup_insert. case_decide; [|eauto]. intros [= <-]. subst a.
      simpl. change (0 = live p (p_next p) /\ live p (p_next p) <= slots). lia.
    + intros l ls Hl. destruct (core_lease0 l ls Hl) as (q & Hq & ?).
      rewrite lookup_insert_ne by congruence. eauto.
  - intros n. apply (settled_at_same p); [done..| |apply Hs]. intros a Ha. simpl.
    rewrite lookup_insert_ne by (symmetry; eauto). done.
Qed.

Lemma Add_inv a pr p :
  pool_inv p -> p_heap p !! a = Some pr -> pr_gone pr = false ->
  (forall name, a ∉ providers p name) ->
  let mid := set_providers (pr_Service pr) (providers p (pr_Service pr) ++ [a])
               (make_service (pr_Service pr) p) in
  core mid /\ exists p', Add a p = Some p' /\ pool_inv p' /\ rtc (grant (pr_Service pr)) mid p'.
Proof.
  intros Hinv Ha Hg Hnin. cbv zeta. unfold Add. rewrite Ha. set (name := pr_Service pr) in *.
  apply (inv_same_view _ _ (same_view_make_service p name)) in Hinv as [H Hs].
  rewrite providers_make_service. destruct (make_service_stores p name) as (Hh & _).
  assert (forall n, a ∉ providers (make_service name p) n) as Hnin'
    by (intros n; rewrite providers_make_service; apply Hnin).
  assert (providers p name = providers (make_service name p) name) as Ep
    by (symmetry; apply providers_make_service).
  rewrite Ep. rewrite <- Hh in Ha.
  set (q := make_service name p) in *. clearbody q.
  assert (core (set_providers name (providers q name ++ [a]) q)) as Hmid.
  { destruct H. split; simpl; try (setoid_rewrite waiters_set_providers); eauto.
    + intros n b. rewrite providers_set_providers. case_decide; [|eauto]. subst n.
      intros [?| ->]%elem_of_snoc; [eauto | by exists pr].
    + intros n. rewrite providers_set_providers. case_decide; [|eauto]. subst n.
      apply NoDup_app. split_and!; [eauto | | apply NoDup_singleton].
      intros b Hb ->%list_elem_of_singleton. by apply (Hnin' name). }
  split; [done|].
  destruct (dispatch_inv name _ Hmid) as (p' & Hd & Hr & Hi).
  - intros n Hne. apply (settled_at_same q); [apply waiters_set_providers | | done | apply Hs].
    rewrite providers_set_providers. by case_decide.
  - by exists p'.
Qed.

Lemma elem_of_remove_first a b (k : list nat) : b ∈ remove_first a k -> b ∈ k.
Proof. induction k as [|c k IH]; simpl; [done|]. rewrite elem_of_cons. case_decide; [by right|]. rewrite elem_of_cons. intros [?|?]; auto. Qed.

Lemma NoDup_remove_first a (k : list nat) :
  NoDup k -> NoDup (remove_first a k) /\ a ∉ remove_first a k.
Proof.
  induction 1 as [|b k Hb Hk IH]; simpl; [split; [constructor | set_solver]|].
  case_decide; subst; [done|]. destruct IH as [H1 H2]. split; [|by rewrite not_elem_of_cons].
  constructor; [|done]. by intros ?%elem_of_remove_first.
Qed.

Lemma Remove_view a pr p :
  p_heap p !! a = Some pr ->
  let p' := Remove a p in
  p_heap p' = <[a := with_gone pr]> (p_heap p) /\ p_leases p' = p_leases p /\
  p_chans p' = p_chans p /\ p_next p' = p_next p /\
  (forall n, waiters p' n = waiters p n) /\
  (forall n, providers p' n =
     if decide (pr_Service pr = n) then remove_first a (providers p n) else providers p n).
Proof.
  intros Ha. unfold Remove. rewrite Ha. cbv zeta.
  set (p1 := set_provider a (with_gone pr) p).
  destruct (p_services p1 !! pr_Service pr) as [s|] eqn:Es.
  - split_and!; [done..| |].
    + apply (waiters_set_providers p1).
    + intros n. rewrite providers_set_providers. case_decide; [|done]. subst n.
      unfold providers, lookup_service. change (p_services p) with (p_services p1). by rewrite Es.
  - split_and!; [done..| |].
    + done.
    + intros n. case_decide; [|done]. subst n.
      assert (providers p (pr_Service pr) = []) as E.
      { unfold providers, lookup_service. change (p_services p) with (p_services p1). by rewrite Es. }
      change (providers p1 (pr_Service pr)) with (providers p (pr_Service pr)). by rewrite E.
Qed.

Lemma Remove_inv a p : pool_inv p -> pool_inv (Remove a p).
Proof.
  intros [H Hs]. destruct (p_heap p !! a) as [pr|] eqn:Ha; [|unfold Remove; by rewrite Ha].
  destruct (Remove_view a pr p Ha) as (Hh & Hl & Hc & Hn & Hw & Hp).
  assert (forall n b, b ∈ providers (Remove a p) n -> b ∈ providers p n /\ b <> a) as Hsub.
  { intros n b. rewrite Hp. case_decide as Hd.
    - intros Hb. split; [by eapply elem_of_remove_first|]. intros ->.
      destruct (NoDup_remove_first a (providers p n)) as [_ ?]; [apply (core_nodup _ H) | done].
    - intros Hb. split; [done|]. intros ->. destruct (core_member _ H _ _ Hb) as (q & ? & ? & _). congruence. }
  split.
  - split; unfold live; rewrite ?Hh, ?Hl, ?Hc, ?Hn.
    + intros b Hb. destruct (core_fresh _ H b Hb) as (Hb1 & ? & ?).
      rewrite lookup_insert_ne by congruence. done.
    + intros n b [Hb Hne]%Hsub. rewrite lookup_insert_ne by done. by apply (core_member _ H).
    + intros n. rewrite Hp. case_decide; [apply NoDup_remove_first|]; apply (core_nodup _ H).
    + intros b q. rewrite lookup_insert. case_decide.
      * intros [= <-]. subst b. apply (core_busy _ H _ _ Ha).
      * apply (core_busy _ H).
    + intros l ls Hls. destruct (core_lease _ H _ _ Hls) as (q & Hq & ?). rewrite lookup_insert.
      case_decide; [|eauto]. subst a. rewrite Hq in Ha. simplify_eq. by eexists.
    + intros n w. rewrite Hw. apply (core_empty _ H).
    + intros n. rewrite Hw. apply (core_queue _ H).
    + intros n n' w. rewrite !Hw. apply (core_one _ H).
  - intros n. destruct (Hs n) as [E|Hb]; [left; by rewrite Hw | right].
    rewrite best_None in *. intros b q [Hb' Hne]%Hsub. rewrite Hh, lookup_insert_ne by done. eauto.
Qed.

Lemma Release_inv l ls p :
  pool_inv p -> p_leases p !! l = Some ls ->
  exists p', Release l p = Some p' /\ pool_inv p' /\
    (if l_released ls then p' = p
     else exists pr, p_heap p !! l_provider ls = Some pr /\
       let mid := set_provider (l_provider ls) (with_busy (pr_busy pr - 1) pr)
                    (set_lease l (mkLease (l_service ls) (l_provider ls) true) p) in
       core mid /\ rtc (grant (l_service ls)) mid p').
Proof.
  intros [H Hs] Hl. unfold Release. rewrite Hl. destruct (l_released ls) eqn:Hrel.
  { exists p. split; [done|]. split; [by split | done]. }
  destruct (core_lease _ H _ _ Hl) as (pr & Ha & Hsv). simpl. rewrite Ha.
  set (a := l_provider ls) in *. set (p1 := set_provider a _ _).
  assert (forall b, live p1 b = live p b - if decide (a = b) then 1 else 0) as Hlive.
  { intros b. change (live p1 b) with (live (set_lease l (mkLease (l_service ls) a true) p) b).
    rewrite (live_change _ _ _ _ _ Hl). rewrite (decide_False (P := is_live b (l, mkLease _ _ true)))
      by (intros [_ [=]]). unfold is_live. simpl.
    destruct (decide (a = b)); [rewrite decide_True by done | rewrite decide_False by (by intros [? _])]; lia. }
  assert (forall b q, p_heap p1 !! b = Some q -> exists q', p_heap p !! b = Some q' /\
    pr_Service q = pr_Service q' /\ pr_gone q = pr_gone q') as Hback.
  { intros b q. unfold p1. simpl. rewrite lookup_insert. case_decide; [|eauto].
    intros [= <-]. subst b. by exists pr. }
  assert (core p1) as H1.
  { split.
    - intros b Hb. destruct (core_fresh _ H b Hb) as (? & ? & ?). unfold p1. simpl.
      rewrite !lookup_insert_ne by congruence. done.
    - intros n b Hb. destruct (core_member _ H n b Hb) as (q & Hq & ? & ?). unfold p1. simpl.
      rewrite lookup_insert. case_decide; [|eauto]. subst b. rewrite Hq in Ha. simplify_eq. by eexists.
    - apply (core_nodup _ H).
    - intros b q. rewrite Hlive. unfold p1. simpl. rewrite lookup_insert. case_decide.
      + intros [= <-]. subst b. destruct (core_busy _ H _ _ Ha). simpl. lia.
      + intros Hq. destruct (core_busy _ H _ _ Hq). lia.
    - intros m ms. unfold p1. simpl. rewrite lookup_insert. intros Hm.
      assert (exists ms', p_leases p !! m = Some ms' /\ l_provider ms' = l_provider ms /\
        l_service ms' = l_service ms) as (ms' & Hm' & <- & <-).
      { case_decide; [|eauto]. subst m. injection Hm as <-. eauto. }
      clear Hm. destruct (core_lease _ H _ _ Hm') as (q & Hq & ?). rewrite lookup_insert.
      case_decide as E; [|eauto]. rewrite <- E, Ha in Hq. simplify_eq. by eexists.
    - apply (core_empty _ H).
    - apply (core_queue _ H).
    - apply (core_one _ H). }
  destruct (dispatch_inv (l_service ls) p1 H1) as (p' & Hd & Hr & Hi).
  - intros n Hne. apply (settled_at_same p); [done..| |apply Hs].
    intros b Hb. unfold p1. simpl. rewrite lookup_insert_ne; [done|]. intros <-.
    destruct (core_member _ H _ _ Hb) as (q & Hq & ? & _). rewrite Ha in Hq. congruence.
  - exists p'. split; [done|]. split; [done|]. by exists pr.
Qed.

Lemma take_settled name a pr p :
  pool_inv p -> waiters p name = [] -> a ∈ providers p name -> p_heap p !! a = Some pr ->
  available pr = true -> pool_inv (take name a pr p).2.
Proof.
  intros [H Hs] Hw Hin Ha Hav. split; [by apply core_take|]. intros n.
  destruct (decide (name = n)) as [<-|Hne]; [by left|].
  apply (settled_at_same p); [done..| |apply Hs]. intros b Hb. simpl.
  rewrite lookup_insert_ne; [done|]. intros <-.
  destruct (core_member _ H _ _ Hin) as (q & ? & ? & _), (core_member _ H _ _ Hb) as (q' & ? & ? & _).
  congruence.
Qed.

(** Putting a new waiter in a queue whose service has no free slot. *)
Definition enqueue name (front : bool) p : nat * Pool T :=
  let '(w, p) := alloc p in
  let p := set_chan w None p in
  (w, set_waiters name (if front then w :: waiters p name else waiters p name ++ [w]) p).

Lemma elem_of_enqueue name front p n v :
  v ∈ waiters (enqueue name front p).2 n -> v ∈ waiters p n \/ (v = p_next p /\ n = name).
Proof.
  unfold enqueue. simpl. rewrite waiters_set_waiters. case_decide; [|by left]. subst n.
  change (waiters _ name) with (waiters p name). destruct front.
  - rewrite elem_of_cons. intros [-> | ?]; auto.
  - intros [?| ->]%elem_of_snoc; auto.
Qed.

Lemma enqueue_inv name front p :
  pool_inv p -> best p name = None -> pool_inv (enqueue name front p).2.
Proof.
  intros [H Hs] Hb. destruct (core_fresh _ H (p_next p)) as (_ & _ & Hc); [lia|].
  assert (forall n v, v ∈ waiters p n -> v <> p_next p) as Hne.
  { intros n v Hv ->. apply (core_empty _ H) in Hv. congruence. }
  split; [split|].
  - intros a Ha. unfold enqueue in *. simpl in *. destruct (core_fresh _ H a) as (? & ? & ?); [lia|].
    by rewrite lookup_insert_ne by lia.
  - intros n a. unfold enqueue. simpl. rewrite providers_set_waiters. apply (core_member _ H).
  - intros n. unfold enqueue. simpl. rewrite providers_set_waiters. apply (core_nodup _ H).
  - apply (core_busy _ H).
  - apply (core_lease _ H).
  - intros n v [Hv|[-> ->]]%elem_of_enqueue; unfold enqueue; simpl.
    + rewrite lookup_insert_ne by (symmetry; eauto). by eapply (core_empty _ H).
    + apply lookup_insert_eq.
  - intros n. unfold enqueue. simpl. rewrite waiters_set_waiters.
    case_decide; [|apply (core_queue _ H)]. subst n. change (waiters _ name) with (waiters p name).
    pose proof (core_queue _ H name). destruct front.
    + apply NoDup_cons. split; [|done]. intros Hv. by apply (Hne name) in Hv.
    + apply NoDup_app. split_and!; [done | | apply NoDup_singleton].
      intros v Hv ->%list_elem_of_singleton. by apply (Hne name) in Hv.
  - intros n n' v [Hv|[-> ->]]%elem_of_enqueue [Hv'|[E ->]]%elem_of_enqueue.
    + by apply (core_one _ H _ _ v).
    + subst v. by apply Hne in Hv.
    + by apply Hne in Hv'.
    + done.
  - intros n. destruct (decide (name = n)) as [<-|Hd].
    + right. rewrite best_None in *. unfold enqueue. simpl. intros a pr.
      rewrite providers_set_waiters. apply Hb.
    + apply (settled_at_same p); [| | done | apply Hs]; unfold enqueue; simpl.
      * rewrite waiters_set_waiters. by case_decide.
      * rewrite providers_set_waiters. done.
Qed.

Lemma best_make_service p name n : best (make_service name p) n = best p n.
Proof.
  unfold best. rewrite providers_make_service. by destruct (make_service_stores p name) as (-> & _).
Qed.

(** [Acquire_enter] takes the best provider when nobody is queued and one is
    free, and queues otherwise; queueing means no provider is free. *)
Lemma Acquire_enter_spec name front p :
  pool_inv p ->
  (exists a pr, waiters p name = [] /\ best p name = Some (a, pr) /\
     Acquire_enter name front p =
       (inl (take name a pr (make_service name p)).1, (take name a pr (make_service name p)).2)) \/
  (best p name = None /\
     Acquire_enter name front p =
       (inr (enqueue name front (make_service name p)).1, (enqueue name front (make_service name p)).2)).
Proof.
  intros [H Hs]. unfold Acquire_enter. rewrite waiters_make_service, best_make_service.
  destruct (waiters p name) as [|w ws] eqn:Hw.
  - destruct (best p name) as [[a pr]|] eqn:Hb; [|by right]. left. by exists a, pr.
  - right. destruct (Hs name) as [E|Hb]; [congruence|]. by rewrite Hb.
Qed.

Lemma Acquire_enter_inv name front p : pool_inv p -> pool_inv (Acquire_enter name front p).2.
Proof.
  intros Hi. pose proof (inv_same_view _ _ (same_view_make_service p name) Hi) as Hi'.
  destruct (Acquire_enter_spec name front p Hi) as [(a & pr & Hw & Hb & ->) | [Hb ->]].
  - pose proof (best_spec (make_service name p) name) as Hs. rewrite best_make_service, Hb in Hs.
    destruct Hs as (? & ? & ? & _). apply take_settled; [done | by rewrite waiters_make_service | done..].
  - apply enqueue_inv; [done | by rewrite best_make_service].
Qed.

Lemma abandon_queue_inv name w p : pool_inv p -> pool_inv (abandon_queue name w p).2.
Proof.
  intros [H Hs]. unfold abandon_queue. case_bool_decide; [|done]. simpl.
  assert (forall n v, v ∈ waiters (set_waiters name (remove_first w (waiters p name)) p) n ->
    v ∈ waiters p n) as Hsub.
  { intros n v. rewrite waiters_set_waiters. case_decide; [|done]. subst n. apply elem_of_remove_first. }
  split.
  - destruct H. split; try (setoid_rewrite providers_set_waiters); eauto.
    intros n. rewrite waiters_set_waiters. case_decide; [|done]. by apply NoDup_remove_first.
  - intros n. destruct (Hs n) as [E|Hb].
    + left. rewrite waiters_set_waiters. case_decide; [|done]. subst n. by rewrite E.
    + right. rewrite best_None in *. intros a pr. rewrite providers_set_waiters. apply Hb.
Qed.

Lemma receive_inv w l p p' : pool_inv p -> receive w p = Some (l, p') -> pool_inv p'.
Proof.
  intros [H Hs]. unfold receive. destruct (p_chans p !! w) as [[l'|]|] eqn:Hc; [|done..].
  intros [= -> <-]. split; [|intros n; by apply (settled_at_same p)].
  apply core_set_chan; [done| |].
  - destruct (decide (p_next p <= w)%nat) as [Hn|]; [|lia].
    destruct (core_fresh _ H _ Hn) as (_ & _ & ?). congruence.
  - intros n Hw. apply (core_empty _ H) in Hw. congruence.
Qed.

End Facts.
