(* ===== verification/PoolSystem.v ===== *)
(** The pool with its callers: every interleaving of [Add], [Remove],
    [Acquire] and [Release] calls (internal/pool/pool.go).

    A call of [Acquire] is a small program counter ([phase]) that moves at its
    lock regions, at its channel operations and when its timer or context
    ends; [step] lets any call move at any time.  The clock only advances. *)

From S2P Require Import Prelude Pool PoolFacts.
Local Open Scope Z_scope.

Inductive acquire_error : Type :=
  | TimeoutError (service : string) (waited : Z)
  | ContextErr.

(** The arguments a call of [Acquire] was made with. *)
Record request : Type := mkRequestArgs {
  rq_service : string;
  rq_since : Z;
  rq_front : bool;
}.

(** Where a call of [Acquire] is: in its select; on its way into [abandon]'s
    lock region; at [abandon]'s own select; about to release a lease it was
    handed too late; returned. *)
Inductive phase : Type :=
  | Waiting (w : nat)
  | Abandoning (w : nat) (err : acquire_error)
  | Draining (w : nat) (err : acquire_error)
  | GivingBack (l : nat) (err : acquire_error)
  | Returned (r : result acquire_error nat).

Section System.
Context {T : Type}.
Implicit Types (p : Pool T) (calls : gmap nat (request * phase)).

Record Sys : Type := mkSys {
  sys_pool : Pool T;
  sys_calls : gmap nat (request * phase);
  sys_now : Z;
}.

Definition set_phase (c : nat) (rq : request) (ph : phase) (p : Pool T) (s : Sys) : Sys :=
  mkSys p (<[c := (rq, ph)]> (sys_calls s)) (sys_now s).
Definition set_pool (p : Pool T) (s : Sys) : Sys := mkSys p (sys_calls s) (sys_now s).

Definition init (timeout : Z) : Sys := mkSys (New timeout) ∅ 0.

(** [Acquire]'s first lock region, and what the call becomes. *)
Definition enter (rq : request) (p : Pool T) : phase * Pool T :=
  match Acquire_enter (rq_service rq) (rq_front rq) p with
  | (inl l, p) => (Returned (Ok l), p)
  | (inr w, p) => (Waiting w, p)
  end.

Inductive step (s : Sys) : Sys -> Prop :=
  | step_tick (d : Z) : 0 <= d ->
      step s (mkSys (sys_pool s) (sys_calls s) (sys_now s + d))
  | step_add peer name slots priority (t : T) a p p' : 0 <= slots ->
      new_provider peer name slots priority t (sys_pool s) = (a, p) ->
      Add a p = Some p' -> step s (set_pool p' s)
  | step_remove a : step s (set_pool (Remove a (sys_pool s)) s)
  | step_acquire c rq ph p :
      sys_calls s !! c = None -> enter rq (sys_pool s) = (ph, p) ->
      step s (set_phase c rq ph p s)
  | step_receive c rq w l p :
      sys_calls s !! c = Some (rq, Waiting w) -> receive w (sys_pool s) = Some (l, p) ->
      step s (set_phase c rq (Returned (Ok l)) p s)
  | step_timeout c rq w :
      sys_calls s !! c = Some (rq, Waiting w) ->
      rq_since rq + p_timeout (sys_pool s) <= sys_now s ->
      step s (set_phase c rq
        (Abandoning w (TimeoutError (rq_service rq) (p_timeout (sys_pool s)))) (sys_pool s) s)
  | step_cancel c rq w :
      sys_calls s !! c = Some (rq, Waiting w) ->
      step s (set_phase c rq (Abandoning w ContextErr) (sys_pool s) s)
  | step_abandon c rq w err (queued : bool) p :
      sys_calls s !! c = Some (rq, Abandoning w err) ->
      abandon_queue (rq_service rq) w (sys_pool s) = (queued, p) ->
      step s (set_phase c rq (if queued then Returned (Err err) else Draining w err) p s)
  | step_drain c rq w err l p :
      sys_calls s !! c = Some (rq, Draining w err) -> receive w (sys_pool s) = Some (l, p) ->
      step s (set_phase c rq (GivingBack l err) p s)
  | step_drain_default c rq w err :
      sys_calls s !! c = Some (rq, Draining w err) -> receive w (sys_pool s) = None ->
      step s (set_phase c rq (Returned (Err err)) (sys_pool s) s)
  | step_give_back c rq l err p :
      sys_calls s !! c = Some (rq, GivingBack l err) -> Release l (sys_pool s) = Some p ->
      step s (set_phase c rq (Returned (Err err)) p s)
  | step_release c rq l p :
      sys_calls s !! c = Some (rq, Returned (Ok l)) -> Release l (sys_pool s) = Some p ->
      step s (set_pool p s).

Definition reachable (timeout : Z) (s : Sys) : Prop := rtc step (init timeout) s.

(** ** Who holds a lease *)

(** The waiter a call still looks at. *)
Definition waiter_of (ph : phase) : option nat :=
  match ph with
  | Waiting w | Abandoning w _ | Draining w _ => Some w
  | _ => None
  end.

Definition queued_phase (ph : phase) : bool :=
  match ph with Waiting _ | Abandoning _ _ => true | _ => false end.

(** A lease is with the call that returned it, with the call about to give it
    back, or in the channel of a call that has not looked there yet. *)
Definition holds (p : Pool T) (ph : phase) (l : nat) : Prop :=
  match ph with
  | Returned (Ok l') | GivingBack l' _ => l' = l
  | Waiting w | Abandoning w _ | Draining w _ => p_chans p !! w = Some (Some l)
  | Returned (Err _) => False
  end.

(** ** The invariant of the callers' side *)
Record side (calls : gmap nat (request * phase)) (p : Pool T) : Prop := {
  side_waiter c rq ph w : calls !! c = Some (rq, ph) -> waiter_of ph = Some w ->
    (w < p_next p)%nat /\
    ((queued_phase ph = true /\ w ∈ waiters p (rq_service rq)) \/
     exists l, p_chans p !! w = Some (Some l));
  side_inj c c' rq rq' ph ph' w : calls !! c = Some (rq, ph) -> calls !! c' = Some (rq', ph') ->
    waiter_of ph = Some w -> waiter_of ph' = Some w -> c = c';
  side_queue name w : w ∈ waiters p name ->
    exists c rq ph, calls !! c = Some (rq, ph) /\ waiter_of ph = Some w /\
      queued_phase ph = true /\ rq_service rq = name;
  side_live l ls : p_leases p !! l = Some ls -> l_released ls = false ->
    exists c rq ph, calls !! c = Some (rq, ph) /\ holds p ph l;
  side_unique c c' rq rq' ph ph' l : calls !! c = Some (rq, ph) -> calls !! c' = Some (rq', ph') ->
    holds p ph l -> holds p ph' l -> c = c';
  side_lease c rq ph l : calls !! c = Some (rq, ph) -> holds p ph l -> is_Some (p_leases p !! l);
}.

Lemma side_grant calls name p p' : core p -> side calls p -> grant name p p' -> side calls p'.
Proof.
  intros H S G. destruct G as [w ws a pr Hw Hb Hc].
  destruct (core_fresh _ H (p_next p)) as (_ & Hfl & _); [lia|].
  destruct (side_queue _ _ S name w) as (c0 & rq0 & ph0 & Hc0 & Hw0 & Hq0 & Hs0); [rewrite Hw; set_solver|].
  assert (forall ph l, holds (granted name w ws a pr p) ph l ->
    holds p ph l \/ (waiter_of ph = Some w /\ l = p_next p)) as Hback.
  { intros ph l. destruct ph as [v|v e|v e|v e|[v|e]]; simpl; auto; rewrite lookup_insert;
      case_decide; auto; intros [= <-]; right; by subst. }
  assert (forall ph l, holds p ph l -> holds (granted name w ws a pr p) ph l) as Hfwd.
  { intros ph l. destruct ph as [v|v e|v e|v e|[v|e]]; simpl; auto; intros Hv;
      (rewrite lookup_insert_ne; [done|]); intros <-; congruence. }
  split.
  - intros c rq ph v Hcall Hv. destruct (side_waiter _ _ S c rq ph v Hcall Hv) as [Hlt Hor].
    split; [simpl; lia|]. destruct (decide (v = w)) as [->|Hne].
    + right. eexists. simpl. apply lookup_insert_eq.
    + destruct Hor as [[Hq Hin]|[l Hl]].
      * left. split; [done|]. change (v ∈ waiters (set_waiters name ws p) (rq_service rq)).
        rewrite waiters_set_waiters. case_decide as E; [|done]. rewrite <- E, Hw in Hin. by apply elem_of_cons in Hin as [?|?].
      * right. exists l. simpl. by rewrite lookup_insert_ne.
  - apply (side_inj _ _ S).
  - intros n v Hv. apply (side_queue _ _ S).
    change (v ∈ waiters (set_waiters name ws p) n) in Hv. rewrite waiters_set_waiters in Hv.
    case_decide; [subst; rewrite Hw; set_solver | done].
  - intros l ls. simpl. rewrite lookup_insert. case_decide as E.
    + intros _ _. exists c0, rq0, ph0. split; [done|]. subst l.
      destruct ph0; simpl in Hw0; simplify_eq; simpl; apply lookup_insert_eq.
    + intros Hl Hr. destruct (side_live _ _ S l ls Hl Hr) as (c & rq & ph & ? & ?). eauto 6.
  - intros c c' rq rq' ph ph' l H1 H2 [Ha|[Ha ->]]%Hback [Hb'|[Hb' E]]%Hback.
    + by eapply side_unique.
    + subst l. destruct (side_lease _ _ S _ _ _ _ H1 Ha). congruence.
    + destruct (side_lease _ _ S _ _ _ _ H2 Hb'). congruence.
    + by eapply side_inj.
  - intros c rq ph l Hcall [Hh|[_ ->]]%Hback; simpl.
    + destruct (side_lease _ _ S _ _ _ _ Hcall Hh) as [ls Hls]. rewrite lookup_insert. case_decide; eauto.
    + rewrite lookup_insert_eq. eauto.
Qed.

Lemma side_grants calls name p p' :
  core p -> side calls p -> rtc (grant name) p p' -> side calls p'.
Proof.
  intros H S R. revert H S. induction R as [|p1 p2 p3 G _ IH]; [done|]. intros H S.
  apply IH; [by eapply grant_core | by eapply side_grant].
Qed.

(** The callers' side reads queues, channels, leases and the allocation
    pointer; a change that leaves those alone keeps it. *)
Lemma side_same calls p p' :
  p_chans p' = p_chans p -> (forall n, waiters p' n = waiters p n) -> (p_next p <= p_next p')%nat ->
  (forall l ls, p_leases p' !! l = Some ls -> l_released ls = false ->
     exists ls', p_leases p !! l = Some ls' /\ l_released ls' = false) ->
  (forall l, is_Some (p_leases p !! l) -> is_Some (p_leases p' !! l)) ->
  side calls p -> side calls p'.
Proof.
  intros Hc Hw Hn Hl Hd S.
  assert (forall ph l, holds p' ph l <-> holds p ph l) as Hh.
  { intros ph l. destruct ph as [v|v e|v e|v e|[v|e]]; simpl; by rewrite ?Hc. }
  split.
  - intros c rq ph w H1 H2. rewrite Hw, Hc. destruct (side_waiter _ _ S c rq ph w H1 H2). split; [lia|done].
  - apply (side_inj _ _ S).
  - intros n w. rewrite Hw. apply (side_queue _ _ S).
  - intros l ls H1 H2. destruct (Hl l ls H1 H2) as (ls' & H3 & H4).
    destruct (side_live _ _ S l ls' H3 H4) as (c & rq & ph & ? & ?%Hh). eauto 6.
  - intros c c' rq rq' ph ph' l H1 H2 ?%Hh ?%Hh. by eapply side_unique.
  - intros c rq ph l H1 ?%Hh. apply Hd. by eapply side_lease.
Qed.

(** ** Changes of one call *)

(** Look up a call after one call changed. *)
Ltac call_cases H :=
  apply lookup_insert_Some in H as [[? ?]|[? H]]; simplify_eq.

Lemma side_phase calls p c rq ph ph' :
  calls !! c = Some (rq, ph) -> side calls p ->
  waiter_of ph' = waiter_of ph ->
  (queued_phase ph' = queued_phase ph \/
   exists w, waiter_of ph = Some w /\ forall name, w ∉ waiters p name) ->
  (forall l, holds p ph' l <-> holds p ph l) ->
  side (<[c := (rq, ph')]> calls) p.
Proof.
  intros Hc S Hw Hq Hh. split.
  - intros c' rq' ph2 w H1 H2. call_cases H1; [|by eapply side_waiter].
    rewrite Hw in H2. destruct (side_waiter _ _ S _ _ _ _ Hc H2) as [? [[Hq' Hin]|?]]; [|by eauto].
    split; [done|]. destruct Hq as [Hq|(w' & Hw' & Hnin)]; [left; by rewrite Hq|].
    simplify_eq. by apply Hnin in Hin.
  - intros c1 c2 rq1 rq2 ph1 ph2 w H1 H2 H3 H4. call_cases H1; call_cases H2; [done|..].
    + rewrite Hw in H3. by eapply (side_inj _ _ S).
    + rewrite Hw in H4. by eapply (side_inj _ _ S).
    + by eapply (side_inj _ _ S).
  - intros n w Hin. destruct (side_queue _ _ S n w Hin) as (c0 & rq0 & ph0 & H1 & H2 & H3 & H4).
    destruct (decide (c = c0)) as [->|].
    + simplify_eq. exists c0, rq, ph'. rewrite lookup_insert_eq. split; [done|]. rewrite Hw. split; [done|].
      split; [|done]. destruct Hq as [->|(w' & ? & Hnin)]; [done|]. simplify_eq. by apply Hnin in Hin.
    + exists c0, rq0, ph0. by rewrite lookup_insert_ne.
  - intros l ls H1 H2. destruct (side_live _ _ S l ls H1 H2) as (c0 & rq0 & ph0 & H3 & H4).
    destruct (decide (c = c0)) as [->|].
    + simplify_eq. exists c0, rq, ph'. rewrite lookup_insert_eq. split; [done|]. by apply Hh.
    + exists c0, rq0, ph0. by rewrite lookup_insert_ne.
  - intros c1 c2 rq1 rq2 ph1 ph2 l H1 H2 H3 H4. call_cases H1; call_cases H2; [done|..].
    + apply Hh in H3. by eapply (side_unique _ _ S).
    + apply Hh in H4. by eapply (side_unique _ _ S).
    + by eapply (side_unique _ _ S).
  - intros c1 rq1 ph1 l H1 H2. call_cases H1; [apply Hh in H2|]; by eapply side_lease.
Qed.

(** A call that looks at no waiter any more and holds at most what it held. *)
Lemma side_leave calls p p' c rq ph ph' :
  calls !! c = Some (rq, ph) -> side calls p -> waiter_of ph' = None ->
  p_leases p' = p_leases p -> (p_next p <= p_next p')%nat ->
  (forall n v, v ∈ waiters p' n -> v ∈ waiters p n /\ waiter_of ph <> Some v) ->
  (forall n v, v ∈ waiters p n -> waiter_of ph <> Some v -> v ∈ waiters p' n) ->
  (forall v, waiter_of ph <> Some v -> p_chans p' !! v = p_chans p !! v) ->
  (forall l, holds p' ph' l -> holds p ph l) ->
  (forall l ls, p_leases p !! l = Some ls -> l_released ls = false -> holds p ph l -> holds p' ph' l) ->
  side (<[c := (rq, ph')]> calls) p'.
Proof.
  intros Hc S Hw Hl Hn Hq1 Hq2 Hch Hh1 Hh2.
  assert (forall c' rq' ph2 v, c <> c' -> calls !! c' = Some (rq', ph2) -> waiter_of ph2 = Some v ->
    waiter_of ph <> Some v) as Hne.
  { intros c' rq' ph2 v Hcc H1 H2 H3. apply Hcc. by eapply (side_inj _ _ S). }
  assert (forall c' rq' ph2 l, c <> c' -> calls !! c' = Some (rq', ph2) ->
    (holds p' ph2 l <-> holds p ph2 l)) as Hh.
  { intros c' rq' ph2 l Hcc H1. pose proof (Hne c' rq' ph2) as Hv.
    destruct ph2 as [v|v e|v e|v e|[v|e]]; simpl in *; try done; by rewrite Hch by eauto. }
  split.
  - intros c' rq' ph2 w H1 H2. call_cases H1.
    destruct (side_waiter _ _ S _ _ _ _ H1 H2) as [? Hor]. split; [lia|].
    destruct Hor as [[? ?]|?]; [left; eauto | right]. by rewrite Hch by eauto.
  - intros c1 c2 rq1 rq2 ph1 ph2 w H1 H2 H3 H4. call_cases H1; call_cases H2; try congruence.
    by eapply (side_inj _ _ S).
  - intros n w [Hin Hnw]%Hq1. destruct (side_queue _ _ S n w Hin) as (c0 & rq0 & ph0 & H1 & H2 & H3 & H4).
    exists c0, rq0, ph0. rewrite lookup_insert_ne; [done|]. intros <-. congruence.
  - intros l ls H1 H2. rewrite Hl in H1.
    destruct (side_live _ _ S l ls H1 H2) as (c0 & rq0 & ph0 & H3 & H4).
    destruct (decide (c = c0)) as [<-|].
    + simplify_eq. exists c, rq, ph'. rewrite lookup_insert_eq. split; [done|]. eauto.
    + exists c0, rq0, ph0. rewrite lookup_insert_ne by done. split; [done|]. by eapply Hh.
  - intros c1 c2 rq1 rq2 ph1 ph2 l H1 H2 H3 H4. call_cases H1; call_cases H2; [done|..].
    + apply Hh1 in H3. apply (Hh c2 rq2 ph2 l) in H4; [|done..]. by eapply (side_unique _ _ S).
    + apply Hh1 in H4. apply (Hh c1 rq1 ph1 l) in H3; [|done..]. by eapply (side_unique _ _ S).
    + apply (Hh c1 rq1 ph1 l) in H3; [|done..]. apply (Hh c2 rq2 ph2 l) in H4; [|done..].
      by eapply (side_unique _ _ S).
  - intros c1 rq1 ph1 l H1 H2. rewrite Hl. call_cases H1; [apply Hh1 in H2 | eapply Hh in H2; [|done..]];
      by eapply side_lease.
Qed.

(** A new call that was given a lease at once. *)
Lemma side_take calls p c rq name a pr :
  core p -> side calls p -> calls !! c = None ->
  side (<[c := (rq, Returned (Ok (p_next p)))]> calls) (take name a pr p).2.
Proof.
  intros H S Hc. destruct (core_fresh _ H (p_next p)) as (_ & Hfl & _); [lia|].
  assert (forall c' rq' ph l, calls !! c' = Some (rq', ph) -> holds p ph l -> l <> p_next p) as Hne.
  { intros c' rq' ph l H1 H2 ->. destruct (side_lease _ _ S _ _ _ _ H1 H2). congruence. }
  split.
  - intros c' rq' ph w H1 H2. call_cases H1.
    destruct (side_waiter _ _ S _ _ _ _ H1 H2). split; [simpl; lia | done].
  - intros c1 c2 rq1 rq2 ph1 ph2 w H1 H2 H3 H4. call_cases H1; call_cases H2; try congruence.
    by eapply (side_inj _ _ S).
  - intros n w Hin. destruct (side_queue _ _ S n w Hin) as (c0 & rq0 & ph0 & H1 & H2).
    exists c0, rq0, ph0. rewrite lookup_insert_ne; [done|]. congruence.
  - intros l ls. simpl. rewrite lookup_insert. case_decide as E.
    + intros _ _. exists c, rq, (Returned (Ok (p_next p))). by rewrite lookup_insert_eq.
    + intros H1 H2. destruct (side_live _ _ S l ls H1 H2) as (c0 & rq0 & ph0 & H3 & H4).
      exists c0, rq0, ph0. rewrite lookup_insert_ne by congruence. done.
  - intros c1 c2 rq1 rq2 ph1 ph2 l H1 H2 H3 H4. call_cases H1; call_cases H2; [done|..].
    + by destruct (Hne _ _ _ _ H2 H4).
    + by destruct (Hne _ _ _ _ H1 H3).
    + by eapply (side_unique _ _ S).
  - intros c1 rq1 ph1 l H1 H2. simpl. rewrite lookup_insert. case_decide; [eauto|].
    call_cases H1; by eapply (side_lease _ _ S).
Qed.

(** A new call that was put in the queue. *)
Lemma side_enqueue calls p c rq front :
  core p -> side calls p -> calls !! c = None ->
  side (<[c := (rq, Waiting (p_next p))]> calls) (enqueue (rq_service rq) front p).2.
Proof.
  intros H S Hc. set (p' := (enqueue (rq_service rq) front p).2).
  assert (forall c' rq' ph w, calls !! c' = Some (rq', ph) -> waiter_of ph = Some w -> w <> p_next p) as Hne.
  { intros c' rq' ph w H1 H2 ->. destruct (side_waiter _ _ S _ _ _ _ H1 H2). lia. }
  assert (forall v, v <> p_next p -> p_chans p' !! v = p_chans p !! v) as Hch.
  { intros v Hv. unfold p', enqueue. simpl. by rewrite lookup_insert_ne. }
  assert (p_chans p' !! p_next p = Some None) as Hnew by apply lookup_insert_eq.
  assert (forall n v, v ∈ waiters p n -> v ∈ waiters p' n) as Hkeep.
  { intros n v Hv. unfold p', enqueue. simpl. rewrite waiters_set_waiters. case_decide; [|done]. subst n.
    change (waiters _ (rq_service rq)) with (waiters p (rq_service rq)). destruct front; set_solver. }
  assert (p_next p ∈ waiters p' (rq_service rq)) as Hin.
  { unfold p', enqueue. simpl. rewrite waiters_set_waiters. rewrite decide_True by done.
    destruct front; set_solver. }
  assert (forall c' rq' ph l, calls !! c' = Some (rq', ph) -> (holds p' ph l <-> holds p ph l)) as Hh.
  { intros c' rq' ph l H1. pose proof (Hne c' rq' ph) as Hv.
    destruct ph as [v|v e|v e|v e|[v|e]]; simpl in *; try done; by rewrite Hch by eauto. }
  split.
  - intros c' rq' ph w H1 H2. call_cases H1.
    + simpl in H2. simplify_eq. split; [simpl; lia|]. by left.
    + destruct (side_waiter _ _ S _ _ _ _ H1 H2) as [? Hor]. split; [simpl; lia|].
      rewrite Hch by eauto. destruct Hor as [[? ?]|?]; [left; eauto | by right].
  - intros c1 c2 rq1 rq2 ph1 ph2 w H1 H2 H3 H4. call_cases H1; call_cases H2; [done|..].
    + simpl in H3. simplify_eq. by destruct (Hne _ _ _ _ H2 H4).
    + simpl in H4. simplify_eq. by destruct (Hne _ _ _ _ H1 H3).
    + by eapply (side_inj _ _ S).
  - intros n w [Hv|[-> ->]]%elem_of_enqueue.
    + destruct (side_queue _ _ S n w Hv) as (c0 & rq0 & ph0 & H1 & H2).
      exists c0, rq0, ph0. rewrite lookup_insert_ne; [done|]. congruence.
    + exists c, rq, (Waiting (p_next p)). by rewrite lookup_insert_eq.
  - intros l ls H1 H2. destruct (side_live _ _ S l ls H1 H2) as (c0 & rq0 & ph0 & H3 & H4).
    exists c0, rq0, ph0. rewrite lookup_insert_ne by congruence. split; [done|]. by eapply Hh.
  - intros c1 c2 rq1 rq2 ph1 ph2 l H1 H2 H3 H4. call_cases H1; call_cases H2; [done|..].
    + cbn [holds] in H3. congruence.
    + cbn [holds] in H4. congruence.
    + eapply Hh in H3, H4; [|done..]. by eapply (side_unique _ _ S).
  - intros c1 rq1 ph1 l H1 H2. call_cases H1.
    + cbn [holds] in H2. congruence.
    + eapply Hh in H2; [|done]. by eapply (side_lease _ _ S).
Qed.

Lemma side_make_service calls p name : side calls p -> side calls (make_service name p).
Proof.
  destruct (same_view_make_service p name) as (_ & Hl & Hc & Hn & Hw & _).
  apply side_same; [done | done | lia | rewrite Hl; eauto | by rewrite Hl].
Qed.

Lemma enter_side calls p c rq ph p' :
  pool_inv p -> side calls p -> calls !! c = None -> enter rq p = (ph, p') ->
  pool_inv p' /\ side (<[c := (rq, ph)]> calls) p'.
Proof.
  intros Hi S Hc He. unfold enter in He.
  pose proof (Acquire_enter_inv (rq_service rq) (rq_front rq) p Hi) as Hi'.
  pose proof (side_make_service _ _ (rq_service rq) S) as Sm.
  pose proof (core_same_view _ _ (same_view_make_service p (rq_service rq)) (proj1 Hi)) as Hm.
  destruct (Acquire_enter_spec (rq_service rq) (rq_front rq) p Hi) as [(a & pr & _ & _ & E) | [_ E]];
    rewrite E in He, Hi'; injection He as <- <-; split; try exact Hi'.
  - by apply side_take.
  - by apply side_enqueue.
Qed.

(** ** The timeout is a constant of the pool *)
Lemma grants_timeout name p p' : rtc (grant name) p p' -> p_timeout p' = p_timeout p.
Proof. induction 1 as [|p1 p2 p3 G _ IH]; [done|]. rewrite IH. by destruct G. Qed.

Lemma enter_timeout rq p ph p' : enter rq p = (ph, p') -> p_timeout p' = p_timeout p.
Proof.
  unfold enter, Acquire_enter, take, alloc. simpl.
  destruct (make_service_stores p (rq_service rq)) as (_ & _ & _ & _ & Ht).
  destruct (match _ with [] => _ | _ :: _ => _ end) as [[a pr]|]; intros [= <- <-]; exact Ht.
Qed.

(** ** The invariant of the whole system *)

(** A [TimeoutError] names the service the job asked for and the pool's
    timeout, and was decided no earlier than the arrival plus the timeout. *)
Definition error_ok (timeout now : Z) (rq : request) (e : acquire_error) : Prop :=
  match e with
  | TimeoutError service waited =>
      service = rq_service rq /\ waited = timeout /\ rq_since rq + timeout <= now
  | ContextErr => True
  end.

Definition phase_ok (timeout now : Z) (rq : request) (ph : phase) : Prop :=
  match ph with
  | Waiting _ | Returned (Ok _) => True
  | Abandoning _ e | Draining _ e | GivingBack _ e | Returned (Err e) => error_ok timeout now rq e
  end.

Record sys_inv (timeout : Z) (s : Sys) : Prop := {
  si_pool : pool_inv (sys_pool s);
  si_side : side (sys_calls s) (sys_pool s);
  si_timeout : p_timeout (sys_pool s) = timeout;
  si_phase c rq ph : sys_calls s !! c = Some (rq, ph) -> phase_ok timeout (sys_now s) rq ph;
}.

Lemma phase_ok_later timeout now d rq ph :
  0 <= d -> phase_ok timeout now rq ph -> phase_ok timeout (now + d) rq ph.
Proof. destruct ph as [|? []|? []|? []|[|[]]]; simpl; intuition lia. Qed.

Lemma Release_side calls l p p' :
  pool_inv p -> side calls p -> Release l p = Some p' ->
  pool_inv p' /\ side calls p' /\ p_timeout p' = p_timeout p /\
  (forall c rq e, calls !! c = Some (rq, GivingBack l e) ->
     side (<[c := (rq, Returned (Err e))]> calls) p').
Proof.
  intros Hi S HR. destruct (p_leases p !! l) as [ls|] eqn:Hl; [|unfold Release in HR; by rewrite Hl in HR].
  destruct (Release_inv l ls p Hi Hl) as (p1 & HR' & Hi' & Hm). simplify_eq.
  assert (forall c rq e q, calls !! c = Some (rq, GivingBack l e) -> side calls q ->
    (forall ls, p_leases q !! l = Some ls -> l_released ls = true) ->
    side (<[c := (rq, Returned (Err e))]> calls) q) as Hforget.
  { intros c rq e q Hc Sq Hr. eapply side_leave; eauto; try done.
    intros l' ls' H1 H2 <-. specialize (Hr ls' H1). congruence. }
  destruct (l_released ls) eqn:Hrel.
  - subst p'. split_and!; [done..|]. intros c rq e Hc. eapply Hforget; [done..|]. naive_solver.
  - destruct Hm as (pr & Ha & Hcore & Hr). set (q := set_provider _ _ _) in *.
    assert (forall l' ls', p_leases q !! l' = Some ls' -> l_released ls' = false ->
      exists ls'', p_leases p !! l' = Some ls'' /\ l_released ls'' = false) as Hlive.
    { intros l' ls'. unfold q. simpl. rewrite lookup_insert. case_decide; [by intros [= <-]|eauto]. }
    assert (side calls q) as Sq.
    { apply (side_same _ p); [done | done | done | exact Hlive | | done].
      intros l' Hl'. unfold q. simpl. rewrite lookup_insert. case_decide; eauto. }
    split; [done|]. split; [by eapply side_grants|]. split; [by rewrite (grants_timeout _ _ _ Hr)|].
    intros c rq e Hc. eapply side_grants; [exact Hcore | | exact Hr]. eapply Hforget; [done..|].
    intros ls'. unfold q. simpl. rewrite lookup_insert_eq. by intros [= <-].
Qed.

Lemma receive_eq w l p p' :
  receive w p = Some (l, p') -> p_chans p !! w = Some (Some l) /\ p' = set_chan w None p.
Proof. unfold receive. destruct (p_chans p !! w) as [[]|]; naive_solver. Qed.

(** Taking the lease out of one's own channel. *)
Lemma receive_side calls c rq ph ph' w l p p' :
  pool_inv p -> side calls p -> calls !! c = Some (rq, ph) -> waiter_of ph = Some w ->
  receive w p = Some (l, p') -> waiter_of ph' = None -> (forall p l', holds p ph' l' <-> l' = l) ->
  side (<[c := (rq, ph')]> calls) p'.
Proof.
  intros [H _] S Hc Hw (Hch & ->)%receive_eq Hw' Hh.
  assert (forall l', holds p ph l' <-> l' = l) as Hph.
  { intros l'. destruct ph; simpl in Hw; simplify_eq; simpl; rewrite Hch; split; congruence. }
  eapply side_leave; eauto; try done.
  - intros n v Hv. split; [done|]. intros E. simplify_eq.
    apply (core_empty _ H) in Hv. congruence.
  - intros v Hv. simpl. rewrite lookup_insert_ne; [done|]. intros <-. by rewrite Hw in Hv.
  - intros l' ->%Hh. by apply Hph.
  - intros l' ls _ _ ->%Hph. by apply Hh.
Qed.

Lemma Add_side calls peer name slots priority (t : T) a p p1 p' :
  0 <= slots -> pool_inv p -> side calls p ->
  new_provider peer name slots priority t p = (a, p1) -> Add a p1 = Some p' ->
  pool_inv p' /\ side calls p' /\ p_timeout p' = p_timeout p.
Proof.
  intros Hs Hi S Hn HA. pose proof (new_provider_inv peer name slots priority t p Hs Hi) as Hi1.
  rewrite Hn in Hi1. simpl in Hi1. unfold new_provider in Hn. simpl in Hn. injection Hn as <- <-.
  set (p1 := set_provider _ _ _) in *. set (pr := mkProvider peer name slots priority t 0 false) in *.
  assert (p_heap p1 !! p_next p = Some pr) as Ha by apply lookup_insert_eq.
  assert (side calls p1) as S1 by (apply (side_same _ p); eauto; simpl; lia).
  destruct (Add_inv (p_next p) pr p1 Hi1 Ha eq_refl) as (Hm & p2 & HA' & Hi2 & Hr).
  { intros n Hin. destruct (core_member _ (proj1 Hi) n _ Hin) as (q & Hq & _).
    destruct (core_fresh _ (proj1 Hi) (p_next p)); [lia|]. congruence. }
  simplify_eq. split; [done|].
  split.
  - eapply side_grants; [exact Hm | | exact Hr].
    apply (side_same _ (make_service (pr_Service pr) p1)); try done.
    + intros n. apply waiters_set_providers.
    + eauto.
    + by apply side_make_service.
  - rewrite (grants_timeout _ _ _ Hr).
    change (p_timeout (make_service (pr_Service pr) p1) = p_timeout p1).
    by destruct (make_service_stores p1 (pr_Service pr)) as (_ & _ & _ & _ & ->).
Qed.

Lemma Remove_side calls a p :
  side calls p -> side calls (Remove a p) /\ p_timeout (Remove a p) = p_timeout p.
Proof.
  intros S. destruct (p_heap p !! a) as [pr|] eqn:Ha; [|unfold Remove; by rewrite Ha].
  destruct (Remove_view a pr p Ha) as (_ & Hl & Hc & Hn & Hw & _). split.
  - apply (side_same _ p); eauto; [lia | rewrite Hl; eauto | by rewrite Hl].
  - unfold Remove. rewrite Ha. simpl. by destruct (p_services p !! _).
Qed.

Lemma side_step_abandon calls c rq w err p queued p' :
  pool_inv p -> side calls p -> calls !! c = Some (rq, Abandoning w err) ->
  abandon_queue (rq_service rq) w p = (queued, p') ->
  side (<[c := (rq, if queued then Returned (Err err) else Draining w err)]> calls) p' /\
  p_timeout p' = p_timeout p.
Proof.
  intros [H _] S Hc. unfold abandon_queue. case_bool_decide as Hin; intros [= <- <-]; (split; [|done]).
  - assert (forall n v, v ∈ waiters (set_waiters (rq_service rq) (remove_first w (waiters p (rq_service rq))) p) n
      <-> v ∈ waiters p n /\ v <> w) as Hq.
    { intros n v. rewrite waiters_set_waiters. case_decide.
      - subst n. destruct (NoDup_remove_first w (waiters p (rq_service rq))) as [_ Hw]; [apply (core_queue _ H)|].
        split; [|intros [Hv Hne]].
        + intros Hv. split; [by eapply elem_of_remove_first | by intros ->].
        + clear Hw Hin. induction (waiters p (rq_service rq)) as [|u ws IH]; simpl; [done|].
          rewrite elem_of_cons in Hv. destruct (decide (u = w)) as [->|]; [by destruct Hv|].
          rewrite elem_of_cons. destruct Hv; auto.
      - split; [|by intros [? _]]. intros Hv. split; [done|]. intros ->. by pose proof (core_one _ H _ _ _ Hin Hv). }
    eapply side_leave; eauto; try done.
    + intros n v [Hv Hne]%Hq. split; [done|]. simpl. congruence.
    + intros n v Hv Hne. apply Hq. split; [done|]. simpl in Hne. congruence.
    + intros l ls _ _. simpl. rewrite (core_empty _ H _ _ Hin). done.
  - eapply side_phase; eauto; try done. right. exists w. split; [done|]. intros n Hn.
    destruct (side_queue _ _ S n w Hn) as (c' & rq' & ph' & H1 & H2 & H3 & H4).
    assert (c = c') as <- by (by eapply (side_inj _ _ S)). by simplify_eq.
Qed.

Lemma step_inv timeout s s' : sys_inv timeout s -> step s s' -> sys_inv timeout s'.
Proof.
  intros [Hp S Ht Hph] Hs.
  assert (forall c rq ph p', phase_ok timeout (sys_now s) rq ph ->
    pool_inv p' -> side (<[c := (rq, ph)]> (sys_calls s)) p' -> p_timeout p' = timeout ->
    sys_inv timeout (set_phase c rq ph p' s)) as Hset.
  { intros c rq ph p' Hok Hi' S' Ht'. split; try done. simpl. intros c' rq' ph' Hc'.
    call_cases Hc'; eauto. }
  destruct Hs as [d Hd|peer name slots priority t a p p' Hsl Hn HA|a|c rq ph p Hc He|c rq w l p Hc Hr
    |c rq w Hc Hd|c rq w Hc|c rq w err queued p Hc Ha|c rq w err l p Hc Hr|c rq w err Hc Hr
    |c rq l err p Hc Hr|c rq l p Hc Hr].
  - split; try done. simpl. intros c rq ph Hc. apply phase_ok_later; eauto.
  - destruct (Add_side _ _ _ _ _ _ _ _ _ _ Hsl Hp S Hn HA) as (? & ? & ?). split; simpl; done || congruence.
  - destruct (Remove_side _ a _ S). split; simpl; done || congruence || by apply Remove_inv.
  - destruct (enter_side _ _ _ _ _ _ Hp S Hc He). apply Hset; try done.
    + unfold enter in He. destruct (Acquire_enter _ _ _) as [[|] ?]; by injection He as <- _.
    + rewrite (enter_timeout _ _ _ _ He). done.
  - apply Hset; [done | by eapply receive_inv | | by apply receive_eq in Hr as [_ ->]].
    eapply receive_side; eauto; done.
  - apply Hset; try done; [by rewrite Ht in *|]. eapply side_phase; eauto; done.
  - apply Hset; try done. eapply side_phase; eauto; done.
  - destruct (side_step_abandon _ _ _ _ _ _ _ _ Hp S Hc Ha). apply Hset; try done; [| |congruence].
    + specialize (Hph _ _ _ Hc). by destruct queued.
    + pose proof (abandon_queue_inv (rq_service rq) w _ Hp) as Hi. by rewrite Ha in Hi.
  - apply Hset; [by apply (Hph _ _ _ Hc) | by eapply receive_inv | | by apply receive_eq in Hr as [_ ->]].
    eapply receive_side; eauto; done.
  - destruct (side_waiter _ _ S c rq _ w Hc eq_refl) as [_ [[? _]|[l Hl]]]; [done|].
    unfold receive in Hr. by rewrite Hl in Hr.
  - destruct (Release_side _ _ _ _ Hp S Hr) as (? & ? & ? & Hf). apply Hset; try done; [| |congruence].
    + by apply (Hph _ _ _ Hc).
    + by apply Hf.
  - destruct (Release_side _ _ _ _ Hp S Hr) as (? & ? & ? & _). split; simpl; done || congruence.
Qed.

Lemma init_inv timeout : sys_inv timeout (init timeout).
Proof.
  split; [apply New_inv | | done | done].
  split; simpl; try done; try (by intros *; rewrite lookup_empty).
  intros name w Hw. by apply elem_of_nil in Hw.
Qed.

Lemma reachable_inv timeout s : reachable timeout s -> sys_inv timeout s.
Proof.
  unfold reachable. pose proof (init_inv timeout) as Hi. revert Hi.
  generalize (init timeout). intros s0 Hi R. induction R as [|s1 s2 s3 Hs _ IH]; [done|].
  apply IH. by eapply step_inv.
Qed.

End System.
