(* ===== verification/PoolTheorems.v ===== *)
(** What the pool promises: no slot is handed out twice, none is lost, no job
    waits beside a free slot, the oldest job goes first to the best provider,
    and a call of [Acquire] that gives up returns and leaves no slot taken. *)

From S2P Require Import Prelude Pool PoolFacts PoolSystem.
Local Open Scope Z_scope.

Section Slots.
Context {T : Type}.
Implicit Types (p : Pool T) (pr : Provider T) (name : string) (a w l : nat).

(** ** How many jobs one dispatch serves *)

(** The free slots of a service: those of its providers, where any are free. *)
Definition room (heap : gmap nat (Provider T)) (ps : list nat) : nat :=
  foldr (fun a n => (match heap !! a with
                     | Some pr => if available pr then Z.to_nat (free pr) else 0
                     | None => 0
                     end + n)%nat) 0%nat ps.

Lemma room_insert_other heap ps a pr : a ∉ ps -> room (<[a := pr]> heap) ps = room heap ps.
Proof.
  induction ps as [|b ps IH]; [done|]. rewrite not_elem_of_cons. intros [Hne Hin]. simpl.
  rewrite lookup_insert_ne by done. by rewrite IH.
Qed.

Lemma room_take heap ps a pr :
  NoDup ps -> a ∈ ps -> heap !! a = Some pr -> available pr = true ->
  S (room (<[a := with_busy (pr_busy pr + 1) pr]> heap) ps) = room heap ps.
Proof.
  intros Hnd Hin Ha Hav. assert (available pr = true -> 0 < free pr) as Hf.
  { unfold available, free. destruct (pr_gone pr); simpl; lia. }
  specialize (Hf Hav).
  induction ps as [|b ps IH]; [by apply elem_of_nil in Hin|].
  apply NoDup_cons in Hnd as [Hb Hnd]. simpl. rewrite lookup_insert. case_decide as E.
  - subst b. rewrite room_insert_other by done. rewrite Ha, Hav. unfold available, free in *.
    simpl. destruct (pr_gone pr); [done|]. simpl in *. case_match; lia.
  - apply elem_of_cons in Hin as [?|Hin]; [done|]. rewrite <- IH by done. lia.
Qed.

Lemma room_best p name : best p name = None <-> room (p_heap p) (providers p name) = 0%nat.
Proof.
  rewrite best_None. induction (providers p name) as [|a ps IH]; simpl.
  - split; [done|]. intros _ a pr Ha. by apply elem_of_nil in Ha.
  - assert (forall pr, available pr = true -> 0 < free pr) as Hf.
    { intros pr. unfold available, free. destruct (pr_gone pr); simpl; lia. }
    split.
    + intros H. destruct (p_heap p !! a) as [pr|] eqn:Ha.
      * rewrite (H a pr) by (done || by left). apply IH. intros b q Hb. apply H. by right.
      * apply IH. intros b q Hb. apply H. by right.
    + intros H b q [->|Hb]%elem_of_cons Hq.
      * rewrite Hq in H. destruct (available q) eqn:E; [|done]. specialize (Hf q E). simpl in H. lia.
      * apply (proj2 IH) with b; [lia | done | done].
Qed.

(** ** Queues *)

(** The result of a dispatch: the [k] oldest waiters, and only they, were
    handed a lease of the service. *)
Definition served name p p' (k : nat) : Prop :=
  waiters p' name = drop k (waiters p name) /\
  (forall i w, (i < k)%nat -> waiters p name !! i = Some w ->
     exists l a, p_chans p' !! w = Some (Some l) /\ p_leases p' !! l = Some (mkLease name a false) /\
       p_leases p !! l = None /\ a ∈ providers p name).

(** A lease that was handed over stays handed over. *)
Lemma grants_keep name q p' w l ls :
  core q -> rtc (grant name) q p' ->
  p_chans q !! w = Some (Some l) -> p_leases q !! l = Some ls ->
  p_chans p' !! w = Some (Some l) /\ p_leases p' !! l = Some ls.
Proof.
  intros H R. revert H. induction R as [|p1 p2 p3 G _ IH]; [done|]. intros H Hc Hl.
  apply IH; [by eapply grant_core| |].
  - destruct G as [v ? ? ? ? ? Hv]. simpl. rewrite lookup_insert_ne; congruence.
  - destruct (core_fresh _ H (p_next p1)) as (_ & ? & _); [lia|].
    destruct G. simpl. rewrite lookup_insert_ne; congruence.
Qed.

(** C16. The oldest jobs go first: a dispatch under the lock never blocks, and
    it serves, in queue order, as many waiting jobs as the service has free
    slots, each with a new lease of one of its providers. *)
Theorem dispatch_oldest_first name p :
  core p ->
  exists p', dispatch name p = Some p' /\
    served name p p' (length (waiters p name) `min` room (p_heap p) (providers p name)).
Proof.
  unfold dispatch. remember (waiters p name) as ws eqn:Hws. revert p Hws.
  induction ws as [|w ws IH]; intros p Hws H; cbn [dispatch_loop].
  { exists p. split; [done|]. split; [by rewrite <- Hws | intros i v Hi; simpl in Hi; lia]. }
  destruct (best p name) as [[a pr]|] eqn:Hb.
  2: { exists p. split; [done|]. apply room_best in Hb. rewrite Hb, Nat.min_0_r.
       split; [done | intros; lia]. }
  pose proof (best_spec p name) as Hbs. rewrite Hb in Hbs. destruct Hbs as (Hin & Ha & Hav & _).
  assert (p_chans p !! w = Some None) as Hc by (eapply (core_empty _ H name); rewrite <- Hws; set_solver).
  assert (grant name p (granted name w ws a pr p)) as G by (by constructor).
  set (q := granted name w ws a pr p) in *.
  assert (waiters q name = ws) as Hq.
  { change (waiters (set_waiters name ws p) name = ws). rewrite waiters_set_waiters. by case_decide. }
  assert (providers q name = providers p name) as Hpq by apply (providers_set_waiters p name ws name).
  destruct (IH q (eq_sym Hq)) as (p' & Hd & Hs1 & Hs2); [by eapply grant_core|].
  exists p'. split.
  { unfold take, send. simpl. rewrite Hc. exact Hd. }
  rewrite Hpq in Hs1, Hs2.
  assert (S (room (p_heap q) (providers p name)) = room (p_heap p) (providers p name)) as Hr
    by (apply room_take; [apply (core_nodup _ H) | done..]).
  rewrite <- Hr. cbn [length Nat.min]. split.
  - rewrite <- Hws, Hs1, Hq. done.
  - intros i v Hi Hv. rewrite <- Hws in Hv. destruct i as [|i].
    + injection Hv as <-. clear Hs1 Hs2 IH.
      assert (exists p', dispatch name q = Some p' /\ rtc (grant name) q p') as (p2 & Hd2 & Hr2).
      { destruct (dispatch_spec name q) as (p2 & ? & ? & _); [by eapply grant_core|]. eauto. }
      unfold dispatch in Hd2. rewrite Hq in Hd2. simplify_eq.
      exists (p_next p), a.
      assert (p_chans q !! w = Some (Some (p_next p))) as Hcq by apply lookup_insert_eq.
      assert (p_leases q !! p_next p = Some (mkLease name a false)) as Hlq by apply lookup_insert_eq.
      destruct (grants_keep name q p' w (p_next p) (mkLease name a false)) as [? ?];
        [by eapply grant_core | done..|].
      split_and!; [done..| |done]. destruct (core_fresh _ H (p_next p)) as (_ & ? & _); [lia|done].
    + destruct (Hs2 i v) as (l & b & H1 & H2 & H3 & H4); [lia | by rewrite Hq|].
      exists l, b. split_and!; [done..| |done].
      simpl in H3. rewrite lookup_insert in H3. by case_decide.
Qed.

(** ** The theorems *)

(** C11. In every reachable state a provider's busy count is the number of its
    leases that were not released, and never exceeds the slots it announced. *)
Theorem never_oversubscribed timeout (s : Sys (T := T)) a pr :
  reachable timeout s -> p_heap (sys_pool s) !! a = Some pr ->
  pr_busy pr = live (sys_pool s) a /\ 0 <= pr_busy pr <= pr_Slots pr.
Proof.
  intros [[H _] _ _ _]%reachable_inv Ha. destruct (core_busy _ H _ _ Ha) as [-> ?].
  pose proof (live_nonneg (sys_pool s) a). lia.
Qed.

(** C12. In every reachable state, while a job waits for a service every
    provider in that service's pool is using all its slots. *)
Theorem work_conserving timeout (s : Sys (T := T)) name w a :
  reachable timeout s -> w ∈ waiters (sys_pool s) name -> a ∈ providers (sys_pool s) name ->
  exists pr, p_heap (sys_pool s) !! a = Some pr /\ pr_busy pr = pr_Slots pr.
Proof.
  intros [[H Hs] _ _ _]%reachable_inv Hw Ha.
  destruct (core_member _ H _ _ Ha) as (pr & Hp & _ & Hg). exists pr. split; [done|].
  destruct (Hs name) as [E|Hb]; [rewrite E in Hw; by apply elem_of_nil in Hw|].
  rewrite best_None in Hb. specialize (Hb a pr Ha Hp). unfold available in Hb. rewrite Hg in Hb.
  destruct (core_busy _ H _ _ Hp). simpl in Hb. lia.
Qed.

(** C13. No slot is lost and none is shared: in every reachable state each
    lease that was not released is with exactly one call of [Acquire] - it was
    returned by it, waits in its channel, or is about to be given back by it -
    and a call that returned an error has none. *)
Theorem one_holder_per_lease timeout (s : Sys (T := T)) l ls :
  reachable timeout s -> p_leases (sys_pool s) !! l = Some ls -> l_released ls = false ->
  exists c rq ph, sys_calls s !! c = Some (rq, ph) /\ holds (sys_pool s) ph l /\
    (forall e, ph <> Returned (Err e)) /\
    forall c' rq' ph', sys_calls s !! c' = Some (rq', ph') -> holds (sys_pool s) ph' l -> c' = c.
Proof.
  intros [_ S _ _]%reachable_inv Hl Hr.
  destruct (side_live _ _ S l ls Hl Hr) as (c & rq & ph & Hc & Hh). exists c, rq, ph.
  split_and!; [done..| |].
  - by intros e ->.
  - intros c' rq' ph' Hc' Hh'. by eapply (side_unique _ _ S).
Qed.

(** C14. No wakeup is lost: a call in its select is in its service's queue with
    nothing in its channel, or out of the queue with a lease in its channel;
    and a call that left the queue by [abandon] and found itself gone from it
    does find a lease to give back, so [abandon]'s default branch is dead. *)
Theorem no_lost_wakeup timeout (s : Sys (T := T)) c rq ph w :
  reachable timeout s -> sys_calls s !! c = Some (rq, ph) -> waiter_of ph = Some w ->
  (queued_phase ph = true /\ w ∈ waiters (sys_pool s) (rq_service rq) /\
     p_chans (sys_pool s) !! w = Some None) \/
  ((forall name, w ∉ waiters (sys_pool s) name) /\ exists l, p_chans (sys_pool s) !! w = Some (Some l)).
Proof.
  intros [[H _] S _ _]%reachable_inv Hc Hw.
  destruct (side_waiter _ _ S _ _ _ _ Hc Hw) as [_ [[Hq Hin]|[l Hl]]].
  - left. split_and!; [done..|]. by eapply (core_empty _ H).
  - right. split; [|eauto]. intros name Hin. apply (core_empty _ H) in Hin. congruence.
Qed.

(** [best] returns nothing exactly when no provider of the service has a
    free slot, and otherwise one with a free slot whose priority number is the
    smallest and, among those, whose room is the largest. *)
Theorem best_is_best p name :
  match best p name with
  | None => forall a pr, a ∈ providers p name -> p_heap p !! a = Some pr -> available pr = false
  | Some (a, pr) =>
      a ∈ providers p name /\ p_heap p !! a = Some pr /\ available pr = true /\
      forall a' pr', a' ∈ providers p name -> p_heap p !! a' = Some pr' -> available pr' = true ->
        pr_Priority pr < pr_Priority pr' \/
        (pr_Priority pr = pr_Priority pr' /\ free pr' <= free pr)
  end.
Proof. pose proof (best_spec p name) as H. by destruct (best p name) as [[a pr]|]. Qed.

(** A job waits only when it must: [Acquire] takes a slot at once when
    nobody waits and one is free; otherwise no slot is free, and the job joins
    its queue at the end, or at the head when it is a job queued again. *)
Theorem acquire_queues_in_order name front p :
  pool_inv p ->
  match Acquire_enter name front p with
  | (inl l, p') =>
      waiters p name = [] /\ exists a pr, best p name = Some (a, pr) /\
        p_leases p' !! l = Some (mkLease name a false)
  | (inr w, p') =>
      best p name = None /\ p_chans p' !! w = Some None /\ (forall n, w ∉ waiters p n) /\
      waiters p' name = if front then w :: waiters p name else waiters p name ++ [w]
  end.
Proof.
  intros Hi. destruct (Acquire_enter_spec name front p Hi) as [(a & pr & Hw & Hb & ->) | [Hb ->]].
  - split; [done|]. exists a, pr. split; [done|]. apply lookup_insert_eq.
  - assert (p_next (make_service name p) = p_next p) as En by apply (make_service_stores p name).
    unfold enqueue. simpl. split_and!; [done | apply lookup_insert_eq | |].
    + rewrite En. intros n Hin. apply (core_empty _ (proj1 Hi)) in Hin.
      destruct (core_fresh _ (proj1 Hi) (p_next p)) as (_ & _ & ?); [lia|]. congruence.
    + rewrite waiters_set_waiters, decide_True by done.
      assert (forall q w, waiters (set_chan w None (alloc q).2) name = waiters (T := T) q name) as E by done.
      simpl in E. by rewrite E, waiters_make_service.
Qed.

(** A call that has timed out did so at its deadline or after it, and says which
    service and which timeout. *)
Lemma timed_out_after_deadline timeout (s : Sys (T := T)) c rq service waited :
  reachable timeout s ->
  sys_calls s !! c = Some (rq, Returned (Err (TimeoutError service waited))) ->
  rq_since rq + timeout <= sys_now s /\ service = rq_service rq /\ waited = timeout.
Proof.
  intros [_ _ _ Hp]%reachable_inv Hc. specialize (Hp _ _ _ Hc). simpl in Hp. tauto.
Qed.

(** A waiting call's timer can run out exactly from its deadline on. *)
Lemma timer_fires timeout (s : Sys (T := T)) c rq w :
  reachable timeout s -> sys_calls s !! c = Some (rq, Waiting w) ->
  (exists s' e, step s s' /\ sys_calls s' !! c = Some (rq, Abandoning w e) /\ e <> ContextErr) <->
  rq_since rq + timeout <= sys_now s.
Proof.
  intros Hinv%reachable_inv Hc. split.
  - intros (s' & e & Hst & Hc' & He). pose proof (si_phase _ _ (step_inv _ _ _ Hinv Hst) _ _ _ Hc') as Hok.
    assert (sys_now s' = sys_now s) as <- by (destruct Hst; simpl in *; congruence).
    destruct e as [service waited|]; [|done]. simpl in Hok. tauto.
  - intros Hd. eexists _, _. split; [apply (step_timeout s c rq w Hc); by rewrite (si_timeout _ _ Hinv)|].
    split; [apply lookup_insert_eq | done].
Qed.

(** The lock is never held for ever and nothing dereferences a missing
    object: in a reachable state releasing any lease that exists succeeds, and
    so does adding any provider. *)
Theorem operations_total timeout (s : Sys (T := T)) :
  reachable timeout s ->
  (forall l, is_Some (p_leases (sys_pool s) !! l) -> is_Some (Release l (sys_pool s))) /\
  (forall peer name slots priority (t : T) a p, 0 <= slots ->
     new_provider peer name slots priority t (sys_pool s) = (a, p) -> is_Some (Add a p)).
Proof.
  intros [Hi S _ _]%reachable_inv. split.
  - intros l [ls Hl]. destruct (Release_inv l ls _ Hi Hl) as (p' & -> & _). eauto.
  - intros peer name slots priority t a p Hs Hn.
    pose proof (new_provider_inv peer name slots priority t _ Hs Hi) as Hi1.
    rewrite Hn in Hi1. unfold new_provider in Hn. simpl in Hn. injection Hn as <- <-.
    eapply Add_inv in Hi1 as (_ & p' & -> & _); [eauto | apply lookup_insert_eq | done |].
    intros n Hin. destruct (core_member _ (proj1 Hi) n _ Hin) as (q & Hq & _).
    destruct (core_fresh _ (proj1 Hi) (p_next (sys_pool s))); [lia|]. congruence.
Qed.

(** A call on its way out with an error, and how many steps it has left. *)
Definition leaving (ph : phase) : option acquire_error :=
  match ph with
  | Abandoning _ e | Draining _ e | GivingBack _ e => Some e
  | Waiting _ | Returned _ => None
  end.
Definition steps_left (ph : phase) : nat :=
  match ph with
  | Waiting _ => 4
  | Abandoning _ _ => 3
  | Draining _ _ => 2
  | GivingBack _ _ => 1
  | Returned _ => 0
  end.

(** A step of call [c], and a lease that has been given back. *)
Definition moves (c : nat) (s s' : Sys (T := T)) : Prop := step s s' /\ sys_calls s' !! c <> sys_calls s !! c.
Definition freed p l : Prop := exists ls, p_leases p !! l = Some ls /\ l_released ls = true.

Lemma freed_grants name p p' l : core p -> rtc (grant name) p p' -> freed p l -> freed p' l.
Proof.
  intros H R. revert H. induction R as [|p1 p2 p3 G _ IH]; [done|]. intros H (ls & Hl & Hr).
  apply IH; [by eapply grant_core|]. exists ls. split; [|done].
  destruct (core_fresh _ H (p_next p1)) as (_ & ? & _); [lia|]. destruct G. simpl. rewrite lookup_insert_ne; congruence.
Qed.

Lemma Release_frees l p p' : pool_inv p -> Release l p = Some p' -> freed p' l.
Proof.
  intros Hi HR. destruct (p_leases p !! l) as [ls|] eqn:Hl; [|unfold Release in HR; by rewrite Hl in HR].
  destruct (Release_inv l ls p Hi Hl) as (p1 & HR' & _ & Hm). rewrite HR in HR'. injection HR' as <-.
  destruct (l_released ls) eqn:Hrel; [subst p'; by exists ls|]. destruct Hm as (pr & _ & Hcore & Hr).
  eapply freed_grants; [exact Hcore | exact Hr|]. eexists. split; [apply lookup_insert_eq | done].
Qed.

(** A call on its way out is never stuck. *)
Lemma leaving_moves timeout (s : Sys (T := T)) c rq ph e :
  sys_inv timeout s -> sys_calls s !! c = Some (rq, ph) -> leaving ph = Some e -> exists s', moves c s s'.
Proof.
  intros [Hi S _ _] Hc He. destruct ph as [w|w e'|w e'|l e'|r]; try done.
  - destruct (abandon_queue (rq_service rq) w (sys_pool s)) as [queued p] eqn:Ea.
    eexists. split; [by eapply step_abandon|]. simpl. rewrite lookup_insert_eq, Hc. by destruct queued.
  - destruct (side_waiter _ _ S _ _ _ w Hc eq_refl) as [_ [[? _]|[l Hl]]]; [done|].
    eexists. split; [eapply step_drain; [done|]; unfold receive; by rewrite Hl|]. simpl. by rewrite lookup_insert_eq, Hc.
  - destruct (side_lease _ _ S _ _ _ l Hc eq_refl) as [ls Hl]. destruct (Release_inv l ls _ Hi Hl) as (p' & HR & _).
    eexists. split; [by eapply step_give_back|]. simpl. by rewrite lookup_insert_eq, Hc.
Qed.

(** C15. Giving up always works and leaves nothing behind.  A call of [Acquire]
    that gives up, its timer having fired or its context ended, is never stuck,
    whatever the other calls do; each step of its own brings it nearer to its
    return, at most three in all, and it returns the error it gave up with.  A
    lease handed to it meanwhile stays with it until it returns and has been
    released when it does, so the slot is the next job's. *)
Theorem giving_up_returns timeout (s : Sys (T := T)) c rq ph e :
  reachable timeout s -> sys_calls s !! c = Some (rq, ph) -> leaving ph = Some e ->
  (steps_left ph <= 3)%nat /\
  (exists s', moves c s s') /\
  forall s', moves c s s' -> exists ph', sys_calls s' !! c = Some (rq, ph') /\
    ((leaving ph' = Some e /\ (steps_left ph' < steps_left ph)%nat /\
        forall l, holds (sys_pool s) ph l -> holds (sys_pool s') ph' l) \/
     (ph' = Returned (Err e) /\ forall l, holds (sys_pool s) ph l -> freed (sys_pool s') l)).
Proof.
  intros Hinv%reachable_inv Hc He. split; [destruct ph; simpl; done || lia|].
  split; [by eapply leaving_moves|]. pose proof Hinv as [[Hi _] S _ _].
  intros s' [Hst Hm]. destruct Hst as [d Hd|peer name slots priority t a p p' Hsl Hn HA|a|c' rq' ph' p Hc' He'|c' rq' w l p Hc' Hr
    |c' rq' w Hc' Hd|c' rq' w Hc'|c' rq' w err queued p Hc' Ha|c' rq' w err l p Hc' Hr|c' rq' w err Hc' Hr
    |c' rq' l err p Hc' Hr|c' rq' l p Hc' Hr]; try done; simpl in Hm;
    (destruct (decide (c' = c)) as [->|Hne]; [|by rewrite lookup_insert_ne in Hm]); simplify_eq/=; rewrite lookup_insert_eq.
  - unfold abandon_queue in Ha. case_bool_decide as Hin; injection Ha as <- <-; eexists; (split; [reflexivity|]).
    + right. split; [done|]. intros l Hl. apply (core_empty _ Hi) in Hin. congruence.
    + left. split_and!; [done | simpl; lia | done].
  - eexists. split; [reflexivity|]. left. split_and!; [done | simpl; lia|]. intros l' Hl'.
    unfold receive in Hr. rewrite Hl' in Hr. by injection Hr as -> _.
  - eexists. split; [reflexivity|]. right. split; [done|]. intros l Hl. unfold receive in Hr. by rewrite Hl in Hr.
  - eexists. split; [reflexivity|]. right. split; [done|]. intros l' ->. eapply Release_frees; [apply Hinv | exact Hr].
Qed.

End Slots.

(** ** A pool at work

    One provider with one slot, a job that has it, a second job that waits
    and, later, has waited too long. *)

Definition demo_job : request := mkRequestArgs "svc" 0 false.

Definition demo_added : Sys (T := unit) :=
  let '(a, p) := new_provider "peer" "svc" 1 5 tt (New 10) in
  set_pool (default p (Add a p)) (init 10).
Definition demo_acquire (c : nat) (s : Sys (T := unit)) : Sys :=
  let '(ph, p) := enter demo_job (sys_pool s) in set_phase c demo_job ph p s.
(** Job 0 has the slot, job 1 waits for it. *)
Definition demo_waiting : Sys := demo_acquire 1 (demo_acquire 0 demo_added).
(** Job 1's timer has fired and it has left the queue. *)
Definition demo_late : Sys :=
  let s := mkSys (sys_pool demo_waiting) (sys_calls demo_waiting) 10 in
  let s := set_phase 1 demo_job (Abandoning 2 (TimeoutError "svc" 10)) (sys_pool s) s in
  set_phase 1 demo_job (Returned (Err (TimeoutError "svc" 10)))
    (abandon_queue "svc" 2 (sys_pool s)).2 s.

Lemma demo_waiting_reachable : reachable 10 demo_waiting.
Proof.
  eapply rtc_l; [by eapply (step_add _ "peer" "svc" 1 5 tt); [| vm_compute; reflexivity ..]|].
  eapply rtc_l; [by eapply (step_acquire _ 0 demo_job); vm_compute; reflexivity|].
  apply rtc_once. by eapply (step_acquire _ 1 demo_job); vm_compute; reflexivity.
Qed.

Lemma demo_late_reachable : reachable 10 demo_late.
Proof.
  unfold reachable. etrans; [apply demo_waiting_reachable|].
  eapply rtc_l; [by apply (step_tick _ 10)|].
  eapply rtc_l; [by eapply (step_timeout _ 1 demo_job); vm_compute|].
  apply rtc_once.
  by eapply (step_abandon _ 1 demo_job 2 (TimeoutError "svc" 10) true); vm_compute.
Qed.

Definition demo_provider : Provider unit := mkProvider "peer" "svc" 1 5 tt 1 false.

Lemma never_oversubscribed_witness :
  p_heap (sys_pool demo_waiting) !! 0%nat = Some demo_provider /\
  (pr_busy demo_provider = live (sys_pool demo_waiting) 0 /\
   0 <= pr_busy demo_provider <= pr_Slots demo_provider).
Proof.
  split; [reflexivity|].
  apply (never_oversubscribed 10); [exact demo_waiting_reachable | reflexivity].
Defined.

Lemma work_conserving_witness :
  waiters (sys_pool demo_waiting) "svc" = [2%nat] /\
  exists pr, p_heap (sys_pool demo_waiting) !! 0%nat = Some pr /\ pr_busy pr = pr_Slots pr.
Proof.
  split; [reflexivity|].
  apply (work_conserving 10 demo_waiting "svc" 2 0);
    [exact demo_waiting_reachable | vm_compute; left | vm_compute; left].
Defined.

Lemma one_holder_per_lease_witness :
  exists c rq ph, sys_calls demo_waiting !! c = Some (rq, ph) /\ holds (sys_pool demo_waiting) ph 1 /\
    (forall e, ph <> Returned (Err e)) /\
    forall c' rq' ph', sys_calls demo_waiting !! c' = Some (rq', ph') ->
      holds (sys_pool demo_waiting) ph' 1 -> c' = c.
Proof.
  apply (one_holder_per_lease 10 demo_waiting 1 (mkLease "svc" 0 false));
    [exact demo_waiting_reachable | reflexivity | reflexivity].
Defined.

Lemma no_lost_wakeup_witness :
  (queued_phase (Waiting 2) = true /\ 2%nat ∈ waiters (sys_pool demo_waiting) "svc" /\
     p_chans (sys_pool demo_waiting) !! 2%nat = Some None) \/
  ((forall name, 2%nat ∉ waiters (sys_pool demo_waiting) name) /\
   exists l, p_chans (sys_pool demo_waiting) !! 2%nat = Some (Some l)).
Proof.
  apply (no_lost_wakeup 10 demo_waiting 1 demo_job (Waiting 2) 2);
    [exact demo_waiting_reachable | reflexivity | reflexivity].
Defined.

(** The pool inside [Release], job 0's slot free again and job 1 still waiting. *)
Definition demo_mid : Pool unit :=
  set_provider 0 (with_busy (1 - 1) demo_provider) (set_lease 1 (mkLease "svc" 0 true) (sys_pool demo_waiting)).

Lemma demo_mid_core : core demo_mid.
Proof.
  destruct (Release_inv 1 (mkLease "svc" 0 false) (sys_pool demo_waiting)) as (_ & _ & _ & pr & Hpr & Hc & _);
    [apply (reachable_inv 10 _ demo_waiting_reachable) | reflexivity|].
  vm_compute in Hpr. injection Hpr as <-. exact Hc.
Qed.

Lemma dispatch_oldest_first_witness :
  waiters demo_mid "svc" = [2%nat] /\
  exists p', dispatch "svc" demo_mid = Some p' /\ served "svc" demo_mid p' 1.
Proof. split; [reflexivity|]. apply (dispatch_oldest_first "svc" demo_mid demo_mid_core). Defined.

Lemma acquire_queues_in_order_witness :
  let p := sys_pool demo_waiting in
  let p' := (Acquire_enter "svc" true p).2 in
  (Acquire_enter "svc" true p).1 = inr 3%nat /\
  (best p "svc" = None /\ p_chans p' !! 3%nat = Some None /\ (forall n, 3%nat ∉ waiters p n) /\
   waiters p' "svc" = 3%nat :: waiters p "svc").
Proof.
  pose proof (acquire_queues_in_order "svc" true (sys_pool demo_waiting)
    (si_pool _ _ (reachable_inv 10 _ demo_waiting_reachable))) as H. cbv zeta.
  assert ((Acquire_enter "svc" true (sys_pool demo_waiting)).1 = inr 3%nat) as E by reflexivity.
  destruct (Acquire_enter "svc" true (sys_pool demo_waiting)) as [r p']. simpl in E. by subst r.
Defined.

Lemma operations_total_witness : is_Some (Release 1 (sys_pool demo_waiting)).
Proof.
  apply (operations_total 10 demo_waiting demo_waiting_reachable). by eexists; vm_compute.
Defined.

(** Job 0 gives its slot back, which is handed to job 1 just as its timer has
    fired: job 1 finds it and has to give it back. *)
Definition demo_given : Sys (T := unit) :=
  let s := mkSys (sys_pool demo_waiting) (sys_calls demo_waiting) 10 in
  let s := set_phase 1 demo_job (Abandoning 2 (TimeoutError "svc" 10)) (sys_pool s) s in
  set_pool (default (sys_pool s) (Release 1 (sys_pool s))) s.

Lemma demo_given_reachable : reachable 10 demo_given.
Proof.
  unfold reachable. etrans; [apply demo_waiting_reachable|].
  eapply rtc_l; [by apply (step_tick _ 10)|].
  eapply rtc_l; [by eapply (step_timeout _ 1 demo_job); vm_compute|].
  apply rtc_once. by eapply (step_release _ 0 demo_job 1); vm_compute.
Qed.

Lemma giving_up_returns_witness :
  holds (sys_pool demo_given) (Abandoning 2 (TimeoutError "svc" 10)) 3 /\
  (exists s', moves 1 demo_given s').
Proof.
  split; [vm_compute; reflexivity|].
  apply (giving_up_returns 10 demo_given 1 demo_job (Abandoning 2 (TimeoutError "svc" 10)) (TimeoutError "svc" 10));
    [exact demo_given_reachable | reflexivity | reflexivity].
Defined.
