(* ===== verification/Register.v ===== *)
(** How a session's providers enter and leave the pool: [register] and the
    deferred removals of [handle], internal/peer/server.go. *)

From S2P Require Import Prelude Bytes Message Pool PoolFacts.
Local Open Scope Z_scope.

Section Register.
Context {T : Type}.
Implicit Types (p q : Pool T) (c : T).

(** The loop of [register]: the services seen, the providers added so far.
    [None] is an [Add] that blocks with the lock held. *)
Fixpoint register_loop c (peer : string) (seen : list string) (added : list nat) (infos : list ProviderInfo) p
    : option (result string (list nat) * Pool T) :=
  match infos with
  | [] => Some (Ok added, p)
  | info :: infos =>
      if bool_decide (info_Service info ∈ seen) then Some (Err (info_Service info), p)
      else
        let '(a, p) := new_provider peer (info_Service info) (Z.of_N (info_MaxConcurrent info))
                         (Z.of_N (info_Priority info)) c p in
        match Add a p with
        | None => None
        | Some p => register_loop c peer (info_Service info :: seen) (added ++ [a]) infos p
        end
  end.

Definition register c (hello : Hello) p : option (result string (list nat) * Pool T) :=
  register_loop c (hello_Name hello) [] [] (hello_Providers hello) p.

(** The deferred loop of [handle]. *)
Definition withdraw (added : list nat) p : Pool T := fold_left (fun p a => Remove a p) added p.

(** ** What [Add] leaves as it is *)

(** A provider as its owner made it, less the slots in use. *)
Definition announced (pr : Provider T) : string * string * Z * Z * T * bool :=
  (pr_Peer pr, pr_Service pr, pr_Slots pr, pr_Priority pr, pr_Target pr, pr_gone pr).

Definition keeps p q : Prop :=
  (forall name, providers q name = providers p name) /\
  (forall a, announced <$> p_heap q !! a = announced <$> p_heap p !! a) /\
  (p_next p <= p_next q)%nat.

Lemma grants_keeps name p q : rtc (grant name) p q -> keeps p q.
Proof.
  induction 1 as [p|p1 p2 p3 G _ (IHp & IHh & IHn)]; [by split_and!|].
  destruct G as [w ws a pr Hw Hb Hc].
  pose proof (best_spec p1 name) as Hs. rewrite Hb in Hs. destruct Hs as (_ & Ha & _).
  split_and!; [intros n; rewrite IHp; apply (providers_set_waiters p1 name ws n)| |simpl in IHn; lia].
  intros b. rewrite IHh. unfold granted. simpl. destruct (decide (a = b)) as [<-|Hne].
  - by rewrite lookup_insert_eq, Ha.
  - by rewrite lookup_insert_ne.
Qed.

(** One turn of the loop. *)
Lemma new_add peer name slots priority c p :
  pool_inv p -> 0 <= slots ->
  let a := p_next p in
  exists q, Add a (new_provider peer name slots priority c p).2 = Some q /\ pool_inv q /\ (a < p_next q)%nat /\
    (forall n, providers q n = if decide (n = name) then providers p n ++ [a] else providers p n) /\
    (forall b, announced <$> p_heap q !! b =
       if decide (a = b) then Some (peer, name, slots, priority, c, false) else announced <$> p_heap p !! b).
Proof.
  intros Hi Hs a. pose proof (new_provider_inv peer name slots priority c p Hs Hi) as Hi1.
  set (p1 := (new_provider peer name slots priority c p).2) in *.
  set (pr := mkProvider peer name slots priority c 0 false).
  assert (p_heap p1 = <[a := pr]> (p_heap p)) as Hheap by done.
  assert (forall n, a ∉ providers p1 n) as Hnin.
  { intros n Hin. destruct (core_member _ (proj1 Hi) n a Hin) as (r & Hr & _).
    destruct (core_fresh _ (proj1 Hi) a) as (E & _); [done|]. congruence. }
  destruct (Add_inv a pr p1 Hi1) as (_ & q & Hq & Hiq & Hg);
    [rewrite Hheap; apply lookup_insert_eq | done | done |].
  apply grants_keeps in Hg as (Hp & Hh & Hn). simpl in Hp, Hh, Hn.
  destruct (make_service_stores p1 name) as (Hms & _ & _ & Hnext & _).
  exists q. split_and!; [done|done| | |].
  - assert (p_next p1 = S a) as E1 by done. rewrite Hnext, E1 in Hn. lia.
  - intros n. rewrite Hp, providers_set_providers, providers_make_service.
    change (providers p1) with (providers p). repeat case_decide; congruence.
  - intros b. rewrite Hh, Hms, Hheap. case_decide; [by subst; rewrite lookup_insert_eq | by rewrite lookup_insert_ne].
Qed.

(** ** Which announcements are taken: those before the first repeated service *)
Fixpoint accepted (seen : list string) (infos : list ProviderInfo) : list ProviderInfo :=
  match infos with
  | [] => []
  | info :: infos =>
      if bool_decide (info_Service info ∈ seen) then []
      else info :: accepted (info_Service info :: seen) infos
  end.

Definition of_service (name : string) (new : list (nat * ProviderInfo)) : list nat :=
  omap (fun x => if bool_decide (info_Service x.2 = name) then Some x.1 else None) new.

Definition stands_for c (peer : string) p (x : nat * ProviderInfo) : Prop :=
  announced <$> p_heap p !! x.1 =
    Some (peer, info_Service x.2, Z.of_N (info_MaxConcurrent x.2), Z.of_N (info_Priority x.2), c, false).

Lemma register_loop_spec c peer seen added infos p :
  pool_inv p ->
  exists r q new, register_loop c peer seen added infos p = Some (r, q) /\ pool_inv q /\
    new.*2 = accepted seen infos /\
    (forall name, providers q name = providers p name ++ of_service name new) /\
    Forall (stands_for c peer q) new /\
    (forall b, (b < p_next p)%nat -> announced <$> p_heap q !! b = announced <$> p_heap p !! b) /\
    (Forall (fun x => (p_next p <= x.1)%nat) new /\ NoDup new.*1) /\
    match r with
    | Ok all => accepted seen infos = infos /\ all = added ++ new.*1
    | Err _ => accepted seen infos <> infos
    end.
Proof.
  revert seen added p. induction infos as [|info infos IH]; intros seen added p Hi.
  { exists (Ok added), p, []. split_and!; try done; [intros name; by rewrite app_nil_r | constructor | by rewrite app_nil_r]. }
  cbn [register_loop accepted]. case_bool_decide as Hseen.
  { exists (Err (info_Service info)), p, []. split_and!; try done; [intros name; by rewrite app_nil_r | constructor]. }
  set (slots := Z.of_N (info_MaxConcurrent info)). set (priority := Z.of_N (info_Priority info)).
  destruct (new_add peer (info_Service info) slots priority c p Hi) as (q & Hadd & Hq & Hn & Hp & Hh); [lia|].
  rewrite (surjective_pairing (new_provider _ _ _ _ _ _)).
  change (new_provider peer (info_Service info) slots priority c p).1 with (p_next p). rewrite Hadd.
  destruct (IH (info_Service info :: seen) (added ++ [p_next p]) q Hq)
    as (r & q' & new & -> & Hq' & Hacc & Hp' & Hst & Hold & [Hfr Hnd] & Hr).
  exists r, q', ((p_next p, info) :: new). split_and!; [done|done| | | | | | |].
  - by rewrite <- Hacc.
  - intros name. rewrite Hp', Hp. unfold of_service. simpl.
    case_decide; [subst; rewrite bool_decide_true by done; by rewrite <- app_assoc | by rewrite bool_decide_false].
  - constructor; [|done]. unfold stands_for. simpl. rewrite (Hold (p_next p) Hn), Hh. by rewrite decide_True.
  - intros b Hb. rewrite Hold by lia. rewrite Hh. rewrite decide_False; [done | lia].
  - constructor; [done|]. eapply Forall_impl; [exact Hfr|]. intros x. simpl. lia.
  - constructor; [|done]. intros (x & Hx & Hin)%list_elem_of_fmap. rewrite Forall_forall in Hfr.
    specialize (Hfr x Hin). simpl in Hx. lia.
  - destruct r as [all|e]; [|congruence]. destruct Hr as [Ha ->]. split; [congruence|]. by rewrite <- app_assoc.
Qed.

(** Removing a provider takes it out of the only list it can be in. *)
Lemma withdraw_clears added p a name :
  pool_inv p -> a ∈ added -> a ∉ providers (withdraw added p) name.
Proof.
  revert p. induction added as [|b added IH]; intros p Hi Ha; [by apply elem_of_nil in Ha|].
  assert (forall q, pool_inv q -> a ∉ providers q name -> a ∉ providers (withdraw added q) name) as Hstay.
  { clear. induction added as [|b added IH]; intros q Hi Ha; [done|]. apply IH; [by apply Remove_inv|].
    destruct (p_heap q !! b) as [pr|] eqn:E; [|unfold Remove; by rewrite E].
    destruct (Remove_view b pr q E) as (_ & _ & _ & _ & _ & ->). case_decide; [|done].
    by intros ?%elem_of_remove_first. }
  cbn [withdraw fold_left]. fold (withdraw added (Remove b p)).
  destruct (decide (a = b)) as [->|Hne]; [apply Hstay; [by apply Remove_inv|] | apply IH; [by apply Remove_inv | by apply elem_of_cons in Ha as [?|?]]].
  destruct (p_heap p !! b) as [pr|] eqn:E.
  - destruct (Remove_view b pr p E) as (_ & _ & _ & _ & _ & ->). case_decide as Hd.
    + apply NoDup_remove_first, (core_nodup _ (proj1 Hi)).
    + intros Hin. destruct (core_member _ (proj1 Hi) name b Hin) as (? & ? & ? & _). congruence.
  - intros Hin. unfold Remove in Hin. rewrite E in Hin.
    destruct (core_member _ (proj1 Hi) name b Hin) as (? & ? & _). congruence.
Qed.

(** C40. A HELLO's upstreams enter the pool and leave it with the session: each
    announcement before the first repeated service becomes one provider of its
    service, with the peer's name, slots and priority and the connection as its
    target, behind the providers already there.  A HELLO without a repeated
    service hands back exactly those providers, and removing them takes every
    one out of the pool.  A HELLO with one is refused, but the providers added
    before it was noticed stay in the pool and nobody is told of them. *)
Theorem register_spec c hello p :
  pool_inv p ->
  exists r q new, register c hello p = Some (r, q) /\ pool_inv q /\
    new.*2 = accepted [] (hello_Providers hello) /\
    Forall (stands_for c (hello_Name hello) q) new /\
    (forall name, providers q name = providers p name ++ of_service name new) /\
    match r with
    | Ok added =>
        accepted [] (hello_Providers hello) = hello_Providers hello /\ added = new.*1 /\
        forall q' name a, pool_inv q' -> a ∈ added -> a ∉ providers (withdraw added q') name
    | Err _ => accepted [] (hello_Providers hello) <> hello_Providers hello
    end.
Proof.
  intros Hi. destruct (register_loop_spec c (hello_Name hello) [] [] (hello_Providers hello) p Hi)
    as (r & q & new & Hr & Hq & Hacc & Hp & Hst & _ & _ & Hres).
  exists r, q, new. split_and!; [done..|]. destruct r as [added|e]; [|done].
  destruct Hres as [Ha ->]. split_and!; [done..|]. intros q' name a Hq' Hin. by apply withdraw_clears.
Qed.

End Register.

(** ** A HELLO that announces one service twice *)
Definition demo_twice : Hello :=
  mkHello "peer" [mkProviderInfo "llm" 1 100; mkProviderInfo "llm" 2 50].

Lemma register_spec_witness :
  exists r q (new : list (nat * ProviderInfo)), register (T := nat) 7%nat demo_twice (New 600) = Some (r, q) /\
    new.*2 = [mkProviderInfo "llm" 1 100] /\ r = Err "llm"%string /\
    providers q "llm" = [0%nat] /\ best q "llm" <> None.
Proof.
  destruct (register_spec (T := nat) 7%nat demo_twice (New 600) (New_inv 600)) as (r & q & new & Hr & _ & Hn & _).
  exists r, q, new. split; [exact Hr|]. split; [exact Hn|]. vm_compute in Hr. injection Hr as <- <-.
  split_and!; [reflexivity | vm_compute; reflexivity | vm_compute; discriminate].
Defined.
