(* ===== verification/SessionPool.v ===== *)
(** The pool and the sessions that fill it: [register] and the deferred removals
    of [handle] (internal/peer/server.go), interleaved with each other and with
    the jobs that take and give back slots.

    The server takes the pool's lock once for every provider it adds, so a
    registration is one step for each, and anything may happen in between. *)

From S2P Require Import Prelude Bytes Message Pool PoolFacts Register.

Section SessionPool.
Context {T : Type}.

(** Where a session's goroutine is: in [register]'s loop over the HELLO's
    announcements, with the services seen, the providers added and what is left
    to add; or past it, with the providers it has still to take out. *)
Inductive sess_phase : Type :=
  | Registering (c : T) (peer : string) (seen : list string) (added : list nat) (rest : list ProviderInfo)
  | Joined (added : list nat).

Definition held (ph : sess_phase) : list nat :=
  match ph with Registering _ _ _ added _ | Joined added => added end.

(** The sessions there are, and the providers of HELLOs that were refused, which
    nobody takes out. *)
Record Ssys : Type := mkSsys {
  ss_pool : Pool T;
  ss_sessions : gmap nat sess_phase;
  ss_left : list nat;
}.

Definition ss_init (timeout : Z) : Ssys := mkSsys (New timeout) ∅ [].

Inductive sess_step (s : Ssys) : Ssys -> Prop :=
  | ss_hello sid c hello : ss_sessions s !! sid = None ->
      sess_step s (mkSsys (ss_pool s)
        (<[sid := Registering c (hello_Name hello) [] [] (hello_Providers hello)]> (ss_sessions s)) (ss_left s))
  | ss_add sid c peer seen added info rest a p q :
      ss_sessions s !! sid = Some (Registering c peer seen added (info :: rest)) ->
      info_Service info ∉ seen ->
      new_provider peer (info_Service info) (Z.of_N (info_MaxConcurrent info)) (Z.of_N (info_Priority info)) c (ss_pool s)
        = (a, p) ->
      Add a p = Some q ->
      sess_step s (mkSsys q
        (<[sid := Registering c peer (info_Service info :: seen) (added ++ [a]) rest]> (ss_sessions s)) (ss_left s))
  | ss_refused sid c peer seen added info rest :
      ss_sessions s !! sid = Some (Registering c peer seen added (info :: rest)) ->
      info_Service info ∈ seen ->
      sess_step s (mkSsys (ss_pool s) (delete sid (ss_sessions s)) (ss_left s ++ added))
  | ss_join sid c peer seen added :
      ss_sessions s !! sid = Some (Registering c peer seen added []) ->
      sess_step s (mkSsys (ss_pool s) (<[sid := Joined added]> (ss_sessions s)) (ss_left s))
  | ss_remove sid a rest : ss_sessions s !! sid = Some (Joined (a :: rest)) ->
      sess_step s (mkSsys (Remove a (ss_pool s)) (<[sid := Joined rest]> (ss_sessions s)) (ss_left s))
  | ss_end sid : ss_sessions s !! sid = Some (Joined []) ->
      sess_step s (mkSsys (ss_pool s) (delete sid (ss_sessions s)) (ss_left s))
  | ss_acquire name front :
      sess_step s (mkSsys (Acquire_enter name front (ss_pool s)).2 (ss_sessions s) (ss_left s))
  | ss_release l q : Release l (ss_pool s) = Some q -> sess_step s (mkSsys q (ss_sessions s) (ss_left s))
  | ss_receive w l q : receive w (ss_pool s) = Some (l, q) -> sess_step s (mkSsys q (ss_sessions s) (ss_left s))
  | ss_abandon name w :
      sess_step s (mkSsys (abandon_queue name w (ss_pool s)).2 (ss_sessions s) (ss_left s)).

(** ** [register] is its steps with nothing in between *)
Lemma register_loop_steps sid c peer seen added infos p r q (sessions : gmap nat sess_phase) left :
  register_loop c peer seen added infos p = Some (r, q) ->
  exists s, rtc sess_step (mkSsys p (<[sid := Registering c peer seen added infos]> sessions) left) s /\ ss_pool s = q /\
    match r with
    | Ok all => ss_sessions s = <[sid := Joined all]> sessions /\ ss_left s = left
    | Err _ => ss_sessions s = delete sid sessions /\ exists all, ss_left s = left ++ added ++ all
    end.
Proof.
  revert seen added p. induction infos as [|info infos IH]; intros seen added p; cbn [register_loop].
  { intros [= <- <-]. eexists. split; [apply rtc_once; eapply ss_join, lookup_insert_eq|]. simpl. by rewrite insert_insert_eq. }
  case_bool_decide as Hseen.
  { intros [= <- <-]. eexists. split; [apply rtc_once; eapply ss_refused; [apply lookup_insert_eq | done]|]. simpl.
    rewrite delete_insert_eq. split_and!; [done..|]. exists []. by rewrite app_nil_r. }
  destruct (new_provider _ _ _ _ _ _) as [a p1] eqn:En. destruct (Add a p1) as [p2|] eqn:Ea; [|done]. intros Hr.
  destruct (IH _ _ _ Hr) as (s & Hs & Hp & Hm). exists s. split_and!; [|done|].
  - eapply rtc_l; [eapply ss_add; [apply lookup_insert_eq | done | exact En | exact Ea]|]. simpl. by rewrite insert_insert_eq.
  - destruct r; [done|]. destruct Hm as (? & all & ->). split; [done|]. exists (a :: all). by rewrite <- (app_assoc added).
Qed.

(** ** The invariant *)
Definition owned (sessions : gmap nat sess_phase) (a : nat) : Prop :=
  exists sid ph, sessions !! sid = Some ph /\ a ∈ held ph.

Definition pooled (p : Pool T) (a : nat) : Prop := exists name, a ∈ providers p name.

(** A session has one provider of a service at most: those of a registration
    under way are of the services it has seen. *)
Definition one_each (p : Pool T) (ph : sess_phase) : Prop :=
  (forall name a b, a ∈ held ph -> b ∈ held ph -> a ∈ providers p name -> b ∈ providers p name -> a = b) /\
  match ph with
  | Registering _ _ seen added _ => forall name a, a ∈ added -> a ∈ providers p name -> name ∈ seen
  | Joined _ => True
  end.

Record ss_inv (s : Ssys) : Prop := {
  si_pool : pool_inv (ss_pool s);
  si_members a : pooled (ss_pool s) a <-> owned (ss_sessions s) a \/ a ∈ ss_left s;
  si_nodup sid ph : ss_sessions s !! sid = Some ph -> NoDup (held ph);
  si_left sid ph a : ss_sessions s !! sid = Some ph -> a ∈ held ph -> a ∉ ss_left s;
  si_one sid sid' ph ph' a : ss_sessions s !! sid = Some ph -> ss_sessions s !! sid' = Some ph' ->
    a ∈ held ph -> a ∈ held ph' -> sid = sid';
  si_each sid ph : ss_sessions s !! sid = Some ph -> one_each (ss_pool s) ph;
}.

(** Providers a session does not hold may come and go. *)
Lemma one_each_mono p q ph :
  (forall name a, a ∈ held ph -> a ∈ providers q name -> a ∈ providers p name) -> one_each p ph -> one_each q ph.
Proof. intros Hp [H1 H2]. split; [eauto 6|]. destruct ph; [|done]. simpl in Hp. eauto. Qed.

Lemma same_providers_inv s q :
  ss_inv s -> pool_inv q -> (forall name, providers q name = providers (ss_pool s) name) ->
  ss_inv (mkSsys q (ss_sessions s) (ss_left s)).
Proof.
  intros [] Hq Hp. split; simpl; try done.
  - intros a. rewrite <- si_members0. unfold pooled.
    split; intros [name Hn]; exists name; [by rewrite <- Hp | by rewrite Hp].
  - intros sid ph Hs. eapply one_each_mono; [|by eapply si_each0]. intros name a _. by rewrite Hp.
Qed.

(** What the jobs do leaves the members as they are. *)
Lemma Acquire_enter_providers name front (p : Pool T) n : providers (Acquire_enter name front p).2 n = providers p n.
Proof.
  unfold Acquire_enter. destruct (match waiters _ _ with [] => _ | _ => _ end) as [[a pr]|].
  - change (providers (make_service name p) n = providers p n). apply providers_make_service.
  - cbn [snd alloc]. rewrite providers_set_waiters. apply providers_make_service.
Qed.

Lemma Release_providers l (p q : Pool T) n : pool_inv p -> Release l p = Some q -> pool_inv q /\ providers q n = providers p n.
Proof.
  intros Hi Hr. destruct (p_leases p !! l) as [ls|] eqn:Hl; [|unfold Release in Hr; by rewrite Hl in Hr].
  destruct (Release_inv l ls p Hi Hl) as (q' & Hq & Hi' & Hs). rewrite Hr in Hq. injection Hq as <-.
  split; [done|]. destruct (l_released ls); [by subst|]. destruct Hs as (pr & _ & _ & G).
  apply grants_keeps in G as [G _]. apply G.
Qed.

Lemma abandon_providers name w (p : Pool T) n : providers (abandon_queue name w p).2 n = providers p n.
Proof. unfold abandon_queue. case_bool_decide; [apply providers_set_waiters | done]. Qed.

Lemma receive_providers w l (p q : Pool T) n : receive w p = Some (l, q) -> providers q n = providers p n.
Proof. unfold receive. destruct (p_chans p !! w) as [[l'|]|]; [|done..]. by intros [= _ <-]. Qed.

(** ** Every step keeps it *)

(** Whatever a session's entry becomes, as long as what it held before covers what
    it holds now and those it gives up have left the pool or are left in it. *)
Lemma session_inv s sid (ph' : option sess_phase) q left :
  ss_inv s -> pool_inv q ->
  (forall a, pooled q a <-> owned (partial_alter (fun _ => ph') sid (ss_sessions s)) a \/ a ∈ left) ->
  (forall ph, ph' = Some ph -> NoDup (held ph) /\ one_each q ph /\
     forall a, a ∈ held ph -> a ∉ left /\ forall sid' ph1, sid' <> sid -> ss_sessions s !! sid' = Some ph1 -> a ∉ held ph1) ->
  (forall sid' ph a, sid' <> sid -> ss_sessions s !! sid' = Some ph -> a ∈ held ph ->
     a ∉ left /\ forall name, a ∈ providers q name -> a ∈ providers (ss_pool s) name) ->
  ss_inv (mkSsys q (partial_alter (fun _ => ph') sid (ss_sessions s)) left).
Proof.
  intros [] Hq Hm Hnew Hold.
  assert (forall sid' ph, partial_alter (fun _ => ph') sid (ss_sessions s) !! sid' = Some ph ->
    (sid' = sid /\ ph' = Some ph) \/ (sid' <> sid /\ ss_sessions s !! sid' = Some ph)) as Hl.
  { intros sid' ph. destruct (decide (sid' = sid)) as [->|Hne].
    - rewrite lookup_partial_alter_eq. auto.
    - rewrite lookup_partial_alter_ne by done. auto. }
  split; simpl; try done.
  - intros sid' ph [[-> H]|[_ H]]%Hl; [by apply Hnew | by eapply si_nodup0].
  - intros sid' ph a [[-> H]|[Hne H]]%Hl Ha; [by apply (Hnew ph) | by eapply Hold].
  - intros sid1 sid2 ph1 ph2 a [[-> H1]|[Hn1 H1]]%Hl [[-> H2]|[Hn2 H2]]%Hl Ha1 Ha2.
    + done.
    + destruct (Hnew ph1 H1) as (_ & _ & Hf). by destruct (proj2 (Hf a Ha1) sid2 ph2 Hn2 H2).
    + destruct (Hnew ph2 H2) as (_ & _ & Hf). by destruct (proj2 (Hf a Ha2) sid1 ph1 Hn1 H1).
    + by eapply si_one0.
  - intros sid' ph [[-> H]|[Hne H]]%Hl; [by apply Hnew|].
    eapply one_each_mono; [|by eapply si_each0]. intros name a Ha. by eapply Hold.
Qed.

(** What is owned after a session's entry changed. *)
Lemma owned_alter sessions sid (ph' : option sess_phase) a :
  owned (partial_alter (fun _ => ph') sid sessions) a <->
    (exists ph, ph' = Some ph /\ a ∈ held ph) \/
    exists sid' ph, sid' <> sid /\ sessions !! sid' = Some ph /\ a ∈ held ph.
Proof.
  unfold owned. split.
  - intros (sid' & ph & Hl & Ha). destruct (decide (sid' = sid)) as [->|Hne].
    + rewrite lookup_partial_alter_eq in Hl. left. eauto.
    + rewrite lookup_partial_alter_ne in Hl by done. right. eauto.
  - intros [(ph & -> & Ha)|(sid' & ph & Hne & Hl & Ha)].
    + exists sid, ph. by rewrite lookup_partial_alter_eq.
    + exists sid', ph. by rewrite lookup_partial_alter_ne.
Qed.

Lemma owned_insert sessions sid ph a :
  owned (partial_alter (fun _ => Some ph) sid sessions) a <->
    a ∈ held ph \/ exists sid' ph', sid' <> sid /\ sessions !! sid' = Some ph' /\ a ∈ held ph'.
Proof.
  rewrite (owned_alter sessions sid (Some ph)). split; (intros [H|H]; [left | by right]).
  - by destruct H as (? & [= <-] & H).
  - by exists ph.
Qed.

Lemma owned_split sessions sid ph a :
  sessions !! sid = Some ph ->
  owned sessions a <-> a ∈ held ph \/ exists sid' ph', sid' <> sid /\ sessions !! sid' = Some ph' /\ a ∈ held ph'.
Proof.
  intros Hs. unfold owned. split.
  - intros (sid' & ph' & Hl & Ha). destruct (decide (sid' = sid)) as [->|Hne]; [left; congruence | right; eauto].
  - intros [Ha|(sid' & ph' & _ & Hl & Ha)]; eauto.
Qed.

Lemma hello_inv s sid c peer infos :
  ss_inv s -> ss_sessions s !! sid = None ->
  ss_inv (mkSsys (ss_pool s) (<[sid := Registering c peer [] [] infos]> (ss_sessions s)) (ss_left s)).
Proof.
  intros Hi Hs. apply (session_inv s sid (Some _)); [done | apply Hi | | |].
  - intros a. rewrite (si_members s Hi), (owned_insert (ss_sessions s) sid). cbn [held]. unfold owned.
    split; (intros [H|]; [|by right]); left.
    + destruct H as (sid' & ph & Hl & Ha). right. exists sid', ph. split; [congruence | done].
    + destruct H as [Ha|(sid' & ph & _ & Hl & Ha)]; [by apply elem_of_nil in Ha | eauto].
  - intros ph [= <-]. split_and!; [constructor | | by intros a Ha%elem_of_nil].
    split; [intros name a b Ha; by apply elem_of_nil in Ha | intros name a Ha; by apply elem_of_nil in Ha].
  - intros sid' ph a _ Hl Ha. split; [by eapply si_left | done].
Qed.

Lemma join_inv s sid c peer seen added :
  ss_inv s -> ss_sessions s !! sid = Some (Registering c peer seen added []) ->
  ss_inv (mkSsys (ss_pool s) (<[sid := Joined added]> (ss_sessions s)) (ss_left s)).
Proof.
  intros Hi Hs. apply (session_inv s sid (Some _)); [done | apply Hi | | |].
  - intros a. by rewrite (si_members s Hi), (owned_insert (ss_sessions s) sid), (owned_split _ _ _ _ Hs).
  - intros ph [= <-]. split_and!; [by apply (si_nodup s Hi _ _ Hs) | split; [apply (si_each s Hi _ _ Hs) | done]|].
    intros a Ha. split; [by apply (si_left s Hi _ _ a Hs)|]. intros sid' ph1 Hne Hl Ha'.
    apply Hne. by apply (si_one s Hi _ _ _ _ a Hl Hs).
  - intros sid' ph a _ Hl Ha. split; [by eapply si_left | done].
Qed.

Lemma refused_inv s sid ph :
  ss_inv s -> ss_sessions s !! sid = Some ph ->
  ss_inv (mkSsys (ss_pool s) (delete sid (ss_sessions s)) (ss_left s ++ held ph)).
Proof.
  intros Hi Hs. apply (session_inv s sid None); [done | apply Hi | | done |].
  - intros a. rewrite (si_members s Hi), owned_alter, (owned_split _ _ _ _ Hs), elem_of_app. split.
    + intros [[Ha|Ha]|Ha]; auto.
    + intros [[(ph' & ? & _)|Ha]|[Ha|Ha]]; [done | auto..].
  - intros sid' ph1 a Hne Hl Ha. split; [|done]. intros [Hin|Hin]%elem_of_app; [by eapply si_left|].
    apply Hne. by apply (si_one s Hi _ _ _ _ a Hl Hs).
Qed.

(** A new provider of one service, owned by the session that added it. *)
Lemma add_members s sid c peer seen added infos seen' infos' name a q b :
  ss_inv s -> ss_sessions s !! sid = Some (Registering c peer seen added infos) ->
  (forall n, providers q n = if decide (n = name) then providers (ss_pool s) n ++ [a] else providers (ss_pool s) n) ->
  pooled q b <->
    owned (partial_alter (fun _ => Some (Registering c peer seen' (added ++ [a]) infos')) sid (ss_sessions s)) b \/ b ∈ ss_left s.
Proof.
  intros Hi Hs Hp. transitivity (pooled (ss_pool s) b \/ b = a).
  - unfold pooled. split.
    + intros [n Hn]. rewrite Hp in Hn. case_decide; [apply elem_of_app in Hn as [Hn|Hn%list_elem_of_singleton]|]; eauto.
    + intros [[n Hn]| ->]; [exists n | exists name]; rewrite Hp; [case_decide; [apply elem_of_app|]; auto|].
      rewrite decide_True, elem_of_app by done. right. by left.
  - rewrite (si_members s Hi), owned_insert, (owned_split _ _ _ _ Hs). cbn [held].
    rewrite elem_of_app, list_elem_of_singleton. tauto.
Qed.

Lemma add_one_each p q c peer seen added infos infos' name a :
  one_each p (Registering c peer seen added infos) -> name ∉ seen ->
  (forall n, a ∉ providers p n) ->
  (forall n, providers q n = if decide (n = name) then providers p n ++ [a] else providers p n) ->
  a ∉ added ->
  one_each q (Registering c peer (name :: seen) (added ++ [a]) infos').
Proof.
  intros [H1 H2] Hseen Hfresh Hp Ha. cbn [held] in H1.
  assert (forall n b, b ∈ added -> b ∈ providers q n -> b ∈ providers p n /\ n ∈ seen) as Hold.
  { intros n b Hb Hin. assert (b ∈ providers p n) as Hin'; [|split; [done | by apply (H2 n b)]].
    rewrite Hp in Hin. case_decide; [|done]. apply elem_of_app in Hin as [|Hin%list_elem_of_singleton]; [done | by subst]. }
  assert (forall n, a ∈ providers q n -> n = name) as Hnew.
  { intros n Hin. rewrite Hp in Hin. case_decide; [done | by apply Hfresh in Hin]. }
  split; cbn [held].
  - intros n b d [Hb|Hb%list_elem_of_singleton]%elem_of_app [Hd|Hd%list_elem_of_singleton]%elem_of_app Hbq Hdq; subst.
    + apply (H1 n); [done..| |]; by apply Hold.
    + apply Hnew in Hdq as ->. by destruct Hseen; apply (Hold name b).
    + apply Hnew in Hbq as ->. by destruct Hseen; apply (Hold name d).
    + done.
  - intros n b [Hb|Hb%list_elem_of_singleton]%elem_of_app Hbq; [right; by apply (Hold n b)|]. subst.
    apply Hnew in Hbq as ->. by left.
Qed.

Lemma add_inv s sid c peer seen added info rest a p q :
  ss_inv s -> ss_sessions s !! sid = Some (Registering c peer seen added (info :: rest)) -> info_Service info ∉ seen ->
  new_provider peer (info_Service info) (Z.of_N (info_MaxConcurrent info)) (Z.of_N (info_Priority info)) c (ss_pool s) = (a, p) ->
  Add a p = Some q ->
  ss_inv (mkSsys q (<[sid := Registering c peer (info_Service info :: seen) (added ++ [a]) rest]> (ss_sessions s)) (ss_left s)).
Proof.
  intros Hi Hs Hseen En Ea.
  destruct (new_add peer (info_Service info) (Z.of_N (info_MaxConcurrent info)) (Z.of_N (info_Priority info)) c (ss_pool s)
    (si_pool s Hi)) as (q' & Hq' & Hiq & _ & Hp & _); [lia|].
  assert (a = p_next (ss_pool s)) as Ha by (unfold new_provider in En; by injection En).
  rewrite En, <- Ha in Hq'. cbn [snd] in Hq'. rewrite Ea in Hq'. injection Hq' as <-. rewrite <- Ha in Hp.
  assert (forall name, a ∉ providers (ss_pool s) name) as Hfresh.
  { intros name Hin. destruct (core_member _ (proj1 (si_pool s Hi)) name a Hin) as (pr & Hpr & _).
    destruct (core_fresh _ (proj1 (si_pool s Hi)) a) as (E & _); [by rewrite Ha | congruence]. }
  assert (~ owned (ss_sessions s) a /\ a ∉ ss_left s) as [Hno Hnl].
  { pose proof (si_members s Hi a) as Hm. assert (~ pooled (ss_pool s) a) as H by (intros [n Hn]; by apply (Hfresh n)). tauto. }
  assert (forall b name, b <> a -> b ∈ providers q name -> b ∈ providers (ss_pool s) name) as Hback.
  { intros b name Hb. rewrite Hp. case_decide; [|done]. rewrite elem_of_app, list_elem_of_singleton. tauto. }
  apply (session_inv s sid (Some _)); [done..| | |].
  - intros b. by apply (add_members s sid c peer seen added (info :: rest) _ _ (info_Service info)).
  - intros ph [= <-]. cbn [held]. split_and!.
    + apply NoDup_app. split_and!; [apply (si_nodup s Hi _ _ Hs) | | apply NoDup_singleton].
      intros b Hb ->%list_elem_of_singleton. apply Hno. by eexists _, _.
    + apply (add_one_each (ss_pool s) q c peer seen added (info :: rest)); try done; [apply (si_each s Hi _ _ Hs)|].
      intros Hin. apply Hno. by eexists _, _.
    + intros b [Hb|Hb]%elem_of_app.
      * split; [by apply (si_left s Hi _ _ b Hs)|]. intros sid' ph1 Hne Hl Hb'. apply Hne. by apply (si_one s Hi _ _ _ _ b Hl Hs).
      * apply list_elem_of_singleton in Hb as ->. split; [done|]. intros sid' ph1 _ Hl Hb'. apply Hno. by eexists _, _.
  - intros sid' ph b Hne Hl Hb. split; [by apply (si_left s Hi _ _ b Hl)|]. intros name. apply Hback.
    intros ->. apply Hno. by eexists _, _.
Qed.

(** Removing takes one member out. *)
Lemma Remove_members a b (p : Pool T) :
  pool_inv p -> pooled p a -> pooled (Remove a p) b <-> pooled p b /\ b <> a.
Proof.
  intros [Hp _] [name Ha]. destruct (core_member _ Hp _ _ Ha) as (pr & Hpr & Hs & _).
  destruct (Remove_view a pr p Hpr) as (_ & _ & _ & _ & _ & Hv). unfold pooled. split.
  - intros [n Hn]. rewrite Hv in Hn. case_decide as Hd.
    + split; [exists n; by eapply elem_of_remove_first|]. intros ->.
      by destruct (NoDup_remove_first a (providers p n) (core_nodup _ Hp n)) as [_ ?].
    + split; [by exists n|]. intros ->. destruct (core_member _ Hp _ _ Hn) as (pr' & Hpr' & Hs' & _). congruence.
  - intros [[n Hn] Hne]. exists n. rewrite Hv. case_decide; [|done].
    clear -Hn Hne. induction (providers p n) as [|c l IH]; [done|]. simpl. case_decide; [subst|].
    + apply elem_of_cons in Hn as [?|?]; [done | done].
    + apply elem_of_cons in Hn as [->|?]; [by left | right; auto].
Qed.

Lemma remove_inv s sid a rest :
  ss_inv s -> ss_sessions s !! sid = Some (Joined (a :: rest)) ->
  ss_inv (mkSsys (Remove a (ss_pool s)) (<[sid := Joined rest]> (ss_sessions s)) (ss_left s)).
Proof.
  intros Hi Hs. pose proof (si_nodup s Hi _ _ Hs) as [Ha Hnd]%NoDup_cons.
  assert (pooled (ss_pool s) a) as Hin.
  { apply (si_members s Hi). left. exists sid, (Joined (a :: rest)). split; [done | by left]. }
  assert (forall b, b ∈ rest -> b ∈ held (Joined (a :: rest))) as Hrest by (intros b; by right).
  assert (forall b name, b ∈ providers (Remove a (ss_pool s)) name -> b ∈ providers (ss_pool s) name) as Hback.
  { intros b name Hb. destruct Hin as [n Hn]. destruct (core_member _ (proj1 (si_pool s Hi)) _ _ Hn) as (pr & Hpr & _).
    destruct (Remove_view a pr _ Hpr) as (_ & _ & _ & _ & _ & Hv). rewrite Hv in Hb.
    case_decide; [by eapply elem_of_remove_first | done]. }
  apply (session_inv s sid (Some _)); [done | by apply Remove_inv, Hi | | |].
  - intros b. rewrite Remove_members by (done || apply Hi). rewrite (si_members s Hi), (owned_insert (ss_sessions s) sid), (owned_split _ _ _ _ Hs).
    cbn [held]. rewrite elem_of_cons. split.
    + intros [[[[->|Hb]|Hb]|Hb] Hne]; [done | by auto..].
    + intros [[Hb|(sid' & ph & Hne & Hl & Hb)]|Hb].
      * split; [auto|]. by intros ->.
      * split; [left; right; eauto|]. intros ->. apply Hne. apply (si_one s Hi _ _ _ _ a Hl Hs); [done | by left].
      * split; [auto|]. intros ->. apply (si_left s Hi _ _ a Hs); [by left | done].
  - intros ph [= <-]. split_and!; [done | |].
    + apply (one_each_mono (ss_pool s)); [eauto|]. split; [|done]. intros name b d Hb Hd.
      apply (proj1 (si_each s Hi _ _ Hs)); by right.
    + intros b Hb%Hrest. split; [by apply (si_left s Hi _ _ b Hs)|]. intros sid' ph1 Hne Hl Hb'.
      apply Hne. by apply (si_one s Hi _ _ _ _ b Hl Hs).
  - intros sid' ph b _ Hl Hb. split; [by apply (si_left s Hi _ _ b Hl) | apply Hback].
Qed.

Lemma end_inv s sid :
  ss_inv s -> ss_sessions s !! sid = Some (Joined []) -> ss_inv (mkSsys (ss_pool s) (delete sid (ss_sessions s)) (ss_left s)).
Proof. intros Hi Hs. pose proof (refused_inv s sid _ Hi Hs) as H. cbn [held] in H. by rewrite app_nil_r in H. Qed.

Lemma sess_step_inv s s' : ss_inv s -> sess_step s s' -> ss_inv s'.
Proof.
  intros Hi Hs. destruct Hs; eauto using hello_inv, add_inv, join_inv, remove_inv, end_inv; [by eapply (refused_inv s sid (Registering _ _ _ _ _))|..];
    apply same_providers_inv; try done; try apply Hi.
  - apply Acquire_enter_inv, Hi.
  - intros n. apply Acquire_enter_providers.
  - by apply (Release_providers l (ss_pool s) q EmptyString (si_pool _ Hi)).
  - intros n. by apply (Release_providers l (ss_pool s) q n (si_pool _ Hi)).
  - eapply receive_inv; [apply Hi | done].
  - intros n. by eapply receive_providers.
  - apply abandon_queue_inv, Hi.
  - intros n. apply abandon_providers.
Qed.

Lemma ss_init_inv timeout : ss_inv (ss_init timeout).
Proof.
  split; simpl; try done; [apply New_inv|]. intros a. split.
  - intros [name Ha]. by apply elem_of_nil in Ha.
  - intros [(sid & l & Hl & _)|Ha]; [by rewrite lookup_empty in Hl | by apply elem_of_nil in Ha].
Qed.

Definition ss_reachable (timeout : Z) (s : Ssys) : Prop := rtc sess_step (ss_init timeout) s.

Lemma ss_reachable_inv timeout s : ss_reachable timeout s -> ss_inv s.
Proof.
  unfold ss_reachable. intros Hr. pose proof (ss_init_inv timeout) as Hi. revert Hi.
  induction Hr as [|s1 s2 s3 Hs _ IH]; [done|]. intros Hi. by apply IH, (sess_step_inv s1).
Qed.

(** C9. The pool holds the providers of its sessions.  However sessions announce
    themselves, add their providers one at a time, are refused midway and take
    their providers out one at a time, each between any steps of the others, and
    however jobs acquire and release slots in between, the providers in the pool
    are exactly those some session has added and not yet taken out, each held by
    one session and once, and those a refused HELLO left behind; and no session
    has two in one service.  In particular, when every session has ended and no
    HELLO was refused midway, the pool is empty. *)
Theorem pool_is_the_sessions timeout s :
  ss_reachable timeout s ->
  (forall a, pooled (ss_pool s) a <-> owned (ss_sessions s) a \/ a ∈ ss_left s) /\
  (forall sid sid' ph ph' a, ss_sessions s !! sid = Some ph -> ss_sessions s !! sid' = Some ph' ->
     a ∈ held ph -> a ∈ held ph' -> sid = sid') /\
  (forall sid ph, ss_sessions s !! sid = Some ph -> NoDup (held ph) /\
     forall name a b, a ∈ held ph -> b ∈ held ph -> a ∈ providers (ss_pool s) name -> b ∈ providers (ss_pool s) name -> a = b) /\
  (ss_sessions s = ∅ -> ss_left s = [] -> forall name, providers (ss_pool s) name = []).
Proof.
  intros Hr. pose proof (ss_reachable_inv timeout s Hr) as [].
  split_and!; [done..| |].
  - intros sid ph Hs. split; [by eapply si_nodup0 | apply (si_each0 _ _ Hs)].
  - intros Hs Hl name. destruct (providers (ss_pool s) name) as [|a l] eqn:E; [done|].
    assert (pooled (ss_pool s) a) as Ha by (exists name; rewrite E; by left).
    apply si_members0 in Ha as [(sid & ph & Hsid & _)|Ha]; [by rewrite Hs, lookup_empty in Hsid|].
    rewrite Hl in Ha. by apply elem_of_nil in Ha.
Qed.

End SessionPool.

Arguments sess_phase T : clear implicits.

(** ** A job takes a slot while a peer is still registering *)
Definition demo_llm : ProviderInfo := mkProviderInfo "llm" 2 100.
Definition demo_img : ProviderInfo := mkProviderInfo "img" 1 100.
Definition demo_hello : Hello := mkHello "peer" [demo_llm; demo_img].

(** The first provider is in, the second is still to come. *)
Definition demo_midway : Ssys (T := nat) :=
  mkSsys (default (New 600) (Add 0 (new_provider "peer" "llm" 2 100 7%nat (New 600)).2))
    {[0%nat := Registering 7%nat "peer" ["llm"%string] [0%nat] [demo_img]]} [].
Definition demo_taken : Ssys (T := nat) :=
  mkSsys (Acquire_enter "llm" false (ss_pool demo_midway)).2 (ss_sessions demo_midway) [].

Definition demo_announced : Ssys (T := nat) :=
  mkSsys (New 600) {[0%nat := Registering 7%nat "peer" [] [] [demo_llm; demo_img]]} [].

Lemma demo_first_added : sess_step demo_announced demo_midway.
Proof.
  unfold demo_midway.
  rewrite <- (insert_singleton_eq 0%nat (Registering 7%nat "peer" ["llm"%string] [0%nat] [demo_img])
    (Registering 7%nat "peer" [] [] [demo_llm; demo_img])).
  eapply (ss_add demo_announced 0%nat 7%nat "peer" [] [] demo_llm [demo_img]);
    [reflexivity | apply not_elem_of_nil | vm_compute; reflexivity | vm_compute; reflexivity].
Qed.

Lemma demo_taken_reachable : ss_reachable 600 demo_taken.
Proof.
  eapply rtc_l; [apply (ss_hello (ss_init 600) 0%nat 7%nat demo_hello); reflexivity|].
  eapply rtc_l; [exact demo_first_added | apply rtc_once, (ss_acquire demo_midway "llm" false)].
Qed.

Lemma pool_is_the_sessions_witness :
  (forall a, pooled (ss_pool demo_taken) a <-> owned (ss_sessions demo_taken) a \/ a ∈ ss_left demo_taken) /\
  providers (ss_pool demo_taken) "llm" = [0%nat] /\ providers (ss_pool demo_taken) "img" = [] /\
  (pr_busy <$> p_heap (ss_pool demo_taken) !! 0%nat) = Some 1%Z.
Proof.
  split; [|split_and!; vm_compute; reflexivity].
  apply (pool_is_the_sessions 600 demo_taken demo_taken_reachable).
Defined.
