(* ===== verification/Queue.v ===== *)
(** One job's inbox: internal/peer/queue.go, with the goroutine that reads it.

    [ready] is a channel that is closed to wake a reader and replaced at once,
    so a channel is a number and is closed once [q_ready] has moved past it.
    [next] is cut where it leaves the lock: [qstep] lets pushes, closes and the
    end of the reader's context happen between its two halves. *)

From S2P Require Import Prelude.

Section Queue.
Context {M E : Type}.

Record jobQueue : Type := mkQueue {
  q_items : list M;
  q_err : option E;
  q_ready : nat;
}.

Definition newJobQueue : jobQueue := mkQueue [] None 0.

(** [wake]: the channel is closed and the next one takes its place. *)
Definition wake (q : jobQueue) : jobQueue := mkQueue (q_items q) (q_err q) (S (q_ready q)).

(** Whether the channel a reader took is closed. *)
Definition woken (q : jobQueue) (ready : nat) : bool := (ready <? q_ready q)%nat.

Definition push (m : M) (q : jobQueue) : jobQueue :=
  match q_err q with
  | Some _ => q
  | None => wake (mkQueue (q_items q ++ [m]) (q_err q) (q_ready q))
  end.

Definition close (e : E) (q : jobQueue) : jobQueue :=
  match q_err q with
  | Some _ => q
  | None => wake (mkQueue (q_items q) (Some e) (q_ready q))
  end.

(** The lock region of [next]: an answer, or the channel to wait on. *)
Definition next_region (q : jobQueue) : (result E M + nat) * jobQueue :=
  match q_items q with
  | m :: items => (inl (Ok m), mkQueue items (q_err q) (q_ready q))
  | [] =>
      match q_err q with
      | Some e => (inl (Err e), q)
      | None => (inr (q_ready q), q)
      end
  end.

(** ** The queue with its reader *)
Inductive reader : Type :=
  | Away                        (* not in [next] *)
  | Entering                    (* before the lock region *)
  | WaitingFor (ready : nat).   (* in the select *)

Record qsys : Type := mkQsys {
  qs_queue : jobQueue;
  qs_reader : reader;
  qs_accepted : list M;                 (* what was pushed before the close *)
  qs_answers : list (result E M);       (* what [next] returned, ctx.Err() apart *)
}.

Definition qs_init : qsys := mkQsys newJobQueue Away [] [].

Definition accepts (m : M) (s : qsys) : list M :=
  match q_err (qs_queue s) with None => qs_accepted s ++ [m] | Some _ => qs_accepted s end.

Inductive qstep (s : qsys) : qsys -> Prop :=
  | qstep_push m : qstep s (mkQsys (push m (qs_queue s)) (qs_reader s) (accepts m s) (qs_answers s))
  | qstep_close e : qstep s (mkQsys (close e (qs_queue s)) (qs_reader s) (qs_accepted s) (qs_answers s))
  | qstep_call : qs_reader s = Away ->
      qstep s (mkQsys (qs_queue s) Entering (qs_accepted s) (qs_answers s))
  | qstep_answer r q : qs_reader s = Entering -> next_region (qs_queue s) = (inl r, q) ->
      qstep s (mkQsys q Away (qs_accepted s) (qs_answers s ++ [r]))
  | qstep_wait ready q : qs_reader s = Entering -> next_region (qs_queue s) = (inr ready, q) ->
      qstep s (mkQsys q (WaitingFor ready) (qs_accepted s) (qs_answers s))
  | qstep_woken ready : qs_reader s = WaitingFor ready -> woken (qs_queue s) ready = true ->
      qstep s (mkQsys (qs_queue s) Entering (qs_accepted s) (qs_answers s))
  | qstep_ctx ready : qs_reader s = WaitingFor ready ->
      qstep s (mkQsys (qs_queue s) Away (qs_accepted s) (qs_answers s)).

Definition qreachable (s : qsys) : Prop := rtc qstep qs_init s.

Definition messages (rs : list (result E M)) : list M :=
  omap (fun r => match r with Ok m => Some m | Err _ => None end) rs.

(** ** The invariant *)
Record q_inv (s : qsys) : Prop := {
  qi_fifo : messages (qs_answers s) ++ q_items (qs_queue s) = qs_accepted s;
  qi_waiting ready : qs_reader s = WaitingFor ready -> woken (qs_queue s) ready = false ->
    q_items (qs_queue s) = [] /\ q_err (qs_queue s) = None;
  qi_channel ready : qs_reader s = WaitingFor ready -> (ready <= q_ready (qs_queue s))%nat;
  qi_errors e : Err e ∈ qs_answers s -> q_items (qs_queue s) = [] /\ q_err (qs_queue s) = Some e;
}.

Lemma messages_app rs r :
  messages (rs ++ [r]) = messages rs ++ match r with Ok m => [m] | Err _ => [] end.
Proof. unfold messages. rewrite omap_app. by destruct r. Qed.

Lemma qstep_inv s s' : q_inv s -> qstep s s' -> q_inv s'.
Proof.
  intros [Hf Hw Hc He] Hs. destruct s as [[items err ready] rd acc ans]. simpl in *. unfold accepts, woken in *.
  destruct Hs as [m|e|Ha|r q Ha Hn|rdy q Ha Hn|rdy Ha Hk|rdy Ha]; simpl in *.
  - unfold push. simpl. destruct err as [e0|]; simpl.
    + split; simpl; eauto.
    + split; simpl.
      * by rewrite app_assoc, Hf.
      * intros rd' Hr. specialize (Hc rd' Hr). unfold woken. simpl. destruct (Nat.ltb_spec rd' (S ready)); [done|lia].
      * intros rd' Hr. specialize (Hc rd' Hr). lia.
      * intros e' Hin. by apply He in Hin as [_ ?].
  - unfold close. simpl. destruct err as [e0|]; simpl.
    + split; simpl; eauto.
    + split; simpl; [done| | |].
      * intros rd' Hr. specialize (Hc rd' Hr). unfold woken. simpl. destruct (Nat.ltb_spec rd' (S ready)); [done|lia].
      * intros rd' Hr. specialize (Hc rd' Hr). lia.
      * intros e' Hin. by apply He in Hin as [_ ?].
  - split; simpl; done.
  - unfold next_region in Hn. simpl in Hn. destruct items as [|m items].
    + destruct err as [e0|]; [|done]. injection Hn as <- <-. split; simpl; try done.
      * by rewrite messages_app, !app_nil_r in *.
      * intros e [Hin|Hx%list_elem_of_singleton]%elem_of_app; [by apply He in Hin | by simplify_eq].
    + injection Hn as <- <-. split; simpl; try done.
      * by rewrite messages_app, <- app_assoc.
      * intros e [Hin|Hx%list_elem_of_singleton]%elem_of_app; [by apply He in Hin as [? _] | done].
  - unfold next_region in Hn. simpl in Hn. destruct items as [|m items]; [|done].
    destruct err as [e0|]; [done|]. injection Hn as <- <-. split; simpl; try done.
    intros rd' [= <-]. done.
  - split; simpl; done.
  - split; simpl; done.
Qed.

Lemma qreachable_inv s : qreachable s -> q_inv s.
Proof.
  unfold qreachable. intros R. assert (q_inv qs_init) as Hi.
  { split; simpl; try done. by intros e ?%elem_of_nil. }
  revert Hi. generalize dependent qs_init. intros s0 R. induction R as [|s1 s2 s3 Hs _ IH]; [done|].
  intros Hi. apply IH. by eapply qstep_inv.
Qed.

(** ** The theorems *)

(** C37. A job's messages reach its owner once each and in the order they were
    pushed: what [next] has returned, followed by what is still queued, is what
    was pushed before the queue was closed; the reason it was closed for is
    returned only once everything pushed has been. *)
Theorem queue_delivers_in_order s :
  qreachable s ->
  messages (qs_answers s) ++ q_items (qs_queue s) = qs_accepted s /\
  (forall e, Err e ∈ qs_answers s -> messages (qs_answers s) = qs_accepted s).
Proof.
  intros [Hf _ _ He]%qreachable_inv. split; [done|]. intros e [Hi _]%He.
  by rewrite Hi, app_nil_r in Hf.
Qed.

(** C38. A reader never sleeps beside a message or a closed queue: when
    something is queued, or the queue is closed, a reader that waits has been
    woken, and its next steps are to return it. *)
Theorem queue_no_lost_wakeup s ready :
  qreachable s -> qs_reader s = WaitingFor ready ->
  q_items (qs_queue s) <> [] \/ q_err (qs_queue s) <> None ->
  exists r s1 s2, qstep s s1 /\ qstep s1 s2 /\ qs_reader s2 = Away /\ qs_answers s2 = qs_answers s ++ [r] /\
    match q_items (qs_queue s) with
    | m :: _ => r = Ok m
    | [] => exists e, q_err (qs_queue s) = Some e /\ r = Err e
    end.
Proof.
  intros [_ Hw _ _]%qreachable_inv Hr Hne.
  assert (woken (qs_queue s) ready = true) as Hk.
  { destruct (woken (qs_queue s) ready) eqn:Ek; [done|]. destruct (Hw ready Hr Ek) as [Hi He].
    by destruct Hne. }
  pose proof (qstep_woken s ready Hr Hk) as H1.
  destruct (q_items (qs_queue s)) as [|m items] eqn:Hi.
  - destruct Hne as [|Hne]; [done|]. destruct (q_err (qs_queue s)) as [e|] eqn:Ee; [|done].
    do 3 eexists. split; [exact H1|]. split.
    { eapply (qstep_answer _ (Err e)); [done|]. unfold next_region. simpl. by rewrite Hi, Ee. }
    simpl. eauto.
  - do 3 eexists. split; [exact H1|]. split.
    { eapply (qstep_answer _ (Ok m)); [done|]. unfold next_region. simpl. by rewrite Hi. }
    done.
Qed.

End Queue.
Arguments jobQueue M E : clear implicits.
Arguments qsys M E : clear implicits.

(** ** A queue at work *)
Definition demo_parked : qsys nat string := mkQsys (mkQueue [7] None 1) (WaitingFor 0) [7] [].

Lemma demo_parked_reachable : qreachable demo_parked.
Proof.
  eapply rtc_l; [by apply qstep_call|]. eapply rtc_l; [by eapply qstep_wait|].
  apply rtc_once. exact (qstep_push (mkQsys newJobQueue (WaitingFor 0) [] []) 7).
Qed.

Lemma queue_delivers_in_order_witness :
  messages (qs_answers demo_parked) ++ q_items (qs_queue demo_parked) = [7] /\
  (forall e, Err e ∈ qs_answers demo_parked -> messages (qs_answers demo_parked) = [7]).
Proof. apply (queue_delivers_in_order demo_parked demo_parked_reachable). Defined.

Lemma queue_no_lost_wakeup_witness :
  exists r s1 s2, qstep demo_parked s1 /\ qstep s1 s2 /\ qs_reader s2 = Away /\
    qs_answers s2 = qs_answers demo_parked ++ [r] /\ r = Ok 7.
Proof.
  apply (queue_no_lost_wakeup demo_parked 0 demo_parked_reachable); [reflexivity | by left].
Defined.
