(* ===== verification/Conn.v ===== *)
(** One live session with one peer: internal/peer/conn.go.

    The job table is guarded by [mu]; a job's queue has a lock of its own and
    is an object shared with the goroutine that runs the job, so queues are
    kept by address.  What a method still does after it gave [mu] up - closing
    queues, closing the socket - is a list of actions its goroutine owes, and
    [conn_step] lets other goroutines run between them. *)

From S2P Require Import Prelude Bytes Io CipherState Message Encode Decode Queue.
Local Open Scope N_scope.

(** ** Errors of the peer package's connections *)
Inductive conn_error : Type :=
  | WireErr (e : wire_error)
  | CtxEnded (why : string)
  | ErrClosed
  | DeadlineErr
  | NotHello (kind : N)
  | RequestIsOurs (job : N)
  | JobRunning (job : N)
  | HelloMidSession
  | BelongsToNoJob (kind : N)
  | TooManyJobs (slots : N) (service : string)
  | errJobEnded.

#[export] Instance conn_error_eq_dec : EqDecision conn_error.
Proof. solve_decision. Defined.

Abbreviation inbox := (jobQueue Message conn_error).

(** What a goroutine still has to do outside [mu]. *)
Inductive owed : Type :=
  | OweClose (q : nat) (e : conn_error)
  | OweRawClose.

Record Conn (W : Type) : Type := mkConnection {
  cn_enc : Encoder W;
  cn_dec : Decoder;
  cn_role : Role;
  cn_peer : string;
  cn_pongs : bool;                 (* the one-slot channel *)
  cn_nextJob : N;                  (* uint64 *)
  cn_jobs : gmap N nat;
  cn_err : option conn_error;
  cn_queues : gmap nat inbox;      (* every queue ever made *)
  cn_raw_closed : bool;
  cn_owed : list (list owed);      (* per goroutine *)
}.
Arguments mkConnection {W}.
Arguments cn_enc {W}.
Arguments cn_dec {W}.
Arguments cn_role {W}.
Arguments cn_peer {W}.
Arguments cn_pongs {W}.
Arguments cn_nextJob {W}.
Arguments cn_jobs {W}.
Arguments cn_err {W}.
Arguments cn_queues {W}.
Arguments cn_raw_closed {W}.
Arguments cn_owed {W}.

Section Conn.
Context {W : Type}.
Implicit Types c : Conn W.

Definition newConn (r : stream) (w : W) (role : Role) (peer : string) : Conn W :=
  let first := match role with RoleServer => 2 | RoleClient => 1 end in
  mkConnection (NewEncoder w role) (NewDecoder r role) role peer false first ∅ None ∅ false [].

(** ** Changes of one field *)
Definition cn_set_enc (e : Encoder W) c : Conn W :=
  mkConnection e (cn_dec c) (cn_role c) (cn_peer c) (cn_pongs c) (cn_nextJob c) (cn_jobs c) (cn_err c)
    (cn_queues c) (cn_raw_closed c) (cn_owed c).
Definition cn_set_dec (d : Decoder) c : Conn W :=
  mkConnection (cn_enc c) d (cn_role c) (cn_peer c) (cn_pongs c) (cn_nextJob c) (cn_jobs c) (cn_err c)
    (cn_queues c) (cn_raw_closed c) (cn_owed c).
Definition cn_set_pongs (b : bool) c : Conn W :=
  mkConnection (cn_enc c) (cn_dec c) (cn_role c) (cn_peer c) b (cn_nextJob c) (cn_jobs c) (cn_err c)
    (cn_queues c) (cn_raw_closed c) (cn_owed c).
Definition cn_set_jobs (next : N) (jobs : gmap N nat) (queues : gmap nat inbox) c : Conn W :=
  mkConnection (cn_enc c) (cn_dec c) (cn_role c) (cn_peer c) (cn_pongs c) next jobs (cn_err c)
    queues (cn_raw_closed c) (cn_owed c).
Definition cn_set_queues (queues : gmap nat inbox) c : Conn W :=
  cn_set_jobs (cn_nextJob c) (cn_jobs c) queues c.
Definition cn_set_err (e : option conn_error) c : Conn W :=
  mkConnection (cn_enc c) (cn_dec c) (cn_role c) (cn_peer c) (cn_pongs c) (cn_nextJob c) (cn_jobs c) e
    (cn_queues c) (cn_raw_closed c) (cn_owed c).
Definition cn_set_owed (o : list (list owed)) c : Conn W :=
  mkConnection (cn_enc c) (cn_dec c) (cn_role c) (cn_peer c) (cn_pongs c) (cn_nextJob c) (cn_jobs c) (cn_err c)
    (cn_queues c) (cn_raw_closed c) o.
Definition cn_close_raw c : Conn W :=
  mkConnection (cn_enc c) (cn_dec c) (cn_role c) (cn_peer c) (cn_pongs c) (cn_nextJob c) (cn_jobs c) (cn_err c)
    (cn_queues c) true (cn_owed c).

Definition setPeer (name : string) c : Conn W :=
  mkConnection (cn_enc c) (cn_dec c) (cn_role c) name (cn_pongs c) (cn_nextJob c) (cn_jobs c) (cn_err c)
    (cn_queues c) (cn_raw_closed c) (cn_owed c).

(** ** Sending *)

(** [send]: a deadline cannot be set on a closed socket. *)
Definition send_message `{Writer W} (m : Message) : ST (Conn W) conn_error unit := fun c =>
  if cn_raw_closed c then (Err DeadlineErr, c)
  else match Encoder_Write (cn_enc c) m with
       | (e, None) => (Ok tt, cn_set_enc e c)
       | (e, Some err) => (Err (WireErr err), cn_set_enc e c)
       end.

(** ** Jobs *)

(** A new queue's address. *)
Definition fresh_queue (c : Conn W) : nat := fresh (dom (cn_queues c)).

Definition newJob : ST (Conn W) conn_error (N * nat) := fun c =>
  match cn_err c with
  | Some e => (Err e, c)
  | None =>
      let id := cn_nextJob c in
      let q := fresh_queue c in
      (Ok (id, q), cn_set_jobs ((id + 2) mod width 8) (<[id := q]> (cn_jobs c))
                     (<[q := newJobQueue]> (cn_queues c)) c)
  end.

Definition openJob (id : N) : ST (Conn W) conn_error nat := fun c =>
  match cn_err c with
  | Some e => (Err e, c)
  | None =>
      match cn_jobs c !! id with
      | Some _ => (Err (JobRunning id), c)
      | None =>
          let q := fresh_queue c in
          (Ok q, cn_set_jobs (cn_nextJob c) (<[id := q]> (cn_jobs c))
                   (<[q := newJobQueue]> (cn_queues c)) c)
      end
  end.

(** [endJob]'s lock region; the close of the queue is owed. *)
Definition endJob (id : N) (c : Conn W) : Conn W :=
  let owes := match cn_jobs c !! id with Some q => [OweClose q errJobEnded] | None => [] end in
  cn_set_owed (cn_owed c ++ [owes])
    (cn_set_jobs (cn_nextJob c) (delete id (cn_jobs c)) (cn_queues c) c).

(** [mine]: the parity of this side's ids. *)
Definition mine (c : Conn W) (id : N) : bool :=
  let even := id mod 2 =? 0 in
  Bool.eqb even (bool_decide (cn_role c = RoleServer)).

(** [fail]'s lock region; the closes are owed, the socket's last. *)
Definition fail (e : conn_error) (c : Conn W) : Conn W :=
  match cn_err c with
  | Some _ => c
  | None =>
      let owes := (fun '(_, q) => OweClose q e) <$> map_to_list (cn_jobs c) in
      cn_set_owed (cn_owed c ++ [owes ++ [OweRawClose]])
        (cn_set_err (Some e) (cn_set_jobs (cn_nextJob c) ∅ (cn_queues c) c))
  end.

Definition Close (c : Conn W) : Conn W := fail ErrClosed c.

(** One owed action. *)
Definition close_queue (q : nat) (e : conn_error) (c : Conn W) : Conn W :=
  match cn_queues c !! q with
  | Some box => cn_set_queues (<[q := close e box]> (cn_queues c)) c
  | None => c
  end.

Definition do_owed (o : owed) (c : Conn W) : Conn W :=
  match o with
  | OweClose q e => close_queue q e c
  | OweRawClose => cn_close_raw c
  end.

(** ** The read loop *)

(** What [dispatch] leaves for the read loop's goroutine to do: nothing, a
    message to push, or a job to put a goroutine on. *)
Inductive todo : Type :=
  | Nothing
  | Push (q : nat) (m : Message)
  | Serve (req : Request) (q : nat).

Definition start (req : Request) : ST (Conn W) conn_error todo := fun c =>
  if mine c (req_Job req) then (Err (RequestIsOurs (req_Job req)), c)
  else match openJob (req_Job req) c with
       | (Err e, c) => (Err e, c)
       | (Ok q, c) => (Ok (Serve req q), c)
       end.

Definition dispatch (m : Message) : ST (Conn W) conn_error todo := fun c =>
  match m with
  | MPing => (Ok Nothing, cn_set_pongs true c)
  | MPong => (Ok Nothing, c)
  | MHello _ => (Err HelloMidSession, c)
  | MRequest req => start req c
  | _ =>
      match JobID m with
      | None => (Err (BelongsToNoJob (Kind m)), c)
      | Some id =>
          match cn_jobs c !! id with
          | None => (Ok Nothing, c)
          | Some q => (Ok (Push q m), c)
          end
      end
  end.

(** The push of a dispatched message, which happens outside [mu]. *)
Definition push_message (q : nat) (m : Message) (c : Conn W) : Conn W :=
  match cn_queues c !! q with
  | Some box => cn_set_queues (<[q := push m box]> (cn_queues c)) c
  | None => c
  end.

Definition do_todo (t : todo) (c : Conn W) : Conn W :=
  match t with
  | Push q m => push_message q m c
  | _ => c
  end.

(** One turn of [run]'s loop: the message read, or the error that ends it. *)
Definition run_turn : ST (Conn W) conn_error todo := fun c =>
  if cn_raw_closed c then (Err DeadlineErr, fail DeadlineErr c)
  else match Decoder_Next (cn_dec c) with
       | ((Some m, None), d) =>
           match dispatch m (cn_set_dec d c) with
           | (Err e, c) => (Err e, fail e c)
           | (Ok t, c) => (Ok t, c)
           end
       | ((_, e), d) =>
           let err := match e with Some e => WireErr e | None => ErrClosed end in
           (Err err, fail err (cn_set_dec d c))
       end.

(** The server's read of a client's first message. *)
Definition hello : ST (Conn W) conn_error Hello := fun c =>
  if cn_raw_closed c then (Err DeadlineErr, c)
  else match Decoder_Next (cn_dec c) with
       | ((Some (MHello h), None), d) => (Ok h, cn_set_dec d c)
       | ((Some m, None), d) => (Err (NotHello (Kind m)), cn_set_dec d c)
       | ((_, Some e), d) => (Err (WireErr e), cn_set_dec d c)
       | ((None, None), d) => (Err ErrClosed, cn_set_dec d c)
       end.

End Conn.

(** ** The connection with its goroutines *)
Section System.
Context {W : Type}.

(** The read loop between two turns, about to push, or returned. *)
Inductive loop : Type :=
  | Reading
  | Doing (t : todo)
  | Ended (e : conn_error).

Record Csys : Type := mkCsys {
  cs_conn : Conn W;
  cs_loop : loop;
  cs_issued : list N;      (* what [newJob] has handed out, in order *)
}.

Definition cs_init (r : stream) (w : W) (role : Role) (peer : string) : Csys :=
  mkCsys (newConn r w role peer) Reading [].

Definition with_conn (c : Conn W) (s : Csys) : Csys := mkCsys c (cs_loop s) (cs_issued s).

Inductive conn_step `{Writer W} (s : Csys) : Csys -> Prop :=
  | cstep_read t c : cs_loop s = Reading -> run_turn (cs_conn s) = (Ok t, c) ->
      conn_step s (mkCsys c (Doing t) (cs_issued s))
  | cstep_read_ends e c : cs_loop s = Reading -> run_turn (cs_conn s) = (Err e, c) ->
      conn_step s (mkCsys c (Ended e) (cs_issued s))
  | cstep_todo t : cs_loop s = Doing t ->
      conn_step s (mkCsys (do_todo t (cs_conn s)) Reading (cs_issued s))
  | cstep_newJob id q c : newJob (cs_conn s) = (Ok (id, q), c) ->
      conn_step s (mkCsys c (cs_loop s) (cs_issued s ++ [id]))
  | cstep_endJob id : conn_step s (with_conn (endJob id (cs_conn s)) s)
  | cstep_fail e : conn_step s (with_conn (fail e (cs_conn s)) s)
  | cstep_owed before o rest after :
      cn_owed (cs_conn s) = before ++ (o :: rest) :: after ->
      conn_step s (with_conn (do_owed o (cn_set_owed (before ++ rest :: after) (cs_conn s))) s)
  | cstep_take_message q box box' m : cn_queues (cs_conn s) !! q = Some box ->
      next_region box = (inl (Ok m), box') ->
      conn_step s (with_conn (cn_set_queues (<[q := box']> (cn_queues (cs_conn s))) (cs_conn s)) s)
  | cstep_send m r c : send_message m (cs_conn s) = (r, c) -> conn_step s (with_conn c s)
  | cstep_pong : cn_pongs (cs_conn s) = true ->
      conn_step s (with_conn (cn_set_pongs false (cs_conn s)) s)
  | cstep_setPeer name : conn_step s (with_conn (setPeer name (cs_conn s)) s).

End System.
Arguments Csys W : clear implicits.
