(* ===== verification/ConnTheorems.v ===== *)
(** What a connection promises its goroutines: job ids are fresh and tell the
    two sides' jobs apart, a job's messages go to its inbox and nowhere else,
    and an inbox is never left open once its job is gone. *)

From stdpp Require Import fin_maps.
From S2P Require Import Prelude Bytes Io CipherState Message Encode Decode Queue Conn.
Local Open Scope N_scope.

Section Theorems.
Context {W : Type} `{Writer W}.
Implicit Types (c : Conn W) (s : Csys W).

(** ** The invariant of the job table *)
Definition owes (c : Conn W) (o : owed) : Prop := exists g, g ∈ cn_owed c /\ o ∈ g.

Record table_inv c : Prop := {
  ti_inj i j q : cn_jobs c !! i = Some q -> cn_jobs c !! j = Some q -> i = j;
  ti_job i q : cn_jobs c !! i = Some q -> exists box, cn_queues c !! q = Some box /\ q_err box = None;
  ti_open q box : cn_queues c !! q = Some box -> q_err box = None ->
    (exists i, cn_jobs c !! i = Some q) \/ exists e, owes c (OweClose q e);
  ti_owed q e : owes c (OweClose q e) ->
    (forall i, cn_jobs c !! i <> Some q) /\ is_Some (cn_queues c !! q);
  ti_err : cn_err c <> None -> cn_jobs c = ∅ /\ (cn_raw_closed c = true \/ owes c OweRawClose);
}.

(** Changes the table does not see. *)
Lemma table_same c c' :
  cn_jobs c' = cn_jobs c -> cn_queues c' = cn_queues c -> cn_err c' = cn_err c ->
  cn_raw_closed c' = cn_raw_closed c -> cn_owed c' = cn_owed c -> table_inv c -> table_inv c'.
Proof.
  intros E1 E2 E3 E4 E5 [? ? ? ? ?]. split; unfold owes in *; rewrite ?E1, ?E2, ?E3, ?E4, ?E5; eauto.
Qed.

(** A queue's contents change, but not whether it is open. *)
Lemma table_queue c q box box' :
  cn_queues c !! q = Some box -> q_err box' = q_err box ->
  table_inv c -> table_inv (cn_set_queues (<[q := box']> (cn_queues c)) c).
Proof.
  intros Hq He [Hi Hj Ho Hw Hr]. split; simpl; try done.
  - intros i q' Hq'. destruct (Hj i q' Hq') as (b & Hb & ?). rewrite lookup_insert. case_decide; [|eauto].
    subst q'. eexists. split; [done|]. congruence.
  - intros q' b. rewrite lookup_insert. case_decide; [|eauto]. intros [= <-]. subst q'. rewrite He. eauto.
  - intros q' e Hw'. destruct (Hw q' e Hw') as [? ?]. split; [done|]. rewrite lookup_insert. case_decide; eauto.
Qed.

(** A new job, whose id is not in the table. *)
Lemma table_add c id next :
  cn_err c = None -> cn_jobs c !! id = None -> table_inv c ->
  table_inv (cn_set_jobs next (<[id := fresh_queue c]> (cn_jobs c))
    (<[fresh_queue c := newJobQueue]> (cn_queues c)) c).
Proof.
  intros He Hid [Hi Hj Ho Hw Hr].
  assert (cn_queues c !! fresh_queue c = None) as Hf.
  { apply not_elem_of_dom. apply is_fresh. }
  assert (forall i, cn_jobs c !! i <> Some (fresh_queue c)) as Hn.
  { intros i E. destruct (Hj i _ E) as (b & ? & _). congruence. }
  split; simpl.
  - intros i j q [[<- <-]|[? E1]]%lookup_insert_Some [[<- E2]|[? E2]]%lookup_insert_Some.
    + done.
    + by apply Hn in E2.
    + subst q. by apply Hn in E1.
    + eauto.
  - intros i q [[<- <-]|[? E1]]%lookup_insert_Some.
    + exists newJobQueue. by rewrite lookup_insert_eq.
    + destruct (Hj i q E1) as (b & Hb & ?). exists b. rewrite lookup_insert_ne; [done|]. congruence.
  - intros q box. rewrite lookup_insert. case_decide.
    + intros _ _. subst q. left. exists id. apply lookup_insert_eq.
    + intros Hq Hb. destruct (Ho q box Hq Hb) as [[i E]|?]; [|by right]. left. exists i.
      rewrite lookup_insert_ne; [done|]. congruence.
  - intros q e Hw'. destruct (Hw q e Hw') as [Hn1 Hs]. split.
    + intros i. rewrite lookup_insert. case_decide; [|done]. intros [= <-]. destruct Hs. congruence.
    + rewrite lookup_insert. case_decide; [by eexists | done].
  - intros. by rewrite He in *.
Qed.

Lemma elem_of_snoc_list {X} (x : X) l y : x ∈ l ++ [y] <-> x ∈ l \/ x = y.
Proof. by rewrite elem_of_app, list_elem_of_singleton. Qed.

Lemma table_endJob c id : table_inv c -> table_inv (endJob id c).
Proof.
  intros [Hi Hj Ho Hw Hr].
  assert (forall o, owes (endJob id c) o <-> owes c o \/
    exists q, cn_jobs c !! id = Some q /\ o = OweClose q errJobEnded) as Howes.
  { intros o. unfold owes, endJob. simpl. split.
    - intros (g & [Hg| ->]%elem_of_snoc_list & Hin); [left; by exists g | right].
      destruct (cn_jobs c !! id) as [q|]; [|by apply elem_of_nil in Hin].
      apply list_elem_of_singleton in Hin. eauto.
    - intros [(g & Hg & ?)|(q & -> & ->)].
      + exists g. split; [|done]. apply elem_of_snoc_list. by left.
      + exists [OweClose q errJobEnded]. split; [|by left]. apply elem_of_snoc_list. by right. }
  split.
  - simpl. intros i j q [? ?]%lookup_delete_Some [? ?]%lookup_delete_Some. eauto.
  - simpl. intros i q [? ?]%lookup_delete_Some. eauto.
  - simpl. intros q box Hq Hb. destruct (Ho q box Hq Hb) as [[i E]|[e Hw']].
    + destruct (decide (id = i)) as [->|Hne].
      * right. exists errJobEnded. apply Howes. eauto.
      * left. exists i. by rewrite lookup_delete_ne.
    + right. exists e. apply Howes. by left.
  - intros q e [Hw'|(q' & Hq' & [= -> ->])]%Howes; simpl.
    + destruct (Hw q e Hw') as [Hn ?]. split; [|done]. intros i [_ ?]%lookup_delete_Some. by eapply Hn.
    + destruct (Hj id q' Hq') as (b & -> & _). split; [|by eexists].
      intros i [Hne ?]%lookup_delete_Some. by eapply Hne, Hi.
  - simpl. intros He. destruct (Hr He) as [Hjobs Hraw]. split; [by rewrite Hjobs, delete_empty|].
    destruct Hraw as [?|?]; [by left|]. right. apply Howes. by left.
Qed.

Lemma table_fail c e : table_inv c -> table_inv (fail e c).
Proof.
  intros Hinv. unfold fail. destruct (cn_err c) as [?|] eqn:He; [done|]. destruct Hinv as [Hi Hj Ho Hw Hr].
  set (c' := cn_set_owed _ _).
  assert (forall o, owes c' o <-> owes c o \/ (exists i q, cn_jobs c !! i = Some q /\ o = OweClose q e) \/
    o = OweRawClose) as Howes.
  { intros o. unfold owes, c'. simpl. split.
    - intros (g & [Hg| ->]%elem_of_snoc_list & Hin); [left; by exists g | right].
      apply elem_of_snoc_list in Hin as [Hin| ->]; [left | by right].
      apply list_elem_of_fmap in Hin as ([i q] & -> & Hin). apply elem_of_map_to_list in Hin. eauto.
    - intros [(g & Hg & ?)|Hin].
      + exists g. split; [|done]. apply elem_of_snoc_list. by left.
      + eexists. split; [apply elem_of_snoc_list; by right|]. apply elem_of_snoc_list.
        destruct Hin as [(i & q & Hq & ->)| ->]; [left | by right].
        apply list_elem_of_fmap. exists (i, q). by rewrite elem_of_map_to_list. }
  assert (forall i q, cn_jobs c' !! i <> Some q) as Hnone by (intros i q; apply lookup_empty_Some).
  split.
  - by intros i j q ?%Hnone.
  - by intros i q ?%Hnone.
  - intros q box Hq Hb. right. destruct (Ho q box Hq Hb) as [[i E]|[e' Hw']].
    + exists e. apply Howes. right. left. eauto.
    + exists e'. apply Howes. by left.
  - intros q e' [Hw'|[(i & q' & Hq' & [= -> ->])|?]]%Howes; [| |done]; (split; [intros i0; apply Hnone|]).
    + by destruct (Hw q e' Hw') as [_ ?].
    + destruct (Hj i q' Hq') as (b & E & _). by exists b.
  - intros _. split; [done|]. right. apply Howes. by right; right.
Qed.

(** One owed action done. *)
Lemma table_owed c before o rest after :
  cn_owed c = before ++ (o :: rest) :: after -> table_inv c ->
  table_inv (do_owed o (cn_set_owed (before ++ rest :: after) c)).
Proof.
  intros Hc [Hi Hj Ho Hw Hr].
  assert (forall x, owes c x <-> x = o \/ exists g, g ∈ before ++ rest :: after /\ x ∈ g) as Howes.
  { intros x. unfold owes. rewrite Hc. split.
    - intros (g & Hg & Hx). apply elem_of_app in Hg as [Hg|[->|Hg]%elem_of_cons].
      + right. exists g. split; [|done]. apply elem_of_app. by left.
      + apply elem_of_cons in Hx as [->|Hx]; [by left|]. right. exists rest. split; [|done].
        apply elem_of_app. right. by left.
      + right. exists g. split; [|done]. apply elem_of_app. right. by right.
    - intros [->|(g & Hg & Hx)].
      + exists (o :: rest). split; [|by left]. apply elem_of_app. right. by left.
      + apply elem_of_app in Hg as [Hg|[->|Hg]%elem_of_cons].
        * exists g. split; [|done]. apply elem_of_app. by left.
        * exists (o :: rest). split; [|by right]. apply elem_of_app. right. by left.
        * exists g. split; [|done]. apply elem_of_app. right. by right. }
  destruct o as [q0 e0|]; simpl.
  - unfold close_queue. simpl. destruct (Hw q0 e0) as [Hn [box Hq0]]; [apply Howes; by left|]. rewrite Hq0.
    assert (q_err (close e0 box) <> None) as Hcl by (unfold close; destruct (q_err box) eqn:E; simpl; congruence).
    split; unfold owes; simpl; try done.
    + intros i q Hq. destruct (Hj i q Hq) as (b & ? & ?). exists b. rewrite lookup_insert_ne; [done|].
      intros <-. by apply Hn in Hq.
    + intros q b. rewrite lookup_insert. case_decide; [intros [= <-]; done|]. intros Hq Hb.
      destruct (Ho q b Hq Hb) as [?|[e' [?|?]%Howes]]; [by left | congruence | right; by exists e'].
    + intros q e' Hw'. destruct (Hw q e') as [? ?]; [apply Howes; by right|]. split; [done|].
      rewrite lookup_insert. case_decide; [by eexists | done].
    + intros He. destruct (Hr He) as [? [?|[?|?]%Howes]]; split; try done; [by left | by right].
  - split; unfold owes; simpl; try done.
    + intros q b Hq Hb. destruct (Ho q b Hq Hb) as [?|[e' [?|?]%Howes]]; [by left | done | right; by exists e'].
    + intros q e' Hw'. apply (Hw q e'). apply Howes. by right.
    + intros He. destruct (Hr He) as [? _]. split; [done|]. by left.
Qed.

(** ** The invariant of the ids *)
Definition first_id (role : Role) : N := match role with RoleServer => 2 | RoleClient => 1 end.

(** As many jobs as a side can start before its 64-bit counter wraps. *)
Definition max_jobs : N := 2 ^ 63 - 2.

Record ids_inv (role : Role) c (issued : list N) : Prop := {
  ii_role : cn_role c = role;
  ii_next : cn_nextJob c = first_id role + 2 * len issued;
  ii_issued i id : issued !! i = Some id -> id = first_id role + 2 * N.of_nat i;
  ii_own id q : cn_jobs c !! id = Some q -> mine c id = true -> id < cn_nextJob c;
}.

Definition conn_ok role s : Prop :=
  table_inv (cs_conn s) /\ ids_inv role (cs_conn s) (cs_issued s).

(** What a step may leave alone. *)
Record same_table c c' : Prop := {
  st_jobs : cn_jobs c' = cn_jobs c;
  st_queues : cn_queues c' = cn_queues c;
  st_err : cn_err c' = cn_err c;
  st_raw : cn_raw_closed c' = cn_raw_closed c;
  st_owed : cn_owed c' = cn_owed c;
  st_next : cn_nextJob c' = cn_nextJob c;
  st_role : cn_role c' = cn_role c;
}.

Lemma same_refl c : same_table c c.
Proof. by split. Qed.

Lemma table_view c c' : same_table c c' -> table_inv c -> table_inv c'.
Proof. intros [? ? ? ? ? _ _]. by apply table_same. Qed.

Lemma ids_fewer role c c' issued :
  cn_role c' = cn_role c -> cn_nextJob c' = cn_nextJob c ->
  (forall i q, cn_jobs c' !! i = Some q -> exists q', cn_jobs c !! i = Some q') ->
  ids_inv role c issued -> ids_inv role c' issued.
Proof.
  intros E1 E2 Hj [? ? ? Ho]. split; [congruence | congruence | done|].
  intros id q Hq Hm. destruct (Hj id q Hq) as [q' ?]. rewrite E2. eapply Ho; [done|].
  unfold mine in *. by rewrite <- E1.
Qed.

Lemma ids_view role c c' issued : same_table c c' -> ids_inv role c issued -> ids_inv role c' issued.
Proof.
  intros [E1 _ _ _ _ E2 E3]. apply ids_fewer; [done|done|]. intros i q. rewrite E1. eauto.
Qed.

Lemma mine_first c role k : cn_role c = role -> mine c (first_id role + 2 * k) = true.
Proof.
  intros <-. unfold mine. rewrite N.mul_comm, N.Div0.mod_add. by destruct (cn_role c).
Qed.

Lemma newJob_ok role c issued id q c' :
  table_inv c -> ids_inv role c issued -> len issued < max_jobs ->
  newJob c = (Ok (id, q), c') ->
  table_inv c' /\ ids_inv role c' (issued ++ [id]) /\ cn_jobs c !! id = None.
Proof.
  intros Ht [Hr Hn Hi Ho] Hlen. unfold newJob. destruct (cn_err c) eqn:He; [discriminate|].
  intros [= <- <- <-].
  assert (cn_jobs c !! cn_nextJob c = None) as Hfree.
  { destruct (cn_jobs c !! cn_nextJob c) as [q|] eqn:E; [|done].
    assert (mine c (cn_nextJob c) = true) as Hm by (rewrite Hn; by apply mine_first).
    specialize (Ho _ _ E Hm). lia. }
  assert (first_id role <= 2) as Hf by (by destruct role).
  assert ((cn_nextJob c + 2) mod width 8 = cn_nextJob c + 2) as Hmod.
  { apply N.mod_small. rewrite Hn. change (width 8) with (2 * 2 ^ 63). unfold max_jobs in Hlen. lia. }
  split; [by apply table_add|]. split; [|done]. split; simpl.
  - done.
  - rewrite Hmod, Hn, len_app. unfold len. simpl. lia.
  - intros i id Hid. apply lookup_app_Some in Hid as [?|[Hle Hid]]; [eauto|].
    apply list_lookup_singleton_Some in Hid as [? <-].
    rewrite Hn. unfold len. replace i with (length issued) by lia. lia.
  - intros id q. rewrite lookup_insert, Hmod. case_decide; [lia|]. intros Hq Hm. specialize (Ho id q Hq Hm). lia.
Qed.

Lemma start_ok role c issued req r c' :
  table_inv c -> ids_inv role c issued -> start req c = (r, c') ->
  table_inv c' /\ ids_inv role c' issued.
Proof.
  intros Ht Hi. unfold start. destruct (mine c (req_Job req)) eqn:Hm; [by intros [= _ <-]|].
  unfold openJob. destruct (cn_err c) eqn:He; [by intros [= _ <-]|].
  destruct (cn_jobs c !! req_Job req) eqn:Hj; [by intros [= _ <-]|]. intros [= _ <-].
  split; [by apply table_add|]. destruct Hi as [Hr Hn Hs Ho]. split; simpl; try done.
  intros id q. rewrite lookup_insert. case_decide; [|eauto]. subst id. intros _ Hm'.
  unfold mine in *. simpl in *. congruence.
Qed.

Lemma dispatch_ok role c issued m r c' :
  table_inv c -> ids_inv role c issued -> dispatch m c = (r, c') ->
  table_inv c' /\ ids_inv role c' issued.
Proof.
  intros Ht Hi. unfold dispatch. destruct m; try (by intros [= _ <-]).
  1: { intros [= _ <-]. split; [by apply (table_view c) | by apply (ids_view _ c)]. }
  1: by apply start_ok.
  all: simpl; destruct (cn_jobs c !! _); by intros [= _ <-].
Qed.

Lemma ids_fail role c e issued : ids_inv role c issued -> ids_inv role (fail e c) issued.
Proof.
  intros Hi. unfold fail. destruct (cn_err c); [done|]. apply (ids_fewer role c); [done..| |exact Hi].
  simpl. intros i q Hq. by apply lookup_empty_Some in Hq.
Qed.

Lemma run_turn_ok role c issued r c' :
  table_inv c -> ids_inv role c issued -> run_turn c = (r, c') ->
  table_inv c' /\ ids_inv role c' issued.
Proof.
  intros Ht Hi. unfold run_turn. destruct (cn_raw_closed c).
  { intros [= _ <-]. split; [by apply table_fail | by apply ids_fail]. }
  destruct (Decoder_Next (cn_dec c)) as [a d].
  assert (table_inv (cn_set_dec d c) /\ ids_inv role (cn_set_dec d c) issued) as [Ht1 Hi1].
  { split; [by apply (table_view c) | by apply (ids_view _ c)]. }
  destruct a as [[m|] [e|]].
  2: { destruct (dispatch m (cn_set_dec d c)) as [[t|e] c1] eqn:Hd;
       destruct (dispatch_ok role _ issued m _ _ Ht1 Hi1 Hd); intros [= _ <-]; [done|].
       split; [by apply table_fail | by apply ids_fail]. }
  all: intros [= _ <-]; split; [by apply table_fail | by apply ids_fail].
Qed.

Lemma queues_ok role c issued q box box' :
  cn_queues c !! q = Some box -> q_err box' = q_err box ->
  table_inv c -> ids_inv role c issued ->
  table_inv (cn_set_queues (<[q := box']> (cn_queues c)) c) /\
  ids_inv role (cn_set_queues (<[q := box']> (cn_queues c)) c) issued.
Proof.
  intros Hq He Ht Hi. split; [by eapply table_queue|]. apply (ids_fewer role c); [done..| |exact Hi]. simpl. eauto.
Qed.

Lemma push_err (m : Message) (box : inbox) : q_err (push m box) = q_err box.
Proof. unfold push. by destruct (q_err box) eqn:E; simpl. Qed.

Lemma next_region_err (box : inbox) r box' : next_region box = (r, box') -> q_err box' = q_err box.
Proof. unfold next_region. destruct (q_items box); [destruct (q_err box) eqn:E|]; intros [= _ <-]; done. Qed.

Lemma conn_step_ok role s s' :
  len (cs_issued s') <= max_jobs -> conn_step s s' -> conn_ok role s -> conn_ok role s'.
Proof.
  intros Hlen Hs [Ht Hi]. unfold conn_ok.
  destruct Hs as [t c Hl Hr|e c Hl Hr|t Hl|id q c Hn|id|e|before o rest after Ho|q box box' m Hq Hm|m r c Hm|Hp|name];
    simpl in *.
  - by eapply run_turn_ok.
  - by eapply run_turn_ok.
  - destruct t as [|q m|]; [done| |done]. simpl. unfold push_message.
    destruct (cn_queues (cs_conn s) !! q) as [box|] eqn:Hq; [|done].
    eapply queues_ok; [done | apply push_err | done | done].
  - rewrite len_app in Hlen. unfold len in Hlen at 2. simpl in Hlen.
    eapply newJob_ok in Hn as (? & ? & _); [done | done | done | lia].
  - split; [by apply table_endJob|]. apply (ids_fewer role (cs_conn s)); [done..| |exact Hi]. simpl.
    intros i q [_ ?]%lookup_delete_Some. eauto.
  - split; [by apply table_fail | by apply ids_fail].
  - split; [by eapply table_owed|]. destruct o as [q e|]; simpl; [|by apply (ids_fewer role (cs_conn s)); eauto].
    unfold close_queue. simpl. destruct (cn_queues (cs_conn s) !! q); by apply (ids_fewer role (cs_conn s)); eauto.
  - eapply queues_ok; [done | by eapply next_region_err | done | done].
  - assert (same_table (cs_conn s) c) as Hv.
    { unfold send_message in Hm. destruct (cn_raw_closed (cs_conn s)) eqn:Er; [by injection Hm as _ <-|].
      destruct (Encoder_Write _ m) as [e [?|]]; injection Hm as _ <-; by split. }
    split; [by apply (table_view (cs_conn s)) | by apply (ids_view _ (cs_conn s))].
  - split; [by apply (table_view (cs_conn s)) | by apply (ids_view _ (cs_conn s))].
  - split; [by apply (table_view (cs_conn s)) | by apply (ids_view _ (cs_conn s))].
Qed.

(** The states a new connection can come to, whatever arrives on it and
    whatever its goroutines do. *)
Definition conn_reachable (r : stream) (w : W) (role : Role) (peer : string) s : Prop :=
  rtc conn_step (cs_init r w role peer) s.

Lemma issued_grow s s' : rtc conn_step s s' -> len (cs_issued s) <= len (cs_issued s').
Proof.
  induction 1 as [|s1 s2 s3 Hs _ IH]; [done|]. etrans; [|exact IH].
  destruct Hs; simpl; rewrite ?len_app; lia.
Qed.

Lemma conn_reachable_ok r w role peer s :
  conn_reachable r w role peer s -> len (cs_issued s) <= max_jobs -> conn_ok role s.
Proof.
  unfold conn_reachable. assert (conn_ok role (cs_init r w role peer)) as Hok.
  { split; split; simpl; try done.
    - intros q e (g & Hg & _). by apply elem_of_nil in Hg.
    - by destruct role. }
  revert Hok. generalize (cs_init r w role peer). intros s0 Hok R Hlen.
  induction R as [|s1 s2 s3 Hs R IH]; [done|]. apply IH; [|done].
  eapply conn_step_ok; [|exact Hs|done]. pose proof (issued_grow _ _ R). lia.
Qed.

(** ** The theorems *)

(** C36. Job ids are never reused: up to the 2^63-2 jobs its counter has room
    for, a connection numbers the jobs it starts 1, 3, 5, ... on a client and
    2, 4, 6, ... on a server, so no id is 0, none is issued twice, none of a
    running job is issued again, and a peer that uses this side's parity in a
    REQUEST is refused. *)
Theorem job_ids_fresh r w role peer s :
  conn_reachable r w role peer s -> len (cs_issued s) <= max_jobs ->
  (forall i id, cs_issued s !! i = Some id -> id = first_id role + 2 * N.of_nat i) /\
  NoDup (cs_issued s) /\ (0 ∉ cs_issued s) /\
  (forall id q c, newJob (cs_conn s) = (Ok (id, q), c) -> len (cs_issued s) < max_jobs ->
     (id ∉ cs_issued s) /\ cn_jobs (cs_conn s) !! id = None) /\
  (forall req, req_Job req ∈ cs_issued s ->
     start req (cs_conn s) = (Err (RequestIsOurs (req_Job req)), cs_conn s)).
Proof.
  intros R Hlen. destruct (conn_reachable_ok _ _ _ _ _ R Hlen) as [Ht Hi].
  pose proof Hi as [Hr Hn Hs Ho]. split_and!; [done| | | |].
  - apply NoDup_alt. intros i j x Hx%Hs Hy%Hs. lia.
  - intros (i & Hz%Hs)%list_elem_of_lookup. destruct role; simpl in Hz; lia.
  - intros id q c HJ Hlt. split; [|by eapply newJob_ok in HJ as (_ & _ & ?)].
    unfold newJob in HJ. destruct (cn_err (cs_conn s)); [discriminate|]. injection HJ as <- _ _.
    rewrite Hn. intros (i & Hid)%list_elem_of_lookup. pose proof (lookup_lt_Some _ _ _ Hid).
    apply Hs in Hid. unfold len in Hid. lia.
  - intros req (i & Hid%Hs)%list_elem_of_lookup. unfold start. rewrite Hid.
    by rewrite (mine_first _ role _ Hr).
Qed.

(** C34. An inbox is never left open once its job is gone: an open inbox is that
    of a running job, or a goroutine is on its way to close it; and once a
    connection has failed and every goroutine has done what it owed, every
    inbox it ever had is closed and so is the socket, so nobody waits on a dead
    connection. *)
Theorem no_abandoned_inbox r w role peer s :
  conn_reachable r w role peer s -> len (cs_issued s) <= max_jobs ->
  (forall q box, cn_queues (cs_conn s) !! q = Some box -> q_err box = None ->
     (exists id, cn_jobs (cs_conn s) !! id = Some q) \/ exists e, owes (cs_conn s) (OweClose q e)) /\
  (cn_err (cs_conn s) <> None -> (forall o, ~ owes (cs_conn s) o) ->
     cn_raw_closed (cs_conn s) = true /\
     forall q box, cn_queues (cs_conn s) !! q = Some box -> q_err box <> None).
Proof.
  intros R Hlen. destruct (conn_reachable_ok _ _ _ _ _ R Hlen) as [[Hi Hj Ho Hw Hr] _].
  split; [done|]. intros He Hno. destruct (Hr He) as [Hjobs [Hraw|Hraw]]; [|by apply Hno in Hraw].
  split; [done|]. intros q box Hq Hb. destruct (Ho q box Hq Hb) as [[id E]|[e Hc]].
  - by rewrite Hjobs, lookup_empty in E.
  - by apply Hno in Hc.
Qed.

(** C35. A message of a job goes to that job's inbox and nowhere else: it is
    added at the end of the running job's inbox, every other inbox stays as it
    was, a message of a job that is not running is let through, and neither
    ends the connection. *)
Theorem dispatch_routes r w role peer s m id :
  conn_reachable r w role peer s -> len (cs_issued s) <= max_jobs ->
  JobID m = Some id -> Kind m <> KindRequest ->
  exists t, dispatch m (cs_conn s) = (Ok t, cs_conn s) /\
    let c' := do_todo t (cs_conn s) in
    cn_jobs c' = cn_jobs (cs_conn s) /\ cn_err c' = cn_err (cs_conn s) /\
    forall q box, cn_queues (cs_conn s) !! q = Some box ->
      cn_queues c' !! q =
        Some (if decide (cn_jobs (cs_conn s) !! id = Some q)
              then mkQueue (q_items box ++ [m]) None (S (q_ready box)) else box).
Proof.
  intros R Hlen Hid Hk. destruct (conn_reachable_ok _ _ _ _ _ R Hlen) as [[Hi Hj Ho Hw Hr] _].
  assert (dispatch m (cs_conn s) =
    (Ok (match cn_jobs (cs_conn s) !! id with Some q => Push q m | None => Nothing end), cs_conn s)) as Hd.
  { unfold dispatch. destruct m; simpl in Hid; try discriminate; try done;
      injection Hid as Hid; simpl; rewrite Hid; by destruct (cn_jobs (cs_conn s) !! id). }
  eexists. split; [exact Hd|]. cbv zeta. destruct (cn_jobs (cs_conn s) !! id) as [q0|] eqn:Hq0; simpl.
  - destruct (Hj id q0 Hq0) as (b0 & Hb0 & He0). unfold push_message. rewrite Hb0. simpl.
    split_and!; [done..|]. intros q box Hq. rewrite lookup_insert. case_decide.
    + subst q. simplify_eq. unfold push. rewrite He0. by case_decide.
    + by case_decide; [congruence|].
  - split_and!; [done..|]. intros q box Hq. done.
Qed.

(** A REQUEST starts at most one goroutine, with an inbox of its own: on a
    live connection it is refused when its id is this side's to number or its
    job is already running, and otherwise opens the job with a new empty inbox
    that no other job has. *)
Theorem request_opens_job r w role peer s req :
  conn_reachable r w role peer s -> len (cs_issued s) <= max_jobs -> cn_err (cs_conn s) = None ->
  let c := cs_conn s in
  match dispatch (MRequest req) c with
  | (Ok t, c') => mine c (req_Job req) = false /\ cn_jobs c !! req_Job req = None /\
      exists q, t = Serve req q /\ cn_jobs c' = <[req_Job req := q]> (cn_jobs c) /\
        cn_queues c' !! q = Some newJobQueue /\ cn_queues c !! q = None /\
        (forall id, cn_jobs c !! id <> Some q)
  | (Err e, c') => c' = c /\
      ((mine c (req_Job req) = true /\ e = RequestIsOurs (req_Job req)) \/
       (is_Some (cn_jobs c !! req_Job req) /\ e = JobRunning (req_Job req)))
  end.
Proof.
  intros R Hlen He. destruct (conn_reachable_ok _ _ _ _ _ R Hlen) as [[Hi Hj Ho Hw Hr] _].
  cbv zeta. simpl. unfold start. destruct (mine (cs_conn s) (req_Job req)) eqn:Hm; [by split; [|left]|].
  unfold openJob. rewrite He. destruct (cn_jobs (cs_conn s) !! req_Job req) as [q|] eqn:Hq.
  { split; [done|]. right. split; [by eexists | done]. }
  assert (cn_queues (cs_conn s) !! fresh_queue (cs_conn s) = None) as Hf.
  { apply not_elem_of_dom. apply is_fresh. }
  split_and!; [done..|]. exists (fresh_queue (cs_conn s)). split_and!; [done | done | apply lookup_insert_eq | done |].
  intros id E. destruct (Hj id _ E) as (b & ? & _). congruence.
Qed.

End Theorems.

(** ** A connection at work: a server, a job of its own and a REQUEST. *)
Definition demo_request : Request := mkRequest 7 "svc" "GET" "/" [].

Definition demo_conn : Csys (list byte) :=
  let s := cs_init (mkStream [] EOF) [] RoleServer "peer" in
  let '(r, c) := newJob (cs_conn s) in mkCsys c Reading [2].

Lemma demo_conn_reachable : conn_reachable (mkStream [] EOF) [] RoleServer "peer" demo_conn.
Proof. apply rtc_once. eapply (cstep_newJob (cs_init (mkStream [] EOF) [] RoleServer "peer") 2). reflexivity. Qed.

Lemma job_ids_fresh_witness :
  cs_issued demo_conn = [2] /\ NoDup (cs_issued demo_conn) /\ (0 ∉ cs_issued demo_conn).
Proof.
  split; [reflexivity|].
  destruct (job_ids_fresh _ _ _ _ demo_conn demo_conn_reachable) as (_ & H1 & H2 & _);
    [vm_compute; discriminate | by split].
Defined.

(** The same connection after it failed, its job's inbox closed and the socket
    too. *)
Definition demo_failed : Csys (list byte) :=
  let s := with_conn (fail ErrClosed (cs_conn demo_conn)) demo_conn in
  let s := with_conn (do_owed (OweClose 0 ErrClosed) (cn_set_owed [[OweRawClose]] (cs_conn s))) s in
  with_conn (do_owed OweRawClose (cn_set_owed [[]] (cs_conn s))) s.

Lemma demo_failed_reachable : conn_reachable (mkStream [] EOF) [] RoleServer "peer" demo_failed.
Proof.
  unfold conn_reachable. eapply rtc_r; [eapply rtc_r; [eapply rtc_r; [exact demo_conn_reachable|]|]|].
  - apply (cstep_fail demo_conn ErrClosed).
  - apply (cstep_owed _ [] (OweClose 0 ErrClosed) [OweRawClose] []). reflexivity.
  - apply (cstep_owed _ [] OweRawClose [] []). reflexivity.
Qed.

Lemma no_abandoned_inbox_witness :
  cn_raw_closed (cs_conn demo_failed) = true /\
  forall q box, cn_queues (cs_conn demo_failed) !! q = Some box -> q_err box <> None.
Proof.
  destruct (no_abandoned_inbox _ _ _ _ demo_failed demo_failed_reachable) as [_ H];
    [vm_compute; discriminate|].
  apply H; [vm_compute; discriminate|].
  intros o (g & Hg & Ho). vm_compute in Hg. apply list_elem_of_singleton in Hg as ->.
  by apply elem_of_nil in Ho.
Defined.

Lemma dispatch_routes_witness :
  exists t, dispatch (MCancel (mkCancel 2)) (cs_conn demo_conn) = (Ok t, cs_conn demo_conn) /\
    let c' := do_todo t (cs_conn demo_conn) in
    cn_jobs c' = cn_jobs (cs_conn demo_conn) /\ cn_err c' = cn_err (cs_conn demo_conn) /\
    forall q box, cn_queues (cs_conn demo_conn) !! q = Some box ->
      cn_queues c' !! q =
        Some (if decide (cn_jobs (cs_conn demo_conn) !! 2 = Some q)
              then mkQueue (q_items box ++ [MCancel (mkCancel 2)]) None (S (q_ready box)) else box).
Proof.
  apply (dispatch_routes _ _ _ _ demo_conn (MCancel (mkCancel 2)) 2 demo_conn_reachable);
    [vm_compute; discriminate | reflexivity | discriminate].
Defined.

Lemma request_opens_job_witness :
  let c := cs_conn demo_conn in
  let run := dispatch (MRequest demo_request) c in
  exists q, run.1 = Ok (Serve demo_request q) /\ cn_jobs run.2 = <[7 := q]> (cn_jobs c) /\
    cn_queues run.2 !! q = Some newJobQueue /\ cn_queues c !! q = None.
Proof.
  cbv zeta. assert (len (cs_issued demo_conn) <= max_jobs) as Hl by (vm_compute; discriminate).
  pose proof (request_opens_job _ _ _ _ demo_conn demo_request demo_conn_reachable Hl eq_refl) as H.
  cbv zeta in H. destruct (dispatch _ _) as [[t|e] c'] eqn:E; [|by vm_compute in E].
  destruct H as (_ & _ & q & -> & H1 & H2 & H3 & _). by exists q.
Defined.
