(* ===== verification/Conf.v ===== *)
(** A configuration: the data of internal/conf/conf.go, as internal/peer reads
    it.  Addresses and names are the text the file has. *)

From S2P Require Import Prelude Bytes.

Inductive ConfRole : Type := RoleNone | RoleIsServer | RoleIsClient.
#[export] Instance ConfRole_eq_dec : EqDecision ConfRole.
Proof. solve_decision. Defined.

Definition ConfRole_String (r : ConfRole) : string :=
  match r with RoleIsServer => "server" | RoleIsClient => "client" | RoleNone => "none" end.

Record Consume : Type := mkConsume {
  cons_Service : string;
  cons_Listen : string;
}.

Record Provide : Type := mkProvide {
  prov_Service : string;
  prov_Upstream : string;
  prov_MaxConcurrent : N;          (* uint16 *)
  prov_Priority : N;               (* uint16 *)
}.

Record Conf : Type := mkConf {
  cf_Role : ConfRole;
  cf_Listen : string;
  cf_Server : string;
  cf_Secret : list byte;
  cf_Name : string;
  cf_QueueTimeout : Z;             (* nanoseconds *)
  cf_Consume : list Consume;
  cf_Provide : list Provide;
}.

#[export] Instance Consume_eq_dec : EqDecision Consume.
Proof. solve_decision. Defined.
#[export] Instance Provide_eq_dec : EqDecision Provide.
Proof. solve_decision. Defined.
#[export] Instance Conf_eq_dec : EqDecision Conf.
Proof. solve_decision. Defined.

(** ** Defaults *)
Definition DefaultListen : string := "0.0.0.0:7420".
Definition DefaultQueueTimeout : Z := 10 * 60 * 1000000000.
Definition DefaultConcurrent : N := 1.
Definition DefaultPriority : N := 100.
Definition SecretSize : N := 32.

(** ** Refusals: a constructor per message, with what its text is made of *)
Inductive conf_msg : Type :=
  (* parse.go *)
  | KeyBeforeSection (key : string)
  | KeyTwice (key kind name : string) (old : N)
  | HeaderNotClosed
  | NameNotQuoted
  | NameHoldsQuote
  | NameIsEmpty
  | UnknownSection (kind : string)
  | NeedsName (kind : string)
  | TakesNoName (kind : string)
  | NotASetting
  | NotAKey (key : string)
  | NoValue (key : string)
  (* build.go *)
  | PeerTwice (old : N)
  | UnknownKey (key kind name : string)
  | NoListen (name : string)
  | NoUpstream (name : string)
  | SectionTwice (kind name : string) (old : N)
  | BadRole (text : string)
  | NotHostPort (what text : string)
  | NotAPort (what port : string)
  | NoHost (what text : string)
  | SecretLength (n : N)
  | SecretNotHex
  | NotADuration (text : string)
  | NotAWait (text : string)
  | NotANumber (what text : string) (low : N)
  | TooSmall (what : string) (n low : N)
  | EmptyText (what : string)
  | LongText (what : string) (n : N)
  | TextNotUTF8 (what : string)
  | NoSecret
  | NoServer
  | ServerKeyOnClient (key : string)
  | ClientKeyOnServer.

(** [Error]: a refusal with the line it happened on. *)
Record ConfError : Type := mkConfError {
  ce_File : string;
  ce_Line : N;
  ce_Msg : conf_msg;
}.
