(* ===== verification/ConfParse.v ===== *)
(** The grammar of a configuration file: internal/conf/parse.go.

    The source appends a key to the section [current] points to, which is the
    last one read; here that section is kept apart until the next one starts. *)

From S2P Require Import Prelude Bytes GoStrings Conf.
Local Open Scope go_scope.
Local Open Scope N_scope.

Record value : Type := mkValue {
  v_text : string;
  v_line : N;
}.

Record section : Type := mkSection {
  s_kind : string;
  s_name : string;
  s_line : N;
  s_keys : gmap string value;
  s_order : list string;
}.

(** [sectionKinds]: the sections that exist, and whether each is named. *)
Definition sectionKinds (kind : string) : option bool :=
  if bool_decide (kind = "peer"%string) then Some false
  else if bool_decide (kind = "consume"%string) then Some true
  else if bool_decide (kind = "provide"%string) then Some true
  else None.

Definition hash : byte := x23.
Definition equals : byte := x3d.
Definition quote : byte := x22.
Definition line_feed : byte := x0a.

Definition uncomment (line : list byte) : list byte :=
  match index_byte hash line with Some i => take i line | None => line end.

Definition word_byte (b : byte) : bool :=
  is_upper b || is_lower b || in_range 48 57 b || is_byte x5f b.

(** [isWord] ranges over code points; every byte of one beyond ASCII, or of no
    code point at all, is no letter, digit or underscore. *)
Definition isWord (l : list byte) : bool := forallb word_byte l.

Section File.
Context (file : string).

Definition refuse {A} (line : N) (msg : conf_msg) : result ConfError A := Err (mkConfError file line msg).

(** The name in a section header: what stands after the first blank. *)
Definition section_name (quoted : list byte) (line : N) : result ConfError (list byte) :=
  let quoted := trim_bytes quoted in
  let name := take (length quoted - 2) (drop 1 quoted) in
  if (len quoted <? 2) || negb (is_byte quote (default x00 (head quoted))) || negb (ends_with quote quoted)
  then refuse line NameNotQuoted
  else if has_byte quote name then refuse line NameHoldsQuote
  else if bool_decide (name = []) then refuse line NameIsEmpty
  else Ok name.

Definition is_blank (b : byte) : bool := is_byte x20 b || is_byte x09 b.

Definition header (text : list byte) (line : N) : result ConfError section :=
  if negb (ends_with close_bracket text) then refuse line HeaderNotClosed
  else
    let inner := trim_bytes (take (length text - 2) (drop 1 text)) in
    let! (kind, name) :=
      match index_where is_blank inner with
      | Some cut => let! name := section_name (drop cut inner) line in Ok (take cut inner, name)
      | None => Ok (inner, [])
      end in
    let kind := string_of kind in
    match sectionKinds kind with
    | None => refuse line (UnknownSection kind)
    | Some named =>
        if named && bool_decide (name = []) then refuse line (NeedsName kind)
        else if negb named && negb (bool_decide (name = [])) then refuse line (TakesNoName kind)
        else Ok (mkSection kind (string_of name) line ∅ [])
    end.

Definition setting (text : list byte) (line : N) : result ConfError (string * string) :=
  match cut_byte equals text with
  | None => refuse line NotASetting
  | Some (key, val) =>
      let key := trim_bytes key in
      let val := trim_bytes val in
      if bool_decide (key = []) || negb (isWord key) then refuse line (NotAKey (string_of key))
      else if bool_decide (val = []) then refuse line (NoValue (string_of key))
      else Ok (string_of key, string_of val)
  end.

(** A key written under a section. *)
Definition add_key (key val : string) (line : N) (s : section) : result ConfError section :=
  match s_keys s !! key with
  | Some old => refuse line (KeyTwice key (s_kind s) (s_name s) (v_line old))
  | None =>
      Ok (mkSection (s_kind s) (s_name s) (s_line s) (<[key := mkValue val line]> (s_keys s)) (s_order s ++ [key]))
  end.

(** One turn of [split]'s loop: the sections before the current one, and the
    current one. *)
Definition split_line (line : N) (raw : list byte) (st : list section * option section)
    : result ConfError (list section * option section) :=
  let '(before, current) := st in
  let text := trim_bytes (uncomment raw) in
  match text with
  | [] => Ok st
  | b :: _ =>
      if is_byte open_bracket b then
        let! parsed := header text line in
        Ok (before ++ option_list current, Some parsed)
      else
        let! (key, val) := setting text line in
        match current with
        | None => refuse line (KeyBeforeSection key)
        | Some s => let! s := add_key key val line s in Ok (before, Some s)
        end
  end.

Fixpoint split_lines (line : N) (raws : list (list byte)) (st : list section * option section)
    : result ConfError (list section * option section) :=
  match raws with
  | [] => Ok st
  | raw :: raws => let! st := split_line line raw st in split_lines (line + 1) raws st
  end.

Definition split (text : list byte) : result ConfError (list section) :=
  let! (before, current) := split_lines 1 (split_bytes line_feed text) ([], None) in
  Ok (before ++ option_list current).

End File.
