(* ===== verification/ConfSpec.v ===== *)
(** The grammar of a configuration file as a specification, and the proof that
    [split] is it.

    Each line stands for itself: blank, a section header, or a key and a value.
    A file is the headers with the keys that follow each. *)

From S2P Require Import Prelude Bytes GoStrings Conf ConfParse.
Local Open Scope go_scope.
Local Open Scope N_scope.

(** ** Lines *)
Inductive item : Type :=
  | Blank
  | Head (s : section)
  | Setting (key val : string).

Section File.
Context (file : string).

Definition classify (line : N) (raw : list byte) : result ConfError item :=
  match trim_bytes (uncomment raw) with
  | [] => Ok Blank
  | b :: text =>
      if is_byte open_bracket b
      then let! s := header file (b :: text) line in Ok (Head s)
      else let! (key, val) := setting file (b :: text) line in Ok (Setting key val)
  end.

(** ** Files

    Read from the end: the settings seen so far go to the header above them;
    what is left at the top of the file belongs to no section. *)
Definition written : Type := (string * value)%type.

Fixpoint grouped (line : N) (items : list item) : list written * list (section * list written) :=
  match items with
  | [] => ([], [])
  | it :: items =>
      let '(free, groups) := grouped (line + 1) items in
      match it with
      | Blank => (free, groups)
      | Head s => ([], (s, free) :: groups)
      | Setting key val => ((key, mkValue val line) :: free, groups)
      end
  end.

Definition section_of (g : section * list written) : section :=
  mkSection (s_kind g.1) (s_name g.1) (s_line g.1) (list_to_map g.2) g.2.*1.

(** The lines of a file, numbered from [line], and what each stands for. *)
Inductive reads : N -> list (list byte) -> list item -> Prop :=
  | reads_nil line : reads line [] []
  | reads_cons line raw raws it items :
      classify line raw = Ok it -> reads (line + 1) raws items -> reads line (raw :: raws) (it :: items).

(** What a text means: every line is well formed, no setting stands above the
    first header, and no section sets a key twice. *)
Definition means (raws : list (list byte)) (ss : list section) : Prop :=
  exists items groups,
    reads 1 raws items /\ grouped 1 items = ([], groups) /\
    Forall (fun g => NoDup g.2.*1) groups /\ ss = map section_of groups.

(** ** [split] is that *)

(** A section with settings written under it. *)
Definition extend (s : section) (ws : list written) : section :=
  mkSection (s_kind s) (s_name s) (s_line s) (list_to_map ws ∪ s_keys s) (s_order s ++ ws.*1).

Definition unset (s : section) (ws : list written) : Prop :=
  NoDup ws.*1 /\ forall key, key ∈ ws.*1 -> s_keys s !! key = None.

Lemma header_empty text line s :
  header file text line = Ok s -> s_keys s = ∅ /\ s_order s = [] /\ s_line s = line.
Proof.
  unfold header. destruct (negb _); [done|].
  intros ([kind name] & _ & H)%rbind_Ok. destruct (sectionKinds _) as [named|]; [|done].
  destruct (named && _); [done|]. destruct (negb named && _); [done|]. by simplify_eq.
Qed.

Lemma extend_header text line s ws : header file text line = Ok s -> extend s ws = section_of (s, ws).
Proof.
  intros (Hk & Ho & _)%header_empty. unfold extend, section_of. simpl. by rewrite Hk, Ho, map_union_empty.
Qed.

Lemma extend_nil s : extend s [] = s.
Proof. destruct s. unfold extend. simpl. by rewrite map_empty_union, app_nil_r. Qed.

Lemma add_key_cons key val line s s' ws :
  add_key file key val line s = Ok s' ->
  s_keys s !! key = None /\
  (unset s ((key, mkValue val line) :: ws) <-> unset s' ws) /\
  (unset s' ws -> extend s' ws = extend s ((key, mkValue val line) :: ws)).
Proof.
  unfold add_key. destruct (s_keys s !! key) eqn:E; [done|]. intros [= <-]. split; [done|].
  assert (unset s ((key, mkValue val line) :: ws) <->
    unset (mkSection (s_kind s) (s_name s) (s_line s) (<[key:=mkValue val line]> (s_keys s)) (s_order s ++ [key])) ws) as Hu.
  { unfold unset. simpl. rewrite NoDup_cons. split.
    - intros [[Hk Hn] Hs]. split; [done|]. intros k Hin. rewrite lookup_insert_ne by (by intros ->). apply Hs. by right.
    - intros [Hn Hs]. assert (key ∉ ws.*1) as Hk.
      { intros Hin. apply Hs in Hin. by rewrite lookup_insert_eq in Hin. }
      split; [done|]. intros k [-> |Hin]%elem_of_cons; [done|].
      specialize (Hs k Hin). by rewrite lookup_insert_ne in Hs by (by intros ->). }
  split; [done|]. intros [Hn Hs]. unfold extend. simpl. f_equal; [|by rewrite <- app_assoc].
  assert ((list_to_map ws : gmap string value) !! key = None) as Hk.
  { apply not_elem_of_list_to_map_1. intros Hin. apply Hs in Hin. simpl in Hin. by rewrite lookup_insert_eq in Hin. }
  change (list_to_map ((key, mkValue val line) :: ws) : gmap string value)
    with (<[key := mkValue val line]> (list_to_map ws : gmap string value)).
  rewrite <- insert_union_l. by rewrite insert_union_r.
Qed.

(** The settings that follow, and the groups after them, from where the loop
    stands: under no section, or under the current one. *)
Definition continues (before : list section) (current : option section) (free : list written)
    (groups : list (section * list written)) (ss : list section) : Prop :=
  Forall (fun g => NoDup g.2.*1) groups /\
  match current with
  | None => free = [] /\ ss = before ++ map section_of groups
  | Some s => unset s free /\ ss = before ++ extend s free :: map section_of groups
  end.

Lemma split_lines_means line raws before current st :
  split_lines file line raws (before, current) = Ok st ->
  exists items free groups, reads line raws items /\ grouped line items = (free, groups) /\
    continues before current free groups (st.1 ++ option_list st.2).
Proof.
  revert line before current. induction raws as [|raw raws IH]; intros line before current; cbn [split_lines].
  - intros [= <-]. exists [], [], []. split; [constructor|]. split; [done|]. split; [constructor|].
    destruct current as [s|]; simpl; [|done]. rewrite extend_nil. repeat split; [constructor|]. by intros ? ?%elem_of_nil.
  - intros (st1 & H1 & H2)%rbind_Ok. destruct st1 as [before1 current1].
    destruct (IH _ _ _ H2) as (items & free & groups & Hr & Hg & Hf & Hc).
    unfold split_line in H1. destruct (trim_bytes (uncomment raw)) as [|b text] eqn:Et; [|destruct (is_byte open_bracket b) eqn:Eb].
    + injection H1 as <- <-. exists (Blank :: items), free, groups. split; [|split; [simpl; by rewrite Hg | done]].
      constructor; [|done]. unfold classify. by rewrite Et.
    + apply rbind_Ok in H1 as (s & Hs & [= <- <-]). destruct Hc as [Hu ->].
      exists (Head s :: items), [], ((s, free) :: groups). split; [|split; [simpl; by rewrite Hg|]].
      { constructor; [|done]. unfold classify. by rewrite Et, Eb, Hs. }
      split; [constructor; [apply Hu | done]|]. rewrite (extend_header _ _ _ _ Hs), <- app_assoc.
      destruct current as [s0|]; simpl; [|done]. rewrite extend_nil. repeat split; [constructor | by intros ? ?%elem_of_nil].
    + apply rbind_Ok in H1 as ([key val] & Hs & H1). destruct current as [s|]; [|done].
      apply rbind_Ok in H1 as (s1 & Hadd & [= <- <-]). destruct Hc as [Hu ->].
      apply (add_key_cons _ _ _ _ _ free) in Hadd as (_ & Hun & Hex).
      exists (Setting key val :: items), ((key, mkValue val line) :: free), groups.
      split; [|split; [simpl; by rewrite Hg|]].
      { constructor; [|done]. unfold classify. by rewrite Et, Eb, Hs. }
      split; [done|]. split; [by apply Hun|]. by rewrite Hex.
Qed.

Lemma means_split_lines line raws before current items free groups ss :
  reads line raws items -> grouped line items = (free, groups) -> continues before current free groups ss ->
  exists st, split_lines file line raws (before, current) = Ok st /\ ss = st.1 ++ option_list st.2.
Proof.
  revert line before current items free groups.
  induction raws as [|raw raws IH]; intros line before current items free groups Hr Hg [Hf Hc]; cbn [split_lines].
  - inversion Hr; subst. simpl in Hg. injection Hg as <- <-.
    eexists. split; [done|]. destruct current as [s|]; simpl in *; destruct Hc as [_ ->]; [by rewrite extend_nil | done].
  - inversion Hr as [|line' raw' raws' it items' Hit Hr']; subst. clear Hr. simpl in Hg.
    destruct (grouped (line + 1) items') as [free' groups'] eqn:Eg.
    assert (forall before1 current1, split_line file line raw (before, current) = Ok (before1, current1) ->
      continues before1 current1 free' groups' ss ->
      exists st, (let! st := split_line file line raw (before, current) in split_lines file (line + 1) raws st) = Ok st /\
        ss = st.1 ++ option_list st.2) as Hgo.
    { intros before1 current1 -> Hc'. by eapply IH. }
    unfold classify in Hit. unfold split_line in Hgo |- *.
    destruct (trim_bytes (uncomment raw)) as [|b text] eqn:Et; [|destruct (is_byte open_bracket b) eqn:Eb].
    + injection Hit as <-. injection Hg as -> ->. by eapply Hgo.
    + apply rbind_Ok in Hit as (s & Hs & [= <-]). injection Hg as <- <-. rewrite Hs in Hgo |- *. eapply Hgo; [done|].
      apply Forall_cons in Hf as [Hnd Hf]. split; [done|].
      pose proof (header_empty _ _ _ Hs) as (Hk & _ & _). split; [split; [done|]; intros; by rewrite Hk|].
      destruct current as [s0|]; simpl in Hc; destruct Hc as [_ ->];
        rewrite (extend_header _ _ _ _ Hs), <- app_assoc; simpl; by rewrite ?extend_nil.
    + apply rbind_Ok in Hit as ([key val] & Hs & [= <-]). injection Hg as <- <-. rewrite Hs in Hgo |- *.
      destruct current as [s|]; simpl in Hc; [|by destruct Hc].
      destruct Hc as [Hu ->]. destruct (add_key file key val line s) as [s1|e] eqn:Hadd.
      * simpl in Hgo |- *. rewrite Hadd in Hgo |- *. eapply Hgo; [done|]. split; [done|].
         apply (add_key_cons _ _ _ _ _ free') in Hadd as (_ & Hun & Hex). apply Hun in Hu. split; [done|]. by rewrite Hex.
      * exfalso. unfold add_key in Hadd. destruct Hu as [_ Hu]. rewrite (Hu key ltac:(by left)) in Hadd. done.
Qed.

(** ** Where things stand *)
Definition refusal_at (e : ConfError) (line : N) : Prop := ce_File e = file /\ ce_Line e = line.

Lemma section_name_refusal quoted line e : section_name file quoted line = Err e -> refusal_at e line.
Proof.
  unfold section_name. destruct (_ || _); [by intros [= <-]|]. destruct (has_byte _ _); [by intros [= <-]|].
  case_bool_decide; [by intros [= <-] | done].
Qed.

Lemma header_refusal text line e : header file text line = Err e -> refusal_at e line.
Proof.
  unfold header. destruct (negb _); [by intros [= <-]|].
  intros [H|([kind name] & _ & H)]%rbind_Err.
  - destruct (index_where _ _) as [cut|]; [|done].
    apply rbind_Err in H as [H|(? & _ & H)]; [by eapply section_name_refusal | done].
  - destruct (sectionKinds _) as [named|]; [|by injection H as <-].
    destruct (named && _); [by injection H as <-|]. destruct (negb named && _); [by injection H as <- | done].
Qed.

Lemma setting_refusal text line e : setting file text line = Err e -> refusal_at e line.
Proof.
  unfold setting. destruct (cut_byte _ _) as [[key val]|]; [|by intros [= <-]].
  destruct (_ || _); [by intros [= <-]|]. case_bool_decide; [by intros [= <-] | done].
Qed.

Lemma split_line_refusal line raw st e : split_line file line raw st = Err e -> refusal_at e line.
Proof.
  destruct st as [before current]. unfold split_line. destruct (trim_bytes _) as [|b text]; [done|].
  destruct (is_byte _ _).
  - intros [H|(s & _ & H)]%rbind_Err; [by eapply header_refusal | done].
  - intros [H|([key val] & _ & H)]%rbind_Err; [by eapply setting_refusal|].
    destruct current as [s|]; [|by injection H as <-].
    apply rbind_Err in H as [H|(s' & _ & H)]; [|done]. unfold add_key in H.
    destruct (s_keys s !! key); [by injection H as <- | done].
Qed.

Lemma split_lines_app line raws raws' st :
  split_lines file line (raws ++ raws') st =
    rbind (split_lines file line raws st) (split_lines file (line + N.of_nat (length raws)) raws').
Proof.
  revert line st. induction raws as [|raw raws IH]; intros line st; simpl; [by rewrite N.add_0_r|].
  destruct (split_line file line raw st) as [st1|e]; simpl; [|done]. rewrite IH.
  by replace (line + N.of_nat (S (length raws))) with (line + 1 + N.of_nat (length raws)) by lia.
Qed.

(** The lines before the one a refusal names are fine. *)
Lemma split_lines_refusal line raws st e :
  split_lines file line raws st = Err e ->
  exists n raw st', raws !! n = Some raw /\ split_lines file line (take n raws) st = Ok st' /\
    split_line file (line + N.of_nat n) raw st' = Err e.
Proof.
  revert line st. induction raws as [|raw raws IH]; intros line st; [done|]. cbn [split_lines].
  intros [H|(st1 & H1 & H)]%rbind_Err.
  - exists O, raw, st. rewrite N.add_0_r. done.
  - destruct (IH _ _ H) as (n & raw' & st' & Hn & Ht & Hl). exists (S n), raw', st'.
    split; [done|]. split; [simpl; by rewrite H1|]. by replace (line + N.of_nat (S n)) with (line + 1 + N.of_nat n) by lia.
Qed.

(** A section as the grammar makes it, its lines among the first [n]. *)
Record section_ok (n : N) (s : section) : Prop := {
  so_kind : exists named, sectionKinds (s_kind s) = Some named /\ (s_name s = ""%string <-> named = false);
  so_line : 1 <= s_line s <= n;
  so_order : NoDup (s_order s);
  so_keys key : key ∈ s_order s <-> is_Some (s_keys s !! key);
  so_lines key v : s_keys s !! key = Some v -> 1 <= v_line v <= n;
}.

Lemma string_of_empty bs : string_of bs = ""%string <-> bs = [].
Proof. split; [|by intros ->]. intros H. rewrite <- (bytes_of_string_of bs), H. done. Qed.

Lemma header_kind text line s :
  header file text line = Ok s ->
  exists named, sectionKinds (s_kind s) = Some named /\ (s_name s = ""%string <-> named = false).
Proof.
  unfold header. destruct (negb _); [done|]. intros ([kind name] & _ & H)%rbind_Ok.
  destruct (sectionKinds (string_of kind)) as [named|] eqn:Ek; [|done].
  destruct (named && bool_decide (name = [])) eqn:E1; [done|].
  destruct (negb named && negb (bool_decide (name = []))) eqn:E2; [done|]. injection H as <-.
  exists named. split; [done|]. simpl. rewrite string_of_empty.
  destruct named; simpl in *; case_bool_decide; done.
Qed.

Lemma grouped_lines line raws items :
  reads line raws items ->
  Forall (fun w => line <= v_line w.2 < line + len raws) (grouped line items).1 /\
  Forall (fun g => (exists text l, header file text l = Ok g.1 /\ line <= l < line + len raws) /\
    Forall (fun w => line <= v_line w.2 < line + len raws) g.2) (grouped line items).2.
Proof.
  induction 1 as [line|line raw raws it items Hit _ [IHf IHg]]; [by split|]. rewrite len_cons. cbn [grouped].
  destruct (grouped (line + 1) items) as [free groups]. simpl in IHf, IHg.
  assert (Forall (fun w => line <= v_line w.2 < line + N.succ (len raws)) free) as Hf
    by (eapply Forall_impl; [exact IHf|]; intros [k v]; simpl; lia).
  assert (Forall (fun g => (exists text l, header file text l = Ok g.1 /\ line <= l < line + N.succ (len raws)) /\
    Forall (fun w => line <= v_line w.2 < line + N.succ (len raws)) g.2) groups) as Hg.
  { eapply Forall_impl; [exact IHg|]. intros [s ws] [(text & l & ? & ?) Hws]. split; [exists text, l; split; [done|lia]|].
    eapply Forall_impl; [exact Hws|]. intros [k v]; simpl; lia. }
  destruct it as [|s|key val]; simpl.
  - done.
  - split; [constructor|]. constructor; [|done]. split; [|done].
    unfold classify in Hit. destruct (trim_bytes _) as [|b text]; [done|]. destruct (is_byte _ _).
    + apply rbind_Ok in Hit as (s' & Hs & [= ->]). exists (b :: text), line. simpl. split; [done|lia].
    + by apply rbind_Ok in Hit as ([] & _ & ?).
  - split; [constructor; [simpl; lia|done]|done].
Qed.

Lemma split_sections_ok text ss :
  split file text = Ok ss -> Forall (section_ok (len (split_bytes line_feed text))) ss.
Proof.
  intros (st & H & Hss)%rbind_Ok. destruct st as [before current]. injection Hss as <-.
  apply split_lines_means in H as (items & free & groups & Hr & Hg & Hnd & _ & Hs). simpl in Hs. rewrite Hs. clear Hs.
  pose proof (grouped_lines _ _ _ Hr) as [_ Hl]. rewrite Hg in Hl. simpl in Hl.
  apply Forall_fmap. rewrite Forall_forall in *. intros [s ws] Hin. specialize (Hl _ Hin) as [(txt & l & Hh & Hl) Hws].
  specialize (Hnd _ Hin). simpl in *. pose proof (header_empty _ _ _ Hh) as (_ & _ & Hline).
  unfold section_of. split; simpl.
  - by eapply header_kind.
  - rewrite Hline. lia.
  - done.
  - intros key. pose proof (not_elem_of_list_to_map (M := gmap string) ws key) as Hm. rewrite <- not_eq_None_Some, <- Hm.
    destruct (decide (key ∈ ws.*1)); tauto.
  - intros key v Hv. apply elem_of_list_to_map_2 in Hv.
    rewrite Forall_forall in Hws. specialize (Hws _ Hv). simpl in Hws. lia.
Qed.

(** ** The theorems *)

(** C22. [split] is the grammar: it accepts a text exactly when every line is
    well formed, no setting stands above the first header and no section sets a
    key twice, and then the sections are the headers in their order, each with
    the settings that follow it. *)
Theorem split_is_grammar text ss :
  split file text = Ok ss <-> means (split_bytes line_feed text) ss.
Proof.
  unfold split, means. split.
  - intros (st & H & Hss)%rbind_Ok. destruct st as [before current]. injection Hss as <-.
    apply split_lines_means in H as (items & free & groups & Hr & Hg & Hf & -> & Hs).
    exists items, groups. done.
  - intros (items & groups & Hr & Hg & Hf & ->).
    destruct (means_split_lines 1 (split_bytes line_feed text) [] None items [] groups (map section_of groups))
      as (st & H & Hss); [done..|]. rewrite H. destruct st as [before current]. simpl in *. by rewrite Hss.
Qed.

(** The first thing wrong is the one reported: a refusal of the grammar
    names the file and a line of it, every line above that one is fine, and the
    rest of the file makes no difference. *)
Theorem split_refuses_first text e :
  split file text = Err e ->
  exists n, (n < length (split_bytes line_feed text))%nat /\ refusal_at e (1 + N.of_nat n) /\
    (exists ss, means (take n (split_bytes line_feed text)) ss) /\
    forall text', take (S n) (split_bytes line_feed text') = take (S n) (split_bytes line_feed text) ->
      split file text' = Err e.
Proof.
  unfold split. intros [H|([before current] & _ & H)]%rbind_Err; [|done].
  apply split_lines_refusal in H as (n & raw & st & Hn & Ht & He).
  exists n. split; [by eapply lookup_lt_Some|]. split; [by eapply split_line_refusal|]. split.
  - apply split_lines_means in Ht as (items & free & groups & Hr & Hg & Hf & -> & _).
    by exists (map section_of groups), items, groups.
  - intros text' Heq. rewrite <- (take_drop (S n) (split_bytes line_feed text')), Heq.
    rewrite (take_S_r _ _ _ Hn), <- app_assoc. rewrite split_lines_app, Ht. simpl.
    rewrite length_take_le by (apply lookup_lt_Some in Hn; lia). by rewrite He.
Qed.

End File.

(** ** A file and two that are refused *)
Definition lines_of (ls : list string) : list byte :=
  bytes_of (String.concat (String (Ascii.ascii_of_nat 10) EmptyString) ls).

Definition quoted (s : string) : string :=
  let q := String (Ascii.ascii_of_nat 34) EmptyString in q +:+ s +:+ q.

Definition demo_conf : list byte :=
  lines_of ["# a peer"; "[peer]"; "role = server  # the pool"; ""; "[provide " +:+ quoted "llm" +:+ "]";
            "upstream = h:80"]%string.

Example split_demo :
  option_map (map (fun s => (s_kind s, s_name s, s_order s)))
    (match split "f" demo_conf with Ok ss => Some ss | Err _ => None end) =
  Some [("peer", "", ["role"]); ("provide", "llm", ["upstream"])]%string.
Proof. vm_compute. reflexivity. Qed.

Definition demo_refused : list byte := lines_of ["[peer]"; "role"; "[nothing]"]%string.

Lemma split_refuses_first_witness :
  split "f" demo_refused = Err (mkConfError "f" 2 NotASetting) /\
  exists n, (n < 3)%nat /\ 1 + N.of_nat n = 2 /\ exists ss, means "f" (take n (split_bytes line_feed demo_refused)) ss.
Proof.
  assert (split "f" demo_refused = Err (mkConfError "f" 2 NotASetting)) as He by (vm_compute; reflexivity).
  split; [exact He|].
  destruct (split_refuses_first "f" demo_refused _ He) as (n & Hn & [_ Hl] & Hm & _).
  exists n. split; [exact Hn|]. split; [symmetry; exact Hl | exact Hm].
Defined.
