(* ===== verification/ConfBuild.v ===== *)
(** What the keys of a configuration file mean: internal/conf/build.go, and
    [Parse] and [Load] of internal/conf/conf.go.

    The operating system's host name and [time.ParseDuration] are parameters:
    the source only asks whether they give a value, and which. *)

From S2P Require Import Prelude Bytes GoStrings Conf ConfParse.
Local Open Scope go_scope.
Local Open Scope N_scope.

(** What the standard library is asked for. *)
Class Environment : Type := {
  os_Hostname : option string;
  ParseDuration : string -> option Z;      (* nanoseconds *)
}.

Definition hostname `{Environment} : string :=
  match os_Hostname with
  | Some h =>
      if negb (bool_decide (h = ""%string)) && (slen h <=? 255) && ValidString h then h else "httppooler"
  | None => "httppooler"
  end.

Section File.
Context `{Environment} (file : string).

Abbreviation refuse := (refuse file).

(** ** Values *)
Definition name_ok (s : string) (line : N) (what : string) : result ConfError unit :=
  if bool_decide (s = ""%string) then refuse line (EmptyText what)
  else if 255 <? slen s then refuse line (LongText what (slen s))
  else if negb (ValidString s) then refuse line (TextNotUTF8 what)
  else Ok tt.

Definition text (v : value) (what : string) : result ConfError string :=
  check! name_ok (v_text v) (v_line v) what in Ok (v_text v).

Definition role (v : value) : result ConfError ConfRole :=
  if bool_decide (v_text v = "server"%string) then Ok RoleIsServer
  else if bool_decide (v_text v = "client"%string) then Ok RoleIsClient
  else refuse (v_line v) (BadRole (v_text v)).

Definition port_ok (port : list byte) : bool :=
  match Atoi port with Some n => ((1 <=? n) && (n <=? 65535))%Z | None => false end.

Definition address (v : value) (what : string) (needHost : bool) : result ConfError string :=
  match SplitHostPort (bytes_of (v_text v)) with
  | None => refuse (v_line v) (NotHostPort what (v_text v))
  | Some (host, port) =>
      if negb (port_ok port) then refuse (v_line v) (NotAPort what (string_of port))
      else if needHost && bool_decide (host = []) then refuse (v_line v) (NoHost what (v_text v))
      else Ok (v_text v)
  end.

Definition secret (v : value) : result ConfError (list byte) :=
  if negb (slen (v_text v) =? SecretSize * 2) then refuse (v_line v) (SecretLength (slen (v_text v)))
  else match hex_decode (bytes_of (v_text v)) with
       | None => refuse (v_line v) SecretNotHex
       | Some key => Ok key
       end.

Definition duration (v : value) : result ConfError Z :=
  match ParseDuration (v_text v) with
  | None => refuse (v_line v) (NotADuration (v_text v))
  | Some d => if (d <=? 0)%Z then refuse (v_line v) (NotAWait (v_text v)) else Ok d
  end.

Definition number (v : value) (what : string) (low : N) : result ConfError N :=
  match ParseUint 16 (bytes_of (v_text v)) with
  | None => refuse (v_line v) (NotANumber what (v_text v) low)
  | Some n => if n <? low then refuse (v_line v) (TooSmall what n low) else Ok n
  end.

(** ** Sections *)

(** The line of a key; every key of [s_order] is in the map. *)
Definition key_line (s : section) (key : string) : N :=
  match s_keys s !! key with Some v => v_line v | None => 0 end.

Definition known (s : section) (allowed : list string) : result ConfError unit :=
  match filter (fun key => key ∉ allowed) (s_order s) with
  | key :: _ => refuse (key_line s key) (UnknownKey key (s_kind s) (s_name s))
  | [] => Ok tt
  end.

(** [service]: the name's shape, and that no section of the kind had it; the
    map of the names seen is returned. *)
Definition service (s : section) (seen : gmap string N) : result ConfError (gmap string N) :=
  check! name_ok (s_name s) (s_line s) "service name" in
  match seen !! s_name s with
  | Some line => refuse (s_line s) (SectionTwice (s_kind s) (s_name s) line)
  | None => Ok (<[s_name s := s_line s]> seen)
  end.

(** One key of the [peer] section; [known] has left no other. *)
Definition peer_key (key : string) (v : value) (c : Conf) : result ConfError Conf :=
  if bool_decide (key = "role"%string) then
    let! r := role v in
    Ok (mkConf r (cf_Listen c) (cf_Server c) (cf_Secret c) (cf_Name c) (cf_QueueTimeout c) (cf_Consume c) (cf_Provide c))
  else if bool_decide (key = "listen"%string) then
    let! a := address v "listen" false in
    Ok (mkConf (cf_Role c) a (cf_Server c) (cf_Secret c) (cf_Name c) (cf_QueueTimeout c) (cf_Consume c) (cf_Provide c))
  else if bool_decide (key = "server"%string) then
    let! a := address v "server" true in
    Ok (mkConf (cf_Role c) (cf_Listen c) a (cf_Secret c) (cf_Name c) (cf_QueueTimeout c) (cf_Consume c) (cf_Provide c))
  else if bool_decide (key = "secret"%string) then
    let! k := secret v in
    Ok (mkConf (cf_Role c) (cf_Listen c) (cf_Server c) k (cf_Name c) (cf_QueueTimeout c) (cf_Consume c) (cf_Provide c))
  else if bool_decide (key = "name"%string) then
    let! n := text v "name" in
    Ok (mkConf (cf_Role c) (cf_Listen c) (cf_Server c) (cf_Secret c) n (cf_QueueTimeout c) (cf_Consume c) (cf_Provide c))
  else if bool_decide (key = "queue_timeout"%string) then
    let! d := duration v in
    Ok (mkConf (cf_Role c) (cf_Listen c) (cf_Server c) (cf_Secret c) (cf_Name c) d (cf_Consume c) (cf_Provide c))
  else Ok c.

Fixpoint peer_keys (s : section) (keys : list string) (c : Conf) : result ConfError Conf :=
  match keys with
  | [] => Ok c
  | key :: keys =>
      let v := default (mkValue "" 0) (s_keys s !! key) in
      let! c := peer_key key v c in peer_keys s keys c
  end.

Definition peer (s : section) (c : Conf) : result ConfError Conf :=
  check! known s ["role"; "listen"; "server"; "secret"; "name"; "queue_timeout"]%string in
  peer_keys s (s_order s) c.

Definition consume (s : section) (seen : gmap string N) (c : Conf) : result ConfError (Conf * gmap string N) :=
  check! known s ["listen"%string] in
  let! seen := service s seen in
  match s_keys s !! "listen"%string with
  | None => refuse (s_line s) (NoListen (s_name s))
  | Some v =>
      let! listen := address v "listen" false in
      Ok (mkConf (cf_Role c) (cf_Listen c) (cf_Server c) (cf_Secret c) (cf_Name c) (cf_QueueTimeout c)
            (cf_Consume c ++ [mkConsume (s_name s) listen]) (cf_Provide c), seen)
  end.

(** A number that may be left out. *)
Definition number_or (s : section) (key : string) (low dflt : N) : result ConfError N :=
  match s_keys s !! key with Some v => number v key low | None => Ok dflt end.

Definition provide (s : section) (seen : gmap string N) (c : Conf) : result ConfError (Conf * gmap string N) :=
  check! known s ["upstream"; "max_concurrent"; "priority"]%string in
  let! seen := service s seen in
  match s_keys s !! "upstream"%string with
  | None => refuse (s_line s) (NoUpstream (s_name s))
  | Some v =>
      let! upstream := address v "upstream" true in
      let! max := number_or s "max_concurrent" 1 DefaultConcurrent in
      let! priority := number_or s "priority" 0 DefaultPriority in
      Ok (mkConf (cf_Role c) (cf_Listen c) (cf_Server c) (cf_Secret c) (cf_Name c) (cf_QueueTimeout c)
            (cf_Consume c) (cf_Provide c ++ [mkProvide (s_name s) upstream max priority]), seen)
  end.

(** A refusal about a key of the [peer] section: at the key, if it is there. *)
Definition refuse_key {A} (s : section) (key : string) (msg : conf_msg) : result ConfError A :=
  refuse (match s_keys s !! key with Some v => v_line v | None => s_line s end) msg.

Definition has_key (s : section) (key : string) : bool := bool_decide (is_Some (s_keys s !! key)).

(** [checkRole]; a conf with a role has a [peer] section. *)
Definition checkRole (c : Conf) (s : option section) : result ConfError unit :=
  match cf_Role c, s with
  | RoleNone, _ | _, None => Ok tt
  | r, Some s =>
      if bool_decide (cf_Secret c = []) then refuse_key s "secret" NoSecret
      else if bool_decide (r = RoleIsClient) && bool_decide (cf_Server c = ""%string) then refuse_key s "server" NoServer
      else if bool_decide (r = RoleIsClient) && has_key s "listen" then
        refuse_key s "listen" (ServerKeyOnClient "listen")
      else if bool_decide (r = RoleIsClient) && has_key s "queue_timeout" then
        refuse_key s "queue_timeout" (ServerKeyOnClient "queue_timeout")
      else if bool_decide (r = RoleIsServer) && has_key s "server" then
        refuse_key s "server" ClientKeyOnServer
      else Ok tt
  end.

(** ** [build] *)
Record building : Type := mkBuilding {
  bg_conf : Conf;
  bg_peer : option section;
  bg_consumed : gmap string N;
  bg_provided : gmap string N;
}.

Definition build_start : building :=
  mkBuilding (mkConf RoleNone DefaultListen "" [] hostname DefaultQueueTimeout [] []) None ∅ ∅.

(** One turn of [build]'s loop. *)
Definition build_section (b : building) (s : section) : result ConfError building :=
  if bool_decide (s_kind s = "peer"%string) then
    match bg_peer b with
    | Some old => refuse (s_line s) (PeerTwice (s_line old))
    | None =>
        let! c := peer s (bg_conf b) in
        Ok (mkBuilding c (Some s) (bg_consumed b) (bg_provided b))
    end
  else if bool_decide (s_kind s = "consume"%string) then
    let! (c, seen) := consume s (bg_consumed b) (bg_conf b) in
    Ok (mkBuilding c (bg_peer b) seen (bg_provided b))
  else if bool_decide (s_kind s = "provide"%string) then
    let! (c, seen) := provide s (bg_provided b) (bg_conf b) in
    Ok (mkBuilding c (bg_peer b) (bg_consumed b) seen)
  else Ok b.

Fixpoint build_sections (ss : list section) (b : building) : result ConfError building :=
  match ss with
  | [] => Ok b
  | s :: ss => let! b := build_section b s in build_sections ss b
  end.

Definition build (ss : list section) : result ConfError Conf :=
  let! b := build_sections ss build_start in
  check! checkRole (bg_conf b) (bg_peer b) in
  Ok (bg_conf b).

Definition Parse (data : list byte) : result ConfError Conf :=
  let! sections := split file data in build sections.

End File.

(** [Load]: the file's content, or the operating system's error. *)
Inductive load_error : Type :=
  | ReadError
  | Refused (e : ConfError).

Definition Load `{Environment} (path : string) (content : option (list byte)) : result load_error Conf :=
  match content with
  | None => Err ReadError
  | Some data => match Parse path data with Ok c => Ok c | Err e => Err (Refused e) end
  end.
