(* ===== verification/ConfTheorems.v ===== *)
(** What an accepted configuration is, and where a refused one is refused. *)

From S2P Require Import Prelude Bytes GoStrings Conf ConfParse ConfSpec ConfBuild.
Local Open Scope go_scope.
Local Open Scope N_scope.

(** ** Values *)
Definition valid_name (s : string) : Prop := s <> ""%string /\ slen s <= 255 /\ ValidString s = true.

(** An address: a host, which may be left out where one listens, and a port
    number. *)
Definition host_port (needHost : bool) (a : string) : Prop :=
  exists host port n, SplitHostPort (bytes_of a) = Some (host, port) /\
    Atoi port = Some n /\ (1 <= n <= 65535)%Z /\ (needHost = true -> host <> []).

(** ** A valid configuration *)
Record valid_provide (p : Provide) : Prop := {
  vp_service : valid_name (prov_Service p);
  vp_upstream : host_port true (prov_Upstream p);
  vp_slots : 1 <= prov_MaxConcurrent p < width 2;
  vp_priority : prov_Priority p < width 2;
}.

Record valid_consume (c : Consume) : Prop := {
  vc_service : valid_name (cons_Service c);
  vc_listen : host_port false (cons_Listen c);
}.

Record valid_conf (c : Conf) : Prop := {
  vf_name : valid_name (cf_Name c);
  vf_timeout : (0 < cf_QueueTimeout c)%Z;
  vf_listen : host_port false (cf_Listen c);
  vf_provide : Forall valid_provide (cf_Provide c);
  vf_consume : Forall valid_consume (cf_Consume c);
  vf_provide_once : NoDup (prov_Service <$> cf_Provide c);
  vf_consume_once : NoDup (cons_Service <$> cf_Consume c);
  vf_secret : cf_Role c <> RoleNone -> len (cf_Secret c) = SecretSize;
  vf_client : cf_Role c = RoleIsClient -> host_port true (cf_Server c) /\
    cf_Listen c = DefaultListen /\ cf_QueueTimeout c = DefaultQueueTimeout;
  vf_server : cf_Role c = RoleIsServer -> cf_Server c = ""%string;
}.

Section File.
Context `{Environment} (file : string).

Lemma name_ok_Ok s line what : name_ok file s line what = Ok tt -> valid_name s.
Proof.
  unfold name_ok, valid_name. case_bool_decide; [done|]. destruct (N.ltb_spec 255 (slen s)); [done|].
  by destruct (ValidString s).
Qed.

Lemma text_Ok v what s : text file v what = Ok s -> valid_name s.
Proof. unfold text. intros ([] & Hn & [= <-])%rbind_Ok. by eapply name_ok_Ok. Qed.

Lemma address_Ok v what needHost a : address file v what needHost = Ok a -> host_port needHost a.
Proof.
  unfold address, host_port. destruct (SplitHostPort _) as [[host port]|] eqn:E; [|done].
  unfold port_ok. destruct (Atoi port) as [n|] eqn:En; [|done].
  destruct ((1 <=? n) && (n <=? 65535))%Z eqn:Er; [|done]. simpl.
  destruct (needHost && bool_decide (host = [])) eqn:Eh; [done|]. intros [= <-].
  exists host, port, n. split_and!; [done|done|lia|lia|]. intros ->. by apply bool_decide_eq_false in Eh.
Qed.

Lemma hex_decode_len l bs : hex_decode l = Some bs -> length l = (2 * length bs)%nat.
Proof.
  revert bs. induction l as [l IH] using (induction_ltof1 _ (@length byte)). unfold ltof in IH.
  destruct l as [|hi [|lo l]]; simpl; intros bs; [by intros [= <-] | done |].
  destruct (hex_digit_val hi), (hex_digit_val lo), (hex_decode l) as [bs'|] eqn:E; intros; simplify_eq.
  apply IH in E; [simpl; lia | simpl; lia].
Qed.

Lemma secret_Ok v k : secret file v = Ok k -> len k = SecretSize.
Proof.
  unfold secret. destruct (N.eqb_spec (slen (v_text v)) (SecretSize * 2)) as [E|]; [|done]. simpl.
  destruct (hex_decode _) as [k'|] eqn:Ek; [|done]. intros [= <-]. apply hex_decode_len in Ek.
  unfold slen, len in E. unfold len. lia.
Qed.

Lemma duration_Ok v d : duration file v = Ok d -> (0 < d)%Z.
Proof.
  unfold duration. destruct (ParseDuration _) as [d'|]; [|done]. destruct (Z.leb_spec d' 0); [done|].
  by intros [= <-].
Qed.

Lemma number_Ok v what low n : number file v what low = Ok n -> low <= n < width 2.
Proof.
  unfold number. destruct (ParseUint 16 _) as [m|] eqn:E; [|done]. destruct (N.ltb_spec m low); [done|].
  intros [= <-]. split; [done|]. unfold ParseUint in E. destruct (bytes_of _); [done|].
  destruct (digits 0 _) as [k|]; [|done]. destruct (N.ltb_spec k (2 ^ 16)); [|done]. by simplify_eq.
Qed.

Lemma number_or_Ok s key low dflt n :
  low <= dflt < width 2 -> number_or file s key low dflt = Ok n -> low <= n < width 2.
Proof. unfold number_or. destruct (s_keys s !! key); [intros _; apply number_Ok | by intros ? [= <-]]. Qed.

Lemma hostname_valid : valid_name hostname.
Proof.
  unfold hostname, valid_name. destruct os_Hostname as [h|]; [|done].
  destruct (_ && _) eqn:E; [|done].
  apply andb_prop in E as [[E1 E2]%andb_prop E3]. apply negb_true_iff, bool_decide_eq_false in E1.
  split_and!; [done | lia | done].
Qed.

Lemma service_Ok s seen seen' :
  service file s seen = Ok seen' ->
  valid_name (s_name s) /\ seen !! s_name s = None /\ seen' = <[s_name s := s_line s]> seen.
Proof.
  unfold service. intros ([] & Hn & H1)%rbind_Ok. destruct (seen !! s_name s) eqn:E; [done|].
  injection H1 as <-. split; [by eapply name_ok_Ok | done].
Qed.

(** ** Sections *)

(** What the [peer] section [s] has made of a configuration so far. *)
Record peer_ok (s : section) (c : Conf) : Prop := {
  po_name : valid_name (cf_Name c);
  po_timeout : (0 < cf_QueueTimeout c)%Z;
  po_listen : host_port false (cf_Listen c);
  po_secret : cf_Secret c = [] \/ len (cf_Secret c) = SecretSize;
  po_server : cf_Server c = ""%string \/ host_port true (cf_Server c);
  po_listen_key : cf_Listen c = DefaultListen \/ has_key s "listen" = true;
  po_timeout_key : cf_QueueTimeout c = DefaultQueueTimeout \/ has_key s "queue_timeout" = true;
  po_server_key : cf_Server c = ""%string \/ has_key s "server" = true;
}.

Definition same_sections (c c' : Conf) : Prop := cf_Consume c' = cf_Consume c /\ cf_Provide c' = cf_Provide c.

Lemma peer_key_ok s key v c c' :
  has_key s key = true -> peer_ok s c -> peer_key file key v c = Ok c' -> peer_ok s c' /\ same_sections c c'.
Proof.
  intros Hk [] He. unfold peer_key in He.
  repeat match type of He with
    | context [bool_decide ?P] => destruct (bool_decide_reflect P) as [->|]
    end; try (apply rbind_Ok in He as (x & Hx & [= <-])); try (injection He as <-).
  all: split; [|done]; split; simpl; eauto using text_Ok, address_Ok, secret_Ok, duration_Ok.
Qed.

Lemma peer_keys_ok s keys c c' :
  Forall (fun key => has_key s key = true) keys -> peer_ok s c ->
  peer_keys file s keys c = Ok c' -> peer_ok s c' /\ same_sections c c'.
Proof.
  intros Hk. revert c. induction Hk as [|key keys Hkey _ IH]; intros c Hc; simpl; [by intros [= <-]|].
  intros (c1 & H1 & H2)%rbind_Ok. destruct (peer_key_ok _ _ _ _ _ Hkey Hc H1) as [Hc1 [E1 E2]].
  destruct (IH c1 Hc1 H2) as [? [E3 E4]]. split; [done|]. split; congruence.
Qed.

(** ** The whole file *)
Record building_ok (b : building) : Prop := {
  bo_peer : match bg_peer b with
            | Some s => peer_ok s (bg_conf b)
            | None => cf_Role (bg_conf b) = RoleNone /\ forall s, peer_ok s (bg_conf b)
            end;
  bo_provide : Forall valid_provide (cf_Provide (bg_conf b));
  bo_consume : Forall valid_consume (cf_Consume (bg_conf b));
  bo_provided : forall p, p ∈ cf_Provide (bg_conf b) -> is_Some (bg_provided b !! prov_Service p);
  bo_consumed : forall c, c ∈ cf_Consume (bg_conf b) -> is_Some (bg_consumed b !! cons_Service c);
  bo_provide_once : NoDup (prov_Service <$> cf_Provide (bg_conf b));
  bo_consume_once : NoDup (cons_Service <$> cf_Consume (bg_conf b));
}.

Lemma build_start_ok : building_ok build_start.
Proof.
  assert (host_port false DefaultListen) as Hl.
  { exists (bytes_of "0.0.0.0"), (bytes_of "7420"), 7420%Z. vm_compute. repeat split; discriminate. }
  split; simpl; try constructor; try (by intros ? ?%elem_of_nil); [done|].
  intros s. split; simpl; auto using hostname_valid. done.
Qed.

(** A section that is not the peer's leaves the peer's keys alone. *)
Definition same_peer (c c' : Conf) : Prop :=
  cf_Role c' = cf_Role c /\ cf_Listen c' = cf_Listen c /\ cf_Server c' = cf_Server c /\
  cf_Secret c' = cf_Secret c /\ cf_Name c' = cf_Name c /\ cf_QueueTimeout c' = cf_QueueTimeout c.

Lemma peer_ok_same s c c' : same_peer c c' -> peer_ok s c -> peer_ok s c'.
Proof. intros (Er & El & Es & Ek & En & Et) []. split; by rewrite ?El, ?Es, ?Ek, ?En, ?Et. Qed.

Lemma bo_peer_same s c c' :
  same_peer c c' ->
  match s with Some s => peer_ok s c | None => cf_Role c = RoleNone /\ forall s, peer_ok s c end ->
  match s with Some s => peer_ok s c' | None => cf_Role c' = RoleNone /\ forall s, peer_ok s c' end.
Proof.
  intros Hs. destruct s as [s|]; [by apply peer_ok_same|]. intros [Hr Hp].
  split; [by destruct Hs as [-> _] | intros s; by eapply peer_ok_same].
Qed.

Lemma consume_Ok s seen c c' seen' :
  consume file s seen c = Ok (c', seen') ->
  same_peer c c' /\ cf_Provide c' = cf_Provide c /\ seen' = <[s_name s := s_line s]> seen /\ seen !! s_name s = None /\
  exists x, cf_Consume c' = cf_Consume c ++ [x] /\ cons_Service x = s_name s /\ valid_consume x.
Proof.
  unfold consume. intros ([] & _ & (seen1 & (Hn & Hseen & ->)%service_Ok & H2)%rbind_Ok)%rbind_Ok.
  destruct (s_keys s !! "listen"%string) as [v|]; [|done]. apply rbind_Ok in H2 as (a & Ha%address_Ok & [= <- <-]).
  repeat split; try done. eexists. split; [done|]. split; [done|]. by split.
Qed.

Lemma provide_Ok s seen c c' seen' :
  provide file s seen c = Ok (c', seen') ->
  same_peer c c' /\ cf_Consume c' = cf_Consume c /\ seen' = <[s_name s := s_line s]> seen /\ seen !! s_name s = None /\
  exists x, cf_Provide c' = cf_Provide c ++ [x] /\ prov_Service x = s_name s /\ valid_provide x.
Proof.
  unfold provide. intros ([] & _ & (seen1 & (Hn & Hseen & ->)%service_Ok & H2)%rbind_Ok)%rbind_Ok.
  destruct (s_keys s !! "upstream"%string) as [v|]; [|done]. apply rbind_Ok in H2 as (a & Ha%address_Ok & H2).
  apply rbind_Ok in H2 as (max & Hmax%number_or_Ok & H2); [|done].
  apply rbind_Ok in H2 as (pr & Hpr%number_or_Ok & [= <- <-]); [|done].
  repeat split; try done. eexists. split; [done|]. split; [done|]. split; simpl; try done. lia.
Qed.

(** One more entry of a list of services that had none of that name. *)
Lemma one_more {A} (name_of : A -> string) (l : list A) x (seen : gmap string N) line :
  (forall y, y ∈ l -> is_Some (seen !! name_of y)) -> NoDup (name_of <$> l) -> seen !! name_of x = None ->
  (forall y, y ∈ l ++ [x] -> is_Some (<[name_of x := line]> seen !! name_of y)) /\ NoDup (name_of <$> l ++ [x]).
Proof.
  intros Hin Hnd Hx. split.
  - intros y [Hy| ->%list_elem_of_singleton]%elem_of_app; [|by rewrite lookup_insert_eq].
    destruct (decide (name_of x = name_of y)) as [->|]; [by rewrite lookup_insert_eq|].
    rewrite lookup_insert_ne by done. by apply Hin.
  - rewrite fmap_app. apply NoDup_app. split_and!; [done| |apply NoDup_singleton].
    intros n (y & -> & Hy)%list_elem_of_fmap E%list_elem_of_singleton.
    apply Hin in Hy as [? ?]. simpl in E. congruence.
Qed.

Lemma known_Ok s allowed key : known file s allowed = Ok tt -> key ∈ s_order s -> key ∈ allowed.
Proof.
  unfold known. destruct (filter _ _) as [|k ks] eqn:E; [|done]. intros _ Hk.
  destruct (decide (key ∈ allowed)) as [|Hn]; [done|].
  assert (key ∈ filter (fun key => key ∉ allowed) (s_order s)) as Hin by (by apply list_elem_of_filter).
  rewrite E in Hin. by apply elem_of_nil in Hin.
Qed.

Lemma build_section_ok n b s b' :
  section_ok n s -> building_ok b -> build_section file b s = Ok b' -> building_ok b'.
Proof.
  intros Hs Hb H1. unfold build_section in H1.
  case_bool_decide; [|case_bool_decide; [|case_bool_decide; [|by injection H1 as <-]]].
  - destruct (bg_peer b) eqn:Ep; [done|]. apply rbind_Ok in H1 as (c & Hc & [= <-]).
    pose proof (bo_peer _ Hb) as Hp. rewrite Ep in Hp. destruct Hp as [Hr Hp].
    unfold peer in Hc. apply rbind_Ok in Hc as ([] & _ & Hc).
    apply peer_keys_ok in Hc as [Hpo [E1 E2]]; [|apply Forall_forall|done].
    + destruct Hb. split; simpl; rewrite ?E1, ?E2; done.
    + intros key Hk. apply bool_decide_eq_true, (so_keys _ _ Hs), Hk.
  - apply rbind_Ok in H1 as ([c seen] & Hc & [= <-]).
    apply consume_Ok in Hc as (Hsame & Ep & -> & Hnone & x & Ex & Hx & Hv). destruct Hb. rewrite <- Hx in *.
    destruct (one_more cons_Service (cf_Consume (bg_conf b)) x _ (s_line s) bo_consumed0 bo_consume_once0 Hnone).
    split; simpl; rewrite ?Ep, ?Ex; try done; [by eapply bo_peer_same|]. apply Forall_app_2; [done | by apply Forall_singleton].
  - apply rbind_Ok in H1 as ([c seen] & Hc & [= <-]).
    apply provide_Ok in Hc as (Hsame & Ep & -> & Hnone & x & Ex & Hx & Hv). destruct Hb. rewrite <- Hx in *.
    destruct (one_more prov_Service (cf_Provide (bg_conf b)) x _ (s_line s) bo_provided0 bo_provide_once0 Hnone).
    split; simpl; rewrite ?Ep, ?Ex; try done; [by eapply bo_peer_same|]. apply Forall_app_2; [done | by apply Forall_singleton].
Qed.

Lemma build_sections_ok n ss b b' :
  Forall (section_ok n) ss -> building_ok b -> build_sections file ss b = Ok b' -> building_ok b'.
Proof.
  intros Hss. revert b. induction Hss as [|s ss Hs _ IH]; intros b Hb; simpl; [by intros [= <-]|].
  intros (b1 & H1 & H2)%rbind_Ok. eapply IH; [|done]. by eapply build_section_ok.
Qed.

(** A conf that says what it is for and passes [checkRole]. *)
Lemma checkRole_Ok s c :
  peer_ok s c -> cf_Role c <> RoleNone -> checkRole file c (Some s) = Ok tt ->
  len (cf_Secret c) = SecretSize /\
  (cf_Role c = RoleIsClient -> host_port true (cf_Server c) /\
     cf_Listen c = DefaultListen /\ cf_QueueTimeout c = DefaultQueueTimeout) /\
  (cf_Role c = RoleIsServer -> cf_Server c = ""%string).
Proof.
  intros [] Hr Hc. unfold checkRole, refuse_key in Hc. destruct (cf_Role c) eqn:Er; [done| |]; simpl in Hc.
  - case_bool_decide; [done|]. destruct (has_key s "server"); [done|].
    split_and!; [by destruct po_secret0 | done | by destruct po_server_key0].
  - case_bool_decide as Hsec; [done|]. case_bool_decide as Hsrv; [done|]. simpl in Hc.
    destruct (has_key s "listen"); [done|]. destruct (has_key s "queue_timeout"); [done|].
    split_and!; [by destruct po_secret0 | intros _ | done].
    split_and!; [by destruct po_server0 | by destruct po_listen_key0 | by destruct po_timeout_key0].
Qed.

(** ** Refusals *)

(** A refusal that names one of the first [n] lines of the file. *)
Definition in_file (n : N) (e : ConfError) : Prop := ce_File e = file /\ 1 <= ce_Line e <= n.

(** The refusals of a function that says everything of one line. *)
Ltac one_line :=
  intros Hone; repeat (case_match; simplify_eq/=); simplify_eq/=; try done; by repeat split.

Lemma name_ok_refusal s line what e : name_ok file s line what = Err e -> refusal_at file e line.
Proof. unfold name_ok, ConfParse.refuse. one_line. Qed.
Lemma text_refusal v what e : text file v what = Err e -> refusal_at file e (v_line v).
Proof. unfold text. intros [H1|(? & _ & H1)]%rbind_Err; [by eapply name_ok_refusal | done]. Qed.
Lemma role_refusal v e : role file v = Err e -> refusal_at file e (v_line v).
Proof. unfold role, ConfParse.refuse. one_line. Qed.
Lemma address_refusal v what b e : address file v what b = Err e -> refusal_at file e (v_line v).
Proof. unfold address, ConfParse.refuse. one_line. Qed.
Lemma secret_refusal v e : secret file v = Err e -> refusal_at file e (v_line v).
Proof. unfold secret, ConfParse.refuse. one_line. Qed.
Lemma duration_refusal v e : duration file v = Err e -> refusal_at file e (v_line v).
Proof. unfold duration, ConfParse.refuse. one_line. Qed.
Lemma number_refusal v what low e : number file v what low = Err e -> refusal_at file e (v_line v).
Proof. unfold number, ConfParse.refuse. one_line. Qed.

Section Refusals.
Context (n : N) (s : section) (Hs : section_ok n s).

Lemma at_section e : refusal_at file e (s_line s) -> in_file n e.
Proof. intros [? E]. split; [done|]. rewrite E. apply (so_line _ _ Hs). Qed.

Lemma at_key key v e : s_keys s !! key = Some v -> refusal_at file e (v_line v) -> in_file n e.
Proof. intros Hk [? E]. split; [done|]. rewrite E. by eapply (so_lines _ _ Hs). Qed.

Lemma known_refusal allowed e : known file s allowed = Err e -> in_file n e.
Proof.
  unfold known. destruct (filter _ _) as [|key ks] eqn:E; [done|]. intros [= <-].
  assert (key ∈ s_order s) as Hk.
  { assert (key ∈ filter (fun key => key ∉ allowed) (s_order s)) as H1 by (rewrite E; by left).
    by apply list_elem_of_filter in H1 as [_ ?]. }
  apply (so_keys _ _ Hs) in Hk as [v Hv]. eapply at_key; [done|]. unfold key_line. by rewrite Hv.
Qed.

Lemma service_refusal seen e : service file s seen = Err e -> in_file n e.
Proof.
  unfold service. intros [H1|([] & _ & H1)]%rbind_Err; apply at_section; [by eapply name_ok_refusal|].
  destruct (seen !! s_name s); [by injection H1 as <- | done].
Qed.

Lemma peer_key_refusal key v c e : peer_key file key v c = Err e -> refusal_at file e (v_line v).
Proof.
  unfold peer_key. intros H1.
  repeat (case_bool_decide; [apply rbind_Err in H1 as [H1|(? & _ & H1)]; [|done];
    first [by eapply role_refusal | by eapply address_refusal | by eapply secret_refusal
          | by eapply text_refusal | by eapply duration_refusal]|]).
  done.
Qed.

Lemma peer_keys_refusal keys c e :
  (forall key, key ∈ keys -> key ∈ s_order s) -> peer_keys file s keys c = Err e -> in_file n e.
Proof.
  revert c. induction keys as [|key keys IH]; intros c Hk; simpl; [done|].
  intros [H1|(c1 & _ & H1)]%rbind_Err.
  - destruct (proj1 (so_keys _ _ Hs key) (Hk key ltac:(by left))) as [v Hv]. rewrite Hv in H1.
    eapply at_key; [done|]. by eapply peer_key_refusal.
  - eapply IH; [|done]. intros key' Hin. apply Hk. by right.
Qed.

Lemma number_or_refusal key low dflt e : number_or file s key low dflt = Err e -> in_file n e.
Proof.
  unfold number_or. destruct (s_keys s !! key) as [v|] eqn:E; [|done]. intros H1.
  eapply at_key; [done|]. by eapply number_refusal.
Qed.

Lemma build_section_refusal b e :
  build_section file b s = Err e -> in_file n e.
Proof.
  intros H1. unfold build_section in H1.
  case_bool_decide; [|case_bool_decide; [|case_bool_decide; [|done]]].
  - destruct (bg_peer b); [injection H1 as <-; by apply at_section|].
    apply rbind_Err in H1 as [H1|(? & _ & H1)]; [|done]. unfold peer in H1.
    apply rbind_Err in H1 as [H1|(? & _ & H1)]; [by eapply known_refusal|]. by eapply peer_keys_refusal.
  - apply rbind_Err in H1 as [H1|([] & _ & H1)]; [|done]. unfold consume in H1.
    apply rbind_Err in H1 as [H1|(? & _ & H1)]; [by eapply known_refusal|].
    apply rbind_Err in H1 as [H1|(? & _ & H1)]; [by eapply service_refusal|].
    destruct (s_keys s !! "listen"%string) eqn:E; [|injection H1 as <-; by apply at_section].
    apply rbind_Err in H1 as [H1|(? & _ & H1)]; [|done]. eapply at_key; [done|]. by eapply address_refusal.
  - apply rbind_Err in H1 as [H1|([] & _ & H1)]; [|done]. unfold provide in H1.
    apply rbind_Err in H1 as [H1|(? & _ & H1)]; [by eapply known_refusal|].
    apply rbind_Err in H1 as [H1|(? & _ & H1)]; [by eapply service_refusal|].
    destruct (s_keys s !! "upstream"%string) eqn:E; [|injection H1 as <-; by apply at_section].
    apply rbind_Err in H1 as [H1|(? & _ & H1)]; [eapply at_key; [done|]; by eapply address_refusal|].
    apply rbind_Err in H1 as [H1|(? & _ & H1)]; [by eapply number_or_refusal|].
    apply rbind_Err in H1 as [H1|(? & _ & H1)]; [by eapply number_or_refusal | done].
Qed.

Lemma checkRole_refusal c e : checkRole file c (Some s) = Err e -> in_file n e.
Proof.
  assert (forall key msg, refuse_key file s key msg = (Err e : result ConfError unit) -> in_file n e) as Hkey.
  { intros key msg [= <-]. destruct (s_keys s !! key) eqn:E; [by eapply at_key | by apply at_section]. }
  unfold checkRole. destruct (cf_Role c); [done| |]; simpl;
    repeat (case_match; [eauto|]); done.
Qed.
End Refusals.

Lemma build_sections_refusal n ss b e :
  Forall (section_ok n) ss -> build_sections file ss b = Err e -> in_file n e.
Proof.
  intros Hss. revert b. induction Hss as [|s ss Hs _ IH]; intros b; simpl; [done|].
  intros [H1|(b1 & _ & H1)]%rbind_Err; [by eapply build_section_refusal | by eapply IH].
Qed.

(** The [peer] section a configuration was built with is one of the file's. *)
Lemma build_sections_peer ss b b' s :
  build_sections file ss b = Ok b' -> bg_peer b' = Some s -> bg_peer b = Some s \/ s ∈ ss.
Proof.
  revert b. induction ss as [|s1 ss IH]; intros b; simpl; [intros [= ->]; by left|].
  intros (b1 & H1 & H2)%rbind_Ok Hs. destruct (IH _ H2 Hs) as [Hb|Hin]; [|by right; right].
  unfold build_section in H1. case_bool_decide; [|case_bool_decide; [|case_bool_decide; [|injection H1 as <-; by left]]].
  - destruct (bg_peer b); [done|]. apply rbind_Ok in H1 as (c & _ & [= <-]). injection Hb as ->. right. by left.
  - apply rbind_Ok in H1 as ([c seen] & _ & [= <-]). by left.
  - apply rbind_Ok in H1 as ([c seen] & _ & [= <-]). by left.
Qed.

(** What [Parse] accepts is valid. *)
Lemma parse_ok_valid data c : Parse file data = Ok c -> valid_conf c.
Proof.
  unfold Parse, build. intros (ss & Hss%split_sections_ok & (b & Hb & ([] & Hc & [= <-])%rbind_Ok)%rbind_Ok)%rbind_Ok.
  apply (build_sections_ok _ _ _ _ Hss build_start_ok) in Hb.
  assert (exists s, peer_ok s (bg_conf b)) as [s Hpo].
  { pose proof (bo_peer _ Hb) as Hp. destruct (bg_peer b) as [s|]; [by exists s|].
    exists (mkSection "" "" 0 ∅ []). apply Hp. }
  assert (cf_Role (bg_conf b) <> RoleNone -> len (cf_Secret (bg_conf b)) = SecretSize /\
    (cf_Role (bg_conf b) = RoleIsClient -> host_port true (cf_Server (bg_conf b)) /\
       cf_Listen (bg_conf b) = DefaultListen /\ cf_QueueTimeout (bg_conf b) = DefaultQueueTimeout) /\
    (cf_Role (bg_conf b) = RoleIsServer -> cf_Server (bg_conf b) = ""%string)) as Hrole.
  { intros Hr. pose proof (bo_peer _ Hb) as Hp. destruct (bg_peer b) as [s'|]; [|by destruct Hp].
    by eapply checkRole_Ok. }
  destruct Hb, Hpo. split; try done; intros Hr; apply Hrole; congruence.
Qed.

(** The names of a file's sections of one kind. *)
Definition names_of (kind : string) (ss : list section) : list string :=
  s_name <$> filter (fun s => s_kind s = kind) ss.

Lemma names_of_cons kind s ss :
  names_of kind (s :: ss) = (if bool_decide (s_kind s = kind) then [s_name s] else []) ++ names_of kind ss.
Proof. unfold names_of. rewrite filter_cons. by case_decide; case_bool_decide. Qed.

Lemma build_section_services n s b b' :
  section_ok n s -> building_ok b -> build_section file b s = Ok b' ->
  prov_Service <$> cf_Provide (bg_conf b') = (prov_Service <$> cf_Provide (bg_conf b)) ++ names_of "provide" [s] /\
  cons_Service <$> cf_Consume (bg_conf b') = (cons_Service <$> cf_Consume (bg_conf b)) ++ names_of "consume" [s].
Proof.
  intros Hs Hb H1. rewrite !names_of_cons. unfold build_section in H1.
  case_bool_decide as E1; [rewrite ?E1|case_bool_decide as E2; [rewrite ?E2|case_bool_decide as E3; [rewrite ?E3|]]].
  - destruct (bg_peer b) eqn:Ep; [done|]. apply rbind_Ok in H1 as (c & Hc & [= <-]).
    pose proof (bo_peer _ Hb) as Hp. rewrite Ep in Hp. destruct Hp as [_ Hp]. unfold peer in Hc.
    apply rbind_Ok in Hc as ([] & _ & Hc). simpl.
    apply peer_keys_ok in Hc as [_ [-> ->]]; [by rewrite !app_nil_r| |done].
    apply Forall_forall. intros key Hk. apply bool_decide_eq_true, (so_keys _ _ Hs), Hk.
  - apply rbind_Ok in H1 as ([c seen] & Hc & [= <-]). apply consume_Ok in Hc as (_ & Ep & _ & _ & x & Ex & Hx & _).
    simpl. by rewrite Ep, Ex, fmap_app, app_nil_r, <- Hx.
  - apply rbind_Ok in H1 as ([c seen] & Hc & [= <-]). apply provide_Ok in Hc as (_ & Ep & _ & _ & x & Ex & Hx & _).
    simpl. by rewrite Ep, Ex, fmap_app, app_nil_r, <- Hx.
  - injection H1 as <-. rewrite ?bool_decide_false by done. by rewrite !app_nil_r.
Qed.

Lemma build_sections_services n ss b b' :
  Forall (section_ok n) ss -> building_ok b -> build_sections file ss b = Ok b' ->
  prov_Service <$> cf_Provide (bg_conf b') = (prov_Service <$> cf_Provide (bg_conf b)) ++ names_of "provide" ss /\
  cons_Service <$> cf_Consume (bg_conf b') = (cons_Service <$> cf_Consume (bg_conf b)) ++ names_of "consume" ss.
Proof.
  intros Hss. revert b. induction Hss as [|s ss Hs _ IH]; intros b Hb; simpl.
  { intros [= <-]. by rewrite !app_nil_r. }
  intros (b1 & H1 & H2)%rbind_Ok. pose proof (build_section_ok _ _ _ _ Hs Hb H1) as Hb1.
  destruct (build_section_services _ _ _ _ Hs Hb H1) as [Ep Ec]. destruct (IH b1 Hb1 H2) as [-> ->].
  rewrite Ep, Ec, <- !app_assoc, !(names_of_cons _ s ss), !(names_of_cons _ s []). by rewrite !app_nil_r.
Qed.

(** C23. An accepted configuration is a valid one and says what the file says: a
    name the wire can carry, a positive queue timeout, addresses with a host
    where one is dialled and a port number, services announced once with 1 to
    65535 slots, and with a role the 32-byte secret the handshake wants and the
    keys of that role only; and its services are the file's sections of each
    kind, in their order. *)
Theorem parse_valid data c :
  Parse file data = Ok c ->
  valid_conf c /\
  exists ss, split file data = Ok ss /\
    prov_Service <$> cf_Provide c = names_of "provide" ss /\ cons_Service <$> cf_Consume c = names_of "consume" ss.
Proof.
  intros Hp. split; [by eapply parse_ok_valid|]. unfold Parse, build in Hp.
  apply rbind_Ok in Hp as (ss & Hss & (b & Hb & ([] & _ & [= <-])%rbind_Ok)%rbind_Ok).
  exists ss. split; [done|].
  exact (build_sections_services _ _ _ _ (split_sections_ok _ _ _ Hss) build_start_ok Hb).
Qed.

(** C24. A refused file is refused at one of its lines: whichever rule it breaks,
    the error names the file and a line the file has. *)
Theorem parse_refuses_in_file data e :
  Parse file data = Err e -> in_file (len (split_bytes line_feed data)) e.
Proof.
  unfold Parse, build. intros [H1|(ss & Hss%split_sections_ok & H1)]%rbind_Err.
  - destruct (split_refuses_first file data e H1) as (n & Hn & [Hf Hl] & _).
    split; [done|]. rewrite Hl. unfold len. lia.
  - apply rbind_Err in H1 as [H1|(b & Hb & H1)]; [by eapply build_sections_refusal|].
    apply rbind_Err in H1 as [H1|(? & _ & H1)]; [|done].
    destruct (bg_peer b) as [s|] eqn:Ep; [|unfold checkRole in H1; by destruct (cf_Role (bg_conf b))].
    destruct (build_sections_peer _ _ _ _ Hb Ep) as [|Hin]; [done|].
    rewrite Forall_forall in Hss. eapply checkRole_refusal; eauto.
Qed.

End File.

(** ** Files *)

(** A machine with a name, and durations in minutes. *)
Definition demo_environment : Environment :=
  {| os_Hostname := Some "box"%string;
     ParseDuration s := if bool_decide (s = "10m"%string) then Some 600000000000%Z else None |}.

Definition demo_server : list byte :=
  lines_of ["[peer]"; "role = server"; "queue_timeout = 10m";
            "secret = 000102030405060708090a0b0c0d0e0f101112131415161718191a1b1c1d1e1f";
            "[provide " +:+ quoted "llm" +:+ "]"; "upstream = h:80"; "max_concurrent = 3"]%string.

Lemma parse_valid_witness :
  exists c, Parse (H := demo_environment) "f" demo_server = Ok c /\ cf_Name c = "box"%string /\ valid_conf c /\
    exists ss, split "f" demo_server = Ok ss /\ names_of "provide" ss = ["llm"%string].
Proof.
  eexists. split; [vm_compute; reflexivity|]. split; [reflexivity|].
  destruct (parse_valid (H := demo_environment) "f" demo_server
    (match Parse (H := demo_environment) "f" demo_server with Ok c => c | Err _ => mkConf RoleNone "" "" [] "" 0 [] [] end))
    as [Hv (ss & Hs & Hn & _)]; [vm_compute; reflexivity|].
  split; [exact Hv|]. exists ss. split; [exact Hs|]. rewrite <- Hn. vm_compute. reflexivity.
Defined.

(** A client's key on a server. *)
Definition demo_confused : list byte :=
  lines_of ["[peer]"; "role = server"; "server = h:7420";
            "secret = 000102030405060708090a0b0c0d0e0f101112131415161718191a1b1c1d1e1f"]%string.

Lemma parse_refuses_in_file_witness :
  Parse (H := demo_environment) "f" demo_confused = Err (mkConfError "f" 3 ClientKeyOnServer) /\
  in_file "f" 4 (mkConfError "f" 3 ClientKeyOnServer).
Proof.
  split; [vm_compute; reflexivity|].
  apply (parse_refuses_in_file (H := demo_environment) "f" demo_confused). vm_compute. reflexivity.
Defined.
