(* ===== verification/Endpoint.v ===== *)
(** A peer's own sections: the state of internal/peer/endpoint.go.  Ports,
    listeners and the HTTP client are Go's; what is here is what the endpoint
    announces, the connection its consumers submit on, and the count of the
    jobs its upstreams are running. *)

From S2P Require Import Prelude Bytes Message Encode WireFormat Conf.
Local Open Scope Z_scope.

Record Endpoint : Type := mkEndpoint {
  ep_name : string;
  ep_provides : list Provide;
  ep_byName : gmap string Provide;
  ep_consumes : list Consume;
  ep_conn : option nat;
  ep_running : gmap string Z;      (* int, absent is 0 *)
}.

Definition NewEndpoint (cfg : Conf) : Endpoint :=
  mkEndpoint (cf_Name cfg) (cf_Provide cfg)
    (fold_left (fun m p => <[prov_Service p := p]> m) (cf_Provide cfg) ∅)
    (cf_Consume cfg) None ∅.

Definition hello (e : Endpoint) : Hello :=
  mkHello (ep_name e)
    (map (fun p => mkProviderInfo (prov_Service p) (prov_MaxConcurrent p) (prov_Priority p)) (ep_provides e)).

Definition attach (c : option nat) (e : Endpoint) : Endpoint :=
  mkEndpoint (ep_name e) (ep_provides e) (ep_byName e) (ep_consumes e) c (ep_running e).

Definition connection (e : Endpoint) : option nat := ep_conn e.

Definition running (e : Endpoint) (service : string) : Z := default 0 (ep_running e !! service).

Definition set_running (service : string) (n : Z) (e : Endpoint) : Endpoint :=
  mkEndpoint (ep_name e) (ep_provides e) (ep_byName e) (ep_consumes e) (ep_conn e)
    (<[service := n]> (ep_running e)).

Definition take_slot (service : string) (slots : N) (e : Endpoint) : bool * Endpoint :=
  if Z.of_N slots <=? running e service then (false, e)
  else (true, set_running service (running e service + 1) e).

Definition give (service : string) (e : Endpoint) : Endpoint :=
  set_running service (running e service - 1) e.
