(* ===== verification/Announce.v ===== *)
(** From a configuration file to the server's pool: what [Parse] accepts is what
    [Endpoint.hello] announces, what the encoder carries and what [register]
    puts in the pool. *)

From S2P Require Import Prelude Bytes GoStrings Io Message Encode Decode WireFormat DecodeField DecodeFacts Codec Pool PoolFacts Register Queue Conn Conf ConfParse ConfSpec ConfBuild ConfTheorems Endpoint.
Local Open Scope N_scope.

(** ** What the endpoint keeps of its configuration *)
Lemma byName_fold ps (m : gmap string Provide) name :
  NoDup (prov_Service <$> ps) ->
  fold_left (fun m p => <[prov_Service p := p]> m) ps m !! name =
    match list_find (fun p => prov_Service p = name) ps with Some (_, p) => Some p | None => m !! name end.
Proof.
  revert m. induction ps as [|p ps IH]; intros m; simpl; [done|]. intros [Hp Hnd]%NoDup_cons. rewrite IH by done.
  case_decide as Hn.
  - subst name. destruct (list_find _ ps) as [[i q]|] eqn:E; simpl; [|by rewrite lookup_insert_eq].
    apply list_find_Some in E as (Hi & Hq & _). exfalso. apply Hp. rewrite <- Hq.
    apply list_elem_of_fmap. exists q. split; [done|]. by eapply list_elem_of_lookup_2.
  - destruct (list_find _ ps) as [[i q]|]; simpl; [done|]. by rewrite lookup_insert_ne.
Qed.

Lemma byName_own cfg p :
  NoDup (prov_Service <$> cf_Provide cfg) -> p ∈ cf_Provide cfg -> ep_byName (NewEndpoint cfg) !! prov_Service p = Some p.
Proof.
  intros Hnd Hp. simpl. rewrite byName_fold by done.
  destruct (list_find _ _) as [[i q]|] eqn:E.
  - apply list_find_Some in E as (Hi & Hq & _). f_equal.
    apply list_elem_of_lookup in Hp as [j Hj].
    assert (i = j) as ->; [|congruence].
    eapply (NoDup_lookup (prov_Service <$> cf_Provide cfg)); [done| |].
    + rewrite list_lookup_fmap, Hi. simpl. by rewrite Hq.
    + by rewrite list_lookup_fmap, Hj.
  - apply list_find_None in E. rewrite Forall_forall in E. by destruct (E p Hp).
Qed.

(** ** The announcement *)
Definition announcement (cfg : Conf) : Hello := hello (NewEndpoint cfg).

Lemma accepted_all seen infos :
  NoDup (info_Service <$> infos) -> (forall info, info ∈ infos -> info_Service info ∉ seen) -> accepted seen infos = infos.
Proof.
  revert seen. induction infos as [|info infos IH]; intros seen; simpl; [done|].
  intros [Hi Hnd]%NoDup_cons Hs. rewrite bool_decide_false by (apply Hs; by left). f_equal. apply IH; [done|].
  intros info' Hin [E|Hin']%elem_of_cons; [|by apply (Hs info'); [by right|]].
  apply Hi. rewrite <- E. by apply list_elem_of_fmap_2.
Qed.

Lemma announcement_services cfg : info_Service <$> hello_Providers (announcement cfg) = prov_Service <$> cf_Provide cfg.
Proof. unfold announcement, hello. simpl. by rewrite <- list_fmap_compose. Qed.

Lemma announcement_once cfg : valid_conf cfg -> NoDup (info_Service <$> hello_Providers (announcement cfg)).
Proof. intros Hv. rewrite announcement_services. apply Hv. Qed.

Lemma announcement_len cfg : len (hello_Providers (announcement cfg)) = len (cf_Provide cfg).
Proof. unfold announcement, hello, len. simpl. by rewrite length_map. Qed.

Lemma valid_name8 s : valid_name s -> name8_ok s = true.
Proof. intros (_ & Hl & Hv). unfold name8_ok, str8_ok. rewrite Hv. simpl. lia. Qed.

Lemma announcement_encodable cfg :
  valid_conf cfg -> encodable (MHello (announcement cfg)) = (len (cf_Provide cfg) <=? 255).
Proof.
  intros Hv. cbn [encodable]. rewrite announcement_len.
  replace (name8_ok _) with true by (symmetry; apply valid_name8, Hv).
  replace (forallb _ _) with true; [by rewrite andb_true_r|]. symmetry. apply forallb_forall.
  intros info Hin. apply in_map_iff in Hin as (p & <- & Hp%list_elem_of_In).
  pose proof (vf_provide _ Hv) as Hps. rewrite Forall_forall in Hps. destruct (Hps p Hp).
  unfold info_ok. simpl. rewrite valid_name8 by done. simpl. lia.
Qed.

Lemma announcement_typed cfg : valid_conf cfg -> typed_message (MHello (announcement cfg)).
Proof.
  intros Hv. simpl. apply Forall_fmap. eapply Forall_impl; [apply Hv|]. intros p []. split; simpl; [lia | done].
Qed.

(** A client's HELLO at the head of the stream is what the server's [hello] reads. *)
Lemma hello_reads {W} (w : W) h rest fin :
  well_formed (MHello h) ->
  exists conn, Conn.hello (newConn (mkStream (encoding (MHello h) ++ rest) fin) w RoleServer "") = (Ok h, conn).
Proof.
  intros Hw. unfold Conn.hello. simpl.
  pose proof (Next_reads (MHello h) (NewDecoder (mkStream rest fin) RoleServer) Hw eq_refl eq_refl) as Hn.
  unfold prepend, set_r in Hn. simpl in Hn. unfold NewDecoder in *. rewrite Hn. by eexists.
Qed.

(** ** From the file to the pool *)
Section Announce.
Context `{Environment} {T W : Type}.

(** C7. A configuration that parses is served whole: with at most 255 [provide]
    sections the HELLO made of it encodes, the server's [hello] reads it back as
    it was said, and [register] takes every announcement - one provider of each
    section's service, with its slots and priority, behind those already there,
    all of which [withdraw] takes out again.  The endpoint serves each announced
    service by the section that announced it.  With more sections the file is
    accepted all the same, and its HELLO is refused by the encoder. *)
Theorem announced_from_conf file data cfg :
  Parse file data = Ok cfg ->
  (forall p, p ∈ cf_Provide cfg -> ep_byName (NewEndpoint cfg) !! prov_Service p = Some p) /\
  if len (cf_Provide cfg) <=? 255 then
    exists bs, Encode [] (MHello (announcement cfg)) = (bs, None) /\
      (forall (w : W) rest fin, exists conn,
         Conn.hello (newConn (mkStream (bs ++ rest) fin) w RoleServer "") = (Ok (announcement cfg), conn)) /\
      forall (target : T) p, pool_inv p ->
        exists q new, register target (announcement cfg) p = Some (Ok new.*1, q) /\ pool_inv q /\
          new.*2 = map (fun s => mkProviderInfo (prov_Service s) (prov_MaxConcurrent s) (prov_Priority s)) (cf_Provide cfg) /\
          Forall (stands_for target (cf_Name cfg) q) new /\
          (forall name, providers q name = providers p name ++ of_service name new) /\
          forall (q' : Pool T) name a, pool_inv q' -> a ∈ new.*1 -> a ∉ providers (withdraw new.*1 q') name
  else exists e, Encode [] (MHello (announcement cfg)) = ([], Some e).
Proof.
  intros Hv%parse_ok_valid. split; [intros p; apply byName_own, Hv|].
  pose proof (announcement_encodable cfg Hv) as He.
  destruct (len (cf_Provide cfg) <=? 255); [|by apply Encode_refuses].
  exists (encoding (MHello (announcement cfg))). rewrite Encode_spec, He. split; [done|]. split.
  { intros w rest fin. apply hello_reads. split; [by apply announcement_typed | done]. }
  intros target p Hp.
  destruct (register_loop_spec target (hello_Name (announcement cfg)) [] [] (hello_Providers (announcement cfg)) p Hp)
    as (r & q & new & Hr & Hq & Hacc & Hpr & Hst & _ & _ & Hres).
  rewrite (accepted_all [] _ (announcement_once cfg Hv)) in Hacc, Hres by (by intros ? _ ?%elem_of_nil).
  destruct r as [added|e]; [|by destruct Hres]. destruct Hres as [_ ->].
  exists q, new. split_and!; [done..|]. intros q' name a Hq' Ha. by apply withdraw_clears.
Qed.

End Announce.

(** ** A server with one upstream *)
Lemma announced_from_conf_witness :
  exists cfg, Parse (H := demo_environment) "f" demo_server = Ok cfg /\
    announcement cfg = mkHello "box" [mkProviderInfo "llm" 3 100] /\
    (exists bs, Encode [] (MHello (announcement cfg)) = (bs, None)) /\
    exists q (new : list (nat * ProviderInfo)), register 7%nat (announcement cfg) (New 600) = Some (Ok new.*1, q) /\
      new.*2 = [mkProviderInfo "llm" 3 100].
Proof.
  eexists. split; [vm_compute; reflexivity|]. split; [reflexivity|].
  destruct (announced_from_conf (H := demo_environment) (T := nat) (W := list byte) "f" demo_server
    (match Parse (H := demo_environment) "f" demo_server with Ok c => c | Err _ => mkConf RoleNone "" "" [] "" 0 [] [] end))
    as [_ Ha]; [vm_compute; reflexivity|]. vm_compute Parse in Ha. cbn [N.leb len length cf_Provide N.of_nat N.compare] in Ha.
  destruct Ha as (bs & Hb & _ & Hr). split; [exists bs; exact Hb|].
  destruct (Hr 7%nat (New 600) (New_inv 600)) as (q & new & Hq & _ & Hn & _).
  exists q, new. split; [exact Hq | exact Hn].
Defined.
