(* ===== verification/Interact.v ===== *)
(** Interactive programs: a handler is an [itree] of the calls it makes, its
    traces are the calls with their answers, and a monitor is an automaton
    over them.  [ok t s Q]: every trace of [t] is accepted by the monitor from
    state [s], and a trace that ends leaves a state [Q] holds of. *)

From ITree Require Import ITree.
From S2P Require Import Prelude.

Declare Scope call_scope.
Delimit Scope call_scope with call.
Notation "'call!' x ':=' m 'in' k" := (Vis m (fun x => k))
  (at level 10, x pattern, m at level 100, k at level 200) : call_scope.
Definition seq {E : Type -> Type} {R U} (t : itree E R) (k : R -> itree E U) : itree E U := ITree.bind t k.
Notation "'do!' x ':=' m 'in' k" := (seq m (fun x => k))
  (at level 10, x pattern, m at level 100, k at level 200) : call_scope.

(** [defer m()] before the rest of a function. *)
Definition deferred {E : Type -> Type} {R} (m : itree E unit) (body : itree E R) : itree E R :=
  seq body (fun r => seq m (fun _ => Ret r)).

(** ** Conditions of monitors *)
Definition guard_ (b : bool) {A} (a : option A) : option A := if b then a else None.

Lemma guard_Some {A} b (a : option A) x : guard_ b a = Some x -> b = true /\ a = Some x.
Proof. by destruct b. Qed.

Ltac guards :=
  repeat match goal with
    | H : guard_ _ _ = Some _ |- _ => apply guard_Some in H as [? H]
    | H : Some _ = Some _ |- _ => injection H as H; subst
    | H : bool_decide _ = true |- _ => apply bool_decide_eq_true in H
    | H : _ && _ = true |- _ => apply andb_prop in H as [? ?]
    | H : _ /\ _ |- _ => destruct H as [? ?]
    end; try discriminate.

(** [decided] settles the conditions of a goal that hold by what is known. *)
Ltac decided :=
  repeat match goal with
    | |- context [@bool_decide ?P ?d] =>
        rewrite (@bool_decide_eq_true_2 P d) by (split_and?; eauto); cbn
    end.

Section Traces.
Context {E : Type -> Type}.

(** A call and its answer. *)
Inductive event : Type :=
  | Ev (X : Type) (e : E X) (x : X).

Arguments Ev {X}.

(** A trace of at most [n] steps: the events, and the result if the program
    returned; it may stop anywhere. *)
Inductive trace {R} : nat -> itree' E R -> list event -> option R -> Prop :=
  | trace_stop n ot : trace n ot [] None
  | trace_ret n r : trace n (RetF r) [] (Some r)
  | trace_tau n t l o : trace n (observe t) l o -> trace (S n) (TauF t) l o
  | trace_vis n X (e : E X) k x l o :
      trace n (observe (k x)) l o -> trace (S n) (VisF e k) (Ev e x :: l) o.

Definition traces {R} (t : itree E R) (l : list event) (o : option R) : Prop :=
  exists n, trace n (observe t) l o.

Lemma trace_inv {R} n (ot : itree' E R) l o :
  trace n ot l o ->
  match ot with
  | RetF r => l = [] /\ (o = None \/ o = Some r)
  | TauF t => (l = [] /\ o = None) \/ exists m, n = S m /\ trace m (observe t) l o
  | VisF e k => (l = [] /\ o = None) \/
      exists m x l', n = S m /\ l = Ev e x :: l' /\ trace m (observe (k x)) l' o
  end.
Proof. destruct 1 as [n [] |n r|n t l o H|n X e k x l o H]; eauto 10. Qed.

Lemma trace_more {R} n m (ot : itree' E R) l o : trace n ot l o -> (n <= m)%nat -> trace m ot l o.
Proof.
  intros H. revert m. induction H; intros [|m] Hm; try lia; try constructor; apply IHtrace; lia.
Qed.

(** ** Sequences *)
Lemma observe_bind {R U} (t : itree E R) (k : R -> itree E U) :
  observe (ITree.bind t k) =
    match observe t with
    | RetF r => observe (k r)
    | TauF t => TauF (ITree.bind t k)
    | VisF e h => VisF e (fun x => ITree.bind (h x) k)
    end.
Proof.
  transitivity (observe (match observe t with
    | RetF r => k r
    | TauF t => Tau (ITree.bind t k)
    | VisF e h => Vis e (fun x => ITree.bind (h x) k)
    end)); [reflexivity|]. by destruct (observe t).
Qed.

Lemma trace_bind {R U} n (t : itree E R) (k : R -> itree E U) l o :
  trace n (observe (ITree.bind t k)) l o ->
  (trace n (observe t) l None /\ o = None) \/
  exists r l1 l2 m, l = l1 ++ l2 /\ (m <= n)%nat /\ trace n (observe t) l1 (Some r) /\
    trace m (observe (k r)) l2 o.
Proof.
  revert t l. induction n as [n IH] using lt_wf_ind. intros t l H.
  rewrite observe_bind in H.
  destruct (observe t) as [r|t'|X e h].
  - right. exists r, [], l, n. split_and!; [done|done|constructor|done].
  - apply trace_inv in H as [[-> ->]|(m & -> & H)]; [left; split; [constructor|done]|].
    apply IH in H as [[H ->]|(r & l1 & l2 & m' & -> & Hm & H1 & H2)]; [| |lia].
    + left. split; [by constructor | done].
    + right. exists r, l1, l2, m'. split_and!; [done | lia | by constructor | done].
  - apply trace_inv in H as [[-> ->]|(m & x & l' & -> & -> & H)]; [left; split; [constructor|done]|].
    apply IH in H as [[H ->]|(r & l1 & l2 & m' & -> & Hm & H1 & H2)]; [| |lia].
    + left. split; [by constructor | done].
    + right. exists r, (Ev e x :: l1), l2, m'. split_and!; [done | lia | by constructor | done].
Qed.

Lemma bind_trace {R U} n m (t : itree E R) (k : R -> itree E U) l1 l2 r o :
  trace n (observe t) l1 (Some r) -> trace m (observe (k r)) l2 o ->
  trace (n + m) (observe (ITree.bind t k)) (l1 ++ l2) o.
Proof.
  remember (observe t) as ot eqn:Ht. remember (Some r) as or eqn:Hr. intros H Hk. revert t Ht.
  induction H as [n ot|n r'|n t' l o' H IH|n X e h x l o' H IH]; intros t0 Ht; [done| | |];
    rewrite observe_bind, <- Ht.
  - injection Hr as ->. simpl. eapply trace_more; [exact Hk | lia].
  - simpl. constructor. by apply (IH Hr t').
  - simpl. constructor. by apply (IH Hr (h x)).
Qed.

(** ** Monitors *)
Context {S : Type} (mon : forall X, E X -> X -> S -> option S).

Fixpoint run (l : list event) (s : S) : option S :=
  match l with
  | [] => Some s
  | Ev e x :: l => match mon _ e x s with Some s => run l s | None => None end
  end.

Lemma run_app l1 l2 s :
  run (l1 ++ l2) s = match run l1 s with Some s => run l2 s | None => None end.
Proof. revert s. induction l1 as [|[X e x] l1 IH]; intros s; simpl; [done|]. by destruct (mon X e x s). Qed.

Definition ok {R} (t : itree E R) (s : S) (Q : R -> S -> Prop) : Prop :=
  forall l o, traces t l o -> exists s', run l s = Some s' /\ forall r, o = Some r -> Q r s'.

Lemma ok_ret {R} (r : R) s (Q : R -> S -> Prop) : Q r s -> ok (Ret r) s Q.
Proof.
  intros HQ l o [n H]. simpl in H. apply trace_inv in H as [-> [->| ->]]; exists s; (split; [done|]); by intros ? [= <-].
Qed.

Lemma ok_bind {R U} (t : itree E R) (k : R -> itree E U) s P Q :
  ok t s P -> (forall r s', P r s' -> ok (k r) s' Q) -> ok (ITree.bind t k) s Q.
Proof.
  intros Ht Hk l o [n H]. apply trace_bind in H as [[H ->]|(r & l1 & l2 & m & -> & _ & H1 & H2)].
  - destruct (Ht l None) as (s' & Hr & _); [by exists n|]. by exists s'.
  - destruct (Ht l1 (Some r)) as (s' & Hr & HP); [by exists n|]. rewrite run_app, Hr.
    apply (Hk r s' (HP r eq_refl)). by exists m.
Qed.

Lemma ok_deferred {R} (m : itree E unit) (body : itree E R) s P Q :
  ok body s P -> (forall r s', P r s' -> ok m s' (fun _ => Q r)) -> ok (deferred m body) s Q.
Proof.
  intros Hb Hm. eapply ok_bind; [exact Hb|]. intros r s' HP.
  eapply ok_bind; [exact (Hm r s' HP)|]. intros [] s'' HQ. by apply ok_ret.
Qed.

(** A call: the monitor accepts every answer, and what follows it is fine. *)
Lemma ok_call {X R} (e : E X) (k : X -> itree E R) s Q :
  (forall x, exists s', mon X e x s = Some s' /\ ok (k x) s' Q) -> ok (Vis e k) s Q.
Proof.
  intros He l o [n H]. simpl in H. apply trace_inv in H as [[-> ->]|(m & x & l' & -> & -> & H)].
  - exists s. by split.
  - destruct (He x) as (s' & Hm & HQ). simpl. rewrite Hm. apply HQ. by exists m.
Qed.

Lemma ok_conseq {R} (t : itree E R) s (P Q : R -> S -> Prop) :
  ok t s P -> (forall r s', P r s' -> Q r s') -> ok t s Q.
Proof. intros Ht HPQ l o H. destruct (Ht l o H) as (s' & ? & HP). exists s'. split; [done|]. eauto. Qed.

(** A loop keeps its invariant, however often it turns. *)
Lemma ok_iter {I R} (f : I -> itree E (I + R)) (Inv : I -> S -> Prop) (Q : R -> S -> Prop) i s :
  (forall i s, Inv i s -> ok (f i) s (fun r s' => match r with inl i' => Inv i' s' | inr r => Q r s' end)) ->
  Inv i s -> ok (ITree.iter f i) s Q.
Proof.
  intros Hf HI l o [n H]. revert i s l HI H. induction n as [n IH] using lt_wf_ind. intros i s l HI H.
  assert (observe (ITree.iter f i) =
    observe (ITree.bind (f i) (fun r => match r with inl i => Tau (ITree.iter f i) | inr r => Ret r end)))
    as Hit by reflexivity.
  rewrite Hit in H.
  apply trace_bind in H as [[H ->]|(r & l1 & l2 & m & -> & Hm & H1 & H2)].
  - destruct (Hf i s HI l None) as (s' & Hr & _); [by exists n|]. by exists s'.
  - destruct (Hf i s HI l1 (Some r)) as (s' & Hr & HP); [by exists n|]. rewrite run_app, Hr.
    specialize (HP r eq_refl). destruct r as [i'|r]; simpl in H2.
    + apply trace_inv in H2 as [[-> ->]|(m' & -> & H2)]; [by exists s'|].
      apply (IH m' ltac:(lia) i' s' l2 HP H2).
    + apply trace_inv in H2 as [-> [->| ->]]; exists s'; (split; [done|]); by intros ? [= <-].
Qed.

End Traces.
Arguments event E : clear implicits.
Arguments Ev {E X} e x.

(** ** A run against one environment: [h] answers every call *)
Section Exec.
Context {E : Type -> Type} {S R : Type} (h : forall X, E X -> S -> X * S).

Fixpoint exec (fuel : nat) (t : itree E R) (s : S) : list (event E) * option R :=
  match fuel with
  | O => ([], None)
  | Datatypes.S fuel =>
      match observe t with
      | RetF r => ([], Some r)
      | TauF t => exec fuel t s
      | VisF e k =>
          let '(x, s) := h _ e s in
          let '(l, o) := exec fuel (k x) s in (Ev e x :: l, o)
      end
  end.

Lemma exec_traces fuel t s : traces t (exec fuel t s).1 (exec fuel t s).2.
Proof.
  exists fuel. revert t s. induction fuel as [|fuel IH]; intros t s; [constructor|]. cbn [exec].
  destruct (observe t) as [r|t'|X e k]; [constructor | by constructor; apply IH |].
  destruct (h X e s) as [x s']. specialize (IH (k x) s'). destruct (exec fuel (k x) s') as [l o].
  by constructor.
Qed.
End Exec.

(** ** A run to the end against one environment

    [runs t s r s']: answered by [h] from state [s], the program returns [r] and
    leaves [s'].  A program for which this holds terminates. *)
Section Runs.
Context {E : Type -> Type} {S : Type} (h : forall X, E X -> S -> X * S).

Inductive runs_to {R} : itree' E R -> S -> R -> S -> Prop :=
  | runs_to_ret r s : runs_to (RetF r) s r s
  | runs_to_tau t s r s' : runs_to (observe t) s r s' -> runs_to (TauF t) s r s'
  | runs_to_vis X (e : E X) k s r s' :
      runs_to (observe (k (h X e s).1)) (h X e s).2 r s' -> runs_to (VisF e k) s r s'.

Definition runs {R} (t : itree E R) (s : S) (r : R) (s' : S) : Prop := runs_to (observe t) s r s'.

Lemma runs_ret {R} (r : R) s : runs (Ret r) s r s.
Proof. constructor. Qed.

Lemma runs_call {X R} (e : E X) (k : X -> itree E R) s x s1 r s' :
  h X e s = (x, s1) -> runs (k x) s1 r s' -> runs (Vis e k) s r s'.
Proof. intros He H. apply (runs_to_vis X e k). by rewrite He. Qed.

Lemma runs_bind {R U} (t : itree E R) (k : R -> itree E U) s r s1 u s2 :
  runs t s r s1 -> runs (k r) s1 u s2 -> runs (ITree.bind t k) s u s2.
Proof.
  unfold runs. remember (observe t) as ot eqn:Ht. intros H Hk. revert t Ht.
  induction H as [r s|t' s r s' H IH|X e k' s r s' H IH]; intros t Ht; rewrite observe_bind, <- Ht; [done| |].
  - constructor. by apply (IH Hk t').
  - constructor. by apply (IH Hk (k' _)).
Qed.

Lemma runs_deferred {R} (m : itree E unit) (body : itree E R) s r s1 s2 :
  runs body s r s1 -> runs m s1 tt s2 -> runs (deferred m body) s r s2.
Proof. intros Hb Hm. eapply runs_bind; [exact Hb|]. eapply runs_bind; [exact Hm | apply runs_ret]. Qed.

Lemma runs_iter {I R} (f : I -> itree E (I + R)) i s x s1 r s2 :
  runs (f i) s x s1 ->
  match x with inl i' => runs (ITree.iter f i') s1 r s2 | inr r' => r' = r /\ s1 = s2 end ->
  runs (ITree.iter f i) s r s2.
Proof.
  intros Hf Hx. assert (observe (ITree.iter f i) =
    observe (ITree.bind (f i) (fun r => match r with inl i => Tau (ITree.iter f i) | inr r => Ret r end)))
    as Hit by reflexivity.
  unfold runs. rewrite Hit. eapply runs_bind; [exact Hf|]. destruct x as [i'|r'].
  - by constructor.
  - destruct Hx as [-> ->]. apply runs_ret.
Qed.

Lemma runs_exec {R} (t : itree E R) s r s' : runs t s r s' -> exists fuel, (exec h fuel t s).2 = Some r.
Proof.
  unfold runs. remember (observe t) as ot eqn:Ht. intros H. revert t Ht.
  induction H as [r s|t' s r s' H IH|X e k' s r s' H IH]; intros t Ht.
  - exists 1%nat. simpl. by rewrite <- Ht.
  - destruct (IH t' eq_refl) as [n Hn]. exists (Datatypes.S n). simpl. by rewrite <- Ht.
  - destruct (IH _ eq_refl) as [n Hn]. exists (Datatypes.S n). simpl. rewrite <- Ht.
    destruct (h X e s) as [x s1]. simpl in Hn. by destruct (exec h n (k' x) s1).
Qed.

(** ** Programs that never return *)
Definition spins {R} (t : itree E R) (s : S) : Prop := forall fuel, (exec h fuel t s).2 = None.

Lemma exec_step {R} fuel (t : itree E R) s :
  (exec h (Datatypes.S fuel) t s).2 =
    match observe t with
    | RetF r => Some r
    | TauF t => (exec h fuel t s).2
    | VisF e k => (exec h fuel (k (h _ e s).1) (h _ e s).2).2
    end.
Proof.
  simpl. destruct (observe t) as [r|t'|X e k]; [done..|].
  destruct (h X e s) as [x s1]. simpl. by destruct (exec h fuel (k x) s1).
Qed.

(** After a part that returns comes one that does not, for at most [n] steps. *)
Lemma exec_after {R U} n (t : itree E R) (k : R -> itree E U) s r s1 :
  runs t s r s1 -> (forall m, (m <= n)%nat -> (exec h m (k r) s1).2 = None) -> (exec h n (ITree.bind t k) s).2 = None.
Proof.
  unfold runs. remember (observe t) as ot eqn:Ht. intros H. revert n t Ht.
  induction H as [r s|t' s r s' H IH|X e k' s r s' H IH]; intros n t Ht Hk;
    (destruct n as [|n]; [done|]); rewrite exec_step, observe_bind, <- Ht.
  - specialize (Hk (Datatypes.S n) ltac:(lia)). by rewrite exec_step in Hk.
  - apply (IH n t' eq_refl). intros m Hm. apply Hk. lia.
  - apply (IH n _ eq_refl). intros m Hm. apply Hk. lia.
Qed.

Lemma spins_after {R U} (t : itree E R) (k : R -> itree E U) s r s1 :
  runs t s r s1 -> spins (k r) s1 -> spins (ITree.bind t k) s.
Proof. intros Ht Hk n. eapply exec_after; [exact Ht | intros m _; apply Hk]. Qed.

Lemma spins_bind {R U} (t : itree E R) (k : R -> itree E U) s : spins t s -> spins (ITree.bind t k) s.
Proof.
  intros Ht n. revert t s Ht. induction n as [|n IH]; intros t s Ht; [done|].
  rewrite exec_step, observe_bind. destruct (observe t) as [r|t'|X e k'] eqn:Eo.
  - specialize (Ht 1%nat). by rewrite exec_step, Eo in Ht.
  - apply IH. intros m. specialize (Ht (Datatypes.S m)). by rewrite exec_step, Eo in Ht.
  - apply IH. intros m. specialize (Ht (Datatypes.S m)). by rewrite exec_step, Eo in Ht.
Qed.

Lemma spins_call {X R} (e : E X) (k : X -> itree E R) s x s1 :
  h X e s = (x, s1) -> spins (k x) s1 -> spins (Vis e k) s.
Proof. intros He Hk [|n]; [done|]. rewrite exec_step. simpl. rewrite He. apply Hk. Qed.

Lemma spins_iter {I R} (f : I -> itree E (I + R)) (Inv : I -> S -> Prop) i s :
  (forall i s, Inv i s -> exists i' s', runs (f i) s (inl i') s' /\ Inv i' s') -> Inv i s -> spins (ITree.iter f i) s.
Proof.
  intros Hf HI n. revert i s HI. induction n as [n IH] using lt_wf_ind. intros i s HI.
  destruct (Hf i s HI) as (i' & s' & Hr & HI').
  assert (forall m, exec h m (ITree.iter f i) s = exec h m
    (ITree.bind (f i) (fun r => match r with inl i => Tau (ITree.iter f i) | inr r => Ret r end)) s) as ->
    by (by intros [|m]).
  eapply exec_after; [exact Hr|]. intros [|m] Hm; [done|]. rewrite exec_step. simpl. apply IH; [lia | done].
Qed.
End Runs.
