(* ===== verification/Session.v ===== *)
(** The life of a session, at both ends: internal/peer/client.go, the session
    side of internal/peer/server.go and endpoint.go, and the goroutines of
    internal/peer/conn.go.

    Each function is the tree of the calls it makes.  Sockets, listeners and
    connections are addresses; what a call on a connection, the pool or the wire
    does is defined in Conn.v, Register.v and Record.v.  A goroutine is started
    by an event that names it, and has a tree of its own.  Logging is left out. *)

From ITree Require Import ITree.
From S2P Require Import Prelude Bytes Message Conf Conn Endpoint Interact.
Local Open Scope call_scope.
Local Open Scope Z_scope.

(** What runs the jobs the other side starts. *)
Inductive serveFunc : Type := ServeRelay | ServeProvide.
#[export] Instance serveFunc_eq_dec : EqDecision serveFunc.
Proof. solve_decision. Defined.

Inductive goroutine : Type :=
  | GoFailWhenDone (c : nat)
  | GoPong (c : nat)
  | GoPing (c : nat)
  | GoServePort (service : string) (l : nat)
  | GoCloseWhenDone (l : nat)
  | GoAccept (raw : nat)
  | GoSelfServer (remote : nat)
  | GoSelfClient (local : nat).

Inductive sessE : Type -> Type :=
  (* sockets *)
  | SListen (address : string) : sessE (result string nat)
  | SAccept (l : nat) : sessE (result string nat)
  | SCloseListener (l : nat) : sessE unit
  | SCloseServer (l : nat) : sessE unit              (* the http.Server on it *)
  | SDial (address : string) : sessE (result string nat)
  | SPipe : sessE (nat * nat)
  | SDeadline (raw : nat) (idle : bool) : sessE unit (* idleTimeout from now, or none *)
  | SHandshake (raw : nat) (secret : list byte) (initiator : bool) : sessE (result wire_error unit)
  | SCloseRaw (raw : nat) : sessE unit
  (* connections *)
  | SNewConn (raw : nat) (role : Role) (peer : string) : sessE nat
  | SReadHello (c : nat) : sessE (result conn_error Hello)
  | SSetPeer (c : nat) (name : string) : sessE unit
  | SSend (c : nat) (m : Message) : sessE (option conn_error)
  | SReadTurn (c : nat) (serve : serveFunc) : sessE (result conn_error unit)   (* Conn.run_turn *)
  | SFail (c : nat) (e : conn_error) : sessE unit
  (* the pool, and the list SIGUSR1 prints *)
  | SRegister (c : nat) (h : Hello) : sessE (result string (list nat))
  | SRemove (a : nat) : sessE unit
  | SAddPeer (c : nat) : sessE unit
  | SRemovePeer (c : nat) : sessE unit
  (* the endpoint *)
  | SAttach (c : option nat) : sessE unit
  (* contexts, time and goroutines *)
  | SCtxErr : sessE bool
  | SCtxWait : sessE unit                            (* <-ctx.Done() *)
  | SStop : sessE unit                               (* the context's cancel *)
  | SWakePong (c : nat) : sessE bool                 (* a PING to answer, or the context's end *)
  | STick : sessE bool                               (* pingEvery has passed, or the context's end *)
  | STimer (d : Z) : sessE bool                      (* the timer, or the context's end *)
  | SInt63 : sessE Z
  | SGo (g : goroutine) : sessE unit.

Abbreviation sess_m := (itree sessE).

(** ** internal/peer/conn.go: the goroutines of a connection *)
Definition Close_conn (c : nat) : sess_m unit := call! _ := SFail c ErrClosed in Ret tt.

Definition fail_when_done (c : nat) : sess_m unit :=
  call! _ := SCtxWait in
  call! _ := SFail c (CtxEnded "context canceled") in Ret tt.

(** [pong] *)
Definition pong (c : nat) : sess_m unit :=
  ITree.iter (fun _ =>
    call! asked := SWakePong c in
    if (asked : bool) then
      call! e := SSend c MPong in
      match e with Some _ => Ret (inr tt) | None => Ret (inl tt) end
    else Ret (inr tt)) tt.

(** [ping] *)
Definition ping (c : nat) : sess_m unit :=
  ITree.iter (fun _ =>
    call! ticked := STick in
    if (ticked : bool) then
      call! e := SSend c MPing in
      match e with Some _ => Ret (inr tt) | None => Ret (inl tt) end
    else Ret (inr tt)) tt.

(** [run]: returns only when the connection has ended. *)
Definition run_conn (c : nat) (serve : serveFunc) : sess_m conn_error :=
  deferred (call! _ := SStop in Ret tt) (
    call! _ := SGo (GoFailWhenDone c) in
    call! _ := SGo (GoPong c) in
    ITree.iter (fun _ =>
      call! r := SReadTurn c serve in
      match r with Ok _ => Ret (inl tt) | Err e => Ret (inr e) end) tt).

(** ** internal/peer/endpoint.go *)
Inductive run_error : Type :=
  | ListenErr (address why : string)
  | ConsumeErr (service why : string)
  | AcceptErr (why : string).

(** [Close]: the HTTP servers, then their listeners. *)
Fixpoint close_servers (ports : list nat) : sess_m unit :=
  match ports with
  | [] => Ret tt
  | l :: ports => call! _ := SCloseServer l in close_servers ports
  end.
Fixpoint close_listeners (ports : list nat) : sess_m unit :=
  match ports with
  | [] => Ret tt
  | l :: ports => call! _ := SCloseListener l in close_listeners ports
  end.
Definition Endpoint_Close (ports : list nat) : sess_m unit :=
  do! _ := close_servers ports in close_listeners ports.

(** [Start]: the ports opened, which [Close] shuts. *)
Fixpoint open_ports (cs : list Consume) (ports : list nat) : sess_m (result run_error (list nat)) :=
  match cs with
  | [] => Ret (Ok ports)
  | s :: cs =>
      call! r := SListen (cons_Listen s) in
      match r with
      | Err e =>
          do! _ := Endpoint_Close ports in
          Ret (Err (ConsumeErr (cons_Service s) e))
      | Ok l =>
          call! _ := SGo (GoServePort (cons_Service s) l) in
          open_ports cs (ports ++ [l])
      end
  end.
Definition Endpoint_Start (cfg : Conf) : sess_m (result run_error (list nat)) := open_ports (cf_Consume cfg) [].

(** [Serve] *)
Definition Endpoint_Serve (cfg : Conf) (c : nat) : sess_m conn_error :=
  call! e := SSend c (MHello (hello (NewEndpoint cfg))) in
  match e with
  | Some e => Ret e
  | None =>
      call! _ := SAttach (Some c) in
      deferred (call! _ := SAttach None in Ret tt)
        (deferred (Close_conn c) (run_conn c ServeProvide))
  end.

(** ** internal/peer/client.go *)
Definition second : Z := 1000000000.
Definition backoffFirst : Z := second.
Definition backoffLongest : Z := 60 * second.

(** [rand.Int63n]: the generator's number, brought into range. *)
Definition Int63n (n : Z) : sess_m Z := call! v := SInt63 in Ret (v mod n).

Definition jitter (d : Z) : sess_m Z :=
  do! extra := Int63n (Z.quot d 2 + 1) in Ret (Z.quot d 2 + extra).

Definition sleep (d : Z) : sess_m bool := call! woken := STimer d in Ret woken.

Inductive session_error : Type :=
  | DialErr (why : string)
  | HandshakeErr (e : wire_error)
  | ConnErr (e : conn_error).

Definition session (cfg : Conf) : sess_m (bool * session_error) :=
  call! r := SDial (cf_Server cfg) in
  match r with
  | Err e => Ret (false, DialErr e)
  | Ok raw =>
      deferred (call! _ := SCloseRaw raw in Ret tt) (
        call! _ := SDeadline raw true in
        call! h := SHandshake raw (cf_Secret cfg) true in
        match h with
        | Err e => Ret (false, HandshakeErr e)
        | Ok _ =>
            call! _ := SDeadline raw false in
            call! c := SNewConn raw RoleClient (cf_Server cfg) in
            do! e := Endpoint_Serve cfg c in
            Ret (true, ConnErr e)
        end)
  end.

(** One turn of [Run]'s loop. *)
Definition client_turn (cfg : Conf) (backoff : Z) : sess_m (Z + option run_error) :=
  call! ended := SCtxErr in
  if (ended : bool) then Ret (inr None)
  else
    do! (connected, _) := session cfg in
    call! ended := SCtxErr in
    if (ended : bool) then Ret (inr None)
    else
      let backoff := if (connected : bool) then backoffFirst else backoff in
      do! d := jitter backoff in
      do! woken := sleep d in
      if negb woken then Ret (inr None)
      else Ret (inl (Z.min (backoff * 2) backoffLongest)).

Definition Client_Run (cfg : Conf) : sess_m (option run_error) :=
  do! r := Endpoint_Start cfg in
  match r with
  | Err e => Ret (Some e)
  | Ok ports => deferred (Endpoint_Close ports) (ITree.iter (client_turn cfg) backoffFirst)
  end.

(** ** internal/peer/server.go *)

(** The loop [handle] defers. *)
Fixpoint remove_all (added : list nat) : sess_m unit :=
  match added with
  | [] => Ret tt
  | a :: added => call! _ := SRemove a in remove_all added
  end.

Definition handle (c : nat) : sess_m unit :=
  deferred (Close_conn c) (
    call! h := SReadHello c in
    match h with
    | Err _ => Ret tt
    | Ok h =>
        call! _ := SSetPeer c (hello_Name h) in
        call! r := SRegister c h in
        match r with
        | Err _ => Ret tt
        | Ok providers =>
            deferred (remove_all providers) (
              call! _ := SAddPeer c in
              deferred (call! _ := SRemovePeer c in Ret tt) (
                deferred (call! _ := SStop in Ret tt) (
                  call! _ := SGo (GoPing c) in
                  do! _ := run_conn c ServeRelay in
                  Ret tt)))
        end
    end).

Definition accept (cfg : Conf) (raw : nat) : sess_m unit :=
  call! _ := SDeadline raw true in
  call! h := SHandshake raw (cf_Secret cfg) false in
  match h with
  | Err _ => call! _ := SCloseRaw raw in Ret tt
  | Ok _ =>
      call! _ := SDeadline raw false in
      deferred (call! _ := SCloseRaw raw in Ret tt) (
        call! c := SNewConn raw RoleServer "" in handle c)
  end.

(** The two goroutines of [serveSelf]. *)
Definition self_server (remote : nat) : sess_m unit :=
  deferred (call! _ := SCloseRaw remote in Ret tt) (
    call! c := SNewConn remote RoleServer "" in handle c).

Definition self_client (cfg : Conf) (local : nat) : sess_m unit :=
  deferred (call! _ := SCloseRaw local in Ret tt) (
    call! c := SNewConn local RoleClient (cf_Name cfg) in
    do! _ := Endpoint_Serve cfg c in Ret tt).

Definition serveSelf (cfg : Conf) : sess_m unit :=
  match cf_Provide cfg, cf_Consume cfg with
  | [], [] => Ret tt
  | _, _ =>
      call! (local, remote) := SPipe in
      call! _ := SGo (GoSelfServer remote) in
      call! _ := SGo (GoSelfClient local) in Ret tt
  end.

Definition close_when_done (l : nat) : sess_m unit :=
  call! _ := SCtxWait in
  call! _ := SCloseListener l in Ret tt.

Definition Server_Run (cfg : Conf) : sess_m (option run_error) :=
  call! r := SListen (cf_Listen cfg) in
  match r with
  | Err e => Ret (Some (ListenErr (cf_Listen cfg) e))
  | Ok l =>
      deferred (call! _ := SCloseListener l in Ret tt) (
        do! r := Endpoint_Start cfg in
        match r with
        | Err e => Ret (Some e)
        | Ok ports =>
            deferred (Endpoint_Close ports) (
              do! _ := serveSelf cfg in
              call! _ := SGo (GoCloseWhenDone l) in
              ITree.iter (fun _ =>
                call! r := SAccept l in
                match r with
                | Err e =>
                    call! ended := SCtxErr in
                    Ret (inr (if (ended : bool) then None else Some (AcceptErr e)))
                | Ok raw => call! _ := SGo (GoAccept raw) in Ret (inl tt)
                end) tt)
        end)
  end.

(** What each goroutine runs; the HTTP server on a port is Go's, and calls
    [consume] of Consume.v. *)
Definition goroutine_body (cfg : Conf) (g : goroutine) : sess_m unit :=
  match g with
  | GoFailWhenDone c => fail_when_done c
  | GoPong c => pong c
  | GoPing c => ping c
  | GoServePort _ _ => Ret tt
  | GoCloseWhenDone l => close_when_done l
  | GoAccept raw => accept cfg raw
  | GoSelfServer remote => self_server remote
  | GoSelfClient local => self_client cfg local
  end.

(** ** The consume ports, whatever watches

    [st ports servers] is the automaton's state with these listeners open and
    HTTP servers on these of them. *)
Section Ports.
Context {S : Type} (mon : forall X, sessE X -> X -> S -> option S) (cfg : Conf) (st : list nat -> list nat -> S).
Context (opens : forall ports x r, cf_Consume cfg !! length ports = Some x ->
  mon _ (SListen (cons_Listen x)) r (st ports ports) =
    Some (match r with Ok l => st (ports ++ [l]) ports | Err _ => st ports ports end)).
Context (serves : forall ports x l, cf_Consume cfg !! length ports = Some x ->
  mon _ (SGo (GoServePort (cons_Service x) l)) tt (st (ports ++ [l]) ports) = Some (st (ports ++ [l]) (ports ++ [l]))).
Context (stops : forall ports l servers, mon _ (SCloseServer l) tt (st ports (l :: servers)) = Some (st ports servers)).
Context (closes : forall l ports, mon _ (SCloseListener l) tt (st (l :: ports) []) = Some (st ports [])).

Lemma ok_close_servers ports servers : ok mon (close_servers servers) (st ports servers) (fun _ s => s = st ports []).
Proof. induction servers as [|l servers IH]; [by apply ok_ret|]. apply ok_call. intros []. eauto. Qed.

Lemma ok_close_listeners ports : ok mon (close_listeners ports) (st ports []) (fun _ s => s = st [] []).
Proof. induction ports as [|l ports IH]; [by apply ok_ret|]. apply ok_call. intros []. eauto. Qed.

Lemma ok_Close ports : ok mon (Endpoint_Close ports) (st ports ports) (fun _ s => s = st [] []).
Proof. eapply ok_bind; [apply ok_close_servers|]. intros [] s ->. apply ok_close_listeners. Qed.

(** The error names a port that was to be opened. *)
Definition not_opened (e : run_error) : Prop :=
  exists x why, x ∈ cf_Consume cfg /\ e = ConsumeErr (cons_Service x) why.

Lemma ok_open_ports before cs ports :
  cf_Consume cfg = before ++ cs -> length ports = length before ->
  ok mon (open_ports cs ports) (st ports ports)
    (fun r s => match r with
      | Ok ports => length ports = length (cf_Consume cfg) /\ s = st ports ports
      | Err e => not_opened e /\ s = st [] []
      end).
Proof.
  revert before ports. induction cs as [|x cs IH]; intros before ports Hcs Hl; cbn [open_ports].
  - apply ok_ret. split; [by rewrite Hcs, app_nil_r | done].
  - assert (cf_Consume cfg !! length ports = Some x) as Hx by (by rewrite Hcs, Hl, list_lookup_middle).
    apply ok_call. intros r. eexists. split; [by apply opens|]. destruct r as [l|e].
    + apply ok_call. intros []. eexists. split; [by apply serves|].
      apply (IH (before ++ [x])); [by rewrite <- app_assoc | by rewrite !length_app, Hl].
    + eapply ok_bind; [apply ok_Close|]. intros [] s ->. apply ok_ret. split; [|done].
      exists x, e. split; [by eapply list_elem_of_lookup_2 | done].
Qed.

Lemma ok_Start :
  ok mon (Endpoint_Start cfg) (st [] [])
    (fun r s => match r with
      | Ok ports => length ports = length (cf_Consume cfg) /\ s = st ports ports
      | Err e => not_opened e /\ s = st [] []
      end).
Proof. by apply (ok_open_ports []). Qed.

End Ports.
