(* ===== verification/ClientSpec.v ===== *)
(** What a client promises about the sessions it keeps, as an automaton over the
    calls of [Client_Run], and the proof that it keeps to it. *)

From ITree Require Import ITree.
From S2P Require Import Prelude Bytes Message Conf Conn Endpoint Interact Session.
Local Open Scope Z_scope.

(** ** The automaton *)

(** How far the one session of a client is. *)
Inductive client_phase : Type :=
  | Apart
  | Dialled (raw : nat)
  | Timed (raw : nat)               (* with a deadline *)
  | Shaken (raw : nat)              (* the handshake is done *)
  | Untimed (raw : nat)             (* and the deadline lifted *)
  | Made (raw c : nat)              (* a connection, HELLO not yet said *)
  | Announced (raw c : nat)
  | Attached (raw c : nat)          (* consumers submit on it *)
  | Ended (raw c : nat)             (* the connection is closed *)
  | Over (raw : nat).
#[export] Instance client_phase_eq_dec : EqDecision client_phase.
Proof. solve_decision. Defined.

Record client_state : Type := mkClient {
  cl_ports : list nat;              (* listeners open *)
  cl_servers : list nat;            (* HTTP servers on them *)
  cl_phase : client_phase;
  cl_waits : nat;                   (* waits since a session was last made *)
  cl_ended : bool;                  (* the daemon is known to be stopping *)
}.

Definition client_start : client_state := mkClient [] [] Apart 0 false.

Definition on_ports (ports servers : list nat) (s : client_state) : client_state :=
  mkClient ports servers (cl_phase s) (cl_waits s) (cl_ended s).
Definition on_phase (ph : client_phase) (s : client_state) : client_state :=
  mkClient (cl_ports s) (cl_servers s) ph (cl_waits s) (cl_ended s).
Definition on_waits (n : nat) (s : client_state) : client_state :=
  mkClient (cl_ports s) (cl_servers s) (cl_phase s) n (cl_ended s).
Definition on_ended (b : bool) (s : client_state) : client_state :=
  mkClient (cl_ports s) (cl_servers s) (cl_phase s) (cl_waits s) (cl_ended s || b).

(** The longest wait after [n] waits without a session between. *)
Definition wait (n : nat) : Z := Z.min (2 ^ Z.of_nat n * second) backoffLongest.

Definition head_is (x : nat) (l : list nat) : bool := bool_decide (head l = Some x).

Section Monitor.
Context (cfg : Conf).

Definition client_listen (a : string) (r : result string nat) (s : client_state) : option client_state :=
  guard_ (bool_decide (cl_phase s = Apart /\ cl_ports s = cl_servers s /\
            cons_Listen <$> cf_Consume cfg !! length (cl_ports s) = Some a))
    (Some (match r with Ok l => on_ports (cl_ports s ++ [l]) (cl_servers s) s | Err _ => s end)).

Definition client_go (g : goroutine) (s : client_state) : option client_state :=
  match g with
  | GoServePort service l =>
      guard_ (bool_decide (cl_ports s = cl_servers s ++ [l] /\
                cons_Service <$> cf_Consume cfg !! length (cl_servers s) = Some service))
        (Some (on_ports (cl_ports s) (cl_ports s) s))
  | GoFailWhenDone c | GoPong c =>
      match cl_phase s with Attached _ c' => guard_ (bool_decide (c = c')) (Some s) | _ => None end
  | _ => None
  end.

Definition client_mon (X : Type) (e : sessE X) : X -> client_state -> option client_state :=
  match e in sessE X return X -> client_state -> option client_state with
  | SListen a => client_listen a
  | SGo g => fun _ => client_go g
  | SCloseServer l => fun _ s =>
      guard_ (bool_decide (cl_phase s = Apart) && head_is l (cl_servers s)) (Some (on_ports (cl_ports s) (tail (cl_servers s)) s))
  | SCloseListener l => fun _ s =>
      guard_ (bool_decide (cl_phase s = Apart /\ cl_servers s = []) && head_is l (cl_ports s))
        (Some (on_ports (tail (cl_ports s)) [] s))
  | SDial a => fun r s =>
      guard_ (bool_decide (cl_phase s = Apart /\ a = cf_Server cfg /\ cl_ended s = false /\
                length (cl_servers s) = length (cf_Consume cfg)))
        (Some (match r with Ok raw => on_phase (Dialled raw) s | Err _ => s end))
  | SDeadline raw idle => fun _ s =>
      guard_ (bool_decide (cl_phase s = if (idle : bool) then Dialled raw else Shaken raw))
        (Some (on_phase (if idle then Timed raw else Untimed raw) s))
  | SHandshake raw secret initiator => fun r s =>
      guard_ (bool_decide (cl_phase s = Timed raw /\ secret = cf_Secret cfg /\ initiator = true))
        (Some (match r with Ok _ => on_phase (Shaken raw) s | Err _ => on_phase (Over raw) s end))
  | SNewConn raw role peer => fun c s =>
      guard_ (bool_decide (cl_phase s = Untimed raw /\ role = RoleClient /\ peer = cf_Server cfg))
        (Some (on_waits 0 (on_phase (Made raw c) s)))
  | SSend c m => fun r s =>
      match cl_phase s with
      | Made raw c' =>
          guard_ (bool_decide (c = c' /\ m = MHello (hello (NewEndpoint cfg))))
            (Some (match r with None => on_phase (Announced raw c) s | Some _ => on_phase (Over raw) s end))
      | _ => None
      end
  | SAttach a => fun _ s =>
      match cl_phase s, a with
      | Announced raw c, Some c' => guard_ (bool_decide (c' = c)) (Some (on_phase (Attached raw c) s))
      | Ended raw _, None => Some (on_phase (Over raw) s)
      | _, _ => None
      end
  | SReadTurn c serve => fun _ s =>
      match cl_phase s with
      | Attached _ c' => guard_ (bool_decide (c = c' /\ serve = ServeProvide)) (Some s)
      | _ => None
      end
  | SFail c e => fun _ s =>
      match cl_phase s with
      | Attached raw c' => guard_ (bool_decide (c = c' /\ e = ErrClosed)) (Some (on_phase (Ended raw c) s))
      | _ => None
      end
  | SCloseRaw raw => fun _ s =>
      guard_ (bool_decide (cl_phase s = Over raw)) (Some (on_phase Apart s))
  | SCtxErr => fun ended s => guard_ (bool_decide (cl_phase s = Apart)) (Some (on_ended ended s))
  | SStop => fun _ s => match cl_phase s with Attached _ _ => Some s | _ => None end
  | SInt63 => fun _ s => Some s
  | STimer d => fun woken s =>
      guard_ (bool_decide (cl_phase s = Apart /\ cl_ended s = false) &&
              (Z.quot (wait (cl_waits s)) 2 <=? d) && (d <=? wait (cl_waits s)))
        (Some (on_ended (negb woken) (on_waits (S (cl_waits s)) s)))
  | _ => fun _ _ => None
  end.

Abbreviation mon := client_mon.

(** Settles one call: the automaton's condition, then its next state. *)
Ltac accept := eexists; split; [cbn; unfold client_listen, client_go, head_is; decided; reflexivity|].
Ltac invoke r := apply ok_call; intros r; accept.

(** The state between two sessions, with every port open. *)
Definition apart (ports : list nat) (n : nat) (s : client_state) : Prop :=
  s = mkClient ports ports Apart n false.

(** ** The session *)
Lemma run_conn_ok s raw c :
  cl_phase s = Attached raw c -> ok mon (run_conn c ServeProvide) s (fun _ s' => s' = s).
Proof.
  destruct s as [ports servers ph n ended]. simpl. intros ->.
  eapply ok_deferred with (P := fun _ s => s = mkClient ports servers (Attached raw c) n ended).
  - invoke r1. invoke r2. apply (ok_iter mon _ (fun _ s => s = mkClient ports servers (Attached raw c) n ended)); [|done].
    intros [] s ->. apply ok_call. intros [[]|e]; accept; by apply ok_ret.
  - intros e s ->. invoke r. by apply ok_ret.
Qed.

Lemma Serve_ok ports raw c n ended :
  ok mon (Endpoint_Serve cfg c) (mkClient ports ports (Made raw c) n ended)
    (fun _ s => s = mkClient ports ports (Over raw) n ended).
Proof.
  apply ok_call. intros [e|]; accept; [by apply ok_ret|]. invoke r.
  eapply ok_deferred with (P := fun _ s => s = mkClient ports ports (Ended raw c) n ended).
  - eapply ok_deferred; [by eapply run_conn_ok|]. intros e s ->. invoke r'. by apply ok_ret.
  - intros e s ->. invoke r'. by apply ok_ret.
Qed.

Lemma session_ok ports n :
  length ports = length (cf_Consume cfg) ->
  ok mon (session cfg) (mkClient ports ports Apart n false)
    (fun r s => s = mkClient ports ports Apart (if (r.1 : bool) then 0%nat else n) false).
Proof.
  intros Hp. apply ok_call. intros [raw|e]; accept; [|by apply ok_ret].
  eapply ok_deferred with (P := fun r s => s = mkClient ports ports (Over raw) (if (r.1 : bool) then 0%nat else n) false).
  - invoke r1. apply ok_call. intros [[]|e]; accept; [|by apply ok_ret]. invoke r2. invoke c.
    eapply ok_bind; [apply Serve_ok|]. intros e s ->. by apply ok_ret.
  - intros r s ->. invoke r'. by apply ok_ret.
Qed.

(** ** The waits *)
Lemma wait_next n : Z.min (wait n * 2) backoffLongest = wait (S n).
Proof. unfold wait. rewrite Nat2Z.inj_succ, Z.pow_succ_r by lia. unfold backoffLongest, second. lia. Qed.

Lemma wait_bounds n : second <= wait n <= backoffLongest.
Proof. unfold wait, backoffLongest, second. pose proof (Z.pow_pos_nonneg 2 (Z.of_nat n)). lia. Qed.

Lemma half_wait n : second / 2 <= Z.quot (wait n) 2.
Proof.
  pose proof (wait_bounds n) as [H _]. rewrite Z.quot_div_nonneg by (unfold second in H; lia).
  apply Z.div_le_mono; [done | exact H].
Qed.

Lemma jitter_ok s d Q :
  0 < d -> (forall w, Z.quot d 2 <= w <= d -> Q w s) -> ok mon (jitter d) s Q.
Proof.
  intros Hd HQ. eapply (ok_bind _ _ _ _ (fun extra s' => s' = s /\ 0 <= extra <= Z.quot d 2)).
  - invoke v. apply ok_ret. split; [done|]. rewrite Z.quot_div_nonneg by lia.
    pose proof (Z.mod_pos_bound v (d / 2 + 1)). pose proof (Z.div_pos d 2). lia.
  - intros extra s' [-> Hb]. apply ok_ret. apply HQ. rewrite Z.quot_div_nonneg in * by lia.
    pose proof (Z.mul_div_le d 2). lia.
Qed.

Lemma turn_ok ports n :
  length ports = length (cf_Consume cfg) ->
  ok mon (client_turn cfg (wait n)) (mkClient ports ports Apart n false)
    (fun r s => match r with
      | inl b => exists n', b = wait n' /\ s = mkClient ports ports Apart n' false
      | inr r => exists n', r = None /\ s = mkClient ports ports Apart n' true
      end).
Proof.
  intros Hp. apply ok_call. intros [|]; accept; [apply ok_ret; by exists n|].
  eapply ok_bind; [by apply session_ok|]. intros [connected err] s ->. cbn [fst].
  set (n' := if connected then 0%nat else n).
  assert ((if connected then backoffFirst else wait n) = wait n') as Hw by (by destruct connected).
  apply ok_call. intros [|]; accept; [apply ok_ret; by exists n'|]. cbv zeta. rewrite Hw.
  pose proof (wait_bounds n') as Hb. eapply ok_bind.
  { apply (jitter_ok _ _ (fun w s => s = mkClient ports ports Apart n' false /\ Z.quot (wait n') 2 <= w <= wait n')).
    - unfold second in Hb. lia.
    - intros w Hr. split; [done | exact Hr]. }
  intros w s [-> Hr]. eapply (ok_bind _ _ _ _ (fun woken s => s = mkClient ports ports Apart (S n') (negb woken))).
  - apply ok_call. intros woken. eexists. split; [|by apply ok_ret]. cbn [client_mon cl_phase cl_ended cl_waits].
    rewrite bool_decide_true by done. rewrite (proj2 (Z.leb_le _ _) (proj1 Hr)), (proj2 (Z.leb_le _ _) (proj2 Hr)). done.
  - intros [|] s ->; apply ok_ret; [|by exists (S n')]. exists (S n'). by rewrite wait_next.
Qed.

(** ** The ports *)
Definition with_ports (ph : client_phase) (n : nat) (ended : bool) (ports servers : list nat) : client_state :=
  mkClient ports servers ph n ended.

Ltac port_rules :=
  intros; unfold with_ports; cbn; unfold client_listen, head_is; cbn; decided; done.

Lemma client_Close_ok ports n ended :
  ok mon (Endpoint_Close ports) (mkClient ports ports Apart n ended) (fun _ s => s = mkClient [] [] Apart n ended).
Proof. apply (ok_Close mon (with_ports Apart n ended)); port_rules. Qed.

Lemma client_Start_ok n ended :
  ok mon (Endpoint_Start cfg) (mkClient [] [] Apart n ended)
    (fun r s => match r with
      | Ok ports => length ports = length (cf_Consume cfg) /\ s = mkClient ports ports Apart n ended
      | Err e => not_opened cfg e /\ s = mkClient [] [] Apart n ended
      end).
Proof.
  apply (ok_Start mon cfg (with_ports Apart n ended)); try port_rules;
    intros ports x r Hx; unfold with_ports; cbn; unfold client_listen; cbn; rewrite Hx; by decided.
Qed.

(** ** The whole run *)
Definition client_over (r : option run_error) (s : client_state) : Prop :=
  cl_ports s = [] /\ cl_servers s = [] /\ cl_phase s = Apart /\
  match r with None => cl_ended s = true | Some e => not_opened cfg e end.

Lemma Run_ok : ok mon (Client_Run cfg) client_start client_over.
Proof.
  eapply ok_bind; [apply client_Start_ok|]. intros [ports|e] s Hs; [|destruct Hs as [He ->]; apply ok_ret; by repeat split].
  destruct Hs as [Hl ->].
  eapply ok_deferred with (P := fun r s => exists n, r = None /\ s = mkClient ports ports Apart n true).
  - apply (ok_iter mon _ (fun b s => exists n, b = wait n /\ s = mkClient ports ports Apart n false)).
    + intros b s (n & -> & ->). by apply turn_ok.
    + by exists 0%nat.
  - intros r s (n & -> & ->). eapply ok_conseq; [apply client_Close_ok|]. intros [] s ->. by repeat split.
Qed.

(** ** The length of every wait *)
Definition wait_ok (ev : event sessE) : Prop :=
  match ev with
  | Ev e x => match e with STimer d => second / 2 <= d <= backoffLongest | _ => True end
  end.

Lemma mon_waits l s s' : run mon l s = Some s' -> Forall wait_ok l.
Proof.
  revert s. induction l as [|[X e x] l IH]; intros s; [constructor|]. cbn [run].
  destruct (client_mon X e x s) as [s1|] eqn:E; [|done]. intros H. constructor; [|by eapply IH].
  destruct e; try exact I. cbn in E. guards. pose proof (wait_bounds (cl_waits s)). pose proof (half_wait (cl_waits s)). simpl. lia.
Qed.

(** C10. A client keeps one session at a time, and keeps trying.  Every run opens
    the consume ports in the order of the configuration before it dials, and
    closes all it opened before it returns.  Each session dials the configured
    server, is given a deadline until the handshake with the configured secret
    is done, says HELLO first, is what consumers submit on only from then until
    its connection is closed, and gives its socket back before the next.  Run
    returns an error only when a port cannot be opened, and otherwise only when
    the daemon stops.  Between sessions it waits: after the k-th failure in a
    row between half and all of 2^(k-1) seconds, never more than 60 seconds nor less
    than half of one, and starting over once a session was made. *)
Theorem client_keeps_contract l o :
  traces (Client_Run cfg) l o ->
  Forall wait_ok l /\
  exists s, run mon l client_start = Some s /\ forall r, o = Some r -> client_over r s.
Proof.
  intros (s & Hr & Ho)%Run_ok. split; [by eapply mon_waits | by exists s].
Qed.

End Monitor.

(** ** A client whose server is down, then up, until the daemon stops *)
Record world : Type := mkWorld {
  wd_dials : list (result string nat);
  wd_ctx : list bool;                (* what the context answers *)
}.

Definition wd_next {A} (dflt : A) (l : list A) : A * list A :=
  match l with [] => (dflt, []) | a :: l => (a, l) end.

Definition answers_of (X : Type) (e : sessE X) (w : world) : X * world :=
  match e in sessE X return X * world with
  | SListen _ => (Ok 9%nat, w)
  | SAccept _ => (Err "closed"%string, w)
  | SDial _ => let '(r, l) := wd_next (Err "refused"%string) (wd_dials w) in (r, mkWorld l (wd_ctx w))
  | SPipe => ((1, 2)%nat, w)
  | SHandshake _ _ _ => (Ok tt, w)
  | SNewConn _ _ _ => (5%nat, w)
  | SReadHello _ => (Err ErrClosed, w)
  | SSend _ _ => (None, w)
  | SReadTurn _ _ => (Err ErrClosed, w)
  | SRegister _ _ => (Ok [], w)
  | SCtxErr => let '(b, l) := wd_next true (wd_ctx w) in (b, mkWorld (wd_dials w) l)
  | SWakePong _ => (false, w)
  | STick => (false, w)
  | STimer _ => (true, w)
  | SInt63 => (700, w)
  | SCloseListener _ | SCloseServer _ | SDeadline _ _ | SCloseRaw _ | SSetPeer _ _ | SFail _ _ | SRemove _
  | SAddPeer _ | SRemovePeer _ | SAttach _ | SCtxWait | SStop | SGo _ => (tt, w)
  end.

Definition demo_client : Conf :=
  mkConf RoleIsClient "" "h:7420" [] "box" 1 [mkConsume "llm" ":80"] [].
Definition demo_run : list (event sessE) * option (option run_error) :=
  exec answers_of 200 (Client_Run demo_client) (mkWorld [Err "refused"; Ok 3%nat]%string [false; false; false; false; true]).

Lemma client_keeps_contract_witness :
  omap (fun ev => match ev with Ev e x => match e with STimer d => Some d | _ => None end end) demo_run.1
    = [500000700; 500000700] /\
  Forall wait_ok demo_run.1 /\
  exists s, run (client_mon demo_client) demo_run.1 client_start = Some s /\ client_over demo_client None s.
Proof.
  split; [vm_compute; reflexivity|].
  destruct (client_keeps_contract demo_client demo_run.1 demo_run.2) as (Hw & s & Hr & Ho); [apply exec_traces|].
  split; [exact Hw|]. exists s. split; [exact Hr | apply Ho; vm_compute; reflexivity].
Defined.
