(* ===== verification/SessionSpec.v ===== *)
(** What the server promises about one connection, from the socket it accepts to
    the last provider it takes out of the pool, as an automaton over the calls of
    [accept], and the proof that it keeps to it. *)

From ITree Require Import ITree.
From S2P Require Import Prelude Bytes Message Conf Conn Interact Session.

(** ** The automaton *)
Inductive peer_stage : Type :=
  | Untrusted                       (* no handshake yet *)
  | Trusted
  | Silent (c : nat)                (* a connection, no HELLO read *)
  | Greeted (c : nat) (h : Hello)
  | Named (c : nat) (h : Hello)
  | Pooled (c : nat)                (* its providers are in the pool *)
  | Listed (c : nat)
  | Running (c : nat)               (* the read loop runs *)
  | Dropped (c : nat)               (* off the list *)
  | Refused (c : nat)
  | Shut.                           (* the connection is closed *)
#[export] Instance peer_stage_eq_dec : EqDecision peer_stage.
Proof. solve_decision. Defined.

Record peer_state : Type := mkPeer {
  pe_stage : peer_stage;
  pe_pool : list nat;               (* providers it has to take out *)
  pe_idle : bool;                   (* a deadline is set *)
  pe_open : bool;                   (* the socket *)
}.

Definition peer_start : peer_state := mkPeer Untrusted [] false true.

Definition at_stage (st : peer_stage) (s : peer_state) : peer_state := mkPeer st (pe_pool s) (pe_idle s) (pe_open s).

Section Monitor.
Context (secret : list byte) (raw : nat).

Definition peer_handshake (raw' : nat) (secret' : list byte) (initiator : bool) (r : result wire_error unit)
    (s : peer_state) : option peer_state :=
  guard_ (bool_decide (pe_stage s = Untrusted /\ raw' = raw /\ secret' = secret /\ initiator = false /\ pe_idle s = true))
    (Some (match r with Ok _ => at_stage Trusted s | Err _ => at_stage Shut s end)).

Definition peer_register (c : nat) (h : Hello) (r : result string (list nat)) (s : peer_state) : option peer_state :=
  guard_ (bool_decide (pe_stage s = Named c h))
    (Some (match r with
           | Ok added => mkPeer (Pooled c) added (pe_idle s) (pe_open s)
           | Err _ => at_stage (Refused c) s
           end)).

(** The connection is closed by the last deferred call, its providers gone. *)
Definition peer_fail (c : nat) (e : conn_error) (s : peer_state) : option peer_state :=
  guard_ (bool_decide (e = ErrClosed /\ pe_pool s = []) &&
          match pe_stage s with
          | Silent c' | Refused c' | Dropped c' => bool_decide (c = c')
          | _ => false
          end) (Some (at_stage Shut s)).

Definition peer_remove (a : nat) (s : peer_state) : option peer_state :=
  match pe_stage s, pe_pool s with
  | Dropped _, b :: rest => guard_ (bool_decide (a = b)) (Some (mkPeer (pe_stage s) rest (pe_idle s) (pe_open s)))
  | _, _ => None
  end.

Definition peer_mon (X : Type) (e : sessE X) : X -> peer_state -> option peer_state :=
  match e in sessE X return X -> peer_state -> option peer_state with
  | SDeadline raw' idle => fun _ s =>
      guard_ (bool_decide (raw' = raw /\ pe_stage s = if (idle : bool) then Untrusted else Trusted))
        (Some (mkPeer (pe_stage s) (pe_pool s) idle (pe_open s)))
  | SHandshake raw' secret' initiator => peer_handshake raw' secret' initiator
  | SNewConn raw' role peer => fun c s =>
      guard_ (bool_decide (pe_stage s = Trusted /\ pe_idle s = false /\ raw' = raw /\ role = RoleServer))
        (Some (at_stage (Silent c) s))
  | SReadHello c => fun r s =>
      guard_ (bool_decide (pe_stage s = Silent c))
        (Some (match r with Ok h => at_stage (Greeted c h) s | Err _ => s end))
  | SSetPeer c name => fun _ s =>
      match pe_stage s with
      | Greeted c' h => guard_ (bool_decide (c = c' /\ name = hello_Name h)) (Some (at_stage (Named c h) s))
      | _ => None
      end
  | SRegister c h => peer_register c h
  | SAddPeer c => fun _ s => guard_ (bool_decide (pe_stage s = Pooled c)) (Some (at_stage (Listed c) s))
  | SGo g => fun _ s =>
      match g with
      | GoPing c => guard_ (bool_decide (pe_stage s = Listed c)) (Some (at_stage (Running c) s))
      | GoPong c | GoFailWhenDone c => guard_ (bool_decide (pe_stage s = Running c)) (Some s)
      | _ => None
      end
  | SReadTurn c serve => fun _ s =>
      guard_ (bool_decide (pe_stage s = Running c /\ serve = ServeRelay)) (Some s)
  | SStop => fun _ s => match pe_stage s with Running _ => Some s | _ => None end
  | SRemovePeer c => fun _ s => guard_ (bool_decide (pe_stage s = Running c)) (Some (at_stage (Dropped c) s))
  | SRemove a => fun _ => peer_remove a
  | SFail c e => fun _ => peer_fail c e
  | SCloseRaw raw' => fun _ s =>
      guard_ (bool_decide (raw' = raw /\ pe_stage s = Shut /\ pe_open s = true))
        (Some (mkPeer Shut (pe_pool s) (pe_idle s) false))
  | _ => fun _ _ => None
  end.

Abbreviation mon := peer_mon.
Ltac accept := eexists; split; [cbn; unfold peer_handshake, peer_register, peer_fail, peer_remove; cbn; decided; reflexivity|].
Ltac invoke r := apply ok_call; intros r; accept.

(** ** The connection *)
Lemma read_loop_ok c pool :
  ok mon (run_conn c ServeRelay) (mkPeer (Running c) pool false true) (fun _ s => s = mkPeer (Running c) pool false true).
Proof.
  eapply ok_deferred with (P := fun _ s => s = mkPeer (Running c) pool false true).
  - invoke r1. invoke r2. apply (ok_iter mon _ (fun _ s => s = mkPeer (Running c) pool false true)); [|done].
    intros [] s ->. apply ok_call. intros [[]|e]; accept; by apply ok_ret.
  - intros e s ->. invoke r. by apply ok_ret.
Qed.

Lemma remove_all_ok c pool :
  ok mon (remove_all pool) (mkPeer (Dropped c) pool false true) (fun _ s => s = mkPeer (Dropped c) [] false true).
Proof. induction pool as [|a pool IH]; [by apply ok_ret|]. invoke r. exact IH. Qed.

(** Its providers are in the pool and on the list exactly while it runs. *)
Lemma pooled_ok c pool :
  ok mon
    (deferred (remove_all pool)
      (Vis (SAddPeer c) (fun _ =>
        deferred (Vis (SRemovePeer c) (fun _ => Ret tt))
          (deferred (Vis SStop (fun _ => Ret tt))
            (Vis (SGo (GoPing c)) (fun _ => seq (run_conn c ServeRelay) (fun _ => Ret tt)))))))
    (mkPeer (Pooled c) pool false true) (fun _ s => s = mkPeer (Dropped c) [] false true).
Proof.
  eapply ok_deferred with (P := fun _ s => s = mkPeer (Dropped c) pool false true);
    [|intros [] s ->; apply remove_all_ok].
  invoke r1. eapply ok_deferred with (P := fun _ s => s = mkPeer (Running c) pool false true).
  - eapply ok_deferred with (P := fun _ s => s = mkPeer (Running c) pool false true).
    + invoke r2. eapply ok_bind; [apply read_loop_ok|]. intros e s ->. by apply ok_ret.
    + intros [] s ->. invoke r3. by apply ok_ret.
  - intros [] s ->. invoke r4. by apply ok_ret.
Qed.

Lemma handle_ok c :
  ok mon (handle c) (mkPeer (Silent c) [] false true) (fun _ s => s = mkPeer Shut [] false true).
Proof.
  eapply ok_deferred with (P := fun _ s => pe_pool s = [] /\ pe_idle s = false /\ pe_open s = true /\
    (pe_stage s = Silent c \/ pe_stage s = Refused c \/ pe_stage s = Dropped c)).
  - apply ok_call. intros [h|e]; accept; [|apply ok_ret; split_and!; simpl; by auto]. invoke r1.
    apply ok_call. intros [pool|e]; accept; [|apply ok_ret; split_and!; simpl; by auto].
    eapply ok_conseq; [apply pooled_ok|]. intros [] s ->. split_and!; simpl; by auto.
  - intros [] [st pool idle op] (Hp & Hi & Ho & Hs). simpl in *. subst.
    destruct Hs as [-> |[-> | ->]]; invoke r; by apply ok_ret.
Qed.

(** ** [accept] *)
Lemma accept_ok cfg :
  cf_Secret cfg = secret -> ok mon (accept cfg raw) peer_start (fun _ s => s = mkPeer Shut [] (pe_idle s) false).
Proof.
  intros Hk. invoke r1. apply ok_call. intros [[]|e].
  - eexists. split; [cbn; unfold peer_handshake; rewrite Hk; by decided|]. invoke r2.
    eapply ok_deferred with (P := fun _ s => s = mkPeer Shut [] false true).
    + invoke c. apply handle_ok.
    + intros [] s ->. invoke r3. by apply ok_ret.
  - eexists. split; [cbn; unfold peer_handshake; rewrite Hk; by decided|]. invoke r2. by apply ok_ret.
Qed.

End Monitor.

(** The providers a session was given, and those it took out of the pool. *)
Definition registered_event (ev : event sessE) : option (list nat) :=
  match ev with
  | Ev e x =>
      match e in sessE X return X -> option (list nat) with
      | SRegister _ _ => fun r => match r with Ok added => Some added | Err _ => None end
      | _ => fun _ => None
      end x
  end.
Definition registered (l : list (event sessE)) : list nat := concat (omap registered_event l).

Definition removed_event (ev : event sessE) : option nat :=
  match ev with Ev e x => match e with SRemove a => Some a | _ => None end end.
Definition removed (l : list (event sessE)) : list nat := omap removed_event l.

Lemma registered_cons ev l : registered (ev :: l) = default [] (registered_event ev) ++ registered l.
Proof. unfold registered. simpl. by destruct (registered_event ev). Qed.
Lemma removed_cons ev l : removed (ev :: l) = option_list (removed_event ev) ++ removed l.
Proof. unfold removed. simpl. by destruct (removed_event ev). Qed.

(** Only a session that has registered has anything to take out. *)
Definition owes_nothing_early (s : peer_state) : Prop :=
  match pe_stage s with Pooled _ | Listed _ | Running _ | Dropped _ => True | _ => pe_pool s = [] end.

Lemma mon_removed secret raw X (e : sessE X) x s s' :
  peer_mon secret raw X e x s = Some s' -> owes_nothing_early s ->
  owes_nothing_early s' /\
  pe_pool s ++ default [] (registered_event (Ev e x)) = option_list (removed_event (Ev e x)) ++ pe_pool s'.
Proof.
  unfold owes_nothing_early. destruct s as [st pool idle op], e; try done; cbn; intros H Ho; rewrite ?app_nil_r;
    unfold peer_handshake, peer_register, peer_fail, peer_remove in H; cbn in H.
  all: try (destruct g; try done).
  all: destruct st; guards; simpl in *; simplify_eq; try done.
  all: try (destruct x; simpl; rewrite ?app_nil_r; done).
  destruct pool; [done|]. guards. by subst.
Qed.

Lemma run_removed secret raw l s s' :
  run (peer_mon secret raw) l s = Some s' -> owes_nothing_early s ->
  pe_pool s ++ registered l = removed l ++ pe_pool s'.
Proof.
  revert s. induction l as [|[X e x] l IH]; intros s; cbn [run].
  { intros [= ->] _. by rewrite app_nil_r. }
  destruct (peer_mon secret raw X e x s) as [s1|] eqn:E; [|done]. intros Hr Ho.
  apply mon_removed in E as [Ho1 E]; [|done]. specialize (IH s1 Hr Ho1).
  rewrite registered_cons, removed_cons, app_assoc, E, <- !app_assoc. by rewrite IH.
Qed.

(** C8. What a session puts in the pool it takes out, and it runs jobs only in
    between.  Whatever the network answers, [accept] sets a deadline before the
    handshake and lifts it only when the handshake with the configured secret is
    done; nothing is read of a peer before, no job before its HELLO was read, its
    name set, its upstreams registered and the peer listed.  The providers are
    removed once each, in the order they were added, after the read loop; and
    when [accept] returns none is left, the peer is off the list, the connection
    is closed if there was one, and the socket is closed. *)
Theorem accept_keeps_contract cfg raw l o :
  traces (accept cfg raw) l o ->
  exists s, run (peer_mon (cf_Secret cfg) raw) l peer_start = Some s /\
    registered l = removed l ++ pe_pool s /\
    (o = Some tt -> pe_stage s = Shut /\ pe_open s = false /\ removed l = registered l).
Proof.
  intros Ht. destruct (accept_ok (cf_Secret cfg) raw cfg eq_refl l o Ht) as (s & Hr & Ho).
  exists s. split; [done|]. pose proof (run_removed _ _ _ _ _ Hr eq_refl) as He. simpl in He. split; [done|].
  intros ->. specialize (Ho tt eq_refl). rewrite Ho in He |- *. split_and!; [done..|]. simpl in He. by rewrite app_nil_r in He.
Qed.

(** ** A client with two upstreams that stays for one message *)
Definition demo_peer (X : Type) (e : sessE X) (u : unit) : X * unit :=
  match e in sessE X return X * unit with
  | SListen _ => (Ok 9%nat, u)
  | SAccept _ | SDial _ => (Err "closed"%string, u)
  | SPipe => ((1, 2)%nat, u)
  | SHandshake _ _ _ => (Ok tt, u)
  | SNewConn _ _ _ => (5%nat, u)
  | SReadHello _ => (Ok (mkHello "box" [mkProviderInfo "llm" 1 100; mkProviderInfo "tts" 1 100]), u)
  | SSend _ _ => (None, u)
  | SReadTurn _ _ => (Err ErrClosed, u)
  | SRegister _ _ => (Ok [10; 11]%nat, u)
  | SCtxErr => (false, u)
  | SWakePong _ => (false, u)
  | STick => (false, u)
  | STimer _ => (true, u)
  | SInt63 => (0%Z, u)
  | SCloseListener _ | SCloseServer _ | SDeadline _ _ | SCloseRaw _ | SSetPeer _ _ | SFail _ _ | SRemove _
  | SAddPeer _ | SRemovePeer _ | SAttach _ | SCtxWait | SStop | SGo _ => (tt, u)
  end.
Definition demo_listener : Conf := mkConf RoleIsServer ":7420" "" [] "box" 1 [] [].
Definition demo_accept : list (event sessE) * option unit := exec demo_peer 100 (accept demo_listener 3) tt.

Lemma accept_keeps_contract_witness :
  removed demo_accept.1 = [10; 11]%nat /\
  exists s, run (peer_mon [] 3) demo_accept.1 peer_start = Some s /\ pe_stage s = Shut /\ pe_open s = false /\
    removed demo_accept.1 = registered demo_accept.1.
Proof.
  split; [vm_compute; reflexivity|].
  destruct (accept_keeps_contract demo_listener 3 demo_accept.1 demo_accept.2) as (s & Hr & _ & Ho); [apply exec_traces|].
  exists s. split; [exact Hr | apply Ho; vm_compute; reflexivity].
Defined.
