(* ===== verification/ServerSpec.v ===== *)
(** What the server promises about its listening socket, its consume ports and
    its own sections, as an automaton over the calls of [Server_Run], and the
    proof that it keeps to it. *)

From ITree Require Import ITree.
From S2P Require Import Prelude Bytes Message Conf Conn Interact Session.

(** ** The automaton *)
Inductive server_stage : Type :=
  | Unopened
  | Opened (l : nat)                       (* listening; the ports are being opened *)
  | Piped (l local remote : nat)           (* a pipe for its own sections *)
  | Half (l local : nat)                   (* whose server end has its goroutine *)
  | OwnServed (l : nat)
  | Accepting (l : nat)
  | Failed (l : nat)                       (* a failed Accept *)
  | Closed.
#[export] Instance server_stage_eq_dec : EqDecision server_stage.
Proof. solve_decision. Defined.

Record server_state : Type := mkServer {
  sv_stage : server_stage;
  sv_ports : list nat;
  sv_servers : list nat;
  sv_socket : option nat;                  (* accepted, with no goroutine yet *)
  sv_ended : bool;
}.

Definition server_start : server_state := mkServer Unopened [] [] None false.

Section Monitor.
Context (cfg : Conf).

Definition to_stage (st : server_stage) (s : server_state) : server_state :=
  mkServer st (sv_ports s) (sv_servers s) (sv_socket s) (sv_ended s).
Definition to_ports (ports servers : list nat) (s : server_state) : server_state :=
  mkServer (sv_stage s) ports servers (sv_socket s) (sv_ended s).
Definition to_socket (raw : option nat) (s : server_state) : server_state :=
  mkServer (sv_stage s) (sv_ports s) (sv_servers s) raw (sv_ended s).

Definition has_sections : bool := match cf_Provide cfg, cf_Consume cfg with [], [] => false | _, _ => true end.

(** Every consume port is open and served. *)
Definition all_open (s : server_state) : bool := bool_decide (length (sv_servers s) = length (cf_Consume cfg)).

Definition server_listen (a : string) (r : result string nat) (s : server_state) : option server_state :=
  match sv_stage s with
  | Unopened => guard_ (bool_decide (a = cf_Listen cfg)) (Some (match r with Ok l => to_stage (Opened l) s | Err _ => s end))
  | Opened _ =>
      guard_ (bool_decide (sv_ports s = sv_servers s /\ cons_Listen <$> cf_Consume cfg !! length (sv_ports s) = Some a))
        (Some (match r with Ok l => to_ports (sv_ports s ++ [l]) (sv_servers s) s | Err _ => s end))
  | _ => None
  end.

Definition server_go (g : goroutine) (s : server_state) : option server_state :=
  match g, sv_stage s with
  | GoServePort service l, Opened _ =>
      guard_ (bool_decide (sv_ports s = sv_servers s ++ [l] /\
                cons_Service <$> cf_Consume cfg !! length (sv_servers s) = Some service))
        (Some (to_ports (sv_ports s) (sv_ports s) s))
  | GoSelfServer remote, Piped l local remote' => guard_ (bool_decide (remote = remote')) (Some (to_stage (Half l local) s))
  | GoSelfClient local, Half l local' => guard_ (bool_decide (local = local')) (Some (to_stage (OwnServed l) s))
  | GoCloseWhenDone l, Opened l' => guard_ (bool_decide (l = l') && negb has_sections) (Some (to_stage (Accepting l) s))
  | GoCloseWhenDone l, OwnServed l' => guard_ (bool_decide (l = l')) (Some (to_stage (Accepting l) s))
  | GoAccept raw, Accepting _ => guard_ (bool_decide (sv_socket s = Some raw)) (Some (to_socket None s))
  | _, _ => None
  end.

Definition server_close (l : nat) (s : server_state) : option server_state :=
  match sv_stage s, sv_ports s, sv_servers s with
  | (Opened l' | Failed l'), [], [] => guard_ (bool_decide (l = l')) (Some (to_stage Closed s))
  | (Opened _ | Failed _), p :: ports, [] => guard_ (bool_decide (l = p)) (Some (to_ports ports [] s))
  | _, _, _ => None
  end.

Definition server_mon (X : Type) (e : sessE X) : X -> server_state -> option server_state :=
  match e in sessE X return X -> server_state -> option server_state with
  | SListen a => server_listen a
  | SGo g => fun _ => server_go g
  | SPipe => fun ends s =>
      match sv_stage s with
      | Opened l => guard_ (has_sections && all_open s) (Some (to_stage (Piped l ends.1 ends.2) s))
      | _ => None
      end
  | SAccept l => fun r s =>
      guard_ (bool_decide (sv_stage s = Accepting l /\ sv_socket s = None) && all_open s)
        (Some (match r with Ok raw => to_socket (Some raw) s | Err _ => to_stage (Failed l) s end))
  | SCtxErr => fun ended s =>
      match sv_stage s with
      | Failed _ => Some (mkServer (sv_stage s) (sv_ports s) (sv_servers s) (sv_socket s) (sv_ended s || ended))
      | _ => None
      end
  | SCloseServer l => fun _ s =>
      match sv_stage s, sv_servers s with
      | (Opened _ | Failed _), p :: servers => guard_ (bool_decide (l = p)) (Some (to_ports (sv_ports s) servers s))
      | _, _ => None
      end
  | SCloseListener l => fun _ => server_close l
  | _ => fun _ _ => None
  end.

Abbreviation mon := server_mon.
Ltac accept := eexists; split; [cbn; unfold server_listen, server_go, server_close, all_open; cbn; decided; reflexivity|].
Ltac invoke r := apply ok_call; intros r; accept.

Definition with_ports (stage : server_stage) (ended : bool) (ports servers : list nat) : server_state :=
  mkServer stage ports servers None ended.

Ltac port_rules := intros; unfold with_ports; cbn; unfold server_close; cbn; decided; done.

Lemma server_Close_ok stage ports ended :
  match stage with Opened _ | Failed _ => True | _ => False end ->
  ok mon (Endpoint_Close ports) (with_ports stage ended ports ports) (fun _ s => s = with_ports stage ended [] []).
Proof. intros Hst. apply (ok_Close mon (with_ports stage ended)); destruct stage; try done; port_rules. Qed.

Lemma server_Start_ok l ended :
  ok mon (Endpoint_Start cfg) (with_ports (Opened l) ended [] [])
    (fun r s => match r with
      | Ok ports => length ports = length (cf_Consume cfg) /\ s = with_ports (Opened l) ended ports ports
      | Err e => not_opened cfg e /\ s = with_ports (Opened l) ended [] []
      end).
Proof.
  apply (ok_Start mon cfg (with_ports (Opened l) ended)); try port_rules;
    intros ports x r Hx; unfold with_ports; cbn; unfold server_listen; cbn; rewrite Hx; by decided.
Qed.

Lemma serveSelf_ok l ports :
  length ports = length (cf_Consume cfg) ->
  ok mon (serveSelf cfg) (with_ports (Opened l) false ports ports)
    (fun _ s => s = with_ports (if has_sections then OwnServed l else Opened l) false ports ports).
Proof.
  intros Hl. unfold serveSelf, has_sections.
  assert (has_sections = true ->
    ok mon (Vis SPipe (fun '(local, remote) => Vis (SGo (GoSelfServer remote)) (fun _ =>
      Vis (SGo (GoSelfClient local)) (fun _ => Ret tt)))) (with_ports (Opened l) false ports ports)
      (fun _ s => s = with_ports (OwnServed l) false ports ports)) as Hgo.
  { intros Hs. apply ok_call. intros [local remote]. eexists. split; [cbn; unfold all_open; rewrite Hs; cbn; by decided|].
    invoke r1. invoke r2. by apply ok_ret. }
  unfold has_sections in Hgo. destruct (cf_Provide cfg), (cf_Consume cfg); try by apply Hgo. by apply ok_ret.
Qed.

(** ** The whole run *)
Definition server_over (r : option run_error) (s : server_state) : Prop :=
  sv_ports s = [] /\ sv_servers s = [] /\ sv_socket s = None /\
  (sv_stage s = Closed \/ sv_stage s = Unopened) /\ (r = None -> sv_ended s = true).

Lemma accept_loop_ok l ports :
  length ports = length (cf_Consume cfg) ->
  ok mon (ITree.iter (fun _ =>
      Vis (SAccept l) (fun r => match r with
        | Err e => Vis SCtxErr (fun ended : bool => Ret (inr (if ended then None else Some (AcceptErr e))))
        | Ok raw => Vis (SGo (GoAccept raw)) (fun _ => Ret (inl tt))
        end)) tt)
    (with_ports (Accepting l) false ports ports)
    (fun r s => exists ended, s = with_ports (Failed l) ended ports ports /\ (r = None -> ended = true)).
Proof.
  intros Hl. apply (ok_iter mon _ (fun _ s => s = with_ports (Accepting l) false ports ports)); [|done].
  intros [] s ->. apply ok_call. intros [raw|e]; accept.
  - invoke r. by apply ok_ret.
  - apply ok_call. intros ended; accept. apply ok_ret. exists ended. split; [done|]. by destruct ended.
Qed.

Lemma Server_Run_ok : ok mon (Server_Run cfg) server_start server_over.
Proof.
  apply ok_call. intros [l|e]; accept; [|apply ok_ret; repeat split; by auto].
  eapply ok_deferred with (P := fun r s => exists st ended, s = with_ports st ended [] [] /\
    (st = Opened l \/ st = Failed l) /\ (r = None -> ended = true)).
  - eapply ok_bind; [apply server_Start_ok|]. intros [ports|e] s Hs; [|destruct Hs as [_ ->]; apply ok_ret; repeat eexists; by auto].
    destruct Hs as [Hl ->].
    eapply ok_deferred with (P := fun r s => exists ended, s = with_ports (Failed l) ended ports ports /\ (r = None -> ended = true)).
    + eapply ok_bind; [by apply serveSelf_ok|]. intros [] s ->.
      apply ok_call. intros []. eexists. split; [|by apply accept_loop_ok].
      unfold server_mon, server_go. cbn. destruct has_sections; cbn; by decided.
    + intros r s (ended & -> & Hr). eapply ok_conseq; [by apply server_Close_ok|]. intros [] s ->. repeat eexists; by auto.
  - intros r s (st & ended & -> & Hst & Hr). destruct Hst as [-> | ->]; invoke r'; apply ok_ret; repeat split; by auto.
Qed.

(** C26. The server owns what it opens.  Every run listens on the configured
    address, opens the consume ports in the order of the configuration, serves
    its own sections over a pipe - both ends, and only when it has any - and
    accepts only then; each accepted socket gets one goroutine before the next
    is accepted.  When Run returns, the listener, every port and every HTTP
    server it opened are closed, and it returned without an error only when the
    daemon was stopping. *)
Theorem server_keeps_contract l o :
  traces (Server_Run cfg) l o ->
  exists s, run mon l server_start = Some s /\ forall r, o = Some r -> server_over r s.
Proof. apply Server_Run_ok. Qed.

End Monitor.

(** ** A server with one port that accepts one peer *)
Definition demo_accepts (X : Type) (e : sessE X) (n : nat) : X * nat :=
  match e in sessE X return X * nat with
  | SListen _ => (Ok n, S n)
  | SAccept _ => if (n <? 10)%nat then (Ok n, (n + 10)%nat) else (Err "closed"%string, n)
  | SDial _ => (Err "refused"%string, n)
  | SPipe => ((n, S n), S (S n))
  | SHandshake _ _ _ => (Ok tt, n)
  | SNewConn _ _ _ => (5%nat, n)
  | SReadHello _ => (Err ErrClosed, n)
  | SSend _ _ => (None, n)
  | SReadTurn _ _ => (Err ErrClosed, n)
  | SRegister _ _ => (Ok [], n)
  | SCtxErr => (true, n)
  | SWakePong _ => (false, n)
  | STick => (false, n)
  | STimer _ => (true, n)
  | SInt63 => (0%Z, n)
  | SCloseListener _ | SCloseServer _ | SDeadline _ _ | SCloseRaw _ | SSetPeer _ _ | SFail _ _ | SRemove _
  | SAddPeer _ | SRemovePeer _ | SAttach _ | SCtxWait | SStop | SGo _ => (tt, n)
  end.
Definition demo_serving : Conf := mkConf RoleIsServer ":7420" "" [] "box" 1 [mkConsume "llm" ":80"] [].
Definition demo_server_run : list (event sessE) * option (option run_error) :=
  exec demo_accepts 100 (Server_Run demo_serving) 0%nat.

Lemma server_keeps_contract_witness :
  demo_server_run.2 = Some None /\
  exists s, run (server_mon demo_serving) demo_server_run.1 server_start = Some s /\ server_over None s.
Proof.
  split; [vm_compute; reflexivity|].
  destruct (server_keeps_contract demo_serving demo_server_run.1 demo_server_run.2) as (s & Hr & Ho); [apply exec_traces|].
  exists s. split; [exact Hr | apply Ho; vm_compute; reflexivity].
Defined.
