(* ===== verification/Daemon.v ===== *)
(** The command: cmd/httppooler/main.go.  Files, signals, the flag package, the
    random numbers and [exec] are calls; a role's [Run] is Session.v's.  What is
    logged is left out. *)

From ITree Require Import ITree.
From S2P Require Import Prelude Bytes GoStrings Conf ConfParse ConfBuild Session Interact.
Local Open Scope call_scope.
Local Open Scope N_scope.

Definition defaultConf : string := "/etc/httppooler/httppooler.conf".

Inductive signal : Type := SIGHUP | SIGUSR1 | SIGINT | SIGTERM.
#[export] Instance signal_eq_dec : EqDecision signal.
Proof. solve_decision. Defined.

(** Whichever role the conf asked for. *)
Inductive runner : Type :=
  | ServerRunner (cfg : Conf)
  | ClientRunner (cfg : Conf).

#[export] Instance runner_eq_dec : EqDecision runner.
Proof. solve_decision. Defined.

(** [Run] of the two. *)
Definition runner_Run (r : runner) : sess_m (option run_error) :=
  match r with ServerRunner cfg => Server_Run cfg | ClientRunner cfg => Client_Run cfg end.

(** [flags.Parse] with [ExitOnError]: the flags, an error, or the process ends. *)
Inductive flag_result : Type :=
  | Flags (path : string) (verbose : bool)
  | FlagError (why : string)
  | FlagExit (code : N).

Inductive daemonE : Type -> Type :=
  | DRandRead (n : N) : daemonE (result string (list byte))
  | DPrintln (line : string) : daemonE unit
  | DUsage : daemonE unit
  | DComplain (why : string) : daemonE unit          (* to stderr *)
  | DParseFlags (args : list string) : daemonE flag_result
  | DNotify : daemonE unit                           (* signal.Notify *)
  | DReadFile (path : string) : daemonE (option (list byte))
  | DGoRun (r : runner) : daemonE unit               (* go role.Run(ctx) *)
  | DSignal : daemonE (option signal)                (* none: the channel was closed *)
  | DLogState (r : runner) : daemonE unit
  | DStop : daemonE unit                             (* the context's cancel *)
  | DExecutable : daemonE (option string)
  | DExec (binary : string) : daemonE (option string).  (* the error, if it returns *)

Abbreviation daemon_m := (itree daemonE).

(** How the process ends. *)
Inductive outcome : Type :=
  | Exited (code : N)
  | Replaced.
#[export] Instance outcome_eq_dec : EqDecision outcome.
Proof. solve_decision. Defined.

(** ** [genkey] *)
Definition genkey : daemon_m (option string) :=
  call! r := DRandRead SecretSize in
  match r with
  | Err e => Ret (Some ("reading random bytes: " +:+ e))
  | Ok key =>
      call! _ := DPrintln (string_of (hex_encode key)) in Ret None
  end.

Section Daemon.
Context `{Environment}.

Definition load_file (path : string) : daemon_m (result load_error Conf) :=
  call! content := DReadFile path in Ret (Load path content).

(** ** [start]: nothing, or the role put to work *)
Definition start (path : string) : daemon_m (option runner) :=
  do! r := load_file path in
  match r with
  | Err _ => Ret None
  | Ok cfg =>
      match cf_Role cfg with
      | RoleNone => Ret None
      | RoleIsServer => call! _ := DGoRun (ServerRunner cfg) in Ret (Some (ServerRunner cfg))
      | RoleIsClient => call! _ := DGoRun (ClientRunner cfg) in Ret (Some (ClientRunner cfg))
      end
  end.

(** ** [reload]: says whether this process was replaced *)
Definition reload (path : string) : daemon_m bool :=
  do! r := load_file path in
  match r with
  | Err _ => Ret false
  | Ok _ =>
      call! binary := DExecutable in
      match binary with
      | None => Ret false
      | Some binary =>
          call! e := DExec binary in
          match e with Some _ => Ret false | None => Ret true end
      end
  end.

(** ** [run] *)
Inductive run_result : Type :=
  | RunReturned (e : option string)
  | RunExited (code : N)            (* the flag package ended the process *)
  | RunReplaced.

(** One turn of the loop over the signals. *)
Definition signal_turn (path : string) (role : option runner) : daemon_m (unit + run_result) :=
  call! s := DSignal in
  match s with
  | None => Ret (inr (RunReturned None))
  | Some SIGHUP =>
      do! replaced := reload path in
      Ret (if (replaced : bool) then inr RunReplaced else inl tt)
  | Some SIGUSR1 =>
      match role with
      | None => Ret (inl tt)
      | Some r => call! _ := DLogState r in Ret (inl tt)
      end
  | Some (SIGINT | SIGTERM) =>
      call! _ := DStop in Ret (inr (RunReturned None))
  end.

(** The deferred [stop] of a process that was replaced never runs. *)
Definition run_daemon (args : list string) : daemon_m run_result :=
  call! f := DParseFlags args in
  match f with
  | FlagExit code => Ret (RunExited code)
  | FlagError e => Ret (RunReturned (Some e))
  | Flags path _ =>
      call! _ := DNotify in
      do! role := start path in
      do! r := ITree.iter (fun _ => signal_turn path role) tt in
      match r with
      | RunReturned e => call! _ := DStop in Ret (RunReturned e)
      | r => Ret r
      end
  end.

(** ** [main] *)
Definition finish (err : option string) : daemon_m outcome :=
  match err with
  | Some e => call! _ := DComplain e in Ret (Exited 1)
  | None => Ret (Exited 0)
  end.

Definition main (args : list string) : daemon_m outcome :=
  match args with
  | _ :: command :: rest =>
      if bool_decide (command = "genkey"%string) then
        do! err := genkey in finish err
      else if bool_decide (command = "run"%string) then
        do! r := run_daemon rest in
        match r with
        | RunReturned err => finish err
        | RunExited code => Ret (Exited code)
        | RunReplaced => Ret Replaced
        end
      else
        call! _ := DUsage in Ret (Exited 2)
  | _ => call! _ := DUsage in Ret (Exited 2)
  end.

End Daemon.
