(* ===== verification/DaemonSpec.v ===== *)
(** What the daemon promises whatever its configuration file holds, as an
    automaton over the calls of [main], and the proof that it keeps to it; and
    that the secret [genkey] prints is one a configuration takes. *)

From ITree Require Import ITree.
From S2P Require Import Prelude Bytes GoStrings Conf ConfParse ConfSpec ConfBuild ConfTheorems Session Interact Daemon.
Local Open Scope N_scope.

(** ** The automaton *)
Inductive daemon_state : Type :=
  | Born
  | Told (path : string)                          (* the flags are read *)
  | Ready (path : string)                         (* signals are caught *)
  | Chosen (path : string) (r : runner)           (* the conf asks for a role *)
  | Up (path : string) (role : option runner)     (* waiting for a signal; no role is idling *)
  | Hung (path : string) (role : option runner)   (* SIGHUP *)
  | Fine (path : string) (role : option runner)   (* and the file is fine *)
  | Found (path : string) (role : option runner) (binary : string)
  | Asked (path : string) (r : runner)            (* SIGUSR1 *)
  | Stopping                                      (* SIGINT, SIGTERM or no more signals *)
  | Stopped
  | Failing (why : string)
  | Ending (code : N)
  | Gone.                                         (* another process in its place *)

Section Monitor.
Context `{Environment} (args : list string).

(** The role a file asks for, if it parses and asks for one. *)
Definition asks_for (path : string) (content : option (list byte)) : option runner :=
  match Load path content with
  | Ok cfg =>
      match cf_Role cfg with
      | RoleNone => None
      | RoleIsServer => Some (ServerRunner cfg)
      | RoleIsClient => Some (ClientRunner cfg)
      end
  | Err _ => None
  end.

Definition parses (path : string) (content : option (list byte)) : bool :=
  match Load path content with Ok _ => true | Err _ => false end.

Definition daemon_signal (path : string) (role : option runner) (s : option signal) : daemon_state :=
  match s with
  | None | Some (SIGINT | SIGTERM) => Stopping
  | Some SIGHUP => Hung path role
  | Some SIGUSR1 => match role with Some r => Asked path r | None => Up path role end
  end.

Definition daemon_mon (X : Type) (e : daemonE X) : X -> daemon_state -> option daemon_state :=
  match e in daemonE X return X -> daemon_state -> option daemon_state with
  | DParseFlags args' => fun f s =>
      match s with
      | Born => guard_ (bool_decide (args' = args)) (Some (match f with
          | Flags path _ => Told path
          | FlagError why => Failing why
          | FlagExit code => Ending code
          end))
      | _ => None
      end
  | DNotify => fun _ s => match s with Told path => Some (Ready path) | _ => None end
  | DReadFile path' => fun content s =>
      match s with
      | Ready path => guard_ (bool_decide (path' = path)) (Some (match asks_for path content with
          | Some r => Chosen path r
          | None => Up path None
          end))
      | Hung path role => guard_ (bool_decide (path' = path))
          (Some (if parses path content then Fine path role else Up path role))
      | _ => None
      end
  | DGoRun r => fun _ s =>
      match s with Chosen path r' => guard_ (bool_decide (r = r')) (Some (Up path (Some r))) | _ => None end
  | DSignal => fun sig s => match s with Up path role => Some (daemon_signal path role sig) | _ => None end
  | DLogState r => fun _ s =>
      match s with Asked path r' => guard_ (bool_decide (r = r')) (Some (Up path (Some r))) | _ => None end
  | DExecutable => fun binary s =>
      match s with
      | Fine path role => Some (match binary with Some b => Found path role b | None => Up path role end)
      | _ => None
      end
  | DExec binary => fun e s =>
      match s with
      | Found path role b => guard_ (bool_decide (binary = b)) (Some (match e with None => Gone | Some _ => Up path role end))
      | _ => None
      end
  | DStop => fun _ s => match s with Stopping | Stopped => Some Stopped | _ => None end
  | DComplain why => fun _ s =>
      match s with Failing why' => guard_ (bool_decide (why = why')) (Some (Ending 1)) | _ => None end
  | _ => fun _ _ => None
  end.

Abbreviation mon := daemon_mon.
Ltac accept := eexists; split; [cbn; decided; reflexivity|].
Ltac invoke r := apply ok_call; intros r; accept.

Lemma daemon_start_ok path :
  ok mon (start path) (Ready path) (fun role s => s = Up path role).
Proof.
  eapply (ok_bind _ _ _ _ (fun r s => s =
    match match r with Ok cfg => match cf_Role cfg with
          | RoleNone => None | RoleIsServer => Some (ServerRunner cfg) | RoleIsClient => Some (ClientRunner cfg) end
          | Err _ => None end with
    | Some r => Chosen path r | None => Up path None end)).
  - invoke content. by apply ok_ret.
  - intros [cfg|e] s ->; [|by apply ok_ret].
    destruct (cf_Role cfg); [by apply ok_ret| |]; invoke r; by apply ok_ret.
Qed.

Lemma reload_ok path role :
  ok mon (reload path) (Hung path role)
    (fun replaced s => s = if (replaced : bool) then Gone else Up path role).
Proof.
  eapply (ok_bind _ _ _ _ (fun r s => s = match r with Ok _ => Fine path role | Err _ => Up path role end)).
  - invoke content. apply ok_ret. unfold parses. by destruct (Load path content).
  - intros [cfg|e] s ->; [|by apply ok_ret]. apply ok_call. intros [binary|]; accept; [|by apply ok_ret].
    apply ok_call. intros [e|]; accept; by apply ok_ret.
Qed.

Lemma signal_turn_ok path role :
  ok mon (signal_turn path role) (Up path role)
    (fun r s => match r with
      | inl _ => s = Up path role
      | inr (RunReturned e) => e = None /\ (s = Stopping \/ s = Stopped)
      | inr (RunExited _) => False
      | inr RunReplaced => s = Gone
      end).
Proof.
  apply ok_call. intros [[]|]; accept.
  - eapply ok_bind; [apply reload_ok|]. intros [|] s ->; by apply ok_ret.
  - destruct role as [r|]; [|by apply ok_ret]. invoke r'. by apply ok_ret.
  - invoke r. apply ok_ret. by auto.
  - invoke r. apply ok_ret. by auto.
  - apply ok_ret. by auto.
Qed.

(** How a run ends. *)
Definition daemon_over (out : outcome) (s : daemon_state) : Prop :=
  match out with
  | Replaced => s = Gone
  | Exited code => s = Ending code \/ (code = 0 /\ s = Stopped)
  end.

Lemma main_ok prog :
  ok mon (main (prog :: "run"%string :: args)) Born daemon_over.
Proof.
  cbn [main]. rewrite bool_decide_false by done. rewrite bool_decide_true by done.
  eapply (ok_bind _ _ _ _ (fun r s => match r with
    | RunReturned None => s = Stopped
    | RunReturned (Some e) => s = Failing e
    | RunExited code => s = Ending code
    | RunReplaced => s = Gone
    end)).
  - apply ok_call. intros [path v|why|code]; accept; [|by apply ok_ret..]. invoke r.
    eapply ok_bind; [apply daemon_start_ok|]. intros role s ->. eapply ok_bind.
    { apply (ok_iter mon _ (fun _ s => s = Up path role)); [|done]. intros [] s ->. eapply ok_conseq; [apply signal_turn_ok|].
      intros [[]|r'] s Hs; exact Hs. }
    intros [e|code|] s Hs; [|done|by apply ok_ret]. destruct Hs as [-> [-> | ->]]; invoke r'; by apply ok_ret.
  - intros [[e|]|code|] s ->.
    + invoke r. apply ok_ret. by left.
    + apply ok_ret. by right.
    + apply ok_ret. by left.
    + by apply ok_ret.
Qed.

(** A role is only ever put to work with a configuration that is fine for it. *)
Definition runs_valid (ev : event daemonE) : Prop :=
  match ev with
  | Ev e x =>
      match e with
      | DGoRun (ServerRunner cfg) => valid_conf cfg /\ cf_Role cfg = RoleIsServer
      | DGoRun (ClientRunner cfg) => valid_conf cfg /\ cf_Role cfg = RoleIsClient
      | _ => True
      end
  end.

Definition chosen_valid (s : daemon_state) : Prop :=
  match s with
  | Chosen _ (ServerRunner cfg) => valid_conf cfg /\ cf_Role cfg = RoleIsServer
  | Chosen _ (ClientRunner cfg) => valid_conf cfg /\ cf_Role cfg = RoleIsClient
  | _ => True
  end.

Lemma asks_for_valid path content r : asks_for path content = Some r -> chosen_valid (Chosen path r).
Proof.
  unfold asks_for, Load. destruct content as [data|]; [|done].
  destruct (Parse path data) as [cfg|] eqn:E; [|done]. apply parse_ok_valid in E.
  destruct (cf_Role cfg) eqn:Er; [done| |]; by intros [= <-].
Qed.

Lemma mon_chosen X (e : daemonE X) x s s' :
  daemon_mon X e x s = Some s' -> chosen_valid s -> chosen_valid s' /\ runs_valid (Ev e x).
Proof.
  destruct e, s; try done; cbn; intros H1 Hs; guards; try done.
  all: try (unfold daemon_signal; by repeat case_match).
  - destruct (asks_for _ _) as [r|] eqn:E; [|done]. by apply asks_for_valid in E.
  - subst. by split.
Qed.

Lemma run_valid l s s' : run mon l s = Some s' -> chosen_valid s -> Forall runs_valid l.
Proof.
  revert s. induction l as [|[X e x] l IH]; intros s; [constructor|]. cbn [run].
  destruct (daemon_mon X e x s) as [s1|] eqn:E; [|done]. intros Hr Hs.
  apply mon_chosen in E as [? ?]; [|done]. constructor; [done | by eapply IH].
Qed.

(** C25. The daemon outlives its configuration.  Whatever the file holds, at the
    start and at every reload, [run] catches its signals before it reads the
    file, puts at most one role to work - with a valid configuration that asks
    for that role - and then waits for signals.  It replaces itself only after
    a SIGHUP on which the file parsed, keeps what it has when the file does not
    or the replacement fails, logs its state only when there is a role, and
    ends with status 0 on SIGINT or SIGTERM; but for arguments it does not take
    and a signal channel that is closed nothing else ends it, and no configuration
    does. *)
Theorem daemon_outlives_conf prog l o :
  traces (main (prog :: "run"%string :: args)) l o ->
  Forall runs_valid l /\
  exists s, run mon l Born = Some s /\ forall out, o = Some out -> daemon_over out s.
Proof.
  intros (s & Hr & Ho)%main_ok. split; [by eapply run_valid | by exists s].
Qed.

End Monitor.

(** ** A daemon whose file is refused, then fine *)
Record machine : Type := mkMachine {
  mc_files : list (option (list byte));
  mc_signals : list (option signal);
}.

Definition mc_next {A} (dflt : A) (l : list A) : A * list A :=
  match l with [] => (dflt, []) | a :: l => (a, l) end.

Definition on_machine (X : Type) (e : daemonE X) (m : machine) : X * machine :=
  match e in daemonE X return X * machine with
  | DRandRead _ => (Err "no"%string, m)
  | DParseFlags _ => (Flags "f" false, m)
  | DReadFile _ => let '(f, l) := mc_next None (mc_files m) in (f, mkMachine l (mc_signals m))
  | DSignal => let '(s, l) := mc_next None (mc_signals m) in (s, mkMachine (mc_files m) l)
  | DExecutable => (Some "httppooler"%string, m)
  | DExec _ => (None, m)
  | DPrintln _ | DUsage | DComplain _ | DNotify | DGoRun _ | DLogState _ | DStop => (tt, m)
  end.

Definition demo_daemon : list (event daemonE) * option outcome :=
  exec on_machine 100 (main (H := demo_environment) ["httppooler"; "run"]%string)
    (mkMachine [Some demo_refused; None; Some demo_server] [Some SIGUSR1; Some SIGHUP; Some SIGHUP]).

Lemma daemon_outlives_conf_witness :
  demo_daemon.2 = Some Replaced /\
  exists s, run (daemon_mon (H := demo_environment) []) demo_daemon.1 Born = Some s /\ daemon_over Replaced s.
Proof.
  split; [vm_compute; reflexivity|].
  destruct (daemon_outlives_conf (H := demo_environment) [] "httppooler" demo_daemon.1 demo_daemon.2) as (_ & s & Hr & Ho);
    [apply exec_traces|].
  exists s. split; [exact Hr | apply Ho; vm_compute; reflexivity].
Defined.

(** ** [genkey] *)

(** [rand.Read] fills what it is given. *)
Definition fills (ev : event daemonE) : Prop :=
  match ev with
  | Ev e x =>
      match e in daemonE X return X -> Prop with
      | DRandRead n => fun r => match r with Ok bs => len bs = n | Err _ => True end
      | _ => fun _ => True
      end x
  end.

(** C28. The secret [genkey] prints is one a configuration takes: when it
    succeeds it has printed one line, which as the value of a [secret] key, in
    any file and on any line, is read as the 32 random bytes it was made of;
    when there are no random bytes it prints nothing and fails. *)
Theorem genkey_makes_secrets l r :
  traces genkey l (Some r) -> Forall fills l ->
  match r with
  | None => exists key line, l = [Ev (DRandRead SecretSize) (Ok key); Ev (DPrintln line) tt] /\
      len key = SecretSize /\ forall file n, secret file (mkValue line n) = Ok key
  | Some _ => exists e, l = [Ev (DRandRead SecretSize) (Err e)]
  end.
Proof.
  intros [n Ht] Hf. apply trace_inv in Ht as [[_ ?]|(m & x & l' & -> & -> & Ht)]; [done|].
  apply Forall_cons in Hf as [Hk _]. destruct x as [key|e]; simpl in Hk.
  - apply trace_inv in Ht as [[_ ?]|(m' & [] & l'' & -> & -> & Ht)]; [done|].
    apply trace_inv in Ht as [-> [?|[= ->]]]; [done|]. exists key, (string_of (hex_encode key)).
    split_and!; [done..|]. intros file k. unfold secret. simpl. unfold slen.
    rewrite bytes_of_string_of. unfold len in *. rewrite length_hex_encode.
    replace (N.of_nat (2 * length key) =? SecretSize * 2) with true by (symmetry; apply N.eqb_eq; lia).
    simpl. by rewrite hex_decode_encode.
  - apply trace_inv in Ht as [-> [?|[= ->]]]; [done|]. by exists e.
Qed.

Definition counting_key : list byte := map (fun n => byte_of (N.of_nat n)) (List.seq 0 32).

Definition demo_genkey : list (event daemonE) :=
  [Ev (DRandRead SecretSize) (Ok counting_key); Ev (DPrintln (string_of (hex_encode counting_key))) tt].

Lemma genkey_makes_secrets_witness :
  exists key line, demo_genkey = [Ev (DRandRead SecretSize) (Ok key); Ev (DPrintln line) tt] /\
    len key = SecretSize /\ forall file n, secret file (mkValue line n) = Ok key.
Proof.
  apply (genkey_makes_secrets demo_genkey None); [exists 3%nat; repeat constructor | repeat constructor].
Defined.
