(* ===== verification/JobProtocol.v ===== *)
(** A job's message sequence, as PROTOCOL.md states it for one job on one
    connection: what the consumer side sends the provider side and what comes
    back.  The two automata are the contract the job handlers are proved
    against: what one handler guarantees is what the next one relies on. *)

From S2P Require Import Prelude Bytes Message.

(** ** The answer: RESPONSE, BODY*, END, or FAIL instead of what is left *)
Inductive answer_phase : Type := Unanswered | Answering | Answered.
#[export] Instance answer_phase_eq_dec : EqDecision answer_phase.
Proof. solve_decision. Defined.

Definition answer_step (m : Message) (ph : answer_phase) : option answer_phase :=
  match m, ph with
  | MResponse _, Unanswered => Some Answering
  | MBody _, Answering => Some Answering
  | MEnd _, Answering => Some Answered
  | MFail _, (Unanswered | Answering) => Some Answered
  | _, _ => None
  end.

(** ** The request: REQUEST, BODY*, END, and a CANCEL that ends it at any point *)
Inductive request_phase : Type := Unasked | Asking | Asked | Cancelled.
#[export] Instance request_phase_eq_dec : EqDecision request_phase.
Proof. solve_decision. Defined.

Definition request_step (m : Message) (ph : request_phase) : option request_phase :=
  match m, ph with
  | MRequest _, Unasked => Some Asking
  | MBody _, Asking => Some Asking
  | MEnd _, Asking => Some Asked
  | MCancel _, (Asking | Asked) => Some Cancelled
  | _, _ => None
  end.

(** ** Whole sequences *)
Section Runs.
Context {P : Type} (step : Message -> P -> option P).

Fixpoint phases (ms : list Message) (ph : P) : option P :=
  match ms with
  | [] => Some ph
  | m :: ms => match step m ph with Some ph => phases ms ph | None => None end
  end.

Lemma phases_app ms ns ph :
  phases (ms ++ ns) ph = match phases ms ph with Some ph => phases ns ph | None => None end.
Proof. revert ph. induction ms as [|m ms IH]; intros ph; simpl; [done|]. by destruct (step m ph). Qed.
End Runs.

Definition is_response (m : Message) : bool := match m with MResponse _ => true | _ => false end.
Definition is_body (m : Message) : bool := match m with MBody _ => true | _ => false end.
Definition is_last (m : Message) : bool := match m with MEnd _ | MFail _ => true | _ => false end.
Definition is_fail (m : Message) : bool := match m with MFail _ => true | _ => false end.

Lemma answering_complete ms :
  phases answer_step ms Answering = Some Answered <->
  exists bodies last, ms = bodies ++ [last] /\ forallb is_body bodies = true /\ is_last last = true.
Proof.
  split.
  - induction ms as [|m ms IH]; [done|]. simpl.
    destruct m as [?|  | |?|?|b|e|?|f]; try done; intros H.
    + apply IH in H as (bodies & last & -> & Hb & Hl). by exists (MBody b :: bodies), last.
    + destruct ms as [|m ms]; [by exists [], (MEnd e)|]. by destruct m.
    + destruct ms as [|m ms]; [by exists [], (MFail f)|]. by destruct m.
  - intros (bodies & last & -> & Hb & Hl). induction bodies as [|m bodies IH]; simpl.
    + by destruct last.
    + simpl in Hb. destruct m; try done. by apply IH.
Qed.

(** The automaton is the grammar of PROTOCOL.md. *)
Lemma answer_complete ms :
  phases answer_step ms Unanswered = Some Answered <->
  (exists f, ms = [f] /\ is_fail f = true) \/
  (exists r bodies last, ms = r :: bodies ++ [last] /\ is_response r = true /\
     forallb is_body bodies = true /\ is_last last = true).
Proof.
  split.
  - destruct ms as [|m ms]; [done|]. simpl.
    destruct m as [?|  | |?|r|?|?|?|f]; try done; intros H.
    + apply answering_complete in H as (bodies & last & -> & Hb & Hl).
      right. by exists (MResponse r), bodies, last.
    + left. destruct ms as [|m ms]; [by exists (MFail f) | by destruct m].
  - intros [(f & -> & Hf)|(r & bodies & last & -> & Hr & Hb & Hl)]; [by destruct f|].
    destruct r; try done. simpl. apply answering_complete. eauto.
Qed.

Lemma answered_stays ms : phases answer_step ms Answered <> None -> ms = [].
Proof. destruct ms as [|m ms]; [done|]. by destruct m. Qed.
