(* ===== verification/Headers.v ===== *)
(** Headers between HTTP and the wire: internal/peer/headers.go, with
    [requestHeaders] of internal/peer/consume.go.

    Go's header map is a finite map from canonical names to value lists; its
    iteration order does not matter, since the names are sorted. *)

From S2P Require Import Prelude Bytes GoStrings Message.

(** Go's [http.Header]. *)
Abbreviation HTTPHeader := (gmap string (list string)).

Definition hopByHop_names : list string :=
  ["Connection"; "Keep-Alive"; "Transfer-Encoding"; "Te"; "Trailer"; "Upgrade";
   "Proxy-Connection"; "Host"; "Proxy-Authenticate"]%string.
Definition hopByHop (name : string) : bool := bool_decide (name ∈ hopByHop_names).

Definition comma : byte := x2c.

(** A header's values, none when the map has no entry. *)
Definition header_values (h : HTTPHeader) (name : string) : list string := default [] (h !! name).

(** The tokens of the Connection header. *)
Definition connection_tokens (h : HTTPHeader) : list string :=
  concat (map (fun value => map TrimSpace (Split value comma)) (header_values h "Connection")).

Definition connectionHeaders (h : HTTPHeader) : list string :=
  map CanonicalMIMEHeaderKey (filter (fun token => token <> ""%string) (connection_tokens h)).

Definition skipped (skip : list string) (name : string) : bool :=
  hopByHop name || bool_decide (name ∈ skip).

Definition fromHTTP (h : HTTPHeader) (drop : list string) : list Header :=
  let skip := map CanonicalMIMEHeaderKey drop ++ connectionHeaders h in
  let names := sort_strings (filter (fun name => skipped skip name = false) (map_to_list h).*1) in
  concat (map (fun name => map (mkHeader name) (header_values h name)) names).

Definition add_value (name value : string) (h : HTTPHeader) : HTTPHeader :=
  <[name := header_values h name ++ [value]]> h.

Definition toHTTP (hs : list Header) (drop : list string) : HTTPHeader :=
  let skip := map CanonicalMIMEHeaderKey drop in
  fold_left (fun h header =>
    let name := CanonicalMIMEHeaderKey (header_Name header) in
    if skipped skip name then h else add_value name (header_Value header) h) hs ∅.

(** [Header.Get] of a canonical name: the first value, or the empty string. *)
Definition header_Get (h : HTTPHeader) (name : string) : string :=
  match header_values h name with v :: _ => v | [] => ""%string end.

Definition isUpgrade (h : HTTPHeader) : bool :=
  negb (bool_decide (header_Get h "Upgrade" = ""%string)) ||
  existsb (fun token => EqualFold token "upgrade") (connection_tokens h).

(** [requestHeaders] of a body of [length] bytes. *)
Definition requestHeaders (h : HTTPHeader) (length : N) : list Header :=
  let headers := fromHTTP h ["Content-Length"%string] in
  if (0 <? length)%N || negb (bool_decide (header_Get h "Content-Length" = ""%string))
  then headers ++ [mkHeader "Content-Length" (pretty length)]
  else headers.

(** ** The values of one name on the wire *)
Definition wire_values (name : string) (hs : list Header) : list string :=
  omap (fun hd => if bool_decide (CanonicalMIMEHeaderKey (header_Name hd) = name)
                  then Some (header_Value hd) else None) hs.

Definition lookup_values (vs : list string) : option (list string) :=
  match vs with [] => None | _ => Some vs end.

Lemma wire_values_app name hs ks : wire_values name (hs ++ ks) = wire_values name hs ++ wire_values name ks.
Proof. apply omap_app. Qed.

Lemma wire_values_cons name n v hs :
  wire_values name (mkHeader n v :: hs) =
    if bool_decide (CanonicalMIMEHeaderKey n = name) then v :: wire_values name hs else wire_values name hs.
Proof. unfold wire_values. simpl. by case_bool_decide. Qed.

Lemma wire_values_same name n vs :
  wire_values name (map (mkHeader n) vs) = if bool_decide (CanonicalMIMEHeaderKey n = name) then vs else [].
Proof.
  induction vs as [|v vs IH]; [by destruct (bool_decide _)|]. cbn [map].
  rewrite wire_values_cons, IH. by case_bool_decide.
Qed.

(** What [toHTTP] builds: name by name, the values in their order. *)
Lemma toHTTP_lookup hs drop name :
  toHTTP hs drop !! name =
    if skipped (map CanonicalMIMEHeaderKey drop) name then None
    else lookup_values (wire_values name hs).
Proof.
  unfold toHTTP. set (skip := map CanonicalMIMEHeaderKey drop).
  assert (forall h, fold_left (fun h header =>
      let n := CanonicalMIMEHeaderKey (header_Name header) in
      if skipped skip n then h else add_value n (header_Value header) h) hs h !! name =
    if skipped skip name then h !! name
    else match wire_values name hs with [] => h !! name | vs => Some (header_values h name ++ vs) end) as Hfold.
  { induction hs as [|[n v] hs IH]; intros h; [by simpl; destruct (skipped skip name)|].
    cbn [fold_left header_Name header_Value]. rewrite IH, wire_values_cons. clear IH.
    set (cn := CanonicalMIMEHeaderKey n). cbv zeta. destruct (decide (cn = name)) as [E|Hne]; [rewrite E in *|].
    - rewrite bool_decide_true by done. destruct (skipped skip name) eqn:Es; [done|].
      unfold add_value, header_values. rewrite lookup_insert_eq. simpl.
      destruct (wire_values name hs); simpl; [done|]. by rewrite <- app_assoc.
    - rewrite bool_decide_false by done.
      destruct (skipped skip cn); [done|]. unfold add_value, header_values. by rewrite lookup_insert_ne. }
  rewrite Hfold, lookup_empty. unfold header_values. rewrite lookup_empty. simpl.
  by destruct (skipped skip name), (wire_values name hs).
Qed.

(** A header map as Go's HTTP server makes it: canonical names, each with at
    least one value. *)
Definition served (h : HTTPHeader) : Prop :=
  forall name vs, h !! name = Some vs -> CanonicalMIMEHeaderKey name = name /\ vs <> [].

Definition canonical (h : HTTPHeader) : Prop :=
  forall name vs, h !! name = Some vs -> CanonicalMIMEHeaderKey name = name.

Lemma served_canonical h : served h -> canonical h.
Proof. intros Hs name vs H. by destruct (Hs name vs H). Qed.

Definition kept (h : HTTPHeader) (drop : list string) (name : string) : Prop :=
  skipped (map CanonicalMIMEHeaderKey drop ++ connectionHeaders h) name = false.
#[export] Instance kept_dec h drop name : Decision (kept h drop name).
Proof. unfold kept. apply _. Defined.

Lemma elem_of_names (h : HTTPHeader) name : name ∈ (map_to_list h).*1 <-> is_Some (h !! name).
Proof.
  rewrite list_elem_of_fmap. split.
  - intros ([n vs] & -> & H%elem_of_map_to_list). by eexists.
  - intros [vs H]. exists (name, vs). by rewrite elem_of_map_to_list.
Qed.

(** What [fromHTTP] writes: name by name, the values in their order. *)
Lemma fromHTTP_values h drop name :
  canonical h -> wire_values name (fromHTTP h drop) = if decide (kept h drop name) then header_values h name else [].
Proof.
  intros Hs. unfold fromHTTP.
  set (skip := map CanonicalMIMEHeaderKey drop ++ connectionHeaders h).
  set (ns := filter _ _).
  assert (NoDup (sort_strings ns)) as Hnd.
  { rewrite sort_strings_perm. apply NoDup_filter, NoDup_fst_map_to_list. }
  assert (forall l, NoDup l -> (forall n, n ∈ l -> is_Some (h !! n)) ->
    wire_values name (concat (map (fun n => map (mkHeader n) (header_values h n)) l)) =
    if decide (name ∈ l) then header_values h name else []) as Hl.
  { induction l as [|n l IH]; intros Hd Hh; [done|]. apply NoDup_cons in Hd as [Hnl Hd]. simpl.
    rewrite wire_values_app, wire_values_same, IH; [|done|set_solver].
    destruct (Hh n ltac:(set_solver)) as [vs Hvs]. rewrite (Hs n vs Hvs).
    case_bool_decide as E; [subst n|]; repeat case_decide; try set_solver; by rewrite app_nil_r. }
  assert (forall n, n ∈ sort_strings ns <-> kept h drop n /\ is_Some (h !! n)) as Hin.
  { intros n. rewrite sort_strings_perm. unfold ns. by rewrite list_elem_of_filter, elem_of_names. }
  rewrite Hl; [|done|]; [|intros n Hn; by apply Hin].
  destruct (decide (name ∈ _)) as [H|H], (decide (kept h drop name)) as [Hk|Hk]; try done.
  - by apply Hin in H as [? _].
  - unfold header_values. destruct (h !! name) eqn:E; [|done]. destruct H. apply Hin. by rewrite E.
Qed.

(** The names a header list goes through, each as often as it has values. *)
Lemma header_names (h : HTTPHeader) (l : list string) :
  header_Name <$> concat (map (fun n => map (mkHeader n) (header_values h n)) l) =
    concat (map (fun n => replicate (length (header_values h n)) n) l).
Proof.
  induction l as [|n l IH]; [done|]. simpl. rewrite fmap_app, IH. f_equal.
  induction (header_values h n) as [|v vs IHv]; [done|]. cbn in *. by f_equal.
Qed.

Lemma elem_of_repeated (k : string -> nat) (l : list string) n :
  n ∈ concat (map (fun n => replicate (k n) n) l) -> n ∈ l.
Proof.
  induction l as [|m l IH]; [done|]. simpl. rewrite elem_of_app, list_elem_of_In.
  intros [H|H]; [|by right; apply IH]. apply list_elem_of_In, elem_of_replicate in H as [-> _]. by left.
Qed.

Lemma sorted_repeated (k : string -> nat) (l : list string) :
  Sorted string_le l -> Sorted string_le (concat (map (fun n => replicate (k n) n) l)).
Proof.
  intros H%(Sorted_StronglySorted string_le _). apply StronglySorted_Sorted.
  induction l as [|n l IH]; [constructor|]. apply StronglySorted_cons in H as [Hn Hl].
  simpl. apply StronglySorted_app_2; [| |by apply IH].
  - intros x y [-> _]%elem_of_replicate Hy%elem_of_repeated. rewrite Forall_forall in Hn. by apply Hn.
  - induction (k n) as [|j IHj]; simpl; constructor; [done|]. apply Forall_forall.
    intros x [-> _]%elem_of_replicate. by destruct (string_le_total n n).
Qed.

Lemma fromHTTP_sorted h drop : Sorted string_le (header_Name <$> fromHTTP h drop).
Proof. unfold fromHTTP. rewrite header_names. apply sorted_repeated, sort_strings_sorted. Qed.

Lemma fromHTTP_kept h drop : Forall (kept h drop) (header_Name <$> fromHTTP h drop).
Proof.
  apply Forall_forall. intros n Hn. unfold fromHTTP in Hn.
  rewrite header_names in Hn. apply elem_of_repeated in Hn.
  rewrite sort_strings_perm in Hn. by apply list_elem_of_filter in Hn as [? _].
Qed.

Lemma kept_not_hop h drop name : kept h drop name -> hopByHop name = false.
Proof. unfold kept, skipped. by intros [? _]%orb_false_elim. Qed.

Lemma kept_drop h name : name <> "Content-Length"%string ->
  kept h ["Content-Length"%string] name <-> kept h [] name.
Proof.
  intros Hn. unfold kept, skipped. rewrite !orb_false_iff, !bool_decide_eq_false. simpl.
  change (CanonicalMIMEHeaderKey "Content-Length") with "Content-Length"%string.
  rewrite not_elem_of_cons. naive_solver.
Qed.

(** [requestHeaders]: the headers that travel, then a Content-Length. *)
Lemma requestHeaders_tail h n :
  exists tail, requestHeaders h n = fromHTTP h ["Content-Length"%string] ++ tail /\
    tail = if decide (0 < n)%N then [mkHeader "Content-Length" (pretty n)]
           else if decide (header_Get h "Content-Length" = ""%string) then []
           else [mkHeader "Content-Length" (pretty n)].
Proof.
  unfold requestHeaders. eexists. split; [|reflexivity].
  destruct (N.ltb_spec 0 n), (decide (0 < n)%N); try lia; [done|]. simpl.
  case_bool_decide; case_decide; try done. by rewrite app_nil_r.
Qed.

Lemma requestHeaders_values h n name :
  canonical h -> name <> "Content-Length"%string ->
  wire_values name (requestHeaders h n) = if decide (kept h [] name) then header_values h name else [].
Proof.
  intros Hs Hn. destruct (requestHeaders_tail h n) as (tail & -> & Ht).
  rewrite wire_values_app, fromHTTP_values by done.
  assert (wire_values name tail = []) as ->.
  { rewrite Ht. destruct (decide _); [|destruct (decide _); [done|]]; rewrite wire_values_cons;
      by rewrite bool_decide_false by (vm_compute; congruence). }
  rewrite app_nil_r. pose proof (kept_drop h name Hn). repeat case_decide; tauto.
Qed.

(** What the upstream is given of the application's headers. *)
Lemma request_roundtrip h n name :
  served h -> name <> "Content-Length"%string ->
  toHTTP (requestHeaders h n) ["Content-Length"%string] !! name =
    if decide (kept h [] name) then h !! name else None.
Proof.
  intros Hs Hn. rewrite toHTTP_lookup, requestHeaders_values by (auto using served_canonical).
  pose proof (kept_not_hop h [] name) as Hhop. unfold skipped.
  rewrite (bool_decide_false (name ∈ _)) by (change (name ∉ ["Content-Length"%string]); by rewrite list_elem_of_singleton).
  destruct (decide (kept h [] name)) as [Hk|Hk]; [|by destruct (_ || _)]. rewrite Hhop by done. simpl.
  unfold header_values. destruct (h !! name) as [vs|] eqn:E; [|done]. apply Hs in E as [_ E]. by destruct vs.
Qed.

(** ** The theorems *)

(** C39. Headers travel unchanged: what the far end rebuilds from the headers
    this end sends is, name by name and value by value in order, what this end
    had, less the hop-by-hop headers, those the Connection header lists, and
    those either end drops. *)
Theorem headers_roundtrip h drop drop' name :
  served h ->
  toHTTP (fromHTTP h drop) drop' !! name =
    if decide (kept h drop name /\ name ∉ map CanonicalMIMEHeaderKey drop') then h !! name else None.
Proof.
  intros Hs. rewrite toHTTP_lookup, fromHTTP_values by (by apply served_canonical). unfold skipped.
  pose proof (kept_not_hop h drop name) as Hhop.
  destruct (decide (kept h drop name)) as [Hk|Hk]; [rewrite Hhop by done|];
    destruct (decide (name ∈ map CanonicalMIMEHeaderKey drop')) as [Hd|Hd].
  - by rewrite bool_decide_true, decide_False by tauto.
  - rewrite bool_decide_false, decide_True by done. simpl. unfold header_values.
    destruct (h !! name) as [vs|] eqn:E; [|done]. apply Hs in E as [_ E]. by destruct vs.
  - rewrite decide_False by tauto. by destruct (_ || _).
  - rewrite decide_False by tauto. by destruct (_ || _).
Qed.

(** What a REQUEST carries: the application's headers less the hop-by-hop
    ones, Host, and those its Connection header lists, in the order of their
    names; and one Content-Length, the length of the body that is sent, exactly
    when there is a body or the application wrote a length. *)
Theorem request_headers_exact h length :
  served h ->
  (forall name, name <> "Content-Length"%string ->
     wire_values name (requestHeaders h length) =
       if decide (kept h [] name) then header_values h name else []) /\
  wire_values "Content-Length" (requestHeaders h length) =
    (if decide (0 < length)%N then [pretty length]
     else if decide (header_Get h "Content-Length" = ""%string) then [] else [pretty length]) /\
  Forall (fun hd => hopByHop (header_Name hd) = false) (requestHeaders h length) /\
  Sorted string_le (header_Name <$> fromHTTP h ["Content-Length"%string]).
Proof.
  intros Hs%served_canonical. split_and!.
  - intros name Hn. by apply requestHeaders_values.
  - destruct (requestHeaders_tail h length) as (tail & -> & Ht).
    rewrite wire_values_app, fromHTTP_values by done. rewrite decide_False.
    + rewrite Ht. by destruct (decide _); [|destruct (decide _)].
    + unfold kept, skipped. rewrite orb_false_iff, bool_decide_eq_false. intros [_ Hn]. apply Hn. by left.
  - destruct (requestHeaders_tail h length) as (tail & -> & Ht). apply Forall_app. split.
    + pose proof (fromHTTP_kept h ["Content-Length"%string]) as Hk. rewrite Forall_fmap in Hk.
      eapply Forall_impl; [exact Hk|]. intros hd. apply kept_not_hop.
    + rewrite Ht. by destruct (decide _); [|destruct (decide _)]; repeat constructor.
  - apply fromHTTP_sorted.
Qed.

(** ** A request's headers *)
Definition demo_header : HTTPHeader :=
  <["Accept" := ["a"; "b"]]> (<["Connection" := ["keep-alive, X-Private"]]>
    (<["X-Private" := ["1"]]> (<["Content-Length" := ["5"]]> ∅)))%string.

Lemma demo_served : served demo_header.
Proof.
  assert (map_Forall (fun name vs => CanonicalMIMEHeaderKey name = name /\ vs <> []) demo_header) as H.
  { unfold demo_header. repeat (apply map_Forall_insert_2; [by split|]). apply map_Forall_empty. }
  exact H.
Qed.

Lemma headers_roundtrip_witness :
  toHTTP (fromHTTP demo_header []) ["Content-Length"%string] !! "Accept"%string = Some ["a"; "b"]%string /\
  toHTTP (fromHTTP demo_header []) ["Content-Length"%string] !! "X-Private"%string = None.
Proof.
  split.
  - exact (headers_roundtrip demo_header [] ["Content-Length"%string] "Accept" demo_served).
  - exact (headers_roundtrip demo_header [] ["Content-Length"%string] "X-Private" demo_served).
Defined.

Lemma request_headers_exact_witness :
  wire_values "Content-Length" (requestHeaders demo_header 0) = ["0"%string].
Proof. exact (proj1 (proj2 (request_headers_exact demo_header 0 demo_served))). Defined.
