(* ===== verification/Calls.v ===== *)
(** What the goroutine of one job calls: the connections, the pool, its
    context, the endpoint's slots, and on either edge Go's HTTP client and
    server.  Any answer an event's type allows may come back, since the
    connection, the pool and the context change under every goroutine at any
    time; what the program's own parts promise about these answers is proved of
    Conn.v, Queue.v and PoolSystem.v. *)

From ITree Require Import ITree.
From S2P Require Import Prelude Bytes Io Message Conn PoolSystem Headers Interact.

(** An error of Go's HTTP client, and whether it wraps the cancellation of the
    job's context, which the client reports as it was given. *)
Record http_error : Type := mkHTTPError {
  he_text : string;
  he_cancelled : bool;
}.

(** ** The errors of a job: internal/peer/job.go, server.go, provide.go *)
Inductive job_error : Type :=
  | FromConn (e : conn_error)
  | CtxErr
  | errCancelled
  | errProviderGone
  | DuringBody (kind : N)
  | NotAnAnswer (kind : N)
  | providerFail (reason : string)
  | NotAPath (target : string)
  | UpstreamStatus (status : Z)
  | FromHTTP (e : http_error).

(** The texts the standard library makes: [%q], a duration's [%v], and the
    errors that come out of a connection or a context. *)
Class Texts : Type := {
  quoted : string -> string;
  duration_text : Z -> string;
  conn_error_text : conn_error -> string;
  context_error_text : string;
}.

(** The [Error] methods. *)
Definition job_error_text `{Texts} (e : job_error) : string :=
  match e with
  | FromConn e => conn_error_text e
  | CtxErr => context_error_text
  | errCancelled => "cancelled"
  | errProviderGone => "the provider's connection ended"
  | DuringBody k => "peer: " +:+ Kind_String k +:+ " while a request body was still arriving"
  | NotAnAnswer k => Kind_String k +:+ " where an answer belongs"
  | providerFail reason => reason
  | NotAPath target => "request-target " +:+ quoted target +:+ " is not a path"
  | UpstreamStatus s => "upstream answered with status " +:+ pretty s
  | FromHTTP e => he_text e
  end.

Definition acquire_error_text `{Texts} (e : acquire_error) : string :=
  match e with
  | TimeoutError service waited =>
      "no provider of " +:+ quoted service +:+ " had a free slot within " +:+ duration_text waited
  | ContextErr => context_error_text
  end.

(** [errors.Is(err, errCancelled)]. *)
Definition is_cancelled (e : job_error) : bool :=
  match e with
  | errCancelled => true
  | FromHTTP e => he_cancelled e
  | _ => false
  end.

(** ** HTTP at the edges *)

(** What [runUpstream] gives the HTTP client. *)
Record upstream_request : Type := mkUpstream {
  up_method : string;
  up_url : string;
  up_host : string;
  up_header : HTTPHeader;
  up_no_user_agent : bool;         (* the header is present and nil *)
  up_body : list byte;
}.

Inductive read_end : Type := More | AtEOF | ReadFailed (e : http_error).

(** What [consume] reads of the application's request. *)
Record http_request : Type := mkHTTPRequest {
  hr_method : string;
  hr_RequestURI : string;
  hr_url_RequestURI : string;      (* r.URL.RequestURI() *)
  hr_header : HTTPHeader;
  hr_trailer : HTTPHeader;
}.

(** ** The calls, by whom they call: a connection or a queue is an address *)
Inductive callE : Type -> Type :=
  (* the connection at an address *)
  | CSend (c : nat) (m : Message) : callE (option conn_error)
  | CNewJob (c : nat) : callE (result conn_error (N * nat))
  | CEndJob (c : nat) (id : N) : callE unit
  | CFail (c : nat) (e : conn_error) : callE unit
  | CNext (q : nat) : callE (result job_error Message)
  (* the context of the job *)
  | CCtxEnded : callE bool
  | CCauseCancelled : callE bool
  | CCancel (cause : option job_error) : callE unit
  | CWatch (q : nat) : callE unit                (* go watchCancel *)
  | CNow : callE Z
  (* the pool: a lease with its provider's connection *)
  | CAcquire (service : string) (since : Z) (front : bool) : callE (result acquire_error (nat * option nat))
  | CRelease (l : nat) : callE unit
  (* the endpoint *)
  | CTake (service : string) (slots : N) : callE bool
  | CGive (service : string) : callE unit
  | CConnection : callE (option nat)
  (* the HTTP client *)
  | CNewRequest (method url : string) : callE (option http_error)
  | CDo (r : upstream_request) : callE (result http_error (Z * HTTPHeader))
  | CRead (size : N) : callE (list byte * read_end)
  | CTrailer : callE HTTPHeader
  | CCloseBody : callE unit
  (* the HTTP server *)
  | CReadAll : callE (result string (list byte))
  | CHeaderSet (name value : string) : callE unit
  | CHeaderAdd (name value : string) : callE unit
  | CWriteHeader (status : N) : callE unit
  | CWrite (bs : list byte) : callE (option string)
  | CFlush : callE unit.

Abbreviation job_m := (itree callE).

(** What was sent on connection [c] about [job]. *)
Definition sent_event (c : nat) (job : N) (ev : event callE) : option Message :=
  match ev with
  | Ev e x =>
      match e in callE X return X -> option Message with
      | CSend c' m => fun r =>
          match r with
          | None => if bool_decide (c' = c /\ JobID m = Some job) then Some m else None
          | Some _ => None
          end
      | _ => fun _ => None
      end x
  end.
Definition sent (c : nat) (job : N) : list (event callE) -> list Message := omap (sent_event c job).

(** ** An environment in which everything goes well, for concrete runs: the
    messages and the upstream's answer are scripted. *)
Record script : Type := mkScript {
  sc_next : list (result job_error Message);
  sc_upstream : list (list byte * read_end);
}.

Definition next_of {A} (dflt : A) (l : list A) : A * list A :=
  match l with [] => (dflt, []) | a :: l => (a, l) end.

Definition obliging (X : Type) (e : callE X) (s : script) : X * script :=
  match e in callE X return X * script with
  | CSend _ _ => (None, s)
  | CNewJob _ => (Ok (2%N, 1%nat), s)
  | CEndJob _ _ => (tt, s)
  | CFail _ _ => (tt, s)
  | CNext _ =>
      let '(r, l) := next_of (Err CtxErr) (sc_next s) in (r, mkScript l (sc_upstream s))
  | CCtxEnded => (false, s)
  | CCauseCancelled => (false, s)
  | CCancel _ => (tt, s)
  | CWatch _ => (tt, s)
  | CNow => (0%Z, s)
  | CAcquire _ _ _ => (Ok (0%nat, Some 7%nat), s)
  | CRelease _ => (tt, s)
  | CTake _ _ => (true, s)
  | CGive _ => (tt, s)
  | CConnection => (Some 0%nat, s)
  | CNewRequest _ _ => (None, s)
  | CDo _ => (Ok (200%Z, ∅), s)
  | CRead _ =>
      let '(r, l) := next_of ([], AtEOF) (sc_upstream s) in (r, mkScript (sc_next s) l)
  | CTrailer => (∅, s)
  | CCloseBody => (tt, s)
  | CReadAll => (Ok [], s)
  | CHeaderSet _ _ => (tt, s)
  | CHeaderAdd _ _ => (tt, s)
  | CWriteHeader _ => (tt, s)
  | CWrite _ => (None, s)
  | CFlush => (tt, s)
  end.

#[export] Instance plain_texts : Texts := {
  quoted s := s;
  duration_text d := pretty d;
  conn_error_text _ := "connection error"%string;
  context_error_text := "context canceled"%string;
}.
