(* ===== verification/Job.v ===== *)
(** What both sides of a job do with its queue: internal/peer/job.go, and the
    sending of a whole body, which is internal/peer/conn.go's. *)

From ITree Require Import ITree.
From S2P Require Import Prelude Bytes Io Message Conn Interact Calls JobProtocol.
Local Open Scope call_scope.

(** [collect]: BODY until END. *)
Definition collect (q : nat) : job_m (result job_error (list byte * list Header)) :=
  ITree.iter (fun body =>
    call! r := CNext q in
    match r with
    | Err e => Ret (inr (Err e))
    | Ok (MBody m) => Ret (inl (body ++ body_Bytes m))
    | Ok (MEnd m) => Ret (inr (Ok (body, end_Trailers m)))
    | Ok (MCancel _) => Ret (inr (Err errCancelled))
    | Ok m => Ret (inr (Err (DuringBody (Kind m))))
    end) [].

(** [watchCancel], a goroutine of its own. *)
Definition watchCancel (q : nat) : job_m unit :=
  ITree.iter (fun _ =>
    call! r := CNext q in
    match r with
    | Err e => call! _ := CCancel (Some e) in Ret (inr tt)
    | Ok (MCancel _) => call! _ := CCancel (Some errCancelled) in Ret (inr tt)
    | Ok _ => Ret (inl tt)
    end) tt.

(** [reason]: what a FAIL says. *)
Definition reason `{Texts} (err : job_error) : job_m string :=
  if is_cancelled err then Ret (job_error_text errCancelled)
  else
    call! cancelled := CCauseCancelled in
    if (cancelled : bool) then Ret (job_error_text errCancelled) else Ret (job_error_text err).

(** [sendBodyEnd]: the loop takes a chunk at a time off the body. *)
Definition bodyChunk : N := 32 * 1024.

Definition sendBodyEnd (c : nat) (job : N) (body : list byte) (trailers : list Header)
    : job_m (option conn_error) :=
  ITree.iter (fun body =>
    match body with
    | [] =>
        call! e := CSend c (MEnd (mkEnd job trailers)) in Ret (inr e)
    | _ =>
        let chunk := if (bodyChunk <? len body)%N then take (N.to_nat bodyChunk) body else body in
        call! e := CSend c (MBody (mkBody job chunk)) in
        match e with
        | Some e => Ret (inr (Some e))
        | None => Ret (inl (drop (length chunk) body))
        end
    end) body.

(** ** What the three do, whatever watches

    [ok_collect] and [ok_sendBodyEnd] are their rules for any monitor: the
    state [st body] is the one after the bytes [body]. *)
Section Rules.
Context {S : Type} (mon : forall X, callE X -> X -> S -> option S).

Lemma ok_collect q (st : list byte -> S) Q :
  (forall body m, mon _ (CNext q) (Ok (MBody m)) (st body) = Some (st (body ++ body_Bytes m))) ->
  (forall body m, exists s',
     mon _ (CNext q) (Ok (MEnd m)) (st body) = Some s' /\ Q (Ok (body, end_Trailers m)) s') ->
  (forall body r, match r with Ok (MBody _) | Ok (MEnd _) => False | _ => True end ->
     exists s', mon _ (CNext q) r (st body) = Some s' /\ forall e, Q (Err e) s') ->
  ok mon (collect q) (st []) Q.
Proof.
  intros Hbody Hend Herr. apply (ok_iter mon _ (fun body s => s = st body)); [|done].
  intros body s ->. apply ok_call. intros [m|e].
  - destruct m as [h| | |rq|rs|b|e|cn|f].
    6: { eexists. split; [apply Hbody|]. by apply ok_ret. }
    6: { destruct (Hend body e) as (s' & Hm & HQ). eexists. split; [exact Hm|]. by apply ok_ret. }
    all: edestruct (Herr body) as (s' & Hm & HQ); [|eexists; split; [exact Hm | by apply ok_ret]]; done.
  - destruct (Herr body (Err e) I) as (s' & Hm & HQ). eexists. split; [exact Hm|]. by apply ok_ret.
Qed.

(** The body goes out in order, in chunks of 1 to [bodyChunk] bytes, and END
    follows the whole of it. *)
Lemma ok_sendBodyEnd c job body trailers (st : list byte -> S) Q :
  (forall sent chunk rest e, body = sent ++ chunk ++ rest -> (0 < len chunk <= bodyChunk)%N ->
     exists s', mon _ (CSend c (MBody (mkBody job chunk))) e (st sent) = Some s' /\
       match e with None => s' = st (sent ++ chunk) | Some err => Q (Some err) s' end) ->
  (forall e, exists s', mon _ (CSend c (MEnd (mkEnd job trailers))) e (st body) = Some s' /\ Q e s') ->
  ok mon (sendBodyEnd c job body trailers) (st []) Q.
Proof.
  intros Hbody Hend.
  apply (ok_iter mon _ (fun rest s => exists sent, body = sent ++ rest /\ s = st sent)); [|by exists []].
  intros rest s (sent & E & ->). destruct rest as [|x rest].
  - rewrite app_nil_r in E. subst sent. apply ok_call. intros e. destruct (Hend e) as (s' & Hm & HQ).
    eexists. split; [exact Hm|]. by apply ok_ret.
  - set (chunk := if (_ <? _)%N then _ else _).
    assert (exists rest', x :: rest = chunk ++ rest' /\ (0 < len chunk <= bodyChunk)%N) as (rest' & Er & Hc).
    { subst chunk. destruct (N.ltb_spec bodyChunk (len (x :: rest))).
      - exists (drop (N.to_nat bodyChunk) (x :: rest)). rewrite take_drop, len_take.
        assert (0 < bodyChunk)%N by done. split; [done | lia].
      - exists []. rewrite app_nil_r, len_cons in *. split; [done | lia]. }
    apply ok_call. intros e. rewrite Er in *.
    destruct (Hbody sent chunk rest' e E Hc) as (s' & Hm & HQ). eexists. split; [exact Hm|].
    destruct e as [err|]; apply ok_ret; [done|]. exists (sent ++ chunk). split; [|done].
    by rewrite drop_app_length, <- app_assoc.
Qed.

End Rules.
