(* ===== verification/Server.v ===== *)
(** The server's side of a submitted job: [relay], [dispatch] and [answer] of
    internal/peer/server.go, and [synthMessages] of internal/peer/consume.go.

    A connection is its address; the queue of a job is the address its
    connection keeps it under. *)

From ITree Require Import ITree.
From S2P Require Import Prelude Bytes Io Message Conn PoolSystem Interact Calls JobProtocol Job.
Local Open Scope call_scope.
Local Open Scope N_scope.

Definition newline : string := String (Ascii.ascii_of_nat 10) EmptyString.

(** A made-up response as messages. *)
Definition synthMessages (job status : N) (why : string) : list Message :=
  let body := why +:+ newline in
  [MResponse (mkResponse job status
     [mkHeader "Content-Type" "text/plain; charset=utf-8";
      mkHeader "Content-Length" (pretty (slen body))]);
   MBody (mkBody job (bytes_of body));
   MEnd (mkEnd job [])].

(** [answer]'s loop stops at the first message that cannot be sent. *)
Fixpoint send_each (c : nat) (ms : list Message) : job_m unit :=
  match ms with
  | [] => Ret tt
  | m :: ms =>
      call! e := CSend c m in
      match e with
      | Some _ => Ret tt
      | None => send_each c ms
      end
  end.

Definition answer (c : nat) (job status : N) (why : string) : job_m unit :=
  send_each c (synthMessages job status why).

(** What [dispatch] makes of a message of the provider's: the message for the
    submitter and whether the answer has started, or how the attempt ends. *)
Definition onward (job : N) (started : bool) (m : Message) : result job_error (Message * bool) :=
  match m with
  | MResponse m => Ok (MResponse (mkResponse job (resp_Status m) (resp_Headers m)), true)
  | MBody m => Ok (MBody (mkBody job (body_Bytes m)), started)
  | MEnd m => Ok (MEnd (mkEnd job (end_Trailers m)), started)
  | MFail m =>
      if started then Ok (MFail (mkFail job (fail_Reason m)), started)
      else Err (providerFail (fail_Reason m))
  | m => Err (NotAnAnswer (Kind m))
  end.

(** One turn of [dispatch]'s loop. *)
Definition dispatch_turn (c : nat) (req : Request) (target : nat) (job : N) (q : nat) (started : bool)
    : job_m (bool + (bool * option job_error)) :=
  call! r := CNext q in
  match r with
  | Err _ =>
      call! ended := CCtxEnded in
      if (ended : bool) then
        call! _ := CSend target (MCancel (mkCancel job)) in
        Ret (inr (started, Some errCancelled))
      else Ret (inr (started, Some errProviderGone))
  | Ok m =>
      match onward (req_Job req) started m with
      | Err e => Ret (inr (started, Some e))
      | Ok (m, started) =>
          call! e := CSend c m in
          match e with
          | Some _ =>
              call! _ := CSend target (MCancel (mkCancel job)) in
              Ret (inr (started, Some errCancelled))
          | None => if is_last m then Ret (inr (started, None)) else Ret (inl started)
          end
      end
  end.

(** What [dispatch] does once it has a job of the provider's connection. *)
Definition dispatch_job (c : nat) (req : Request) (body : list byte) (trailers : list Header)
    (target : nat) (job : N) (q : nat) : job_m (bool * option job_error) :=
  let out := mkRequest job (req_Service req) (req_Method req) (req_Target req) (req_Headers req) in
  call! e := CSend target (MRequest out) in
  match e with
  | Some _ => Ret (false, Some errProviderGone)
  | None =>
      do! e := sendBodyEnd target job body trailers in
      match e with
      | Some _ => Ret (false, Some errProviderGone)
      | None => ITree.iter (dispatch_turn c req target job q) false
      end
  end.

Definition dispatch (c : nat) (req : Request) (body : list byte) (trailers : list Header) (target : nat)
    : job_m (bool * option job_error) :=
  call! r := CNewJob target in
  match r with
  | Err _ => Ret (false, Some errProviderGone)
  | Ok (job, q) =>
      deferred (call! _ := CEndJob target job in Ret tt)
        (dispatch_job c req body trailers target job q)
  end.

(** What [relay] makes of an attempt: done, or queue the job again. *)
Definition after_attempt `{Texts} (c : nat) (req : Request) (started : bool) (err : option job_error)
    : job_m (bool + unit) :=
  match err with
  | None => Ret (inr tt)
  | Some err =>
      if started then
        match err with
        | errProviderGone =>
            call! _ := CSend c (MFail (mkFail (req_Job req) (job_error_text errProviderGone))) in
            Ret (inr tt)
        | _ => Ret (inr tt)
        end
      else
        match err with
        | errCancelled => Ret (inr tt)
        | errProviderGone => Ret (inl true)
        | err => do! _ := answer c (req_Job req) 502 (job_error_text err) in Ret (inr tt)
        end
  end.

(** One turn of [relay]'s loop. *)
Definition relay_turn `{Texts} (c : nat) (req : Request) (body : list byte) (trailers : list Header)
    (arrived : Z) (front : bool) : job_m (bool + unit) :=
  call! r := CAcquire (req_Service req) arrived front in
  match r with
  | Err e =>
      call! ended := CCtxEnded in
      if (ended : bool) then Ret (inr tt)
      else
        do! _ := answer c (req_Job req) 503 (acquire_error_text e) in
        Ret (inr tt)
  | Ok (l, None) =>
      call! _ := CRelease l in
      do! _ := answer c (req_Job req) 502 "the provider has no connection" in
      Ret (inr tt)
  | Ok (l, Some target) =>
      do! (started, err) := dispatch c req body trailers target in
      call! _ := CRelease l in
      after_attempt c req started err
  end.

Definition relay `{Texts} (c : nat) (req : Request) (q : nat) : job_m unit :=
  deferred (call! _ := CEndJob c (req_Job req) in Ret tt) (
    call! arrived := CNow in
    deferred (call! _ := CCancel None in Ret tt) (
      do! r := collect q in
      match r with
      | Err _ => Ret tt
      | Ok (body, trailers) =>
          call! _ := CWatch q in
          ITree.iter (relay_turn c req body trailers arrived) false
      end)).
