(* ===== verification/RelaySpec.v ===== *)
(** What the server promises about one submitted job, as an automaton over the
    calls of its goroutine, and the proof that [relay] keeps to it.

    The automaton checks each call: a lease is held around at most one attempt,
    an attempt is one job on the lease's connection, the provider is sent a
    request as PROTOCOL.md orders it, everything the provider says is passed on
    before more is taken, and the submitter is sent an answer as PROTOCOL.md
    orders it. *)

From ITree Require Import ITree.
From S2P Require Import Prelude Bytes Io Message Conn PoolSystem Interact Calls JobProtocol Job Server.
Local Open Scope N_scope.

(** ** The automaton *)

(** One attempt at one provider. *)
Record attempt : Type := mkAttempt {
  at_target : nat;
  at_job : N;
  at_queue : nat;
  at_request : request_phase;      (* what the provider has been sent *)
  at_sent : list byte;             (* how much of the body went out *)
  at_answer : answer_phase;        (* what the provider has said *)
  at_last : option Message;        (* its last message, until it is passed on *)
}.

Inductive stage : Type :=
  | Arriving
  | Collecting (arrived : Z)
  | Collected (arrived : Z)        (* the END of the body has come *)
  | Relaying (arrived : Z) (again : bool)
  | Leaving
  | Left.
#[export] Instance stage_eq_dec : EqDecision stage.
Proof. solve_decision. Defined.

Record relay_state : Type := mkRelay {
  rs_stage : stage;
  rs_body : list byte * list Header;          (* the request body, with its trailers *)
  rs_answer : answer_phase;                   (* what the submitter has been sent *)
  rs_lease : option (nat * option nat);
  rs_attempt : option attempt;
  rs_excused : bool;   (* the submitter is gone or never finished its request *)
  rs_broken : bool;    (* a provider did not keep to the sequence *)
}.

Definition relay_start : relay_state := mkRelay Arriving ([], []) Unanswered None None false false.

Definition on_stage (st : stage) (s : relay_state) : relay_state :=
  mkRelay st (rs_body s) (rs_answer s) (rs_lease s) (rs_attempt s) (rs_excused s) (rs_broken s).
Definition on_body (body : list byte * list Header) (s : relay_state) : relay_state :=
  mkRelay (rs_stage s) body (rs_answer s) (rs_lease s) (rs_attempt s) (rs_excused s) (rs_broken s).
Definition on_answer (ph : answer_phase) (s : relay_state) : relay_state :=
  mkRelay (rs_stage s) (rs_body s) ph (rs_lease s) (rs_attempt s) (rs_excused s) (rs_broken s).
Definition on_lease (l : option (nat * option nat)) (s : relay_state) : relay_state :=
  mkRelay (rs_stage s) (rs_body s) (rs_answer s) l (rs_attempt s) (rs_excused s) (rs_broken s).
Definition on_attempt (a : option attempt) (s : relay_state) : relay_state :=
  mkRelay (rs_stage s) (rs_body s) (rs_answer s) (rs_lease s) a (rs_excused s) (rs_broken s).
Definition excuse (s : relay_state) : relay_state :=
  mkRelay (rs_stage s) (rs_body s) (rs_answer s) (rs_lease s) (rs_attempt s) true (rs_broken s).
Definition break (s : relay_state) : relay_state :=
  mkRelay (rs_stage s) (rs_body s) (rs_answer s) (rs_lease s) (rs_attempt s) (rs_excused s) true.

Definition renumber (job : N) (m : Message) : option Message :=
  match m with
  | MResponse m => Some (MResponse (mkResponse job (resp_Status m) (resp_Headers m)))
  | MBody m => Some (MBody (mkBody job (body_Bytes m)))
  | MEnd m => Some (MEnd (mkEnd job (end_Trailers m)))
  | MFail m => Some (MFail (mkFail job (fail_Reason m)))
  | _ => None
  end.

Definition asked (ph : request_phase) : bool := match ph with Asked => true | _ => false end.
Definition answered (ph : answer_phase) : bool := match ph with Answered => true | _ => false end.
Definition is_cancel (m : Message) : bool := match m with MCancel _ => true | _ => false end.

(** A message for the submitter: the next one of its answer; while a provider
    breaks the order, at least nothing after the last one. *)
Definition to_submitter (m : Message) (failed : bool) (s : relay_state) : option relay_state :=
  guard_ (negb (rs_excused s))
    match answer_step m (rs_answer s) with
    | Some ph => Some (if failed then excuse s else on_answer ph s)
    | None =>
        guard_ (rs_broken s && negb (answered (rs_answer s)))
          (Some (if failed then excuse s else if is_last m then on_answer Answered s else s))
    end.

(** A message for the provider: the next one of the same request, its body
    whole before its END. *)
Definition same_request (req : Request) (a : attempt) (m : Message) (s : relay_state) : bool :=
  match m with
  | MRequest r =>
      bool_decide (r = mkRequest (at_job a) (req_Service req) (req_Method req) (req_Target req) (req_Headers req))
  | MEnd e => bool_decide ((at_sent a, end_Trailers e) = rs_body s)
  | _ => true
  end.

Definition to_provider (req : Request) (a : attempt) (m : Message) (failed : bool) (s : relay_state)
    : option relay_state :=
  guard_ (same_request req a m s)
    match request_step m (at_request a) with
    | Some ph =>
        let sent := match m with MBody b => at_sent a ++ body_Bytes b | _ => at_sent a end in
        Some (on_attempt (Some (mkAttempt (at_target a) (at_job a) (at_queue a)
          (if failed then Cancelled else ph) sent (at_answer a) (at_last a))) s)
    | None => None
    end.

Definition passed_on (a : attempt) : attempt :=
  mkAttempt (at_target a) (at_job a) (at_queue a) (at_request a) (at_sent a) (at_answer a) None.

Definition relay_send (c : nat) (req : Request) (c' : nat) (m : Message) (failed : bool) (s : relay_state)
    : option relay_state :=
  match rs_attempt s with
  | Some a =>
      if asked (at_request a) && negb (is_cancel m) then
        guard_ (bool_decide (c' = c /\ at_last a ≫= renumber (req_Job req) = Some m))
          (to_submitter m failed (on_attempt (Some (passed_on a)) s))
      else
        guard_ (bool_decide (c' = at_target a /\ JobID m = Some (at_job a))) (to_provider req a m failed s)
  | None => guard_ (bool_decide (c' = c /\ JobID m = Some (req_Job req))) (to_submitter m failed s)
  end.

(** A message of the provider's; nothing is taken before what came last has
    been passed on. *)
Definition from_provider (a : attempt) (m : Message) (s : relay_state) : option relay_state :=
  guard_ (match at_last a with None => true | Some _ => false end)
    (let s' ph := on_attempt (Some (mkAttempt (at_target a) (at_job a) (at_queue a) (at_request a) (at_sent a) ph (Some m))) s in
     match answer_step m (at_answer a) with
     | Some ph => Some (s' ph)
     | None => Some (break (s' (at_answer a)))
     end).

Definition relay_next (q q' : nat) (r : result job_error Message) (s : relay_state) : option relay_state :=
  match rs_attempt s, rs_stage s with
  | Some a, _ =>
      guard_ (asked (at_request a) && bool_decide (q' = at_queue a))
        match r with
        | Ok m => from_provider a m s
        | Err _ => Some s
        end
  | None, Collecting arrived =>
      guard_ (bool_decide (q' = q /\ rs_excused s = false))
        match r with
        | Ok (MBody b) => Some (on_body ((rs_body s).1 ++ body_Bytes b, []) s)
        | Ok (MEnd e) => Some (on_body ((rs_body s).1, end_Trailers e) (on_stage (Collected arrived) s))
        | _ => Some (excuse s)
        end
  | None, _ => None
  end.

Definition relay_acquire (req : Request) (service : string) (since : Z) (front : bool)
    (r : result acquire_error (nat * option nat)) (s : relay_state) : option relay_state :=
  match rs_stage s with
  | Relaying arrived again =>
      guard_ (bool_decide (service = req_Service req /\ since = arrived /\ front = again /\
                rs_lease s = None /\ rs_attempt s = None /\ rs_excused s = false /\
                (rs_broken s = true \/ rs_answer s = Unanswered)))
        match r with
        | Ok l => Some (on_lease (Some l) (on_stage (Relaying arrived true) s))
        | Err _ => Some s
        end
  | _ => None
  end.

Definition relay_newJob (c : nat) (r : result conn_error (N * nat)) (s : relay_state) : option relay_state :=
  match rs_lease s, rs_attempt s with
  | Some (_, Some target), None =>
      guard_ (bool_decide (c = target))
        match r with
        | Ok (job, q) => Some (on_attempt (Some (mkAttempt c job q Unasked [] Unanswered None)) s)
        | Err _ => Some s
        end
  | _, _ => None
  end.

Definition relay_endJob (c : nat) (req : Request) (c' : nat) (id : N) (s : relay_state) : option relay_state :=
  match rs_attempt s with
  | Some a => guard_ (bool_decide (c' = at_target a /\ id = at_job a)) (Some (on_attempt None s))
  | None =>
      guard_ (bool_decide (rs_stage s = Leaving /\ c' = c /\ id = req_Job req)) (Some (on_stage Left s))
  end.

Definition relay_release (l : nat) (s : relay_state) : option relay_state :=
  match rs_lease s, rs_attempt s with
  | Some (l', _), None => guard_ (bool_decide (l = l')) (Some (on_lease None s))
  | _, _ => None
  end.

Definition relay_cancel (cause : option job_error) (s : relay_state) : option relay_state :=
  match cause, rs_lease s, rs_attempt s, rs_stage s with
  | None, None, None, (Collecting _ | Collected _ | Relaying _ _) => Some (on_stage Leaving s)
  | _, _, _, _ => None
  end.

Definition relay_mon (c : nat) (req : Request) (q : nat) (X : Type) (e : callE X)
    : X -> relay_state -> option relay_state :=
  match e in callE X return X -> relay_state -> option relay_state with
  | CNow => fun t s =>
      match rs_stage s with Arriving => Some (on_stage (Collecting t) s) | _ => None end
  | CNext q' => relay_next q q'
  | CWatch q' => fun _ s =>
      match rs_stage s with
      | Collected t => guard_ (bool_decide (q' = q /\ rs_excused s = false)) (Some (on_stage (Relaying t false) s))
      | _ => None
      end
  | CCtxEnded => fun ended s => Some (if ended then excuse s else s)
  | CAcquire service since front => relay_acquire req service since front
  | CNewJob c' => relay_newJob c'
  | CSend c' m => fun e s =>
      relay_send c req c' m (match e with Some _ => true | None => false end) s
  | CEndJob c' id => fun _ => relay_endJob c req c' id
  | CRelease l => fun _ => relay_release l
  | CCancel cause => fun _ => relay_cancel cause
  | _ => fun _ _ => None
  end.

(** ** [relay] keeps to it *)
Section Relay.
Context `{Texts} (c : nat) (req : Request) (q : nat).

Abbreviation mon := (relay_mon c req q).

(** Before an answer has begun, and after it has ended or been given up. *)
Definition still_open (broken : bool) (ph : answer_phase) : Prop :=
  ph <> Answered /\ (broken = false -> ph = Unanswered).

Definition idle (arrived : Z) (again : bool) (body : list byte * list Header) (s : relay_state) : Prop :=
  exists ph broken, s = mkRelay (Relaying arrived again) body ph None None false broken /\
    still_open broken ph.

Definition settled (s : relay_state) : Prop :=
  exists arrived again body ph excused broken,
    s = mkRelay (Relaying arrived again) body ph None None excused broken /\
    (ph = Answered \/ excused = true \/ broken = true).

(** One call, the monitor evaluated on its answer. *)
Ltac accept := eexists; split; [cbn; decided; unfold to_provider, guard_, same_request; cbn; decided; reflexivity|].
Ltac invoke r := apply ok_call; intros r; accept.

Lemma answer_ok arrived again body ph broken status why :
  still_open broken ph ->
  ok mon (answer c (req_Job req) status why)
    (mkRelay (Relaying arrived again) body ph None None false broken) (fun _ s => settled s).
Proof.
  intros [Hph Hun]. unfold answer, synthMessages.
  assert (forall s, settled s -> ok mon (Ret tt) s (fun _ s => settled s)) as Hret by (intros; by apply ok_ret).
  destruct broken; [|rewrite Hun by done].
  - destruct ph; [| |done]; unfold send_each;
      repeat (apply ok_call; intros [e|]; accept;
        [apply Hret; repeat eexists; by right; left|]);
      apply Hret; repeat eexists; by right; right.
  - unfold send_each.
    repeat (apply ok_call; intros [e|]; accept;
        [apply Hret; repeat eexists; by right; left|]).
    apply Hret; repeat eexists; by left.
Qed.

(** What is known when an attempt is over. *)
Definition attempt_over (started : bool) (err : option job_error) (ph : answer_phase) (excused broken : bool) : Prop :=
  match err with
  | None => ph = Answered
  | Some errCancelled => excused = true
  | Some errProviderGone =>
      excused = false /\ ph <> Answered /\ (broken = false -> ph = if started then Answering else Unanswered)
  | Some (providerFail _ | NotAnAnswer _) =>
      excused = false /\ if started then broken = true else still_open broken ph
  | _ => False
  end.

Definition attempted (arrived : Z) (body : list byte * list Header) (l : nat * option nat)
    (r : bool * option job_error) (s : relay_state) : Prop :=
  exists ph excused broken,
    s = mkRelay (Relaying arrived true) body ph (Some l) None excused broken /\
    attempt_over r.1 r.2 ph excused broken.

Definition attempting arrived body l target job dq (r : bool * option job_error) (s : relay_state) : Prop :=
  exists rq sent said last ph excused broken,
    s = mkRelay (Relaying arrived true) body ph (Some l)
          (Some (mkAttempt target job dq rq sent said last)) excused broken /\
    attempt_over r.1 r.2 ph excused broken.

(** The loop of [dispatch]: what the provider has said has been passed on. *)
Definition relaying arrived body l target job dq (started : bool) (s : relay_state) : Prop :=
  exists sent said ph broken,
    s = mkRelay (Relaying arrived true) body ph (Some l)
          (Some (mkAttempt target job dq Asked sent said None)) false broken /\
    ph <> Answered /\
    (broken = false -> said = ph /\ ph = if started then Answering else Unanswered).

Lemma dispatch_turn_ok arrived body l target job dq started s :
  relaying arrived body l target job dq started s ->
  ok mon (dispatch_turn c req target job dq started) s
    (fun r s' => match r with
                 | inl started => relaying arrived body l target job dq started s'
                 | inr r => attempting arrived body l target job dq r s'
                 end).
Proof.
  intros (sent & said & ph & broken & -> & Hph & Hsaid). unfold dispatch_turn.
  apply ok_call. intros [m|e]; cycle 1.
  { accept. apply ok_call. intros [|]; accept.
    - invoke r. apply ok_ret. by repeat eexists.
    - apply ok_ret. repeat eexists; [done|]. intros Hb. by destruct (Hsaid Hb). }
  destruct m, said, ph, broken, started; try done; try (specialize (Hsaid eq_refl); by destruct Hsaid).
  all: accept; try (apply ok_ret; by repeat eexists).
  all: apply ok_call; intros [e|]; accept; [invoke r; apply ok_ret; by repeat eexists|].
  all: apply ok_ret; by repeat eexists.
Qed.

(** An attempt from its job to its end. *)
Lemma dispatch_job_ok arrived l target job dq body trailers ph broken :
  still_open broken ph ->
  ok mon (dispatch_job c req body trailers target job dq)
    (mkRelay (Relaying arrived true) (body, trailers) ph (Some l)
       (Some (mkAttempt target job dq Unasked [] Unanswered None)) false broken)
    (attempting arrived (body, trailers) l target job dq).
Proof.
  intros [Hph Hopen]. unfold dispatch_job.
  apply ok_call. intros [e|]; accept; [apply ok_ret; by repeat eexists|].
  eapply (ok_bind _ _ _ _ (fun e s => match e with
    | Some _ => attempting arrived (body, trailers) l target job dq (false, Some errProviderGone) s
    | None => relaying arrived (body, trailers) l target job dq false s
    end)).
  - apply (ok_sendBodyEnd mon target job body trailers (fun sent =>
      mkRelay (Relaying arrived true) (body, trailers) ph (Some l)
       (Some (mkAttempt target job dq Asking sent Unanswered None)) false broken)).
    + intros sent chunk rest [e|] _ _; accept; [by repeat eexists | done].
    + intros [e|]; accept; [by repeat eexists|]. exists body, Unanswered, ph, broken.
      split_and!; [done|done|]. intros Hb. by rewrite Hopen.
  - intros [e|] s Hs; [by apply ok_ret|].
    apply (ok_iter mon _ (relaying arrived (body, trailers) l target job dq)); [|done].
    intros started s' Hs'. by apply dispatch_turn_ok.
Qed.

Lemma attempt_ok arrived l target body trailers ph broken :
  still_open broken ph ->
  ok mon (dispatch c req body trailers target)
    (mkRelay (Relaying arrived true) (body, trailers) ph (Some (l, Some target)) None false broken)
    (attempted arrived (body, trailers) (l, Some target)).
Proof.
  intros Hopen. unfold dispatch. apply ok_call. intros [[job dq]|e]; accept.
  - eapply ok_bind; [by apply dispatch_job_ok|].
    intros [started err] s (rq & sent & said & last & ph' & excused & br & -> & Hover).
    eapply (ok_bind _ _ _ _ (fun _ => attempted arrived (body, trailers) (l, Some target) (started, err))).
    + invoke r. apply ok_ret. by repeat eexists.
    + intros [] s' Hs. by apply ok_ret.
  - apply ok_ret. by repeat eexists; destruct Hopen.
Qed.

Lemma after_attempt_ok arrived body started err ph excused broken :
  attempt_over started err ph excused broken ->
  ok mon (after_attempt c req started err)
    (mkRelay (Relaying arrived true) body ph None None excused broken)
    (fun r s => match r with inl again => again = true /\ idle arrived true body s | inr _ => settled s end).
Proof.
  intros Hover. unfold after_attempt. destruct err as [err|]; [|apply ok_ret; repeat eexists; by left].
  destruct started, err; try done; simpl in Hover.
  all: try (apply ok_ret; repeat eexists; tauto).
  - destruct Hover as (-> & Hph & Hb). apply ok_call.
    assert (ph = Unanswered /\ broken = true \/ ph = Answering) as [[-> ->]| ->]
      by (destruct ph, broken; auto; done).
    all: intros [e|]; accept; apply ok_ret; repeat eexists; tauto.
  - destruct Hover as (-> & Hph & Hb). apply ok_ret. split; [done|]. by repeat eexists.
  - destruct Hover as [-> Hopen]. eapply ok_bind; [by apply answer_ok|]. intros [] s Hs. by apply ok_ret.
  - destruct Hover as [-> Hopen]. eapply ok_bind; [by apply answer_ok|]. intros [] s Hs. by apply ok_ret.
Qed.

Lemma relay_turn_ok arrived again body trailers s :
  idle arrived again (body, trailers) s ->
  ok mon (relay_turn c req body trailers arrived again) s
    (fun r s => match r with inl again => idle arrived again (body, trailers) s | inr _ => settled s end).
Proof.
  intros (ph & broken & -> & Hopen). unfold relay_turn.
  assert (broken = true \/ ph = Unanswered) as Hph by (destruct Hopen, broken; auto).
  apply ok_call. intros [[l [target|]]|e]; accept.
  - eapply ok_bind; [by apply attempt_ok|]. intros [started err] s (ph' & excused & br & -> & Hover).
    invoke r. eapply ok_conseq; [by apply after_attempt_ok|]. intros [again'|] s Hs; [|done]. by destruct Hs as [-> ?].
  - invoke r. eapply ok_bind; [by apply answer_ok|]. intros [] s Hs. by apply ok_ret.
  - apply ok_call. intros [|]; accept; [apply ok_ret; repeat eexists; by right; left|].
    eapply ok_bind; [by apply answer_ok|]. intros [] s Hs. by apply ok_ret.
Qed.

(** What every run of [relay] leaves. *)
Definition relay_over (s : relay_state) : Prop :=
  rs_stage s = Left /\ rs_lease s = None /\ rs_attempt s = None /\
  (rs_answer s = Answered \/ rs_excused s = true \/ rs_broken s = true).

Definition about_to_leave (s : relay_state) : Prop :=
  match rs_stage s with Collecting _ | Collected _ | Relaying _ _ => True | _ => False end /\
  rs_lease s = None /\ rs_attempt s = None /\
  (rs_answer s = Answered \/ rs_excused s = true \/ rs_broken s = true).

Lemma relay_job_ok arrived :
  ok mon
    (seq (collect q) (fun r =>
      match r with
      | Err _ => Ret tt
      | Ok (body, trailers) => Vis (CWatch q) (fun _ => ITree.iter (relay_turn c req body trailers arrived) false)
      end))
    (mkRelay (Collecting arrived) ([], []) Unanswered None None false false)
    (fun _ => about_to_leave).
Proof.
  eapply (ok_bind _ _ _ _ (fun r s => match r with
    | Ok body => s = mkRelay (Collected arrived) body Unanswered None None false false
    | Err _ => about_to_leave s
    end)).
  - apply (ok_collect mon q (fun body => mkRelay (Collecting arrived) (body, []) Unanswered None None false false)).
    + intros body m. cbn. by decided.
    + intros body m. by accept.
    + intros body [[]|] Hr; try done; accept; intros err; repeat split; by right; left.
  - intros [[body trailers]|e] s Hs; [subst s|by apply ok_ret].
    invoke r. apply (ok_iter mon _ (fun again s => idle arrived again (body, trailers) s)).
    + intros again s Hs. eapply ok_conseq; [by apply relay_turn_ok|].
      intros [again'|[]] s'; [done|]. intros (? & ? & ? & ? & ? & ? & -> & ?). by repeat split.
    + by repeat eexists.
Qed.

Lemma relay_ok : ok mon (relay c req q) relay_start (fun _ => relay_over).
Proof.
  unfold relay. eapply (ok_bind _ _ _ _ (fun _ s => exists s', s = on_stage Leaving s' /\ about_to_leave s')).
  - invoke arrived. eapply ok_bind; [apply relay_job_ok|]. intros [] s Hs.
    eapply (ok_bind _ _ _ _ (fun _ s' => s' = on_stage Leaving s)); [|intros [] s' ->; apply ok_ret; by exists s].
    destruct s as [st body ph lease att exc br], Hs as (Hst & Hl & Ha & Hp). simpl in *. subst.
    apply ok_call. intros []. destruct st; try done; accept; by apply ok_ret.
  - intros [] s' (s & -> & Hs). destruct s as [st body ph lease att exc br], Hs as (Hst & Hl & Ha & Hp).
    simpl in *. subst. eapply (ok_bind _ _ _ _ (fun _ => relay_over)); [|intros [] s Hs; by apply ok_ret].
    invoke r. by apply ok_ret.
Qed.
End Relay.

(** ** The answer the submitter sees *)

(** The ids a connection numbers its own jobs with are not the peer's
    (ConnTheorems.v, [job_ids_fresh]). *)
Definition numbers_apart_event (c : nat) (job : N) (ev : event callE) : Prop :=
  match ev with
  | Ev e x =>
      match e in callE X return X -> Prop with
      | CNewJob c' => fun r => match r with Ok (id, _) => c' = c -> id <> job | Err _ => True end
      | _ => fun _ => True
      end x
  end.
Definition numbers_apart (c : nat) (job : N) : list (event callE) -> Prop := Forall (numbers_apart_event c job).

Definition apart (c : nat) (job : N) (s : relay_state) : Prop :=
  match rs_attempt s with Some a => at_target a = c -> at_job a <> job | None => True end.

Lemma to_submitter_answer m failed s s' :
  to_submitter m failed s = Some s' ->
  rs_attempt s' = rs_attempt s /\
  (rs_broken s' = false -> rs_broken s = false /\
     if failed then rs_answer s' = rs_answer s else answer_step m (rs_answer s) = Some (rs_answer s')).
Proof.
  unfold to_submitter. intros H. guards. destruct (answer_step m (rs_answer s)) as [ph|] eqn:E; guards.
  - by destruct failed.
  - destruct failed; [split; [done|]; simpl; congruence|].
    destruct (is_last m); (split; [done|]); simpl; congruence.
Qed.

(** How one event changes what the submitter has seen. *)
Definition answers (c : nat) (job : N) (ev : event callE) (s s' : relay_state) : Prop :=
  apart c job s' /\
  (rs_broken s' = false -> rs_broken s = false /\
     match sent_event c job ev with
     | Some m => answer_step m (rs_answer s) = Some (rs_answer s')
     | None => rs_answer s' = rs_answer s
     end).

Lemma relay_send_answer c req c' m r s s' :
  relay_send c req c' m (match r with Some _ => true | None => false end) s = Some s' ->
  apart c (req_Job req) s -> answers c (req_Job req) (Ev (CSend c' m) r) s s'.
Proof.
  intros H Ha. unfold relay_send in H. unfold answers, apart in *. simpl.
  assert (forall s0, to_submitter m (match r with Some _ => true | None => false end) s0 = Some s' ->
    c' = c -> JobID m = Some (req_Job req) -> rs_attempt s' = rs_attempt s0 /\
    (rs_broken s' = false -> rs_broken s0 = false /\
    match (match r with None => if bool_decide (c' = c /\ JobID m = Some (req_Job req)) then Some m else None
           | Some _ => None end) with
    | Some m => answer_step m (rs_answer s0) = Some (rs_answer s')
    | None => rs_answer s' = rs_answer s0
    end)) as Hsub.
  { intros s0 [Hs Hb]%to_submitter_answer -> Hj. split; [done|]. intros [??]%Hb.
    split; [done|]. destruct r; [done|]. by rewrite bool_decide_true. }
  destruct (rs_attempt s) as [a|] eqn:Ea.
  - destruct (asked (at_request a) && negb (is_cancel m)).
    + guards. apply Hsub in H as [Hat Hs]; [by rewrite Hat|done|].
      destruct (at_last a) as [[]|]; simpl in *; simplify_eq; done.
    + guards. unfold to_provider in H. guards. destruct (request_step m (at_request a)); guards. simpl in *.
      split; [done|]. intros ->. split; [done|]. destruct r; [done|]. rewrite bool_decide_false; [done|].
      intros [? ?]. apply Ha; congruence.
  - guards. apply Hsub in H as [Hat Hs]; [by rewrite Hat, Ea|done..].
Qed.

Lemma relay_step_answer c req q X (e : callE X) x s s' :
  relay_mon c req q X e x s = Some s' ->
  numbers_apart_event c (req_Job req) (Ev e x) -> apart c (req_Job req) s ->
  answers c (req_Job req) (Ev e x) s s'.
Proof.
  intros H Hn Ha. destruct e; try (by guards); cbn [relay_mon] in H.
  1: by apply relay_send_answer.
  all: unfold answers, apart in *; cbn [sent_event].
  - unfold relay_newJob in H. destruct (rs_lease s) as [[l [t|]]|], (rs_attempt s) eqn:Ea; guards.
    destruct x as [[job dq]|err]; guards; simpl in *; [done | by rewrite Ea].
  - unfold relay_endJob in H. destruct (rs_attempt s) eqn:Ea; guards; simpl in *; [done | by rewrite Ea].
  - unfold relay_next in H. destruct (rs_attempt s) as [a|] eqn:Ea.
    + guards. destruct x as [m|err]; guards; [|by rewrite Ea]. unfold from_provider in H. guards.
      by destruct (answer_step m (at_answer a)); guards.
    + destruct (rs_stage s); guards. destruct x as [[]|]; guards; simpl in *; by rewrite Ea.
  - by destruct x; guards.
  - unfold relay_cancel in H.
    destruct cause, (rs_lease s), (rs_attempt s) eqn:Ea, (rs_stage s); guards; simpl; by rewrite ?Ea.
  - by destruct (rs_stage s) eqn:Es; guards.
  - by destruct (rs_stage s) eqn:Es; guards.
  - unfold relay_acquire in H. destruct (rs_stage s); guards. by destruct x; guards.
  - unfold relay_release in H. destruct (rs_lease s) as [[]|], (rs_attempt s) eqn:Ea; guards. simpl. by rewrite Ea.
Qed.

Lemma run_answer c req q l s s' :
  run (relay_mon c req q) l s = Some s' ->
  numbers_apart c (req_Job req) l -> apart c (req_Job req) s -> rs_broken s' = false ->
  rs_broken s = false /\ phases answer_step (sent c (req_Job req) l) (rs_answer s) = Some (rs_answer s').
Proof.
  revert s. induction l as [|[X e x] l IH]; intros s Hr Hn Ha Hb; [by simplify_eq/=|].
  apply Forall_cons in Hn as [Hev Hn]. cbn [run] in Hr.
  destruct (relay_mon c req q X e x s) as [s1|] eqn:E; [|done].
  apply relay_step_answer in E as [Ha1 Hs]; [|done..].
  destruct (IH s1 Hr Hn Ha1 Hb) as [Hb1 Hp]. destruct (Hs Hb1) as [Hb0 Hm]. split; [done|].
  unfold sent in *. cbn [omap list_omap]. destruct (sent_event _ _ _) as [m|]; simpl; [by rewrite Hm | congruence].
Qed.


(** ** A job whose first provider vanishes *)
Definition demo_request : Request := mkRequest 1 "llm" "POST" "/" [].
Definition demo_script : script :=
  mkScript [Ok (MBody (mkBody 1 [x41])); Ok (MEnd (mkEnd 1 [])); Err CtxErr;
            Ok (MResponse (mkResponse 2 200 [])); Ok (MBody (mkBody 2 [x42])); Ok (MEnd (mkEnd 2 []))] [].
Definition demo_relay : list (event callE) * option unit :=
  exec obliging 100 (relay 0 demo_request 0) demo_script.

