(* ===== verification/Deadline.v ===== *)
(** The deadline of a job: the queue's timeout counts from the moment the job
    first arrived, however often it is queued again (the [since] and [front] of
    internal/pool/pool.go's [Acquire], as [relay] of internal/peer/server.go
    gives them). *)

From ITree Require Import ITree.
From S2P Require Import Prelude Bytes Message Conn Pool PoolSystem PoolTheorems Interact Calls JobProtocol Job Server RelaySpec.
Local Open Scope Z_scope.

(** A call of [Acquire] that gave the job a slot. *)
Definition granted_event (ev : event callE) : bool :=
  match ev with
  | Ev e x =>
      match e in callE X return X -> bool with
      | CAcquire _ _ _ => fun r => match r with Ok _ => true | Err _ => false end
      | _ => fun _ => false
      end x
  end.
Definition had_slot (l : list (event callE)) : bool := existsb granted_event l.

(** The monitor of [relay] carries the arrival time, and whether the job has had
    a slot before. *)
Definition carries (arrived : Z) (l : list (event callE)) (s : relay_state) : Prop :=
  match rs_stage s with
  | Arriving => False
  | Collecting t | Collected t => t = arrived /\ had_slot l = false
  | Relaying t again => t = arrived /\ again = had_slot l
  | Leaving | Left => True
  end.

(** The time the first call of a trace read. *)
Definition first_read (l : list (event callE)) : option Z :=
  match l with
  | Ev e x :: _ => match e in callE X return X -> option Z with CNow => Some | _ => fun _ => None end x
  | [] => None
  end.

Lemma had_slot_snoc l ev : had_slot (l ++ [ev]) = had_slot l || granted_event ev.
Proof. unfold had_slot. rewrite existsb_app. simpl. by rewrite orb_false_r. Qed.

(** A step that leaves the stage and gives no slot. *)
Lemma carries_same arrived l s s' ev :
  carries arrived l s -> rs_stage s' = rs_stage s -> granted_event ev = false -> carries arrived (l ++ [ev]) s'.
Proof. unfold carries. intros H -> E. by rewrite had_slot_snoc, E, orb_false_r. Qed.

Lemma to_submitter_stage m failed s s' : to_submitter m failed s = Some s' -> rs_stage s' = rs_stage s.
Proof. unfold to_submitter. intros H. guards. by repeat case_match; guards. Qed.

Lemma relay_send_stage c req c' m failed s s' : relay_send c req c' m failed s = Some s' -> rs_stage s' = rs_stage s.
Proof.
  unfold relay_send, to_provider. intros H. repeat case_match; guards; try by apply to_submitter_stage in H.
  all: by repeat case_match; guards.
Qed.

Lemma carries_step c req q X (e : callE X) x arrived l s s' :
  carries arrived l s -> relay_mon c req q X e x s = Some s' -> carries arrived (l ++ [Ev e x]) s'.
Proof.
  intros Hc H. destruct e; cbn [relay_mon] in H; try discriminate H.
  - apply (carries_same _ _ s); [done | by apply relay_send_stage in H | done].
  - apply (carries_same _ _ s); [done | | done]. unfold relay_newJob in H. by repeat case_match; guards.
  - unfold relay_endJob in H. destruct (rs_attempt s) eqn:Ea; guards; [by eapply carries_same | done].
  - unfold relay_next, from_provider in H. destruct (rs_attempt s).
    + apply (carries_same _ _ s); [done | | done]. by repeat case_match; guards.
    + unfold carries in *. rewrite had_slot_snoc, orb_false_r.
      destruct (rs_stage s) eqn:Es; try done. guards. by destruct x as [[]|]; guards; simpl; rewrite ?Es.
  - guards. by destruct x; eapply carries_same.
  - unfold relay_cancel in H. repeat case_match; guards; done.
  - unfold carries in *. destruct (rs_stage s) eqn:Es; try done. guards. simpl. rewrite had_slot_snoc, orb_false_r.
    split; congruence.
  - unfold carries in Hc. by destruct (rs_stage s).
  - unfold relay_acquire in H. destruct (rs_stage s) as [| | |t again| |] eqn:Es; try done. guards.
    destruct x as [lease|e]; guards; [|by eapply carries_same].
    unfold carries in *. rewrite Es in Hc. simpl. rewrite had_slot_snoc, orb_true_r. by destruct Hc.
  - apply (carries_same _ _ s); [done | | done]. unfold relay_release in H. by repeat case_match; guards.
Qed.

Lemma carries_run c req q arrived l l' s s' :
  carries arrived l s -> run (relay_mon c req q) l' s = Some s' -> carries arrived (l ++ l') s'.
Proof.
  revert l s. induction l' as [|[X e x] l' IH]; intros l s Hc Hr; [simplify_eq/=; by rewrite app_nil_r|].
  cbn [run] in Hr. destruct (relay_mon c req q X e x s) as [s1|] eqn:E; [|done].
  change (l ++ Ev e x :: l') with (l ++ [Ev e x] ++ l'). rewrite app_assoc. apply (IH _ s1); [|done].
  by apply (carries_step c req q _ _ _ _ _ s).
Qed.

(** The first thing [relay] does is to look at the clock. *)
Lemma relay_starts `{Texts} c req q ev l o :
  traces (relay c req q) (ev :: l) o -> exists arrived, ev = Ev CNow arrived.
Proof.
  intros [n Ht]. apply trace_inv in Ht. cbn in Ht.
  destruct Ht as [[? _]|(m & x & l' & _ & [= -> _] & _)]; [done | by exists x].
Qed.

(** What [relay] asks of the pool. *)
Lemma relay_acquires `{Texts} c req q l service since front r o :
  traces (relay c req q) (l ++ [Ev (CAcquire service since front) r]) o ->
  exists arrived l', l = Ev CNow arrived :: l' /\ service = req_Service req /\ since = arrived /\ front = had_slot l'.
Proof.
  intros Ht. destruct l as [|ev l]; [by apply relay_starts in Ht as [? ?]|].
  destruct (relay_starts c req q ev (l ++ [Ev (CAcquire service since front) r]) o Ht) as [arrived ->].
  exists arrived, l. split; [done|].
  destruct (relay_ok c req q _ _ Ht) as (s & Hr & _). cbn [run relay_mon relay_start rs_stage app] in Hr.
  rewrite run_app in Hr. destruct (run _ l _) as [s1|] eqn:E; [|done]. cbn [run relay_mon] in Hr.
  assert (carries arrived ([] ++ l) s1) as Hc by (eapply carries_run; [|exact E]; by split).
  destruct (relay_acquire req service since front r s1) as [s2|] eqn:Ea; [|done].
  unfold relay_acquire in Ea. unfold carries in Hc. destruct (rs_stage s1); try done. guards. simpl in *. split_and!; congruence.
Qed.

(** C17. A job's deadline is its first arrival plus the queue's timeout, however
    often it is queued again.  Every time [relay] asks the pool for a slot it
    gives the time it read when the job arrived, before anything else, and asks
    for the head of the queue exactly when the job has had a slot before.  So in
    any state of the pool, whatever the other jobs and peers do, the timer of the
    call that waits for this job can fire when that first arrival plus the
    timeout has come, not before and not later; and a call that returned a
    timeout to it did so then or after, and names the service and the timeout. *)
Theorem deadline_from_first_arrival `{Texts} c req q l service since front r o :
  traces (relay c req q) (l ++ [Ev (CAcquire service since front) r]) o ->
  exists arrived l', l = Ev CNow arrived :: l' /\ service = req_Service req /\ front = had_slot l' /\
    forall (T : Type) timeout (s : Sys (T := T)) k, reachable timeout s ->
      let call ph := sys_calls s !! k = Some (mkRequestArgs service since front, ph) in
      (forall w, call (Waiting w) ->
         (exists s' e, step s s' /\
            sys_calls s' !! k = Some (mkRequestArgs service since front, Abandoning w e) /\ e <> ContextErr) <->
         arrived + timeout <= sys_now s) /\
      (forall name waited, call (Returned (Err (TimeoutError name waited))) ->
         arrived + timeout <= sys_now s /\ name = req_Service req /\ waited = timeout).
Proof.
  intros Ht. destruct (relay_acquires c req q l service since front r o Ht) as (arrived & l' & -> & -> & -> & ->).
  exists arrived, l'. do 3 (split; [done|]). intros T timeout s k Hr call. split.
  - intros w Hw. apply (timer_fires timeout s k _ w Hr Hw).
  - intros name waited Hc. exact (timed_out_after_deadline timeout s k _ name waited Hr Hc).
Qed.

(** ** A job whose first provider vanishes asks again

    It arrived at 0, and its first provider's connection is closed. *)
Definition closing (X : Type) (e : callE X) (s : script) : X * script :=
  match e in callE X return X * script with
  | CNewJob _ => (Err ErrClosed, s)
  | e => obliging _ e s
  end.
Definition demo_asks (fuel : nat) : list (event callE) * option unit :=
  exec closing fuel (relay 0 (mkRequest 1 "svc" "GET" "/" []) 0) (mkScript [Ok (MEnd (mkEnd 1 []))] []).

(** What it asks of the pool, the second time at the head of the queue; and, had
    it had to wait, the call of PoolTheorems.v's [demo_late], which timed out. *)
Lemma deadline_from_first_arrival_witness :
  (exists arrived l', (demo_asks 6).1 = Ev CNow arrived :: l' /\ had_slot l' = true) /\
  sys_calls demo_late !! 1%nat =
    Some (mkRequestArgs "svc" 0 false, Returned (Err (TimeoutError "svc" 10))) /\
  0 + 10 <= sys_now demo_late.
Proof.
  split; [|split; [reflexivity|]].
  - destruct (deadline_from_first_arrival 0 (mkRequest 1 "svc" "GET" "/" []) 0 (demo_asks 6).1 "svc" 0 true
      (Ok (0%nat, Some 7%nat)) (demo_asks 8).2) as (arrived & l' & El & _ & Ef & _).
    + change ((demo_asks 6).1 ++ [Ev (CAcquire "svc" 0 true) (Ok (0%nat, Some 7%nat))]) with (demo_asks 8).1.
      apply exec_traces.
    + exists arrived, l'. split; [exact El | symmetry; exact Ef].
  - destruct (deadline_from_first_arrival 0 (mkRequest 1 "svc" "GET" "/" []) 0 (demo_asks 3).1 "svc" 0 false
      (Ok (0%nat, Some 7%nat)) (demo_asks 4).2) as (arrived & l' & El & _ & _ & Hpool).
    + change ((demo_asks 3).1 ++ [Ev (CAcquire "svc" 0 false) (Ok (0%nat, Some 7%nat))]) with (demo_asks 4).1.
      apply exec_traces.
    + apply (f_equal first_read) in El. vm_compute in El. injection El as <-.
      apply (proj2 (Hpool unit 10 demo_late 1%nat demo_late_reachable) "svc"%string 10). reflexivity.
Defined.
