(* ===== verification/Provide.v ===== *)
(** The provider side of a job: internal/peer/provide.go. *)

From ITree Require Import ITree.
From S2P Require Import Prelude Bytes Io Message GoStrings Headers Conn PoolSystem Conf Interact Calls JobProtocol Job.
Local Open Scope call_scope.

(** One turn of the loop over the upstream's body. *)
Definition upstream_turn (c : nat) (job : N) : job_m (unit + option job_error) :=
  call! (buf, e) := CRead bodyChunk in
  do! sent :=
    match buf with
    | [] => Ret None
    | _ => call! r := CSend c (MBody (mkBody job buf)) in Ret r
    end in
  match sent, e with
  | Some err, _ => Ret (inr (Some (FromConn err)))
  | None, More => Ret (inl tt)
  | None, AtEOF => Ret (inr None)
  | None, ReadFailed err => Ret (inr (Some (FromHTTP err)))
  end.

(** After the upstream answered: its body is closed whatever happens. *)
Definition relay_upstream (c : nat) (job : N) (status : Z) (header : HTTPHeader) : job_m (option job_error) :=
  deferred (call! _ := CCloseBody in Ret tt)
    (if (status <? 100)%Z || (599 <? status)%Z then Ret (Some (UpstreamStatus status))
     else
       call! e := CSend c (MResponse (mkResponse job (Z.to_N status) (fromHTTP header []))) in
       match e with
       | Some e => Ret (Some (FromConn e))
       | None =>
           do! e := ITree.iter (fun _ => upstream_turn c job) tt in
           match e with
           | Some e => Ret (Some e)
           | None =>
               call! trailer := CTrailer in
               call! e := CSend c (MEnd (mkEnd job (fromHTTP trailer []))) in
               Ret (option_map FromConn e)
           end
       end).

(** What goes to the upstream. *)
Definition to_upstream (req : Request) (p : Provide) (body : list byte) : upstream_request :=
  let header := toHTTP (req_Headers req) ["Content-Length"%string] in
  mkUpstream (req_Method req) ("http://" +:+ prov_Upstream p +:+ req_Target req) (prov_Upstream p)
    header (negb (bool_decide (is_Some (header !! "User-Agent"%string)))) body.

Definition runUpstream (c : nat) (req : Request) (p : Provide) (body : list byte) : job_m (option job_error) :=
  if negb (HasPrefix (req_Target req) "/") then Ret (Some (NotAPath (req_Target req)))
  else
    let request := to_upstream req p body in
    call! e := CNewRequest (up_method request) (up_url request) in
    match e with
    | Some e => Ret (Some (FromHTTP e))
    | None =>
        call! r := CDo request in
        match r with
        | Err e => Ret (Some (FromHTTP e))
        | Ok (status, header) => relay_upstream c (req_Job req) status header
        end
    end.

Definition send_fail `{Texts} (c : nat) (job : N) (err : job_error) : job_m unit :=
  do! why := reason err in
  call! _ := CSend c (MFail (mkFail job why)) in Ret tt.

(** Once a slot is taken. *)
Definition provide_job `{Texts} (c : nat) (req : Request) (p : Provide) (q : nat) : job_m unit :=
  do! r := collect q in
  match r with
  | Err e => send_fail c (req_Job req) e
  | Ok (body, _) =>
      call! _ := CWatch q in
      do! e := runUpstream c req p body in
      match e with
      | Some e => send_fail c (req_Job req) e
      | None => Ret tt
      end
  end.

Definition provide `{Texts} (byName : gmap string Provide) (c : nat) (req : Request) (q : nat) : job_m unit :=
  deferred (call! _ := CEndJob c (req_Job req) in Ret tt)
    match byName !! req_Service req with
    | None =>
        call! _ := CSend c (MFail (mkFail (req_Job req) ("this peer provides no " +:+ quoted (req_Service req)))) in
        Ret tt
    | Some p =>
        call! ok := CTake (req_Service req) (prov_MaxConcurrent p) in
        if negb ok then
          call! _ := CFail c (TooManyJobs (prov_MaxConcurrent p) (req_Service req)) in Ret tt
        else
          deferred (call! _ := CGive (req_Service req) in Ret tt)
            (deferred (call! _ := CCancel None in Ret tt) (provide_job c req p q))
    end.
