(* ===== verification/ProvideSpec.v ===== *)
(** What a providing peer promises about one job it is sent, as an automaton
    over the calls of its goroutine, and the proof that [provide] keeps to it.

    A slot is held from its taking to the end of the job, the upstream is asked
    only once the END of the request's body has come and is given that body whole
    under the job's own method, target and headers, every piece of the upstream's
    body is passed on before the next is read, and the peer that sent the job is
    answered as PROTOCOL.md orders it. *)

From ITree Require Import ITree.
From S2P Require Import Prelude Bytes Io Message GoStrings Headers Conn PoolSystem Conf Interact Calls JobProtocol Job Provide.
Local Open Scope N_scope.

(** ** The automaton *)
Inductive pv_stage : Type :=
  | PvFresh
  | PvRefused          (* no slot was free *)
  | PvCollecting
  | PvBroken           (* the body will not be whole *)
  | PvWhole            (* its END has come *)
  | PvWatched          (* and its queue is watched *)
  | PvAsked            (* the upstream has been given the request *)
  | PvDone             (* the context is cancelled, the slot still held *)
  | PvFree             (* no slot is held *)
  | PvLeft.
#[export] Instance pv_stage_eq_dec : EqDecision pv_stage.
Proof. solve_decision. Defined.

Record pv_state : Type := mkPv {
  pv_at : pv_stage;
  pv_body : list byte;                            (* of the request *)
  pv_answer : answer_phase;                       (* what has been sent *)
  pv_lost : bool;                                 (* the last send failed *)
  pv_open : bool;                                 (* the upstream's answer *)
  pv_piece : list byte;                           (* read and not passed on *)
  pv_eof : bool;
  pv_failed : bool;                               (* the connection was ended *)
}.

Definition pv_start : pv_state := mkPv PvFresh [] Unanswered false false [] false false.

Definition pv_on (st : pv_stage) (s : pv_state) : pv_state :=
  mkPv st (pv_body s) (pv_answer s) (pv_lost s) (pv_open s) (pv_piece s) (pv_eof s) (pv_failed s).
Definition pv_set_body (body : list byte) (s : pv_state) : pv_state :=
  mkPv (pv_at s) body (pv_answer s) (pv_lost s) (pv_open s) (pv_piece s) (pv_eof s) (pv_failed s).
Definition pv_said (ph : answer_phase) (lost : bool) (piece : list byte) (s : pv_state) : pv_state :=
  mkPv (pv_at s) (pv_body s) ph lost (pv_open s) piece (pv_eof s) (pv_failed s).
Definition pv_upstream (open : bool) (piece : list byte) (eof : bool) (s : pv_state) : pv_state :=
  mkPv (pv_at s) (pv_body s) (pv_answer s) (pv_lost s) open piece eof (pv_failed s).

Definition is_stage (st st' : pv_stage) : bool := bool_decide (st = st').

(** A message may be sent: the next one of the answer, a piece of body just as
    it was read, END only at the end of the upstream's body, and after a send
    that failed only the FAIL that says so.  Before the upstream has been asked
    there is only a FAIL to say: of a service this peer does not have, or of a
    body that did not come whole. *)
Definition may_fail (byName : gmap string Provide) (service : string) (s : pv_state) : bool :=
  match pv_at s with
  | PvFresh => bool_decide (byName !! service = None)
  | PvBroken | PvWatched | PvAsked => negb (pv_open s)
  | _ => false
  end.

Definition may_say (byName : gmap string Provide) (service : string) (m : Message) (s : pv_state) : bool :=
  match m with
  | MResponse r => pv_open s && (minStatus <=? resp_Status r) && (resp_Status r <=? maxStatus) && negb (pv_lost s)
  | MBody b => bool_decide (body_Bytes b = pv_piece s /\ pv_piece s <> []) && negb (pv_lost s)
  | MEnd _ => bool_decide (pv_piece s = []) && pv_eof s && negb (pv_lost s)
  | MFail _ => may_fail byName service s
  | _ => false
  end.

Definition pv_send (byName : gmap string Provide) (c : nat) (req : Request) (c' : nat) (m : Message) (failed : bool)
    (s : pv_state) : option pv_state :=
  guard_ (bool_decide (c' = c /\ JobID m = Some (req_Job req)) && may_say byName (req_Service req) m s)
    match answer_step m (pv_answer s) with
    | Some ph => Some (if failed then pv_said (pv_answer s) true (pv_piece s) s else pv_said ph false [] s)
    | None => None
    end.

(** A read gives at most what was asked for ([io.Reader]). *)
Definition pv_read (size : N) (r : list byte * read_end) (s : pv_state) : option pv_state :=
  guard_ (pv_open s && bool_decide (pv_piece s = []) && negb (pv_eof s) && negb (pv_lost s) && (size =? bodyChunk))
    (Some (pv_upstream true r.1 (match r.2 with AtEOF => true | _ => false end) s)).

(** Only END makes the body whole; anything else but a piece of it breaks it
    off, and nothing is read after either. *)
Definition pv_next (q q' : nat) (r : result job_error Message) (s : pv_state) : option pv_state :=
  guard_ (is_stage (pv_at s) PvCollecting && bool_decide (q' = q))
    match r with
    | Ok (MBody b) => Some (pv_set_body (pv_body s ++ body_Bytes b) s)
    | Ok (MEnd _) => Some (pv_on PvWhole s)
    | _ => Some (pv_on PvBroken s)
    end.

(** The upstream's request is the job's: its method, its target at the section's
    upstream and under its name, its headers without those a proxy keeps to
    itself and without Content-Length, no User-Agent it did not have, and the
    whole body. *)
Definition url_of (p : Provide) (req : Request) : string := "http://" +:+ prov_Upstream p +:+ req_Target req.

Definition asks_for (p : Provide) (req : Request) (body : list byte) (r : upstream_request) : Prop :=
  up_method r = req_Method req /\ up_url r = url_of p req /\ up_host r = prov_Upstream p /\
  up_header r = toHTTP (req_Headers req) ["Content-Length"%string] /\
  up_no_user_agent r = bool_decide (up_header r !! "User-Agent"%string = None) /\
  up_body r = body.
#[export] Instance asks_for_dec p req body r : Decision (asks_for p req body r).
Proof. unfold asks_for. apply _. Defined.

Definition may_ask (byName : gmap string Provide) (req : Request) (P : Provide -> Prop) `{forall p, Decision (P p)}
    (s : pv_state) : bool :=
  is_stage (pv_at s) PvWatched && bool_decide (pv_answer s = Unanswered) && negb (pv_lost s) &&
  HasPrefix (req_Target req) "/" &&
  match byName !! req_Service req with Some p => bool_decide (P p) | None => false end.

Definition pv_mon (byName : gmap string Provide) (c : nat) (req : Request) (q : nat) (X : Type) (e : callE X)
    : X -> pv_state -> option pv_state :=
  match e in callE X return X -> pv_state -> option pv_state with
  | CTake service slots => fun ok s =>
      guard_ (is_stage (pv_at s) PvFresh &&
              bool_decide (service = req_Service req /\ prov_MaxConcurrent <$> byName !! service = Some slots))
        (Some (pv_on (if ok then PvCollecting else PvRefused) s))
  | CFail c' e => fun _ s =>
      guard_ (is_stage (pv_at s) PvRefused && bool_decide (c' = c /\
                Some e = (fun p => TooManyJobs (prov_MaxConcurrent p) (req_Service req)) <$> byName !! req_Service req))
        (Some (mkPv PvFree (pv_body s) (pv_answer s) (pv_lost s) (pv_open s) (pv_piece s) (pv_eof s) true))
  | CNext q' => pv_next q q'
  | CWatch q' => fun _ s =>
      guard_ (is_stage (pv_at s) PvWhole && bool_decide (q' = q)) (Some (pv_on PvWatched s))
  | CCauseCancelled => fun _ s => Some s
  | CNewRequest method url => fun _ s =>
      guard_ (may_ask byName req (fun p => method = req_Method req /\ url = url_of p req) s) (Some s)
  | CDo r => fun a s =>
      guard_ (may_ask byName req (fun p => asks_for p req (pv_body s) r) s)
        (Some (pv_on PvAsked (match a with Ok _ => pv_upstream true [] false s | Err _ => s end)))
  | CRead size => pv_read size
  | CTrailer => fun _ s => Some s
  | CCloseBody => fun _ s => guard_ (pv_open s) (Some (pv_upstream false [] (pv_eof s) s))
  | CSend c' m => fun e s =>
      pv_send byName c req c' m (match e with Some _ => true | None => false end) s
  | CCancel None => fun _ s =>
      guard_ ((is_stage (pv_at s) PvBroken || is_stage (pv_at s) PvWatched || is_stage (pv_at s) PvAsked) && negb (pv_open s))
        (Some (pv_on PvDone s))
  | CGive service => fun _ s =>
      guard_ (is_stage (pv_at s) PvDone && bool_decide (service = req_Service req)) (Some (pv_on PvFree s))
  | CEndJob c' id => fun _ s =>
      guard_ ((is_stage (pv_at s) PvFree || is_stage (pv_at s) PvFresh) &&
              bool_decide (c' = c /\ id = req_Job req)) (Some (pv_on PvLeft s))
  | _ => fun _ _ => None
  end.

(** ** [provide] keeps to it *)
Section Provide.
Context `{Texts} (byName : gmap string Provide) (c : nat) (req : Request) (q : nat).

Abbreviation mon := (pv_mon byName c req q).

Ltac accept := eexists; split; [cbn; decided; unfold pv_send, pv_read, pv_next, may_say, may_fail, is_stage; cbn; decided; reflexivity|].
Ltac invoke r := apply ok_call; intros r; accept.

(** The stages in which the job can still be failed with its slot held. *)
Definition at_work (st : pv_stage) : Prop := st = PvBroken \/ st = PvWatched \/ st = PvAsked.

(** What is known when the job's work is over, the slot still held. *)
Definition worked (s : pv_state) : Prop :=
  at_work (pv_at s) /\ pv_open s = false /\ pv_failed s = false /\
  (pv_answer s = Answered \/ pv_lost s = true).

Lemma send_fail_ok st body ph lost eof err :
  at_work st -> ph <> Answered ->
  ok mon (send_fail c (req_Job req) err) (mkPv st body ph lost false [] eof false) (fun _ => worked).
Proof.
  intros Hst Hph. unfold send_fail.
  eapply (ok_bind _ _ _ _ (fun _ s => s = mkPv st body ph lost false [] eof false)).
  - unfold reason. destruct (is_cancelled err); [by apply ok_ret|].
    apply ok_call. intros []; accept; by apply ok_ret.
  - intros why s ->. apply ok_call. intros [e|];
      destruct Hst as [->|[-> | ->]], ph; try done; accept; apply ok_ret; repeat split; unfold at_work; auto.
Qed.

(** The upstream's answer under way. *)
Definition flowing (body : list byte) (eof : bool) (s : pv_state) : Prop :=
  s = mkPv PvAsked body Answering false true [] eof false.

(** An attempt at the upstream that failed before its answer ended. *)
Definition broken_off (body : list byte) (open : bool) (s : pv_state) : Prop :=
  exists st ph lost piece eof, s = mkPv st body ph lost open piece eof false /\
    (st = PvAsked \/ open = false /\ st = PvWatched) /\ ph <> Answered.

(** The witnesses of [broken_off], by evaluation. *)
Ltac is_broken := do 5 eexists; split; [reflexivity|]; split; [first [by left | by right]|done].

Lemma upstream_turn_ok body s :
  flowing body false s ->
  ok mon (upstream_turn c (req_Job req)) s
    (fun r s => match r with
                | inl _ => flowing body false s
                | inr None => flowing body true s
                | inr (Some _) => broken_off body true s
                end).
Proof.
  intros ->. unfold upstream_turn. apply ok_call. intros [buf e]. accept.
  destruct buf as [|b buf].
  - eapply (ok_bind _ _ _ _ (fun r s => r = None /\ s = _)); [by apply ok_ret|].
    intros r s [-> ->]. destruct e; apply ok_ret; try done. is_broken.
  - eapply (ok_bind _ _ _ _ (fun r s => match r with
      | None => flowing body (match e with AtEOF => true | _ => false end) s
      | Some _ => broken_off body true s end)).
    + apply ok_call. intros [err|]; accept; apply ok_ret; [is_broken | done].
    + intros [err|] s Hs; [by apply ok_ret|]. destruct e; apply ok_ret; try done. rewrite Hs. is_broken.
Qed.

Lemma relay_upstream_ok body status header :
  ok mon (relay_upstream c (req_Job req) status header)
    (mkPv PvAsked body Unanswered false true [] false false)
    (fun r s => match r with None => worked s | Some _ => broken_off body false s /\ pv_piece s = [] end).
Proof.
  unfold relay_upstream.
  eapply (ok_bind _ _ _ _ (fun r s => match r with
    | None => exists piece eof, s = mkPv PvAsked body Answered false true piece eof false
    | Some _ => broken_off body true s
    end)).
  - destruct (Z.ltb_spec status 100); [apply ok_ret; is_broken|].
    destruct (Z.ltb_spec 599 status); [apply ok_ret; is_broken|]. cbn [orb].
    assert ((minStatus <=? Z.to_N status) = true /\ (Z.to_N status <=? maxStatus) = true) as [Hlo Hhi].
    { unfold minStatus, maxStatus. split; apply N.leb_le; lia. }
    apply ok_call. intros [e|]; (eexists; split; [cbn; unfold pv_send; cbn; rewrite Hlo, Hhi; decided; reflexivity|]).
    + apply ok_ret. is_broken.
    + eapply ok_bind.
      * apply (ok_iter mon _ (fun _ s => flowing body false s) (fun r s => match r with
          | None => flowing body true s | Some _ => broken_off body true s end)); [|done].
        intros [] s Hs. by apply upstream_turn_ok.
      * intros [e|] s Hs; [by apply ok_ret|]. rewrite Hs. invoke trailer.
        apply ok_call. intros [e|]; accept; apply ok_ret; [is_broken | by repeat eexists].
  - intros [e|] s Hs; (eapply (ok_bind _ _ _ _ (fun _ s' => s' = pv_upstream false [] (pv_eof s) s));
      [|intros [] s' ->; apply ok_ret]).
    + destruct Hs as (st & ph & lost & piece & eof & -> & [->|[? _]] & Hph); [|done]. invoke r. by apply ok_ret.
    + destruct Hs as (st & ph & lost & piece & eof & -> & [->|[? _]] & Hph); [|done]. split; [is_broken | done].
    + destruct Hs as (piece & eof & ->). invoke r. by apply ok_ret.
    + destruct Hs as (piece & eof & ->). repeat split; unfold at_work; auto.
Qed.

Lemma runUpstream_ok p body :
  byName !! req_Service req = Some p ->
  ok mon (runUpstream c req p body) (mkPv PvWatched body Unanswered false false [] false false)
    (fun r s => match r with None => worked s | Some _ => broken_off body false s /\ pv_piece s = [] end).
Proof.
  intros Hp. unfold runUpstream.
  destruct (HasPrefix (req_Target req) "/") eqn:Et; cbn [negb]; [|apply ok_ret; split; [is_broken | done]].
  assert (forall P (d : forall p, Decision (P p)), P p ->
    may_ask byName req P (mkPv PvWatched body Unanswered false false [] false false) = true) as Hask.
  { intros P d HP. unfold may_ask. cbn. rewrite Hp, Et, bool_decide_true by done. by destruct (d p). }
  apply ok_call. intros e. eexists. split; [cbn; rewrite Hask by done; reflexivity|].
  destruct e as [e|]; [apply ok_ret; split; [is_broken | done]|].
  apply ok_call. intros a. eexists. split; [cbn; rewrite Hask; [reflexivity|]|].
  { unfold asks_for. cbn. split_and!; try done. set (ua := toHTTP _ _ !! _). by destruct ua. }
  destruct a as [[status header]|e]; cbn; [apply relay_upstream_ok | apply ok_ret; split; [is_broken | done]].
Qed.

Lemma provide_job_ok p :
  byName !! req_Service req = Some p ->
  ok mon (provide_job c req p q) (mkPv PvCollecting [] Unanswered false false [] false false) (fun _ => worked).
Proof.
  intros Hp. unfold provide_job. eapply (ok_bind _ _ _ _ (fun r s => match r with
    | Ok (body, _) => s = mkPv PvWhole body Unanswered false false [] false false
    | Err _ => exists body, s = mkPv PvBroken body Unanswered false false [] false false
    end)).
  - apply (ok_collect mon q (fun body => mkPv PvCollecting body Unanswered false false [] false false)).
    + intros body m. cbn. unfold pv_next. cbn. by decided.
    + intros body m. accept. done.
    + intros body [[]|] Hr; try done; accept; intros err; by eexists.
  - intros [[b trailers]|e] s Hs; [subst s | destruct Hs as [body ->]; apply send_fail_ok; unfold at_work; auto; done].
    invoke r. eapply ok_bind; [by apply runUpstream_ok|].
    intros [e|] s Hs; [|by apply ok_ret].
    destruct Hs as [(st & ph & lost & piece & eof & -> & Hst & Hph) Hpc]. simpl in Hpc. subst piece.
    apply send_fail_ok; [|done]. unfold at_work. destruct Hst as [->|[_ ->]]; auto.
Qed.

Definition provide_over (s : pv_state) : Prop :=
  pv_at s = PvLeft /\ pv_open s = false /\ (pv_answer s = Answered \/ pv_lost s = true \/ pv_failed s = true).

Lemma provide_ok : ok mon (provide byName c req q) pv_start (fun _ => provide_over).
Proof.
  unfold provide. eapply (ok_bind _ _ _ _ (fun _ s => (pv_at s = PvFree \/ pv_at s = PvFresh) /\
    pv_open s = false /\ (pv_answer s = Answered \/ pv_lost s = true \/ pv_failed s = true))).
  - destruct (byName !! req_Service req) as [p|] eqn:Ep.
    + apply ok_call. intros [|]; (eexists; split; [cbn; rewrite Ep; decided; reflexivity|]).
      * cbn [negb]. eapply (ok_bind _ _ _ _ (fun _ s => exists s', s = pv_on PvDone s' /\ worked s')).
        -- eapply ok_bind; [by apply (provide_job_ok p)|]. intros [] s Hs.
           eapply (ok_bind _ _ _ _ (fun _ s' => s' = pv_on PvDone s)); [|intros [] s' ->; apply ok_ret; by exists s].
           destruct s, Hs as (Hst & Ho & Hf & Ha). simpl in *. subst.
           destruct Hst as [->|[-> | ->]]; invoke r; by apply ok_ret.
        -- intros [] s (s' & -> & Hs).
           eapply (ok_bind _ _ _ _ (fun _ s => s = pv_on PvFree s'));
             [invoke r; by apply ok_ret | intros [] s ->; apply ok_ret].
           destruct Hs as (_ & Ho & _ & Ha). split; [by left|]. split; [done|]. tauto.
      * apply ok_call. intros r. eexists. split; [cbn; rewrite Ep; decided; reflexivity|]. apply ok_ret. simpl. auto.
    + apply ok_call. intros [e|]; accept; apply ok_ret; simpl; auto.
  - intros [] s (Hst & Ho & Ha). eapply (ok_bind _ _ _ _ (fun _ => provide_over)); [|intros [] s' Hs; by apply ok_ret].
    destruct s. simpl in *. subst. destruct Hst as [-> | ->]; invoke r; by apply ok_ret.
Qed.
End Provide.

(** ** The answer the peer that sent the job sees *)
Lemma pv_step_answer byName c req q X (e : callE X) x s s' :
  pv_mon byName c req q X e x s = Some s' ->
  match sent_event c (req_Job req) (Ev e x) with
  | Some m => answer_step m (pv_answer s) = Some (pv_answer s')
  | None => pv_answer s' = pv_answer s
  end.
Proof.
  intros H. destruct e; cbn [pv_mon] in H; try discriminate H; cbn [sent_event].
  - unfold pv_send in H. guards. destruct (answer_step m (pv_answer s)) as [ph|] eqn:E; guards.
    destruct x; guards; [done|]. by rewrite bool_decide_true.
  - by guards.
  - by guards.
  - unfold pv_next in H. guards. by destruct x as [[]|]; guards.
  - by guards.
  - destruct cause; guards; done.
  - by guards.
  - by guards.
  - by guards.
  - by guards.
  - guards. by destruct x; guards.
  - unfold pv_read in H. by guards.
  - by guards.
  - by guards.
Qed.

Lemma pv_run_answer byName c req q l s s' :
  run (pv_mon byName c req q) l s = Some s' ->
  phases answer_step (sent c (req_Job req) l) (pv_answer s) = Some (pv_answer s').
Proof.
  revert s. induction l as [|[X e x] l IH]; intros s Hr; [by simplify_eq/=|]. cbn [run] in Hr.
  destruct (pv_mon byName c req q X e x s) as [s1|] eqn:E; [|done].
  apply pv_step_answer in E. unfold sent in *. cbn [omap list_omap].
  destruct (sent_event _ _ _) as [m|]; simpl; [rewrite E; by apply IH | rewrite <- E; by apply IH].
Qed.

(** C4. A providing peer keeps its side of every job.  Whatever the
    connection, the upstream and the context do, every call a run of [provide]
    makes is one its contract allows: one slot taken before the work and given
    back after it; the upstream asked at most once, only after the END of the
    request's body, with the job's method, path, headers and all the bytes that
    came before that END, while a body that breaks off on a CANCEL, another
    message or a closed queue is answered with FAIL and nothing else; the
    upstream's answer closed; each piece of the upstream's body passed on as it was read
    and before the next is read, END only at the end of that body.  What has
    been sent is a beginning of RESPONSE BODY* (END or FAIL) or FAIL, with a
    status the wire can carry; and when [provide] returns its job is ended and
    the answer is complete, unless the last message could not be sent or no
    slot was free, which ends the connection. *)
Theorem provide_keeps_contract `{Texts} byName c req q l o :
  traces (provide byName c req q) l o ->
  exists s, run (pv_mon byName c req q) l pv_start = Some s /\
    phases answer_step (sent c (req_Job req) l) Unanswered = Some (pv_answer s) /\
    (o = Some tt -> provide_over s).
Proof.
  intros Ht. destruct (provide_ok byName c req q l o Ht) as (s & Hr & Ho). exists s.
  split_and!; [done | by apply (pv_run_answer byName c req q l pv_start) | intros E; by apply (Ho tt)].
Qed.

(** ** A job answered in two pieces, and one whose upstream dies midway *)
Definition demo_provides : gmap string Provide := {["llm" := mkProvide "llm" "127.0.0.1:8080" 2 100]}%string.
Definition demo_job (upstream : list (list byte * read_end)) : list (event callE) * option unit :=
  exec obliging 100 (provide demo_provides 0 (mkRequest 2 "llm" "POST" "/" []) 0)
    (mkScript [Ok (MBody (mkBody 2 [x41])); Ok (MEnd (mkEnd 2 []))] upstream).

Lemma provide_keeps_contract_witness :
  (exists s, run (pv_mon demo_provides 0 (mkRequest 2 "llm" "POST" "/" []) 0)
      (demo_job [([x42], More); ([x43], AtEOF)]).1 pv_start = Some s /\
    phases answer_step (sent 0 2 (demo_job [([x42], More); ([x43], AtEOF)]).1) Unanswered = Some (pv_answer s) /\
    provide_over s) /\
  sent 0 2 (demo_job [([x42], More); ([x43], AtEOF)]).1 =
    [MResponse (mkResponse 2 200 []); MBody (mkBody 2 [x42]); MBody (mkBody 2 [x43]); MEnd (mkEnd 2 [])] /\
  sent 0 2 (demo_job [([x42], More); ([], ReadFailed (mkHTTPError "gone" false))]).1 =
    [MResponse (mkResponse 2 200 []); MBody (mkBody 2 [x42]); MFail (mkFail 2 "gone")].
Proof.
  split; [|split; vm_compute; reflexivity].
  destruct (provide_keeps_contract demo_provides 0 (mkRequest 2 "llm" "POST" "/" []) 0
    (demo_job [([x42], More); ([x43], AtEOF)]).1 (demo_job [([x42], More); ([x43], AtEOF)]).2) as (s & Hr & Ha & Ho).
  - apply exec_traces.
  - exists s. split_and!; [exact Hr | exact Ha | apply Ho; vm_compute; reflexivity].
Defined.
