(* ===== verification/Consume.v ===== *)
(** The consumer side of a job: internal/peer/consume.go.

    An application's connection is Go's [http.ResponseWriter]; a handler either
    returns or panics with [http.ErrAbortHandler], which takes the connection
    down, and its deferred calls run in both cases. *)

From ITree Require Import ITree.
From S2P Require Import Prelude Bytes Io Message GoStrings Headers Conn PoolSystem Conf Interact Calls JobProtocol Job Server.
Local Open Scope call_scope.

Inductive outcome : Type := Returned | Aborted.

(** A response this peer makes up. *)
Definition synth (status : N) (why : string) : job_m outcome :=
  call! _ := CHeaderSet "Content-Type" "text/plain; charset=utf-8" in
  call! _ := CHeaderSet "Content-Length" (pretty (slen why + 1)%N) in
  call! _ := CWriteHeader status in
  call! _ := CWrite (bytes_of (why +:+ newline)) in
  Ret Returned.

Definition answerFailure (started : bool) (why : string) : job_m outcome :=
  if started then Ret Aborted else synth 502 why.

Fixpoint add_headers (hs : list (string * string)) : job_m unit :=
  match hs with
  | [] => Ret tt
  | (name, value) :: hs => call! _ := CHeaderAdd name value in add_headers hs
  end.

(** The headers of a RESPONSE that reach the application, as [writeHead]'s loop
    picks them, and the trailers of an END. *)
Definition head_headers (hs : list Header) : list (string * string) :=
  omap (fun hd =>
    let name := CanonicalMIMEHeaderKey (header_Name hd) in
    if hopByHop name then None else Some (name, header_Value hd)) hs.

Definition trailer_headers (hs : list Header) : list (string * string) :=
  map (fun hd => ("Trailer:" +:+ CanonicalMIMEHeaderKey (header_Name hd), header_Value hd)) hs.

Definition writeHead (m : Response) : job_m unit :=
  do! _ := add_headers (head_headers (resp_Headers m)) in
  call! _ := CWriteHeader (resp_Status m) in Ret tt.

Definition writeTrailers (trailers : list Header) : job_m unit := add_headers (trailer_headers trailers).

(** One turn of [relayAnswer]'s loop. *)
Definition answer_turn `{Texts} (c : nat) (job : N) (q : nat) (started : bool) : job_m (bool + outcome) :=
  call! r := CNext q in
  match r with
  | Err e =>
      call! gone := CCtxEnded in
      if (gone : bool) then
        call! _ := CSend c (MCancel (mkCancel job)) in Ret (inr Returned)
      else
        do! o := answerFailure started ("the connection to the server ended: " +:+ job_error_text e) in
        Ret (inr o)
  | Ok (MResponse m) =>
      do! _ := writeHead m in
      call! _ := CFlush in
      Ret (inl true)
  | Ok (MBody m) =>
      call! e := CWrite (body_Bytes m) in
      match e with
      | Some _ => call! _ := CSend c (MCancel (mkCancel job)) in Ret (inr Returned)
      | None => call! _ := CFlush in Ret (inl started)
      end
  | Ok (MEnd m) => do! _ := writeTrailers (end_Trailers m) in Ret (inr Returned)
  | Ok (MFail m) => do! o := answerFailure started (fail_Reason m) in Ret (inr o)
  | Ok m => do! o := answerFailure started (job_error_text (NotAnAnswer (Kind m))) in Ret (inr o)
  end.

Definition relayAnswer `{Texts} (c : nat) (job : N) (q : nat) : job_m outcome :=
  ITree.iter (answer_turn c job q) false.

(** [target]: the request-target as it was written. *)
Definition target (r : http_request) : string :=
  if bool_decide (hr_RequestURI r = ""%string) then hr_url_RequestURI r else hr_RequestURI r.

(** Once the job has an id and a queue. *)
Definition submit `{Texts} (service : string) (r : http_request) (body : list byte) (c : nat) (job : N) (q : nat)
    : job_m outcome :=
  call! e := CSend c (MRequest (mkRequest job service (hr_method r) (target r)
                                  (requestHeaders (hr_header r) (len body)))) in
  match e with
  | Some e => synth 503 ("sending the request: " +:+ conn_error_text e)
  | None =>
      do! e := sendBodyEnd c job body (fromHTTP (hr_trailer r) []) in
      match e with
      | Some e => synth 503 ("sending the request body: " +:+ conn_error_text e)
      | None => relayAnswer c job q
      end
  end.

Definition consume `{Texts} (service : string) (r : http_request) : job_m outcome :=
  if isUpgrade (hr_header r) then synth 501 "upgrade requests are not pooled"
  else
    call! b := CReadAll in
    match b with
    | Err e => synth 502 ("reading the request body: " +:+ e)
    | Ok body =>
        call! c := CConnection in
        match c with
        | None => synth 503 "this peer has no connection to the server"
        | Some c =>
            call! j := CNewJob c in
            match j with
            | Err e => synth 503 ("the connection to the server ended: " +:+ conn_error_text e)
            | Ok (job, q) =>
                deferred (call! _ := CEndJob c job in Ret tt) (submit service r body c job q)
            end
        end
    end.
