(* ===== verification/ConsumeSpec.v ===== *)
(** What a consuming peer promises the application about one request, as an
    automaton over the calls of its handler, and the proof that [consume] keeps
    to it.

    The job is submitted as PROTOCOL.md orders it, whole before any of its answer
    is taken, and is always ended; the application gets one status line, the body as it comes in, and when the
    answer dies under way its connection is broken rather than ended. *)

From ITree Require Import ITree.
From S2P Require Import Prelude Bytes Io Message Headers Conn PoolSystem Conf Interact Calls JobProtocol Job Server Consume.
Local Open Scope N_scope.

(** ** The automaton *)

(** The status line: not written, relayed, or this peer's own. *)
Inductive head : Type := NoHead | Relayed | Own.
#[export] Instance head_eq_dec : EqDecision head.
Proof. solve_decision. Defined.

Record cs_state : Type := mkCs {
  cs_body : list byte;                   (* of the request *)
  cs_job : option (nat * N * nat);       (* connection, id, queue *)
  cs_request : request_phase;            (* what has been submitted *)
  cs_sent : list byte;
  cs_heard : answer_phase;               (* what has come back *)
  cs_last : option Message;              (* the last of it, until it is written *)
  cs_head : head;
  cs_done : bool;                        (* the application has a whole answer *)
  cs_gone : bool;                        (* the application went away *)
  cs_broken : bool;                      (* the server did not keep to the sequence *)
}.

Definition cs_start : cs_state := mkCs [] None Unasked [] Unanswered None NoHead false false false.

Definition cs_set_job (j : option (nat * N * nat)) (s : cs_state) : cs_state :=
  mkCs (cs_body s) j (cs_request s) (cs_sent s) (cs_heard s) (cs_last s) (cs_head s) (cs_done s) (cs_gone s) (cs_broken s).
Definition cs_set_request (ph : request_phase) (sent : list byte) (s : cs_state) : cs_state :=
  mkCs (cs_body s) (cs_job s) ph sent (cs_heard s) (cs_last s) (cs_head s) (cs_done s) (cs_gone s) (cs_broken s).
Definition cs_set_heard (ph : answer_phase) (m : option Message) (done broken : bool) (s : cs_state) : cs_state :=
  mkCs (cs_body s) (cs_job s) (cs_request s) (cs_sent s) ph m (cs_head s) done (cs_gone s) broken.
Definition cs_written (h : head) (done gone : bool) (s : cs_state) : cs_state :=
  mkCs (cs_body s) (cs_job s) (cs_request s) (cs_sent s) (cs_heard s) None h done gone (cs_broken s).

(** Handing the application headers: before the status line, or trailers once
    the answer has ended. *)
Definition may_add (s : cs_state) : bool :=
  cs_broken s || match cs_head s with NoHead => true | _ => cs_done s end.

Definition cs_writeHeader (status : N) (s : cs_state) : option cs_state :=
  if cs_broken s then Some (cs_written Relayed (cs_done s) (cs_gone s) s)
  else
    match cs_head s, cs_last s with
    | NoHead, Some (MResponse r) =>
        guard_ (status =? resp_Status r) (Some (cs_written Relayed (cs_done s) (cs_gone s) s))
    | NoHead, None =>
        guard_ ((status =? 501) || (status =? 502) || (status =? 503)) (Some (cs_written Own (cs_done s) (cs_gone s) s))
    | _, _ => None
    end.

Definition cs_write (bs : list byte) (failed : bool) (s : cs_state) : option cs_state :=
  if cs_broken s then Some (cs_written (cs_head s) (cs_done s) (cs_gone s || failed) s)
  else
    match cs_head s, cs_last s with
    | Relayed, Some (MBody b) =>
        guard_ (bool_decide (bs = body_Bytes b)) (Some (cs_written Relayed (cs_done s) (cs_gone s || failed) s))
    | Own, None => guard_ (negb (cs_done s)) (Some (cs_written Own true (cs_gone s) s))
    | _, _ => None
    end.

(** The answer's next message; the one before it has been written. *)
Definition cs_hear (m : Message) (s : cs_state) : option cs_state :=
  if cs_broken s then Some s
  else
    match answer_step m (cs_heard s), m with
    | None, _ => Some (cs_set_heard (cs_heard s) None (cs_done s) true s)
    | Some ph, MEnd _ => Some (cs_set_heard ph None true false s)
    | Some ph, MFail _ => Some (cs_set_heard ph None (cs_done s) false s)
    | Some ph, m => Some (cs_set_heard ph (Some m) (cs_done s) false s)
    end.

(** Nothing of the answer is taken before the whole request is out. *)
Definition cs_next (q' : nat) (r : result job_error Message) (s : cs_state) : option cs_state :=
  match cs_job s with
  | Some (_, _, q) =>
      guard_ (bool_decide (q' = q /\ cs_request s = Asked) && (cs_broken s || match cs_last s with None => true | Some _ => false end) &&
              negb (cs_gone s))
        match r with Ok m => cs_hear m s | Err _ => Some s end
  | None => None
  end.

(** The request as the application wrote it, its body whole before its END, and
    a CANCEL only once the application is gone. *)
Definition the_request (service : string) (r : http_request) (job : N) (body : list byte) : Message :=
  MRequest (mkRequest job service (hr_method r) (target r) (requestHeaders (hr_header r) (len body))).
Definition the_end (r : http_request) (job : N) : Message := MEnd (mkEnd job (fromHTTP (hr_trailer r) [])).

Definition cs_same (service : string) (r : http_request) (job : N) (m : Message) (s : cs_state) : bool :=
  match m with
  | MRequest _ => bool_decide (m = the_request service r job (cs_body s))
  | MEnd _ => bool_decide (m = the_end r job /\ cs_sent s = cs_body s)
  | MCancel _ => cs_gone s
  | _ => true
  end.

Definition cs_send (service : string) (r : http_request) (c' : nat) (m : Message) (failed : bool) (s : cs_state)
    : option cs_state :=
  match cs_job s with
  | Some (c, job, _) =>
      guard_ (bool_decide (c' = c /\ JobID m = Some job) && cs_same service r job m s)
        match request_step m (cs_request s) with
        | Some ph =>
            Some (cs_set_request (if failed then Cancelled else ph)
                    (match m with MBody b => cs_sent s ++ body_Bytes b | _ => cs_sent s end) s)
        | None => None
        end
  | None => None
  end.

Definition cs_newJob (c : nat) (j : result conn_error (N * nat)) (s : cs_state) : option cs_state :=
  match cs_job s, cs_request s, j with
  | None, Unasked, Ok (job, q) => Some (cs_set_job (Some (c, job, q)) s)
  | None, Unasked, Err _ => Some s
  | _, _, _ => None
  end.

(** The job is ended after all else. *)
Definition cs_endJob (c' : nat) (id : N) (s : cs_state) : option cs_state :=
  match cs_job s with
  | Some (c, job, _) => guard_ (bool_decide (c' = c /\ id = job)) (Some (cs_set_job None s))
  | None => None
  end.

Definition cs_mon (service : string) (r : http_request) (X : Type) (e : callE X) : X -> cs_state -> option cs_state :=
  match e in callE X return X -> cs_state -> option cs_state with
  | CReadAll => fun b s =>
      guard_ (bool_decide (cs_job s = None /\ cs_request s = Unasked))
      match b with
      | Ok body => Some (mkCs body (cs_job s) (cs_request s) (cs_sent s) (cs_heard s) (cs_last s) (cs_head s)
                           (cs_done s) (cs_gone s) (cs_broken s))
      | Err _ => Some s
      end
  | CConnection => fun _ s => Some s
  | CNewJob c => cs_newJob c
  | CSend c m => fun e => cs_send service r c m (match e with Some _ => true | None => false end)
  | CNext q' => cs_next q'
  | CCtxEnded => fun b s =>
      Some (if b then cs_written (cs_head s) (cs_done s) true s else s)
  | CHeaderSet _ _ => fun _ s => guard_ (may_add s) (Some s)
  | CHeaderAdd _ _ => fun _ s => guard_ (may_add s) (Some s)
  | CWriteHeader status => fun _ => cs_writeHeader status
  | CWrite bs => fun e => cs_write bs (match e with Some _ => true | None => false end)
  | CFlush => fun _ s => Some s
  | CEndJob c id => fun _ => cs_endJob c id
  | _ => fun _ _ => None
  end.

(** How it ends: the application has a whole answer, or is gone, or its
    connection is taken down after a status line that was relayed. *)
Definition consume_over (o : outcome) (s : cs_state) : Prop :=
  cs_job s = None /\
  (cs_broken s = true \/
   match o with
   | Returned => cs_done s = true \/ cs_gone s = true
   | Aborted => cs_head s = Relayed /\ cs_done s = false
   end).

(** ** [consume] keeps to it *)
Section Consume.
Context `{Texts} (service : string) (r : http_request).

Abbreviation mon := (cs_mon service r).

Ltac accept := eexists; split; [cbn; decided; unfold cs_send, cs_same, cs_next, cs_write, cs_writeHeader, may_add; cbn; decided; reflexivity|].
Ltac invoke x := apply ok_call; intros x; accept.

(** The same before the job is ended. *)
Definition handled (j : option (nat * N * nat)) (o : outcome) (s : cs_state) : Prop :=
  cs_job s = j /\
  (cs_broken s = true \/
   match o with
   | Returned => cs_done s = true \/ cs_gone s = true
   | Aborted => cs_head s = Relayed /\ cs_done s = false
   end).

(** Nothing is written yet, and nothing waits to be. *)
Definition unwritten (j : option (nat * N * nat)) (s : cs_state) : Prop :=
  cs_job s = j /\ (cs_broken s = true \/ cs_head s = NoHead /\ cs_last s = None /\ cs_done s = false).

Lemma synth_ok j status why s :
  status = 501 \/ status = 502 \/ status = 503 ->
  unwritten j s -> ok mon (synth status why) s (handled j).
Proof.
  intros Hst [Hj Hs]. destruct s as [body job rq sent heard last hd done gone broken]. simpl in *.
  unfold synth. destruct broken.
  - invoke x1. invoke x2. invoke x3. invoke x4. apply ok_ret. by split; [|left].
  - destruct Hs as [|(-> & -> & ->)]; [done|]. invoke x1. invoke x2. apply ok_call. intros x3.
    eexists. split; [cbn; unfold cs_writeHeader; cbn; destruct Hst as [->|[->| ->]]; reflexivity|].
    invoke x4. apply ok_ret. split; [done|]. right. by left.
Qed.

Lemma add_headers_ok hs s : may_add s = true -> ok mon (add_headers hs) s (fun _ s' => s' = s).
Proof.
  intros Hs. induction hs as [|[n v] hs IH]; [by apply ok_ret|].
  apply ok_call. intros []. exists s. split; [|apply IH]. cbn. by rewrite Hs.
Qed.

(** The answer under way: what came in has been written. *)
Definition answering (j : nat * N * nat) (started : bool) (s : cs_state) : Prop :=
  cs_job s = Some j /\ cs_request s = Asked /\ cs_gone s = false /\
  (cs_broken s = true \/
   cs_last s = None /\ cs_done s = false /\
   cs_head s = (if started then Relayed else NoHead) /\
   cs_heard s = if started then Answering else Unanswered).

Lemma answerFailure_ok j (started : bool) why s :
  cs_job s = j ->
  (cs_broken s = true \/
   cs_last s = None /\ cs_done s = false /\ cs_head s = (if started then Relayed else NoHead)) ->
  ok mon (answerFailure started why) s (handled j).
Proof.
  intros Hj Hs. unfold answerFailure. destruct started.
  - apply ok_ret. split; [done|]. destruct Hs as [|(_ & ? & ?)]; auto.
  - apply synth_ok; [auto|]. split; [done|]. destruct Hs as [|(? & ? & ?)]; auto.
Qed.

(** A CANCEL once the application is gone. *)
Lemma cancel_ok c job q s :
  cs_job s = Some (c, job, q) -> cs_request s = Asked -> cs_gone s = true ->
  ok mon (Vis (CSend c (MCancel (mkCancel job))) (fun _ => Ret (@inr bool outcome Returned))) s
    (fun r s' => match r with
                 | inl started => answering (c, job, q) started s'
                 | inr o => handled (Some (c, job, q)) o s'
                 end).
Proof.
  destruct s as [body j rq sent heard last hd done gone broken]. simpl. intros -> -> ->.
  apply ok_call. intros e. eexists. split; [cbn; unfold cs_send; cbn; decided; reflexivity|].
  apply ok_ret. split; [done|]. right. by right.
Qed.

Lemma writeHead_ok c job q m s :
  cs_job s = Some (c, job, q) -> cs_request s = Asked -> cs_gone s = false ->
  (cs_broken s = true \/
   cs_last s = Some (MResponse m) /\ cs_done s = false /\ cs_head s = NoHead /\ cs_heard s = Answering) ->
  ok mon (writeHead m) s (fun _ s' => answering (c, job, q) true s').
Proof.
  intros Hj Hr Hg Hs. unfold writeHead.
  eapply ok_bind.
  { apply add_headers_ok. unfold may_add. destruct Hs as [-> |(_ & _ & -> & _)]; [done | by apply orb_true_r]. }
  intros [] s' ->. destruct s as [body j rq sent heard last hd done gone broken]. simpl in *. subst.
  destruct broken.
  - invoke x. apply ok_ret. repeat split. by left.
  - destruct Hs as [|(-> & -> & -> & ->)]; [done|]. apply ok_call. intros x.
    eexists. split; [cbn; unfold cs_writeHeader; cbn; rewrite N.eqb_refl; reflexivity|].
    apply ok_ret. repeat split. by right.
Qed.

(** A write of a piece of the answer. *)
Lemma write_ok c job q started b s :
  cs_job s = Some (c, job, q) -> cs_request s = Asked -> cs_gone s = false ->
  (cs_broken s = true \/
   cs_last s = Some (MBody b) /\ cs_done s = false /\ cs_head s = Relayed /\ started = true /\ cs_heard s = Answering) ->
  forall e, exists s', mon _ (CWrite (body_Bytes b)) e s = Some s' /\
    match e with
    | None => answering (c, job, q) started s'
    | Some _ => cs_job s' = Some (c, job, q) /\ cs_request s' = Asked /\ cs_gone s' = true
    end.
Proof.
  destruct s as [body j rq sent heard last hd done gone broken]. simpl. intros -> -> -> Hs e. destruct broken.
  - destruct e; accept; [done|]. repeat split. by left.
  - destruct Hs as [|(-> & -> & -> & -> & ->)]; [done|]. destruct e; accept; [done|]. repeat split. by right.
Qed.

(** What hearing a message leaves. *)
Lemma hear_ok c job q (started : bool) m s :
  answering (c, job, q) started s ->
  exists s', mon _ (CNext q) (Ok m) s = Some s' /\
    cs_job s' = Some (c, job, q) /\ cs_request s' = Asked /\ cs_gone s' = false /\
    (cs_broken s' = true \/
     cs_head s' = (if started then Relayed else NoHead) /\
     match m with
     | MResponse _ => cs_last s' = Some m /\ cs_done s' = false /\ started = false /\ cs_heard s' = Answering
     | MBody _ => cs_last s' = Some m /\ cs_done s' = false /\ started = true /\ cs_heard s' = Answering
     | MEnd _ => cs_last s' = None /\ cs_done s' = true
     | MFail _ => cs_last s' = None /\ cs_done s' = false
     | _ => False
     end).
Proof.
  destruct s as [body j rq sent heard last hd done gone broken]. intros (Hj & Hr & Hg & Hs). simpl in *. subst.
  unfold cs_next. simpl. rewrite bool_decide_true by done. destruct broken.
  - simpl. eexists. split; [reflexivity|]. repeat split. by left.
  - destruct Hs as [|(-> & -> & -> & ->)]; [done|]. simpl.
    destruct started, m; simpl; eexists; (split; [reflexivity|]); repeat split; auto.
    all: right; repeat split.
Qed.

Lemma answer_turn_ok c job q started s :
  answering (c, job, q) started s ->
  ok mon (answer_turn c job q started) s
    (fun r s' => match r with
                 | inl started => answering (c, job, q) started s'
                 | inr o => handled (Some (c, job, q)) o s'
                 end).
Proof.
  intros Ha. unfold answer_turn. apply ok_call. intros [m|e].
  - destruct (hear_ok c job q started m s Ha) as (s' & Hm & Hj & Hr & Hg & Hs).
    exists s'. split; [exact Hm|]. clear Ha Hm s.
    assert (forall why, (match m with MFail _ | MHello _ | MPing | MPong | MRequest _ | MCancel _ => True | _ => False end) ->
      ok mon (seq (answerFailure started why) (fun o => Ret (inr o))) s'
        (fun r s' => match r with inl started => answering (c, job, q) started s'
                     | inr o => handled (Some (c, job, q)) o s' end)) as Hfail.
    { intros why Hk. eapply ok_bind; [apply (answerFailure_ok (Some (c, job, q)))|]; [done| |intros o s Hs'; by apply ok_ret].
      destruct Hs as [|[Hh Hs]]; [by left|]. right. destruct m; try done. by destruct Hs. }
    destruct m; try (by apply Hfail); clear Hfail.
    + eapply ok_bind; [apply (writeHead_ok c job q m)|]; [done..| |].
      * destruct Hs as [|(Hh & Hl & Hd & -> & He)]; auto.
      * intros [] s Hs'. apply ok_call. intros []. exists s. split; [done|]. by apply ok_ret.
    + apply ok_call. intros e. destruct (write_ok c job q started m s' Hj Hr Hg) with (e := e) as (s & Hw & He).
      { destruct Hs as [|(Hh & Hl & Hd & -> & He)]; auto. right. by repeat split. }
      exists s. split; [exact Hw|]. destruct e as [e|].
      * destruct He as (? & ? & ?). by apply cancel_ok.
      * apply ok_call. intros []. exists s. split; [done|]. by apply ok_ret.
    + eapply ok_bind; [apply add_headers_ok|].
      * unfold may_add. destruct Hs as [-> |(Hh & Hl & ->)]; [done|]. destruct (cs_broken s'), (cs_head s'); done.
      * intros [] s ->. apply ok_ret. split; [done|]. destruct Hs as [|(Hh & Hl & Hd)]; auto.
  - destruct Ha as (Hj & Hr & Hg & Hs).
    assert (mon _ (CNext q) (Err e) s = Some s) as Hm.
    { cbn. unfold cs_next. rewrite Hj, Hg, bool_decide_true by done.
      destruct Hs as [-> |(-> & _)]; [done|]. by rewrite orb_true_r. }
    exists s. split; [exact Hm|]. apply ok_call. intros [|].
    + eexists. split; [reflexivity|]. by apply cancel_ok.
    + exists s. split; [done|]. eapply ok_bind; [apply (answerFailure_ok (Some (c, job, q)))|].
      * done.
      * destruct Hs as [|(? & ? & ? & ?)]; auto.
      * intros o s' Hs'. by apply ok_ret.
Qed.

Lemma submit_ok body c job q :
  ok mon (submit service r body c job q)
    (mkCs body (Some (c, job, q)) Unasked [] Unanswered None NoHead false false false)
    (handled (Some (c, job, q))).
Proof.
  unfold submit. apply ok_call. intros [e|]; accept.
  - apply synth_ok; [auto|]. split; [done|]. by right.
  - eapply (ok_bind _ _ _ _ (fun e s => match e with
      | Some _ => unwritten (Some (c, job, q)) s
      | None => answering (c, job, q) false s end)).
    + apply (ok_sendBodyEnd mon c job body _ (fun sent =>
        mkCs body (Some (c, job, q)) Asking sent Unanswered None NoHead false false false)).
      * intros sent chunk rest [e|] _ _; accept; [split; [done|]; by right | done].
      * intros [e|]; accept; [split; [done|]; by right|]. repeat split. by right.
    + intros [e|] s Hs; [apply synth_ok; auto|]. unfold relayAnswer.
      apply (ok_iter mon _ (answering (c, job, q))); [|done]. intros started s' Hs'. by apply answer_turn_ok.
Qed.

Lemma consume_ok : ok mon (consume service r) cs_start consume_over.
Proof.
  assert (forall status why s, status = 501 \/ status = 502 \/ status = 503 -> unwritten None s ->
    ok mon (synth status why) s consume_over) as Hsynth.
  { intros status why s Hst Hs. apply (synth_ok None status why s Hst Hs). }
  unfold consume. destruct (isUpgrade _); [apply Hsynth; [auto|]; split; [done|]; by right|].
  apply ok_call. intros [body|e]; accept; [|apply Hsynth; [auto|]; split; [done|]; by right].
  apply ok_call. intros [c|]; accept; [|apply Hsynth; [auto|]; split; [done|]; by right].
  apply ok_call. intros [[job q]|e]; accept; [|apply Hsynth; [auto|]; split; [done|]; by right].
  eapply ok_bind; [apply submit_ok|]. intros o s [Hj Hs].
  eapply (ok_bind _ _ _ _ (fun _ s' => s' = cs_set_job None s)).
  - apply ok_call. intros []. eexists. split; [cbn; unfold cs_endJob; rewrite Hj; decided; reflexivity|]. by apply ok_ret.
  - intros [] s' ->. apply ok_ret. by split.
Qed.
End Consume.

(** ** The status lines the application sees *)
Definition status_event (ev : event callE) : option N :=
  match ev with
  | Ev e x =>
      match e in callE X return X -> option N with
      | CWriteHeader status => fun _ => Some status
      | _ => fun _ => None
      end x
  end.
Definition status_lines : list (event callE) -> list N := omap status_event.

Lemma cs_step_head service r X (e : callE X) x s s' :
  cs_mon service r X e x s = Some s' -> cs_broken s' = false ->
  cs_broken s = false /\
  match status_event (Ev e x) with
  | Some _ => cs_head s = NoHead /\ cs_head s' <> NoHead
  | None => cs_head s' = cs_head s
  end.
Proof.
  intros H Hb. destruct e; cbn [cs_mon] in H; try discriminate H; cbn [status_event].
  - unfold cs_send in H. destruct (cs_job s) as [[[]]|]; [|done]. guards.
    destruct (request_step m (cs_request s)); guards. done.
  - unfold cs_newJob in H. destruct (cs_job s), (cs_request s), x as [[]|]; guards; done.
  - unfold cs_endJob in H. destruct (cs_job s) as [[[]]|]; guards; done.
  - unfold cs_next in H. destruct (cs_job s) as [[[]]|]; [|done]. guards. destruct x as [m|e]; guards; [|done].
    unfold cs_hear in H. destruct (cs_broken s) eqn:Eb; [guards; congruence|].
    by destruct m, (cs_heard s); simpl in H; guards.
  - by destruct x; guards.
  - by guards.
  - by destruct x; guards.
  - by guards.
  - by guards.
  - unfold cs_writeHeader in H. destruct (cs_broken s) eqn:Eb; [guards; simpl in *; congruence|].
    by destruct (cs_head s), (cs_last s) as [[]|]; guards.
  - unfold cs_write in H. destruct (cs_broken s) eqn:Eb; [guards; simpl in *; congruence|].
    by destruct (cs_head s), (cs_last s) as [[]|]; guards.
  - by guards.
Qed.

Lemma cs_run_head service r l s s' :
  run (cs_mon service r) l s = Some s' -> cs_broken s' = false ->
  cs_broken s = false /\
  (cs_head s = NoHead -> length (status_lines l) = if decide (cs_head s' = NoHead) then 0%nat else 1%nat) /\
  (cs_head s <> NoHead -> status_lines l = [] /\ cs_head s' <> NoHead).
Proof.
  revert s. induction l as [|[X e x] l IH]; intros s Hr Hb.
  { simplify_eq/=. split_and!; [done| |done]. intros E. by rewrite decide_True. }
  cbn [run] in Hr. destruct (cs_mon service r X e x s) as [s1|] eqn:E; [|done].
  destruct (IH s1 Hr Hb) as (Hb1 & H0 & H1). apply cs_step_head in E as [Hb0 Hs]; [|done]. split; [done|].
  unfold status_lines in *. cbn [omap list_omap]. destruct (status_event _) as [st|].
  - destruct Hs as [Hs Hs1]. destruct (H1 Hs1) as [Hl Hh]. split; [|congruence]. intros _.
    rewrite decide_False by done. by cbn; rewrite Hl.
  - rewrite <- Hs. by split.
Qed.

(** ** The request the server sees *)

(** The body the handler read, and the jobs it opened. *)
Definition read_event (ev : event callE) : option (list byte) :=
  match ev with
  | Ev e x =>
      match e in callE X return X -> option (list byte) with
      | CReadAll => fun b => match b with Ok body => Some body | Err _ => None end
      | _ => fun _ => None
      end x
  end.
Definition body_read (l : list (event callE)) : list byte := default [] (last (omap read_event l)).

(** REQUEST and some BODYs, and the same with its END. *)
Definition begun (service : string) (r : http_request) (job : N) (body : list byte) (pieces : list (list byte)) : list Message :=
  the_request service r job body :: map (fun bs => MBody (mkBody job bs)) pieces.
Definition submitted (service : string) (r : http_request) (job : N) (body : list byte) (pieces : list (list byte)) : list Message :=
  begun service r job body pieces ++ [the_end r job].

(** The monitor's account of what has been sent is the trace's. *)
Record accounted (service : string) (r : http_request) (l : list (event callE)) (s : cs_state) : Prop := {
  ac_body : cs_body s = body_read l;
  ac_none : cs_request s = Unasked -> cs_sent s = [] /\ forall c job, sent c job l = [];
  ac_job : forall c job q, cs_job s = Some (c, job, q) -> Ev (CNewJob c) (Ok (job, q)) ∈ l /\
    match cs_request s with
    | Asking => exists pieces, sent c job l = begun service r job (cs_body s) pieces /\ concat pieces = cs_sent s
    | Asked => exists pieces, sent c job l = submitted service r job (cs_body s) pieces /\ concat pieces = cs_body s
    | _ => True
    end;
}.

Lemma sent_snoc c job l ev :
  sent c job (l ++ [ev]) = sent c job l ++ match sent_event c job ev with Some m => [m] | None => [] end.
Proof. unfold sent. rewrite omap_app. cbn. by destruct (sent_event c job ev). Qed.

Lemma body_read_snoc l ev :
  body_read (l ++ [ev]) = match read_event ev with Some body => body | None => body_read l end.
Proof.
  unfold body_read. rewrite omap_app. cbn. destruct (read_event ev); [by rewrite last_snoc | by rewrite app_nil_r].
Qed.

(** A step that sends nothing, reads nothing and leaves the job alone. *)
Lemma accounted_quiet service r l s s' ev :
  accounted service r l s -> read_event ev = None -> (forall c job, sent_event c job ev = None) ->
  cs_body s' = cs_body s -> cs_request s' = cs_request s -> cs_sent s' = cs_sent s ->
  (cs_job s' = cs_job s \/ cs_job s' = None) ->
  accounted service r (l ++ [ev]) s'.
Proof.
  intros [Hb Hn Hj] Hr Hs Eb Eq Es Ej. split.
  - by rewrite body_read_snoc, Hr, Eb.
  - rewrite Eq, Es. intros H. destruct (Hn H) as [-> Hl]. split; [done|]. intros c job. by rewrite sent_snoc, Hs, Hl.
  - intros c job q H. destruct Ej as [Ej|Ej]; rewrite Ej in H; [|done]. rewrite Eq, Es, Eb, sent_snoc, Hs, app_nil_r.
    destruct (Hj c job q H) as [Hin Hm]. split; [|done]. apply elem_of_app. by left.
Qed.

Lemma accounted_send service r l s s' c m e :
  accounted service r l s ->
  cs_send service r c m (match e with Some _ => true | None => false end) s = Some s' ->
  accounted service r (l ++ [Ev (CSend c m) e]) s'.
Proof.
  intros [Hb Hn Hj] H. unfold cs_send in H. destruct (cs_job s) as [[[c0 job] q]|] eqn:Ej; [|done]. guards. subst c0.
  destruct (request_step m (cs_request s)) as [ph|] eqn:Ep; guards.
  destruct (Hj c job q eq_refl) as [Hin Hm].
  assert (Ev (CNewJob c) (Ok (job, q)) ∈ l ++ [Ev (CSend c m) e]) as Hin' by (apply elem_of_app; by left).
  split; simpl.
  - by rewrite body_read_snoc.
  - destruct e; [done|]. intros ->. by destruct m, (cs_request s).
  - rewrite Ej. intros c' job' q' [= <- <- <-]. split; [done|]. rewrite sent_snoc. destruct e as [e|]; [done|]. simpl.
    rewrite bool_decide_true by done.
    destruct m as [h| | |rq|rs|b|en|cn|f], (cs_request s) eqn:Eq; try done; simpl in Ep; injection Ep as <-; cbn [cs_same] in *; guards; try done.
    + destruct (Hn eq_refl) as [Hs0 Hl]. exists []. rewrite Hl, Hs0. split; [|done]. unfold begun. simpl. congruence.
    + destruct Hm as (pieces & -> & Hp). exists (pieces ++ [body_Bytes b]). unfold begun. rewrite map_app, concat_app, Hp. simpl.
      rewrite app_nil_r. split; [|done]. do 3 f_equal. destruct b; simpl in *. congruence.
    + destruct Hm as (pieces & -> & Hp). exists pieces. unfold submitted. split; congruence.
Qed.

Lemma accounted_newJob service r l s s' c x :
  accounted service r l s -> cs_newJob c x s = Some s' -> accounted service r (l ++ [Ev (CNewJob c) x]) s'.
Proof.
  intros Ha H. unfold cs_newJob in H. destruct (cs_job s) eqn:Ej, (cs_request s) eqn:Eq; try done.
  destruct x as [[job q]|err]; guards; [|eapply accounted_quiet; eauto].
  destruct Ha as [Hb Hn _]. destruct (Hn Eq) as [Hs Hl]. split; simpl.
  - by rewrite body_read_snoc.
  - intros _. split; [done|]. intros c' job'. by rewrite sent_snoc, Hl.
  - intros c' job' q' [= <- <- <-]. rewrite Eq. split; [|done]. apply elem_of_app. right. by left.
Qed.

Lemma accounted_step service r l X (e : callE X) x s s' :
  accounted service r l s -> cs_mon service r X e x s = Some s' -> accounted service r (l ++ [Ev e x]) s'.
Proof.
  intros Ha H. destruct e; cbn [cs_mon] in H; try discriminate H.
  1: by apply (accounted_send _ _ _ s).
  1: by apply (accounted_newJob _ _ _ s).
  1: { unfold cs_endJob in H. destruct (cs_job s) as [[[]]|] eqn:Ej; guards. eapply accounted_quiet; try done. by right. }
  1: { unfold cs_next in H. destruct (cs_job s) as [[[]]|] eqn:Ej; [|done]. guards.
       assert (cs_body s' = cs_body s /\ cs_request s' = cs_request s /\ cs_sent s' = cs_sent s /\ cs_job s' = cs_job s) as (? & ? & ? & ?).
       { destruct x as [m|]; guards; [|done]. unfold cs_hear in H. destruct (cs_broken s); [by guards|].
         destruct (answer_step m (cs_heard s)), m; by guards. }
       eapply accounted_quiet; eauto. }
  all: try (eapply accounted_quiet; [exact Ha|reflexivity|reflexivity|..]; repeat case_match; guards; auto; fail).
  - guards. destruct Ha as [Hb Hn Hj]. destruct x as [body|]; guards.
    + split; simpl; [by rewrite body_read_snoc | | congruence]. intros E. destruct (Hn E) as [-> Hl].
      split; [done|]. intros c job. by rewrite sent_snoc, Hl.
    + by eapply accounted_quiet; eauto.
  - unfold cs_writeHeader in H. eapply accounted_quiet; [exact Ha|reflexivity|reflexivity|..]; repeat case_match; guards; auto.
  - unfold cs_write in H. eapply accounted_quiet; [exact Ha|reflexivity|reflexivity|..]; repeat case_match; guards; auto.
Qed.

Lemma accounted_run service r l l' s s' :
  accounted service r l s -> run (cs_mon service r) l' s = Some s' -> accounted service r (l ++ l') s'.
Proof.
  revert l s. induction l' as [|[X e x] l' IH]; intros l s Ha Hr; [simplify_eq/=; by rewrite app_nil_r|].
  cbn [run] in Hr. destruct (cs_mon service r X e x s) as [s1|] eqn:E; [|done].
  change (l ++ Ev e x :: l') with (l ++ [Ev e x] ++ l'). rewrite app_assoc.
  apply (IH _ s1); [|done]. by apply (accounted_step _ _ _ _ _ _ s).
Qed.

(** Whoever takes a message of the answer has submitted the whole request. *)
Lemma answers_follow_request service r l1 q x l2 s :
  run (cs_mon service r) (l1 ++ Ev (CNext q) x :: l2) cs_start = Some s ->
  exists c job pieces, Ev (CNewJob c) (Ok (job, q)) ∈ l1 /\
    sent c job l1 = submitted service r job (body_read l1) pieces /\ concat pieces = body_read l1.
Proof.
  rewrite run_app. destruct (run _ l1 cs_start) as [s1|] eqn:E; [|done]. cbn [run cs_mon].
  destruct (cs_next q x s1) as [s2|] eqn:En; [|done]. intros _.
  assert (accounted service r l1 s1) as [Hb _ Hj].
  { apply (accounted_run service r [] l1 cs_start); [|done]. by split. }
  unfold cs_next in En. destruct (cs_job s1) as [[[c job] q']|] eqn:Ej; [|done]. guards. subst q'.
  destruct (Hj c job q eq_refl) as [Hin Hm].
  match goal with H : cs_request s1 = Asked |- _ => rewrite H in Hm end.
  destruct Hm as (pieces & Hs & Hp). exists c, job, pieces. rewrite Hb in *. by split_and!.
Qed.

(** C5. A consuming peer answers its application.  Whatever the connection and
    the application do, every call a run of [consume] makes is one its contract
    allows: each piece of the answer written as it came in before the next is
    taken, headers before the status line, a status of its own only when none was
    relayed.  Before it takes anything of an answer it has submitted the whole
    request: what it sent on the job is the REQUEST, BODYs whose bytes are those
    it read of the application, and END with the application's trailers, and
    nothing else.  As long as the
    server keeps to the order of an answer, the application gets at most one
    status line; and when the handler is over the job is ended and either the
    application has a whole answer, or it went away, or the handler aborted the
    connection, which it does only after a relayed status line and before the
    end of the body. *)
Theorem consume_keeps_contract `{Texts} service r l o :
  traces (consume service r) l o ->
  exists s, run (cs_mon service r) l cs_start = Some s /\
    (forall l1 q x l2, l = l1 ++ Ev (CNext q) x :: l2 ->
       exists c job pieces, Ev (CNewJob c) (Ok (job, q)) ∈ l1 /\
         sent c job l1 = submitted service r job (body_read l1) pieces /\ concat pieces = body_read l1) /\
    (cs_broken s = false -> (length (status_lines l) <= 1)%nat) /\
    (forall out, o = Some out -> consume_over out s).
Proof.
  intros Ht. destruct (consume_ok service r l o Ht) as (s & Hr & Ho). exists s. split_and!; [done| | |done].
  { intros l1 q x l2 ->. by apply (answers_follow_request service r l1 q x l2 s). }
  intros Hb. destruct (cs_run_head service r l cs_start s Hr Hb) as (_ & H0 & _).
  rewrite (H0 eq_refl). case_decide; lia.
Qed.

(** ** A whole answer, and one that dies after its status line *)
Definition demo_http_request : http_request := mkHTTPRequest "GET" "/v1" "" ∅ ∅.
Definition demo_consume (answer : list (result job_error Message)) : list (event callE) * option outcome :=
  exec obliging 100 (consume "llm" demo_http_request) (mkScript answer []).

Lemma consume_keeps_contract_witness :
  (exists s, run (cs_mon "llm" demo_http_request)
      (demo_consume [Ok (MResponse (mkResponse 2 200 [])); Err CtxErr]).1 cs_start = Some s /\
    consume_over Aborted s) /\
  status_lines (demo_consume [Ok (MResponse (mkResponse 2 200 [])); Err CtxErr]).1 = [200] /\
  sent 0 2 (demo_consume [Ok (MResponse (mkResponse 2 200 [])); Err CtxErr]).1 =
    submitted "llm" demo_http_request 2 [] [] /\
  (demo_consume [Ok (MResponse (mkResponse 2 200 [])); Ok (MBody (mkBody 2 [x41])); Ok (MEnd (mkEnd 2 []))]).2 =
    Some Returned.
Proof.
  split; [|split_and!; vm_compute; reflexivity].
  destruct (consume_keeps_contract "llm" demo_http_request
    (demo_consume [Ok (MResponse (mkResponse 2 200 [])); Err CtxErr]).1
    (demo_consume [Ok (MResponse (mkResponse 2 200 [])); Err CtxErr]).2) as (s & Hr & _ & _ & Ho).
  - apply exec_traces.
  - exists s. split; [exact Hr | apply Ho; vm_compute; reflexivity].
Defined.
