(* ===== verification/EndToEnd.v ===== *)
(** One job from the application to the upstream and back, through the three
    programs that handle it: [consume] at one edge, [relay] on the server,
    [provide] at the other edge.

    Here nothing goes wrong: every send succeeds, a slot is free, the upstream
    answers.  The messages one program sends are those the next one is given, so
    the three runs are one job's. *)

From ITree Require Import ITree.
From S2P Require Import Prelude Bytes Io Message GoStrings Headers Conn PoolSystem Conf Interact Calls JobProtocol Job Server Provide Consume.
Local Open Scope N_scope.

(** ** A place where nothing goes wrong *)

(** What the application's connection is given. *)
Inductive app_event : Type :=
  | AppHeader (name value : string)
  | AppStatus (status : N)
  | AppBytes (bs : list byte)
  | AppFlush.

Record place : Type := mkPlace {
  pl_next : list (nat * Message);               (* what arrives, in which queue, in order *)
  pl_reads : list (list byte * read_end);       (* the upstream's body *)
  pl_sent : list (nat * Message);               (* what was sent, on which connection *)
  pl_asked : list upstream_request;             (* what the upstream was asked *)
  pl_app : list app_event;
}.

Section Place.
(** The job and queue a new job gets, the connection, the application's body,
    and the upstream's answer. *)
Context (job : N) (dq : nat) (conn : nat) (app_body : list byte).
Context (status : Z) (header trailer : HTTPHeader).

Definition say (c : nat) (m : Message) (s : place) : place :=
  mkPlace (pl_next s) (pl_reads s) (pl_sent s ++ [(c, m)]) (pl_asked s) (pl_app s).
Definition show (e : app_event) (s : place) : place :=
  mkPlace (pl_next s) (pl_reads s) (pl_sent s) (pl_asked s) (pl_app s ++ [e]).

Definition next_in (q : nat) (s : place) : result job_error Message * place :=
  match pl_next s with
  | (q', m) :: l =>
      if bool_decide (q = q') then (Ok m, mkPlace l (pl_reads s) (pl_sent s) (pl_asked s) (pl_app s))
      else (Err CtxErr, s)
  | [] => (Err CtxErr, s)
  end.

Definition fine (X : Type) (e : callE X) (s : place) : X * place :=
  match e in callE X return X * place with
  | CSend c m => (None, say c m s)
  | CNewJob _ => (Ok (job, dq), s)
  | CNext q => next_in q s
  | CCtxEnded | CCauseCancelled => (false, s)
  | CNow => (0%Z, s)
  | CAcquire _ _ _ => (Ok (0%nat, Some conn), s)
  | CTake _ _ => (true, s)
  | CConnection => (Some conn, s)
  | CNewRequest _ _ => (None, s)
  | CDo r => (Ok (status, header), mkPlace (pl_next s) (pl_reads s) (pl_sent s) (pl_asked s ++ [r]) (pl_app s))
  | CRead _ =>
      match pl_reads s with
      | r :: l => (r, mkPlace (pl_next s) l (pl_sent s) (pl_asked s) (pl_app s))
      | [] => (([], AtEOF), s)
      end
  | CTrailer => (trailer, s)
  | CReadAll => (Ok app_body, s)
  | CHeaderSet name value | CHeaderAdd name value => (tt, show (AppHeader name value) s)
  | CWriteHeader n => (tt, show (AppStatus n) s)
  | CWrite bs => (None, show (AppBytes bs) s)
  | CFlush => (tt, show AppFlush s)
  | CEndJob _ _ | CFail _ _ | CCancel _ | CWatch _ | CRelease _ | CGive _ | CCloseBody => (tt, s)
  end.

Abbreviation runs := (runs fine).

(** One call whose answer is known. *)
Ltac step := eapply runs_call; [reflexivity|]; cbn [fst snd].

(** The next message of a queue. *)
Ltac receive := eapply runs_call; [cbn; unfold next_in; cbn; rewrite bool_decide_true by done; reflexivity|]; cbn [fst snd]; try apply runs_ret.

(** ** Messages *)
Definition bodies (j : N) (pieces : list (list byte)) : list Message := map (fun bs => MBody (mkBody j bs)) pieces.

Definition body_end (j : N) (pieces : list (list byte)) (trailers : list Header) : list Message :=
  bodies j pieces ++ [MEnd (mkEnd j trailers)].

Definition on (c : nat) (ms : list Message) : list (nat * Message) := map (pair c) ms.

Lemma runs_collect q j pieces trailers rest reads sent asked app :
  runs (collect q) (mkPlace (on q (body_end j pieces trailers) ++ rest) reads sent asked app)
    (Ok (concat pieces, trailers)) (mkPlace rest reads sent asked app).
Proof.
  unfold collect. change (concat pieces) with ([] ++ concat pieces). generalize (@nil byte) as before.
  induction pieces as [|bs pieces IH]; intros before.
  - eapply runs_iter; [receive|]. by rewrite app_nil_r.
  - eapply runs_iter; [receive|]. cbn [body_Bytes concat]. rewrite app_assoc. apply IH.
Qed.

(** A body goes out in pieces of at most [bodyChunk] bytes. *)
Definition pieces_of (body : list byte) (pieces : list (list byte)) : Prop :=
  concat pieces = body /\ Forall (fun bs => 0 < len bs <= bodyChunk) pieces.

Lemma runs_sendBodyEnd c j body trailers s :
  exists pieces, pieces_of body pieces /\
    runs (sendBodyEnd c j body trailers) s None
      (mkPlace (pl_next s) (pl_reads s) (pl_sent s ++ on c (body_end j pieces trailers)) (pl_asked s) (pl_app s)).
Proof.
  revert s. induction body as [body IH] using (induction_ltof1 _ (@length byte)). unfold ltof in IH. intros s.
  destruct body as [|b body].
  - exists []. split; [by split; [|constructor]|]. eapply runs_iter; [step; apply runs_ret|]. by split.
  - set (chunk := if (bodyChunk <? len (b :: body)) then take (N.to_nat bodyChunk) (b :: body) else b :: body).
    assert (0 < len chunk <= bodyChunk) as Hc.
    { subst chunk. destruct (N.ltb_spec bodyChunk (len (b :: body))); rewrite ?len_take, ?len_cons in *.
      - assert (0 < bodyChunk) by done. lia.
      - lia. }
    assert (b :: body = chunk ++ drop (length chunk) (b :: body)) as Hs.
    { subst chunk. destruct (_ <? _); [|by rewrite drop_all, app_nil_r].
      rewrite length_take, <- (take_drop (N.to_nat bodyChunk) (b :: body)) at 1. f_equal.
      destruct (Nat.min_spec (N.to_nat bodyChunk) (length (b :: body))) as [[_ ->]|[Hm ->]]; [done|].
      by rewrite !drop_ge. }
    destruct (IH (drop (length chunk) (b :: body))) with (s := say c (MBody (mkBody j chunk)) s)
      as (pieces & [Hp Hf] & Hr).
    { unfold len in Hc. rewrite length_drop. simpl. lia. }
    exists (chunk :: pieces). split; [split; [simpl; by rewrite Hp, <- Hs | by constructor]|].
    eapply runs_iter; [eapply runs_call; [reflexivity|]; apply runs_ret|]. cbn [fst snd].
    cbn [pl_sent pl_next pl_reads pl_asked pl_app say] in Hr. rewrite <- app_assoc in Hr. exact Hr.
Qed.

(** ** The upstream's answer, and the messages of it *)

(** What the reads of a body give: pieces, the last of them with the end. *)
Definition reads_of (chunks : list (list byte)) (last : list byte) : list (list byte * read_end) :=
  map (fun bs => (bs, More)) chunks ++ [(last, AtEOF)].

Definition nonempty (chunks : list (list byte)) : list (list byte) :=
  filter (fun bs => bs <> []) chunks.

Lemma runs_upstream_turn c j bs e reads next sent asked app :
  match e with ReadFailed _ => False | _ => True end ->
  runs (upstream_turn c j) (mkPlace next ((bs, e) :: reads) sent asked app)
    (match e with More => inl tt | _ => inr None end)
    (mkPlace next reads (sent ++ on c (bodies j (nonempty [bs]))) asked app).
Proof.
  intros He. unfold upstream_turn. step.
  apply (runs_bind _ _ _ _ None (mkPlace next reads (sent ++ on c (bodies j (nonempty [bs]))) asked app)).
  - destruct bs as [|b bs]; cbn; [rewrite app_nil_r; apply runs_ret | step; apply runs_ret].
  - destruct e; try done; apply runs_ret.
Qed.

Lemma nonempty_cons bs chunks : nonempty (bs :: chunks) = nonempty [bs] ++ nonempty chunks.
Proof. unfold nonempty. by rewrite <- filter_app. Qed.

Lemma on_bodies_app c j a b : on c (bodies j (a ++ b)) = on c (bodies j a) ++ on c (bodies j b).
Proof. unfold on, bodies. by rewrite !map_app. Qed.

Lemma runs_upstream c j chunks last next sent asked app :
  runs (ITree.iter (fun _ => upstream_turn c j) tt) (mkPlace next (reads_of chunks last) sent asked app) None
    (mkPlace next [] (sent ++ on c (bodies j (nonempty (chunks ++ [last])))) asked app).
Proof.
  revert sent. induction chunks as [|bs chunks IH]; intros sent.
  - eapply runs_iter; [by apply runs_upstream_turn|]. by split.
  - change (reads_of (bs :: chunks) last) with ((bs, More) :: reads_of chunks last).
    eapply runs_iter; [by apply runs_upstream_turn|]. cbn iota.
    change ((bs :: chunks) ++ [last]) with (bs :: (chunks ++ [last])). rewrite (nonempty_cons bs (chunks ++ [last])), on_bodies_app, (app_assoc sent). apply IH.
Qed.

(** ** The provider *)

(** What a provider answers for an upstream's answer. *)
Definition answer_of (j : N) (chunks : list (list byte)) : list Message :=
  MResponse (mkResponse j (Z.to_N status) (fromHTTP header [])) ::
  body_end j (nonempty chunks) (fromHTTP trailer []).

Lemma runs_provide `{Texts} byName c req q p pieces trailers chunks last :
  byName !! req_Service req = Some p -> HasPrefix (req_Target req) "/" = true -> (100 <= status <= 599)%Z ->
  runs (provide byName c req q) (mkPlace (on q (body_end (req_Job req) pieces trailers)) (reads_of chunks last) [] [] []) tt
    (mkPlace [] [] (on c (answer_of (req_Job req) (chunks ++ [last]))) [to_upstream req p (concat pieces)] []).
Proof.
  intros Hp Ht Hs. unfold provide. rewrite Hp. eapply runs_deferred; [|step; apply runs_ret].
  step. cbn [negb]. eapply runs_deferred; [|step; apply runs_ret]. eapply runs_deferred; [|step; apply runs_ret].
  eapply runs_bind.
  { rewrite <- (app_nil_r (on q _)). apply runs_collect. }
  cbn iota beta. step. eapply (runs_bind _ _ _ _ None); [|apply runs_ret].
  unfold runUpstream. rewrite Ht. cbn [negb]. step. step.
  unfold relay_upstream. eapply runs_deferred; [|step; apply runs_ret].
  replace ((status <? 100)%Z || (599 <? status)%Z) with false by lia.
  step. eapply runs_bind; [apply runs_upstream|]. cbn iota beta. step.
  eapply runs_call; [reflexivity|]. cbn [fst snd option_map].
  unfold answer_of, body_end, on, say. cbn [pl_next pl_reads pl_sent pl_asked pl_app].
  rewrite map_cons, map_app. apply runs_ret.
Qed.

(** ** The server *)

(** A whole answer to job [j]. *)
Definition whole_answer (j n : N) (hs : list Header) (pieces : list (list byte)) (trailers : list Header) : list Message :=
  MResponse (mkResponse j n hs) :: body_end j pieces trailers.

Lemma runs_passes_on c req target j q pieces trailers reads sent asked app :
  runs (ITree.iter (dispatch_turn c req target j q) true)
    (mkPlace (on q (body_end j pieces trailers)) reads sent asked app) (true, None)
    (mkPlace [] reads (sent ++ on c (body_end (req_Job req) pieces trailers)) asked app).
Proof.
  revert sent. induction pieces as [|bs pieces IH]; intros sent.
  - eapply runs_iter; [unfold dispatch_turn; receive; cbn [onward]; step; apply runs_ret|]. by split.
  - eapply runs_iter; [unfold dispatch_turn; receive; cbn [onward]; step; apply runs_ret|].
    cbn [is_last]. unfold say. cbn [pl_next pl_reads pl_sent pl_asked pl_app].
    change (on c (body_end (req_Job req) (bs :: pieces) trailers))
      with ([(c, MBody (mkBody (req_Job req) bs))] ++ on c (body_end (req_Job req) pieces trailers)).
    rewrite (app_assoc sent). apply IH.
Qed.

Lemma runs_relay `{Texts} c req q pieces trailers n hs answer answer_trailers :
  exists forwarded, pieces_of (concat pieces) forwarded /\
    runs (relay c req q)
      (mkPlace (on q (body_end (req_Job req) pieces trailers) ++ on dq (whole_answer job n hs answer answer_trailers)) [] [] [] []) tt
      (mkPlace [] [] (on conn (MRequest (mkRequest job (req_Service req) (req_Method req) (req_Target req) (req_Headers req)) ::
                               body_end job forwarded trailers) ++
                      on c (whole_answer (req_Job req) n hs answer answer_trailers)) [] []).
Proof.
  set (out := MRequest (mkRequest job (req_Service req) (req_Method req) (req_Target req) (req_Headers req))).
  destruct (runs_sendBodyEnd conn job (concat pieces) trailers
    (mkPlace (on dq (whole_answer job n hs answer answer_trailers)) [] [(conn, out)] [] []))
    as (forwarded & Hp & Hr). cbn [pl_next pl_reads pl_sent pl_asked pl_app] in Hr.
  exists forwarded. split; [done|]. unfold relay. eapply runs_deferred; [|step; apply runs_ret].
  step. eapply runs_deferred; [|step; apply runs_ret]. eapply runs_bind; [apply runs_collect|].
  cbn iota beta. step. eapply (runs_iter _ _ _ _ (inr tt)); [|by split]. unfold relay_turn. step.
  eapply (runs_bind _ _ _ _ (true, None)); [|step; apply runs_ret].
  unfold dispatch. step. eapply runs_deferred; [|step; apply runs_ret].
  unfold dispatch_job. step. eapply (runs_bind _ _ _ _ None); [exact Hr|]. cbn iota.
  eapply runs_iter; [unfold dispatch_turn; unfold whole_answer; receive; cbn [onward]; step; apply runs_ret|].
  cbn [is_last]. unfold say. cbn [pl_next pl_reads pl_sent pl_asked pl_app].
  match goal with |- Interact.runs _ _ _ _ (mkPlace _ _ ?l _ _) =>
    replace l with ((((conn, out) :: on conn (body_end job forwarded trailers)) ++
      [(c, MResponse (mkResponse (req_Job req) n hs))]) ++ on c (body_end (req_Job req) answer answer_trailers))
  end; [apply runs_passes_on|].
  unfold whole_answer, on. cbn [map]. by rewrite <- app_assoc.
Qed.

(** ** The application's edge *)
Definition shown (n : N) (hs : list Header) (pieces : list (list byte)) (trailers : list Header) : list app_event :=
  map (fun h => AppHeader h.1 h.2) (head_headers hs) ++ [AppStatus n; AppFlush] ++
  flat_map (fun bs => [AppBytes bs; AppFlush]) pieces ++
  map (fun h => AppHeader h.1 h.2) (trailer_headers trailers).

Lemma runs_add_headers hs next reads sent asked app :
  runs (add_headers hs) (mkPlace next reads sent asked app) tt
    (mkPlace next reads sent asked (app ++ map (fun h => AppHeader h.1 h.2) hs)).
Proof.
  revert app. induction hs as [|[name value] hs IH]; intros app; cbn [add_headers].
  - rewrite app_nil_r. apply runs_ret.
  - step. unfold show. cbn [pl_next pl_reads pl_sent pl_asked pl_app].
    specialize (IH (app ++ [AppHeader name value])). by rewrite <- app_assoc in IH.
Qed.

Lemma runs_shows_body `{Texts} c j q pieces trailers reads sent asked app :
  runs (ITree.iter (answer_turn c j q) true)
    (mkPlace (on q (body_end j pieces trailers)) reads sent asked app) Returned
    (mkPlace [] reads sent asked (app ++ flat_map (fun bs => [AppBytes bs; AppFlush]) pieces ++
      map (fun h => AppHeader h.1 h.2) (trailer_headers trailers))).
Proof.
  revert app. induction pieces as [|bs pieces IH]; intros app.
  - eapply runs_iter.
    + unfold answer_turn. receive. eapply runs_bind; [apply runs_add_headers|]. apply runs_ret.
    + by split.
  - eapply runs_iter; [unfold answer_turn; receive; step; step; apply runs_ret|].
    unfold show. cbn [pl_next pl_reads pl_sent pl_asked pl_app].
    specialize (IH ((app ++ [AppBytes bs]) ++ [AppFlush])). rewrite <- !app_assoc in IH. rewrite <- !app_assoc. exact IH.
Qed.

Lemma runs_consume `{Texts} service r n hs answer trailers :
  isUpgrade (hr_header r) = false ->
  exists pieces, pieces_of app_body pieces /\
    runs (consume service r) (mkPlace (on dq (whole_answer job n hs answer trailers)) [] [] [] []) Returned
      (mkPlace [] [] (on conn (MRequest (mkRequest job service (hr_method r) (target r)
                                (requestHeaders (hr_header r) (len app_body))) ::
                               body_end job pieces (fromHTTP (hr_trailer r) []))) []
        (shown n hs answer trailers)).
Proof.
  intros Hu. set (out := MRequest (mkRequest job service (hr_method r) (target r) (requestHeaders (hr_header r) (len app_body)))).
  destruct (runs_sendBodyEnd conn job app_body (fromHTTP (hr_trailer r) [])
    (mkPlace (on dq (whole_answer job n hs answer trailers)) [] [(conn, out)] [] []))
    as (pieces & Hp & Hr). cbn [pl_next pl_reads pl_sent pl_asked pl_app] in Hr.
  exists pieces. split; [done|]. unfold consume. rewrite Hu. step. step. step.
  eapply runs_deferred; [|step; apply runs_ret]. unfold submit. step.
  eapply (runs_bind _ _ _ _ None); [exact Hr|]. cbn iota. unfold relayAnswer.
  eapply runs_iter.
  - unfold answer_turn, whole_answer. receive. eapply runs_bind.
    + eapply runs_bind; [apply runs_add_headers|]. step. apply runs_ret.
    + step. apply runs_ret.
  - unfold show. cbn [pl_next pl_reads pl_sent pl_asked pl_app resp_Headers resp_Status].
    unfold shown. rewrite <- !app_assoc.
    pose proof (runs_shows_body conn job dq answer trailers [] ([(conn, out)] ++ on conn (body_end job pieces (fromHTTP (hr_trailer r) []))) []
      (map (fun h => AppHeader h.1 h.2) (head_headers hs) ++ [AppStatus n] ++ [AppFlush])) as Hb.
    rewrite <- !app_assoc in Hb. exact Hb.
Qed.

End Place.

(** ** The whole way *)

Lemma concat_nonempty chunks : concat (nonempty chunks) = concat chunks.
Proof.
  induction chunks as [|bs chunks IH]; [done|]. rewrite nonempty_cons, concat_app, IH. destruct bs; cbn; [done|]. rewrite decide_True by done. cbn. by rewrite app_nil_r.
Qed.

Definition arriving (ms : list (nat * Message)) (reads : list (list byte * read_end)) : place := mkPlace ms reads [] [] [].
Definition sent_on (ms : list (nat * Message)) (asked : list upstream_request) (app : list app_event) : place :=
  mkPlace [] [] ms asked app.

(** The request-target as the application wrote it. *)
Definition written_target (r : http_request) : string :=
  match hr_RequestURI r with EmptyString => hr_url_RequestURI r | uri => uri end.

(** A header that is for the other end: not one of PROTOCOL.md's hop-by-hop
    headers, Host and Proxy-Authenticate, and not named by a Connection header. *)
Definition travels (h : HTTPHeader) (name : string) : Prop :=
  name ∉ ["Connection"; "Keep-Alive"; "Transfer-Encoding"; "Te"; "Trailer"; "Upgrade"; "Proxy-Connection"; "Host";
          "Proxy-Authenticate"]%string /\
  forall value token, value ∈ header_values h "Connection" -> token ∈ Split value x2c ->
    TrimSpace token <> ""%string -> CanonicalMIMEHeaderKey (TrimSpace token) <> name.

Lemma kept_travels h name : kept h [] name <-> travels h name.
Proof.
  unfold kept, skipped, travels, hopByHop. rewrite orb_false_iff, !bool_decide_eq_false. apply and_iff_compat_l.
  cbn [map app]. unfold connectionHeaders, connection_tokens. split.
  - intros Hn value token Hv Ht He <-. apply Hn, list_elem_of_fmap. exists (TrimSpace token). split; [done|].
    apply list_elem_of_filter. split; [done|]. apply list_elem_of_In, in_concat.
    exists (map TrimSpace (Split value comma)). rewrite <- !list_elem_of_In. split; apply list_elem_of_fmap; eauto.
  - intros H (token & -> & [He Hin]%list_elem_of_filter)%list_elem_of_fmap.
    apply list_elem_of_In, in_concat in Hin as (l & Hl & Ht). apply list_elem_of_In in Hl, Ht.
    apply list_elem_of_fmap in Hl as (value & -> & Hv). apply list_elem_of_fmap in Ht as (t & -> & Ht).
    by apply (H value t).
Qed.

(** [values] are [all] when the header travels, and [none] otherwise. *)
Definition carried (h : HTTPHeader) (name : string) {A} (all none values : A) : Prop :=
  (travels h name -> values = all) /\ (~ travels h name -> values = none).

Lemma kept_carried h name {A} (all none : A) : carried h name all none (if decide (kept h [] name) then all else none).
Proof. unfold carried. rewrite <- kept_travels. by destruct (decide _). Qed.

(** The upstream is asked what the application asked: the method, the target at
    the upstream of the [provide] section, the body, and of the headers every one
    that is neither hop-by-hop nor listed by Connection, with all its values in
    order.  Content-Length is left to the client that sends the body, and a
    User-Agent is not made up. *)
Record asked_as (r : http_request) (upstream : string) (body : list byte) (u : upstream_request) : Prop := {
  as_method : up_method u = hr_method r;
  as_url : up_url u = "http://" +:+ upstream +:+ written_target r;
  as_host : up_host u = upstream;
  as_body : up_body u = body;
  as_header name : name <> "Content-Length"%string ->
    carried (hr_header r) name (hr_header r !! name) None (up_header u !! name);
  as_length : up_header u !! "Content-Length"%string = None;
  as_user_agent : up_no_user_agent u = true <-> up_header u !! "User-Agent"%string = None;
}.

(** The values of header [name] among what the application is given. *)
Definition app_values (name : string) : list app_event -> list string :=
  omap (fun e => match e with
    | AppHeader n v => if bool_decide (n = name) then Some v else None
    | _ => None
    end).

Definition is_app_header (e : app_event) : Prop := exists name value, e = AppHeader name value.

(** The application is shown what the upstream answered: its headers, then its
    status, then the pieces of its body as they were read, each flushed, then its
    trailers. *)
Record shown_as (status : Z) (header trailer : HTTPHeader) (reads : list (list byte)) (app : list app_event) : Prop := {
  sa_parts : exists heads trails,
    app = heads ++ [AppStatus (Z.to_N status); AppFlush] ++
          flat_map (fun bs => [AppBytes bs; AppFlush]) (filter (fun bs => bs <> []) reads) ++ trails /\
    Forall is_app_header heads /\ Forall is_app_header trails /\
    (forall name, carried header name (header_values header name) [] (app_values name heads)) /\
    (forall name, carried trailer name (header_values trailer name) [] (app_values ("Trailer:" +:+ name) trails));
  sa_body : concat (omap (fun e => match e with AppBytes bs => Some bs | _ => None end) app) = concat reads;
}.

Lemma target_written r : target r = written_target r.
Proof. unfold target, written_target. by destruct (hr_RequestURI r). Qed.

Lemma to_upstream_asked_as j service r body p :
  served (hr_header r) ->
  asked_as r (prov_Upstream p) body
    (to_upstream (mkRequest j service (hr_method r) (target r) (requestHeaders (hr_header r) (len body))) p body).
Proof.
  intros Hs. split; try done.
  - simpl. by rewrite target_written.
  - intros name Hn. cbn [up_header to_upstream req_Headers]. rewrite request_roundtrip by done. apply kept_carried.
  - simpl. by rewrite toHTTP_lookup.
  - simpl. set (v := toHTTP _ _ !! _). by destruct v.
Qed.

Abbreviation as_headers := (map (fun h : string * string => AppHeader h.1 h.2)).

Lemma as_headers_are l : Forall is_app_header (as_headers l).
Proof. apply Forall_forall. intros e (h & -> & _)%list_elem_of_fmap. by repeat eexists. Qed.

Lemma no_bytes (hs : list (string * string)) :
  omap (fun e => match e with AppBytes bs => Some bs | _ => None end) (as_headers hs) = [].
Proof. by induction hs. Qed.

Lemma head_values name hs :
  app_values name (as_headers (head_headers hs)) = if hopByHop name then [] else wire_values name hs.
Proof.
  induction hs as [|[n v] hs IH]; [by destruct (hopByHop name)|].
  change (mkHeader n v :: hs) with ([mkHeader n v] ++ hs). unfold head_headers, app_values in *.
  rewrite omap_app, map_app, omap_app, IH, wire_values_app. clear IH. cbn.
  destruct (decide (CanonicalMIMEHeaderKey n = name)) as [<-|Hn].
  - rewrite !bool_decide_true by done. by destruct (hopByHop (CanonicalMIMEHeaderKey n)); cbn; rewrite ?bool_decide_true by done.
  - rewrite !bool_decide_false by done.
    destruct (hopByHop (CanonicalMIMEHeaderKey n)); cbn; rewrite ?bool_decide_false by done; by destruct (hopByHop name).
Qed.

Lemma trailer_values name hs :
  app_values ("Trailer:" +:+ name) (as_headers (trailer_headers hs)) = wire_values name hs.
Proof.
  induction hs as [|[n v] hs IH]; [done|]. unfold app_values in *. cbn [trailer_headers map omap list_omap].
  rewrite wire_values_cons. cbn [header_Name header_Value fst snd].
  repeat case_bool_decide; subst; simplify_eq; [by f_equal | done..].
Qed.

Lemma shown_shown_as status header trailer reads :
  canonical header -> canonical trailer ->
  shown_as status header trailer reads
    (shown (Z.to_N status) (fromHTTP header []) (nonempty reads) (fromHTTP trailer [])).
Proof.
  intros Hh Ht. split.
  - unfold shown. do 2 eexists. split; [reflexivity|]. split_and!; [apply as_headers_are..| |]; intros name.
    + rewrite head_values, fromHTTP_values by done. pose proof (kept_not_hop header [] name) as Hk.
      replace (if hopByHop name then [] else _) with (if decide (kept header [] name) then header_values header name else [])
        by (destruct (decide (kept header [] name)); [by rewrite Hk | by destruct (hopByHop name)]).
      apply kept_carried.
    + rewrite trailer_values, fromHTTP_values by done. apply kept_carried.
  - unfold shown. rewrite !omap_app, !no_bytes, app_nil_r, <- (concat_nonempty reads). cbn [omap list_omap app]. f_equal.
    induction (nonempty reads) as [|bs pieces IH]; [done|]. cbn [flat_map app omap list_omap]. by f_equal.
Qed.

(** C6. The pool is transparent, and answers.  When nothing goes wrong, an
    application's request runs to its end through all three programs, each given
    exactly the messages the others sent: the consumer's request and body the
    server's, what the server forwards the provider's, the provider's answer the
    server's, and what the server passes on the consumer's.  The upstream is asked
    once, with the application's method, target and whole body and every header of
    its that is not hop-by-hop nor listed by Connection, value by value; and the
    application is shown the upstream's status, its headers value by value, the
    pieces of its body as they were read and so its body byte for byte, and its
    trailers.  Each of the three has returned. *)
Theorem pool_is_transparent `{Texts} service r body status header trailer chunks last byName p
    jc qc cc cs qs jp qp cp c3 q3 :
  isUpgrade (hr_header r) = false -> HasPrefix (written_target r) "/" = true -> (100 <= status <= 599)%Z ->
  byName !! service = Some p ->
  served (hr_header r) -> canonical header -> canonical trailer ->
  exists request rest forwarded rest' answer answer' u app,
    runs (fine jc qc cc body status header trailer) (consume service r)
      (arriving (on qc answer) []) Returned
      (sent_on (on cc (MRequest request :: rest)) [] app) /\
    runs (fine jp qp cp body status header trailer) (relay cs request qs)
      (arriving (on qs rest ++ on qp answer') []) tt
      (sent_on (on cp (MRequest forwarded :: rest') ++ on cs answer) [] []) /\
    runs (fine jp qp cp body status header trailer) (provide byName c3 forwarded q3)
      (arriving (on q3 rest') (reads_of chunks last)) tt
      (sent_on (on c3 answer') [u] []) /\
    req_Job request = jc /\ req_Job forwarded = jp /\
    asked_as r (prov_Upstream p) body u /\
    shown_as status header trailer (chunks ++ [last]) app.
Proof.
  intros Hu Ht Hs Hp Hr Hh Htr. rewrite <- target_written in Ht.
  set (req j := mkRequest j service (hr_method r) (target r) (requestHeaders (hr_header r) (len body))).
  set (n := Z.to_N status). set (hs := fromHTTP header []). set (tr := fromHTTP trailer []).
  set (reads := nonempty (chunks ++ [last])).
  destruct (runs_consume jc qc cc body status header trailer service r n hs reads tr Hu) as (sent & Hsent & Hc).
  destruct (runs_relay jp qp cp body status header trailer cs (req jc) qs sent (fromHTTP (hr_trailer r) []) n hs reads tr)
    as (fw & Hfw & Hl). rewrite (proj1 Hsent) in Hfw.
  pose proof (runs_provide jp qp cp body status header trailer byName c3 (req jp) q3 p fw (fromHTTP (hr_trailer r) [])
    chunks last Hp Ht Hs) as Hv. rewrite (proj1 Hfw) in Hv.
  do 8 eexists. split_and!; [exact Hc | exact Hl | exact Hv | done | done | by apply to_upstream_asked_as |].
  by apply shown_shown_as.
Qed.

(** ** One request *)
Definition demo_ask : http_request := mkHTTPRequest "POST" "/v1" "/v1" demo_header ∅.
Definition demo_upstream : Provide := mkProvide "llm" "h:80" 1 100.

Lemma pool_is_transparent_witness :
  exists request rest answer u app,
    runs (fine 1 4 5 [x41; x42] 200 {["Server" := ["x"]]}%string ∅) (consume "llm" demo_ask)
      (arriving (on 4 answer) []) Returned (sent_on (on 5 (MRequest request :: rest)) [] app) /\
    up_method u = "POST"%string /\ up_url u = "http://h:80/v1"%string /\ up_body u = [x41; x42] /\
    up_header u !! "Accept"%string = Some ["a"; "b"]%string /\ up_header u !! "X-Private"%string = None /\
    exists heads trails, app = heads ++ [AppStatus 200; AppFlush; AppBytes [x43]; AppFlush; AppBytes [x44]; AppFlush] ++ trails /\
      app_values "Server" heads = ["x"%string].
Proof.
  destruct (pool_is_transparent "llm" demo_ask [x41; x42] 200 {["Server" := ["x"]]}%string ∅ [[x43]; []] [x44]
    {["llm"%string := demo_upstream]} demo_upstream 1 4 5 6 7 2 8 9 10 11)
    as (request & rest & forwarded & rest' & answer & answer' & u & app & Hc & _ & _ & _ & _ & Ha & [Hp _]);
    [vm_compute; reflexivity | vm_compute; reflexivity | lia | apply lookup_singleton_eq | apply demo_served
    | intros name vs [<- _]%lookup_singleton_Some; vm_compute; reflexivity | intros name vs E; by rewrite lookup_empty in E |].
  exists request, rest, answer, u, app. destruct Ha as [Hm Hurl _ Hb Hhd _ _].
  split_and!; [exact Hc | exact Hm | exact Hurl | exact Hb | | |].
  - apply (Hhd "Accept"%string); [done|]. apply kept_travels. vm_compute. reflexivity.
  - apply (Hhd "X-Private"%string); [done|]. rewrite <- kept_travels. vm_compute. discriminate.
  - destruct Hp as (heads & trails & -> & _ & _ & Hv & _). exists heads, trails. split; [reflexivity|].
    transitivity (header_values {["Server" := ["x"]]}%string "Server"); [|vm_compute; reflexivity].
    apply Hv, kept_travels. vm_compute. reflexivity.
Defined.
