(* ===== verification/StaleProvider.v ===== *)
(** The relay loop of internal/peer/server.go on the pool [register] leaves when
    it refuses a HELLO.

    The provider added before the refusal stays in the pool and its connection
    is closed.  Here [Acquire] and [Release] are the pool's own, on the pool as
    the refusal leaves it. *)

From ITree Require Import ITree.
From S2P Require Import Prelude Bytes Io Message Pool PoolFacts Register Queue Conn PoolSystem Interact Calls Job Server.
Local Open Scope Z_scope.

(** Everything a job's goroutine can ask about time and its application: when
    the [k]th call of the run is made, whether the context has ended, why, and
    what the clock says.  Nothing is assumed of them. *)
Record surroundings : Type := mkSurroundings {
  su_ended : nat -> bool;
  su_cancelled : nat -> bool;
  su_clock : nat -> Z;
}.

(** The calls of a job's goroutine on a server whose pool is [p], where the
    connection [dead] is closed.  A job that would wait is told its context
    ended, which does not happen here. *)
Definition with_pool_at (dead : nat) (su : surroundings) (k : nat) (X : Type) (e : callE X) (p : Pool nat) : X * Pool nat :=
  match e in callE X return X * Pool nat with
  | CSend c _ => (if bool_decide (c = dead) then Some ErrClosed else None, p)
  | CNewJob c => (if bool_decide (c = dead) then Err ErrClosed else Ok (2%N, 0%nat), p)
  | CNext _ => (Ok (MEnd (mkEnd 0 [])), p)
  | CCtxEnded => (su_ended su k, p)
  | CCauseCancelled => (su_cancelled su k, p)
  | CNow => (su_clock su k, p)
  | CAcquire service _ front =>
      match Acquire_enter service front p with
      | (inl l, p) =>
          (Ok (l, option_map pr_Target (p_leases p !! l ≫= fun ls => p_heap p !! l_provider ls)), p)
      | (inr _, p) => (Err ContextErr, p)
      end
  | CRelease l => (tt, default p (Release l p))
  | CTake _ _ => (true, p)
  | CConnection => (None, p)
  | CNewRequest _ _ => (None, p)
  | CDo _ => (Ok (200, ∅), p)
  | CRead _ => (([], AtEOF), p)
  | CTrailer => (∅, p)
  | CReadAll => (Ok [], p)
  | CWrite _ => (None, p)
  | CEndJob _ _ | CFail _ _ | CCancel _ | CWatch _ | CGive _ | CCloseBody | CHeaderSet _ _ | CHeaderAdd _ _
  | CWriteHeader _ | CFlush => (tt, p)
  end.

(** With the calls counted. *)
Definition with_pool (dead : nat) (su : surroundings) (X : Type) (e : callE X) (s : nat * Pool nat) : X * (nat * Pool nat) :=
  let '(x, p) := with_pool_at dead su s.1 X e s.2 in (x, (S s.1, p)).

(** A service with one provider, all its slots free, whose connection is dead. *)
Record stale (dead : nat) (name : string) (p : Pool nat) : Prop := {
  st_waiters : waiters p name = [];
  st_provider : exists a pr, providers p name = [a] /\ p_heap p !! a = Some pr /\
    pr_busy pr = 0 /\ 0 < pr_Slots pr /\ pr_gone pr = false /\ pr_Target pr = dead;
}.

Section Stale.
Context `{Texts} (dead : nat) (su : surroundings).

Abbreviation runs := (runs (with_pool dead su)).

Lemma stale_turn c req body trailers arrived front k p :
  stale dead (req_Service req) p ->
  exists k' p', runs (relay_turn c req body trailers arrived front) (k, p) (inl true) (k', p') /\
    stale dead (req_Service req) p'.
Proof.
  intros [Hw (a & pr & Hps & Ha & Hb & Hs & Hg & Ht)].
  set (p1 := make_service (req_Service req) p).
  destruct (make_service_stores p (req_Service req)) as (Hheap & _). fold p1 in Hheap.
  set (l := p_next p1).
  set (p2 := (take (req_Service req) a pr p1).2).
  assert (Acquire_enter (req_Service req) front p = (inl l, p2)) as Hacq.
  { unfold Acquire_enter. fold p1. unfold p1 at 1. rewrite waiters_make_service, Hw. unfold p1 at 1.
    rewrite best_make_service. unfold best. rewrite Hps. cbn [fold_left]. unfold best_step. rewrite Ha, Hg. cbn [orb].
    by rewrite (proj2 (Z.leb_gt _ _)) by lia. }
  assert (p_leases p2 !! l = Some (mkLease (req_Service req) a false)) as Hl by apply lookup_insert_eq.
  assert (p_heap p2 !! a = Some (with_busy (pr_busy pr + 1) pr)) as Ha2 by apply lookup_insert_eq.
  assert (exists p3, Release l p2 = Some p3 /\ stale dead (req_Service req) p3) as (p3 & Hrel & Hst).
  { unfold Release. rewrite Hl. cbn [l_released l_service l_provider]. cbn [p_heap set_lease]. rewrite Ha2.
    match goal with |- exists p3, Pool.dispatch _ ?q = _ /\ _ => set (p3 := q) end.
    assert (forall n, lookup_service p3 n = lookup_service p1 n) as Hls by done.
    assert (waiters p3 (req_Service req) = []) as Hw3.
    { unfold waiters. rewrite Hls. change (waiters p1 (req_Service req) = []). unfold p1. by rewrite waiters_make_service. }
    exists p3. split; [unfold Pool.dispatch; by rewrite Hw3|]. split; [done|].
    exists a, (with_busy (pr_busy (with_busy (pr_busy pr + 1) pr) - 1) (with_busy (pr_busy pr + 1) pr)).
    split_and!; [|apply lookup_insert_eq|simpl; lia|done|done|done].
    unfold providers. rewrite Hls. change (providers p1 (req_Service req) = [a]). unfold p1. by rewrite providers_make_service. }
  exists (3 + k)%nat, p3. split; [|done]. clearbody p2. unfold relay_turn.
  eapply runs_call.
  { unfold with_pool. cbn. rewrite Hacq, Hl. cbn. rewrite Ha2. cbn. rewrite Ht. reflexivity. }
  cbn iota beta. eapply (runs_bind _ _ _ _ (false, Some errProviderGone)).
  - unfold Server.dispatch. eapply runs_call; [unfold with_pool; cbn; rewrite bool_decide_true by done; reflexivity|]. apply runs_ret.
  - eapply runs_call; [unfold with_pool; cbn; rewrite Hrel; reflexivity|]. apply runs_ret.
Qed.

(** The refusal of a HELLO that announces one service twice leaves it stale. *)
Lemma Add_alone a pr (p : Pool nat) :
  p_heap p !! a = Some pr -> waiters p (pr_Service pr) = [] ->
  exists q, Add a p = Some q /\ p_heap q = p_heap p /\ waiters q (pr_Service pr) = [] /\
    providers q (pr_Service pr) = providers p (pr_Service pr) ++ [a].
Proof.
  intros Ha Hw. unfold Add. rewrite Ha. eexists. split.
  - unfold Pool.dispatch. rewrite waiters_set_providers, waiters_make_service, Hw. reflexivity.
  - split; [apply make_service_stores|].
    rewrite waiters_set_providers, waiters_make_service, providers_set_providers, !providers_make_service.
    by rewrite decide_True.
Qed.

Lemma refused_stale timeout peer info info' :
  info_Service info' = info_Service info -> (1 <= info_MaxConcurrent info)%N ->
  exists p, register dead (mkHello peer [info; info']) (New timeout) = Some (Err (info_Service info), p) /\
    stale dead (info_Service info) p.
Proof.
  intros Hsame Hslots. unfold register. cbn [register_loop hello_Name hello_Providers].
  rewrite bool_decide_false by (apply not_elem_of_nil).
  set (new := new_provider _ _ _ _ _ _). destruct new as [a p] eqn:E. subst new. injection E as <- <-.
  edestruct (Add_alone 0%nat) as (q & -> & Hh & Hw & Hp); [apply lookup_insert_eq | done |].
  cbn [pr_Service] in Hw, Hp. rewrite Hsame, bool_decide_true by (by left).
  exists q. split; [done|]. split; [done|]. eexists 0%nat, _.
  split_and!; [exact Hp | rewrite Hh; apply lookup_insert_eq | done | simpl; lia | done | done].
Qed.

(** C27. A refused HELLO can keep the server busy for ever.  When a HELLO
    announces a service twice, [register] refuses it but its first provider stays
    in the pool.  A job for that service is then never answered and never ends:
    [relay] takes the provider's slot, finds the connection closed, gives the
    slot back and queues the job again at the head, without once waiting.  This
    is so whatever its context and the clock say at any moment, so neither the
    application's leaving nor the end of the queue's timeout is ever noticed. *)
Theorem refused_hello_spins timeout peer info info' c req q k :
  info_Service info' = info_Service info -> (1 <= info_MaxConcurrent info)%N ->
  req_Service req = info_Service info ->
  exists p, register dead (mkHello peer [info; info']) (New timeout) = Some (Err (info_Service info), p) /\
    spins (with_pool dead su) (relay c req q) (k, p).
Proof.
  intros Hsame Hslots Hreq. destruct (refused_stale timeout peer info info' Hsame Hslots) as (p & Hp & Hst).
  exists p. split; [done|]. rewrite <- Hreq in Hst. unfold relay. apply spins_bind.
  eapply spins_call; [reflexivity|]. apply spins_bind. eapply spins_after.
  { eapply runs_iter; [eapply runs_call; [reflexivity|]; apply runs_ret|]. by split. }
  eapply spins_call; [reflexivity|].
  apply (spins_iter _ _ (fun _ s => stale dead (req_Service req) s.2)); [|done].
  intros front [k' p'] Hs. destruct (stale_turn c req [] [] (su_clock su k) front k' p' Hs) as (k'' & p'' & Hr & Hs').
  by exists true, (k'', p'').
Qed.

End Stale.

(** An application that left before the job came in, on a clock far past the
    timeout. *)
Definition long_gone : surroundings := mkSurroundings (fun _ => true) (fun _ => true) (fun k => 1000000 * Z.of_nat k).

Lemma refused_hello_spins_witness :
  exists p, register 7%nat demo_twice (New 600) = Some (Err "llm"%string, p) /\
    (exec (with_pool 7 long_gone) 1000 (relay 0 (mkRequest 1 "llm" "GET" "/" []) 0) (0%nat, p)).2 = None.
Proof.
  destruct (refused_hello_spins 7 long_gone 600 "peer" (mkProviderInfo "llm" 1 100) (mkProviderInfo "llm" 2 50) 0%nat
    (mkRequest 1 "llm" "GET" "/" []) 0%nat 0%nat) as (p & Hp & Hs); [reflexivity | simpl; lia | reflexivity |].
  exists p. split; [exact Hp | apply Hs].
Defined.
