(* ===== verification/LogState.v ===== *)
(** What SIGUSR1 logs: [LogState] of internal/peer/server.go and client.go, and
    the list of peers the server keeps for it.  A line is what it is made of. *)

From S2P Require Import Prelude Bytes Conf Pool.
Local Open Scope Z_scope.

Inductive log_line : Type :=
  | PeersLine (count : Z) (names : list string)
  | ProviderLine (service peer : string) (busy slots priority : Z)
  | QueueLine (service : string) (waiting providers : Z)
  | ClientLine (server : string) (connected : bool)
  | ProvideLine (p : Conf.Provide)
  | ConsumeLine (c : Conf.Consume).

(** ** internal/peer/server.go *)
Definition addPeer (c : nat) (peers : gset nat) : gset nat := {[c]} ∪ peers.
Definition removePeer (c : nat) (peers : gset nat) : gset nat := peers ∖ {[c]}.

Definition provider_line (service : string) (p : ProviderState) : log_line :=
  ProviderLine service (ps_Peer p) (ps_Busy p) (ps_Slots p) (ps_Priority p).

Definition service_lines (s : ServiceState) : list log_line :=
  map (provider_line (ss_Name s)) (ss_Providers s) ++
  [QueueLine (ss_Name s) (ss_Waiting s) (Z.of_nat (length (ss_Providers s)))].

(** [names] are the peers' names in the order the map gave them. *)
Definition state_lines (names : list string) (services : list ServiceState) : list log_line :=
  PeersLine (Z.of_nat (length names)) (sort_strings names) :: flat_map service_lines services.

Definition Server_LogState {T} (name_of : nat -> string) (peers : gset nat) (p : Pool T) : list log_line :=
  state_lines (map name_of (elements peers)) (Snapshot p).

(** ** internal/peer/client.go *)
Definition Client_LogState (cfg : Conf) (connection : option nat) : list log_line :=
  ClientLine (cf_Server cfg) (bool_decide (is_Some connection)) ::
  map ProvideLine (cf_Provide cfg) ++ map ConsumeLine (cf_Consume cfg).

(** Go's map order does not show. *)
Lemma state_lines_order names names' services :
  names ≡ₚ names' -> state_lines names services = state_lines names' services.
Proof.
  intros Hp. unfold state_lines. rewrite (Permutation_length Hp). do 2 f_equal.
  apply (StronglySorted_unique string_le).
  - apply Sorted_StronglySorted; [apply _ | apply sort_strings_sorted].
  - apply Sorted_StronglySorted; [apply _ | apply sort_strings_sorted].
  - by rewrite !sort_strings_perm.
Qed.

(** A peer is on the list from [addPeer] to [removePeer]. *)
Lemma peers_listed c d peers :
  (d ∈ addPeer c peers <-> d = c \/ d ∈ peers) /\ (d ∈ removePeer c peers <-> d <> c /\ d ∈ peers).
Proof. unfold addPeer, removePeer. set_solver. Qed.
